(* ===== verification/_CoqProject ===== *)
-Q . S2P
Prelude.v
Slices.v
Ring.v
OrderedMap.v
RBTree.v
Chan.v
Lifo.v
Scheduler.v
Poolers.v
Metrics.v
Wire.v
Packets.v
Codec.v
Strutil.v
Encodings.v
Fed.v
Eqp.v
Perror.v
Codes.v
Startup.v
Containers.v
Report.v
Credentials.v
Ini.v
IniDoc.v
Gsql.v
Backend.v
EqpSync.v
Dialing.v
InitialSync.v
Ps.v
Pools.v
Cancel.v
Replay.v
Mio.v
Conc.v
Kitchen.v
Spool.v
Discovery.v
Discoverers.v
Gat.v
PgConfig.v
CaddyModules.v
Provision.v
Caddyfile.v
CaddyFacts.v
CaddyTokens.v
ServerType.v
Server.v
