(* ===== verification/Prelude.v ===== *)
(** * pggat: a verification development

    pggat is a connection pooler for PostgreSQL.  Clients speak the wire
    protocol to it as if it were a server; it relays their transactions to
    servers taken from pools.  This library models the core of the program
    (the Go code under src/lib) as executable Rocq functions and proves what
    makes it correct.

    *** The program and the files

    From the wire up:

    - Bytes and packets.  lib/fed/encoder.go and decoder.go frame packets over
      a buffered stream: [Wire] (Modules Enc, Dec, Relay).  Every packet of
      lib/fed/packets/v3.0/packets.go has a Module in [Packets] with its fields
      ([t]), [Type_], [Length], [ReadFrom] and [WriteTo]; [Packet] is their sum,
      [WritePacket] and [ReadPacket] are those of the net.Conn codec, whose other
      methods, with the switch to TLS, are [Codec].
    - Connections.  lib/fed/conn.go passes packets through a list of
      middlewares: [Fed].  What others rely on is the interface [ConnOps] with
      [ConnLaws]; [conn_laws] discharges it for [Conn] from the laws of its codec
      and middlewares.
    - Middlewares.  lib/fed/middlewares/eqp follows prepared statements and
      portals and makes a server match a client: [Eqp]; the exchange with the
      server by which it does so is [EqpSync].  lib/fed/middlewares/ps
      does so for run-time parameters: [Ps].  unterminate is in [Fed].  All are
      instances of [MiddlewareOps] and [MiddlewareLaws].
    - Relaying.  lib/bouncer/backends/v0 (context.go, query.go) and
      lib/bouncer/bouncers/v2 relay one transaction: [Backend], over any two
      connections with [ConnLaws].
    - Serving a client.  The loops of lib/gat/handlers/pool/pools/basic and
      hybrid: [Pools], over the interface [PoolEnv] of what they call, with a log
      of what they do.  Cancel of both pools reads a client's log: [Cancel].  The
      middleware by which the hybrid pool repeats a transaction on the primary
      (hybrid/middleware.go, buffer.go) is [Replay]; the initial synchronisation
      of parameters of the basic pool is [InitialSync].
    - Beginning a connection.  backends/v0/accept.go connects to a server,
      frontends/v0 accepts and authenticates a client, lib/bouncer/sslmode.go
      says what TLS is worth: [Startup].  lib/perror, the errors sent to a
      client, is [Perror], its tables of codes [Codes].  lib/auth/credentials, the passwords and what they
      verify, is [Credentials], over the parts of Go's library in [Encodings].
    - Sharing servers.  A server pool (spool/pool.go, [Spool]) asks a pooler for
      a server: the last-in first-out one of poolers/lifo is [Lifo], the fair one
      of poolers/rob is the scheduler of lib/rob/schedulers/v3, [Scheduler].
      [Poolers] is the interface of both, with its two instances.  The reply
      channels a waiting client blocks on are the same in both: [Chan].
    - Making servers.  The chef of spool/kitchen dials connections from recipes
      (pool/recipe.go), within their limits: [Kitchen].  pool/dialer.go and the
      critics that rate servers are [Dialing].
    - The program's own queries.  lib/gsql sends a query and fills Go values with
      the rows: [Gsql].
    - Configuration files.  lib/util/encoding/ini and userlist fill Go values from
      text: [Ini]; what a file means, line by line, is [IniDoc]; the
      configuration of handlers/pgbouncer (config.go, authfile.go) is [PgConfig].
      The program's own file is read by lib/gat/gatcaddyfile over Caddy's
      dispenser of tokens.  The modules it configures, one record each, with
      their identifiers, are [CaddyModules]; the registry and the directives are
      [Caddyfile]; gattype.go, which makes servers of a file, is [ServerType].
      [CaddyFacts] and [CaddyTokens] have what holds of the directives, for any
      dispenser with the laws of Caddy's and for one that is written out.  What
      Provision makes of a configured module is in [CaddyTokens] for the
      matchers and in [Provision] for pools and for handlers/pgbouncer_spilo.
    - The app.  lib/gat/app.go, server.go, route.go and listen.go start and stop
      the servers of a configuration and accept connections: [Server].
    - Choosing a pool.  lib/gat/server.go sends a client through the routes whose
      matchers accept it; the matchers, the small handlers and the handler of
      pgbouncer.ini are in [Gat].  The pools of clusters found at run time are
      kept by handlers/discovery: [Discovery]; what the four discoverers make of
      the objects of their APIs, with lib/k8s, is [Discoverers].
    - Reports.  lib/gat/metrics and the records of what servers and clients do:
      [Metrics]; how the pools are read and the text that is logged: [Report].
    - Containers and strings.  lib/util/ring is [Ring], lib/util/rbtree is
      [RBTree], lib/util/slices and the pool of lib/util/pools are [Slices],
      lib/util/strutil is [Strutil]; the pipes, connections and listeners in
      memory of lib/util/mio are [Mio]; lib/util/maps, lib/util/flip and the pools
      of slices are [Containers].  [OrderedMap] is the interface the scheduler
      uses its tree through; [RBTree] implements it.

    *** How Go is modelled

    - [outcome] (below): a call returns, panics (index out of range, nil
      dereference, use of a closed channel) or keeps running.  Errors are values,
      as in Go; [Wire] has a monad [io] for code that threads them with a state.
    - Pointers that are shared become keys of stores in the state ([uheap] and
      [wheap] of the scheduler); fresh values are pure.
    - A method under a mutex is one step.  Where a method releases it (Acquire
      of both poolers, while it waits) it is several steps, and a [Sys] record
      interleaves the steps of any number of callers; invariants are proved by
      [invariant_reachable].  The chef and the server pool release theirs in the
      middle of loops: they are written in the monad of [Conc], whose programs
      stop at each call made without the mutex, and their invariants are proved
      by its rely-guarantee rule.  A receive that blocks with the mutex held is
      [Diverge].
    - Iteration over a Go map takes the order as an argument, any permutation.
    - Integers that wrap are Z with the wrap-around written out ([uwrap],
      [swrap]); lengths and positions in buffers are Z or nat.
    - Time is an argument of the calls that read it.

    *** Fuel

    A definition takes fuel where the loop of the source is not structural.
    No theorem hides a lack of it: for rings, trees, poolers and the scheduler
    the fuel is computed in the definition and shown to be enough; for streams
    ([Wire], [Fed], [Backend], [Pools]) a theorem asks for as much fuel as there
    are bytes or packets to come and concludes that the code returns.  That a
    connection has finitely many packets to come is no restriction on finite
    runs: after the last packet of a script the read fails, which is what a
    closed connection does.  The directives of a configuration file call each
    other through the registry: [Caddyfile.lookup] ties the knot with fuel, and
    as much fuel as there are tokens is enough.

    *** What is shown

    - [Backend]: a transaction returns, never panics; a server is only given
      back idle, also if the client is lost; while the client is there the
      packets are relayed in order and unchanged.
    - [Pools]: every acquired server is released, or removed if it failed,
      exactly once and to its own pool, on every path; a client holds one server
      at a time.
    - [Cancel], [Replay], [InitialSync]: a cancel request in a basic pool reaches
      the server its client holds and no other; the packets repeated on the
      primary are those the client sent; after the initial synchronisation the
      client knows the values the server has.
    - [Lifo], [Scheduler]: a server is lent to one client at a time; no server is
      idle while a client waits; no wake-up is lost and no call blocks with the
      mutex held; clients are served in order of arrival, or by least stride with
      exact accounting of the time used.
    - [Eqp], [Ps]: what the trackers record is what the server has; Sync brings a
      server to the client's statements, portals and parameters and the server
      accepts what it sends.
    - [EqpSync]: the exchange itself returns, whatever the server answers, and
      sends exactly those requests and a Sync.
    - [Codec]: nothing that was received in clear is read as if TLS had protected
      it, and everything written before is sent before the handshake.
    - [Packets], [Wire]: every packet survives writing and reading, whatever the
      buffers and chunks; a packet has the length its header announces; relaying
      copies exactly one packet.
    - [Startup]: with a mode that requires TLS nothing but the request for TLS is
      sent in clear; a server is accepted only when it says it is ready, with the
      parameters and key it announced; a client has the user and database of its
      startup packet and is let in only if its password or SASL exchange verifies.
    - [Kitchen]: in every interleaving the counter of a recipe is the connections
      it has and those in progress, within its maximum; no connection is lost or
      closed twice; Cook dials the recipe of best rating and fewest connections.
    - [Spool]: in every interleaving the two maps of a pool and the pooler agree;
      ScaleDown removes exactly the servers that have been idle too long.
    - [Discovery]: after every event and reconciliation the pools a client can
      reach are those of the clusters reported, with their credentials and
      recipes, and no other pool is open.
    - [Gat]: Serve runs the handlers of the routes whose matcher is true of the
      client; no pool serves a client before its credentials were checked.
    - [Server]: a started app listens where it is configured to and stopping it
      undoes that; a connection is closed whatever it was, a cancel request goes
      to the handlers that can cancel, a client to the routes.
    - [Caddyfile], [ServerType]: reading a file ends; every server, listener and
      route of the file is in the configuration, in order; matchers mean what
      was written; a directive makes a module of its namespace.
    - [Discoverers]: a standby found by DNS is never the primary; the clusters of
      the Zalando operator have distinct users and databases, as [Discovery] asks.
    - [Credentials]: the passwords PostgreSQL stores are read back as what they
      are and verify what the password does.
    - [Ini], [IniDoc], [PgConfig]: reading a configuration returns, without panics
      and with values of their types; it stores exactly the settings of the file,
      in order; an option has the value of its last setting or its default.
    - [Gsql]: an argument that comes back in a column is read as what was sent; a
      row is distributed to the fields by name.
    - [Mio]: a pipe is a stream and wakes its readers.
    - [Containers], [Report], [Codes]: the locked map behaves like a map, one call
      after the other; every client is reported once; an error with a code of the
      tables can be sent and read back.
    - [Ring], [RBTree], [Strutil]: the containers behave like lists and finite
      maps, the tree stays balanced, the matcher decides wildcard patterns.
    - Defects, proved on the model: [scheduler_timeout_race] (a timer removes
      another user's job), [phony_sync_status] (an idle client's Sync is answered
      with status 0), [set_parameter_injection] (SET values are escaped for the
      wrong kind of literal), [bind_negative_length_panics],
      [make_ring_full_pop_push_panics], [startup_options_panics] (startup options
      that end in -c), [release_idle_race] (a server in use is marked idle),
      [reconcile_replaced_loses_pool] (a cluster that is replaced under the same
      users ends without pools), [pgbouncer_never_serves] (the handler has no
      pool), [pgbouncer_auth_user_loops], [cancel_astray] (a request cancels
      another client's query, or none), [primary_pairing_silenced] and
      [read_only_ends_session] (the hybrid middleware), [read_deadline_ignored],
      [listener_deaf] and [close_strands_accept] (lib/util/mio), [include_cycle],
      [port_wraps], [listen_without_tls] (configuration), [short_md5_misread],
      [dial_leaks], [zero_threshold_panics], [cloud_sql_replicas_are_primary],
      [cnpg_event_after_cleanup], [zalando_no_config], [failed_start_leaks]
      (sockets stay open and Stop panics), [negative_period_panics],
      [parse_address_ipv6], [close_leaks] (a codec), [tracing_unknown_panics] and
      [spilo_serves_nobody] (the handler for spilo knows one user).

    *** What is not modelled, and why

    I/O and calls to libraries: sockets, TLS and DNS themselves, tracing and
    Prometheus (middlewares/tracing, lib/instrumentation), the connections to the
    APIs of the discoverers, the certificates of lib/gat/ssl.  Glue and tools: the
    command line (cmd), the packet generator (hack), of which the output is
    modelled, and the integration tests (test).  Methods that print a packet for a
    log, and methods of the pools that only call the server pool.  The
    conversations of SCRAM, floats, durations, JSON, the tables of Unicode and
    strconv.Unquote are parameters.  Packets above [Fed] are values: that a packet
    read lazily from a connection may fail while it is relayed is an error of the
    write; [Replay], where it matters what is left in a decoder, works with the
    decoders themselves.

    This file holds what the others share: outcomes, reachability, tactics. *)

From stdpp Require Export base gmap sets strings list.

Create HintDb pggat.

(** ** Outcomes of Go code

    A Go function either returns, panics (nil dereference, index out of
    range, explicit [panic], send on or close of a closed channel), or keeps
    running.  [Diverge] is only produced by definitions that take fuel. *)
Inductive outcome (A : Type) : Type :=
| Ret (a : A)
| Panic
| Diverge.
Arguments Ret {A} a.
Arguments Panic {A}.
Arguments Diverge {A}.

Definition obind {A B} (m : outcome A) (k : A -> outcome B) : outcome B :=
  match m with
  | Ret a => k a
  | Panic => Panic
  | Diverge => Diverge
  end.

Definition ofmap {A B} (f : A -> B) (m : outcome A) : outcome B :=
  obind m (fun a => Ret (f a)).

(** [x, ok := e] where a nil pointer dereference or an out of range index
    panics: the option is the partial access. *)
Definition deref {A} (o : option A) : outcome A :=
  match o with
  | Some a => Ret a
  | None => Panic
  end.

Declare Scope go_scope.
Delimit Scope go_scope with go.
Notation "'let!' x := m 'in' k" := (obind m (fun x => k))
  (at level 10, x binder, m at level 100, k at level 200) : go_scope.
Notation "'assert!' b 'in' k" := (if b : bool then k else Panic)
  (at level 10, b at level 100, k at level 200) : go_scope.

Lemma obind_Ret {A B} (m : outcome A) (k : A -> outcome B) b :
  obind m k = Ret b <-> exists a, m = Ret a /\ k a = Ret b.
Proof.
  split.
  - destruct m; simpl; intros H; try discriminate. eauto.
  - intros (a & -> & H). exact H.
Qed.

Lemma ofmap_Ret {A B} (f : A -> B) (m : outcome A) b :
  ofmap f m = Ret b <-> exists a, m = Ret a /\ f a = b.
Proof.
  unfold ofmap. rewrite obind_Ret. split; intros (a & -> & H); exists a; split; congruence.
Qed.

Lemma deref_Ret {A} (o : option A) a : deref o = Ret a <-> o = Some a.
Proof. destruct o; simpl; split; congruence. Qed.

(** ** Zero values

    [*new(T)] of the source. *)
Class Zero (A : Type) := zero : A.

(** ** Reachability

    A component with interleaved calls is a step relation on its state.
    [reachable init step] is the set of the states of its executions and
    [invariant_reachable] is the rule-induction principle every invariant of
    the development goes through. *)
Section Reachability.
Context {S : Type} (init : S -> Prop) (step : S -> S -> Prop).

Inductive reachable : S -> Prop :=
| reachable_init s : init s -> reachable s
| reachable_step s s' : reachable s -> step s s' -> reachable s'.

Lemma invariant_reachable (I : S -> Prop) :
  (forall s, init s -> I s) ->
  (forall s s', reachable s -> I s -> step s s' -> I s') ->
  forall s, reachable s -> I s.
Proof. intros Hi Hs s Hr. induction Hr; eauto. Qed.
End Reachability.

#[export] Hint Constructors reachable : pggat.

(** ** Tactics *)

(** Destruct the scrutinee of a [match] or [if] of the goal or of a
    hypothesis, remembering the equation. *)
Ltac case_goal :=
  match goal with
  | |- context [match ?x with _ => _ end] => destruct x eqn:?
  end.
Ltac case_hyp H :=
  match type of H with
  | context [match ?x with _ => _ end] => destruct x eqn:?
  end.

(** Invert a successful run in the outcome monad, one bind at a time. *)
Ltac inv_ret :=
  repeat match goal with
  | H : obind _ _ = Ret _ |- _ =>
      apply obind_Ret in H; destruct H as (? & ? & H); cbn beta in H
  | H : ofmap _ _ = Ret _ |- _ => apply ofmap_Ret in H; destruct H as (? & ? & H)
  | H : deref _ = Ret _ |- _ => apply deref_Ret in H
  | H : Ret _ = Ret _ |- _ => injection H as H
  | H : Panic = Ret _ |- _ => discriminate H
  | H : Diverge = Ret _ |- _ => discriminate H
  end.

(** Arithmetic on the lengths of list expressions. *)
Ltac simpl_len :=
  repeat (rewrite ?length_app, ?length_take, ?length_drop, ?length_replicate,
            ?length_insert, ?length_fmap, ?length_seq; cbn [length]).
Ltac len_lia := simpl_len; lia.

(** [case_decide] on the goal only, innermost test first. *)
Ltac gdecide :=
  match goal with
  | |- context [@decide ?P ?d] =>
      lazymatch P with
      | context [@decide _ _] => fail
      | _ => destruct (@decide P d)
      end
  end.
