(* ===== verification/Slices.v ===== *)
(** * Slices: lib/util/slices and lib/util/pools

    A Go slice is a window on an array.  [Remove] and [Delete] shift elements
    inside that array, so a caller that keeps the original slice sees the
    shifted contents: the definitions return both the original slice's new
    contents and the shortened slice.  [Resize] depends on the capacity, so
    it works on a [slice], a backing array with a length. *)

From S2P Require Import Prelude.

Local Open Scope go_scope.

Section Slices.
Context {A : Type} `{EqDecision A} `{Zero A}.
Implicit Types (l : list A) (x : A).

(** [copy(dst, src)]: the first [min (len dst) (len src)] elements of [dst]
    become those of [src] ([memmove] semantics, so overlap is harmless). *)
Definition go_copy (dst src : list A) : list A :=
  take (length dst) src ++ drop (length src) dst.

(** Index: the position of the first occurrence; [None] is the [-1] of the
    source. *)
Fixpoint Index (haystack : list A) (needle : A) : option nat :=
  match haystack with
  | [] => None
  | v :: rest => if decide (needle = v) then Some 0 else S <$> Index rest needle
  end.

Fixpoint Contains (haystack : list A) (needle : A) : bool :=
  match haystack with
  | [] => false
  | hay :: rest => if decide (hay = needle) then true else Contains rest needle
  end.

(** The loop of Equal, after the length test: [b[i]] is in range. *)
Fixpoint Equal_loop (a b : list A) : outcome bool :=
  match a, b with
  | [], _ => Ret true
  | av :: a', bv :: b' => if decide (av = bv) then Equal_loop a' b' else Ret false
  | _ :: _, [] => Panic
  end.

Definition Equal (a b : list A) : outcome bool :=
  if decide (length a = length b) then Equal_loop a b else Ret false.

(** RemoveIndex: the removed item moves to the end of the array and the
    returned slice leaves it out.  Result: (original slice, new slice). *)
Definition RemoveIndex (slice : list A) (idx : nat) : outcome (list A * list A) :=
  let! item := deref (slice !! idx) in
  let shifted := take idx slice ++ go_copy (drop idx slice) (drop (S idx) slice) in
  let final := <[length slice - 1 := item]> shifted in
  Ret (final, take (length slice - 1) final).

Definition Remove (slice : list A) (item : A) : outcome (list A * list A) :=
  match Index slice item with
  | None => Ret (slice, slice)
  | Some i => RemoveIndex slice i
  end.

(** DeleteIndex: like RemoveIndex but the freed slot holds the zero value. *)
Definition DeleteIndex (slice : list A) (idx : nat) : outcome (list A * list A) :=
  let! _ := deref (slice !! idx) in
  let shifted := take idx slice ++ go_copy (drop idx slice) (drop (S idx) slice) in
  let final := <[length slice - 1 := zero]> shifted in
  Ret (final, take (length slice - 1) final).

Definition Delete (slice : list A) (item : A) : outcome (list A * list A) :=
  match Index slice item with
  | None => Ret (slice, slice)
  | Some i => DeleteIndex slice i
  end.

(** ** What they compute *)

(** The reference definition: drop the first occurrence. *)
Fixpoint remove_first (x : A) (l : list A) : list A :=
  match l with
  | [] => []
  | y :: l' => if decide (x = y) then l' else y :: remove_first x l'
  end.

Lemma Index_Some l x i : Index l x = Some i -> l !! i = Some x.
Proof.
  revert i. induction l as [|y l IH]; intros i; simpl; [done|].
  case_decide; [intros [= <-]; by subst|].
  destruct (Index l x) as [j|] eqn:E; simpl; [|done].
  intros [= <-]. simpl. eauto.
Qed.

Lemma Index_None l x : Index l x = None <-> x ∉ l.
Proof.
  induction l as [|y l IH]; simpl; [set_solver|].
  case_decide; [set_solver|]. rewrite not_elem_of_cons, <- IH.
  destruct (Index l x); simpl; naive_solver.
Qed.

Lemma remove_first_Index l x i :
  Index l x = Some i -> remove_first x l = take i l ++ drop (S i) l.
Proof.
  revert i. induction l as [|y l IH]; intros i; simpl; [done|].
  case_decide; [by intros [= <-]|].
  destruct (Index l x) as [j|] eqn:E; simpl; [|done].
  intros [= <-]. simpl. by rewrite (IH j).
Qed.

Lemma remove_first_not_in l x : x ∉ l -> remove_first x l = l.
Proof.
  induction l as [|y l IH]; simpl; [done|].
  rewrite not_elem_of_cons. intros [? ?]. case_decide; [done|]. by rewrite IH.
Qed.

Lemma go_copy_shift l i :
  i < length l ->
  take (length l - 1) (take i l ++ go_copy (drop i l) (drop (S i) l)) =
  take i l ++ drop (S i) l.
Proof.
  intros Hi. unfold go_copy. rewrite !length_drop.
  rewrite (take_ge (drop (S i) l)) by (rewrite length_drop; lia).
  rewrite take_app. rewrite length_take.
  rewrite (take_ge (take i l)) by (rewrite length_take; lia).
  f_equal. rewrite take_app, length_drop.
  rewrite (take_ge (drop (S i) l)) by (rewrite length_drop; lia).
  rewrite <- (app_nil_r (drop (S i) l)) at 2. f_equal.
  replace (length l - 1 - i `min` length l - (length l - S i)) with 0 by lia.
  done.
Qed.

Lemma length_go_copy_shift l i :
  i < length l ->
  length (take i l ++ go_copy (drop i l) (drop (S i) l)) = length l.
Proof.
  intros Hi. unfold go_copy.
  rewrite !length_app, !length_take, !length_drop. lia.
Qed.

Lemma take_insert_last l n x : n <= length l -> take n (<[n:=x]> l) = take n l.
Proof. intros. by rewrite take_insert_ge by lia. Qed.

Lemma Remove_spec l x : exists orig,
  Remove l x = Ret (orig, remove_first x l) /\ orig ≡ₚ l.
Proof.
  unfold Remove. destruct (Index l x) as [i|] eqn:E.
  - pose proof (Index_Some _ _ _ E) as Hi.
    pose proof (lookup_lt_Some _ _ _ Hi) as Hlt.
    unfold RemoveIndex. rewrite Hi. cbn [deref obind].
    eexists. split.
    { f_equal. f_equal. rewrite take_insert_last.
      - rewrite (go_copy_shift l i Hlt). by rewrite (remove_first_Index _ _ _ E).
      - rewrite length_go_copy_shift by done. lia. }
    set (s := take i l ++ go_copy (drop i l) (drop (S i) l)).
    assert (Hs : length s = length l) by (by apply length_go_copy_shift).
    rewrite insert_take_drop by lia.
    rewrite (drop_ge s (S (length l - 1))) by lia.
    unfold s. rewrite go_copy_shift by done.
    rewrite <- (take_drop_middle l i x Hi) at 3.
    rewrite <- app_assoc. f_equiv. by rewrite <- Permutation_cons_append.
  - exists l. split; [|done]. apply Index_None in E. by rewrite remove_first_not_in.
Qed.

Lemma Delete_spec l x : exists orig, Delete l x = Ret (orig, remove_first x l).
Proof.
  unfold Delete. destruct (Index l x) as [i|] eqn:E.
  - pose proof (Index_Some _ _ _ E) as Hi.
    pose proof (lookup_lt_Some _ _ _ Hi) as Hlt.
    unfold DeleteIndex. rewrite Hi. cbn [deref obind].
    eexists. f_equal. f_equal. rewrite take_insert_last.
    + rewrite (go_copy_shift l i Hlt). by rewrite (remove_first_Index _ _ _ E).
    + rewrite length_go_copy_shift by done. lia.
  - exists l. apply Index_None in E. by rewrite remove_first_not_in.
Qed.

Lemma Contains_spec l x : Contains l x = true <-> x ∈ l.
Proof.
  induction l as [|y l IH]; simpl; [set_solver|].
  case_decide; [set_solver|]. rewrite IH. set_solver.
Qed.

Lemma Equal_loop_spec (a b : list A) :
  length a = length b -> Equal_loop a b = Ret (bool_decide (a = b)).
Proof.
  revert b. induction a as [|x a IH]; intros [|y b] Hl; simpl in *; try done.
  case_decide as Hxy.
  - subst. rewrite IH by lia. f_equal. apply bool_decide_ext. naive_solver.
  - f_equal. symmetry. apply bool_decide_eq_false. naive_solver.
Qed.

Lemma Equal_spec (a b : list A) : Equal a b = Ret (bool_decide (a = b)).
Proof.
  unfold Equal. case_decide as Hl; [by apply Equal_loop_spec|].
  f_equal. symmetry. apply bool_decide_eq_false. naive_solver.
Qed.

Lemma elem_of_remove_first l x y : y ∈ remove_first x l -> y ∈ l.
Proof.
  induction l as [|z l IH]; simpl; [done|].
  case_decide; [set_solver|]. rewrite !elem_of_cons. naive_solver.
Qed.

Lemma filter_out_absent l x : x ∉ l -> filter (fun y => y <> x) l = l.
Proof.
  induction l as [|y l IH]; [done|]. rewrite not_elem_of_cons. intros [? ?].
  rewrite filter_cons_True by congruence. by rewrite IH.
Qed.

Lemma NoDup_remove_first l x : NoDup l -> NoDup (remove_first x l).
Proof.
  induction 1 as [|z l Hz Hl IH]; simpl; [constructor|].
  case_decide; [done|]. constructor; [|done].
  intros Hin. by apply elem_of_remove_first in Hin.
Qed.

Lemma elem_of_remove_first_NoDup l x y :
  NoDup l -> y ∈ remove_first x l <-> y ∈ l /\ y <> x.
Proof.
  induction 1 as [|z l Hz Hl IH]; simpl; [set_solver|].
  case_decide; [set_solver|]. rewrite !elem_of_cons, IH. naive_solver.
Qed.

(** ** Resize *)

(** A slice: its backing array up to its capacity, and its length. *)
Record slice := Slice { arr : list A; len : nat }.

Definition cap (s : slice) : nat := length (arr s).
Definition elems (s : slice) : list A := take (len s) (arr s).
Definition slice_wf (s : slice) : Prop := len s <= cap s.

(** [append(slice, v)] when [len < cap]: it writes in the array. *)
Definition append_in_place (s : slice) (v : A) : slice :=
  Slice (<[len s := v]> (arr s)) (S (len s)).

Fixpoint append_n (n : nat) (s : slice) : slice :=
  match n with
  | 0 => s
  | S n' => append_n n' (append_in_place s zero)
  end.

Definition Resize (s : slice) (length' : nat) : slice :=
  if cap s <? length' then
    Slice (go_copy (replicate length' zero) (elems s)) length'
  else if len s <? length' then append_n (length' - len s) s
  else Slice (arr s) length'.

Lemma append_n_spec n s :
  len s + n <= cap s ->
  elems (append_n n s) = elems s ++ replicate n zero /\
  len (append_n n s) = len s + n /\ cap (append_n n s) = cap s.
Proof.
  revert s. induction n as [|n IH]; intros s Hs; simpl.
  { rewrite app_nil_r. auto with lia. }
  destruct (IH (append_in_place s zero)) as (He & Hn & Hc).
  { unfold cap, append_in_place in *. simpl. rewrite length_insert. lia. }
  rewrite He, Hn, Hc. unfold cap, append_in_place, elems in *. simpl.
  split; [|rewrite length_insert; lia].
  rewrite (take_S_r _ _ zero) by (apply list_lookup_insert_eq; lia).
  rewrite take_insert_ge by lia. by rewrite <- app_assoc.
Qed.

Lemma Resize_spec s n :
  slice_wf s ->
  elems (Resize s n) = take n (elems s) ++ replicate (n - len s) zero /\
  len (Resize s n) = n /\ slice_wf (Resize s n).
Proof.
  intros Hwf. unfold Resize, slice_wf in *.
  assert (Hel : length (elems s) = len s)
    by (unfold elems, cap in *; rewrite length_take; lia).
  destruct (Nat.ltb_spec (cap s) n) as [Hc|Hc].
  { unfold elems at 1, cap. simpl. unfold go_copy. rewrite length_replicate, Hel.
    rewrite drop_replicate, length_app, length_take, length_replicate, Hel.
    split; [|lia]. rewrite take_ge; [done|].
    rewrite length_app, length_take, length_replicate. lia. }
  destruct (Nat.ltb_spec (len s) n) as [Hl|Hl].
  - destruct (append_n_spec (n - len s) s) as (He & Hn & Hcap); [lia|].
    rewrite He, Hn, Hcap. rewrite (take_ge (elems s)) by lia. auto with lia.
  - unfold elems, cap in *. simpl. replace (n - len s) with 0 by lia. simpl.
    rewrite app_nil_r, take_take, Nat.min_l by lia. auto with lia.
Qed.
End Slices.
Arguments slice A : clear implicits.

(** ** lib/util/pools: Pool, a stack of values to reuse *)
Module Pool.
Definition Get {A} (P : list A) : option A * list A :=
  match last P with
  | None => (None, P)
  | Some v => (Some v, take (length P - 1) P)
  end.

Definition Put {A} (P : list A) (v : A) : list A := P ++ [v].

Lemma Get_Put {A} (P : list A) v : Get (Put P v) = (Some v, P).
Proof.
  unfold Get, Put. rewrite last_snoc, length_app. simpl.
  replace (length P + 1 - 1) with (length P) by lia.
  by rewrite take_app_length.
Qed.

Lemma Get_Some {A} (P P' : list A) v : Get P = (Some v, P') -> P = P' ++ [v].
Proof.
  unfold Get. destruct (last P) as [w|] eqn:E; [|done].
  intros [= -> <-]. apply last_Some in E as [Q ->].
  rewrite length_app. simpl. replace (length Q + 1 - 1) with (length Q) by lia.
  by rewrite take_app_length.
Qed.

Lemma Get_None {A} (P P' : list A) : Get P = (None, P') -> P = [] /\ P' = [].
Proof.
  unfold Get. destruct (last P) as [w|] eqn:E; [done|].
  apply last_None in E. by intros [= <-].
Qed.
End Pool.
