(* ===== verification/Ring.v ===== *)
(** * Ring: lib/util/ring/ring.go

    A double-ended queue in a circular buffer.  The fields are the source's;
    [int] fields are [Z], so that the tests against [-1] are those of the
    code, and every indexing or slicing outside the buffer is [Panic].

    [contents] is the abstraction function and [wf] the representation
    invariant; the specification lemmas say that each operation returns
    (never panics) on a well-formed ring, keeps it well-formed and acts on
    [contents] as the list operation of its name. *)

From S2P Require Import Prelude.

Local Open Scope go_scope.
Local Open Scope Z_scope.

(** [buf[i]] and [buf[i] = v] of a Go slice. *)
Definition index {A} (l : list A) (i : Z) : outcome A :=
  if decide (0 <= i) then deref (l !! Z.to_nat i) else Panic.

Definition store {A} (l : list A) (i : Z) (v : A) : outcome (list A) :=
  if decide (0 <= i < Z.of_nat (length l)) then Ret (<[Z.to_nat i := v]> l) else Panic.

(** [buf[i:]] and [buf[:i]] (capacity equal to length). *)
Definition slice_from {A} (l : list A) (i : Z) : outcome (list A) :=
  if decide (0 <= i <= Z.of_nat (length l)) then Ret (drop (Z.to_nat i) l) else Panic.

Definition slice_to {A} (l : list A) (i : Z) : outcome (list A) :=
  if decide (0 <= i <= Z.of_nat (length l)) then Ret (take (Z.to_nat i) l) else Panic.

(** [copy(dst[at:], src)]. *)
Definition copy_at {A} (dst : list A) (at_ : Z) (src : list A) : outcome (list A) :=
  if decide (0 <= at_ <= Z.of_nat (length dst)) then
    let n := Z.to_nat at_ in
    Ret (take n dst ++ take (length dst - n) src ++ drop (n + length src) dst)
  else Panic.

Record Ring (A : Type) := mkRing {
  buf : list A;
  head : Z;
  tail : Z;
  length_ : Z
}.
Arguments mkRing {A} _ _ _ _.
Arguments buf {A} _.
Arguments head {A} _.
Arguments tail {A} _.
Arguments length_ {A} _.

Section Ring.
Context {A : Type} `{Zero A}.
Implicit Types r : Ring A.

(** [len(r.buf)] *)
Definition cap (r : Ring A) : Z := Z.of_nat (length (buf r)).

(** The zero value of the struct. *)
Definition zero_ring : Ring A := mkRing [] 0 0 0.

(** [make([]T, capacity)] panics on a negative capacity. *)
Definition MakeRing (length' capacity : Z) : outcome (Ring A) :=
  if decide (length' > capacity) then Panic
  else if decide (capacity < 0) then Panic
  else Ret (mkRing (replicate (Z.to_nat capacity) zero) 0 length' length').

Definition grow (r : Ring A) : outcome (Ring A) :=
  let size := cap r * 2 in
  let size := if decide (size = 0) then 2 else size in
  let buf' := replicate (Z.to_nat size) zero in
  let! hi := slice_from (buf r) (head r) in
  let! lo := slice_to (buf r) (head r) in
  let! buf' := copy_at buf' 0 hi in
  let! buf' := copy_at buf' (Z.of_nat (length hi)) lo in
  Ret (mkRing buf' 0 (length_ r) (length_ r)).

Definition incHead (r : Ring A) : outcome (Ring A) :=
  if decide (length_ r = 0) then Panic else
  let length' := length_ r - 1 in
  let head' := head r + 1 in
  let head' := if decide (head' = cap r) then 0 else head' in
  Ret (mkRing (buf r) head' (tail r) length').

Definition decHead (r : Ring A) : outcome (Ring A) :=
  let! r := if decide (length_ r = cap r) then grow r else Ret r in
  let length' := length_ r + 1 in
  let head' := head r - 1 in
  let head' := if decide (head' = -1) then cap r - 1 else head' in
  Ret (mkRing (buf r) head' (tail r) length').

Definition incTail (r : Ring A) : outcome (Ring A) :=
  let! r := if decide (length_ r = cap r) then grow r else Ret r in
  let length' := length_ r + 1 in
  let tail' := tail r + 1 in
  let tail' := if decide (tail' = cap r) then 0 else tail' in
  Ret (mkRing (buf r) (head r) tail' length').

Definition decTail (r : Ring A) : outcome (Ring A) :=
  if decide (length_ r = 0) then Panic else
  let length' := length_ r - 1 in
  let tail' := tail r - 1 in
  let tail' := if decide (tail' = -1) then cap r - 1 else tail' in
  Ret (mkRing (buf r) (head r) tail' length').

Definition tailSub1 (r : Ring A) : Z :=
  let tail' := tail r - 1 in
  if decide (tail' = -1) then cap r - 1 else tail'.

(** The result [( *new(T), false )] is [None]. *)
Definition PopFront (r : Ring A) : outcome (option A * Ring A) :=
  if decide (length_ r = 0) then Ret (None, r) else
  let! front := index (buf r) (head r) in
  let! buf' := store (buf r) (head r) zero in
  let! r := incHead (mkRing buf' (head r) (tail r) (length_ r)) in
  Ret (Some front, r).

Definition PopBack (r : Ring A) : outcome (option A * Ring A) :=
  if decide (length_ r = 0) then Ret (None, r) else
  let! r := decTail r in
  let! back := index (buf r) (tail r) in
  let! buf' := store (buf r) (tail r) zero in
  Ret (Some back, mkRing buf' (head r) (tail r) (length_ r)).

Definition Clear (r : Ring A) : Ring A := mkRing (buf r) 0 0 0.

Definition PushFront (r : Ring A) (value : A) : outcome (Ring A) :=
  let! r := decHead r in
  let! buf' := store (buf r) (head r) value in
  Ret (mkRing buf' (head r) (tail r) (length_ r)).

Definition PushBack (r : Ring A) (value : A) : outcome (Ring A) :=
  let! r := incTail r in
  let! buf' := store (buf r) (tailSub1 r) value in
  Ret (mkRing buf' (head r) (tail r) (length_ r)).

Definition Length (r : Ring A) : Z := length_ r.
Definition Capacity (r : Ring A) : Z := cap r.

Definition Get (r : Ring A) (n : Z) : outcome A :=
  if decide (n >= length_ r) then Panic else
  let ptr := head r + n in
  let ptr := if decide (ptr >= cap r) then ptr - cap r else ptr in
  index (buf r) ptr.

(** ** Abstraction and invariant *)

(** The buffer position of the [i]-th element. *)
Definition pos (r : Ring A) (i : Z) : Z :=
  if decide (head r + i >= cap r) then head r + i - cap r else head r + i.

Definition contents (r : Ring A) : list A :=
  (fun i => default zero (buf r !! Z.to_nat (pos r (Z.of_nat i))))
    <$> seq 0 (Z.to_nat (length_ r)).

Record wf (r : Ring A) : Prop := {
  wf_len : 0 <= length_ r <= cap r;
  wf_head : 0 <= head r /\ (head r < cap r \/ cap r = 0 /\ head r = 0);
  wf_tail : tail r = if decide (cap r = 0) then 0 else pos r (length_ r)
}.

Lemma length_contents r : length (contents r) = Z.to_nat (length_ r).
Proof. unfold contents. by rewrite length_fmap, length_seq. Qed.

Ltac len_lia' := simpl_len; rewrite ?length_contents; cbn; lia.

Lemma contents_lookup r (i : nat) :
  wf r -> Z.of_nat i < length_ r ->
  contents r !! i = buf r !! Z.to_nat (pos r (Z.of_nat i)).
Proof.
  intros [Hl Hh _] Hi. unfold contents.
  rewrite list_lookup_fmap, lookup_seq_lt by lia. simpl.
  destruct (lookup_lt_is_Some_2 (buf r) (Z.to_nat (pos r (Z.of_nat i)))) as [x Hx].
  { unfold pos, cap in *. gdecide; lia. }
  by rewrite Hx.
Qed.

(** Extensionality: a well-formed ring whose elements are those of [l]. *)
Lemma contents_eq r (l : list A) :
  wf r -> length l = Z.to_nat (length_ r) ->
  (forall i, Z.of_nat i < length_ r -> buf r !! Z.to_nat (pos r (Z.of_nat i)) = l !! i) ->
  contents r = l.
Proof.
  intros Hwf Hlen Hl. apply list_eq. intros i.
  destruct (decide (Z.of_nat i < length_ r)) as [Hi|Hi].
  - rewrite contents_lookup by done. by apply Hl.
  - rewrite !lookup_ge_None_2; [done| |rewrite length_contents]; lia.
Qed.

(** [wf] and [pos] of a record in terms of its fields. *)
Lemma wf_mk b h t l c :
  Z.of_nat (length b) = c -> 0 <= l <= c -> 0 <= h < c ->
  t = (if decide (h + l >= c) then h + l - c else h + l) ->
  wf (mkRing b h t l).
Proof.
  intros Hc Hl Hh Ht. split; unfold pos, cap; cbn; rewrite ?Hc; [lia|lia|].
  rewrite (decide_False (P := c = 0)) by lia. done.
Qed.

Lemma pos_mk b h t l c i :
  Z.of_nat (length b) = c ->
  pos (mkRing b h t l) i = if decide (h + i >= c) then h + i - c else h + i.
Proof. intros <-. done. Qed.

Lemma wf_zero_ring : wf zero_ring /\ contents zero_ring = [].
Proof. split; [|done]. split; cbn; unfold cap; cbn; try gdecide; lia. Qed.

(** The buffer after [grow]: the elements in order, then zero values. *)
Lemma grow_spec r :
  wf r -> length_ r = cap r ->
  exists r', grow r = Ret r' /\ wf r' /\ contents r' = contents r /\
    length_ r' = length_ r /\ length_ r' < cap r'.
Proof.
  intros Hwf Hfull. pose proof Hwf as [Hl Hh Ht].
  unfold grow. set (size := if decide (_ = _) then 2 else _).
  unfold slice_from, slice_to. unfold cap in Hl, Hh, Ht, Hfull.
  rewrite !(decide_True (P := 0 <= head r <= _)) by lia. cbn [obind].
  assert (Hsize : 2 <= size /\ Z.of_nat (length (buf r)) < size).
  { clear Ht. unfold size, cap. gdecide; lia. }
  set (h := Z.to_nat (head r)) in *.
  unfold copy_at. rewrite decide_True by len_lia. cbn [obind].
  rewrite decide_True by len_lia.
  cbn [obind]. eexists. split; [reflexivity|].
  match goal with |- wf ?r' /\ _ => set (R := r') end.
  assert (Hbuf : buf R = drop h (buf r) ++ take h (buf r)
                   ++ replicate (Z.to_nat size - length (buf r)) zero).
  { unfold R. cbn [buf]. change (Z.to_nat 0) with 0%nat. rewrite take_0, app_nil_l.
    rewrite Nat.sub_0_r, length_replicate, !Nat2Z.id.
    rewrite (take_ge (drop h (buf r))) by len_lia.
    rewrite take_app_length. f_equal.
    rewrite (take_ge (take h (buf r))) by len_lia. f_equal.
    rewrite drop_app, (drop_ge (drop h (buf r))) by len_lia.
    rewrite !drop_replicate. cbn. f_equal. len_lia. }
  assert (Hcap : cap R = size).
  { unfold cap. rewrite Hbuf, !length_app, length_drop, length_take, length_replicate. lia. }
  assert (HR : head R = 0 /\ tail R = length_ r /\ length_ R = length_ r) by done.
  destruct HR as (HR1 & HR2 & HR3).
  assert (Hwf' : wf R).
  { split; rewrite ?Hcap, ?HR1, ?HR2, ?HR3; [lia|lia|].
    rewrite decide_False by lia. unfold pos. rewrite Hcap, HR1, decide_False by lia. lia. }
  split; [done|]. split; [|split; [done|lia]].
  apply contents_eq; [done|rewrite length_contents; by rewrite HR3|].
  intros i Hi. rewrite HR3 in Hi. rewrite contents_lookup by (done || lia).
  unfold pos at 1. rewrite HR1, Hcap, decide_False by lia.
  replace (Z.to_nat (0 + Z.of_nat i)) with i by lia. rewrite Hbuf.
  unfold pos, cap. gdecide.
  - rewrite lookup_app_r, length_drop by (rewrite length_drop; lia).
    rewrite lookup_app_l by (rewrite length_take; lia).
    rewrite lookup_take_lt by lia. f_equal. lia.
  - rewrite lookup_app_l by (rewrite length_drop; lia).
    rewrite lookup_drop. f_equal. lia.
Qed.

(** [grow] when full, as [incTail] and [decHead] do. *)
Lemma maybe_grow_spec r :
  wf r ->
  exists r', (if decide (length_ r = cap r) then grow r else Ret r) = Ret r' /\
    wf r' /\ contents r' = contents r /\ length_ r' = length_ r /\ length_ r' < cap r'.
Proof.
  intros Hwf. destruct (decide (length_ r = cap r)) as [Hd|Hd]; [by apply grow_spec|].
  exists r. pose proof (wf_len r Hwf). repeat split; try done; try apply Hwf. lia.
Qed.

Lemma store_Ret (l : list A) i v :
  0 <= i < Z.of_nat (length l) -> store l i v = Ret (<[Z.to_nat i := v]> l).
Proof. intros. unfold store. by rewrite decide_True. Qed.

Lemma index_lookup (l : list A) i x :
  0 <= i -> l !! Z.to_nat i = Some x -> index l i = Ret x.
Proof. intros Hi Hx. unfold index. rewrite decide_True by done. by rewrite Hx. Qed.

Lemma PushBack_spec r v :
  wf r -> exists r', PushBack r v = Ret r' /\ wf r' /\ contents r' = contents r ++ [v].
Proof.
  intros Hwf0. unfold PushBack, incTail.
  destruct (maybe_grow_spec r Hwf0) as (r1 & -> & Hwf & <- & _ & Hlt). clear r Hwf0.
  cbn [obind]. pose proof Hwf as [Hl Hh Ht].
  rewrite decide_False in Ht by lia.
  assert (Hp : 0 <= tail r1 < cap r1)
    by (rewrite Ht; unfold pos; gdecide; lia).
  set (R1 := mkRing _ _ _ _).
  assert (Hts : tailSub1 R1 = tail r1).
  { unfold tailSub1, R1. cbn. unfold cap in *. cbn. repeat gdecide; lia. }
  rewrite Hts, store_Ret by done. cbn [obind].
  eexists. split; [reflexivity|]. set (R := mkRing _ _ _ _).
  assert (Hcap : cap R = cap r1) by (unfold R, cap; cbn; by rewrite length_insert).
  assert (HwfR : wf R).
  { apply (wf_mk _ _ _ _ _ Hcap); cbn; [lia|lia|]. rewrite Ht. unfold pos.
    repeat gdecide; lia. }
  split; [done|]. apply contents_eq; [done|len_lia'|].
  intros i Hi. cbn in Hi. unfold R. rewrite (pos_mk _ _ _ _ _ _ Hcap). cbn [buf R1].
  rewrite Ht; unfold pos at 1; cbn [head]. 
  destruct (decide (Z.of_nat i = length_ r1)) as [He|Hne].
  - rewrite lookup_app_r by len_lia'. rewrite length_contents.
    replace (i - Z.to_nat (length_ r1))%nat with 0%nat by lia.
    rewrite He. apply list_lookup_insert_eq. unfold cap in *. repeat gdecide; lia.
  - rewrite lookup_app_l by len_lia'.
    rewrite contents_lookup by (done || lia). unfold pos.
    apply list_lookup_insert_ne. repeat gdecide; lia.
Qed.

Lemma PushFront_spec r v :
  wf r -> exists r', PushFront r v = Ret r' /\ wf r' /\ contents r' = v :: contents r.
Proof.
  intros Hwf0. unfold PushFront, decHead.
  destruct (maybe_grow_spec r Hwf0) as (r1 & -> & Hwf & <- & _ & Hlt). clear r Hwf0.
  cbn [obind buf head tail length_]. pose proof Hwf as [Hl Hh Ht].
  set (h := if decide (head r1 - 1 = -1) then _ else _).
  assert (Hh' : 0 <= h < cap r1) by (unfold h; gdecide; lia).
  rewrite store_Ret by done. cbn [obind].
  eexists. split; [reflexivity|]. set (R := mkRing _ _ _ _).
  assert (Hcap : cap R = cap r1) by (unfold R, cap; cbn; by rewrite length_insert).
  assert (HwfR : wf R).
  { apply (wf_mk _ _ _ _ _ Hcap); [lia|lia|]. rewrite Ht. unfold pos, h.
    repeat gdecide; lia. }
  split; [done|]. apply contents_eq; [done|len_lia'|].
  intros i Hi. cbn in Hi. unfold R. rewrite (pos_mk _ _ _ _ _ _ Hcap). cbn [buf].
  destruct i as [|i]; cbn [lookup list_lookup].
  - rewrite decide_False by lia.
    replace (h + Z.of_nat 0) with h by lia. apply list_lookup_insert_eq. unfold cap in *. lia.
  - change (list_lookup i (contents r1)) with (contents r1 !! i).
    rewrite contents_lookup by (done || lia). unfold pos.
    rewrite list_lookup_insert_ne by (unfold h; repeat gdecide; lia).
    f_equal. unfold h. repeat gdecide; lia.
Qed.

Lemma PopFront_spec r :
  wf r -> exists r', PopFront r = Ret (hd_error (contents r), r') /\ wf r' /\
    contents r' = tl (contents r).
Proof.
  intros Hwf. pose proof Hwf as [Hl Hh Ht]. unfold PopFront.
  destruct (decide (length_ r = 0)) as [Hz|Hz].
  { exists r. unfold contents. rewrite Hz. cbn. auto. }
  rewrite decide_False in Ht by lia.
  assert (H0 : contents r !! 0%nat = buf r !! Z.to_nat (head r)).
  { rewrite contents_lookup by (done || lia). unfold pos. rewrite decide_False by lia.
    do 2 f_equal. lia. }
  destruct (contents r) as [|x l] eqn:Hc.
  { apply (f_equal length) in Hc. rewrite length_contents in Hc. cbn in Hc. lia. }
  rewrite (index_lookup _ _ x) by (lia || done). cbn [obind].
  rewrite store_Ret by (unfold cap in *; lia). cbn [obind]. unfold incHead.
  cbn [length_ head tail buf]. rewrite decide_False by done. cbn [obind].
  set (h := if decide _ then 0 else _).
  eexists. split; [reflexivity|]. set (R := mkRing _ _ _ _).
  assert (Hcap : cap R = cap r) by (unfold R, cap; cbn; by rewrite length_insert).
  assert (Hhr : h = if decide (head r + 1 = cap r) then 0 else head r + 1).
  { unfold h, cap. cbn. by rewrite length_insert. }
  assert (HwfR : wf R).
  { apply (wf_mk _ _ _ _ _ Hcap); rewrite ?Hhr, ?Ht; unfold pos;
      repeat gdecide; lia. }
  split; [done|]. cbn [tl]. apply contents_eq; [done| |].
  { apply (f_equal length) in Hc. rewrite length_contents in Hc. cbn in *. lia. }
  intros i Hi. cbn in Hi.
  change (l !! i) with ((x :: l) !! S i). rewrite <- Hc.
  rewrite contents_lookup by (done || lia).
  unfold R. rewrite (pos_mk _ _ _ _ _ _ Hcap), Hhr. cbn [buf]. unfold pos.
  rewrite list_lookup_insert_ne by (repeat gdecide; lia).
  f_equal. repeat gdecide; lia.
Qed.

Lemma PopBack_spec r :
  wf r -> exists r', PopBack r = Ret (last (contents r), r') /\ wf r' /\
    contents r' = take (length (contents r) - 1) (contents r).
Proof.
  intros Hwf. pose proof Hwf as [Hl Hh Ht]. unfold PopBack.
  destruct (decide (length_ r = 0)) as [Hz|Hz].
  { exists r. unfold contents. rewrite Hz. cbn. auto. }
  rewrite decide_False in Ht by lia.
  unfold decTail. rewrite decide_False by done. cbn [obind buf head tail length_].
  set (t := if decide _ then _ else _).
  assert (Hts : t = pos r (length_ r - 1)).
  { unfold t. rewrite Ht. unfold pos. repeat gdecide; lia. }
  assert (Hp : 0 <= t < cap r) by (rewrite Hts; unfold pos; repeat gdecide; lia).
  assert (Hlast : buf r !! Z.to_nat t = last (contents r)).
  { rewrite last_lookup, length_contents.
    rewrite contents_lookup by (done || lia). rewrite Hts. do 3 f_equal. lia. }
  destruct (last (contents r)) as [x|] eqn:Hc.
  2:{ apply last_None in Hc. apply (f_equal length) in Hc.
      rewrite length_contents in Hc. cbn in Hc. lia. }
  rewrite (index_lookup _ _ x) by (lia || done). cbn [obind].
  rewrite store_Ret by (unfold cap in *; lia). cbn [obind].
  eexists. split; [reflexivity|]. set (R := mkRing _ _ _ _).
  assert (Hcap : cap R = cap r) by (unfold R, cap; cbn; by rewrite length_insert).
  assert (HwfR : wf R).
  { apply (wf_mk _ _ _ _ _ Hcap); rewrite ?Hts; unfold pos; repeat gdecide; lia. }
  split; [done|]. apply contents_eq; [done|len_lia'|].
  intros i Hi. cbn in Hi. rewrite lookup_take_lt by len_lia'.
  rewrite contents_lookup by (done || lia).
  unfold R. rewrite (pos_mk _ _ _ _ _ _ Hcap). fold (pos r (Z.of_nat i)). cbn [buf].
  apply list_lookup_insert_ne. rewrite Hts. unfold pos. repeat gdecide; lia.
Qed.

Lemma Clear_spec r : wf r -> wf (Clear r) /\ contents (Clear r) = [].
Proof.
  intros [Hl Hh Ht]. split; [|done]. split; cbn; unfold cap in *; cbn; [lia|lia|].
  unfold pos. gdecide; [done|]. unfold cap. cbn. gdecide; lia.
Qed.

Lemma ring_Get_spec r n :
  wf r -> 0 <= n -> Get r n = deref (contents r !! Z.to_nat n).
Proof.
  intros Hwf Hn. pose proof Hwf as [Hl Hh Ht]. unfold Get. destruct (decide (n >= length_ r)) as [Hd|Hd].
  - rewrite lookup_ge_None_2; [done|]. rewrite length_contents. lia.
  - rewrite contents_lookup by (done || lia). unfold index, pos.
    replace (Z.of_nat (Z.to_nat n)) with n by lia.
    repeat gdecide; try done; lia.
Qed.

Lemma Length_spec r : wf r -> Length r = Z.of_nat (length (contents r)).
Proof. intros [Hl _ _]. rewrite length_contents. unfold Length. lia. Qed.

(** ** Refinement of the list deque *)

Inductive op :=
| OpPushBack (v : A)
| OpPushFront (v : A)
| OpPopFront
| OpPopBack
| OpClear
| OpGet (n : nat).

(** One call: the value it returns, if any, and the new ring. *)
Definition run_op (r : Ring A) (o : op) : outcome (option A * Ring A) :=
  match o with
  | OpPushBack v => ofmap (fun r => (None, r)) (PushBack r v)
  | OpPushFront v => ofmap (fun r => (None, r)) (PushFront r v)
  | OpPopFront => PopFront r
  | OpPopBack => PopBack r
  | OpClear => Ret (None, Clear r)
  | OpGet n => ofmap (fun x => (Some x, r)) (Get r (Z.of_nat n))
  end.

(** The specification: a list, front first. *)
Definition spec_op (l : list A) (o : op) : outcome (option A * list A) :=
  match o with
  | OpPushBack v => Ret (None, l ++ [v])
  | OpPushFront v => Ret (None, v :: l)
  | OpPopFront => Ret (hd_error l, tl l)
  | OpPopBack => Ret (last l, take (length l - 1) l)
  | OpClear => Ret (None, [])
  | OpGet n => ofmap (fun x => (Some x, l)) (deref (l !! n))
  end.

Fixpoint run {S} (f : S -> op -> outcome (option A * S)) (s : S) (ops : list op)
  : outcome (list (option A) * S) :=
  match ops with
  | [] => Ret ([], s)
  | o :: ops' =>
      let! res := f s o in
      let! rest := run f res.2 ops' in
      Ret (res.1 :: rest.1, rest.2)
  end.

Lemma run_op_spec r o :
  wf r ->
  match run_op r o with
  | Ret (x, r') => wf r' /\ spec_op (contents r) o = Ret (x, contents r')
  | Panic => spec_op (contents r) o = Panic
  | Diverge => False
  end.
Proof.
  intros Hwf. destruct o as [v|v| | | |n]; cbn [run_op spec_op].
  - destruct (PushBack_spec r v Hwf) as (r' & -> & ? & Hc). cbn. by rewrite Hc.
  - destruct (PushFront_spec r v Hwf) as (r' & -> & ? & Hc). cbn. by rewrite Hc.
  - destruct (PopFront_spec r Hwf) as (r' & -> & ? & Hc). by rewrite Hc.
  - destruct (PopBack_spec r Hwf) as (r' & -> & ? & Hc). by rewrite Hc.
  - destruct (Clear_spec r Hwf) as (? & Hc). by rewrite Hc.
  - rewrite ring_Get_spec by (done || lia). rewrite Nat2Z.id.
    destruct (contents r !! n); by cbn.
Qed.

Lemma run_refines r ops :
  wf r ->
  match run run_op r ops with
  | Ret (outs, r') => wf r' /\ run spec_op (contents r) ops = Ret (outs, contents r')
  | Panic => run spec_op (contents r) ops = Panic
  | Diverge => False
  end.
Proof.
  revert r. induction ops as [|o ops IH]; intros r Hwf; cbn [run]; [done|].
  pose proof (run_op_spec r o Hwf) as Hop.
  destruct (run_op r o) as [[x r1]| |]; cbn [obind fst snd].
  - destruct Hop as (Hwf1 & ->). cbn [obind fst snd].
    specialize (IH r1 Hwf1). destruct (run run_op r1 ops) as [[outs r']| |]; cbn [obind fst snd].
    + destruct IH as (? & ->). by cbn.
    + by rewrite IH.
    + done.
  - by rewrite Hop.
  - done.
Qed.
End Ring.
Arguments zero_ring {A}.
Arguments op A : clear implicits.

Module RingTheorems.
Section Theorems.
Context {A : Type} `{Zero A}.


(** MakeRing n n builds a ring whose tail lies outside the buffer: taking
    one element out and putting one in panics, for every positive n, although
    the ring has a free slot. *)
Theorem make_ring_full_pop_push_panics (n : Z) (v : A) :
  0 < n ->
  (let! r := MakeRing n n in
   let! xr := PopFront r in
   PushBack xr.2 v) = Panic.
Proof.
  intros Hn. unfold MakeRing. rewrite !decide_False by lia. cbn [obind].
  unfold PopFront. cbn [length_ buf head tail]. rewrite decide_False by lia.
  set (b := replicate (Z.to_nat n) zero).
  assert (Hlen : Z.of_nat (length b) = n) by (unfold b; len_lia).
  rewrite (index_lookup b 0 zero) by
    (lia || (unfold b; apply lookup_replicate; split; [done|lia])). cbn [obind].
  rewrite store_Ret by lia. cbn [obind]. unfold incHead. cbn [length_ head tail buf].
  rewrite decide_False by lia. cbn [obind snd]. unfold PushBack, incTail, cap.
  cbn [length_ head tail buf]. rewrite length_insert, Hlen.
  rewrite (decide_False (P := n - 1 = n)) by lia. cbn [obind length_ head tail buf].
  rewrite length_insert, Hlen, (decide_False (P := n + 1 = n)) by lia.
  unfold tailSub1, store, cap. cbn [tail buf]. rewrite length_insert, Hlen.
  rewrite (decide_False (P := n + 1 - 1 = -1)) by lia.
  by rewrite (decide_False (P := 0 <= n + 1 - 1 < n)) by lia.
Qed.
End Theorems.

#[local] Instance zero_Z : Zero Z := 0.

Lemma make_ring_full_pop_push_panics_witness :
  (let! r := MakeRing 2 2 in
   let! xr := PopFront r in
   PushBack xr.2 5) = Panic.
Proof. apply (make_ring_full_pop_push_panics 2 5). reflexivity. Defined.
End RingTheorems.
