(* ===== verification/OrderedMap.v ===== *)
(** * OrderedMap: what the scheduler needs of its priority queue

    [schedule rbtree.RBTree[time.Duration, Job]] is used through Get, Set,
    Delete, Min and Max.  [OrderedMap] is that interface; [OrderedMapLaws]
    states its contract against a finite map: on a well-formed structure no
    call panics, every call keeps it well-formed, and Min and Max are the
    extreme bindings.  RBTree.v discharges the laws; Scheduler.v uses only
    them. *)

From S2P Require Import Prelude.

Local Open Scope Z_scope.

Class OrderedMap (V M : Type) := {
  om_empty : M;
  om_get : M -> Z -> option V;
  om_set : M -> Z -> V -> outcome M;
  om_delete : M -> Z -> outcome M;
  om_min : M -> option (Z * V);
  om_max : M -> option (Z * V)
}.

(** [b] is the least (greatest) binding of [m], if there is one. *)
Definition least {V} (m : gmap Z V) (b : option (Z * V)) : Prop :=
  match b with
  | None => m = ∅
  | Some (k, v) => m !! k = Some v /\ forall k', is_Some (m !! k') -> k <= k'
  end.

Definition greatest {V} (m : gmap Z V) (b : option (Z * V)) : Prop :=
  match b with
  | None => m = ∅
  | Some (k, v) => m !! k = Some v /\ forall k', is_Some (m !! k') -> k' <= k
  end.

Class OrderedMapLaws (V M : Type) `{OrderedMap V M} := {
  om_wf : M -> Prop;
  om_abs : M -> gmap Z V;
  om_empty_ok : om_wf om_empty /\ om_abs om_empty = ∅;
  om_get_ok t k : om_wf t -> om_get t k = om_abs t !! k;
  om_set_ok t k v : om_wf t ->
    exists t', om_set t k v = Ret t' /\ om_wf t' /\ om_abs t' = <[k := v]> (om_abs t);
  om_delete_ok t k : om_wf t ->
    exists t', om_delete t k = Ret t' /\ om_wf t' /\ om_abs t' = delete k (om_abs t);
  om_min_ok t : om_wf t -> least (om_abs t) (om_min t);
  om_max_ok t : om_wf t -> greatest (om_abs t) (om_max t)
}.

Section Extremes.
Context {V : Type}.
Implicit Types m : gmap Z V.

Lemma least_unique m b b' : least m b -> least m b' -> b = b'.
Proof.
  destruct b as [[k v]|], b' as [[k' v']|]; cbn; try done.
  - intros [Hk Hl] [Hk' Hl'].
    assert (k = k') as <- by (apply Z.le_antisymm; eauto). congruence.
  - by intros [Hk _] ->.
  - by intros -> [Hk _].
Qed.
End Extremes.
