(* ===== verification/RBTree.v ===== *)
(** * RBTree: lib/util/rbtree/rbtree.go

    A left-leaning red-black tree (the 2-3 variant), the priority queue of
    the rob scheduler.  A [*node] is a [node]: [nil] or a cell with the
    struct's fields; the functions of the source that mutate a cell and
    return the new root return the new tree.  Keys are [time.Duration] in the
    only use of the package, so they are [Z].

    [T.pool] (the free list) is threaded through the operations as the code
    does; [Panic] is a nil dereference or a failed assertion of a rotation;
    [Diverge] is exhausted fuel: [delete] and [deleteMin] recurse on a child
    of a rearranged node, so they take fuel, and [Delete] gives them the
    number of nodes, which is shown to be enough. *)

From stdpp Require Import sorting.
From S2P Require Import Prelude.
From S2P Require Import OrderedMap.

Local Open Scope go_scope.
Local Open Scope Z_scope.

Inductive color := black | red.

#[export] Instance color_eq_dec : EqDecision color.
Proof. solve_decision. Defined.

Definition opposite (c : color) : color :=
  match c with black => red | red => black end.

Definition color_eqb (a b : color) : bool :=
  match a, b with
  | black, black | red, red => true
  | _, _ => false
  end.

Inductive node (V : Type) :=
| nil
| Node (key : Z) (value : V) (left right : node V) (c : color).
Arguments nil {V}.
Arguments Node {V} key value left right c.

Record RBTree (V : Type) := mkRBTree {
  root : node V;
  pool : list (node V)
}.
Arguments mkRBTree {V} _ _.
Arguments root {V} _.
Arguments pool {V} _.

Section RBTree.
Context {V : Type} `{Zero V}.

Definition getColor (n : node V) : color :=
  match n with
  | nil => black
  | Node _ _ _ _ c => c
  end.

Definition left (n : node V) : outcome (node V) :=
  match n with nil => Panic | Node _ _ l _ _ => Ret l end.
Definition right (n : node V) : outcome (node V) :=
  match n with nil => Panic | Node _ _ _ r _ => Ret r end.

(** [node[K, V]{}] *)
Definition zero_node : node V := Node 0 zero nil nil black.

Definition free (p : list (node V)) : list (node V) := p ++ [zero_node].

Definition alloc (p : list (node V)) : node V * list (node V) :=
  match last p with
  | Some v => (v, take (length p - 1) p)
  | None => (zero_node, p)
  end.

(** Assigning [n.key], [n.value] and [n.color] of an allocated cell. *)
Definition init_node (n : node V) (key : Z) (value : V) (c : color) : outcome (node V) :=
  match n with
  | nil => Panic
  | Node _ _ l r _ => Ret (Node key value l r c)
  end.

(** The loop of Get walks down the tree. *)
Fixpoint get (n : node V) (key : Z) : option V :=
  match n with
  | nil => None
  | Node k v l r _ =>
      if k <? key then get r key
      else if key <? k then get l key
      else Some v
  end.

Definition Get (T : RBTree V) (key : Z) : option V := get (root T) key.

Definition rotateRight (n : node V) : outcome (node V) :=
  match n with
  | nil => Panic
  | Node k v l r c =>
      if color_eqb (getColor l) black then Panic else
      match l with
      | nil => Panic
      | Node xk xv xl xr _ => Ret (Node xk xv xl (Node k v xr r red) c)
      end
  end.

Definition rotateLeft (n : node V) : outcome (node V) :=
  match n with
  | nil => Panic
  | Node k v l r c =>
      if color_eqb (getColor r) black then Panic else
      match r with
      | nil => Panic
      | Node xk xv xl xr _ => Ret (Node xk xv (Node k v l xl red) xr c)
      end
  end.

Definition flip (n : node V) : outcome (node V) :=
  match n with
  | nil => Panic
  | Node k v l r c => Ret (Node k v l r (opposite c))
  end.

Definition flipColors (n : node V) : outcome (node V) :=
  match n with
  | nil => Panic
  | Node k v l r c =>
      let! l := flip l in
      let! r := flip r in
      Ret (Node k v l r (opposite c))
  end.

Definition set_left (n : node V) (l : node V) : outcome (node V) :=
  match n with nil => Panic | Node k v _ r c => Ret (Node k v l r c) end.
Definition set_right (n : node V) (r : node V) : outcome (node V) :=
  match n with nil => Panic | Node k v l _ c => Ret (Node k v l r c) end.

Definition moveRedLeft (n : node V) : outcome (node V) :=
  let! n := flipColors n in
  let! r := right n in
  let! rl := left r in
  if color_eqb (getColor rl) red then
    let! r := rotateRight r in
    let! n := set_right n r in
    let! n := rotateLeft n in
    flipColors n
  else Ret n.

Definition moveRedRight (n : node V) : outcome (node V) :=
  let! n := flipColors n in
  let! l := left n in
  let! ll := left l in
  if color_eqb (getColor ll) red then
    let! n := rotateRight n in
    flipColors n
  else Ret n.

(** [n.left.getColor() == c1 && n.left.left.getColor() == c2] with Go's
    short-circuit: the second dereference happens only if the first test
    holds. *)
Definition left_leftleft (n : node V) (c1 c2 : color) : outcome bool :=
  let! l := left n in
  if color_eqb (getColor l) c1 then
    let! ll := left l in Ret (color_eqb (getColor ll) c2)
  else Ret false.

Definition right_rightleft (n : node V) (c1 c2 : color) : outcome bool :=
  let! r := right n in
  if color_eqb (getColor r) c1 then
    let! rl := left r in Ret (color_eqb (getColor rl) c2)
  else Ret false.

Definition balance (n : node V) : outcome (node V) :=
  let! l := left n in
  let! r := right n in
  let! n := if color_eqb (getColor r) red && color_eqb (getColor l) black
            then rotateLeft n else Ret n in
  let! b := left_leftleft n red red in
  let! n := if b : bool then rotateRight n else Ret n in
  let! l := left n in
  let! r := right n in
  if color_eqb (getColor l) red && color_eqb (getColor r) red
  then flipColors n else Ret n.

Fixpoint put (p : list (node V)) (n : node V) (key : Z) (value : V)
  : outcome (node V * list (node V)) :=
  match n with
  | nil =>
      let '(fresh, p) := alloc p in
      let! n := init_node fresh key value red in
      Ret (n, p)
  | Node k v l r c =>
      let! np :=
        if k <? key then
          let! rp := put p r key value in
          Ret (Node k v l rp.1 c, rp.2)
        else if key <? k then
          let! lp := put p l key value in
          Ret (Node k v lp.1 r c, lp.2)
        else Ret (Node k value l r c, p) in
      let! n := balance np.1 in
      Ret (n, np.2)
  end.

Definition set_color (n : node V) (c : color) : outcome (node V) :=
  match n with nil => Panic | Node k v l r _ => Ret (Node k v l r c) end.

Definition Set_ (T : RBTree V) (key : Z) (value : V) : outcome (RBTree V) :=
  let! np := put (pool T) (root T) key value in
  let! n := set_color np.1 black in
  Ret (mkRBTree n np.2).

Fixpoint min (n : node V) : option (Z * V) :=
  match n with
  | nil => None
  | Node k v l _ _ => match l with nil => Some (k, v) | _ => min l end
  end.

Fixpoint max (n : node V) : option (Z * V) :=
  match n with
  | nil => None
  | Node k v _ r _ => match r with nil => Some (k, v) | _ => max r end
  end.

Fixpoint deleteMin (fuel : nat) (p : list (node V)) (n : node V)
  : outcome (node V * list (node V)) :=
  match fuel with
  | O => Diverge
  | S fuel =>
      let! l := left n in
      match l with
      | nil => Ret (nil, free p)
      | _ =>
          let! b := left_leftleft n black black in
          let! n := if b : bool then moveRedLeft n else Ret n in
          let! l := left n in
          let! lp := deleteMin fuel p l in
          let! n := set_left n lp.1 in
          let! n := balance n in
          Ret (n, lp.2)
      end
  end.

Definition node_key (n : node V) : outcome Z :=
  match n with nil => Panic | Node k _ _ _ _ => Ret k end.
Definition set_kv (n : node V) (key : Z) (value : V) : outcome (node V) :=
  match n with nil => Panic | Node _ _ l r c => Ret (Node key value l r c) end.
Definition is_nil (n : node V) : bool :=
  match n with nil => true | _ => false end.

Fixpoint delete (fuel : nat) (p : list (node V)) (n : node V) (key : Z)
  : outcome (node V * list (node V)) :=
  match fuel with
  | O => Diverge
  | S fuel =>
      let! k := node_key n in
      let! ret :=
        if key <? k then
          let! b := left_leftleft n black black in
          let! n := if b : bool then moveRedLeft n else Ret n in
          let! l := left n in
          let! lp := delete fuel p l key in
          let! n := set_left n lp.1 in
          Ret (n, lp.2, false)
        else
          let! l := left n in
          let! n := if color_eqb (getColor l) red then rotateRight n else Ret n in
          let! k := node_key n in
          let! r := right n in
          if (key =? k) && is_nil r then Ret (nil, free p, true) else
          let! b := right_rightleft n black black in
          let! n := if b : bool then moveRedRight n else Ret n in
          let! k := node_key n in
          let! r := right n in
          if key =? k then
            let! x := deref (min r) in
            let! n := set_kv n x.1 x.2 in
            let! rp := deleteMin fuel p r in
            let! n := set_right n rp.1 in
            Ret (n, rp.2, false)
          else
            let! rp := delete fuel p r key in
            let! n := set_right n rp.1 in
            Ret (n, rp.2, false) in
      (* the early [return nil] skips the final balance *)
      if ret.2 then Ret ret.1 else
      let! n := balance ret.1.1 in
      Ret (n, ret.1.2)
  end.

Fixpoint size (n : node V) : nat :=
  match n with
  | nil => 0
  | Node _ _ l r _ => S (size l + size r)
  end.

Definition Delete (T : RBTree V) (key : Z) : outcome (RBTree V) :=
  match Get T key with
  | None => Ret T
  | Some _ =>
      let! l := left (root T) in
      let! r := right (root T) in
      let! n := if color_eqb (getColor l) black && color_eqb (getColor r) black
                then set_color (root T) red else Ret (root T) in
      let! np := delete (size (root T)) (pool T) n key in
      match np.1 with
      | nil => Ret (mkRBTree nil np.2)
      | n => let! n := set_color n black in Ret (mkRBTree n np.2)
      end
  end.

Definition Min (T : RBTree V) : option (Z * V) := min (root T).
Definition Max (T : RBTree V) : option (Z * V) := max (root T).

Fixpoint next (n : node V) (key : Z) : option (Z * V) :=
  match n with
  | nil => None
  | Node k v l r _ =>
      if k =? key then min r
      else if k <? key then next r key
      else match next l key with
           | None => Some (k, v)
           | Some x => Some x
           end
  end.

Definition Next (T : RBTree V) (key : Z) : option (Z * V) := next (root T) key.

Fixpoint prev (n : node V) (key : Z) : option (Z * V) :=
  match n with
  | nil => None
  | Node k v l r _ =>
      if k =? key then max l
      else if key <? k then prev l key
      else match prev r key with
           | None => Some (k, v)
           | Some x => Some x
           end
  end.

Definition Prev (T : RBTree V) (key : Z) : option (Z * V) := prev (root T) key.

(** ** Contents: the in-order association list *)

Fixpoint elements (n : node V) : list (Z * V) :=
  match n with
  | nil => []
  | Node k v l r _ => elements l ++ (k, v) :: elements r
  end.

Definition sorted (l : list (Z * V)) : Prop := StronglySorted Z.lt l.*1.

(** Reference operations on association lists sorted by key. *)
Fixpoint ins (k : Z) (v : V) (l : list (Z * V)) : list (Z * V) :=
  match l with
  | [] => [(k, v)]
  | (k', v') :: t =>
      if k <? k' then (k, v) :: l
      else if k' <? k then (k', v') :: ins k v t
      else (k, v) :: t
  end.

Fixpoint del (k : Z) (l : list (Z * V)) : list (Z * V) :=
  match l with
  | [] => []
  | (k', v') :: t => if k =? k' then t else (k', v') :: del k t
  end.

Fixpoint look (k : Z) (l : list (Z * V)) : option V :=
  match l with
  | [] => None
  | (k', v') :: t => if k =? k' then Some v' else look k t
  end.

Definition all_lt (l : list (Z * V)) (k : Z) : Prop := Forall (fun p => p.1 < k) l.
Definition all_gt (l : list (Z * V)) (k : Z) : Prop := Forall (fun p => k < p.1) l.

Lemma sorted_cons k v l : sorted ((k, v) :: l) <-> sorted l /\ all_gt l k.
Proof.
  unfold sorted, all_gt. cbn. split.
  - intros Hs. inversion Hs as [|? ? Hl Hk]; subst. split; [done|].
    rewrite Forall_fmap in Hk. exact Hk.
  - intros [Hl Hk]. constructor; [done|]. rewrite Forall_fmap. exact Hk.
Qed.

Lemma sorted_app_mid l1 k v l2 :
  sorted (l1 ++ (k, v) :: l2) <->
  sorted l1 /\ sorted l2 /\ all_lt l1 k /\ all_gt l2 k.
Proof.
  induction l1 as [|[k1 v1] l1 IH]; cbn [app].
  - rewrite sorted_cons. unfold all_lt. unfold sorted at 2. cbn.
    split; [|tauto]. intros [? ?]. repeat split; (done || constructor).
  - rewrite !sorted_cons, IH. unfold all_lt, all_gt. rewrite Forall_app, !Forall_cons. cbn.
    split; [tauto|]. intros ((Hs1 & Hg1) & Hs2 & (Hk & Hl1) & Hg2).
    repeat split; try done. eapply Forall_impl; [exact Hg2|]. cbn. lia.
Qed.

Lemma ins_app_lt k v l1 k' v' l2 :
  k < k' -> ins k v (l1 ++ (k', v') :: l2) = ins k v l1 ++ (k', v') :: l2.
Proof.
  intros Hk. induction l1 as [|[k1 v1] l1 IH]; cbn.
  - by destruct (Z.ltb_spec k k'); [|lia].
  - rewrite IH. by repeat case_match.
Qed.

Lemma ins_app_gt k v l1 k' v' l2 :
  k' < k -> all_lt l1 k' ->
  ins k v (l1 ++ (k', v') :: l2) = l1 ++ (k', v') :: ins k v l2.
Proof.
  intros Hk Hl. induction Hl as [|[k1 v1] l1 Hk1 Hl IH]; cbn in *.
  - destruct (Z.ltb_spec k k'); [lia|]. by destruct (Z.ltb_spec k' k); [|lia].
  - rewrite IH. destruct (Z.ltb_spec k k1); [lia|]. by destruct (Z.ltb_spec k1 k); [|lia].
Qed.

Lemma ins_app_eq k v l1 v' l2 :
  all_lt l1 k -> ins k v (l1 ++ (k, v') :: l2) = l1 ++ (k, v) :: l2.
Proof.
  intros Hl. induction Hl as [|[k1 v1] l1 Hk1 Hl IH]; cbn in *.
  - by destruct (Z.ltb_spec k k); [lia|].
  - rewrite IH. destruct (Z.ltb_spec k k1); [lia|]. by destruct (Z.ltb_spec k1 k); [|lia].
Qed.

Lemma del_all_gt k l : all_gt l k -> del k l = l.
Proof.
  induction 1 as [|[k1 v1] l Hk1 Hl IH]; cbn in *; [done|].
  destruct (Z.eqb_spec k k1); [lia|]. by rewrite IH.
Qed.

Lemma del_app_lt k l1 k' v' l2 :
  k < k' -> all_gt l2 k' -> del k (l1 ++ (k', v') :: l2) = del k l1 ++ (k', v') :: l2.
Proof.
  intros Hk Hg. induction l1 as [|[k1 v1] l1 IH]; cbn.
  - destruct (Z.eqb_spec k k'); [lia|]. rewrite del_all_gt; [done|].
    eapply Forall_impl; [exact Hg|]. cbn. lia.
  - by destruct (Z.eqb_spec k k1); [|rewrite IH].
Qed.

Lemma del_app_gt k l1 k' v' l2 :
  k' < k -> all_lt l1 k' -> del k (l1 ++ (k', v') :: l2) = l1 ++ (k', v') :: del k l2.
Proof.
  intros Hk Hl. induction Hl as [|[k1 v1] l1 Hk1 Hl IH]; cbn in *.
  - by destruct (Z.eqb_spec k k'); [lia|].
  - destruct (Z.eqb_spec k k1); [lia|]. by rewrite IH.
Qed.

Lemma del_app_eq k l1 v' l2 : all_lt l1 k -> del k (l1 ++ (k, v') :: l2) = l1 ++ l2.
Proof.
  intros Hl. induction Hl as [|[k1 v1] l1 Hk1 Hl IH]; cbn in *.
  - by rewrite Z.eqb_refl.
  - destruct (Z.eqb_spec k k1); [lia|]. by rewrite IH.
Qed.

Lemma look_all_gt k l : all_gt l k -> look k l = None.
Proof.
  induction 1 as [|[k1 v1] l Hk1 Hl IH]; cbn in *; [done|].
  by destruct (Z.eqb_spec k k1); [lia|].
Qed.

Lemma look_app_lt k l1 k' v' l2 :
  k < k' -> all_gt l2 k' -> look k (l1 ++ (k', v') :: l2) = look k l1.
Proof.
  intros Hk Hg. induction l1 as [|[k1 v1] l1 IH]; cbn.
  - destruct (Z.eqb_spec k k'); [lia|]. apply look_all_gt.
    eapply Forall_impl; [exact Hg|]. cbn. lia.
  - by destruct (Z.eqb_spec k k1).
Qed.

Lemma look_app_ge k l1 k' v' l2 :
  k' <= k -> all_lt l1 k' ->
  look k (l1 ++ (k', v') :: l2) = if k =? k' then Some v' else look k l2.
Proof.
  intros Hk Hl. induction Hl as [|[k1 v1] l1 Hk1 Hl IH]; cbn in *; [done|].
  by destruct (Z.eqb_spec k k1); [lia|].
Qed.

Lemma look_None k l : sorted l -> look k l = None <-> k ∉ l.*1.
Proof.
  intros _. induction l as [|[k1 v1] l IH]; cbn; [set_solver|].
  destruct (Z.eqb_spec k k1); [set_solver|]. rewrite IH. set_solver.
Qed.

Lemma look_ins k v k' l : look k' (ins k v l) = if k' =? k then Some v else look k' l.
Proof.
  induction l as [|[k1 v1] l IH]; cbn; [done|].
  destruct (Z.ltb_spec k k1), (Z.ltb_spec k1 k); cbn; try done; try lia.
  - rewrite IH. destruct (Z.eqb_spec k' k1), (Z.eqb_spec k' k); (done || lia).
  - destruct (Z.eqb_spec k' k), (Z.eqb_spec k' k1); (done || lia).
Qed.

Lemma look_del k k' l : sorted l -> look k' (del k l) = if k' =? k then None else look k' l.
Proof.
  intros Hs. induction l as [|[k1 v1] l IH]; cbn; [by case_match|].
  apply sorted_cons in Hs as [Hs Hg].
  destruct (Z.eqb_spec k k1) as [->|]; cbn.
  - destruct (Z.eqb_spec k' k1) as [->|]; [|done]. by apply look_all_gt.
  - rewrite IH by done. destruct (Z.eqb_spec k' k1), (Z.eqb_spec k' k); (done || lia).
Qed.

Lemma all_gt_ins k0 k v l : k0 < k -> all_gt l k0 -> all_gt (ins k v l) k0.
Proof.
  intros Hk Hl. induction Hl as [|[k1 v1] l Hk1 Hl IH]; cbn in *.
  { by repeat constructor. }
  repeat case_match; by repeat constructor.
Qed.

Lemma sorted_ins k v l : sorted l -> sorted (ins k v l).
Proof.
  induction l as [|[k1 v1] l IH]; cbn; intros Hs.
  { by repeat constructor. }
  pose proof Hs as [Hs1 Hg]%sorted_cons.
  destruct (Z.ltb_spec k k1); [|destruct (Z.ltb_spec k1 k)].
  - apply sorted_cons. split; [done|]. constructor; [done|].
    eapply Forall_impl; [exact Hg|]. cbn. lia.
  - apply sorted_cons. split; [auto|]. by apply all_gt_ins.
  - assert (k = k1) as -> by lia. by apply sorted_cons.
Qed.

Lemma all_gt_del k0 k l : all_gt l k0 -> all_gt (del k l) k0.
Proof.
  induction 1 as [|[k1 v1] l Hk1 Hl IH]; cbn in *; [constructor|].
  case_match; [done|]. by constructor.
Qed.

Lemma sorted_del k l : sorted l -> sorted (del k l).
Proof.
  induction l as [|[k1 v1] l IH]; cbn; [done|]. intros [Hs Hg]%sorted_cons.
  case_match; [done|]. apply sorted_cons. split; [auto|]. by apply all_gt_del.
Qed.

Lemma all_lt_look k l x v : all_lt l k -> look x l = Some v -> x < k.
Proof.
  induction 1 as [|[k1 v1] l Hk1 Hl IH]; cbn in *; [done|].
  destruct (Z.eqb_spec x k1); [lia|done].
Qed.

Lemma all_gt_look k l x v : all_gt l k -> look x l = Some v -> k < x.
Proof.
  induction 1 as [|[k1 v1] l Hk1 Hl IH]; cbn in *; [done|].
  destruct (Z.eqb_spec x k1); [lia|done].
Qed.

Lemma get_look n key : sorted (elements n) -> get n key = look key (elements n).
Proof.
  induction n as [|k v l IHl r IHr c]; cbn; [done|].
  intros (Hsl & Hsr & Hlt & Hgt)%sorted_app_mid.
  destruct (Z.ltb_spec k key); [|destruct (Z.ltb_spec key k)].
  - rewrite look_app_ge by (done || lia). destruct (Z.eqb_spec key k); [lia|]. auto.
  - rewrite look_app_lt by done. auto.
  - rewrite look_app_ge by (done || lia). by destruct (Z.eqb_spec key k); [|lia].
Qed.

Lemma min_elements n : min n = head (elements n).
Proof.
  induction n as [|k v l IHl r IHr c]; cbn; [done|].
  destruct l as [|lk lv ll lr lc]; [done|]. rewrite IHl.
  cbn. by destruct (elements ll).
Qed.

Lemma max_elements n : max n = last (elements n).
Proof.
  induction n as [|k v l IHl r IHr c]; cbn; [done|].
  destruct r as [|rk rv rl rr rc]; [symmetry; apply last_snoc|].
  rewrite IHr, last_app_cons, last_cons.
  destruct (last (elements (Node rk rv rl rr rc))) eqn:E; [done|].
  apply last_None in E. cbn in E. by destruct (elements rl).
Qed.

(** ** The red-black invariant

    [llrb n c h]: [n] is a left-leaning 2-3 red-black tree with root colour
    [c] and black height [h]: no red node has a red child, no node has a red
    right child, and every path from the root to [nil] has [h] black nodes. *)
Inductive llrb : node V -> color -> nat -> Prop :=
| llrb_nil : llrb nil black 0
| llrb_red k v l r h :
    llrb l black h -> llrb r black h -> llrb (Node k v l r red) red h
| llrb_black k v l r c h :
    llrb l c h -> llrb r black h -> llrb (Node k v l r black) black (S h).
#[local] Hint Constructors llrb : core.

(** A red node whose left child is red, what an insertion may leave. *)
Definition red_red (n : node V) (h : nat) : Prop :=
  match n with
  | Node _ _ l r red => llrb l red h /\ llrb r black h
  | _ => False
  end.

Lemma llrb_color n c h : llrb n c h -> getColor n = c.
Proof. by destruct 1. Qed.

Lemma llrb_red_inv n h :
  llrb n red h -> exists k v l r, n = Node k v l r red /\ llrb l black h /\ llrb r black h.
Proof. inversion 1; subst. repeat eexists; done. Qed.

Lemma llrb_black_S_inv n h :
  llrb n black (S h) ->
  exists k v l r c, n = Node k v l r black /\ llrb l c h /\ llrb r black h.
Proof. inversion 1; subst. repeat eexists; done. Qed.

Lemma llrb_black_0_inv n : llrb n black 0 -> n = nil.
Proof. by inversion 1. Qed.

(** Recolouring a red root black raises the black height. *)
Lemma llrb_blacken k v l r h :
  llrb (Node k v l r red) red h -> llrb (Node k v l r black) black (S h).
Proof. inversion 1; subst. eauto. Qed.

(** Expose the constructors that known colours and heights force, and
    compute the colour tests. *)
Ltac llrb_inv :=
  repeat match goal with
  | H : llrb _ red _ |- _ =>
      apply llrb_red_inv in H; destruct H as (? & ? & ? & ? & -> & ? & ?)
  | H : llrb _ black (S _) |- _ =>
      apply llrb_black_S_inv in H; destruct H as (? & ? & ? & ? & ? & -> & ? & ?)
  | H : llrb _ black 0 |- _ => apply llrb_black_0_inv in H as ->
  | H : red_red ?n _ |- _ =>
      let c := fresh "c" in
      destruct n as [|? ? ? ? c]; [destruct H|destruct c; [destruct H|destruct H as [? ?]]]
  end.
Ltac color_simpl :=
  repeat (cbn -[Z.ltb Z.eqb balance elements size sorted];
    match goal with
    | H : llrb ?n ?c _ |- context [getColor ?n] => rewrite (llrb_color n c _ H)
    end);
  cbn -[Z.ltb Z.eqb balance elements size sorted].

(** *** balance *)

Lemma rotateLeft_elements n n' : rotateLeft n = Ret n' -> elements n' = elements n.
Proof.
  destruct n as [|k v l [|rk rv rl rr rc] c]; cbn; try done.
  destruct rc; [done|]. intros [= <-]. cbn. by rewrite <- app_assoc.
Qed.

Lemma rotateRight_elements n n' : rotateRight n = Ret n' -> elements n' = elements n.
Proof.
  destruct n as [|k v [|lk lv ll lr lc] r c]; cbn; try done.
  destruct lc; [done|]. intros [= <-]. cbn. by rewrite <- app_assoc.
Qed.

Lemma flipColors_elements n n' : flipColors n = Ret n' -> elements n' = elements n.
Proof.
  destruct n as [|k v [|lk lv ll lr lc] [|rk rv rl rr rc] c]; cbn; try done.
  by intros [= <-].
Qed.

Lemma balance_elements n n' : balance n = Ret n' -> elements n' = elements n.
Proof.
  unfold balance. intros Hb. inv_ret.
  repeat match goal with
  | H : (if _ then _ else _) = Ret _ |- _ => case_hyp H; inv_ret; subst
  | H : rotateLeft _ = Ret _ |- _ => apply rotateLeft_elements in H
  | H : rotateRight _ = Ret _ |- _ => apply rotateRight_elements in H
  | H : flipColors _ = Ret _ |- _ => apply flipColors_elements in H
  end; congruence.
Qed.

(** A node that already satisfies the invariant is left alone. *)
Lemma balance_id n c h : llrb n c h -> n <> nil -> balance n = Ret n.
Proof.
  intros Hn Hne. destruct Hn as [|k v l r h Hl Hr|k v l r c h Hl Hr]; [done| |];
    unfold balance, left_leftleft; color_simpl; [done|].
  destruct c; color_simpl; [done|]. llrb_inv. color_simpl. done.
Qed.

(** A black node with one red right child: rotated to lean left. *)
Lemma balance_lean_right k v l r h :
  llrb l black h -> llrb r red h ->
  exists n', balance (Node k v l r black) = Ret n' /\ llrb n' black (S h).
Proof.
  intros Hl Hr. llrb_inv. unfold balance, left_leftleft. color_simpl. eauto 6.
Qed.

(** Two red children: the node splits. *)
Lemma balance_split k v l r h :
  llrb l red h -> llrb r red h ->
  exists n', balance (Node k v l r black) = Ret n' /\ llrb n' red (S h).
Proof.
  intros Hl Hr. llrb_inv. unfold balance, left_leftleft. color_simpl. eauto 8.
Qed.

(** Two reds in a row on the left: rotated and split. *)
Lemma balance_red_red k v l r h :
  red_red l h -> llrb r black h ->
  exists n', balance (Node k v l r black) = Ret n' /\ llrb n' red (S h).
Proof.
  intros Hl Hr. destruct l as [|lk lv ll lr [|]]; try done. destruct Hl as [Hll Hlr].
  llrb_inv. unfold balance, left_leftleft. color_simpl. eauto 8.
Qed.

(** A red node with a red right child becomes a red node with a red left
    child: the parent repairs it. *)
Lemma balance_red_right k v l r h :
  llrb l black h -> llrb r red h ->
  exists n', balance (Node k v l r red) = Ret n' /\ red_red n' h.
Proof.
  intros Hl Hr. llrb_inv. unfold balance, left_leftleft. color_simpl.
  eexists. split; [reflexivity|]. cbn. eauto.
Qed.

Lemma balance_red_left k v l r h :
  llrb l red h -> llrb r black h ->
  balance (Node k v l r red) = Ret (Node k v l r red).
Proof.
  intros Hl Hr. llrb_inv. unfold balance, left_leftleft. color_simpl. done.
Qed.

(** *** put *)

Definition zero_pool (p : list (node V)) : Prop := Forall (eq zero_node) p.

Lemma alloc_spec p :
  zero_pool p -> exists p', alloc p = (zero_node, p') /\ zero_pool p'.
Proof.
  intros Hp. unfold alloc. destruct (last p) as [n|] eqn:E; [|eauto].
  apply last_Some in E as [q ->]. apply Forall_app in Hp as [Hq Hn].
  inversion Hn as [|? ? <- _]; subst. eexists. split; [done|].
  apply Forall_take. apply Forall_app. split; [exact Hq|by repeat constructor].
Qed.

Lemma zero_pool_free p : zero_pool p -> zero_pool (free p).
Proof. intros Hp. apply Forall_app. split; [done|by repeat constructor]. Qed.

(** What an insertion below a node of colour [c] may return. *)
Definition put_ok (c : color) (h : nat) (n' : node V) : Prop :=
  match c with
  | black => exists c', llrb n' c' h
  | red => llrb n' red h \/ red_red n' h
  end.

(** [put] on a child, then [balance]: the repair at the parent. *)
Lemma put_balance_right k v l r' c cl h hn :
  (c = red /\ cl = black /\ hn = h \/ c = black /\ hn = S h) ->
  llrb l cl h -> put_ok black h r' ->
  exists n', balance (Node k v l r' c) = Ret n' /\ put_ok c hn n'.
Proof.
  intros Hc Hl [cr Hr]. destruct Hc as [(-> & -> & ->)|(-> & ->)]; destruct cr.
  - eexists. split; [eapply balance_id; eauto; done|]. left. eauto.
  - destruct (balance_red_right k v l r' h) as (n' & -> & ?); try done.
    exists n'. split; [done|]. by right.
  - eexists. split; [eapply balance_id; eauto; done|]. cbn. eauto.
  - destruct cl.
    + destruct (balance_lean_right k v l r' h) as (n' & -> & ?); try done.
      exists n'. split; [done|]. cbn. eauto.
    + destruct (balance_split k v l r' h) as (n' & -> & ?); try done.
      exists n'. split; [done|]. cbn. eauto.
Qed.

Lemma put_balance_left k v l' r c cl h hn :
  (c = red /\ cl = black /\ hn = h \/ c = black /\ hn = S h) ->
  llrb r black h -> put_ok cl h l' ->
  exists n', balance (Node k v l' r c) = Ret n' /\ put_ok c hn n'.
Proof.
  intros Hc Hr Hl. destruct Hc as [(-> & -> & ->)|(-> & ->)].
  - destruct Hl as [[|] Hl].
    + eexists. split; [eapply balance_id; eauto; done|]. left. eauto.
    + eexists. split; [by eapply balance_red_left|]. by right.
  - assert ((exists c', llrb l' c' h) \/ red_red l' h) as [[c' Hl']|Hrr].
    { destruct cl; [by left|]. destruct Hl; eauto. }
    + eexists. split; [eapply balance_id; eauto; done|]. cbn. eauto.
    + destruct (balance_red_red k v l' r h) as (n' & -> & ?); try done.
      exists n'. split; [done|]. cbn. eauto.
Qed.

Lemma put_spec n c h p key value :
  llrb n c h -> sorted (elements n) -> zero_pool p ->
  exists n' p', put p n key value = Ret (n', p') /\ zero_pool p' /\
    elements n' = ins key value (elements n) /\ put_ok c h n'.
Proof.
  intros Hn Hs Hp. induction Hn as [|k v l r h Hl IHl Hr IHr|k v l r c h Hl IHl Hr IHr].
  { cbn. destruct (alloc_spec p Hp) as (p' & -> & Hp'). cbn.
    exists (Node key value nil nil red), p'. repeat split; try done. exists red. auto. }
  all: cbn [elements] in *; pose proof Hs as (Hsl & Hsr & Hlt & Hgt)%sorted_app_mid.
  all: specialize (IHl Hsl); specialize (IHr Hsr).
  all: destruct IHl as (l' & pl & El & Hpl & Hel & Hokl);
       destruct IHr as (r' & pr & Er & Hpr & Her & Hokr).
  all: cbn [put]; destruct (Z.ltb_spec k key) as [Hk|Hk];
       [|destruct (Z.ltb_spec key k) as [Hk'|Hk']];
       rewrite ?El, ?Er; cbn [obind fst snd].
  - destruct (put_balance_right k v l r' red black h h) as (n' & Hb & Hok); auto.
    rewrite Hb. cbn. exists n', pr. repeat split; try done.
    rewrite (balance_elements _ _ Hb). cbn. by rewrite Her, ins_app_gt.
  - destruct (put_balance_left k v l' r red black h h) as (n' & Hb & Hok); auto.
    rewrite Hb. cbn. exists n', pl. repeat split; try done.
    rewrite (balance_elements _ _ Hb). cbn. by rewrite Hel, ins_app_lt.
  - assert (key = k) as -> by lia.
    rewrite (balance_id (Node k value l r red) red h) by (auto; done). cbn.
    eexists _, p. repeat split; try done; [cbn; by rewrite ins_app_eq|]. left. auto.
  - destruct (put_balance_right k v l r' black c h (S h)) as (n' & Hb & Hok); auto.
    rewrite Hb. cbn. exists n', pr. repeat split; try done.
    rewrite (balance_elements _ _ Hb). cbn. by rewrite Her, ins_app_gt.
  - destruct (put_balance_left k v l' r black c h (S h)) as (n' & Hb & Hok); auto.
    rewrite Hb. cbn. exists n', pl. repeat split; try done.
    rewrite (balance_elements _ _ Hb). cbn. by rewrite Hel, ins_app_lt.
  - assert (key = k) as -> by lia.
    rewrite (balance_id (Node k value l r black) black (S h)) by (eauto; done). cbn.
    eexists _, p. repeat split; try done; [cbn; by rewrite ins_app_eq|]. cbn. eauto.
Qed.

(** *** The tree's invariant *)

Record wf (T : RBTree V) : Prop := {
  wf_llrb : exists h, llrb (root T) black h;
  wf_sorted : sorted (elements (root T));
  wf_pool : zero_pool (pool T)
}.

Definition contents (T : RBTree V) : list (Z * V) := elements (root T).

Lemma Set_spec T key value :
  wf T -> exists T', Set_ T key value = Ret T' /\ wf T' /\
    contents T' = ins key value (contents T).
Proof.
  intros [[h Hl] Hs Hp]. unfold Set_.
  destruct (put_spec _ _ _ _ key value Hl Hs Hp) as (n' & p' & -> & Hp' & He & [c' Hok]).
  cbn [obind fst snd]. destruct n' as [|k v l r c].
  { exfalso. cbn in He. destruct (elements (root T)) as [|[k1 v1] t]; cbn in He; [done|].
    repeat case_match; done. }
  cbn. eexists. split; [done|]. unfold contents. cbn. split; [|exact He].
  split; cbn; [|unfold sorted in *; change (sorted (elements (Node k v l r c))); rewrite He; by apply sorted_ins|done].
  destruct c; inversion Hok; subst; eauto.
Qed.

(** *** delete

    A recursive call receives a node it can take an element from: red, or
    black with a red left child ([rec_ok]); or, on the way right, a black
    node with a red right child ([lean_right]).  It returns a tree of the
    same black height, black if the argument was black ([del_ok]). *)
Definition rec_ok (n : node V) (c : color) (h : nat) : Prop :=
  llrb n c h /\ (c = red \/ exists l, left n = Ret l /\ getColor l = red).

Definition lean_right (n : node V) (h : nat) : Prop :=
  exists k v l r h', n = Node k v l r black /\ h = S h' /\ llrb l black h' /\ llrb r red h'.

Definition del_ok (c : color) (h : nat) (n' : node V) : Prop :=
  exists c', llrb n' c' h /\ (c = black -> c' = black).

Lemma rec_ok_red n h : llrb n red h -> rec_ok n red h.
Proof. split; auto. Qed.

Lemma rec_ok_black_left k v l r h :
  llrb l red h -> llrb r black h -> rec_ok (Node k v l r black) black (S h).
Proof.
  intros Hl Hr. split; [eauto|]. right. exists l. split; [done|]. by eapply llrb_color.
Qed.

Lemma rec_ok_not_nil n c h : rec_ok n c h -> n <> nil.
Proof. intros [Hn [->|(l & Hl & _)]] ->; [inversion Hn|done]. Qed.

Lemma del_ok_intro c h c' n' : llrb n' c' h -> (c = black -> c' = black) -> del_ok c h n'.
Proof. by exists c'. Qed.

(** The step to the left child shared by [delete] and [deleteMin]: after the
    optional [moveRedLeft] the left child satisfies [rec_ok], and whatever
    correct tree replaces it, [balance] restores the invariant. *)
Lemma descend_left n c h k0 v0 l0 r0 c0 :
  rec_ok n c h -> n = Node k0 v0 l0 r0 c0 -> l0 <> nil ->
  exists b k v l r c1 cl hl,
    left_leftleft n black black = Ret b /\
    (if b : bool then moveRedLeft n else Ret n) = Ret (Node k v l r c1) /\
    elements (Node k v l r c1) = elements n /\
    (size l + size r = size l0 + size r0)%nat /\
    (sorted (elements n) -> k0 <= k) /\
    rec_ok l cl hl /\
    forall l', del_ok cl hl l' ->
      exists n', balance (Node k v l' r c1) = Ret n' /\ del_ok c h n'.
Proof.
  intros [Hn Hc] -> Hne.
  inversion Hn as [|k v l r h' Hl Hr|k v l r cl h' Hl Hr]; subst.
  - (* a red node: both children black *)
    destruct h as [|h]; [by apply llrb_black_0_inv in Hl|].
    apply llrb_black_S_inv in Hl as (lk & lv & ll & lr & cll & -> & Hll & Hlr).
    apply llrb_black_S_inv in Hr as (rk & rv & rl & rr & crl & -> & Hrl & Hrr).
    destruct cll; unfold left_leftleft, moveRedLeft.
    + (* the left child is a 2-node *)
      color_simpl. destruct crl.
      * (* so is the right one: merge *)
        eexists true, _, _, _, _, _, red, h. split; [done|]. color_simpl.
        split; [done|]. split; [done|]. split; [cbn; lia|]. split; [lia|].
        split; [apply rec_ok_red; auto|].
        intros l' (c' & Hl' & _). destruct c'.
        -- destruct (balance_lean_right k0 v0 l' (Node rk rv rl rr red) h) as (n' & -> & ?); auto.
           exists n'. split; [done|]. by eapply del_ok_intro.
        -- destruct (balance_split k0 v0 l' (Node rk rv rl rr red) h) as (n' & -> & ?); auto.
           exists n'. split; [done|]. by eapply del_ok_intro.
      * (* borrow from the right one *)
        apply llrb_red_inv in Hrl as (xk & xv & xl & xr & -> & Hxl & Hxr).
        eexists true, _, _, _, _, _, black, (S h). split; [done|]. color_simpl.
        split; [done|]. split; [cbn; by rewrite <- !app_assoc; cbn; rewrite <- ?app_assoc|].
        split; [cbn; lia|]. split.
        { cbn. intros (_ & _ & _ & Hg)%sorted_app_mid. apply Forall_app in Hg as [Hg _].
          apply Forall_app in Hg as [_ Hg]. inversion Hg; subst. cbn in *. lia. }
        split; [apply rec_ok_black_left; auto|].
        intros l' (c' & Hl' & Hc'). rewrite (Hc' eq_refl) in Hl'.
        eexists. split; [eapply balance_id; eauto; done|].
        by eapply del_ok_intro; [eauto|].
    + (* the left child has a red child: go down as it is *)
      color_simpl.
      eexists false, _, _, _, _, _, black, (S h). split; [done|]. split; [done|].
      split; [done|]. split; [cbn; lia|]. split; [lia|].
      split; [by apply rec_ok_black_left|].
      intros l' (c' & Hl' & Hc'). rewrite (Hc' eq_refl) in Hl'.
      eexists. split; [eapply balance_id; eauto; done|]. by eapply del_ok_intro; [eauto|].
  - (* a black node: the left child is red *)
    destruct Hc as [?|(l & [= <-] & Hc)]; [done|]. rewrite (llrb_color _ _ _ Hl) in Hc. subst cl.
    unfold left_leftleft. color_simpl.
    eexists false, _, _, _, _, _, red, h'. split; [done|]. split; [done|].
    split; [done|]. split; [cbn; lia|]. split; [lia|]. split; [by apply rec_ok_red|].
    intros l' (c' & Hl' & _).
    eexists. split; [eapply balance_id; eauto; done|]. by eapply del_ok_intro; [eauto|].
Qed.

Lemma elements_nil_inv n : elements n = [] -> n = nil.
Proof. destruct n as [|k v l r c]; [done|]. cbn. by destruct (elements l). Qed.

Lemma tl_app_cons {B} (l1 l2 : list B) : l1 <> [] -> tl (l1 ++ l2) = tl l1 ++ l2.
Proof. by destruct l1. Qed.

Lemma deleteMin_spec fuel n c h p :
  (size n <= fuel)%nat -> rec_ok n c h -> sorted (elements n) -> zero_pool p ->
  exists n' p', deleteMin fuel p n = Ret (n', p') /\ zero_pool p' /\
    elements n' = tl (elements n) /\ del_ok c h n'.
Proof.
  revert n c h p. induction fuel as [|fuel IH]; intros n c h p Hf Hok Hs Hp.
  { destruct n; [by apply rec_ok_not_nil in Hok|]. cbn in Hf. lia. }
  destruct n as [|k0 v0 l0 r0 c0]; [by apply rec_ok_not_nil in Hok|].
  assert (l0 = nil \/ l0 <> nil) as [->|Hne] by (destruct l0; auto).
  { assert (c = red /\ h = 0%nat /\ r0 = nil) as (-> & -> & ->).
    { destruct Hok as [Hn Hc].
      inversion Hn as [|k v l r h' Hl Hr|k v l r cl h' Hl Hr]; subst.
      - inversion Hl; subst. by apply llrb_black_0_inv in Hr as ->.
      - destruct Hc as [?|(l & [= <-] & Hc)]; done. }
    cbn. eexists nil, _. split; [done|]. split; [by apply zero_pool_free|].
    split; [done|]. by eapply del_ok_intro. }
  destruct (descend_left _ c h k0 v0 l0 r0 c0 Hok eq_refl Hne)
    as (b & k & v & l & r & c1 & cl & hl & Hb & Hmv & He & Hsz & _ & Hl & Hbal).
  cbn [deleteMin left obind]. destruct l0 as [|lk lv ll lr lc]; [done|].
  rewrite Hb. cbn [obind]. rewrite Hmv. cbn [obind left].
  destruct (IH l cl hl p) as (l' & p' & -> & Hp' & Hel & Hokl); try done.
  { cbn in *. lia. }
  { rewrite <- He in Hs. cbn in Hs. by apply sorted_app_mid in Hs as (? & _). }
  cbn [obind set_left fst snd]. destruct (Hbal l' Hokl) as (n' & Hn' & Hok').
  rewrite Hn'. cbn [obind]. exists n', p'. repeat split; try done.
  rewrite (balance_elements _ _ Hn'), <- He. cbn [elements]. rewrite Hel.
  symmetry. apply tl_app_cons. intros Hnil%elements_nil_inv.
  by apply rec_ok_not_nil in Hl.
Qed.

(** The step to the right child of a red node: after the optional
    [moveRedRight] the right child can lose an element, as [rec_ok] when the
    root key did not change, or as [lean_right] when a rotation brought up a
    smaller key; in both cases [balance] restores the invariant. *)
Lemma descend_right_red h k0 v0 l0 r0 :
  llrb (Node k0 v0 l0 r0 red) red h -> r0 <> nil ->
  sorted (elements (Node k0 v0 l0 r0 red)) ->
  exists b k v l r c1 cr hr,
    right_rightleft (Node k0 v0 l0 r0 red) black black = Ret b /\
    (if b : bool then moveRedRight (Node k0 v0 l0 r0 red)
     else Ret (Node k0 v0 l0 r0 red)) = Ret (Node k v l r c1) /\
    elements (Node k v l r c1) = elements (Node k0 v0 l0 r0 red) /\
    (size l + size r = size l0 + size r0)%nat /\
    (rec_ok r cr hr /\ k = k0 \/
     lean_right r hr /\ cr = black /\ k < k0 /\ node_key r = Ret k0) /\
    forall k1 v1 r', del_ok cr hr r' ->
      exists n', balance (Node k1 v1 l r' c1) = Ret n' /\ del_ok red h n'.
Proof.
  intros Hn Hne Hs. inversion Hn as [|? ? ? ? ? Hl Hr|]; subst.
  destruct h as [|h]; [by apply llrb_black_0_inv in Hr|].
  apply llrb_black_S_inv in Hl as (lk & lv & ll & lr & cll & -> & Hll & Hlr).
  apply llrb_black_S_inv in Hr as (rk & rv & rl & rr & crl & -> & Hrl & Hrr).
  unfold right_rightleft, moveRedRight. color_simpl. destruct crl; color_simpl.
  - destruct cll.
    + (* merge the three 2-nodes *)
      eexists true, _, _, _, _, _, red, h. split; [done|]. color_simpl.
      split; [done|]. split; [done|]. split; [cbn; lia|].
      split; [left; split; [apply rec_ok_red; auto|done]|].
      intros k1 v1 r' (c' & Hr' & _). destruct c'.
      * eexists. split; [eapply balance_id; eauto; done|].
        by eapply del_ok_intro; [eauto|].
      * destruct (balance_split k1 v1 (Node lk lv ll lr red) r' h) as (n' & -> & ?); auto.
        exists n'. split; [done|]. by eapply del_ok_intro.
    + (* borrow from the left 3-node *)
      apply llrb_red_inv in Hll as (xk & xv & xl & xr & -> & Hxl & Hxr).
      eexists true, _, _, _, _, _, black, (S h). split; [done|]. color_simpl.
      split; [done|]. split; [cbn; by rewrite <- !app_assoc|].
      split; [cbn; lia|]. split.
      { right. split; [|split; [done|split; [|done]]].
        - repeat eexists; eauto.
        - cbn in Hs. apply sorted_app_mid in Hs as (_ & _ & Hlt & _).
          apply Forall_app in Hlt as [_ Hlt]. by inversion Hlt; subst. }
      intros k1 v1 r' (c' & Hr' & Hc'). rewrite (Hc' eq_refl) in Hr'.
      eexists. split; [eapply balance_id; eauto; done|]. by eapply del_ok_intro; [eauto|].
  - (* the right child is a 3-node: go down as it is *)
    eexists false, _, _, _, _, _, black, (S h). split; [done|]. split; [done|].
    split; [done|]. split; [cbn; lia|].
    split; [left; split; [by apply rec_ok_black_left|done]|].
    intros k1 v1 r' (c' & Hr' & Hc'). rewrite (Hc' eq_refl) in Hr'.
    eexists. split; [eapply balance_id; eauto; done|]. by eapply del_ok_intro; [eauto|].
Qed.

(** The same for a node with a red right child, where nothing moves. *)
Lemma descend_right_lean k v l r h :
  llrb l black h -> llrb r red h ->
  right_rightleft (Node k v l r black) black black = Ret false /\
  forall k1 v1 r', del_ok red h r' ->
    exists n', balance (Node k1 v1 l r' black) = Ret n' /\ del_ok black (S h) n'.
Proof.
  intros Hl Hr. unfold right_rightleft. color_simpl. split; [done|].
  intros k1 v1 r' ([|] & Hr' & _).
  - eexists. split; [eapply balance_id; eauto; done|]. by eapply del_ok_intro; [eauto|].
  - destruct (balance_lean_right k1 v1 l r' h) as (n' & -> & ?); auto.
    exists n'. split; [done|]. by eapply del_ok_intro.
Qed.

(** The optional [rotateRight] at the start of the right branch of [delete]. *)
Lemma rotate_if_left_red k v l r c h :
  rec_ok (Node k v l r c) c h ->
  (c = red /\ color_eqb (getColor l) red = false) \/
  (c = black /\ color_eqb (getColor l) red = true /\
   exists xk xv xl xr h',
     rotateRight (Node k v l r c) = Ret (Node xk xv xl (Node k v xr r red) black) /\
     h = S h' /\ elements l = elements xl ++ (xk, xv) :: elements xr /\
     size l = S (size xl + size xr) /\
     llrb xl black h' /\ llrb (Node k v xr r red) red h').
Proof.
  intros [Hn Hc]. inversion Hn as [|? ? ? ? ? Hl Hr|? ? ? ? cl h' Hl Hr]; subst.
  - left. by rewrite (llrb_color _ _ _ Hl).
  - right. destruct Hc as [?|(l' & [= <-] & Hc)]; [done|].
    rewrite (llrb_color _ _ _ Hl) in *. subst cl. split; [done|]. split; [done|].
    apply llrb_red_inv in Hl as (xk & xv & xl & xr & -> & Hxl & Hxr).
    eexists xk, xv, xl, xr, h'. cbn. repeat split; auto.
Qed.

(** Either form of argument a recursive call of [delete] may get. *)
Definition del_pre (n : node V) (c : color) (h : nat) (key : Z) : Prop :=
  rec_ok n c h \/
  lean_right n h /\ c = black /\ exists k, node_key n = Ret k /\ k <= key.

Lemma head_tl {B} (l : list B) x : head l = Some x -> l = x :: tl l.
Proof. destruct l; cbn; by intros [= ->]. Qed.

(** The end of the right branch: the key is at this node (and the right
    subtree's minimum replaces it) or in the right subtree. *)
Lemma delete_right fuel p key k v l r c1 cr hr c h v0 :
  (forall n c h p, (size n <= fuel)%nat -> del_pre n c h key ->
     sorted (elements n) -> is_Some (look key (elements n)) -> zero_pool p ->
     exists n' p', delete fuel p n key = Ret (n', p') /\ zero_pool p' /\
       elements n' = del key (elements n) /\ del_ok c h n') ->
  (size r <= fuel)%nat -> zero_pool p ->
  sorted (elements (Node k v l r c1)) -> k <= key ->
  look key (elements (Node k v l r c1)) = Some v0 ->
  (rec_ok r cr hr \/ k < key /\ del_pre r cr hr key) ->
  (forall k1 v1 r', del_ok cr hr r' ->
      exists n', balance (Node k1 v1 l r' c1) = Ret n' /\ del_ok c h n') ->
  exists n' p',
    (let! np :=
       if key =? k then
         let! x := deref (min r) in
         let! n := set_kv (Node k v l r c1) x.1 x.2 in
         let! rp := deleteMin fuel p r in
         let! n := set_right n rp.1 in
         Ret (n, rp.2, false)
       else
         let! rp := delete fuel p r key in
         let! n := set_right (Node k v l r c1) rp.1 in
         Ret (n, rp.2, false) in
     if np.2 then Ret np.1 else
     let! n := balance np.1.1 in
     Ret (n, np.1.2)) = Ret (n', p') /\ zero_pool p' /\
    elements n' = del key (elements (Node k v l r c1)) /\ del_ok c h n'.
Proof.
  intros IH Hf Hp Hs Hk Hlook Hr Hbal. cbn [elements] in *.
  pose proof Hs as (Hsl & Hsr & Hlt & Hgt)%sorted_app_mid.
  rewrite look_app_ge in Hlook by done.
  destruct (Z.eqb_spec key k) as [->|Hne].
  - destruct Hr as [Hr|[? _]]; [|lia].
    assert (Hne : r <> nil) by (by eapply rec_ok_not_nil).
    destruct (min r) as [[mk mv]|] eqn:Hmin; rewrite min_elements in Hmin.
    2:{ exfalso. apply Hne, elements_nil_inv. by destruct (elements r). }
    destruct (deleteMin_spec fuel r cr hr p Hf Hr Hsr Hp) as (r' & p' & -> & Hp' & Her & Hok).
    cbn -[balance]. destruct (Hbal mk mv r' Hok) as (n' & Hb & Hok'). rewrite Hb. cbn.
    exists n', p'. repeat split; try done.
    rewrite (balance_elements _ _ Hb). cbn. rewrite del_app_eq by done.
    rewrite Her, <- (head_tl _ _ Hmin). done.
  - destruct (IH r cr hr p) as (r' & p' & -> & Hp' & Her & Hok); try done.
    { destruct Hr as [?|[_ ?]]; [by left|done]. }
    cbn -[balance]. destruct (Hbal k v r' Hok) as (n' & Hb & Hok'). rewrite Hb. cbn.
    exists n', p'. repeat split; try done.
    rewrite (balance_elements _ _ Hb). cbn. rewrite del_app_gt by (done || lia).
    by rewrite Her.
Qed.

Lemma delete_spec fuel n c h key p :
  (size n <= fuel)%nat -> del_pre n c h key -> sorted (elements n) ->
  is_Some (look key (elements n)) -> zero_pool p ->
  exists n' p', delete fuel p n key = Ret (n', p') /\ zero_pool p' /\
    elements n' = del key (elements n) /\ del_ok c h n'.
Proof.
  revert n c h p. induction fuel as [|fuel IH]; intros n c h p Hf Hpre Hs [v0 Hlook] Hp.
  { destruct n; [by cbn in Hlook|cbn in Hf; lia]. }
  destruct n as [|k0 v1 l0 r0 c0]; [by cbn in Hlook|].
  pose proof Hs as Hs'. cbn [elements] in Hs'.
  apply sorted_app_mid in Hs' as (Hsl & Hsr & Hlt & Hgt).
  cbn [size] in Hf. cbn [delete node_key obind].
  destruct (Z.ltb_spec key k0) as [Hk|Hk].
  - (* the key is on the left *)
    destruct Hpre as [Hok|(_ & _ & k' & [= <-] & ?)]; [|lia].
    assert (Hne : l0 <> nil).
    { intros ->. cbn in Hlook. destruct (Z.eqb_spec key k0); [lia|].
      by rewrite look_all_gt in Hlook by (eapply Forall_impl; [exact Hgt|cbn; lia]). }
    destruct (descend_left _ c h k0 v1 l0 r0 c0 Hok eq_refl Hne)
      as (b & k & v & l & r & c1 & cl & hl & Hb & Hmv & He & Hsz & Hkk & Hl & Hbal).
    rewrite Hb. cbn [obind]. rewrite Hmv. cbn [obind left].
    specialize (Hkk Hs). rewrite <- He in Hs, Hlook |- *. cbn [elements] in *.
    apply sorted_app_mid in Hs as (Hsl' & _ & _ & Hgt').
    rewrite look_app_lt in Hlook by (done || lia).
    destruct (IH l cl hl p) as (l' & p' & -> & Hp' & Hel & Hokl); eauto; [lia|by left|].
    cbn -[balance]. destruct (Hbal l' Hokl) as (n' & Hn' & Hok'). rewrite Hn'. cbn.
    exists n', p'. repeat split; try done.
    rewrite (balance_elements _ _ Hn'), del_app_lt by (done || lia). cbn. by rewrite Hel.
  - cbn [left obind].
    assert (Hcase : (c0 = red /\ rec_ok (Node k0 v1 l0 r0 c0) red h /\ c = red /\
                     color_eqb (getColor l0) red = false) \/
      exists k v l r h',
        (if color_eqb (getColor l0) red then rotateRight (Node k0 v1 l0 r0 c0)
         else Ret (Node k0 v1 l0 r0 c0)) = Ret (Node k v l r black) /\
        elements (Node k v l r black) = elements (Node k0 v1 l0 r0 c0) /\
        (size r <= fuel)%nat /\ k <= key /\ c = black /\ h = S h' /\
        llrb l black h' /\ llrb r red h').
    { destruct Hpre as [Hok|((k & v & l & r & h' & [= -> -> -> -> ->] & -> & Hl & Hr) & -> & _)].
      - assert (c0 = c) as -> by (destruct Hok as [Hn _]; apply (llrb_color _ _ _ Hn)).
        destruct (rotate_if_left_red _ _ _ _ _ _ Hok)
          as [(-> & Hc)|(-> & Hc & xk & xv & xl & xr & h' & Hrot & -> & Hel & Hsz & Hxl & Hr)].
        + left. auto.
        + right. rewrite Hc. exists xk, xv, xl, (Node k0 v1 xr r0 red), h'.
          repeat split; auto; cbn.
          * rewrite Hel. by rewrite <- app_assoc.
          * lia.
          * rewrite Hel in Hlt. apply Forall_app in Hlt as [_ Hlt].
            inversion Hlt; subst. cbn in *. lia.
      - right. rewrite (llrb_color _ _ _ Hl). cbn.
        repeat eexists; eauto; lia. }
    destruct Hcase as [(-> & Hok & -> & Hc)|(k & v & l & r & h' & Hrot & He & Hsz & Hkk & -> & -> & Hl & Hr)].
    + (* a red node *)
      rewrite Hc. cbn [obind node_key right]. destruct Hok as [Hn _].
      destruct ((key =? k0) && is_nil r0) eqn:Hlast.
      { apply andb_true_iff in Hlast as [->%Z.eqb_eq Hnil]. destruct r0; [|done].
        inversion Hn as [|? ? ? ? ? Hl Hr|]; subst. inversion Hr; subst.
        apply llrb_black_0_inv in Hl as ->. cbn. rewrite Z.eqb_refl.
        eexists nil, _. split; [done|]. split; [by apply zero_pool_free|].
        split; [done|]. by eapply del_ok_intro. }
      assert (Hne : r0 <> nil).
      { intros ->. rewrite andb_true_r in Hlast. cbn in Hlook.
        rewrite look_app_ge, Hlast in Hlook by done. by cbn in Hlook. }
      destruct (descend_right_red _ _ _ _ _ Hn Hne Hs)
        as (b & k & v & l & r & c1 & cr & hr & Hb & Hmv & He & Hsz & Hr & Hbal).
      rewrite Hb. cbn [obind]. rewrite Hmv. cbn [obind node_key right].
      rewrite <- He in Hs, Hlook |- *.
      eapply delete_right; eauto; [lia| |].
      * destruct Hr as [(_ & ->)|(_ & _ & ? & _)]; lia.
      * destruct Hr as [(Hr & _)|(Hr & -> & ? & Hnk)]; [by left|right].
        split; [lia|]. right. eauto.
    + (* a black node with a red right child *)
      rewrite Hrot. cbn [obind node_key right].
      assert (Hnil : is_nil r = false) by (by inversion Hr; subst).
      rewrite Hnil, andb_false_r.
      destruct (descend_right_lean k v l r h' Hl Hr) as [-> Hbal]. cbn [obind node_key right].
      rewrite <- He in Hs, Hlook |- *.
      eapply delete_right; eauto. left. by apply rec_ok_red.
Qed.

(** *** The operations of the package *)

Lemma rb_Get_spec T key : wf T -> Get T key = look key (contents T).
Proof. intros [_ Hs _]. by apply get_look. Qed.

Lemma wf_root_black n c h p :
  llrb n c h -> sorted (elements n) -> zero_pool p -> n <> nil ->
  exists n', set_color n black = Ret n' /\ elements n' = elements n /\ wf (mkRBTree n' p).
Proof.
  intros Hn Hs Hp Hne. destruct Hn as [|k v l r h Hl Hr|k v l r c h Hl Hr]; [done| |];
    (eexists; split; [done|split; [done|split; cbn; eauto]]).
Qed.

Lemma rb_Delete_spec T key :
  wf T -> exists T', Delete T key = Ret T' /\ wf T' /\ contents T' = del key (contents T).
Proof.
  intros Hwf. unfold Delete. rewrite rb_Get_spec by done.
  pose proof Hwf as [[h Hl] Hs Hp]. destruct T as [n p]. unfold contents in *. cbn [root pool] in *.
  destruct (look key (elements n)) as [v0|] eqn:Hlook.
  2:{ eexists. split; [done|]. split; [done|]. cbn.
      apply look_None in Hlook; [|done]. revert Hlook. clear. induction (elements n) as [|[k v] l IH]; cbn; [done|].
      intros [? ?]%not_elem_of_cons. destruct (Z.eqb_spec key k); [done|]. by rewrite <- IH. }
  assert (Hn : exists n1 c1, (let! l := left n in let! r := right n in
      if color_eqb (getColor l) black && color_eqb (getColor r) black
      then set_color n red else Ret n) = Ret n1 /\ elements n1 = elements n /\
      size n1 = size n /\ exists h1, rec_ok n1 c1 h1).
  { inversion Hl as [|?|k v l r c h' Hll Hr]; subst; [by cbn in Hlook|]. cbn.
    rewrite (llrb_color _ _ _ Hr), (llrb_color _ _ _ Hll). destruct c; cbn.
    - eexists _, red. repeat split; [done..|]. exists h'. apply rec_ok_red; auto.
    - eexists _, black. repeat split; [done..|]. exists (S h'). by apply rec_ok_black_left. }
  destruct Hn as (n1 & c1 & Hn1 & He1 & Hsz & h1 & Hok).
  destruct n as [|k v l r c]; [done|]. cbn [left right obind] in Hn1 |- *. rewrite Hn1.
  cbn [obind]. rewrite <- Hsz.
  destruct (delete_spec (size n1) n1 c1 h1 key p) as (n' & p' & -> & Hp' & He & c' & Hn' & _);
    rewrite ?He1; eauto; [by left|].
  cbn [obind fst snd]. rewrite He1 in He.
  assert (Hs' : sorted (elements n')) by (rewrite He; by apply sorted_del).
  destruct n' as [|k' v' l' r' cc'].
  - eexists. split; [done|]. split; [|exact He]. split; cbn; eauto; constructor.
  - destruct (wf_root_black _ _ _ p' Hn' Hs' Hp') as (n2 & -> & He2 & Hwf2); [done|].
    cbn [obind]. eexists. split; [done|]. split; [done|]. cbn. by rewrite He2.
Qed.

(** Next and Prev: the neighbours in the sorted contents. *)
Fixpoint look_above (key : Z) (l : list (Z * V)) : option (Z * V) :=
  match l with
  | [] => None
  | (k, v) :: t => if key <? k then Some (k, v) else look_above key t
  end.

Fixpoint look_below (key : Z) (l : list (Z * V)) : option (Z * V) :=
  match l with
  | [] => None
  | (k, v) :: t =>
      if k <? key then match look_below key t with None => Some (k, v) | b => b end
      else None
  end.

Lemma look_above_app key l1 k v l2 :
  all_lt l1 k ->
  look_above key (l1 ++ (k, v) :: l2) =
  if key <? k then match look_above key l1 with None => Some (k, v) | b => b end
  else look_above key l2.
Proof.
  induction 1 as [|[k1 v1] l1 Hk1 Hl IH]; cbn in *; [done|]. rewrite IH.
  destruct (Z.ltb_spec key k1), (Z.ltb_spec key k); (done || lia).
Qed.

Lemma look_below_app key l1 k v l2 :
  all_lt l1 k ->
  look_below key (l1 ++ (k, v) :: l2) =
  if k <? key then match look_below key l2 with None => Some (k, v) | b => b end
  else look_below key l1.
Proof.
  induction 1 as [|[k1 v1] l1 Hk1 Hl IH]; cbn in *; [done|]. rewrite IH.
  destruct (Z.ltb_spec k1 key), (Z.ltb_spec k key); try done; try lia.
  by destruct (look_below key l2).
Qed.

Lemma look_above_all_gt key l : all_gt l key -> look_above key l = head l.
Proof.
  destruct 1 as [|[k1 v1] l Hk1 Hl]; cbn in *; [done|].
  by destruct (Z.ltb_spec key k1); [|lia].
Qed.

Lemma look_below_all_lt key l : all_lt l key -> look_below key l = last l.
Proof.
  induction 1 as [|[k1 v1] l Hk1 Hl IH]; [done|]. cbn [look_below fst] in *.
  destruct (Z.ltb_spec k1 key); [|lia]. rewrite IH, last_cons. by destruct (last l).
Qed.

Lemma next_spec n key : sorted (elements n) -> next n key = look_above key (elements n).
Proof.
  induction n as [|k v l IHl r IHr c]; cbn [next elements]; [done|].
  intros (Hsl & Hsr & Hlt & Hgt)%sorted_app_mid. rewrite look_above_app by done.
  destruct (Z.eqb_spec k key) as [->|]; [|destruct (Z.ltb_spec k key)].
  - rewrite Z.ltb_irrefl. rewrite min_elements. by rewrite look_above_all_gt.
  - rewrite IHr by done. by destruct (Z.ltb_spec key k); [lia|].
  - rewrite IHl by done. by destruct (Z.ltb_spec key k); [destruct (look_above key (elements l)) as [[??]|]|lia].
Qed.

Lemma prev_spec n key : sorted (elements n) -> prev n key = look_below key (elements n).
Proof.
  induction n as [|k v l IHl r IHr c]; cbn [prev elements]; [done|].
  intros (Hsl & Hsr & Hlt & Hgt)%sorted_app_mid. rewrite look_below_app by done.
  destruct (Z.eqb_spec k key) as [->|]; [|destruct (Z.ltb_spec key k)].
  - rewrite Z.ltb_irrefl. rewrite max_elements. by rewrite look_below_all_lt.
  - rewrite IHl by done. by destruct (Z.ltb_spec k key); [lia|].
  - rewrite IHr by done. by destruct (Z.ltb_spec k key); [|lia].
Qed.

Lemma look_above_spec key l :
  sorted l ->
  match look_above key l with
  | None => forall k v, look k l = Some v -> k <= key
  | Some (k, v) => look k l = Some v /\ key < k /\
      forall k' v', look k' l = Some v' -> key < k' -> k <= k'
  end.
Proof.
  induction l as [|[k v] l IH]; cbn; [done|]. intros [Hs Hg]%sorted_cons.
  specialize (IH Hs). destruct (Z.ltb_spec key k) as [Hk|Hk].
  - rewrite Z.eqb_refl. repeat split; try done. intros k' v'.
    destruct (Z.eqb_spec k' k); [lia|]. intros Hl%(all_gt_look _ _ _ _ Hg). lia.
  - destruct (look_above key l) as [[k1 v1]|].
    + destruct IH as (Hl & Hlt & Hmin). repeat split; try done.
      * destruct (Z.eqb_spec k1 k); [lia|done].
      * intros k' v'. destruct (Z.eqb_spec k' k); [lia|eauto].
    + intros k' v'. destruct (Z.eqb_spec k' k); [lia|eauto].
Qed.

Lemma look_below_spec key l :
  sorted l ->
  match look_below key l with
  | None => forall k v, look k l = Some v -> key <= k
  | Some (k, v) => look k l = Some v /\ k < key /\
      forall k' v', look k' l = Some v' -> k' < key -> k' <= k
  end.
Proof.
  induction l as [|[k v] l IH]; cbn; [done|]. intros [Hs Hg]%sorted_cons.
  specialize (IH Hs). destruct (Z.ltb_spec k key) as [Hk|Hk].
  - destruct (look_below key l) as [[k1 v1]|].
    + destruct IH as (Hl & Hlt & Hmax). pose proof (all_gt_look _ _ _ _ Hg Hl).
      repeat split; try done; [by destruct (Z.eqb_spec k1 k); [lia|]|].
      intros k' v'. destruct (Z.eqb_spec k' k); [lia|eauto].
    + rewrite Z.eqb_refl. repeat split; try done.
      intros k' v'. destruct (Z.eqb_spec k' k); [lia|]. intros Hl ?. specialize (IH _ _ Hl). lia.
  - intros k' v'. destruct (Z.eqb_spec k' k); [lia|]. intros Hl%(all_gt_look _ _ _ _ Hg). lia.
Qed.

(** *** Balance: the depth is logarithmic in the number of nodes *)

Fixpoint depth (n : node V) : nat :=
  match n with
  | nil => 0
  | Node _ _ l r _ => S (Nat.max (depth l) (depth r))
  end.

Lemma llrb_depth n c h :
  llrb n c h -> (depth n <= 2 * h + match c with red => 1 | black => 0 end)%nat.
Proof. induction 1 as [| |? ? ? ? c]; cbn; try lia. destruct c; lia. Qed.

Lemma llrb_size n c h : llrb n c h -> (2 ^ h <= S (size n))%nat.
Proof. induction 1; cbn; lia. Qed.

(** *** As an ordered map *)

Definition empty : RBTree V := mkRBTree nil [].

Definition abs (T : RBTree V) : gmap Z V := list_to_map (contents T).

Lemma abs_lookup T k : abs T !! k = look k (contents T).
Proof.
  unfold abs. induction (contents T) as [|[k1 v1] l IH]; cbn; [done|].
  rewrite lookup_insert, IH. destruct (Z.eqb_spec k k1); case_decide; (done || congruence).
Qed.

Lemma abs_Set T T' k v : contents T' = ins k v (contents T) -> abs T' = <[k := v]> (abs T).
Proof.
  intros He. apply map_eq. intros k'. rewrite lookup_insert, !abs_lookup, He, look_ins.
  destruct (Z.eqb_spec k' k); case_decide; (done || congruence).
Qed.

Lemma abs_Delete T T' k :
  wf T -> contents T' = del k (contents T) -> abs T' = base.delete k (abs T).
Proof.
  intros [_ Hs _] He. apply map_eq. intros k'.
  rewrite lookup_delete, !abs_lookup, He, look_del by done.
  destruct (Z.eqb_spec k' k); case_decide; (done || congruence).
Qed.

Lemma Min_least T : wf T -> least (abs T) (Min T).
Proof.
  intros [_ Hs _]. unfold Min. rewrite min_elements. fold (contents T) in *.
  destruct (contents T) as [|[k v] l] eqn:He; cbn.
  - unfold abs. by rewrite He.
  - split; [rewrite abs_lookup, He; cbn; by rewrite Z.eqb_refl|].
    intros k' [v' Hk']. rewrite abs_lookup, He in Hk'. cbn in Hk'.
    apply sorted_cons in Hs as [_ Hg]. destruct (Z.eqb_spec k' k); [lia|].
    apply (all_gt_look _ _ _ _ Hg) in Hk'. lia.
Qed.

Lemma Max_greatest T : wf T -> greatest (abs T) (Max T).
Proof.
  intros [_ Hs _]. unfold Max. rewrite max_elements. fold (contents T) in *.
  destruct (last (contents T)) as [[k v]|] eqn:He.
  - apply last_Some in He as [l He]. unfold greatest. rewrite He in Hs.
    apply sorted_app_mid in Hs as (_ & _ & Hlt & _).
    split; [|intros k' [v' Hk']; revert Hk']; rewrite abs_lookup, He.
    + rewrite look_app_ge by (done || lia). by rewrite Z.eqb_refl.
    + destruct (Z.le_gt_cases k' k); [done|]. rewrite look_app_ge by (done || lia).
      by destruct (Z.eqb_spec k' k); [lia|].
  - apply last_None in He. unfold abs. by rewrite He.
Qed.

#[export] Instance rbtree_OrderedMap : OrderedMap V (RBTree V) := {|
  om_empty := empty;
  om_get := Get;
  om_set := Set_;
  om_delete := Delete;
  om_min := Min;
  om_max := Max
|}.

#[export] Instance rbtree_OrderedMapLaws : OrderedMapLaws V (RBTree V).
Proof.
  refine {| om_wf := wf; om_abs := abs |}; cbn.
  - split; [|done]. split; cbn; [eauto|constructor|constructor].
  - intros T k Hwf. by rewrite rb_Get_spec, abs_lookup.
  - intros T k v Hwf. destruct (Set_spec T k v Hwf) as (T' & ? & ? & ?).
    eauto using abs_Set.
  - intros T k Hwf. destruct (rb_Delete_spec T k Hwf) as (T' & ? & ? & ?).
    eauto using abs_Delete.
  - apply Min_least.
  - apply Max_greatest.
Defined.
End RBTree.

(** ** Theorems *)
Module RBTreeTheorems.
Section Theorems.
Context {V : Type} `{Zero V}.

Inductive op := OpSet (k : Z) (v : V) | OpDelete (k : Z).

Definition run_op (T : RBTree V) (o : op) : outcome (RBTree V) :=
  match o with
  | OpSet k v => Set_ T k v
  | OpDelete k => Delete T k
  end.

Fixpoint run (T : RBTree V) (ops : list op) : outcome (RBTree V) :=
  match ops with
  | [] => Ret T
  | o :: ops' => let! T := run_op T o in run T ops'
  end.

(** The specification: a finite map. *)
Definition map_op (m : gmap Z V) (o : op) : gmap Z V :=
  match o with
  | OpSet k v => <[k := v]> m
  | OpDelete k => base.delete k m
  end.

Lemma run_spec T ops :
  wf T -> exists T', run T ops = Ret T' /\ wf T' /\ abs T' = foldl map_op (abs T) ops.
Proof.
  revert T. induction ops as [|[k v|k] ops IH]; intros T Hwf; cbn; [eauto| |].
  - destruct (Set_spec T k v Hwf) as (T1 & -> & Hwf1 & He).
    rewrite <- (abs_Set T T1 k v He). by apply IH.
  - destruct (rb_Delete_spec T k Hwf) as (T1 & -> & Hwf1 & He).
    rewrite <- (abs_Delete T T1 k Hwf He). by apply IH.
Qed.

Lemma empty_wf : wf (empty : RBTree V) /\ abs (empty : RBTree V) = ∅.
Proof. apply (om_empty_ok (OrderedMapLaws := rbtree_OrderedMapLaws)). Qed.

(** C9: Every sequence of Set and Delete calls on an initially empty tree
    runs to completion (no nil dereference, no failed rotation assertion, no
    unbounded recursion), and the tree then answers Get, Min and Max exactly
    as the finite map built by the same updates. *)
Theorem rbtree_refines_map (ops : list op) :
  exists T, run empty ops = Ret T /\
    let m := foldl map_op ∅ ops in
    (forall k, Get T k = m !! k) /\ least m (Min T) /\ greatest m (Max T).
Proof.
  destruct empty_wf as [Hwf He]. destruct (run_spec empty ops Hwf) as (T & -> & HwfT & Habs).
  exists T. split; [done|]. rewrite He in Habs. cbn. rewrite <- Habs.
  split; [|split; [by apply Min_least|by apply Max_greatest]].
  intros k. rewrite abs_lookup. by apply rb_Get_spec.
Qed.

(** After any sequence of Set and Delete calls the tree is balanced: its
    depth is at most twice the binary logarithm of its size plus one. *)
Theorem rbtree_balanced (ops : list op) (T : RBTree V) :
  run empty ops = Ret T ->
  (depth (root T) <= 2 * Nat.log2 (S (size (root T))))%nat.
Proof.
  intros Hrun. destruct empty_wf as [Hwf _].
  destruct (run_spec empty ops Hwf) as (T' & Hrun' & [[h Hh] _ _] & _).
  assert (T' = T) as -> by congruence.
  pose proof (llrb_depth _ _ _ Hh) as Hd. cbn -[Nat.mul] in Hd. pose proof (llrb_size _ _ _ Hh) as Hs.
  assert (h <= Nat.log2 (S (size (root T))))%nat; [|lia].
  apply Nat.log2_le_pow2; lia.
Qed.

(** Delete of one key removes exactly that binding from the sorted
    contents and keeps the search-tree, colour and free-list invariants;
    deleting an absent key changes nothing. *)
Theorem delete_correct (T : RBTree V) (key : Z) (Hwf : wf T) :
  exists T', Delete T key = Ret T' /\ wf T' /\
    contents T' = del key (contents T) /\
    (Get T key = None -> T' = T).
Proof.
  destruct (rb_Delete_spec T key Hwf) as (T' & HD & HwfT & He).
  exists T'. repeat split; try done; try apply HwfT.
  intros Hn. unfold Delete in HD. rewrite Hn in HD. by injection HD.
Qed.

(** Next and Prev return the bindings with the closest greater and smaller
    keys, whether or not the given key is in the tree. *)
Theorem next_prev_correct (T : RBTree V) (key : Z) (Hwf : wf T) :
  match Next T key with
  | None => forall k v, Get T k = Some v -> k <= key
  | Some (k, v) => Get T k = Some v /\ key < k /\
      forall k' v', Get T k' = Some v' -> key < k' -> k <= k'
  end /\
  match Prev T key with
  | None => forall k v, Get T k = Some v -> key <= k
  | Some (k, v) => Get T k = Some v /\ k < key /\
      forall k' v', Get T k' = Some v' -> k' < key -> k' <= k
  end.
Proof.
  pose proof Hwf as [_ Hs _]. unfold Next, Prev. rewrite next_spec, prev_spec by done.
  pose proof (look_above_spec key _ Hs) as Ha. pose proof (look_below_spec key _ Hs) as Hb.
  split.
  - destruct (look_above key _) as [[k v]|]; setoid_rewrite (rb_Get_spec T _ Hwf); done.
  - destruct (look_below key _) as [[k v]|]; setoid_rewrite (rb_Get_spec T _ Hwf); done.
Qed.
End Theorems.

#[local] Instance zero_Z : Zero Z := 0.

Definition sample : RBTree Z :=
  mkRBTree (Node 2 20 (Node 1 10 nil nil black) (Node 5 50 nil nil black) black) [].

Lemma sample_wf : wf sample.
Proof.
  split; [|by repeat constructor|constructor].
  exists 2%nat. repeat (apply (llrb_black _ _ _ _ black) || constructor).
Qed.

Lemma rbtree_balanced_witness :
  (depth (root (sample)) <= 2 * Nat.log2 (S (size (root sample))))%nat.
Proof.
  apply (rbtree_balanced [OpSet 2 20; OpSet 5 50; OpSet 1 10] sample). reflexivity.
Defined.

Lemma delete_correct_witness :
  exists T', Delete sample 2 = Ret T' /\ wf T' /\
    contents T' = [(1, 10); (5, 50)] /\ (Get sample 2 = None -> T' = sample).
Proof. apply (delete_correct sample 2). exact sample_wf. Defined.

Lemma next_prev_correct_witness :
  Next sample 3 = Some (5, 50) /\ Prev sample 3 = Some (2, 20) /\
  forall k' v', Get sample k' = Some v' -> 3 < k' -> 5 <= k'.
Proof.
  split; [reflexivity|]. split; [reflexivity|].
  exact (proj2 (proj2 (proj1 (next_prev_correct sample 3 sample_wf)))).
Defined.
End RBTreeTheorems.
