(* ===== verification/Chan.v ===== *)
(** * Chan: the reply channels of the poolers

    Both poolers (lib/gat/handlers/pool/poolers/lifo, lib/rob/schedulers/v3)
    make a waiting client block on a [chan uuid.UUID] of capacity one, taken
    from a [pools.Locked] of channels to reuse.  This file models those
    channels as a store (channels are shared by reference), with the Go
    semantics of send, receive and close, and proves the bookkeeping the two
    poolers share: [CInv] relates the store to the clients that wait
    ([waits]) and to the channels a worker is still owed to ([pend]).

    A send or receive that blocks while the caller holds the pooler's mutex
    never finishes, so it is [Diverge]; a send on or close of a closed channel
    is [Panic]. *)

From S2P Require Import Prelude.
From S2P Require Import Slices.

Local Open Scope go_scope.

(** github.com/google/uuid: identifiers, with [uuid.Nil]. *)
Abbreviation uuid := nat.
Definition Nil : uuid := 0.

Record chan := mkChan { msg : option uuid; closed : bool }.

Definition open_empty : chan := mkChan None false.

Record Chans := mkChans {
  heap : gmap nat chan;      (* the channels, by reference *)
  free : list nat;           (* pools.Locked[chan uuid.UUID] *)
  next : nat                 (* the next reference [make] returns *)
}.

Definition no_chans : Chans := mkChans ∅ [] 0.

(** [ready, _ := pool.Get(); if ready == nil { ready = make(chan uuid.UUID, 1) }] *)
Definition get_chan (s : Chans) : nat * Chans :=
  match Pool.Get (free s) with
  | (Some c, free') => (c, mkChans (heap s) free' (next s))
  | (None, free') => (next s, mkChans (<[next s := open_empty]> (heap s)) free' (S (next s)))
  end.

(** [pool.Put(c)] *)
Definition put_chan (s : Chans) (c : nat) : Chans :=
  mkChans (heap s) (Pool.Put (free s) c) (next s).

(** [c <- v] *)
Definition send (s : Chans) (c : nat) (v : uuid) : outcome Chans :=
  match heap s !! c with
  | None => Diverge
  | Some ch =>
      if closed ch then Panic
      else match msg ch with
           | Some _ => Diverge
           | None => Ret (mkChans (<[c := mkChan (Some v) false]> (heap s)) (free s) (next s))
           end
  end.

(** [close(c)] *)
Definition close_chan (s : Chans) (c : nat) : outcome Chans :=
  match heap s !! c with
  | None => Panic
  | Some ch =>
      if closed ch then Panic
      else Ret (mkChans (<[c := mkChan (msg ch) true]> (heap s)) (free s) (next s))
  end.

(** [v, ok = <-c] if it does not block; [None] if it would. *)
Definition try_recv (s : Chans) (c : nat) : option (uuid * bool * Chans) :=
  match heap s !! c with
  | None => None
  | Some ch =>
      match msg ch with
      | Some v =>
          Some (v, true, mkChans (<[c := mkChan None (closed ch)]> (heap s)) (free s) (next s))
      | None => if closed ch then Some (Nil, false, s) else None
      end
  end.

(** [v, ok = <-c; if ok { pool.Put(c) }] *)
Definition recv_put (s : Chans) (c : nat) : option (uuid * Chans) :=
  match try_recv s c with
  | None => None
  | Some (v, ok, s') => Some (v, if ok : bool then put_chan s' c else s')
  end.

Section ChanInvariant.
Implicit Types (s : Chans) (waits : gmap nat nat) (pend : nat -> Prop).

(** [waits t = c]: the call [t] of Acquire blocks on [c].  [pend c]: the
    pooler holds [c] to send a worker on it later. *)
Record CInv s waits pend : Prop := {
  ci_next c : is_Some (heap s !! c) -> c < next s;
  ci_wait t c : waits !! t = Some c ->
    exists ch, heap s !! c = Some ch /\ (ch = open_empty <-> pend c) /\
      (closed ch = true -> msg ch = None);
  ci_inj t t' c : waits !! t = Some c -> waits !! t' = Some c -> t = t';
  ci_pend c : pend c -> exists t, waits !! t = Some c;
  ci_free_nodup : NoDup (free s);
  ci_free c : c ∈ free s -> heap s !! c = Some open_empty /\ forall t, waits !! t <> Some c
}.

(** The worker [v] is in the channel of the call [t], not yet received. *)
Definition in_flight s waits (t : nat) (v : uuid) : Prop :=
  exists c ch, waits !! t = Some c /\ heap s !! c = Some ch /\ msg ch = Some v.

Lemma CInv_init pend : (forall c, ~ pend c) -> CInv no_chans ∅ pend.
Proof.
  intros Hp. split; cbn.
  - intros c. rewrite lookup_empty. by intros [? ?].
  - intros t c. by rewrite lookup_empty.
  - intros t t' c. by rewrite lookup_empty.
  - intros c Hc. by destruct (Hp c).
  - constructor.
  - intros c. set_solver.
Qed.

Lemma CInv_proper s waits pend pend' :
  (forall c, pend c <-> pend' c) -> CInv s waits pend -> CInv s waits pend'.
Proof.
  intros Hp [? Hw ? Hpd ? ?]. split; try done.
  - intros t c Hc. destruct (Hw t c Hc) as (ch & ? & Hiff & ?). exists ch. by rewrite Hiff, Hp.
  - intros c Hc. apply Hpd. by apply Hp.
Qed.

Lemma CInv_pend_heap s waits pend c :
  CInv s waits pend -> pend c -> heap s !! c = Some open_empty.
Proof.
  intros HI Hc. destruct (ci_pend _ _ _ HI c Hc) as [t Ht].
  destruct (ci_wait _ _ _ HI t c Ht) as (ch & Hch & Hiff & _).
  by apply Hiff in Hc as ->.
Qed.

(** A channel taken for a new call. *)
Lemma get_chan_spec s waits pend t :
  CInv s waits pend -> waits !! t = None ->
  let '(c, s') := get_chan s in
  ~ pend c /\
  CInv s' (<[t := c]> waits) (fun x => x = c \/ pend x) /\
  (forall t' v, in_flight s' (<[t := c]> waits) t' v <-> in_flight s waits t' v).
Proof.
  intros HI Ht. unfold get_chan.
  destruct (Pool.Get (free s)) as [[c|] free'] eqn:E.
  - apply Pool.Get_Some in E. pose proof HI as [Hn Hw Hi Hp Hnd Hf].
    destruct (Hf c) as [Hc Hcw]; [rewrite E; set_solver|].
    rewrite E in Hnd. apply NoDup_app in Hnd as (Hnd & Hdis & _).
    assert (Hnp : ~ pend c) by (intros [t' Ht']%Hp; by apply (Hcw t')).
    split; [done|]. split.
    + split; cbn.
      * done.
      * intros t' c'. rewrite lookup_insert. case_decide as Htt.
        -- intros [= <-]. exists open_empty. naive_solver.
        -- intros Hc'. destruct (Hw t' c' Hc') as (ch & Hch & Hiff & Hsh). exists ch.
           split; [done|]. split; [|done]. rewrite Hiff. split; [naive_solver|].
           intros [->|?]; [|done]. by destruct (Hcw t').
      * intros t1 t2 c'. rewrite !lookup_insert. repeat case_decide; naive_solver.
      * intros c' [->|Hc']; [exists t; by rewrite lookup_insert_eq|].
        destruct (Hp c' Hc') as [t' Ht']. exists t'.
        rewrite lookup_insert_ne by congruence. done.
      * done.
      * intros c' Hc'. destruct (Hf c') as [? Hw']; [rewrite E; set_solver|].
        split; [done|]. intros t'. rewrite lookup_insert. case_decide; [|done].
        intros [= <-]. apply (Hdis c); set_solver.
    + intros t' v. unfold in_flight. cbn. split.
      * intros (c' & ch & Hw' & Hch & Hm). rewrite lookup_insert in Hw'. case_decide; [|by eauto].
        injection Hw' as <-. rewrite Hc in Hch. injection Hch as <-. done.
      * intros (c' & ch & Hw' & Hch & Hm). exists c', ch.
        rewrite lookup_insert_ne by congruence. done.
  - apply Pool.Get_None in E as [Efree ->]. pose proof HI as [Hn Hw Hi Hp Hnd Hf].
    set (c := next s).
    assert (Hc : heap s !! c = None).
    { destruct (heap s !! c) eqn:Hx; [|done]. assert (c < next s) by (apply Hn; eauto). lia. }
    assert (Hcw : forall t', waits !! t' <> Some c).
    { intros t' Ht'. destruct (Hw t' c Ht') as (ch & Hch & _). congruence. }
    assert (Hnp : ~ pend c) by (intros [t' Ht']%Hp; by apply (Hcw t')).
    split; [done|]. split.
    + split; cbn.
      * intros c'. rewrite lookup_insert. case_decide; [lia|]. intros Hs%Hn. lia.
      * intros t' c'. rewrite lookup_insert. case_decide as Htt.
        -- intros [= <-]. exists open_empty. rewrite lookup_insert_eq. naive_solver.
        -- intros Hc'. destruct (Hw t' c' Hc') as (ch & Hch & Hiff & Hsh). exists ch.
           rewrite lookup_insert_ne by congruence.
           split; [done|]. split; [|done]. rewrite Hiff. split; [naive_solver|].
           intros [->|?]; [|done]. by destruct (Hcw t').
      * intros t1 t2 c'. rewrite !lookup_insert. repeat case_decide; naive_solver.
      * intros c' [->|Hc']; [exists t; by rewrite lookup_insert_eq|].
        destruct (Hp c' Hc') as [t' Ht']. exists t'.
        rewrite lookup_insert_ne by congruence. done.
      * constructor.
      * intros c'. set_solver.
    + intros t' v. unfold in_flight. cbn. split.
      * intros (c' & ch & Hw' & Hch & Hm). rewrite lookup_insert in Hw'. case_decide.
        -- injection Hw' as <-. rewrite lookup_insert_eq in Hch. by injection Hch as <-.
        -- rewrite lookup_insert_ne in Hch by (intros <-; by eapply Hcw). eauto.
      * intros (c' & ch & Hw' & Hch & Hm). exists c', ch.
        rewrite !lookup_insert_ne by congruence. done.
Qed.

(** Replacing the contents of a pending channel that leaves [pend]. *)
Lemma CInv_resolve s waits pend c ch' :
  CInv s waits pend -> pend c -> ch' <> open_empty -> (closed ch' = true -> msg ch' = None) ->
  CInv (mkChans (<[c := ch']> (heap s)) (free s) (next s)) waits
    (fun x => x <> c /\ pend x).
Proof.
  intros HI Hc Hne Hsh'. pose proof (CInv_pend_heap _ _ _ _ HI Hc) as Hheap.
  pose proof HI as [Hn Hw Hi Hp Hnd Hf]. split; cbn.
  - intros c'. rewrite lookup_insert. case_decide; [subst; eauto|auto].
  - intros t c' Hc'. destruct (Hw t c' Hc') as (ch & Hch & Hiff & Hsh).
    rewrite lookup_insert. case_decide as Hcc.
    + subst c'. exists ch'. split; [done|]. naive_solver.
    + exists ch. split; [done|]. rewrite Hiff. naive_solver.
  - done.
  - intros c' [? Hc']. by apply Hp.
  - done.
  - intros c' Hc'. destruct (Hf c' Hc') as [Hh Hnw]. split; [|done].
    rewrite lookup_insert_ne; [done|]. intros <-.
    destruct (Hp c Hc) as [t Ht]. by apply (Hnw t).
Qed.

Lemma send_spec s waits pend c v :
  CInv s waits pend -> pend c ->
  exists s', send s c v = Ret s' /\ CInv s' waits (fun x => x <> c /\ pend x) /\
    forall t' v', in_flight s' waits t' v' <->
      in_flight s waits t' v' \/ waits !! t' = Some c /\ v' = v.
Proof.
  intros HI Hc. pose proof (CInv_pend_heap _ _ _ _ HI Hc) as Hheap.
  unfold send. rewrite Hheap. cbn. eexists. split; [done|].
  split; [by apply CInv_resolve|].
  intros t' v'. unfold in_flight. cbn. split.
  - intros (c' & ch & Hw' & Hch & Hm). rewrite lookup_insert in Hch. case_decide.
    + subst. injection Hch as <-. injection Hm as <-. by right.
    + left. eauto.
  - intros [(c' & ch & Hw' & Hch & Hm)|[Hw' ->]].
    + exists c', ch. rewrite lookup_insert_ne; [done|]. intros <-. rewrite Hheap in Hch.
      by injection Hch as <-.
    + exists c, (mkChan (Some v) false). by rewrite lookup_insert_eq.
Qed.

Lemma close_spec s waits pend c :
  CInv s waits pend -> pend c ->
  exists s', close_chan s c = Ret s' /\ CInv s' waits (fun x => x <> c /\ pend x) /\
    forall t' v', in_flight s' waits t' v' <-> in_flight s waits t' v'.
Proof.
  intros HI Hc. pose proof (CInv_pend_heap _ _ _ _ HI Hc) as Hheap.
  unfold close_chan. rewrite Hheap. cbn. eexists. split; [done|].
  split; [by apply CInv_resolve|].
  intros t' v'. unfold in_flight. cbn. split.
  - intros (c' & ch & Hw' & Hch & Hm). rewrite lookup_insert in Hch. case_decide.
    + subst. injection Hch as <-. done.
    + eauto.
  - intros (c' & ch & Hw' & Hch & Hm).
    exists c', ch. rewrite lookup_insert_ne; [done|]. intros <-. rewrite Hheap in Hch.
    by injection Hch as <-.
Qed.

Lemma in_flight_delete s waits t t' v :
  in_flight s (delete t waits) t' v <-> in_flight s waits t' v /\ t' <> t.
Proof.
  unfold in_flight. split.
  - intros (c & ch & Hw & ? & ?). apply lookup_delete_Some in Hw as [? ?]. split; eauto.
  - intros [(c & ch & ? & ? & ?) ?]. exists c, ch. by rewrite lookup_delete_ne.
Qed.

(** A call stops waiting. *)
Lemma CInv_leave s waits pend t c :
  CInv s waits pend -> waits !! t = Some c ->
  CInv s (delete t waits) (fun x => x <> c /\ pend x).
Proof.
  intros [Hn Hw Hi Hp Hnd Hf] Ht. split.
  - done.
  - intros t' c' [Hne Hc']%lookup_delete_Some.
    destruct (Hw t' c' Hc') as (ch & Hch & Hiff & Hsh). exists ch.
    split; [done|]. split; [|done]. rewrite Hiff. split; [|naive_solver].
    intros ?. split; [|done]. intros ->. apply Hne. by eapply Hi.
  - intros t1 t2 c' [_ ?]%lookup_delete_Some [_ ?]%lookup_delete_Some. by eapply Hi.
  - intros c' [Hne Hc']. destruct (Hp c' Hc') as [t' Ht']. exists t'.
    rewrite lookup_delete_ne; [done|]. intros <-. congruence.
  - done.
  - intros c' Hc'. destruct (Hf c' Hc') as [? Hf']. split; [done|].
    intros t' [_ ?]%lookup_delete_Some. by eapply Hf'.
Qed.

(** A channel nobody uses goes back to the free list, empty. *)
Lemma CInv_refill s waits pend c :
  CInv s waits pend -> is_Some (heap s !! c) -> (forall t, waits !! t <> Some c) ->
  c ∉ free s ->
  CInv (put_chan (mkChans (<[c := open_empty]> (heap s)) (free s) (next s)) c) waits pend.
Proof.
  intros [Hn Hw Hi Hp Hnd Hf] Hs Hnw Hnf. split; cbn.
  - intros c'. rewrite lookup_insert. case_decide; [subst; auto|auto].
  - intros t c' Hc'. rewrite lookup_insert_ne; [by eapply Hw|]. intros <-. by eapply Hnw.
  - done.
  - done.
  - apply NoDup_app. split; [done|]. split; [|by apply NoDup_singleton].
    intros c' Hc' ->%list_elem_of_singleton. done.
  - intros c' [Hc'| ->%list_elem_of_singleton]%elem_of_app.
    + destruct (Hf c' Hc') as [? ?]. split; [|done]. rewrite lookup_insert_ne; [done|].
      intros <-. done.
    + by rewrite lookup_insert_eq.
Qed.

Lemma CInv_wait_not_free s waits pend t c :
  CInv s waits pend -> waits !! t = Some c -> c ∉ free s.
Proof. intros HI Ht Hf. destruct (ci_free _ _ _ HI c Hf) as [_ Hn]. by apply (Hn t). Qed.

Lemma CInv_left_unused s waits pend t c :
  CInv s waits pend -> waits !! t = Some c -> forall t', delete t waits !! t' <> Some c.
Proof.
  intros HI Ht t' [Hne Ht']%lookup_delete_Some. apply Hne. by eapply (ci_inj _ _ _ HI).
Qed.

(** The waiting call returns after a receive. *)
Lemma recv_put_spec s waits pend t c :
  CInv s waits pend -> waits !! t = Some c -> ~ pend c ->
  exists v s', recv_put s c = Some (v, s') /\ CInv s' (delete t waits) pend /\
    (in_flight s waits t v \/ v = Nil /\ forall v', ~ in_flight s waits t v') /\
    (forall t' v', in_flight s' (delete t waits) t' v' <->
       in_flight s waits t' v' /\ t' <> t).
Proof.
  intros HI Ht Hnp. destruct (ci_wait _ _ _ HI t c Ht) as (ch & Hch & Hiff & Hsh).
  pose proof (CInv_leave _ _ _ _ _ HI Ht) as HL.
  apply (CInv_proper _ _ _ pend) in HL; [|intros x; split; [tauto|]; intros Hx; split; [congruence|done]].
  unfold recv_put, try_recv. rewrite Hch.
  destruct ch as [[v|] b]; cbn [msg closed] in *.
  - destruct b; [by specialize (Hsh eq_refl)|]. fold open_empty.
    eexists v, _. split; [done|]. split; [|split].
    + apply (CInv_refill s); eauto using CInv_wait_not_free, CInv_left_unused.
    + left. by exists c, (mkChan (Some v) false).
    + intros t' v'. rewrite in_flight_delete. unfold in_flight. cbn. split.
      * intros [(c' & ch & Hw' & Hch' & Hm) Hne]. split; [|done].
        rewrite lookup_insert in Hch'. case_decide; [|eauto].
        by injection Hch' as <-.
      * intros [(c' & ch & Hw' & Hch' & Hm) Hne]. split; [|done]. exists c', ch.
        rewrite lookup_insert_ne; [done|]. intros <-. apply Hne. by eapply (ci_inj _ _ _ HI).
  - destruct b; [|by destruct Hnp; apply Hiff].
    eexists Nil, s. split; [done|]. split; [done|]. split.
    + right. split; [done|]. intros v' (c' & ch & ? & Hch' & ?). by simplify_eq.
    + intros. apply in_flight_delete.
Qed.

(** The waiting call gives up while its channel is still pending: the
    channel is reused and nothing was in flight. *)
Lemma cancel_spec s waits pend t c :
  CInv s waits pend -> waits !! t = Some c -> pend c ->
  CInv (put_chan s c) (delete t waits) (fun x => x <> c /\ pend x) /\
  (forall t' v', in_flight (put_chan s c) (delete t waits) t' v' <-> in_flight s waits t' v').
Proof.
  intros HI Ht Hp. pose proof (CInv_pend_heap _ _ _ _ HI Hp) as Hh.
  pose proof (CInv_leave _ _ _ _ _ HI Ht) as HL. split.
  - apply (CInv_refill s _ _ c) in HL; eauto using CInv_wait_not_free, CInv_left_unused.
    by rewrite insert_id in HL by done.
  - intros t' v'. change (in_flight (put_chan s c) (delete t waits) t' v')
      with (in_flight s (delete t waits) t' v').
    rewrite in_flight_delete. split; [tauto|]. intros Hfl. split; [done|]. intros ->.
    destruct Hfl as (c' & ch & ? & ? & ?). by simplify_eq.
Qed.
End ChanInvariant.

(** ** Ownership of workers

    [idle v]: the pooler's queue holds [v].  [held]: the workers calls of
    Acquire have returned and nobody has released yet.  [fl t v]: [v] is in
    flight to the call [t].  [OInv]: a worker is in at most one of these
    places, so it is never given to two clients. *)
Section Ownership.
Implicit Types (idle : uuid -> Prop) (held : list uuid) (fl : nat -> uuid -> Prop).

Record OInv idle held fl : Prop := {
  oi_held : NoDup held;
  oi_idle_held v : idle v -> v ∉ held;
  oi_idle_fl t v : idle v -> ~ fl t v;
  oi_held_fl t v : v ∈ held -> ~ fl t v;
  oi_fl t t' v : fl t v -> fl t' v -> t = t';
  oi_nil_idle : ~ idle Nil;
  oi_nil_held : Nil ∉ held;
  oi_nil_fl t : ~ fl t Nil
}.

(** [v] is nowhere. *)
Definition fresh idle held fl (v : uuid) : Prop :=
  v <> Nil /\ ~ idle v /\ v ∉ held /\ forall t, ~ fl t v.

Lemma OInv_mono idle held fl idle' held' fl' :
  OInv idle held fl ->
  (forall v, idle' v -> idle v) -> NoDup held' -> (forall v, v ∈ held' -> v ∈ held) ->
  (forall t v, fl' t v -> fl t v) -> OInv idle' held' fl'.
Proof.
  intros [? Hih Hif Hhf Hff ? ? Hnf] Hi Hn Hh Hf. split; [done|..].
  - intros v Hv%Hi Hv'%Hh. by apply (Hih v).
  - intros t v Hv%Hi Hv'%Hf. by apply (Hif t v).
  - intros t v Hv%Hh Hv'%Hf. by apply (Hhf t v).
  - intros t t' v Hv%Hf Hv'%Hf. by eapply Hff.
  - auto.
  - auto.
  - intros t Hv%Hf. by apply (Hnf t).
Qed.

Lemma OInv_add_idle idle held fl idle' v :
  OInv idle held fl -> fresh idle held fl v ->
  (forall x, idle' x -> x = v \/ idle x) -> OInv idle' held fl.
Proof.
  intros [? Hih Hif Hhf Hff ? ? Hnf] (Hv0 & Hvi & Hvh & Hvf) Hi. split; try done.
  - intros x [->|Hx]%Hi; [done|by apply Hih].
  - intros t x [->|Hx]%Hi; [done|by apply Hif].
  - intros [?|?]%Hi; [by apply Hv0|done].
Qed.

Lemma OInv_add_held idle held fl v :
  OInv idle held fl -> fresh idle held fl v -> OInv idle (v :: held) fl.
Proof.
  intros [? ? ? ? ? ? ? ?] (? & ? & ? & ?).
  split; try done; [by constructor|..].
  - intros x Hx. rewrite not_elem_of_cons. split; [by intros ->|auto].
  - intros t x [->|Hx]%elem_of_cons; eauto.
  - rewrite not_elem_of_cons. split; [by intros <-|auto].
Qed.

Lemma OInv_add_fl idle held fl fl' t v :
  OInv idle held fl -> fresh idle held fl v ->
  (forall t' x, fl' t' x -> fl t' x \/ t' = t /\ x = v) -> OInv idle held fl'.
Proof.
  intros [? Hih Hif Hhf Hff ? ? Hnf] (Hv0 & Hvi & Hvh & Hvf) Hf. split; try done.
  - intros t' x Hx [Hx'|[-> ->]]%Hf; [by apply (Hif t' x)|done].
  - intros t' x Hx [Hx'|[-> ->]]%Hf; [by apply (Hhf t' x)|done].
  - intros t1 t2 x [H1|[-> ->]]%Hf [H2|[-> Hx]]%Hf; subst; try done.
    + by eapply Hff.
    + by apply Hvf in H1.
    + by apply Hvf in H2.
  - intros t' [Hx|[-> Hx]]%Hf; [by apply (Hnf t')|by apply Hv0].
Qed.

(** After leaving its place a worker is fresh for the others. *)
Lemma fresh_from_held idle held fl v :
  OInv idle held fl -> v ∈ held -> fresh idle (remove_first v held) fl v.
Proof.
  intros HI Hv. pose proof HI as [Hnd ? ? ? ? ? ? ?]. repeat split.
  - by intros ->.
  - intros Hi. by eapply oi_idle_held.
  - rewrite elem_of_remove_first_NoDup by done. tauto.
  - eauto.
Qed.

Lemma fresh_mono idle held fl idle' held' fl' v :
  fresh idle held fl v -> (forall v, idle' v -> idle v) ->
  (forall v, v ∈ held' -> v ∈ held) -> (forall t v, fl' t v -> fl t v) ->
  fresh idle' held' fl' v.
Proof. 
  intros (? & Hi & Hh & Hf) Hi' Hh' Hf'. repeat split; [done|auto|auto|].
  intros t Ht%Hf'. by apply (Hf t).
Qed.

(** A call of Acquire returns [v] to its client. *)
Definition give (v : uuid) (held : list uuid) : list uuid :=
  if decide (v = Nil) then held else v :: held.

(** The client of the call [t] gets what was in flight to it, if anything. *)
Lemma OInv_receive idle held fl fl' t v :
  OInv idle held fl -> (fl t v \/ v = Nil /\ forall v', ~ fl t v') ->
  (forall t' v', fl' t' v' <-> fl t' v' /\ t' <> t) -> OInv idle (give v held) fl'.
Proof.
  intros HI Hv Hfl'.
  assert (HI' : OInv idle held fl').
  { eapply OInv_mono; [exact HI|done|apply HI|done|]. intros t' v' [? _]%Hfl'. done. }
  unfold give. case_decide as Hd; [done|]. destruct Hv as [Hv|[? _]]; [|done].
  apply OInv_add_held; [done|]. repeat split.
  - done.
  - intros Hi. by apply (oi_idle_fl _ _ _ HI t v).
  - intros Hh. by apply (oi_held_fl _ _ _ HI t v).
  - intros t' [Ht' Hne]%Hfl'. apply Hne. by eapply (oi_fl _ _ _ HI).
Qed.

(** The client takes an idle worker. *)
Lemma OInv_take idle idle' held fl v :
  OInv idle held fl -> idle v -> (forall x, idle' x -> idle x /\ x <> v) ->
  OInv idle' (give v held) fl.
Proof.
  intros HI Hv Hi'.
  assert (v <> Nil) by (intros ->; by apply (oi_nil_idle _ _ _ HI)).
  unfold give. rewrite decide_False by done. apply OInv_add_held.
  - eapply OInv_mono; [exact HI| |apply HI|done|done]. intros x [? _]%Hi'. done.
  - repeat split.
    + done.
    + by intros [_ ?]%Hi'.
    + by apply (oi_idle_held _ _ _ HI).
    + intros t. by apply (oi_idle_fl _ _ _ HI).
Qed.

Lemma OInv_drop_held idle held fl v :
  OInv idle held fl -> OInv idle (remove_first v held) fl.
Proof.
  intros HI. eapply OInv_mono; eauto.
  - apply NoDup_remove_first. apply HI.
  - intros x. apply elem_of_remove_first.
Qed.
End Ownership.
