(* ===== verification/Lifo.v ===== *)
(** * Lifo: lib/gat/handlers/pool/poolers/lifo/pooler.go

    The pooler of session mode: idle servers are a stack, waiting clients a
    ring of reply channels.  Every method body that runs under [T.mu] is one
    definition; Acquire is its locked prologue ([acquire]), and one of two
    epilogues: the receive ([Chan.recv_put]) or the timer ([timeout]).

    [Sys] is the pooler with the calls of Acquire that are blocked ([waits])
    and the servers its clients hold ([held]); [exec] runs one call of the
    interface, so an execution is a sequence of calls interleaved at the lock.
    [allowed] is what the callers (spool.Pool) guarantee: a server id is new
    when added, and only its holder releases it. *)

From S2P Require Import Prelude.
From S2P Require Import Slices.
From S2P Require Import Ring.
From S2P Require Import Chan.

Local Open Scope go_scope.

#[export] Instance zero_nat : Zero nat := 0.

Record Pooler := mkPooler {
  servers : gset uuid;
  queue : list uuid;
  waiters : Ring nat;
  closed : bool;
  chans : Chans              (* the channels and [pool] *)
}.

Definition NewPooler : Pooler := mkPooler ∅ [] zero_ring false no_chans.

Definition AddClient (T : Pooler) (_ : uuid) : Pooler := T.
Definition DeleteClient (T : Pooler) (_ : uuid) : Pooler := T.

Definition release (T : Pooler) (server : uuid) : outcome Pooler :=
  if decide (server ∈ servers T) then
    let! cw := PopFront (waiters T) in
    match cw.1 with
    | Some c =>
        let! chans' := send (chans T) c server in
        Ret (mkPooler (servers T) (queue T) cw.2 (closed T) chans')
    | None => Ret (mkPooler (servers T) (queue T ++ [server]) cw.2 (closed T) (chans T))
    end
  else Ret T.

Definition AddServer (T : Pooler) (server : uuid) : outcome Pooler :=
  release (mkPooler ({[server]} ∪ servers T) (queue T) (waiters T) (closed T) (chans T)) server.

Definition DeleteServer (T : Pooler) (server : uuid) : outcome Pooler :=
  let! q := Remove (queue T) server in
  Ret (mkPooler (servers T ∖ {[server]}) q.2 (waiters T) (closed T) (chans T)).

(** The function literal at the start of Acquire.  [inl v] is [return v, nil],
    [inr c] is [return uuid.Nil, c].  The non-blocking send on the unbuffered
    [T.waiting] succeeds only if a receiver is at its select ([listening]);
    the second component says whether it did. *)
Definition acquire (T : Pooler) (listening : bool) : outcome ((uuid + nat) * bool * Pooler) :=
  if closed T then Ret (inl Nil, false, T)
  else match last (queue T) with
  | Some worker =>
      Ret (inl worker, false,
           mkPooler (servers T) (take (length (queue T) - 1) (queue T)) (waiters T) (closed T) (chans T))
  | None =>
      let '(ready, chans') := get_chan (chans T) in
      let! waiters' := PushBack (waiters T) ready in
      Ret (inr ready, listening, mkPooler (servers T) (queue T) waiters' (closed T) chans')
  end.

(** The loop of the timer branch: [n] times, take the first channel off and
    put it back at the end unless it is [c]. *)
Fixpoint rotate_out (n : nat) (w : Ring nat) (c : nat) (found : bool) : outcome (Ring nat * bool) :=
  match n with
  | O => Ret (w, found)
  | S n =>
      let! cw := PopFront w in
      let cc := default zero cw.1 in
      if decide (c = cc) then rotate_out n cw.2 c true
      else let! w := PushBack cw.2 cc in rotate_out n w c found
  end.

(** [case <-timeoutC]: the value Acquire returns. *)
Definition timeout (T : Pooler) (c : nat) : outcome (uuid * Pooler) :=
  let waitCount := Z.to_nat (Length (waiters T)) in
  let! wf := rotate_out waitCount (waiters T) c false in
  let '(waiters', found) := wf in
  if found : bool then
    Ret (Nil, mkPooler (servers T) (queue T) waiters' (closed T) (put_chan (chans T) c))
  else
    match recv_put (chans T) c with
    | None => Diverge        (* the receive blocks with T.mu held *)
    | Some (v, chans') => Ret (v, mkPooler (servers T) (queue T) waiters' (closed T) chans')
    end.

Definition Release (T : Pooler) (server : uuid) : outcome Pooler := release T server.

Definition Waiters (T : Pooler) : Z := Length (waiters T).

(** [for c, ok := T.waiters.PopFront(); ok; ... { close(c) }] *)
Fixpoint close_all (fuel : nat) (w : Ring nat) (s : Chans) : outcome (Ring nat * Chans) :=
  let! cw := PopFront w in
  match cw.1 with
  | None => Ret (cw.2, s)
  | Some c =>
      let! s := close_chan s c in
      match fuel with
      | O => Diverge
      | S fuel => close_all fuel cw.2 s
      end
  end.

Definition Close (T : Pooler) : outcome Pooler :=
  let! ws := close_all (Z.to_nat (Length (waiters T))) (waiters T) (chans T) in
  Ret (mkPooler ∅ [] ws.1 true ws.2).

(** ** The system *)

Record Sys := mkSys {
  pl : Pooler;
  waits : gmap nat nat;      (* blocked calls of Acquire, and their channels *)
  held : list uuid           (* servers returned by Acquire, not released *)
}.

Inductive call :=
| CAddServer (id : uuid)
| CDeleteServer (id : uuid)
| CAcquire (t : nat) (listening : bool)
| CRecv (t : nat)
| CTimeout (t : nat)
| CRelease (id : uuid)
| CClose.

(** One call; [Ret None] if it cannot run now (a receive that blocks, a call
    that is not waiting). *)
Definition exec (s : Sys) (c : call) : outcome (option Sys) :=
  match c with
  | CAddServer id => ofmap (fun p => Some (mkSys p (waits s) (held s))) (AddServer (pl s) id)
  | CDeleteServer id => ofmap (fun p => Some (mkSys p (waits s) (held s))) (DeleteServer (pl s) id)
  | CAcquire t listening =>
      let! r := acquire (pl s) listening in
      match r.1.1 with
      | inl v => Ret (Some (mkSys r.2 (waits s) (give v (held s))))
      | inr c => Ret (Some (mkSys r.2 (<[t := c]> (waits s)) (held s)))
      end
  | CRecv t =>
      match waits s !! t with
      | None => Ret None
      | Some c =>
          match recv_put (chans (pl s)) c with
          | None => Ret None
          | Some (v, chans') =>
              let p := pl s in
              Ret (Some (mkSys (mkPooler (servers p) (queue p) (waiters p) (closed p) chans')
                               (delete t (waits s)) (give v (held s))))
          end
      end
  | CTimeout t =>
      match waits s !! t with
      | None => Ret None
      | Some c =>
          let! r := timeout (pl s) c in
          Ret (Some (mkSys r.2 (delete t (waits s)) (give r.1 (held s))))
      end
  | CRelease id =>
      ofmap (fun p => Some (mkSys p (waits s) (remove_first id (held s)))) (Release (pl s) id)
  | CClose => ofmap (fun p => Some (mkSys p (waits s) (held s))) (Close (pl s))
  end.

(** The server is in flight to the call [t]. *)
Definition flight (s : Sys) (t : nat) (v : uuid) : Prop := in_flight (chans (pl s)) (waits s) t v.

Definition allowed (s : Sys) (c : call) : Prop :=
  match c with
  | CAddServer id => fresh (fun v => v ∈ queue (pl s)) (held s) (flight s) id
  | CAcquire t _ => waits s !! t = None
  | CRelease id => id ∈ held s
  | _ => True
  end.

Definition init (s : Sys) : Prop := s = mkSys NewPooler ∅ [].
Definition step (s s' : Sys) : Prop := exists c, allowed s c /\ exec s c = Ret (Some s').

(** ** The invariant *)

Record Inv (s : Sys) : Prop := {
  inv_ring : wf (waiters (pl s));
  inv_nodup : NoDup (contents (waiters (pl s)));
  inv_chan : CInv (chans (pl s)) (waits s) (fun c => c ∈ contents (waiters (pl s)));
  inv_queue : NoDup (queue (pl s));
  inv_own : OInv (fun v => v ∈ queue (pl s)) (held s) (flight s);
  inv_work : queue (pl s) = [] \/ contents (waiters (pl s)) = [];
  inv_closed : closed (pl s) = true -> contents (waiters (pl s)) = []
}.

Lemma lifo_Inv_init : Inv (mkSys NewPooler ∅ []).
Proof.
  destruct (wf_zero_ring (A := nat)) as [Hwf Hc].
  split; cbn -[contents].
  - done.
  - rewrite Hc. constructor.
  - apply CInv_init. intros c. rewrite Hc. set_solver.
  - constructor.
  - split; try set_solver; try constructor.
    + intros t t' v (c & ch & Hw & _). cbn in Hw. by rewrite lookup_empty in Hw.
    + intros t (c & ch & Hw & _). cbn in Hw. by rewrite lookup_empty in Hw.
  - by left.
  - done.
Qed.

Lemma release_spec p ws hd server :
  Inv (mkSys p ws hd) -> fresh (fun v => v ∈ queue p) hd (in_flight (chans p) ws) server ->
  exists p', release p server = Ret p' /\ Inv (mkSys p' ws hd) /\
    closed p' = closed p /\ servers p' = servers p.
Proof.
  intros HI Hfr. pose proof HI as [Hwf Hnd Hch Hq Hown Hwork Hcl]. cbn in *. unfold release.
  case_decide as Hin; [|by exists p].
  destruct (PopFront_spec _ Hwf) as (w' & -> & Hwf' & Hcw). cbn [obind fst snd].
  destruct (contents (waiters p)) as [|c rest] eqn:Hc; cbn in *.
  - eexists. split; [done|]. split; [|done]. split; cbn; rewrite ?Hcw; try done.
    + apply NoDup_app. split; [done|]. split; [|by apply NoDup_singleton].
      intros x Hx ->%list_elem_of_singleton. by destruct Hfr as (_ & [] & _).
    + eapply OInv_add_idle; [exact Hown|exact Hfr|]. intros x. set_solver.
    + by right.
  - apply NoDup_cons in Hnd as [Hcn Hnd].
    destruct (send_spec _ _ _ c server Hch) as (s' & -> & HCI & Hfl); [set_solver|].
    eexists. split; [done|]. split; [|done]. split; cbn; rewrite ?Hcw; try done.
    + eapply CInv_proper; [|exact HCI]. intros x. cbn. set_solver.
    + destruct (ci_pend _ _ _ Hch c) as [t Ht]; [set_solver|].
      eapply (OInv_add_fl _ _ _ _ t server Hown Hfr).
      intros t' x. unfold flight. cbn. rewrite Hfl. intros [?|[Ht' ->]]; [by left|].
      right. split; [|done]. by eapply (ci_inj _ _ _ Hch).
    + destruct Hwork; [by left|done].
    + intros Hx. by specialize (Hcl Hx).
Qed.

Lemma acquire_spec p ws hd t listening :
  Inv (mkSys p ws hd) -> ws !! t = None ->
  exists r b p', acquire p listening = Ret (r, b, p') /\
    match r with
    | inl v => Inv (mkSys p' ws (give v hd))
    | inr c => Inv (mkSys p' (<[t := c]> ws) hd)
    end.
Proof.
  intros HI Ht. pose proof HI as [Hwf Hnd Hch Hq Hown Hwork Hcl]. cbn in *. unfold acquire.
  destruct (closed p) eqn:Hclosed; [by eexists _, _, _|].
  destruct (last (queue p)) as [v|] eqn:Hlast.
  - eexists _, _, _. split; [done|]. apply last_Some in Hlast as [q Hqe].
    rewrite Hqe in Hq. apply NoDup_app in Hq as (Hq & Hdis & _).
    assert (Htake : take (length (queue p) - 1) (queue p) = q).
    { rewrite Hqe, length_app. cbn. replace (length q + 1 - 1) with (length q) by lia.
      by rewrite take_app_length. }
    split; cbn; rewrite ?Htake; try done.
    + eapply OInv_take; [exact Hown|cbn; rewrite Hqe; set_solver|]. cbn.
      intros x Hx. split; [rewrite Hqe; set_solver|]. intros ->. apply (Hdis v); set_solver.
    + destruct Hwork as [Hw|Hw]; [|by right]. rewrite Hw in Hqe. by destruct q.
  - apply last_None in Hlast.
    pose proof (get_chan_spec _ _ _ t Hch Ht) as Hg. destruct (get_chan (chans p)) as [c s'].
    destruct Hg as (Hnp & HCI & Hfl).
    destruct (PushBack_spec (waiters p) c Hwf) as (w' & -> & Hwf' & Hcw). cbn [obind].
    eexists _, _, _. split; [done|]. split; cbn; rewrite ?Hcw; try done.
    + apply NoDup_app. split; [done|]. split; [|by apply NoDup_singleton].
      intros x Hx ->%list_elem_of_singleton. done.
    + eapply CInv_proper; [|exact HCI]. intros x. cbn. set_solver.
    + eapply OInv_mono; [exact Hown|..]; try done; [apply Hown|].
      intros t' v. unfold flight. cbn. apply Hfl.
    + by left.
Qed.

(** The timer loop takes [c] out and keeps the order of the others. *)
Lemma rotate_out_spec n w c found pre post :
  wf w -> contents w = pre ++ post -> length pre = n ->
  exists w', rotate_out n w c found = Ret (w', found || bool_decide (c ∈ pre)) /\
    wf w' /\ contents w' = post ++ filter (fun x => x <> c) pre.
Proof.
  revert w found pre post. induction n as [|n IH]; intros w found pre post Hwf Hc Hlen.
  { destruct pre; [|done]. exists w. cbn. rewrite orb_false_r, app_nil_r. eauto. }
  destruct pre as [|x pre]; [done|]. injection Hlen as Hlen. cbn [rotate_out].
  destruct (PopFront_spec _ Hwf) as (w1 & -> & Hwf1 & Hc1). rewrite Hc in Hc1 |- *.
  cbn [app hd_error tl obind fst snd default from_option] in *. unfold id.
  case_decide as Hx.
  - subst x. destruct (IH w1 true pre post Hwf1 Hc1 Hlen) as (w' & -> & Hwf' & Hc').
    exists w'. rewrite filter_cons_False by auto. split; [|done].
    rewrite (bool_decide_true (c ∈ c :: pre)) by (apply elem_of_cons; by left).
    by rewrite orb_true_r.
  - destruct (PushBack_spec w1 x Hwf1) as (w2 & -> & Hwf2 & Hc2). cbn [obind].
    rewrite Hc1, <- app_assoc in Hc2.
    destruct (IH w2 found pre (post ++ [x]) Hwf2 Hc2 Hlen) as (w' & -> & Hwf' & Hc').
    exists w'. rewrite filter_cons_True by auto. split; [|split; [done|]].
    + do 3 f_equal. apply bool_decide_ext. rewrite elem_of_cons. naive_solver.
    + by rewrite Hc', <- app_assoc.
Qed.

Lemma timeout_spec p ws hd t c :
  Inv (mkSys p ws hd) -> ws !! t = Some c ->
  exists v p', timeout p c = Ret (v, p') /\ Inv (mkSys p' (delete t ws) (give v hd)) /\
    contents (waiters p') = filter (fun x => x <> c) (contents (waiters p)).
Proof.
  intros HI Ht. pose proof HI as [Hwf Hnd Hch Hq Hown Hwork Hcl]. cbn in *. unfold timeout.
  rewrite Length_spec, Nat2Z.id by done.
  destruct (rotate_out_spec (length (contents (waiters p))) (waiters p) c false (contents (waiters p)) [] Hwf)
    as (w' & -> & Hwf' & Hcw); [by rewrite app_nil_r|done|].
  cbn [obind orb app] in *.
  assert (Hndf : NoDup (contents w')) by (rewrite Hcw; by apply NoDup_filter).
  assert (Hw0 : queue p = [] \/ contents w' = []).
  { destruct Hwork as [?|He]; [by left|right]. by rewrite Hcw, He. }
  assert (Hc0 : closed p = true -> contents w' = []).
  { intros He%Hcl. by rewrite Hcw, He. }
  case_bool_decide as Hin.
  - destruct (cancel_spec _ _ _ t c Hch Ht Hin) as [HCI Hfl].
    eexists _, _. split; [done|]. split; [|done]. unfold give. rewrite decide_True by done.
    split; cbn; try done.
    + eapply CInv_proper; [|exact HCI]. intros x. rewrite Hcw, list_elem_of_filter. done.
    + eapply OInv_mono; [exact Hown|..]; try done; [apply Hown|].
      intros t' v. unfold flight. cbn. apply Hfl.
  - destruct (recv_put_spec _ _ _ t c Hch Ht Hin) as (v & s' & -> & HCI & Hv & Hfl).
    eexists _, _. split; [done|]. split; [|done].
    assert (Hsame : contents w' = contents (waiters p)).
    { rewrite Hcw. by apply filter_out_absent. }
    split; cbn; try done; [by rewrite Hsame|]. by eapply OInv_receive.
Qed.

Lemma close_all_spec fuel w s ws :
  wf w -> NoDup (contents w) -> length (contents w) <= fuel ->
  CInv s ws (fun c => c ∈ contents w) ->
  exists w' s', close_all fuel w s = Ret (w', s') /\ wf w' /\ contents w' = [] /\
    CInv s' ws (fun _ => False) /\
    forall t v, in_flight s' ws t v <-> in_flight s ws t v.
Proof.
  revert w s. induction fuel as [|fuel IH]; intros w s Hwf Hnd Hlen HCI; cbn [close_all];
    destruct (PopFront_spec _ Hwf) as (w1 & -> & Hwf1 & Hc1); cbn [obind fst snd];
    destruct (contents w) as [|c rest] eqn:Hc; cbn in *; try lia.
  1,2: eexists _, _; split; [done|]; split; [done|]; split; [done|]; split; [|done];
       eapply CInv_proper; [|exact HCI]; intros x; split; [apply not_elem_of_nil|done].
  apply NoDup_cons in Hnd as [Hcn Hnd].
  destruct (close_spec _ _ _ c HCI) as (s1 & -> & HCI1 & Hfl); [set_solver|]. cbn [obind].
  destruct (IH w1 s1) as (w' & s' & -> & Hwf' & Hc' & HCI' & Hfl'); rewrite ?Hc1; try done; [lia| |].
  { eapply CInv_proper; [|exact HCI1]. intros x. cbn. set_solver. }
  eexists _, _. split; [done|]. split; [done|]. split; [done|]. split; [done|].
  intros t v. by rewrite Hfl', Hfl.
Qed.

Lemma Close_spec p ws hd :
  Inv (mkSys p ws hd) ->
  exists p', Close p = Ret p' /\ Inv (mkSys p' ws hd) /\ closed p' = true /\
    contents (waiters p') = [] /\ CInv (chans p') ws (fun _ => False).
Proof.
  intros [Hwf Hnd Hch Hq Hown Hwork Hcl]. cbn in *. unfold Close.
  destruct (close_all_spec (Z.to_nat (Length (waiters p))) (waiters p) (chans p) ws)
    as (w' & s' & -> & Hwf' & Hc' & HCI & Hfl); try done.
  { rewrite Length_spec by done. lia. }
  cbn [obind fst snd]. eexists. split; [done|]. split; [|done].
  split; cbn; rewrite ?Hc'; try done; [constructor| |constructor| |by left].
  - eapply CInv_proper; [|exact HCI]. intros x. cbn. set_solver.
  - eapply OInv_mono; [exact Hown|intros v; cbn; set_solver|apply Hown|done|].
    intros t v. apply Hfl.
Qed.

Lemma DeleteServer_spec p ws hd id :
  Inv (mkSys p ws hd) ->
  exists p', DeleteServer p id = Ret p' /\ Inv (mkSys p' ws hd).
Proof.
  intros [Hwf Hnd Hch Hq Hown Hwork Hcl]. cbn in *. unfold DeleteServer.
  destruct (Remove_spec (queue p) id) as (orig & -> & _). cbn [obind fst snd].
  eexists. split; [done|]. split; cbn; try done.
  - by apply NoDup_remove_first.
  - eapply OInv_mono; [exact Hown| |apply Hown|done|done].
    intros v. apply elem_of_remove_first.
  - destruct Hwork as [->|?]; [by left|by right].
Qed.

(** Every allowed call returns, and keeps the invariant. *)
Lemma exec_spec s c :
  Inv s -> allowed s c ->
  exists r, exec s c = Ret r /\ forall s', r = Some s' -> Inv s'.
Proof.
  destruct s as [p ws hd]. intros HI Hal. destruct c as [id|id|t ls|t|t|id|]; cbn in Hal; cbn [exec].
  - unfold AddServer. cbn [pl waits held].
    destruct (release_spec (mkPooler ({[id]} ∪ servers p) (queue p) (waiters p) (closed p) (chans p))
                ws hd id) as (p' & -> & HI' & _).
    { destruct HI. by split. }
    { exact Hal. }
    eexists. split; [done|]. by intros s' [= <-].
  - cbn. destruct (DeleteServer_spec p ws hd id HI) as (p' & -> & HI').
    eexists. split; [done|]. by intros s' [= <-].
  - cbn. destruct (acquire_spec p ws hd t ls HI Hal) as (r & b & p' & -> & HI'). cbn.
    destruct r; (eexists; split; [done|]; by intros s' [= <-]).
  - cbn. destruct (ws !! t) as [c|] eqn:Ht; [|eexists; split; [done|]; done].
    destruct (decide (c ∈ contents (waiters p))) as [Hc|Hc].
    + pose proof (CInv_pend_heap _ _ _ _ (inv_chan _ HI) Hc) as Hh. cbn in Hh.
      unfold recv_put, try_recv. rewrite Hh. cbn. eexists. split; [done|]. done.
    + pose proof (inv_chan _ HI) as HC. cbn in HC.
      destruct (recv_put_spec _ _ _ t c HC Ht Hc) as (v & s' & -> & HCI & Hv & Hfl).
      eexists. split; [done|]. intros s'' [= <-]. destruct HI. split; cbn; try done.
      by eapply OInv_receive.
  - cbn. destruct (ws !! t) as [c|] eqn:Ht; [|eexists; split; [done|]; done].
    destruct (timeout_spec p ws hd t c HI Ht) as (v & p' & -> & HI' & _). cbn.
    eexists. split; [done|]. by intros s' [= <-].
  - cbn. unfold Release. destruct (release_spec p ws (remove_first id hd) id) as (p' & -> & HI' & _).
    { pose proof HI as [? ? ? ? Hown ? ?]. split; try done. cbn. by apply OInv_drop_held. }
    { eapply fresh_from_held; [apply HI|done]. }
    eexists. split; [done|]. by intros s' [= <-].
  - cbn. destruct (Close_spec p ws hd HI) as (p' & -> & HI' & _).
    eexists. split; [done|]. by intros s' [= <-].
Qed.

Lemma reachable_Inv s : reachable init step s -> Inv s.
Proof.
  apply invariant_reachable.
  - intros s0 ->. apply lifo_Inv_init.
  - intros s0 s' _ HI (c & Hal & Hex). destruct (exec_spec s0 c HI Hal) as (r & Hr & HI').
    apply HI'. congruence.
Qed.

(** ** Theorems *)
Module LifoTheorems.
(** C7: In every execution of the pooler (any interleaving of calls at its
    lock, timers and Close included), no call panics on a channel and no call
    blocks forever with the mutex held: each one returns. *)
Theorem lifo_no_deadlock (s : Sys) (c : call) :
  reachable init step s -> allowed s c -> exists r, exec s c = Ret r.
Proof.
  intros Hr Hal. destruct (exec_spec s c (reachable_Inv s Hr) Hal) as (r & Hr' & _). eauto.
Qed.

(** C2: A server is never lent twice: in every reachable state the servers
    the clients hold are distinct, and none of them is idle in the queue or
    on its way to another waiting client. *)
Theorem lifo_exclusive (s : Sys) :
  reachable init step s ->
  NoDup (held s) /\
  forall v, v ∈ held s -> v ∉ queue (pl s) /\ forall t, ~ flight s t v.
Proof.
  intros Hr. pose proof (inv_own s (reachable_Inv s Hr)) as HO. split; [apply HO|].
  intros v Hv. split.
  - intros Hq. by apply (oi_idle_held _ _ _ HO v Hq).
  - intros t. by apply (oi_held_fl _ _ _ HO).
Qed.

(** The pooler is work-conserving: no server is idle while a client
    waits to be served. *)
Theorem lifo_work_conserving (s : Sys) :
  reachable init step s -> queue (pl s) = [] \/ contents (waiters (pl s)) = [].
Proof. intros Hr. apply (inv_work s (reachable_Inv s Hr)). Qed.

(** No wake-up is lost: a blocked call of Acquire is either still in the
    ring of waiters, or its receive can run now (a server is in its channel,
    or the channel was closed). *)
Theorem lifo_no_lost_wakeup (s : Sys) (t c : nat) :
  reachable init step s -> waits s !! t = Some c ->
  c ∈ contents (waiters (pl s)) \/ exists s', exec s (CRecv t) = Ret (Some s').
Proof.
  intros Hr Ht. pose proof (inv_chan s (reachable_Inv s Hr)) as HC.
  destruct (decide (c ∈ contents (waiters (pl s)))) as [Hin|Hin]; [by left|right].
  destruct (recv_put_spec _ _ _ t c HC Ht Hin) as (v & s' & Hrecv & _).
  cbn. rewrite Ht, Hrecv. eauto.
Qed.

(** Waiting clients are served first come, first served: a server that is
    released while registered goes to the client at the head of the ring, and
    the others keep their places. *)
Theorem lifo_fifo_service (s : Sys) (id c : nat) (rest : list nat) :
  reachable init step s -> id ∈ held s -> id ∈ servers (pl s) ->
  contents (waiters (pl s)) = c :: rest ->
  exists s' t, exec s (CRelease id) = Ret (Some s') /\
    waits s !! t = Some c /\ flight s' t id /\ contents (waiters (pl s')) = rest.
Proof.
  intros Hr Hh Hs Hc. pose proof (reachable_Inv s Hr) as [Hwf Hnd Hch Hq Hown Hwork Hcl].
  cbn [exec]. unfold Release, release. rewrite decide_True by done.
  destruct (PopFront_spec _ Hwf) as (w' & -> & Hwf' & Hcw). rewrite Hc in Hcw |- *.
  cbn [hd_error obind fst snd tl] in *.
  destruct (send_spec _ _ _ c id Hch) as (s1 & -> & _ & Hfl); [rewrite Hc; set_solver|].
  destruct (ci_pend _ _ _ Hch c) as [t Ht]; [rewrite Hc; set_solver|].
  cbn. eexists _, t. split; [done|]. split; [done|]. split; [|done].
  unfold flight. cbn. apply Hfl. by right.
Qed.

(** A client whose timer fires while it is still queued leaves without a
    server and without disturbing the order of the others; one that lost the
    race to a release takes the server it was given. *)
Theorem lifo_timeout_correct (s : Sys) (t c : nat) :
  reachable init step s -> waits s !! t = Some c ->
  exists v p', timeout (pl s) c = Ret (v, p') /\
    contents (waiters p') = filter (fun x => x <> c) (contents (waiters (pl s))) /\
    (c ∈ contents (waiters (pl s)) -> v = Nil) /\
    (forall w, flight s t w -> v = w).
Proof.
  intros Hr Ht. pose proof (reachable_Inv s Hr) as HI. pose proof HI as [Hwf ? Hch ? Hown ? ?].
  destruct s as [p ws hd]. destruct (timeout_spec p ws hd t c HI Ht) as (v & p' & Hto & _ & Hc').
  exists v, p'. split; [done|]. split; [done|].
  unfold timeout in Hto. cbn in *.
  rewrite Length_spec, Nat2Z.id in Hto by done.
  destruct (rotate_out_spec (length (contents (waiters p))) (waiters p) c false (contents (waiters p)) [] Hwf)
    as (w' & Hro & _ & _); [by rewrite app_nil_r|done|].
  rewrite Hro in Hto. cbn [obind orb] in Hto. case_bool_decide as Hin.
  - injection Hto as <- _. split; [done|]. intros w (c' & ch & Hw & Hch' & Hm).
    pose proof (CInv_pend_heap _ _ _ _ Hch Hin). cbn in *. by simplify_eq.
  - split; [done|]. intros w Hfl.
    destruct (recv_put_spec _ _ _ t c Hch Ht Hin) as (v' & s' & Hrecv & _ & Hv & _).
    rewrite Hrecv in Hto. injection Hto as <- _.
    destruct Hv as [Hv|[_ Hn]]; [|by destruct (Hn w)].
    destruct Hfl as (c1 & ch1 & ? & ? & ?), Hv as (c2 & ch2 & ? & ? & ?). cbn in *. by simplify_eq.
Qed.

(** *** Concrete executions *)

Definition after (s : Sys) (c : call) : Sys :=
  match exec s c with Ret (Some s') => s' | _ => s end.

Lemma reachable_after s c :
  reachable init step s -> allowed s c -> exec s c = Ret (Some (after s c)) ->
  reachable init step (after s c).
Proof. intros Hr Hal Hex. eapply reachable_step; [exact Hr|]. by exists c. Qed.

Definition s0 := mkSys NewPooler ∅ [].
Definition s1 := after s0 (CAddServer 7).
Definition s2 := after s1 (CAcquire 0 false).
Definition s3 := after s2 (CAcquire 1 false).

Lemma lifo_s0_reachable : reachable init step s0.
Proof. by apply reachable_init. Qed.

Lemma lifo_s1_reachable : reachable init step s1.
Proof.
  apply reachable_after; [apply lifo_s0_reachable| |reflexivity].
  split; [done|]. split; [set_solver|]. split; [set_solver|].
  intros t (c & ch & Hw & _). cbn in Hw. by rewrite lookup_empty in Hw.
Qed.

Lemma lifo_s2_reachable : reachable init step s2.
Proof. apply reachable_after; [apply lifo_s1_reachable|reflexivity|reflexivity]. Qed.

Lemma lifo_s3_reachable : reachable init step s3.
Proof. apply reachable_after; [apply lifo_s2_reachable|reflexivity|reflexivity]. Qed.

Lemma lifo_no_deadlock_witness : exists r, exec s3 (CTimeout 1) = Ret r.
Proof. apply (lifo_no_deadlock s3 (CTimeout 1)); [apply lifo_s3_reachable|exact I]. Defined.

Lemma lifo_exclusive_witness :
  held s3 = [7] /\ 7 ∉ queue (pl s3).
Proof.
  split; [reflexivity|].
  exact (proj1 (proj2 (lifo_exclusive s3 lifo_s3_reachable) 7 (list_elem_of_here 7 []))).
Defined.

Lemma lifo_work_conserving_witness :
  queue (pl s3) = [] \/ contents (waiters (pl s3)) = [].
Proof. apply (lifo_work_conserving s3). apply lifo_s3_reachable. Defined.

Lemma lifo_no_lost_wakeup_witness :
  0 ∈ contents (waiters (pl s3)) \/ exists s', exec s3 (CRecv 1) = Ret (Some s').
Proof. apply (lifo_no_lost_wakeup s3 1 0); [apply lifo_s3_reachable|reflexivity]. Defined.

Lemma lifo_fifo_service_witness :
  exists s' t, exec s3 (CRelease 7) = Ret (Some s') /\
    waits s3 !! t = Some 0 /\ flight s' t 7 /\ contents (waiters (pl s')) = [].
Proof.
  apply (lifo_fifo_service s3 7 0 []);
    [apply lifo_s3_reachable|apply list_elem_of_here|apply (bool_decide_unpack _); vm_compute; exact I|reflexivity].
Defined.

Lemma lifo_timeout_correct_witness :
  exists v p', timeout (pl s3) 0 = Ret (v, p') /\
    contents (waiters p') = [] /\
    (0 ∈ contents (waiters (pl s3)) -> v = Nil) /\ (forall w, flight s3 1 w -> v = w).
Proof. apply (lifo_timeout_correct s3 1 0); [apply lifo_s3_reachable|reflexivity]. Defined.
End LifoTheorems.
