(* ===== verification/Scheduler.v ===== *)
(** * Scheduler: lib/rob/schedulers/v3 and poolers/rob

    The pooler of transaction mode: a stride scheduler.  Every user (client)
    has a stride, the service time it has received; a waiting user has a job
    in [schedule], an ordered map from strides to jobs, and a released worker
    (server) goes to the job of least stride.  poolers/rob/pooler.go only
    forwards its calls here.

    Users and workers are shared by pointer (a worker points to the user it
    serves, a job to its user, [users] and [workers] to both), so they live in
    the stores [uheap] and [wheap] and pointers are indices into them.  The
    schedule is used through the interface of OrderedMap.v.

    Every method body that runs under [T.mu] is one definition.  Acquire is
    its locked prologue ([acquire]) and one of two epilogues: the receive
    ([Chan.recv_put]) or the timer ([timeout]).  The clock is read once per
    call ([now]).  Strides are [time.Duration] nanoseconds, kept in [Z]: an
    overflow needs centuries of service time.

    [Sys] adds the blocked calls of Acquire ([waits], one per user) and the
    workers the users hold ([held]). *)

From S2P Require Import Prelude.
From S2P Require Import Slices.
From S2P Require Import OrderedMap.
From S2P Require Import Chan.

Local Open Scope Z_scope.
Local Open Scope go_scope.

Record User := mkUser { uID : uuid; Stride : Z; Scheduled : bool; uWorker : option nat }.
Record Worker := mkWorker { wID : uuid; wUser : option nat; Since : Z }.
Record Job := mkJob { jUser : nat; Ready : nat }.

#[export] Instance zero_Job : Zero Job := mkJob 0 0.
#[export] Instance zero_ptr : Zero nat := 0%nat.

Record Scheduler (M : Type) := mkScheduler {
  chans : Chans;             (* the channels and [cc] *)
  waiting : bool;            (* the buffered channel of capacity one is full *)
  closed : bool;
  queue : list nat;
  workers : gmap uuid nat;
  floor : Z;
  users : gmap uuid nat;
  schedule : M;
  uheap : list User;
  wheap : list Worker
}.
Arguments mkScheduler {M}.
Arguments chans {M}.
Arguments waiting {M}.
Arguments closed {M}.
Arguments queue {M}.
Arguments workers {M}.
Arguments floor {M}.
Arguments users {M}.
Arguments schedule {M}.
Arguments uheap {M}.
Arguments wheap {M}.

Section Scheduler.
Context {M : Type} `{OrderedMap Job M}.
Implicit Types T : Scheduler M.

Definition MakeScheduler : Scheduler M :=
  mkScheduler no_chans false false [] ∅ 0 ∅ om_empty [] [].

(** Assignments to one field. *)
Definition set_chans T x := mkScheduler x (waiting T) (closed T) (queue T) (workers T) (floor T) (users T) (schedule T) (uheap T) (wheap T).
Definition set_waiting T x := mkScheduler (chans T) x (closed T) (queue T) (workers T) (floor T) (users T) (schedule T) (uheap T) (wheap T).
Definition set_queue T x := mkScheduler (chans T) (waiting T) (closed T) x (workers T) (floor T) (users T) (schedule T) (uheap T) (wheap T).
Definition set_workers T x := mkScheduler (chans T) (waiting T) (closed T) (queue T) x (floor T) (users T) (schedule T) (uheap T) (wheap T).
Definition set_users T x := mkScheduler (chans T) (waiting T) (closed T) (queue T) (workers T) (floor T) x (schedule T) (uheap T) (wheap T).
Definition set_floor T x := mkScheduler (chans T) (waiting T) (closed T) (queue T) (workers T) x (users T) (schedule T) (uheap T) (wheap T).
Definition set_schedule T (x : M) := mkScheduler (chans T) (waiting T) (closed T) (queue T) (workers T) (floor T) (users T) x (uheap T) (wheap T).
Definition set_uheap T x := mkScheduler (chans T) (waiting T) (closed T) (queue T) (workers T) (floor T) (users T) (schedule T) x (wheap T).
Definition set_wheap T x := mkScheduler (chans T) (waiting T) (closed T) (queue T) (workers T) (floor T) (users T) (schedule T) (uheap T) x.

(** [worker.User.Stride += now.Sub(worker.Since); worker.User.Worker = nil] *)
Definition charge (d : Z) (u : User) : User := mkUser (uID u) (Stride u + d) (Scheduled u) None.
(** [job.User.Worker = worker; job.User.Scheduled = false] *)
Definition serve (wp : nat) (u : User) : User := mkUser (uID u) (Stride u) false (Some wp).
(** [worker.Since = now; worker.User = u] *)
Definition employ (up : option nat) (now : Z) (w : Worker) : Worker := mkWorker (wID w) up now.

(** [u.Worker = worker] *)
Definition assign (wp : nat) (u : User) : User := mkUser (uID u) (Stride u) (Scheduled u) (Some wp).
(** [u.Stride] after the slot search, [u.Scheduled = true] *)
Definition enqueue (stride : Z) (u : User) : User := mkUser (uID u) stride true (uWorker u).
(** [u.Scheduled = false] *)
Definition dequeue (u : User) : User := mkUser (uID u) (Stride u) false (uWorker u).

(** releaseWorker, "update prev user and state". *)
Definition settle T (wp : nat) (now : Z) : outcome (Scheduler M) :=
  let! w := deref (wheap T !! wp) in
  match wUser w with
  | None => Ret T
  | Some up =>
      let T := set_uheap T (alter (charge (now - Since w)) up (uheap T)) in
      Ret (set_wheap T (alter (employ None now) wp (wheap T)))
  end.

(** releaseWorker, "try to give it to the next pending". *)
Definition hand_over T (wp : nat) (now : Z) : outcome (Scheduler M) :=
  match om_min (schedule T) with
  | None => Ret (set_queue T (queue T ++ [wp]))
  | Some (stride, job) =>
      let T := set_floor T stride in
      let! sch := om_delete (schedule T) stride in
      let T := set_schedule T sch in
      let T := set_uheap T (alter (serve wp) (jUser job) (uheap T)) in
      let T := set_wheap T (alter (employ (Some (jUser job)) now) wp (wheap T)) in
      let! w := deref (wheap T !! wp) in
      let! ch := send (chans T) (Ready job) (wID w) in
      Ret (set_chans T ch)
  end.

Definition releaseWorker T (wp : nat) (now : Z) : outcome (Scheduler M) :=
  let! T := settle T wp now in hand_over T wp now.

Definition release T (worker : uuid) (now : Z) : outcome (Scheduler M) :=
  if closed T then Ret T
  else match workers T !! worker with
       | None => Ret T
       | Some wp => releaseWorker T wp now
       end.

Definition Release T (worker : uuid) (now : Z) : outcome (Scheduler M) := release T worker now.

Definition AddWorker T (id : uuid) (now : Z) : outcome (Scheduler M) :=
  if closed T then Ret T
  else
    let wp := length (wheap T) in
    let T := set_wheap T (wheap T ++ [mkWorker id None 0]) in
    let T := set_workers T (<[id := wp]> (workers T)) in
    releaseWorker T wp now.

Definition DeleteWorker T (worker : uuid) : outcome (Scheduler M) :=
  if closed T then Ret T
  else match workers T !! worker with
       | None => Ret T
       | Some wp =>
           let T := set_workers T (delete worker (workers T)) in
           let! q := Slices.Delete (queue T) wp in
           Ret (set_queue T q.2)
       end.

Definition AddUser T (user : uuid) : Scheduler M :=
  if closed T then T
  else
    let stride := match om_max (schedule T) with Some (s, _) => s + 1 | None => floor T end in
    let up := length (uheap T) in
    let T := set_uheap T (uheap T ++ [mkUser user stride false None]) in
    set_users T (<[user := up]> (users T)).

Definition DeleteUser T (user : uuid) : outcome (Scheduler M) :=
  if closed T then Ret T
  else match users T !! user with
       | None => Ret T
       | Some up =>
           let T := set_users T (delete user (users T)) in
           let! u := deref (uheap T !! up) in
           if Scheduled u then
             match om_get (schedule T) (Stride u) with
             | Some j =>
                 let! ch := close_chan (chans T) (Ready j) in
                 let! sch := om_delete (schedule T) (Stride u) in
                 Ret (set_schedule (set_chans T ch) sch)
             | None => Ret T
             end
           else Ret T
       end.

(** [for _, ok = T.schedule.Get(u.Stride); ok; ... { u.Stride++ }] *)
Fixpoint find_slot (fuel : nat) (sch : M) (stride : Z) : outcome Z :=
  match om_get sch stride with
  | None => Ret stride
  | Some _ => match fuel with O => Diverge | S fuel => find_slot fuel sch (stride + 1) end
  end.

(** The loop cannot pass the greatest key. *)
Definition slot_fuel (sch : M) (stride : Z) : nat :=
  match om_max sch with Some (k, _) => Z.to_nat (k + 1 - stride) | None => O end.

(** The function literal at the start of Acquire: [inl v] is [return v, nil],
    [inr c] is [return uuid.Nil, c]. *)
Definition acquire T (user : uuid) (now : Z) : outcome ((uuid + nat) * Scheduler M) :=
  if closed T then Ret (inl Nil, T)
  else match users T !! user with
  | None => Ret (inl Nil, T)
  | Some up =>
      match last (queue T) with
      | Some wp =>
          let T := set_queue T (take (length (queue T) - 1) (queue T)) in
          let T := set_uheap T (alter (assign wp) up (uheap T)) in
          let T := set_wheap T (alter (employ (Some up) now) wp (wheap T)) in
          let! w := deref (wheap T !! wp) in
          Ret (inl (wID w), T)
      | None =>
          let '(ready, ch) := get_chan (chans T) in
          let T := set_chans T ch in
          let job := mkJob up ready in
          let! u := deref (uheap T !! up) in
          let stride := if decide (Stride u < floor T) then floor T else Stride u in
          let! stride := find_slot (slot_fuel (schedule T) stride) (schedule T) stride in
          let! sch := om_set (schedule T) stride job in
          let T := set_schedule T sch in
          let T := set_uheap T (alter (enqueue stride) up (uheap T)) in
          Ret (inr ready, set_waiting T true)
      end
  end.

(** [case <-timeoutC]: the value Acquire returns. *)
Definition timeout T (user : uuid) (c : nat) (now : Z) : outcome (uuid * Scheduler M) :=
  match users T !! user with
  | None =>
      match recv_put (chans T) c with
      | Some (v, ch) =>
          let T := set_chans T ch in
          if decide (v <> Nil) then
            let! T := release T v now in Ret (Nil, T)
          else Ret (Nil, T)
      | None => Ret (Nil, T)
      end
  | Some up =>
      let! u := deref (uheap T !! up) in
      match om_get (schedule T) (Stride u) with
      | Some _ =>
          let T := set_uheap T (alter dequeue up (uheap T)) in
          let! sch := om_delete (schedule T) (Stride u) in
          let T := set_schedule T sch in
          Ret (Nil, set_chans T (put_chan (chans T) c))
      | None =>
          match recv_put (chans T) c with
          | None => Diverge      (* the receive blocks with T.mu held *)
          | Some (v, ch) => Ret (v, set_chans T ch)
          end
      end
  end.

Definition is_scheduled T (up : nat) : bool :=
  match uheap T !! up with Some u => Scheduled u | None => false end.

Definition Waiters T : nat :=
  length (filter (fun up => is_scheduled T up = true) (map_to_list (users T)).*2).

(** [for stride, job, ok := T.schedule.Min(); ok; ... { Delete; close }] *)
Fixpoint close_jobs (fuel : nat) (sch : M) (ch : Chans) : outcome (M * Chans) :=
  match om_min sch with
  | None => Ret (sch, ch)
  | Some (stride, job) =>
      let! sch := om_delete sch stride in
      let! ch := close_chan ch (Ready job) in
      match fuel with O => Diverge | S fuel => close_jobs fuel sch ch end
  end.

(** One iteration per scheduled user, so the number of users ever added is
    enough. *)
Definition Close T : outcome (Scheduler M) :=
  if closed T then Ret T
  else
    let! r := close_jobs (length (uheap T)) (schedule T) (chans T) in
    Ret (mkScheduler r.2 (waiting T) true [] ∅ (floor T) ∅ r.1 (uheap T) (wheap T)).

(** ** The system *)

Record Sys := mkSys {
  sch : Scheduler M;
  waits : gmap nat nat;              (* the users blocked in Acquire, their channels *)
  held : list (uuid * uuid)          (* workers lent, and to which user *)
}.

Inductive call :=
| CAddWorker (id : uuid) (now : Z)
| CDeleteWorker (id : uuid)
| CAddUser (user : uuid)
| CDeleteUser (user : uuid)
| CAcquire (user : uuid) (now : Z)
| CRecv (user : uuid)
| CTimeout (user : uuid) (now : Z)
| CRelease (id : uuid) (now : Z)
| CWaiting
| CClose.

Definition lend (v user : uuid) (h : list (uuid * uuid)) : list (uuid * uuid) :=
  if decide (v = Nil) then h else (v, user) :: h.

Definition give_back (v : uuid) (h : list (uuid * uuid)) : list (uuid * uuid) :=
  filter (fun p => p.1 <> v) h.

(** One call; [Ret None] if it cannot run now. *)
Definition exec (s : Sys) (c : call) : outcome (option Sys) :=
  let keep T := Some (mkSys T (waits s) (held s)) in
  match c with
  | CAddWorker id now => ofmap keep (AddWorker (sch s) id now)
  | CDeleteWorker id => ofmap keep (DeleteWorker (sch s) id)
  | CAddUser user => Ret (keep (AddUser (sch s) user))
  | CDeleteUser user => ofmap keep (DeleteUser (sch s) user)
  | CAcquire user now =>
      let! r := acquire (sch s) user now in
      match r.1 with
      | inl v => Ret (Some (mkSys r.2 (waits s) (lend v user (held s))))
      | inr c => Ret (Some (mkSys r.2 (<[user := c]> (waits s)) (held s)))
      end
  | CRecv user =>
      match waits s !! user with
      | None => Ret None
      | Some c =>
          match recv_put (chans (sch s)) c with
          | None => Ret None
          | Some (v, ch) =>
              Ret (Some (mkSys (set_chans (sch s) ch) (delete user (waits s)) (lend v user (held s))))
          end
      end
  | CTimeout user now =>
      match waits s !! user with
      | None => Ret None
      | Some c =>
          let! r := timeout (sch s) user c now in
          Ret (Some (mkSys r.2 (delete user (waits s)) (lend r.1 user (held s))))
      end
  | CRelease id now =>
      ofmap (fun T => Some (mkSys T (waits s) (give_back id (held s)))) (Release (sch s) id now)
  | CWaiting =>
      Ret (if waiting (sch s) then keep (set_waiting (sch s) false) else None)
  | CClose => ofmap keep (Close (sch s))
  end.

(** The worker [v] is in flight to [user]. *)
Definition flight (s : Sys) (user : nat) (v : uuid) : Prop :=
  in_flight (chans (sch s)) (waits s) user v.

(** The worker [v] is in the queue. *)
Definition idle (s : Sys) (v : uuid) : Prop :=
  exists wp w, wp ∈ queue (sch s) /\ wheap (sch s) !! wp = Some w /\ wID w = v.

(** The timer of [user] finds either its own job or none at its stride. *)
Definition undisturbed (s : Sys) (user : uuid) : Prop :=
  forall up u, users (sch s) !! user = Some up -> uheap (sch s) !! up = Some u ->
    Scheduled u = true \/ om_get (schedule (sch s)) (Stride u) = None.

(** What the callers guarantee: a worker is added once, a user is added when
    it is not registered, a user (one goroutine) has one call of Acquire at a
    time and holds no worker when it makes it, and only a worker that is lent
    is released. *)
Definition allowed (s : Sys) (c : call) : Prop :=
  match c with
  | CAddWorker id _ =>
      fresh (idle s) (held s).*1 (flight s) id /\ workers (sch s) !! id = None
  | CAddUser user => users (sch s) !! user = None
  | CAcquire user _ => waits s !! user = None /\ user ∉ (held s).*2
  | CRelease id _ => id ∈ (held s).*1
  | _ => True
  end.

Definition init (s : Sys) : Prop := s = mkSys MakeScheduler ∅ [].

Definition step (s s' : Sys) : Prop := exists c, allowed s c /\ exec s c = Ret (Some s').

(** The steps without the lost race of [timeout] (see [SchedulerTheorems]). *)
Definition safe (s : Sys) (c : call) : Prop :=
  allowed s c /\ match c with CTimeout user _ => undisturbed s user | _ => True end.

Definition safe_step (s s' : Sys) : Prop := exists c, safe s c /\ exec s c = Ret (Some s').
End Scheduler.

Arguments Sys M : clear implicits.
Arguments mkSys {M}.
Arguments sch {M}.
Arguments waits {M}.
Arguments held {M}.

(** ** The invariant *)

Section Invariant.
Context {M : Type} `{OrderedMapLaws Job M}.
Implicit Types (T : Scheduler M) (s : Sys M).

Definition jobs T : gmap Z Job := om_abs (schedule T).

(** A reply is owed on [c]. *)
Definition pending T (c : nat) : Prop := exists k j, jobs T !! k = Some j /\ Ready j = c.

(** The worker [id] serves the user at [up]; [ex] is a worker that is just
    being given back. *)
Definition serving (ex : option uuid) s (id : uuid) (up : nat) : Prop :=
  exists u, uheap (sch s) !! up = Some u /\
    ((id, uID u) ∈ held s \/ flight s (uID u) id \/
     ex = Some id /\ forall k j, jobs (sch s) !! k = Some j -> jUser j <> up).

Record Inv (ex : option uuid) s : Prop := {
  si_wf : om_wf (schedule (sch s));
  si_chan : CInv (chans (sch s)) (waits s) (pending (sch s));
  si_own : OInv (idle s) (held s).*1 (flight s);
  si_users id up : users (sch s) !! id = Some up ->
    exists u, uheap (sch s) !! up = Some u /\ uID u = id /\
      (Scheduled u = true -> exists j, jobs (sch s) !! Stride u = Some j /\ jUser j = up);
  si_jobs k j : jobs (sch s) !! k = Some j ->
    exists u, uheap (sch s) !! jUser j = Some u /\ users (sch s) !! uID u = Some (jUser j) /\
      Stride u = k /\ Scheduled u = true /\ waits s !! uID u = Some (Ready j);
  si_floor k : is_Some (jobs (sch s) !! k) -> floor (sch s) <= k;
  si_workers id wp : workers (sch s) !! id = Some wp ->
    exists w, wheap (sch s) !! wp = Some w /\ wID w = id /\
      forall up, wUser w = Some up -> serving ex s id up;
  si_queue wp : wp ∈ queue (sch s) ->
    exists w, wheap (sch s) !! wp = Some w /\ workers (sch s) !! wID w = Some wp;
  si_nodup : NoDup (queue (sch s));
  si_waits user c : waits s !! user = Some c -> user ∉ (held s).*2;
  si_work : queue (sch s) = [] \/ jobs (sch s) = ∅;
  si_closed : closed (sch s) = true ->
    users (sch s) = ∅ /\ workers (sch s) = ∅ /\ queue (sch s) = [] /\ jobs (sch s) = ∅
}.

Lemma sched_Inv_init : Inv None (mkSys MakeScheduler ∅ []).
Proof.
  destruct (om_empty_ok (V := Job) (M := M)) as [Hwf He].
  assert (Hj : jobs (MakeScheduler (M := M)) = ∅) by done.
  assert (Hf : forall t v, ~ flight (mkSys (MakeScheduler (M := M)) ∅ []) t v).
  { intros t v (c & ch & Hw & _). cbn in Hw. by rewrite lookup_empty in Hw. }
  split; cbn [sch waits held]; rewrite ?Hj; try done.
  - apply CInv_init. intros c (k & j & Hk & _). by rewrite Hj, lookup_empty in Hk.
  - assert (Hi : forall v, ~ idle (mkSys (MakeScheduler (M := M)) ∅ []) v).
    { intros v (wp & w & Hx & _). cbn in Hx. set_solver. }
    split; cbn; try set_solver; [constructor|..]; intros; try (by eapply Hi); by eapply Hf.
  - intros k. rewrite lookup_empty. by intros [? ?].
  - cbn. set_solver.
  - cbn. constructor.
  - by left.
Qed.

(** *** Stores *)

Lemma alter_lookup {A} (f : A -> A) (l : list A) p q x :
  l !! p = Some x -> alter f q l !! p = Some (if decide (q = p) then f x else x).
Proof.
  intros Hp. case_decide as Hd.
  - subst q. by rewrite list_lookup_alter_eq, Hp.
  - by rewrite list_lookup_alter_ne.
Qed.

Lemma alter_lookup_inv {A} (f : A -> A) (l : list A) p q y :
  alter f q l !! p = Some y -> exists x, l !! p = Some x /\ y = if decide (q = p) then f x else x.
Proof.
  case_decide as Hd.
  - subst q. rewrite list_lookup_alter_eq. intros (x & -> & Hx)%fmap_Some. eauto.
  - rewrite list_lookup_alter_ne by done. eauto.
Qed.

(** *** Consequences of the invariant *)

Lemma job_user_inj ex s k k' j j' :
  Inv ex s -> jobs (sch s) !! k = Some j -> jobs (sch s) !! k' = Some j' ->
  jUser j = jUser j' -> k = k'.
Proof.
  intros HI Hj Hj' Heq.
  destruct (si_jobs _ _ HI k j Hj) as (u & Hu & _ & <- & _).
  destruct (si_jobs _ _ HI k' j' Hj') as (u' & Hu' & _ & <- & _).
  rewrite Heq in Hu. congruence.
Qed.

Lemma job_ready_inj ex s k k' j j' :
  Inv ex s -> jobs (sch s) !! k = Some j -> jobs (sch s) !! k' = Some j' ->
  Ready j = Ready j' -> k = k'.
Proof.
  intros HI Hj Hj' Heq. eapply (job_user_inj ex s); [done..|].
  destruct (si_jobs _ _ HI k j Hj) as (u & Hu & Hus & _ & _ & Hw).
  destruct (si_jobs _ _ HI k' j' Hj') as (u' & Hu' & Hus' & _ & _ & Hw').
  rewrite <- Heq in Hw'. pose proof (ci_inj _ _ _ (si_chan _ _ HI) _ _ _ Hw Hw').
  congruence.
Qed.

(** The channel of the removed job is the only one that stops being owed. *)
Lemma pending_delete ex s T' k j :
  Inv ex s -> jobs (sch s) !! k = Some j -> jobs T' = delete k (jobs (sch s)) ->
  forall c, (c <> Ready j /\ pending (sch s) c) <-> pending T' c.
Proof.
  intros HI Hj HT' c. unfold pending. rewrite HT'. split.
  - intros [Hc (k' & j' & Hj' & <-)]. exists k', j'. split; [|done].
    rewrite lookup_delete_ne; [done|]. intros <-. congruence.
  - intros (k' & j' & [Hk Hj']%lookup_delete_Some & <-). split; [|eauto].
    intros Heq. apply Hk. eapply (job_ready_inj ex s); eauto.
Qed.

(** A user whose channel is resolved has no job. *)
Lemma no_job ex s user c up u k j :
  Inv ex s -> waits s !! user = Some c -> ~ pending (sch s) c ->
  uheap (sch s) !! up = Some u -> uID u = user -> jobs (sch s) !! k = Some j -> jUser j <> up.
Proof.
  intros HI Hw Hp Hu Hid Hj Heq. destruct (si_jobs _ _ HI k j Hj) as (u' & Hu' & _ & _ & _ & Hw').
  apply Hp. exists k, j. split; [done|]. congruence.
Qed.

Lemma worker_inj ex s id id' wp :
  Inv ex s -> workers (sch s) !! id = Some wp -> workers (sch s) !! id' = Some wp -> id = id'.
Proof.
  intros HI Hid Hid'. destruct (si_workers _ _ HI _ _ Hid) as (w & Hw & <- & _).
  destruct (si_workers _ _ HI _ _ Hid') as (w' & Hw' & <- & _). congruence.
Qed.

Lemma idle_queue ex s id wp :
  Inv ex s -> workers (sch s) !! id = Some wp -> wp ∈ queue (sch s) -> idle s id.
Proof.
  intros HI Hid Hq. destruct (si_workers _ _ HI _ _ Hid) as (w & Hw & <- & _). by exists wp, w.
Qed.

Lemma Inv_unregistered ex s : Inv ex s ->
  (forall id, ex = Some id -> workers (sch s) !! id = None) -> Inv None s.
Proof.
  intros HI Hex. destruct HI. split; try done.
  intros id wp Hid. destruct (si_workers0 id wp Hid) as (w & Hw & Hwid & Hup).
  exists w. split; [done|]. split; [done|]. intros up Hu.
  destruct (Hup up Hu) as (u & Huu & [?|[?|[-> _]]]); [by exists u; auto..|].
  rewrite (Hex id) in Hid by done. done.
Qed.

(** A user that is being served has no job. *)
Lemma serving_no_job ex s id up k j :
  Inv ex s -> serving ex s id up -> jobs (sch s) !! k = Some j -> jUser j <> up.
Proof.
  intros HI (u & Hu & Hcase) Hj Heq. destruct (si_jobs _ _ HI k j Hj) as (u' & Hu' & _ & _ & _ & Hwt).
  rewrite Heq, Hu in Hu'. injection Hu' as <-. destruct Hcase as [Hh|[Hf|[_ Hn]]].
  - apply (si_waits _ _ HI _ _ Hwt). apply list_elem_of_fmap. by exists (id, uID u).
  - destruct Hf as (c & ch & Hc & Hheap & Hm).
    assert (Hp : pending (sch s) c) by (exists k, j; split; congruence).
    pose proof (CInv_pend_heap _ _ _ _ (si_chan _ _ HI) Hp). by simplify_eq.
  - by apply (Hn k j).
Qed.

(** *** releaseWorker *)

Lemma settle_spec T ws hd id wp now :
  Inv (Some id) (mkSys T ws hd) -> workers T !! id = Some wp ->
  exists T', settle T wp now = Ret T' /\ Inv None (mkSys T' ws hd) /\
    (exists w, wheap T' !! wp = Some w /\ wID w = id /\ wUser w = None) /\
    workers T' = workers T /\ closed T' = closed T /\ chans T' = chans T /\
    schedule T' = schedule T /\ queue T' = queue T /\ floor T' = floor T.
Proof.
  intros HI Hid. pose proof HI as [Hwf Hch Hown Hus Hjb Hfl Hwk Hqu Hnd Hws Hwork Hcl]. cbn in *.
  destruct (Hwk id wp Hid) as (w & Hw & Hwid & Hsv). unfold settle. rewrite Hw. cbn.
  destruct (wUser w) as [up|] eqn:Hup.
  - destruct (Hsv up eq_refl) as (u & Hu & Hcase). cbn [sch waits held] in *.
    assert (Hnj : forall k j, jobs T !! k = Some j -> jUser j <> up).
    { intros k j. apply (serving_no_job _ _ id up k j HI). by exists u. }
    eexists. split; [done|].
    assert (Hwp : alter (employ None now) wp (wheap T) !! wp = Some (employ None now w)).
    { rewrite (alter_lookup _ _ _ _ w) by done. by rewrite decide_True. }
    split; [|by cbn; eauto 10].
    split; cbn; try done.
    + eapply OInv_mono; [exact Hown|..]; try done; [|apply Hown].
      intros v (q & wq & Hq & Hwq & Hv). cbn in *.
      apply alter_lookup_inv in Hwq as (wq' & Hwq' & ->).
      exists q, wq'. split; [done|]. split; [done|]. by case_decide; subst.
    + intros uid up' Hup'. destruct (Hus uid up' Hup') as (u' & Hu' & Huid & Hs).
      exists (if decide (up = up') then charge (now - Since w) u' else u').
      split; [by apply alter_lookup|]. case_decide; cbn; [|done]. split; [done|]. subst up'.
      intros Hsc. destruct (Hs Hsc) as (j & Hj & Hju). by destruct (Hnj _ _ Hj).
    + intros k j Hj. destruct (Hjb k j Hj) as (u' & Hu' & Hrest). exists u'.
      split; [|done]. rewrite (alter_lookup _ _ _ _ u') by done.
      rewrite decide_False; [done|]. intros ->. by destruct (Hnj k j Hj).
    + intros id' wp' Hid'. destruct (Hwk id' wp' Hid') as (w' & Hw' & Hwid' & Hsv').
      exists (if decide (wp = wp') then employ None now w' else w').
      split; [by apply alter_lookup|]. case_decide as Hwpp; cbn; [split; [done|done]|].
      split; [done|]. intros up' Hup'. destruct (Hsv' up' Hup') as (u' & Hu' & Hcase').
      exists (if decide (up = up') then charge (now - Since w) u' else u'). cbn.
      split; [by apply alter_lookup|]. destruct Hcase' as [?|[?|[Heq ?]]].
      * left. by case_decide.
      * right; left. by case_decide.
      * exfalso. injection Heq as <-. congruence.
    + intros wp' Hq. destruct (Hqu wp' Hq) as (w' & Hw' & Hid').
      exists (if decide (wp = wp') then employ None now w' else w').
      split; [by apply alter_lookup|]. by case_decide.
  - exists T. split; [done|]. split; [|by eauto 10].
    split; try done. cbn. intros id' wp' Hid'. destruct (Hwk id' wp' Hid') as (w' & Hw' & Hwid' & Hsv').
    exists w'. split; [done|]. split; [done|]. intros up Hu.
    destruct (Hsv' up Hu) as (u & Huu & [?|[?|[[= <-] _]]]); [by exists u; auto..|congruence].
Qed.

(** The invariant after the job at [k] has left the schedule and its user is
    no longer scheduled; [f] is what happens to the user. *)
Lemma users_after_pop ex s f k j :
  Inv ex s -> jobs (sch s) !! k = Some j -> (forall u, uID (f u) = uID u /\ Scheduled (f u) = false) ->
  forall id up, users (sch s) !! id = Some up ->
  exists u, alter f (jUser j) (uheap (sch s)) !! up = Some u /\ uID u = id /\
    (Scheduled u = true -> exists j', delete k (jobs (sch s)) !! Stride u = Some j' /\ jUser j' = up).
Proof.
  intros HI Hj Hf id up Hup. destruct (si_users _ _ HI id up Hup) as (u & Hu & Huid & Hs).
  exists (if decide (jUser j = up) then f u else u). split; [by apply alter_lookup|].
  destruct (Hf u) as [Hfid Hfs]. case_decide as Hd; [split; congruence|]. split; [done|].
  intros Hsc. destruct (Hs Hsc) as (j' & Hj' & Hju). exists j'. split; [|done].
  rewrite lookup_delete_ne; [done|]. intros Hk. apply Hd. congruence.
Qed.

Lemma jobs_after_pop ex s f k j :
  Inv ex s -> jobs (sch s) !! k = Some j ->
  forall k' j', delete k (jobs (sch s)) !! k' = Some j' ->
  exists u, alter f (jUser j) (uheap (sch s)) !! jUser j' = Some u /\
    users (sch s) !! uID u = Some (jUser j') /\ Stride u = k' /\ Scheduled u = true /\
    waits s !! uID u = Some (Ready j').
Proof.
  intros HI Hj k' j' [Hk Hj']%lookup_delete_Some.
  destruct (si_jobs _ _ HI k' j' Hj') as (u & Hu & Hrest). exists u. split; [|done].
  rewrite (alter_lookup _ _ _ _ u) by done. rewrite decide_False; [done|].
  intros Heq. apply Hk. by eapply (job_user_inj ex s).
Qed.

Lemma serving_alter ex s s' f up0 id up :
  serving ex s id up -> (forall u, uID (f u) = uID u) ->
  uheap (sch s') = alter f up0 (uheap (sch s)) ->
  (forall u, (id, uID u) ∈ held s -> (id, uID u) ∈ held s') ->
  (forall u, flight s u id -> flight s' u id) ->
  (ex <> None -> forall k, is_Some (jobs (sch s') !! k) -> jobs (sch s') !! k = jobs (sch s) !! k) ->
  serving ex s' id up.
Proof.
  intros (u & Hu & Hcase) Hf Hheap Hh Hfl Hjb.
  exists (if decide (up0 = up) then f u else u).
  assert (Hid : uID (if decide (up0 = up) then f u else u) = uID u) by (case_decide; auto).
  split; [rewrite Hheap; by apply alter_lookup|]. rewrite Hid.
  destruct Hcase as [?|[?|[? Hn]]]; [by left; auto|by right; left; auto|].
  right; right. split; [done|]. intros k j Hj. apply (Hn k j). rewrite <- Hjb; eauto; congruence.
Qed.

Lemma hand_over_spec T ws hd id wp w now :
  Inv None (mkSys T ws hd) -> workers T !! id = Some wp -> wheap T !! wp = Some w ->
  wID w = id -> wUser w = None -> closed T = false ->
  fresh (idle (mkSys T ws hd)) hd.*1 (flight (mkSys T ws hd)) id ->
  exists T', hand_over T wp now = Ret T' /\ Inv None (mkSys T' ws hd) /\ closed T' = false.
Proof.
  intros HI Hid Hw Hwid Hwu Hncl Hfr.
  pose proof HI as [Hwf Hch Hown Hus Hjb Hfl Hwk Hqu Hnd Hws Hwork Hcl]. cbn in *.
  unfold hand_over. pose proof (om_min_ok _ Hwf) as Hmin.
  destruct (om_min (schedule T)) as [[k j]|].
  - destruct Hmin as [Hj Hleast]. fold (jobs T) in Hj, Hleast. cbn.
    destruct (om_delete_ok (schedule T) k Hwf) as (sch' & -> & Hwf' & Habs). cbn.
    assert (Hwp : alter (employ (Some (jUser j)) now) wp (wheap T) !! wp
                  = Some (employ (Some (jUser j)) now w)).
    { rewrite (alter_lookup _ _ _ _ w) by done. by rewrite decide_True. }
    rewrite Hwp. cbn. rewrite Hwid.
    destruct (send_spec _ _ _ (Ready j) id Hch) as (ch' & -> & HCI & Hfl'); [by exists k, j|]. cbn.
    destruct (Hjb k j Hj) as (u & Hu & Hureg & HuS & HuSc & Huw).
    eexists. split; [done|]. split; [|done].
    assert (Hqe : queue T = []).
    { destruct Hwork as [?|He]; [done|]. rewrite He in Hj. by rewrite lookup_empty in Hj. }
    match goal with |- Inv None (mkSys ?X _ _) => set (T' := X) end.
    assert (Hjobs : jobs T' = delete k (jobs T)) by exact Habs.
    assert (HF : forall t x, flight (mkSys T' ws hd) t x <->
        flight (mkSys T ws hd) t x \/ ws !! t = Some (Ready j) /\ x = id) by exact Hfl'.
    split; cbn [sch waits held]; rewrite ?Hjobs; try done.
    + eapply CInv_proper; [|exact HCI]. by apply (pending_delete None (mkSys T ws hd) _ k j).
    + assert (Hno : forall v, ~ idle (mkSys T' ws hd) v).
      { intros v (q & wq & Hq & _). cbn in Hq. rewrite Hqe in Hq. set_solver. }
      eapply (OInv_add_fl _ _ _ _ (uID u) id).
      * eapply OInv_mono; [exact Hown| |apply Hown|done|intros ? ? Hx; exact Hx].
        intros v Hv. by destruct (Hno v).
      * eapply fresh_mono; [exact Hfr| |done|done]. intros v Hv. by destruct (Hno v).
      * intros t x. rewrite HF. intros [?|[Ht ->]]; [by left|].
        right. split; [|done]. by eapply (ci_inj _ _ _ Hch).
    + by apply (users_after_pop None (mkSys T ws hd)).
    + by apply (jobs_after_pop None (mkSys T ws hd)).
    + intros k' [j' [_ Hj']%lookup_delete_Some]. apply Hleast. eauto.
    + intros id' wp' Hid'. destruct (Hwk id' wp' Hid') as (w' & Hw' & Hwid' & Hsv).
      exists (if decide (wp = wp') then employ (Some (jUser j)) now w' else w').
      split; [by apply alter_lookup|]. case_decide as Hd; cbn.
      * split; [done|]. intros up [= <-]. exists (serve wp u). split.
        { cbn. rewrite (alter_lookup _ _ _ _ u) by done. by rewrite decide_True. }
        right; left. apply HF. right. cbn. split; [done|]. congruence.
      * split; [done|]. intros up Hup. eapply (serving_alter _ (mkSys T ws hd) _ (serve wp) (jUser j));
          [by apply Hsv|done|done|done|..].
        { intros t Ht. apply HF. by left. }
        { done. }
    + cbn. rewrite Hqe. set_solver.
    + by left.
    + cbn. by rewrite Hncl.
  - eexists. split; [done|]. split; [|done].
    match goal with |- Inv None (mkSys ?X _ _) => set (T' := X) end.
    split; cbn; try done.
    + eapply OInv_add_idle; [exact Hown|exact Hfr|].
      intros x (q & wq & [Hq| ->%list_elem_of_singleton]%elem_of_app & Hwq & Hx); cbn in *.
      * right. by exists q, wq.
      * left. congruence.
    + intros wp' [Hq| ->%list_elem_of_singleton]%elem_of_app; [by apply Hqu|].
      exists w. split; [done|]. by rewrite Hwid.
    + apply NoDup_app. split; [done|]. split; [|by apply NoDup_singleton].
      intros q Hq ->%list_elem_of_singleton. destruct Hfr as (_ & Hni & _). apply Hni.
      by eapply idle_queue.
    + by right.
    + by rewrite Hncl.
Qed.

Lemma Inv_weaken ex s : Inv None s -> Inv ex s.
Proof.
  intros HI. destruct HI. split; try done.
  intros id wp Hid. destruct (si_workers0 id wp Hid) as (w & Hw & Hwid & Hup).
  exists w. split; [done|]. split; [done|]. intros up Hu.
  destruct (Hup up Hu) as (u & Huu & [?|[?|[? _]]]); [by exists u; auto..|done].
Qed.

Lemma releaseWorker_spec T ws hd id wp now :
  Inv (Some id) (mkSys T ws hd) -> workers T !! id = Some wp -> closed T = false ->
  fresh (idle (mkSys T ws hd)) hd.*1 (flight (mkSys T ws hd)) id ->
  exists T', releaseWorker T wp now = Ret T' /\ Inv None (mkSys T' ws hd) /\ closed T' = false.
Proof.
  intros HI Hid Hncl Hfr. unfold releaseWorker.
  destruct (settle_spec T ws hd id wp now HI Hid)
    as (T1 & -> & HI1 & (w & Hw & Hwid & Hwu) & Hwk & Hcl & Hch & Hsch & Hq & _). cbn [obind].
  eapply hand_over_spec; try done; try congruence.
  eapply fresh_mono; [exact Hfr| |done|].
  - intros v (q & wq & Hqq & Hwq & Hv). cbn in *. rewrite Hq in Hqq.
    destruct (si_queue _ _ HI q Hqq) as (w' & Hw' & Hreg'). cbn in *.
    destruct (si_queue _ _ HI1 q) as (w'' & Hw'' & Hreg''); [cbn; by rewrite Hq|]. cbn in *.
    rewrite Hwk in Hreg''. exists q, w'. split; [done|]. split; [done|].
    pose proof (worker_inj _ _ _ _ _ HI Hreg' Hreg''). congruence.
  - intros t v. unfold flight. cbn. by rewrite Hch.
Qed.

(** *** Lending and giving back *)

Lemma fmap_give_back v hd : (give_back v hd).*1 = filter (fun x => x <> v) hd.*1.
Proof.
  unfold give_back. induction hd as [|[x y] hd IH]; [done|]. cbn [fmap list_fmap fst].
  destruct (decide (x = v)) as [->|Hx].
  - by rewrite !filter_cons_False by (cbn; auto).
  - rewrite !filter_cons_True by (cbn; auto). cbn. by rewrite IH.
Qed.

Lemma elem_of_give_back v hd p : p ∈ give_back v hd <-> p.1 <> v /\ p ∈ hd.
Proof. unfold give_back. by rewrite list_elem_of_filter. Qed.

Lemma give_back_absent v hd : v ∉ hd.*1 -> give_back v hd = hd.
Proof.
  unfold give_back. induction hd as [|[x y] hd IH]; [done|]. cbn [fmap list_fmap fst].
  rewrite not_elem_of_cons. intros [Hx Hv]. rewrite filter_cons_True by (cbn; auto). by rewrite IH.
Qed.

Lemma give_back_Inv T ws hd id :
  Inv None (mkSys T ws hd) -> id ∈ hd.*1 ->
  Inv (Some id) (mkSys T ws (give_back id hd)) /\
  fresh (idle (mkSys T ws hd)) (give_back id hd).*1 (flight (mkSys T ws hd)) id.
Proof.
  intros HI Hid. pose proof HI as [Hwf Hch Hown Hus Hjb Hfl Hwk Hqu Hnd Hws Hwork Hcl]. cbn in *.
  split.
  - split; try done; cbn.
    + eapply OInv_mono; [exact Hown|done|..|done]; cbn; rewrite fmap_give_back.
      * apply NoDup_filter, Hown.
      * intros v. rewrite list_elem_of_filter. tauto.
    + intros id' wp Hid'. destruct (Hwk id' wp Hid') as (w & Hw & Hwid & Hsv). exists w.
      split; [done|]. split; [done|]. intros up Hup. destruct (Hsv up Hup) as (u & Hu & Hcase).
      exists u. split; [done|]. cbn in *. destruct Hcase as [Hh|[Hf|[Hx _]]]; [|by auto|done].
      destruct (decide (id' = id)) as [->|Hne].
      * right; right. split; [done|]. intros k j. eapply (serving_no_job None (mkSys T ws hd) id up); [done|].
        by apply Hsv.
      * left. apply elem_of_give_back. done.
    + intros user c Hc Hin. apply (Hws user c Hc).
      apply list_elem_of_fmap in Hin as (q & -> & [_ Hq]%elem_of_give_back).
      apply list_elem_of_fmap. eauto.
  - repeat split.
    + intros ->. by apply (oi_nil_held _ _ _ Hown).
    + intros Hi. by apply (oi_idle_held _ _ _ Hown id Hi).
    + rewrite fmap_give_back, list_elem_of_filter. tauto.
    + intros t. by apply (oi_held_fl _ _ _ Hown).
Qed.

Lemma release_Inv T ws hd id now :
  Inv None (mkSys T ws hd) -> id ∈ hd.*1 ->
  exists T', release T id now = Ret T' /\ Inv None (mkSys T' ws (give_back id hd)).
Proof.
  intros HI Hid. destruct (give_back_Inv _ _ _ _ HI Hid) as [HI' Hfr]. unfold release.
  destruct (closed T) eqn:Hc.
  { exists T. split; [done|]. eapply Inv_unregistered; [exact HI'|]. intros id' _. cbn.
    destruct (si_closed _ _ HI Hc) as (_ & Hw & _). cbn in Hw. by rewrite Hw, lookup_empty. }
  destruct (workers T !! id) as [wp|] eqn:Hwp.
  - destruct (releaseWorker_spec T ws (give_back id hd) id wp now HI' Hwp Hc Hfr) as (T' & -> & HT' & _).
    eauto.
  - exists T. split; [done|]. eapply Inv_unregistered; [exact HI'|]. cbn. congruence.
Qed.

Lemma fmap_lend v user hd : (lend v user hd).*1 = give v hd.*1.
Proof. unfold lend, give. by case_decide. Qed.

(** A blocked call returns what is in its channel. *)
Lemma recv_Inv T ws hd user c :
  Inv None (mkSys T ws hd) -> ws !! user = Some c -> ~ pending T c ->
  exists v ch, recv_put (chans T) c = Some (v, ch) /\
    Inv None (mkSys (set_chans T ch) (delete user ws) (lend v user hd)) /\
    (flight (mkSys T ws hd) user v \/ v = Nil /\ forall v', ~ flight (mkSys T ws hd) user v').
Proof.
  intros HI Hw Hnp. pose proof HI as [Hwf Hch Hown Hus Hjb Hfl Hwk Hqu Hnd Hws Hwork Hcl]. cbn in *.
  destruct (recv_put_spec _ _ _ user c Hch Hw Hnp) as (v & ch & Hr & HCI & Hv & Hfl').
  exists v, ch. split; [done|]. split; [|done].
  assert (HO : OInv (idle (mkSys T ws hd)) (give v hd.*1)
                 (in_flight ch (delete user ws))) by (eapply OInv_receive; eauto).
  split; cbn; try done.
  - by rewrite fmap_lend.
  - intros k j Hj. destruct (Hjb k j Hj) as (u & Hu & Hr1 & Hr2 & Hr3 & Hwt). exists u.
    split; [done|]. split; [done|]. split; [done|]. split; [done|].
    rewrite lookup_delete_ne; [done|]. intros Heq. apply Hnp. exists k, j.
    split; [done|]. rewrite <- Heq in Hwt. congruence.
  - intros id wp Hid. destruct (Hwk id wp Hid) as (w & Hw' & Hwid & Hsv). exists w.
    split; [done|]. split; [done|]. intros up Hup. destruct (Hsv up Hup) as (u & Hu & Hcase).
    exists u. split; [done|]. cbn in *. destruct Hcase as [Hh|[Hf|[Hx _]]]; [|..|done].
    + left. unfold lend. case_decide; [done|]. by right.
    + destruct (decide (uID u = user)) as [Heq|Hne].
      * left. destruct Hv as [Hv|[_ Hn]]; [|by destruct (Hn id); rewrite <- Heq].
        assert (id = v) as ->.
        { destruct Hf as (c1 & ch1 & ? & ? & ?), Hv as (c2 & ch2 & ? & ? & ?). cbn in *. by simplify_eq. }
        unfold lend. rewrite decide_False; [rewrite <- Heq; left|].
        intros ->. by apply (oi_nil_fl _ _ _ Hown (uID u)).
      * right; left. by apply Hfl'.
  - intros user' c' [Hne Hc']%lookup_delete_Some. unfold lend.
    case_decide; [by eapply Hws|]. cbn. rewrite not_elem_of_cons. split; [done|]. by eapply Hws.
Qed.

(** *** Workers and users *)

Lemma AddWorker_Inv T ws hd id now :
  Inv None (mkSys T ws hd) -> workers T !! id = None ->
  fresh (idle (mkSys T ws hd)) hd.*1 (flight (mkSys T ws hd)) id ->
  exists T', AddWorker T id now = Ret T' /\ Inv None (mkSys T' ws hd).
Proof.
  intros HI Hid Hfr. pose proof HI as [Hwf Hch Hown Hus Hjb Hfl Hwk Hqu Hnd Hws Hwork Hcl]. cbn in *.
  unfold AddWorker. destruct (closed T) eqn:Hc; [eauto|].
  match goal with |- context [releaseWorker ?X _ _] => set (T1 := X) end.
  assert (Hold : forall wp w, wheap T !! wp = Some w -> wheap T1 !! wp = Some w).
  { intros wp w Hw. cbn. by apply lookup_app_l_Some. }
  assert (Hidle : forall v, idle (mkSys T1 ws hd) v -> idle (mkSys T ws hd) v).
  { intros v (q & w & Hq & Hw & Hv). destruct (Hqu q Hq) as (w' & Hw' & _).
    change (wheap T1 !! q = Some w) in Hw. rewrite (Hold _ _ Hw') in Hw.
    exists q, w'. cbn. split; [done|]. split; congruence. }
  assert (HI1 : Inv None (mkSys T1 ws hd)).
  { split; try done.
    - by eapply OInv_mono; [exact Hown|exact Hidle|apply Hown|..].
    - intros id' wp. cbn. rewrite lookup_insert. case_decide as Hd.
      + intros [= <-]. exists (mkWorker id None 0).
        split; [|done]. rewrite lookup_app_r by lia. by rewrite Nat.sub_diag.
      + intros Hid'. destruct (Hwk id' wp Hid') as (w & Hw & Hrest). exists w.
        split; [by apply Hold|done].
    - intros wp Hq. destruct (Hqu wp Hq) as (w & Hw & Hreg). exists w.
      split; [by apply Hold|]. cbn. rewrite lookup_insert_ne; [done|]. congruence.
    - cbn. by rewrite Hc. }
  destruct (releaseWorker_spec T1 ws hd id (length (wheap T)) now) as (T' & -> & HT' & _); eauto.
  - by apply Inv_weaken.
  - cbn. by rewrite lookup_insert_eq.
  - by eapply fresh_mono; [exact Hfr|exact Hidle|..].
Qed.

Lemma DeleteWorker_Inv T ws hd id :
  Inv None (mkSys T ws hd) ->
  exists T', DeleteWorker T id = Ret T' /\ Inv None (mkSys T' ws hd).
Proof.
  intros HI. pose proof HI as [Hwf Hch Hown Hus Hjb Hfl Hwk Hqu Hnd Hws Hwork Hcl]. cbn in *.
  unfold DeleteWorker. destruct (closed T) eqn:Hc; [eauto|].
  destruct (workers T !! id) as [wp|] eqn:Hwp; [|eauto].
  destruct (Delete_spec (queue (set_workers T (delete id (workers T)))) wp) as [orig ->]. cbn.
  eexists. split; [done|]. split; cbn; try done.
  - eapply OInv_mono; [exact Hown| |apply Hown|done|done].
    intros v (q & w & Hq & Hw & Hv). cbn in *. exists q, w. split; [|done]. by apply elem_of_remove_first in Hq.
  - intros id' wp' [_ Hid']%lookup_delete_Some. by apply Hwk.
  - intros wp' Hq. rewrite elem_of_remove_first_NoDup in Hq by done. destruct Hq as [Hq Hne].
    destruct (Hqu wp' Hq) as (w & Hw & Hreg). exists w. split; [done|].
    rewrite lookup_delete_ne; [done|]. congruence.
  - by apply NoDup_remove_first.
  - destruct Hwork as [->|?]; [by left|by right].
  - by rewrite Hc.
Qed.

Lemma AddUser_Inv T ws hd user :
  Inv None (mkSys T ws hd) -> users T !! user = None ->
  Inv None (mkSys (AddUser T user) ws hd).
Proof.
  intros HI Hu. pose proof HI as [Hwf Hch Hown Hus Hjb Hfl Hwk Hqu Hnd Hws Hwork Hcl]. cbn in *.
  unfold AddUser. destruct (closed T) eqn:Hc; [done|].
  match goal with |- context [mkUser user ?x false None] => set (stride := x) end.
  assert (Hold : forall up u, uheap T !! up = Some u ->
    (uheap T ++ [mkUser user stride false None]) !! up = Some u).
  { intros up u Hup. by apply lookup_app_l_Some. }
  split; cbn; try done.
  - intros id up. rewrite lookup_insert. case_decide as Hd.
    + intros [= <-]. eexists. split; [rewrite lookup_app_r, Nat.sub_diag by lia; done|]. done.
    + intros Hup. destruct (Hus id up Hup) as (u & Huu & Hrest). exists u. by split; [apply Hold|].
  - intros k j Hj. destruct (Hjb k j Hj) as (u & Huu & Hreg & Hrest). exists u.
    split; [by apply Hold|]. rewrite lookup_insert_ne; [done|]. congruence.
  - intros id wp Hid. destruct (Hwk id wp Hid) as (w & Hw & Hwid & Hsv). exists w.
    split; [done|]. split; [done|]. intros up Hup. destruct (Hsv up Hup) as (u & Huu & Hcase).
    exists u. split; [by apply Hold|done].
  - by rewrite Hc.
Qed.

(** Taking the job of [user] out of the schedule, its channel resolved. *)
Lemma DeleteUser_Inv T ws hd user :
  Inv None (mkSys T ws hd) ->
  exists T', DeleteUser T user = Ret T' /\ Inv None (mkSys T' ws hd).
Proof.
  intros HI. pose proof HI as [Hwf Hch Hown Hus Hjb Hfl Hwk Hqu Hnd Hws Hwork Hcl]. cbn in *.
  unfold DeleteUser. destruct (closed T) eqn:Hc; [eauto|].
  destruct (users T !! user) as [up|] eqn:Hup; [|eauto].
  destruct (Hus user up Hup) as (u & Hu & Huid & Hsc). cbn. rewrite Hu. cbn.
  assert (Hother : forall k j, jobs T !! k = Some j -> k <> Stride u \/ Scheduled u = false ->
    exists u, uheap T !! jUser j = Some u /\ delete user (users T) !! uID u = Some (jUser j) /\
      Stride u = k /\ Scheduled u = true /\ ws !! uID u = Some (Ready j)).
  { intros k j Hj Hk. destruct (Hjb k j Hj) as (u' & Hu' & Hreg & HS & HSc & Hwt). exists u'.
    split; [done|]. split; [|done]. rewrite lookup_delete_ne; [done|]. intros Heq.
    rewrite <- Heq, Hup in Hreg. injection Hreg as Hreg. rewrite <- Hreg, Hu in Hu'.
    injection Hu' as <-. destruct Hk; congruence. }
  destruct (Scheduled u) eqn:HS.
  - destruct (Hsc eq_refl) as (j & Hj & Hju).
    rewrite (om_get_ok (schedule T)) by done. fold (jobs T). rewrite Hj.
    destruct (close_spec _ _ _ (Ready j) Hch) as (ch & -> & HCI & Hfl'); [by eexists _, j|]. cbn.
    destruct (om_delete_ok (schedule T) (Stride u) Hwf) as (sch' & -> & Hwf' & Habs). cbn.
    eexists. split; [done|].
    match goal with |- Inv None (mkSys ?X _ _) => set (T' := X) end.
    assert (Hjobs : jobs T' = delete (Stride u) (jobs T)) by exact Habs.
    split; cbn [sch waits held]; rewrite ?Hjobs; try done.
    + eapply CInv_proper; [|exact HCI]. by apply (pending_delete None (mkSys T ws hd) _ (Stride u) j).
    + eapply OInv_mono; [exact Hown|done|apply Hown|done|]. intros t v. unfold flight. cbn. by rewrite Hfl'.
    + cbn. intros id up' [Hne Hup']%lookup_delete_Some. destruct (Hus id up' Hup') as (u' & Hu' & Huid' & Hsc').
      exists u'. split; [done|]. split; [done|]. intros HS'. destruct (Hsc' HS') as (j' & Hj' & Hju').
      exists j'. split; [|done]. rewrite lookup_delete_ne; [done|]. intros Heq. apply Hne. congruence.
    + intros k j' [Hk Hj']%lookup_delete_Some. apply Hother; [done|]. by left.
    + intros k [j' [_ Hj']%lookup_delete_Some]. apply Hfl. eauto.
    + cbn. intros id wp Hid. destruct (Hwk id wp Hid) as (w & Hw & Hwid & Hsv). exists w.
      split; [done|]. split; [done|]. intros up' Hup'. destruct (Hsv up' Hup') as (u' & Hu' & Hcase).
      exists u'. split; [done|]. destruct Hcase as [?|[Hf|[? _]]]; [by left| |done].
      right; left. by apply Hfl'.
    + cbn. destruct Hwork as [?|He]; [by left|right]. by rewrite He, delete_empty.
    + cbn. by rewrite Hc.
  - eexists. split; [done|]. split; cbn; try done.
    + intros id up' [Hne Hup']%lookup_delete_Some. by apply Hus.
    + intros k j Hj. apply Hother; [done|]. by right.
    + by rewrite Hc.
Qed.

(** *** Acquire *)

Lemma find_slot_spec (m : M) fuel stride :
  om_wf m -> (forall k, is_Some (om_abs m !! k) -> k < stride + Z.of_nat fuel) ->
  exists k, find_slot fuel m stride = Ret k /\ stride <= k /\ om_abs m !! k = None /\
    forall k', stride <= k' < k -> is_Some (om_abs m !! k').
Proof.
  intros Hwf. revert stride. induction fuel as [|fuel IH]; intros stride Hb; cbn [find_slot];
    rewrite om_get_ok by done; destruct (om_abs m !! stride) as [j|] eqn:Hj.
  - specialize (Hb stride). rewrite Hj in Hb. specialize (Hb ltac:(eauto)). lia.
  - exists stride. repeat split; try done; lia.
  - destruct (IH (stride + 1)) as (k & -> & Hk & Hnone & Hfull).
    { intros k Hk. specialize (Hb k Hk). lia. }
    exists k. split; [done|]. split; [lia|]. split; [done|]. intros k' Hk'.
    destruct (decide (k' = stride)) as [->|]; [by rewrite Hj; eauto|]. apply Hfull. lia.
  - exists stride. repeat split; try done; lia.
Qed.

Lemma slot_found (m : M) stride :
  om_wf m ->
  exists k, find_slot (slot_fuel m stride) m stride = Ret k /\ stride <= k /\ om_abs m !! k = None /\
    forall k', stride <= k' < k -> is_Some (om_abs m !! k').
Proof.
  intros Hwf. apply find_slot_spec; [done|]. unfold slot_fuel.
  pose proof (om_max_ok m Hwf) as Hmax. destruct (om_max m) as [[k j]|]; cbn in Hmax.
  - intros k' Hk'. destruct Hmax as [_ Hmax]. specialize (Hmax k' Hk'). lia.
  - intros k'. rewrite Hmax, lookup_empty. by intros [? ?].
Qed.

Lemma acquire_idle_Inv T ws hd user up wp q now :
  Inv None (mkSys T ws hd) -> ws !! user = None -> users T !! user = Some up ->
  queue T = q ++ [wp] ->
  exists w, wheap T !! wp = Some w /\
  Inv None (mkSys (set_wheap (set_uheap (set_queue T q) (alter (assign wp) up (uheap T)))
                             (alter (employ (Some up) now) wp (wheap T))) ws (lend (wID w) user hd)).
Proof.
  intros HI Hws0 Hup Hq. pose proof HI as [Hwf Hch Hown Hus Hjb Hfl Hwk Hqu Hnd Hws Hwork Hcl]. cbn in *.
  destruct (Hqu wp) as (w & Hw & Hreg); [rewrite Hq; set_solver|].
  destruct (Hus user up Hup) as (u & Hu & Huid & _).
  assert (Hidle : idle (mkSys T ws hd) (wID w)).
  { exists wp, w. cbn. rewrite Hq. split; [set_solver|done]. }
  assert (Hnil : wID w <> Nil) by (intros Heq; rewrite Heq in Hidle; by apply (oi_nil_idle _ _ _ Hown)).
  assert (He : jobs T = ∅) by (destruct Hwork as [Hx|?]; [by rewrite Hx in Hq; destruct q|done]).
  rewrite Hq in Hnd. apply NoDup_app in Hnd as (Hnd & Hdis & _).
  exists w. split; [done|].
  assert (Hlend : lend (wID w) user hd = (wID w, user) :: hd) by (unfold lend; by rewrite decide_False).
  match goal with |- Inv None (mkSys ?X _ _) => set (T' := X) end.
  assert (Hjobs : jobs T' = ∅) by exact He.
  split; cbn [sch waits held]; rewrite ?Hjobs; try done.
  - rewrite fmap_lend. eapply OInv_take; [exact Hown|exact Hidle|].
    intros x (q' & wq & Hqq & Hwq & Hx). cbn in *.
    apply alter_lookup_inv in Hwq as (wq' & Hwq' & ->).
    rewrite decide_False in Hx by (intros <-; apply (Hdis wp); set_solver). subst x.
    split; [exists q', wq'; cbn; rewrite Hq; set_solver|].
    intros Heq. destruct (Hqu q') as (w2 & Hw2 & Hreg2); [rewrite Hq; set_solver|].
    apply (Hdis q'); [done|]. apply list_elem_of_singleton. congruence.
  - intros id up' Hup'. destruct (Hus id up' Hup') as (u' & Hu' & Huid' & Hsc).
    exists (if decide (up = up') then assign wp u' else u'). cbn.
    split; [by apply alter_lookup|]. case_decide; cbn; (split; [done|]);
      intros HS; destruct (Hsc HS) as (j & Hj & _); by rewrite He, lookup_empty in Hj.
  - intros k [j Hj]. by rewrite lookup_empty in Hj.
  - intros id wp' Hid. destruct (Hwk id wp' Hid) as (w' & Hw' & Hwid & Hsv).
    exists (if decide (wp = wp') then employ (Some up) now w' else w').
    split; [by apply alter_lookup|]. case_decide as Hd; cbn; (split; [done|]).
    + intros up' [= <-]. exists (assign wp u). cbn. split.
      { rewrite (alter_lookup _ _ _ _ u) by done. by rewrite decide_True. }
      left. rewrite Hlend. replace id with (wID w) by congruence. rewrite Huid. by left.
    + intros up' Hup'. eapply (serving_alter _ (mkSys T ws hd) _ (assign wp) up); [by apply Hsv|done|done|..];
        [|done|done]. cbn. rewrite Hlend. intros ? ?. by right.
  - intros wp' Hq'. destruct (Hqu wp') as (w' & Hw' & Hreg'); [rewrite Hq; cbn in Hq'; set_solver|].
    exists (if decide (wp = wp') then employ (Some up) now w' else w').
    split; [by apply alter_lookup|]. by case_decide.
  - intros user' c Hc. rewrite Hlend. cbn. rewrite not_elem_of_cons. split; [congruence|by eapply Hws].
  - by right.
  - cbn. intros Hc. destruct (Hcl Hc) as (Hx & _). by rewrite Hx, lookup_empty in Hup.
Qed.

Lemma acquire_wait_Inv T ws hd user up u k m ch c :
  Inv None (mkSys T ws hd) -> ws !! user = None -> user ∉ hd.*2 -> closed T = false ->
  users T !! user = Some up -> uheap T !! up = Some u -> queue T = [] ->
  get_chan (chans T) = (c, ch) -> floor T <= k -> jobs T !! k = None ->
  om_wf m -> om_abs m = <[k := mkJob up c]> (jobs T) ->
  Inv None (mkSys (set_waiting (set_uheap (set_schedule (set_chans T ch) m)
                    (alter (enqueue k) up (uheap T))) true) (<[user := c]> ws) hd).
Proof.
  intros HI Hws0 Hnh Hnc Hup Hu Hq Hg Hk Hnone Hwfm Habs.
  pose proof HI as [Hwf Hch Hown Hus Hjb Hfl Hwk Hqu Hnd Hws Hwork Hcl]. cbn in *.
  pose proof (get_chan_spec _ _ _ user Hch Hws0) as Hgs. rewrite Hg in Hgs.
  destruct Hgs as (Hnp & HCI & Hfl').
  destruct (Hus user up Hup) as (u0 & Hu0 & Huid & _). assert (u0 = u) as -> by congruence.
  match goal with |- Inv None (mkSys ?X _ _) => set (T' := X) end.
  assert (Hjobs : jobs T' = <[k := mkJob up c]> (jobs T)) by exact Habs.
  split; cbn [sch waits held]; rewrite ?Hjobs; try done.
  - eapply CInv_proper; [|exact HCI]. intros x. unfold pending. rewrite Hjobs. split.
    + intros [->|(k' & j' & Hj' & <-)]; [exists k, (mkJob up c); by rewrite lookup_insert_eq|].
      exists k', j'. rewrite lookup_insert_ne by congruence. done.
    + intros (k' & j' & Hj' & <-). rewrite lookup_insert in Hj'. case_decide; [left; by simplify_eq|eauto].
  - eapply OInv_mono; [exact Hown|done|apply Hown|done|]. intros t v. apply Hfl'.
  - intros id up' Hup'. destruct (Hus id up' Hup') as (u' & Hu' & Huid' & Hsc).
    exists (if decide (up = up') then enqueue k u' else u').
    split; [by apply alter_lookup|]. case_decide as Hd; cbn; (split; [done|]); intros HS.
    + subst up'. exists (mkJob up c). by rewrite lookup_insert_eq.
    + destruct (Hsc HS) as (j & Hj & Hju). exists j. rewrite lookup_insert_ne; [done|]. congruence.
  - intros k' j. rewrite lookup_insert. case_decide as Hd.
    + intros [= <-]. subst k'. exists (enqueue k u). cbn. split.
      { rewrite (alter_lookup _ _ _ _ u) by done. by rewrite decide_True. }
      rewrite Huid, lookup_insert_eq. done.
    + intros Hj. destruct (Hjb k' j Hj) as (u' & Hu' & Hreg & HS & HSc & Hwt).
      assert (Hne : uID u' <> user) by congruence. exists u'. cbn. split.
      { rewrite (alter_lookup _ _ _ _ u') by done. rewrite decide_False; [done|]. congruence. }
      rewrite lookup_insert_ne by done. done.
  - intros k'. rewrite lookup_insert. case_decide; [by subst|]. apply Hfl.
  - intros id wp Hid. destruct (Hwk id wp Hid) as (w & Hw & Hwid & Hsv). exists w.
    split; [done|]. split; [done|]. intros up' Hup'.
    eapply (serving_alter _ (mkSys T ws hd) _ (enqueue k) up); [by apply Hsv|done|done|done|..]; [|done].
    intros t Ht. by apply Hfl'.
  - intros user' c'. rewrite lookup_insert. case_decide; [by subst|]. apply Hws.
  - by left.
  - cbn. by rewrite Hnc.
Qed.

Lemma acquire_Inv T ws hd user now :
  Inv None (mkSys T ws hd) -> ws !! user = None -> user ∉ hd.*2 ->
  exists r T', acquire T user now = Ret (r, T') /\
    match r with
    | inl v => Inv None (mkSys T' ws (lend v user hd))
    | inr c => Inv None (mkSys T' (<[user := c]> ws) hd)
    end.
Proof.
  intros HI Hws0 Hnh. unfold acquire.
  destruct (closed T) eqn:Hnc; [by eexists _, _|].
  destruct (users T !! user) as [up|] eqn:Hup; [|by eexists _, _].
  destruct (si_users _ _ HI user up Hup) as (u & Hu & _). cbn in Hu.
  destruct (last (queue T)) as [wp|] eqn:Hlast.
  - apply last_Some in Hlast as [q Hq].
    assert (Htake : take (length (queue T) - 1) (queue T) = q).
    { rewrite Hq, length_app. cbn. replace (length q + 1 - 1)%nat with (length q) by lia.
      by rewrite take_app_length. }
    destruct (acquire_idle_Inv T ws hd user up wp q now HI Hws0 Hup Hq) as (w & Hw & HI').
    cbn. rewrite Htake, (alter_lookup _ _ _ _ w) by done. rewrite decide_True by done. cbn.
    by eexists _, _.
  - apply last_None in Hlast. destruct (get_chan (chans T)) as [c ch] eqn:Hg. cbn. rewrite Hu. cbn.
    set (st := if decide (Stride u < floor T) then floor T else Stride u).
    assert (Hst : floor T <= st) by (unfold st; gdecide; lia).
    pose proof (si_wf _ _ HI) as Hwf. cbn in Hwf.
    destruct (slot_found (schedule T) st Hwf) as (k & -> & Hk & Hnone & _). cbn.
    destruct (om_set_ok (schedule T) k (mkJob up c) Hwf) as (m & -> & Hwfm & Habs). cbn.
    eexists _, _. split; [done|]. eapply acquire_wait_Inv; eauto; lia.
Qed.

(** *** The timer *)

Lemma pending_user ex s user c :
  Inv ex s -> waits s !! user = Some c -> pending (sch s) c ->
  exists up u j, users (sch s) !! user = Some up /\ uheap (sch s) !! up = Some u /\
    jobs (sch s) !! Stride u = Some j /\ jUser j = up /\ Ready j = c.
Proof.
  intros HI Hw (k & j & Hj & <-). destruct (si_jobs _ _ HI k j Hj) as (u & Hu & Hreg & <- & _ & Hw').
  assert (uID u = user) as <- by (by eapply (ci_inj _ _ _ (si_chan _ _ HI))).
  eauto 10.
Qed.

(** The timer takes the user's own job out. *)
Lemma cancel_Inv T ws hd user up u m j :
  Inv None (mkSys T ws hd) -> users T !! user = Some up -> uheap T !! up = Some u ->
  jobs T !! Stride u = Some j -> jUser j = up -> om_wf m -> om_abs m = delete (Stride u) (jobs T) ->
  ws !! user = Some (Ready j) /\
  Inv None (mkSys (set_chans (set_schedule (set_uheap T (alter dequeue up (uheap T))) m)
                    (put_chan (chans T) (Ready j))) (delete user ws) hd).
Proof.
  intros HI Hup Hu Hj Hju Hwfm Habs.
  pose proof HI as [Hwf Hch Hown Hus Hjb Hfl Hwk Hqu Hnd Hws Hwork Hcl]. cbn in *.
  destruct (Hus user up Hup) as (u0 & Hu0 & Huid & _). assert (u0 = u) as -> by congruence.
  assert (Hw : ws !! user = Some (Ready j)).
  { destruct (Hjb _ _ Hj) as (u' & Hu' & _ & _ & _ & Hw). congruence. }
  split; [done|].
  destruct (cancel_spec _ _ _ user (Ready j) Hch Hw) as [HCI Hfl']; [by exists (Stride u), j|].
  match goal with |- Inv None (mkSys ?X _ _) => set (T' := X) end.
  assert (Hjobs : jobs T' = delete (Stride u) (jobs T)) by exact Habs. subst up.
  split; cbn [sch waits held]; rewrite ?Hjobs; try done.
  - eapply CInv_proper; [|exact HCI]. by apply (pending_delete None (mkSys T ws hd) _ (Stride u) j).
  - eapply OInv_mono; [exact Hown|done|apply Hown|done|]. intros t v. apply Hfl'.
  - by apply (users_after_pop None (mkSys T ws hd)).
  - intros k' j' Hj'. destruct (jobs_after_pop None (mkSys T ws hd) dequeue _ _ HI Hj k' j' Hj')
      as (u' & Hu' & Hreg & HS & HSc & Hwt). exists u'. cbn in *.
    split; [done|]. split; [done|]. split; [done|]. split; [done|].
    rewrite lookup_delete_ne; [done|]. intros Heq.
    apply lookup_delete_Some in Hj' as [Hk Hj'0]. apply Hk.
    eapply (job_ready_inj None (mkSys T ws hd)); eauto. rewrite <- Heq in Hwt. congruence.
  - intros k [j' [_ Hj']%lookup_delete_Some]. apply Hfl. eauto.
  - intros id wp Hid. destruct (Hwk id wp Hid) as (w & Hww & Hwid & Hsv). exists w.
    split; [done|]. split; [done|]. intros up' Hup'.
    eapply (serving_alter _ (mkSys T ws hd) _ dequeue (jUser j)); [by apply Hsv|done|done|done|..]; [|done].
    intros t Ht. by apply Hfl'.
  - intros user' c [_ Hc]%lookup_delete_Some. by eapply Hws.
  - cbn. destruct Hwork as [?|He]; [by left|right]. by rewrite He, delete_empty.
  - cbn. intros Hc. destruct (Hcl Hc) as (Hx & _). by rewrite Hx, lookup_empty in Hup.
Qed.

Lemma timeout_Inv T ws hd user c now :
  Inv None (mkSys T ws hd) -> ws !! user = Some c -> undisturbed (mkSys T ws hd) user ->
  exists v T', timeout T user c now = Ret (v, T') /\
    Inv None (mkSys T' (delete user ws) (lend v user hd)).
Proof.
  intros HI Hw Hsafe. unfold timeout.
  destruct (users T !! user) as [up|] eqn:Hup.
  - destruct (si_users _ _ HI user up Hup) as (u & Hu & Huid & Hsc). cbn in *. rewrite Hu. cbn.
    pose proof (si_wf _ _ HI) as Hwf. cbn in Hwf.
    specialize (Hsafe up u Hup Hu). cbn in Hsafe. rewrite om_get_ok in Hsafe |- * by done.
    fold (jobs T) in Hsafe |- *.
    destruct (jobs T !! Stride u) as [j|] eqn:Hj.
    + destruct Hsafe as [HS|?]; [|done]. destruct (Hsc HS) as (j' & [= <-] & Hju).
      destruct (om_delete_ok (schedule T) (Stride u) Hwf) as (m & -> & Hwfm & Habs). cbn.
      destruct (cancel_Inv T ws hd user up u m j HI Hup Hu Hj Hju Hwfm Habs) as [Hw' HI'].
      assert (c = Ready j) as -> by congruence. eexists _, _. split; [done|]. exact HI'.
    + assert (Hnp : ~ pending T c).
      { intros Hp. destruct (pending_user _ _ _ _ HI Hw Hp) as (up' & u' & j & Hup' & Hu' & Hj' & _).
        cbn in *. congruence. }
      destruct (recv_Inv _ _ _ _ _ HI Hw Hnp) as (v & ch & -> & HI' & _). eauto.
  - assert (Hnp : ~ pending T c).
    { intros Hp. destruct (pending_user _ _ _ _ HI Hw Hp) as (up' & u' & j & Hup' & _).
      cbn in *. congruence. }
    destruct (recv_Inv _ _ _ _ _ HI Hw Hnp) as (v & ch & -> & HI' & Hv).
    destruct (decide (v = Nil)) as [->|Hd].
    { rewrite decide_False by auto. by eexists _, _. }
    rewrite decide_True by done.
    assert (Hl : lend v user hd = (v, user) :: hd) by (unfold lend; by rewrite decide_False).
    rewrite Hl in HI'.
    destruct (release_Inv _ _ _ v now HI') as (T' & -> & HI''); [cbn; by left|]. cbn.
    eexists _, _. split; [done|]. replace (lend Nil user hd) with (give_back v ((v, user) :: hd)); [done|].
    assert (Hnv : v ∉ hd.*1).
    { pose proof (oi_held _ _ _ (si_own _ _ HI')) as Hnd. cbn in Hnd. by apply NoDup_cons in Hnd as [? _]. }
    unfold give_back. rewrite filter_cons_False by (cbn; auto).
    by apply give_back_absent.
Qed.

(** *** Close *)

Lemma close_jobs_spec fuel (m : M) ch ws :
  om_wf m -> (size (om_abs m) <= fuel)%nat ->
  (forall k k' j j', om_abs m !! k = Some j -> om_abs m !! k' = Some j' -> Ready j = Ready j' -> k = k') ->
  CInv ch ws (fun c => exists k j, om_abs m !! k = Some j /\ Ready j = c) ->
  exists m' ch', close_jobs fuel m ch = Ret (m', ch') /\ om_wf m' /\ om_abs m' = ∅ /\
    CInv ch' ws (fun _ => False) /\ forall t v, in_flight ch' ws t v <-> in_flight ch ws t v.
Proof.
  revert m ch. induction fuel as [|fuel IH]; intros m ch Hwf Hsz Hinj HCI; cbn [close_jobs];
    pose proof (om_min_ok m Hwf) as Hmin; destruct (om_min m) as [[k j]|]; cbn in Hmin.
  2, 4: exists m, ch; split; [done|]; split; [done|]; split; [done|]; split; [|done];
    eapply CInv_proper; [|exact HCI]; intros c; split; [|done];
    intros (k & j & Hk & _); by rewrite Hmin, lookup_empty in Hk.
  - destruct Hmin as [Hk _]. assert (Hz : size (om_abs m) = O) by lia.
    apply map_size_empty_inv in Hz. by rewrite Hz, lookup_empty in Hk.
  - destruct Hmin as [Hk _].
    destruct (om_delete_ok m k Hwf) as (m1 & -> & Hwf1 & Habs). cbn.
    destruct (close_spec _ _ _ (Ready j) HCI) as (ch1 & -> & HCI1 & Hfl1); [by exists k, j|]. cbn.
    destruct (IH m1 ch1) as (m' & ch' & -> & Hwf' & He & HCI' & Hfl'); try done.
    + rewrite Habs, map_size_delete, Hk. lia.
    + rewrite Habs. intros k1 k2 j1 j2 [_ ?]%lookup_delete_Some [_ ?]%lookup_delete_Some. by eapply Hinj.
    + eapply CInv_proper; [|exact HCI1]. intros c. rewrite Habs. split.
      * intros [Hc (k' & j' & Hk' & <-)]. exists k', j'. rewrite lookup_delete_ne by congruence. done.
      * intros (k' & j' & [Hne Hk']%lookup_delete_Some & <-). split; [|eauto].
        intros Heq. apply Hne. by eapply Hinj.
    + exists m', ch'. do 4 (split; [done|]). intros t v. rewrite Hfl'. apply Hfl1.
Qed.

(** There are at most as many jobs as users. *)
Lemma jobs_size ex s : Inv ex s -> (size (jobs (sch s)) <= length (uheap (sch s)))%nat.
Proof.
  intros HI. rewrite <- (length_map_to_list (jobs (sch s))).
  set (l := map_to_list (jobs (sch s))).
  assert (Hl : forall k j, (k, j) ∈ l <-> jobs (sch s) !! k = Some j)
    by (intros; apply elem_of_map_to_list).
  rewrite <- (length_fmap (fun p => jUser p.2)), <- (length_seq (length (uheap (sch s))) 0).
  apply submseteq_length, NoDup_submseteq.
  - apply NoDup_fmap_2_strong; [|apply NoDup_map_to_list].
    intros [k j] [k' j'] Hk%Hl Hk'%Hl Heq. cbn in Heq.
    pose proof (job_user_inj _ _ _ _ _ _ HI Hk Hk' Heq). congruence.
  - intros up ([k j] & -> & Hk%Hl)%list_elem_of_fmap. cbn.
    destruct (si_jobs _ _ HI k j Hk) as (u & Hu & _). apply elem_of_seq.
    apply lookup_lt_Some in Hu. lia.
Qed.

Lemma Close_Inv T ws hd :
  Inv None (mkSys T ws hd) ->
  exists T', Close T = Ret T' /\ Inv None (mkSys T' ws hd) /\ closed T' = true.
Proof.
  intros HI. pose proof HI as [Hwf Hch Hown Hus Hjb Hfl Hwk Hqu Hnd Hws Hwork Hcl]. cbn in *.
  unfold Close. destruct (closed T) eqn:Hc; [eauto|].
  destruct (close_jobs_spec (length (uheap T)) (schedule T) (chans T) ws)
    as (m & ch & -> & Hwfm & He & HCI & Hfl'); try done.
  - apply (jobs_size _ _ HI).
  - intros k k' j j'. apply (job_ready_inj _ _ k k' j j' HI).
  - eexists. split; [done|]. split; [|done].
    match goal with |- Inv None (mkSys ?X _ _) => set (T' := X) end.
    assert (Hjobs : jobs T' = ∅) by exact He.
    split; cbn [sch waits held]; rewrite ?Hjobs; try done.
    + eapply CInv_proper; [|exact HCI]. intros c. split; [done|].
      intros (k & j & Hk & _). by rewrite Hjobs, lookup_empty in Hk.
    + eapply OInv_mono; [exact Hown| |apply Hown|done|].
      * intros v (q & w & Hq & _). cbn in Hq. set_solver.
      * intros t v. apply Hfl'.
    + intros k [j Hk]. by rewrite lookup_empty in Hk.
    + cbn. set_solver.
    + constructor.
    + by left.
Qed.

(** *** Executions *)

Lemma exec_Inv s c :
  Inv None s -> safe s c ->
  exists r, exec s c = Ret r /\ forall s', r = Some s' -> Inv None s'.
Proof.
  intros HI [Hal Hun]. destruct s as [T ws hd], c; cbn in Hal, Hun |- *.
  - destruct Hal. destruct (AddWorker_Inv T ws hd id now) as (T' & -> & HI'); try done.
    eexists. split; [done|]. by intros s' [= <-].
  - destruct (DeleteWorker_Inv T ws hd id HI) as (T' & -> & HI').
    eexists. split; [done|]. by intros s' [= <-].
  - eexists. split; [done|]. intros s' [= <-]. by apply AddUser_Inv.
  - destruct (DeleteUser_Inv T ws hd user HI) as (T' & -> & HI').
    eexists. split; [done|]. by intros s' [= <-].
  - destruct Hal. destruct (acquire_Inv T ws hd user now) as ([v|c] & T' & -> & HI'); try done;
      (eexists; split; [done|]; by intros s' [= <-]).
  - destruct (ws !! user) as [c|] eqn:Hw; [|by eexists].
    destruct (recv_put (chans T) c) as [[v ch]|] eqn:Hr; [|by eexists].
    eexists. split; [done|]. intros s' [= <-].
    assert (Hnp : ~ pending T c).
    { intros Hp. pose proof (CInv_pend_heap _ _ _ _ (si_chan _ _ HI) Hp) as Hh. cbn in Hh.
      unfold recv_put, try_recv in Hr. by rewrite Hh in Hr. }
    destruct (recv_Inv _ _ _ _ _ HI Hw Hnp) as (v' & ch' & Hr' & HI' & _). congruence.
  - destruct (ws !! user) as [c|] eqn:Hw; [|by eexists].
    destruct (timeout_Inv T ws hd user c now HI Hw Hun) as (v & T' & -> & HI').
    eexists. split; [done|]. by intros s' [= <-].
  - unfold Release. destruct (release_Inv T ws hd id now HI Hal) as (T' & -> & HI').
    eexists. split; [done|]. by intros s' [= <-].
  - eexists. split; [done|]. destruct (waiting T); [|done]. intros s' [= <-].
    destruct HI. by split.
  - destruct (Close_Inv T ws hd HI) as (T' & -> & HI' & _).
    eexists. split; [done|]. by intros s' [= <-].
Qed.

Lemma safe_reachable_Inv s : reachable init safe_step s -> Inv None s.
Proof.
  apply invariant_reachable.
  - intros s0 ->. apply sched_Inv_init.
  - intros s0 s' _ HI (c & Hsafe & Hex). destruct (exec_Inv s0 c HI Hsafe) as (r & Hr & HI').
    apply HI'. congruence.
Qed.
End Invariant.

(** *** The floor *)
Section Floor.
Context {M : Type} `{OrderedMapLaws Job M}.
Implicit Types (T : Scheduler M) (s : Sys M).

Lemma hand_over_floor T wp now T' :
  om_wf (schedule T) -> (forall k, is_Some (jobs T !! k) -> floor T <= k) ->
  hand_over T wp now = Ret T' -> floor T <= floor T'.
Proof.
  intros Hwf Hfl. unfold hand_over. pose proof (om_min_ok _ Hwf) as Hmin.
  destruct (om_min (schedule T)) as [[k j]|]; intros Hh; inv_ret; subst; cbn; [|done].
  apply Hfl. destruct Hmin as [Hk _]. eauto.
Qed.

Lemma releaseWorker_floor T wp now T' :
  om_wf (schedule T) -> (forall k, is_Some (jobs T !! k) -> floor T <= k) ->
  releaseWorker T wp now = Ret T' -> floor T <= floor T'.
Proof.
  intros Hwf Hfl Hr. unfold releaseWorker in Hr. inv_ret.
  match goal with H : settle _ _ _ = Ret ?T1 |- _ =>
    assert (schedule T1 = schedule T /\ floor T1 = floor T) as [Hs Hf]
  end.
  { unfold settle in *. inv_ret. case_hyp H1; inv_ret; by subst. }
  rewrite <- Hf. eapply hand_over_floor; [..|exact Hr]; unfold jobs; by rewrite ?Hs, ?Hf.
Qed.

Lemma release_floor T id now T' :
  om_wf (schedule T) -> (forall k, is_Some (jobs T !! k) -> floor T <= k) ->
  release T id now = Ret T' -> floor T <= floor T'.
Proof.
  intros Hwf Hfl. unfold release. destruct (closed T); [intros [= <-]; done|].
  destruct (workers T !! id); [by apply releaseWorker_floor|intros [= <-]; done].
Qed.

Lemma acquire_floor T user now r : acquire T user now = Ret r -> floor r.2 = floor T.
Proof.
  unfold acquire. intros Ha. destruct (closed T); [by injection Ha as <-|].
  destruct (users T !! user); [|by injection Ha as <-].
  destruct (last (queue T)).
  - inv_ret. by subst.
  - destruct (get_chan (chans T)). inv_ret. by subst.
Qed.

Lemma timeout_floor T user c now r :
  om_wf (schedule T) -> (forall k, is_Some (jobs T !! k) -> floor T <= k) ->
  timeout T user c now = Ret r -> floor T <= floor r.2.
Proof.
  intros Hwf Hfl Ht. unfold timeout in Ht. destruct (users T !! user) as [up|].
  - inv_ret. destruct (om_get (schedule T) _); [by inv_ret; subst|].
    destruct (recv_put (chans T) c) as [[v ch]|]; [by inv_ret; subst|done].
  - destruct (recv_put (chans T) c) as [[v ch]|]; [|by inv_ret; subst].
    destruct (decide (v <> Nil)); [|by inv_ret; subst].
    inv_ret. subst. cbn. change (floor T) with (floor (set_chans T ch)). by eapply release_floor.
Qed.

Lemma exec_floor s c s' :
  Inv None s -> exec s c = Ret (Some s') -> floor (sch s) <= floor (sch s').
Proof.
  intros HI Hex. pose proof (si_wf _ _ HI) as Hwf. pose proof (si_floor _ _ HI) as Hfl.
  destruct s as [T ws hd], c; cbn in *.
  - apply ofmap_Ret in Hex as (T' & Ha & [= <-]). unfold AddWorker in Ha.
    destruct (closed T); [by injection Ha as <-|].
    match type of Ha with releaseWorker ?T1 _ _ = _ => change (floor T) with (floor T1) end.
    by eapply releaseWorker_floor.
  - apply ofmap_Ret in Hex as (T' & Ha & [= <-]). unfold DeleteWorker in Ha.
    repeat (case_hyp Ha || inv_ret); by subst.
  - injection Hex as <-. cbn. unfold AddUser. by destruct (closed T).
  - apply ofmap_Ret in Hex as (T' & Ha & [= <-]). unfold DeleteUser in Ha.
    repeat (case_hyp Ha || inv_ret); by subst.
  - apply obind_Ret in Hex as ([r T'] & Ha & Hex). apply acquire_floor in Ha. cbn in *.
    rewrite <- Ha. destruct r; by injection Hex as <-.
  - repeat case_hyp Hex; try done. by injection Hex as <-.
  - destruct (ws !! user); [|done]. apply obind_Ret in Hex as (r & Ht & [= <-]).
    by eapply timeout_floor.
  - apply ofmap_Ret in Hex as (T' & Ha & [= <-]). by eapply release_floor.
  - destruct (waiting T); [by injection Hex as <-|done].
  - apply ofmap_Ret in Hex as (T' & Ha & [= <-]). unfold Close in Ha.
    destruct (closed T); [by injection Ha as <-|]. inv_ret. by subst.
Qed.
End Floor.

(** ** Theorems *)

Module SchedulerTheorems.
Section Theorems.
Context {M : Type} `{OrderedMapLaws Job M}.
Implicit Types (T : Scheduler M) (s : Sys M).

(** C11: In every execution without the lost race of the timer, over any
    implementation of the ordered map, no call of the scheduler panics and
    none blocks forever with the mutex held: each one returns. *)
Theorem scheduler_no_deadlock s (c : call) :
  reachable init safe_step s -> safe s c -> exists r, exec s c = Ret r.
Proof.
  intros Hr Hs. destruct (exec_Inv s c (safe_reachable_Inv s Hr) Hs) as (r & ? & _). eauto.
Qed.


(** No worker is idle while a user waits: the queue or the schedule is
    empty. *)
Theorem scheduler_work_conserving s :
  reachable init safe_step s ->
  queue (sch s) = [] \/ forall k, om_get (schedule (sch s)) k = None.
Proof.
  intros Hr. pose proof (safe_reachable_Inv s Hr) as HI.
  destruct (si_work _ _ HI) as [?|He]; [by left|right].
  intros k. rewrite om_get_ok by apply HI. fold (jobs (sch s)). by rewrite He, lookup_empty.
Qed.

(** No wake-up is lost: a blocked user either has a job of its own in the
    schedule, at its stride and with its channel, or its receive can run. *)
Theorem scheduler_no_lost_wakeup s (user : uuid) (c : nat) :
  reachable init safe_step s -> waits s !! user = Some c ->
  (exists up u, users (sch s) !! user = Some up /\ uheap (sch s) !! up = Some u /\
     om_get (schedule (sch s)) (Stride u) = Some (mkJob up c)) \/
  exists s', exec s (CRecv user) = Ret (Some s').
Proof.
  intros Hr Hw. pose proof (safe_reachable_Inv s Hr) as HI. destruct s as [T ws hd]. cbn in *.
  destruct (try_recv (chans T) c) as [[[v ok] ch]|] eqn:Hrec.
  { right. rewrite Hw. unfold recv_put. rewrite Hrec. eauto. }
  left. destruct (ci_wait _ _ _ (si_chan _ _ HI) user c Hw) as (chn & Hch & Hiff & _). cbn in *.
  unfold try_recv in Hrec. rewrite Hch in Hrec. destruct chn as [[v|] []]; try done.
  destruct (pending_user _ _ _ _ HI Hw) as (up & u & j & Hup & Hu & Hj & Hju & Hjr); [by apply Hiff|].
  exists up, u. split; [done|]. split; [done|]. rewrite om_get_ok by apply HI.
  unfold jobs in Hj. cbn in Hj. rewrite Hj. destruct j. cbn in *. by subst.
Qed.


(** A user that has to wait is entered at the first free slot that is
    neither below its own stride nor below the floor, the slots of the others
    are untouched, and the signal for more workers is raised. *)
Theorem scheduler_acquire_slot s (user : uuid) (now : Z) up u :
  reachable init safe_step s -> safe s (CAcquire user now) ->
  closed (sch s) = false -> queue (sch s) = [] ->
  users (sch s) !! user = Some up -> uheap (sch s) !! up = Some u ->
  exists s' c k, exec s (CAcquire user now) = Ret (Some s') /\ waits s' !! user = Some c /\
    k >= Stride u /\ k >= floor (sch s) /\
    (forall k', Z.max (Stride u) (floor (sch s)) <= k' < k -> is_Some (om_get (schedule (sch s)) k')) /\
    (forall k', om_get (schedule (sch s')) k' =
       if decide (k' = k) then Some (mkJob up c) else om_get (schedule (sch s)) k') /\
    om_get (schedule (sch s)) k = None /\ waiting (sch s') = true.
Proof.
  intros Hr [[Hws Hnh] _] Hnc Hq Hup Hu. pose proof (safe_reachable_Inv s Hr) as HI.
  pose proof (si_wf _ _ HI) as Hwf. destruct s as [T ws hd]. cbn in *.
  unfold acquire. rewrite Hnc, Hup, Hq. cbn. destruct (get_chan (chans T)) as [c ch]. cbn. rewrite Hu. cbn.
  set (st := if decide (Stride u < floor T) then floor T else Stride u).
  assert (Hst : st = Z.max (Stride u) (floor T)) by (unfold st; gdecide; lia).
  destruct (slot_found (schedule T) st Hwf) as (k & -> & Hk & Hnone & Hfull). cbn.
  destruct (om_set_ok (schedule T) k (mkJob up c) Hwf) as (m & -> & Hwfm & Habs). cbn.
  eexists _, c, k. split; [done|]. cbn. split; [by rewrite lookup_insert_eq|].
  split; [lia|]. split; [lia|]. split; [|split; [|split; [|done]]].
  - intros k' Hk'. rewrite om_get_ok by done. apply Hfull. lia.
  - intros k'. rewrite !om_get_ok, Habs by done. gdecide; [subst; by rewrite lookup_insert_eq|].
    by rewrite lookup_insert_ne.
  - by rewrite om_get_ok.
Qed.

(** After Close every blocked call of Acquire can return: no user is left
    waiting on a channel nobody will write to. *)
Theorem scheduler_close_wakes_all s s' (user : uuid) (c : nat) :
  reachable init safe_step s -> exec s CClose = Ret (Some s') -> waits s !! user = Some c ->
  exists s'', exec s' (CRecv user) = Ret (Some s'').
Proof.
  intros Hr Hex Hw. pose proof (safe_reachable_Inv s Hr) as HI. destruct s as [T ws hd].
  destruct (Close_Inv T ws hd HI) as (T' & Hcl & HI' & Hc'). cbn in Hex, Hw. rewrite Hcl in Hex.
  injection Hex as <-. destruct (si_closed _ _ HI' Hc') as (_ & _ & _ & He). cbn in He.
  destruct (recv_Inv T' ws hd user c HI' Hw) as (v & ch & Hrec & _).
  - intros (k & j & Hk & _). by rewrite He, lookup_empty in Hk.
  - cbn. rewrite Hw, Hrec. eauto.
Qed.

(** Virtual time never runs backwards: the floor never decreases, and no
    job is ever scheduled below it, so a user that joins late cannot overtake
    on service it did not wait for. *)
Theorem scheduler_floor_monotone s s' (c : call) :
  reachable init safe_step s -> safe s c -> exec s c = Ret (Some s') ->
  floor (sch s) <= floor (sch s') /\
  forall k, is_Some (om_get (schedule (sch s')) k) -> floor (sch s') <= k.
Proof.
  intros Hr Hs Hex. split.
  - by eapply exec_floor; [apply safe_reachable_Inv|].
  - destruct (exec_Inv s c (safe_reachable_Inv s Hr) Hs) as (r & Hex' & HI).
    assert (HI' : Inv None s') by (apply HI; congruence).
    intros k. rewrite om_get_ok by apply HI'. apply (si_floor _ _ HI').
Qed.
End Theorems.
End SchedulerTheorems.

(** ** Concrete executions, on the red-black tree *)
From S2P Require Import RBTree.

Module SchedulerRuns.
Import SchedulerTheorems.

Definition after (s : Sys (RBTree Job)) (c : call) : Sys (RBTree Job) :=
  match exec s c with Ret (Some s') => s' | _ => s end.

Definition start : Sys (RBTree Job) := Eval vm_compute in mkSys MakeScheduler ∅ [].

(** Users 1, 2 and 3 join, worker 7 is added and lent to 3, and 1 waits. *)
Definition s1 := Eval vm_compute in after start (CAddUser 1).
Definition s2 := Eval vm_compute in after s1 (CAddUser 2).
Definition s3 := Eval vm_compute in after s2 (CAddUser 3).
Definition s4 := Eval vm_compute in after s3 (CAddWorker 7 0).
Definition s5 := Eval vm_compute in after s4 (CAcquire 3 10).
Definition s6 := Eval vm_compute in after s5 (CAcquire 1 11).
(** 3 gives 7 back, which goes to 1, and 2 waits in the slot that 1 left. *)
Definition s7 := Eval vm_compute in after s6 (CRelease 7 15).
Definition s8 := Eval vm_compute in after s7 (CAcquire 2 16).
(** The timer of 1 fires before it has received. *)
Definition s9 := Eval vm_compute in after s8 (CTimeout 1 17).

Lemma safe_is_step s s' : safe_step s s' -> step (M := RBTree Job) s s'.
Proof. intros (c & [Hal _] & Hex). by exists c. Qed.

Lemma safe_after s c s' :
  reachable init safe_step s -> safe s c -> exec s c = Ret (Some s') ->
  reachable init (safe_step (M := RBTree Job)) s'.
Proof. intros Hr Hs Hex. eapply reachable_step; [exact Hr|]. by exists c. Qed.

Ltac by_vm := vm_compute; reflexivity.
Ltac by_bool := apply (bool_decide_unpack _); vm_compute; exact I.

Lemma sched_s3_reachable : reachable init safe_step s3.
Proof.
  assert (H1 : reachable init safe_step s1).
  { apply (safe_after start (CAddUser 1)); [by apply reachable_init|by split; [by_vm|]|by_vm]. }
  assert (H2 : reachable init safe_step s2).
  { apply (safe_after s1 (CAddUser 2)); [exact H1|by split; [by_vm|]|by_vm]. }
  apply (safe_after s2 (CAddUser 3)); [exact H2|by split; [by_vm|]|by_vm].
Qed.

Lemma sched_s4_reachable : reachable init safe_step s4.
Proof.
  apply (safe_after s3 (CAddWorker 7 0)); [apply sched_s3_reachable| |by_vm].
  split; [|exact I]. split; [|by_vm]. split; [discriminate|].
  split; [intros (wp & w & Hq & _); inversion Hq|]. split; [intros Hq; inversion Hq|].
  intros t (c & ch & Hw & _). change (waits s3) with (∅ : gmap nat nat) in Hw.
  by rewrite lookup_empty in Hw.
Qed.

Lemma sched_s5_reachable : reachable init safe_step s5.
Proof.
  apply (safe_after s4 (CAcquire 3 10)); [apply sched_s4_reachable| |by_vm].
  split; [split; [by_vm|by_bool]|exact I].
Qed.

Lemma sched_s6_reachable : reachable init safe_step s6.
Proof.
  apply (safe_after s5 (CAcquire 1 11)); [apply sched_s5_reachable| |by_vm].
  split; [split; [by_vm|by_bool]|exact I].
Qed.

Lemma sched_s7_reachable : reachable init safe_step s7.
Proof.
  apply (safe_after s6 (CRelease 7 15)); [apply sched_s6_reachable| |by_vm].
  split; [cbn [allowed]; by_bool|exact I].
Qed.

Lemma sched_s8_reachable : reachable init safe_step s8.
Proof.
  apply (safe_after s7 (CAcquire 2 16)); [apply sched_s7_reachable| |by_vm].
  split; [split; [by_vm|by_bool]|exact I].
Qed.

Lemma reachable_safe s : reachable init safe_step s -> reachable init (step (M := RBTree Job)) s.
Proof. induction 1; eauto using reachable_init, reachable_step, safe_is_step. Qed.

(** The timer of Acquire can remove the job of another user: it deletes
    whatever job is at the user's stride without checking whose it is.  User 1
    has been served at that stride and has not received yet, user 2 reuses the
    slot, and the timer of 1 deletes the job of 2; when the timer of 2 fires it
    then blocks forever with the scheduler's mutex held. *)
Theorem scheduler_timeout_race :
  exists s : Sys (RBTree Job), reachable init step s /\
    (exists user c, waits s !! user = Some c /\
       (forall k, om_get (schedule (sch s)) k = None) /\ exec s (CRecv user) = Ret None /\
       exec s (CTimeout user 20) = Diverge) /\
    held s = [] /\ queue (sch s) = [].
Proof.
  exists s9. split.
  { eapply reachable_step; [apply reachable_safe, sched_s8_reachable|]. exists (CTimeout 1 17).
    split; [exact I|by_vm]. }
  split; [|split; by_vm]. exists 2%nat, 1%nat. split; [by_vm|]. split; [intros k; reflexivity|].
  split; by_vm.
Qed.

Lemma scheduler_no_deadlock_witness :
  exists r, exec s7 (CTimeout 1 20) = Ret r.
Proof.
  apply (scheduler_no_deadlock s7 (CTimeout 1 20)); [apply sched_s7_reachable|].
  split; [exact I|]. intros up u Hup Hu. vm_compute in Hup. injection Hup as <-.
  vm_compute in Hu. injection Hu as <-. right. by_vm.
Defined.


Lemma scheduler_work_conserving_witness :
  queue (sch s6) = [] \/ forall k, om_get (schedule (sch s6)) k = None.
Proof. apply (scheduler_work_conserving s6). apply sched_s6_reachable. Defined.

Lemma scheduler_no_lost_wakeup_witness :
  (exists up u, users (sch s6) !! 1%nat = Some up /\ uheap (sch s6) !! up = Some u /\
     om_get (schedule (sch s6)) (Stride u) = Some (mkJob up 0)) \/
  exists s', exec s6 (CRecv 1) = Ret (Some s').
Proof. apply (scheduler_no_lost_wakeup s6 1 0); [apply sched_s6_reachable|reflexivity]. Defined.


Lemma scheduler_acquire_slot_witness :
  exists s' c k, exec s6 (CAcquire 2 16) = Ret (Some s') /\ waits s' !! 2%nat = Some c /\ k >= 0.
Proof.
  destruct (scheduler_acquire_slot s6 2 16 1 (mkUser 2 0 false None)) as (s' & c & k & H1 & H2 & H3 & _);
    [apply sched_s6_reachable|split; [split; [reflexivity|by_bool]|done]|reflexivity..|].
  exists s', c, k. auto.
Defined.

Lemma scheduler_close_wakes_all_witness :
  exists s'', exec (after s6 CClose) (CRecv 1) = Ret (Some s'').
Proof.
  apply (scheduler_close_wakes_all s6 (after s6 CClose) 1 0);
    [apply sched_s6_reachable|reflexivity|reflexivity].
Defined.

Lemma scheduler_floor_monotone_witness :
  floor (sch s6) <= floor (sch s7).
Proof.
  refine (proj1 (scheduler_floor_monotone s6 s7 (CRelease 7 15) sched_s6_reachable _ _));
    [split; [cbn [allowed]; by_bool|exact I]|by_vm].
Defined.
End SchedulerRuns.
