(* ===== verification/Poolers.v ===== *)
(** * Poolers: lib/gat/handlers/pool/pooler.go, poolers/rob/pooler.go

    The interface between a server pool and its pooler.  [PoolerState] is what the
    pool relies on: the servers the pooler knows and those it may hand out.
    [PoolerImpl] says that an implementation keeps the set of servers so; the
    last-in first-out pooler (Lifo) and the fair one, which forwards to the
    scheduler (Scheduler), are instances. *)

From Stdlib Require Import ZArith.
From S2P Require Import Prelude.
From S2P Require Import Chan.
From S2P Require Import OrderedMap.
From S2P Require Import Lifo.
From S2P Require Import Scheduler.

Local Open Scope go_scope.

(** ** What the pool relies on a pooler for *)

(** pool.Pooler: the servers it knows, and those that are free. *)
Record PoolerState := mkPoolerState { known : gset uuid; free : gset uuid }.

Definition p_AddServer (id : uuid) (p : PoolerState) := mkPoolerState ({[id]} ∪ known p) ({[id]} ∪ free p).
Definition p_DeleteServer (id : uuid) (p : PoolerState) := mkPoolerState (known p ∖ {[id]}) (free p ∖ {[id]}).
Definition p_Release (id : uuid) (p : PoolerState) :=
  if decide (id ∈ known p) then mkPoolerState (known p) ({[id]} ∪ free p) else p.
Definition p_Acquire (id : uuid) (p : PoolerState) := mkPoolerState (known p) (free p ∖ {[id]}).
Definition p_Close (p : PoolerState) := mkPoolerState ∅ ∅.

(** ** Implementations *)

(** An implementation of pool.Pooler, with the servers it knows.  Calls that
    return do with them what [PoolerState] says. *)
Class PoolerImpl (P : Type) := {
  pi_known : P -> gset uuid;
  pi_AddServer : P -> Z -> uuid -> outcome P;     (* at a time *)
  pi_DeleteServer : P -> uuid -> outcome P;
  pi_Release : P -> Z -> uuid -> outcome P;
  pi_Close : P -> outcome P;
  pi_AddServer_law p t id p' : pi_AddServer p t id = Ret p' -> pi_known p' ⊆ {[id]} ∪ pi_known p;
  pi_DeleteServer_law p id p' : pi_DeleteServer p id = Ret p' -> pi_known p' = pi_known p ∖ {[id]};
  pi_Release_law p t id p' : pi_Release p t id = Ret p' -> pi_known p' = pi_known p;
  pi_Close_law p p' : pi_Close p = Ret p' -> pi_known p' = ∅
}.

(** *** poolers/lifo *)

Lemma lifo_release_servers T id T' : Lifo.release T id = Ret T' -> Lifo.servers T' = Lifo.servers T.
Proof.
  unfold Lifo.release. destruct (decide _); intros Hr; inv_ret; [|by subst].
  destruct (x.1); inv_ret; by subst.
Qed.

#[export] Instance lifo_impl : PoolerImpl Lifo.Pooler.
Proof.
  refine {| pi_known := Lifo.servers;
            pi_AddServer T _ id := Lifo.AddServer T id;
            pi_DeleteServer := Lifo.DeleteServer;
            pi_Release T _ id := Lifo.Release T id;
            pi_Close := Lifo.Close |}.
  - intros p _ id p' Hr. by rewrite (lifo_release_servers _ _ _ Hr).
  - intros p id p' Hr. unfold Lifo.DeleteServer in Hr. inv_ret. by subst.
  - intros p _ id p'. apply lifo_release_servers.
  - intros p p' Hr. unfold Lifo.Close in Hr. inv_ret. by subst.
Defined.

(** *** poolers/rob *)

Module Rob.
Section Rob.
Context {M : Type} `{OrderedMap Job M}.

Definition Pooler : Type := Scheduler.Scheduler M.

Definition NewPooler : Pooler := MakeScheduler.
Definition AddClient (T : Pooler) (id : uuid) : Pooler := AddUser T id.
Definition DeleteClient (T : Pooler) (client : uuid) : outcome Pooler := DeleteUser T client.
Definition AddServer (T : Pooler) (now : Z) (id : uuid) : outcome Pooler := AddWorker T id now.
Definition DeleteServer (T : Pooler) (server : uuid) : outcome Pooler := DeleteWorker T server.
Definition Release (T : Pooler) (now : Z) (server : uuid) : outcome Pooler := Scheduler.Release T server now.
Definition Waiters (T : Pooler) : nat := Scheduler.Waiters T.
Definition Close (T : Pooler) : outcome Pooler := Scheduler.Close T.

(** After Close nothing is known. *)
Definition known (T : Pooler) : gset uuid := if Scheduler.closed T then ∅ else dom (workers T).

Lemma releaseWorker_workers (T T' : Pooler) wp now :
  releaseWorker T wp now = Ret T' -> workers T' = workers T /\ Scheduler.closed T' = Scheduler.closed T.
Proof.
  unfold releaseWorker. intros Hr. inv_ret.
  match goal with H : settle _ _ _ = Ret ?T1 |- _ => assert (workers T1 = workers T /\ Scheduler.closed T1 = Scheduler.closed T) as [E1 E2] end.
  { unfold settle in *. inv_ret. destruct (wUser _); inv_ret; by subst. }
  unfold hand_over in Hr. destruct (om_min _) as [[stride job]|]; inv_ret; subst; simpl; by rewrite <- E1, <- E2.
Qed.
End Rob.
Arguments Pooler : clear implicits.

#[export] Instance rob_impl {M} `{OrderedMap Job M} : PoolerImpl (Pooler M).
Proof.
  refine {| pi_known := known;
            pi_AddServer := AddServer;
            pi_DeleteServer := DeleteServer;
            pi_Release := Release;
            pi_Close := Close |}.
  - intros p t id p'. unfold AddServer, AddWorker, known. destruct (Scheduler.closed p) eqn:Ec; intros Hr.
    + inv_ret. subst. rewrite Ec. set_solver.
    + apply releaseWorker_workers in Hr as [-> ->]. simpl. rewrite Ec, dom_insert_L. done.
  - intros p id p'. unfold DeleteServer, DeleteWorker, known. destruct (Scheduler.closed p) eqn:Ec; intros Hr.
    + inv_ret. subst. rewrite Ec. set_solver.
    + destruct (workers p !! id) as [wp|] eqn:Hw; inv_ret; subst; simpl; rewrite Ec.
      * by rewrite dom_delete_L.
      * symmetry. apply difference_disjoint_L. apply not_elem_of_dom in Hw. set_solver.
  - intros p t id p'. unfold Release, Scheduler.Release, Scheduler.release, known. destruct (Scheduler.closed p) eqn:Ec; intros Hr.
    + inv_ret. subst. by rewrite Ec.
    + destruct (workers p !! id) as [wp|]; [|inv_ret; subst; by rewrite Ec].
      apply releaseWorker_workers in Hr as [-> ->]. by rewrite Ec.
  - intros p p'. unfold Close, Scheduler.Close, known. destruct (Scheduler.closed p) eqn:Ec; intros Hr; inv_ret; subst; [by rewrite Ec|done].
Defined.
End Rob.
