(* ===== verification/Metrics.v ===== *)
(** * Metrics: lib/gat/metrics, spool/server.go, basic/client.go, hybrid/client.go

    What a connection has been doing, for the reports.  A server of a server pool
    and the clients of both kinds of pools keep the same fields ([Tracked]) and
    differ in their peer only: the id of a client, a server, or a server with the
    pool it is from.  Times and durations are integers (nanoseconds); the time of
    a call is its argument. *)

From Stdlib Require Import ZArith.
From S2P Require Import Prelude.
From S2P Require Import Chan.

Local Open Scope Z_scope.

Inductive ConnState :=
| ConnStateIdle
| ConnStateActive
| ConnStateAwaitingServer
| ConnStatePairing
| ConnStateRunningResetQuery.

#[export] Instance ConnState_eq_dec : EqDecision ConnState.
Proof. solve_decision. Defined.

Definition states : list ConnState :=
  [ConnStateIdle; ConnStateActive; ConnStateAwaitingServer; ConnStatePairing; ConnStateRunningResetQuery].

(** An array indexed by states: [[ConnStateCount]time.Duration]. *)
Definition durations : Type := ConnState -> Z.
Definition no_time : durations := fun _ => 0.
Definition add_time (u : durations) (st : ConnState) (d : Z) : durations :=
  fun st' => if decide (st' = st) then u st' + d else u st'.

(** metrics.Conn *)
Record Conn := mkConn {
  Time : Z;
  State : ConnState;
  Peer : uuid;
  Since : Z;
  Utilization : durations;
  TransactionCount : Z
}.

Section Tracked.
Context {P : Type}.

Record Tracked := mkTracked {
  txnCount : Z;
  lastMetricsRead : Z;
  state : ConnState;
  peer : P;
  since : Z;
  util : durations
}.

(** The time in the current state that has not been accounted for. *)
Definition unaccounted (T : Tracked) (now : Z) : Z :=
  if since T <? lastMetricsRead T then now - lastMetricsRead T else now - since T.

Definition SetState (T : Tracked) (now : Z) (st : ConnState) (p : P) : Tracked :=
  mkTracked (txnCount T) (lastMetricsRead T) st p now (add_time (util T) (state T) (unaccounted T now)).

Definition GetState (T : Tracked) : Z * ConnState * P := (since T, state T, peer T).

Definition TransactionComplete (T : Tracked) : Tracked :=
  mkTracked (txnCount T + 1) (lastMetricsRead T) (state T) (peer T) (since T) (util T).

Definition ReadMetrics (peer_id : P -> uuid) (T : Tracked) (now : Z) : Conn * Tracked :=
  (mkConn now (state T) (peer_id (peer T)) (since T)
     (add_time (util T) (state T) (unaccounted T now)) (txnCount T),
   mkTracked 0 now (state T) (peer T) (since T) no_time).
End Tracked.
Arguments Tracked : clear implicits.

(** The zero time is before every other. *)
Definition new_tracked {P} (p : P) (now : Z) : Tracked P := mkTracked 0 0 ConnStateIdle p now no_time.

(** *** spool.Server: the peer is a client's id *)
Record Server := mkServer { ID : uuid; Server_Conn : nat; tracked : Tracked uuid }.

Definition NewServer (id : uuid) (conn : nat) (now : Z) : Server := mkServer id conn (new_tracked Nil now).

Definition Server_SetState (T : Server) (now : Z) (st : ConnState) (p : uuid) : Server :=
  mkServer (ID T) (Server_Conn T) (SetState (tracked T) now st p).
Definition Server_ReadMetrics (T : Server) (now : Z) : Conn * Server :=
  let r := ReadMetrics (fun p => p) (tracked T) now in (r.1, mkServer (ID T) (Server_Conn T) r.2).

(** *** basic.Client: the peer is a server, or nil *)
Record BasicClient := mkBasicClient { basic_ID : uuid; basic_tracked : Tracked (option Server) }.

Definition server_id (p : option Server) : uuid := match p with Some s => ID s | None => Nil end.

Definition NewBasicClient (id : uuid) (now : Z) : BasicClient := mkBasicClient id (new_tracked None now).
Definition Basic_SetState (T : BasicClient) (now : Z) (st : ConnState) (p : option Server) : BasicClient :=
  mkBasicClient (basic_ID T) (SetState (basic_tracked T) now st p).
Definition Basic_ReadMetrics (T : BasicClient) (now : Z) : Conn * BasicClient :=
  let r := ReadMetrics server_id (basic_tracked T) now in (r.1, mkBasicClient (basic_ID T) r.2).

(** *** hybrid.Client: and whether it is a replica *)
Record HybridClient := mkHybridClient { hybrid_ID : uuid; hybrid_tracked : Tracked (option Server * bool) }.

Definition NewHybridClient (id : uuid) (now : Z) : HybridClient := mkHybridClient id (new_tracked (None, false) now).
Definition Hybrid_SetState (T : HybridClient) (now : Z) (st : ConnState) (p : option Server) (replica : bool) : HybridClient :=
  mkHybridClient (hybrid_ID T) (SetState (hybrid_tracked T) now st (p, replica)).
Definition Hybrid_ReadMetrics (T : HybridClient) (now : Z) : Conn * HybridClient :=
  let r := ReadMetrics (fun p => server_id p.1) (hybrid_tracked T) now in (r.1, mkHybridClient (hybrid_ID T) r.2).

(** ** metrics.Pool *)

Record PoolMetrics := mkPoolMetrics { Servers : gmap uuid Conn; Clients : gmap uuid Conn }.

Definition transactions (m : gmap uuid Conn) : Z := map_fold (fun _ c n => n + TransactionCount c) 0 m.
Definition Pool_TransactionCount (T : PoolMetrics) : Z := Z.max (transactions (Clients T)) (transactions (Servers T)).

Definition connStateCounts (items : gmap uuid Conn) (st : ConnState) : nat :=
  map_fold (fun _ c n => if decide (State c = st) then S n else n) 0%nat items.

(** ** What the reports add up to *)

Inductive event (P : Type) :=
| ESet (now : Z) (st : ConnState) (p : P)
| ERead (now : Z)
| EDone.
Arguments ESet {P}.
Arguments ERead {P}.
Arguments EDone {P}.

Definition event_time {P} (t : Z) (e : event P) : Z :=
  match e with ESet now _ _ | ERead now => now | EDone => t end.

(** Run the events; the reports, oldest first. *)
Fixpoint play {P} (pid : P -> uuid) (T : Tracked P) (es : list (event P)) : list Conn * Tracked P :=
  match es with
  | [] => ([], T)
  | ESet now st p :: es => play pid (SetState T now st p) es
  | EDone :: es => play pid (TransactionComplete T) es
  | ERead now :: es =>
      let r := ReadMetrics pid T now in
      let q := play pid r.2 es in (r.1 :: q.1, q.2)
  end.

(** Times do not go back. *)
Fixpoint in_order {P} (t : Z) (es : list (event P)) : Prop :=
  match es with
  | [] => True
  | e :: es => t <= event_time t e /\ in_order (event_time t e) es
  end.

Definition last_time {P} (t : Z) (es : list (event P)) : Z := foldl event_time t es.

Definition total (u : durations) : Z := foldr Z.add 0 (u <$> states).
Definition reported (l : list Conn) : Z := foldr Z.add 0 ((fun c => total (Utilization c)) <$> l).
Definition count_done {P} (es : list (event P)) : Z :=
  foldr (fun e n => match e with EDone => 1 + n | _ => n end) 0 es.

#[local] Arguments unaccounted : simpl never.
#[local] Arguments reported : simpl never.
#[local] Arguments total : simpl never.

Lemma total_add u st d : total (add_time u st d) = total u + d.
Proof. unfold total, add_time. destruct st; simpl; lia. Qed.

Lemma total_none : total no_time = 0.
Proof. done. Qed.

Lemma reported_cons c l : reported (c :: l) = total (Utilization c) + reported l.
Proof. done. Qed.

Lemma unaccounted_max {P} (T : Tracked P) now : unaccounted T now = now - Z.max (since T) (lastMetricsRead T).
Proof. unfold unaccounted. destruct (Z.ltb_spec (since T) (lastMetricsRead T)); lia. Qed.

Lemma play_total {P} (pid : P -> uuid) es T t :
  0 <= since T <= t -> 0 <= lastMetricsRead T <= t -> in_order t es ->
  let q := play pid T es in
  reported q.1 + total (util q.2) + unaccounted q.2 (last_time t es) = total (util T) + unaccounted T t + (last_time t es - t) /\
  0 <= since q.2 <= last_time t es /\ 0 <= lastMetricsRead q.2 <= last_time t es.
Proof.
  revert T t. induction es as [|[now st p|now|] es IH]; intros T t Hs Hl Ho; simpl in *.
  - split; [|done]. unfold reported, last_time. simpl. lia.
  - destruct Ho as [Ht Ho]. destruct (IH (SetState T now st p) now) as [E Hrest]; simpl; try lia; [done|].
    split; [|done]. unfold last_time in *. simpl in *. rewrite E, total_add, !unaccounted_max. simpl. lia.
  - destruct Ho as [Ht Ho]. destruct (IH (ReadMetrics pid T now).2 now) as [E Hrest]; simpl; try lia; [done|].
    split; [|done]. rewrite reported_cons. unfold last_time in *. cbn [foldl event_time] in *.
    rewrite !unaccounted_max in *. cbn [Utilization util since lastMetricsRead ReadMetrics fst snd] in *.
    rewrite total_add. rewrite total_none in E. lia.
  - destruct Ho as [_ Ho]. destruct (IH (TransactionComplete T) t) as [E Hrest]; simpl; try lia; done.
Qed.

Lemma play_count {P} (pid : P -> uuid) es T :
  let q := play pid T es in
  foldr (fun c n => TransactionCount c + n) 0 q.1 + txnCount q.2 = txnCount T + count_done es.
Proof.
  revert T. induction es as [|[now st p|now|] es IH]; intros T; cbn [play].
  - unfold count_done. simpl. lia.
  - by rewrite IH.
  - cbn [fst snd foldr]. rewrite <- Z.add_assoc, IH. by cbn [ReadMetrics fst snd TransactionCount txnCount].
  - rewrite IH. unfold count_done. cbn [foldr txnCount TransactionComplete]. lia.
Qed.

Module MetricsTheorems.
(** No time and no transaction is lost or reported twice: whatever states a
    connection goes through and whenever it is asked for a report, the times in
    all reports, with what is still pending, add up to the time since the
    connection was made, and the transactions in the reports are those
    completed. *)
Theorem metrics_conserved {P} (pid : P -> uuid) p created es :
  0 < created -> in_order created es ->
  let q := play pid (new_tracked p created) es in
  reported q.1 + total (util q.2) + unaccounted q.2 (last_time created es) = last_time created es - created /\
  foldr (fun c n => TransactionCount c + n) 0 q.1 + txnCount q.2 = count_done es.
Proof.
  intros Hc Ho. destruct (play_total pid es (new_tracked p created) created) as [E _]; simpl; try lia; [done|].
  split; [|exact (play_count pid es (new_tracked p created))].
  simpl in E. rewrite E, total_none, unaccounted_max. simpl. lia.
Qed.

Lemma metrics_conserved_witness :
  in_order 5 [ESet 7 ConnStateActive 1%nat; EDone; ERead 9; ESet 12 ConnStateIdle 0%nat; ERead 20] /\
  reported (play (fun x => x) (new_tracked 0%nat 5)
    [ESet 7 ConnStateActive 1%nat; EDone; ERead 9; ESet 12 ConnStateIdle 0%nat; ERead 20]).1 = 15.
Proof.
  split; [simpl; lia|].
  destruct (metrics_conserved (fun x => x) 0%nat 5 [ESet 7 ConnStateActive 1%nat; EDone; ERead 9; ESet 12 ConnStateIdle 0%nat; ERead 20])
    as [E _]; [lia|simpl; lia|].
  vm_compute in E. by vm_compute.
Defined.
End MetricsTheorems.
