(* ===== verification/Wire.v ===== *)
(** * Wire: lib/fed/encoder.go, lib/fed/decoder.go, lib/fed/packet.go

    The buffered encoder and decoder of the PostgreSQL wire protocol.  The
    underlying [io.Writer] and [io.Reader] are code outside the repository:
    classes [Writer] and [Reader] with what their documentation promises as
    laws ([WriterLaws], [ReaderLaws]).

    Both are state monads with errors ([io]).  A fixed buffer of
    [defaultBufferSize] bytes with its positions is modelled by its live part:
    [buffer[:bufferPos]] for the encoder; [buffer[bufferRead:bufferWrite]] and
    [bufferRead] for the decoder.  Writing past the end of the array is
    [Panic].

    The loops that wait for the stream take fuel ([fuel] of the section
    Decoder): a [Reader] that keeps returning no bytes and no error would keep
    them running.  Under the laws one step of fuel per byte is enough.

    [sent] is what an encoder has been given so far, [avail] what a decoder
    will deliver: the theorems say that the operations are exactly
    concatenation on these, however the buffers and the chunks of the stream
    fall. *)

From Stdlib Require Import Init.Byte Strings.Byte.
From coqutil Require Import Byte Word.LittleEndianList.
From S2P Require Import Prelude.

Local Open Scope Z_scope.
Local Open Scope go_scope.

(** A perror.Error: severity, SQL state, message, and further fields. *)
Record PgError := mkPgError {
  Severity : list byte;
  SqlState : list byte;
  Message : list byte;
  Extra : list (byte * list byte)
}.

Inductive error :=
| EOF                        (* io.EOF *)
| ErrUnexpectedEOF           (* io.ErrUnexpectedEOF *)
| ErrWrongNumberOfBytes
| ErrOverranReadBuffer
| ErrUnexpectedPacket
| ErrInvalidFormat
| ErrUnexpectedType (t : byte)  (* backends.ErrUnexpectedPacket(t) *)
| ErrExpectedIdle            (* backends.ErrExpectedIdle *)
| ErrPg (e : PgError)        (* a perror.Error *)
| ErrOther (n : nat).        (* any other error of the connection *)

#[export] Instance byte_EqDecision : EqDecision byte := Byte.byte_eq_dec.

#[export] Instance PgError_eq_dec : EqDecision PgError.
Proof. solve_decision. Defined.

#[export] Instance error_eq_dec : EqDecision error.
Proof. solve_decision. Defined.

(** ** Errors and state *)

Definition io (S A : Type) : Type := S -> outcome ((error + A) * S).

Definition ret {S A} (a : A) : io S A := fun s => Ret (inr a, s).
Definition throw {S A} (e : error) : io S A := fun s => Ret (inl e, s).

(** [x, err = m(); if err != nil { return }; k] *)
Definition andthen {S A B} (m : io S A) (k : A -> io S B) : io S B := fun s =>
  let! r := m s in
  match r.1 with
  | inl e => Ret (inl e, r.2)
  | inr a => k a r.2
  end.

Declare Scope io_scope.
Delimit Scope io_scope with io.
Notation "'do' x <- m ; k" := (andthen m (fun x => k))
  (at level 200, x pattern, m at level 100, k at level 200) : io_scope.
Notation "m ;; k" := (andthen m (fun _ => k)) (at level 100, right associativity) : io_scope.
Local Open Scope io_scope.

Definition defaultBufferSize : nat := 4096.

(** ** Integers on the wire: encoding/binary.BigEndian *)

Definition be (n : nat) (z : Z) : list byte := rev (le_split n z).
Definition of_be (bs : list byte) : Z := le_combine (rev bs).

(** Go's integer conversions. *)
Definition uwrap (w z : Z) : Z := z mod 2 ^ w.
Definition swrap (w z : Z) : Z := (z + 2 ^ (w - 1)) mod 2 ^ w - 2 ^ (w - 1).

Lemma length_be n z : length (be n z) = n.
Proof. unfold be. by rewrite length_rev, length_le_split. Qed.

Lemma of_be_be n z : of_be (be n z) = z mod 2 ^ (8 * Z.of_nat n).
Proof. unfold of_be, be. rewrite rev_involutive, le_combine_split. f_equal. f_equal. lia. Qed.

Lemma uwrap_id w z : 0 <= z < 2 ^ w -> uwrap w z = z.
Proof. intros Hz. by apply Z.mod_small. Qed.

Lemma swrap_uwrap w z : 0 < w -> - 2 ^ (w - 1) <= z < 2 ^ (w - 1) -> swrap w (uwrap w z) = z.
Proof.
  intros Hw Hz. unfold swrap, uwrap. assert (2 ^ w = 2 * 2 ^ (w - 1)).
  { rewrite <- Z.pow_succ_r by lia. f_equal. lia. }
  rewrite Z.add_mod_idemp_l by lia. rewrite Z.mod_small; lia.
Qed.

(** ** io.Writer *)

(** [n, err := w.Write(p)]; the encoder does not use [n]. *)
Class Writer (W : Type) := Write : W -> list byte -> W * option error.

(** "Write must return a non-nil error if it returns n < len(p)": without an
    error all bytes are written. *)
Class WriterLaws (W : Type) `{Writer W} := {
  written : W -> list byte;
  write_ok w p w' : Write w p = (w', None) -> written w' = written w ++ p
}.

Module Enc.
Section Encoder.
Context {W : Type} `{Writer W}.

Record Encoder := mkEncoder {
  buffer : list byte;        (* buffer[:bufferPos] *)
  writer : W;
  packetType : byte;
  packetLength : Z;
  packetPos : Z
}.

Definition set_buffer (T : Encoder) b := mkEncoder b (writer T) (packetType T) (packetLength T) (packetPos T).

Definition NewEncoder (w : W) : Encoder := mkEncoder [] w x00 0 0.

Definition Reset (w : W) (T : Encoder) : Encoder :=
  mkEncoder [] w (packetType T) (packetLength T) (packetPos T).

Definition Flush : io Encoder unit := fun T =>
  match buffer T with
  | [] => Ret (inr tt, T)
  | b =>
      let '(w, err) := Write (writer T) b in
      let T := mkEncoder [] w (packetType T) (packetLength T) (packetPos T) in
      Ret (match err with Some e => inl e | None => inr tt end, T)
  end.

(** [if T.bufferPos+n > len(T.buffer) { Flush }] *)
Definition reserve (n : nat) : io Encoder unit := fun T =>
  if decide (defaultBufferSize < length (buffer T) + n)%nat then Flush T else Ret (inr tt, T).

(** Storing at [T.buffer[T.bufferPos:]] and advancing [T.bufferPos]. *)
Definition put (bs : list byte) : io Encoder unit := fun T =>
  if decide (length (buffer T) + length bs <= defaultBufferSize)%nat
  then Ret (inr tt, set_buffer T (buffer T ++ bs))
  else Panic.

(** [T.packetPos += n] *)
Definition advance (n : Z) (T : Encoder) : Encoder :=
  mkEncoder (buffer T) (writer T) (packetType T) (packetLength T) (packetPos T + n).

Definition writeByte (b : byte) : io Encoder unit := reserve 1 ;; put [b].

Definition WriteByte (b : byte) : io Encoder unit := fun T =>
  if decide (packetPos T <> packetLength T) then Ret (inl ErrWrongNumberOfBytes, T)
  else writeByte b (mkEncoder (buffer T) (writer T) x00 0 0).

Definition Next (typ : byte) (length : Z) : io Encoder unit := fun T =>
  if decide (packetPos T <> packetLength T) then Ret (inl ErrWrongNumberOfBytes, T)
  else
    ((if decide (typ <> x00) then writeByte typ else ret tt) ;;
     reserve 4 ;;
     put (be 4 (uwrap 32 (length + 4))) ;;
     (fun T => Ret (inr tt, mkEncoder (buffer T) (writer T) typ length 0))) T.

(** [Type], [Length] and [Position] are the fields. *)

Definition Uint8 (v : Z) : io Encoder unit := fun T =>
  let! r := writeByte (byte.of_Z v) T in Ret (r.1, advance 1 r.2).

Definition Uint16 (v : Z) : io Encoder unit :=
  reserve 2 ;; put (be 2 v) ;; (fun T => Ret (inr tt, advance 2 T)).
Definition Uint32 (v : Z) : io Encoder unit :=
  reserve 4 ;; put (be 4 v) ;; (fun T => Ret (inr tt, advance 4 T)).
Definition Uint64 (v : Z) : io Encoder unit :=
  reserve 8 ;; put (be 8 v) ;; (fun T => Ret (inr tt, advance 8 T)).

Definition Int8 (v : Z) : io Encoder unit := Uint8 (uwrap 8 v).
Definition Int16 (v : Z) : io Encoder unit := Uint16 (uwrap 16 v).
Definition Int32 (v : Z) : io Encoder unit := Uint32 (uwrap 32 v).
Definition Int64 (v : Z) : io Encoder unit := Uint64 (uwrap 64 v).

(** [for len(v) > 0 { ... }]: [copy] fills the rest of the buffer. *)
Fixpoint string_loop (fuel : nat) (v : list byte) : io Encoder unit := fun T =>
  match v, fuel with
  | [], _ => Ret (inr tt, T)
  | _, O => Diverge
  | _, S fuel =>
      let n := Nat.min (defaultBufferSize - length (buffer T)) (length v) in
      let T := advance (Z.of_nat n) (set_buffer T (buffer T ++ take n v)) in
      let v := drop n v in
      if decide (defaultBufferSize <= length (buffer T))%nat
      then (Flush ;; string_loop fuel v) T
      else string_loop fuel v T
  end.

(** An iteration copies at least one byte unless the buffer is full on entry. *)
Definition String (v : list byte) : io Encoder unit :=
  string_loop (S (length v)) v ;;
  writeByte x00 ;;
  (fun T => Ret (inr tt, advance 1 T)).
End Encoder.
Arguments Encoder W : clear implicits.
Arguments mkEncoder {W}.
Arguments buffer {W}.
Arguments writer {W}.
Arguments packetType {W}.
Arguments packetLength {W}.
Arguments packetPos {W}.
End Enc.

(** ** io.Reader *)

(** [n, err := r.Read(p)] with [len(p)] and the bytes read. *)
Class Reader (R : Type) := Read : R -> nat -> R * (list byte * option error).

(** A stream: Read delivers the next bytes of [stream], at most as many as
    asked for, and as long as there are some it delivers at least one and no
    error. *)
Class ReaderLaws (R : Type) `{Reader R} := {
  stream : R -> list byte;
  read_length r n r' bs err : Read r n = (r', (bs, err)) -> (length bs <= n)%nat;
  read_stream r n r' bs err : Read r n = (r', (bs, err)) -> stream r = bs ++ stream r';
  read_progress r n r' bs err :
    Read r n = (r', (bs, err)) -> (0 < n)%nat -> stream r <> [] -> err = None /\ bs <> []
}.

Module Dec.
Section Decoder.
Context {R : Type} `{Reader R} (fuel : nat).

Record Decoder := mkDecoder {
  pending : list byte;       (* buffer[bufferRead:bufferWrite] *)
  bufferRead : nat;
  reader : R;
  packetType : byte;
  packetLength : Z;
  packetPos : Z
}.

Definition bufferWrite (T : Decoder) : nat := bufferRead T + length (pending T).

Definition Reset (r : R) (T : Decoder) : Decoder := mkDecoder [] 0 r (packetType T) 0 0.

Definition NewDecoder (r : R) : Decoder := mkDecoder [] 0 r x00 0 0.

(** [T.packetPos += n] *)
Definition advance (n : Z) (T : Decoder) : Decoder :=
  mkDecoder (pending T) (bufferRead T) (reader T) (packetType T) (packetLength T) (packetPos T + n).

(** [T.bufferRead += n; if T.bufferRead == T.bufferWrite { both = 0 }] *)
Definition consume (n : nat) (T : Decoder) : Decoder :=
  let rest := drop n (pending T) in
  mkDecoder rest (match rest with [] => 0 | _ => bufferRead T + n end) (reader T)
    (packetType T) (packetLength T) (packetPos T).

Definition refill (T : Decoder) : option error * Decoder :=
  if decide (defaultBufferSize <= bufferWrite T)%nat then (None, T)
  else
    let '(r, (bs, err)) := Read (reader T) (defaultBufferSize - bufferWrite T) in
    (err, mkDecoder (pending T ++ bs) (bufferRead T) r (packetType T) (packetLength T) (packetPos T)).

(** As written, the loop refills once more after the last byte has been
    discarded if that byte was the last one in the buffer. *)
Fixpoint discard_loop (fuel : nat) (n : nat) : io Decoder unit := fun T =>
  match n, fuel with
  | O, _ => Ret (inr tt, T)
  | _, O => Diverge
  | _, S fuel =>
      let again n T :=
        match refill T with
        | (Some e, T) => Ret (inl e, T)
        | (None, T) => discard_loop fuel n T
        end in
      if decide (bufferWrite T <> 0)%nat then
        let count := Nat.min n (length (pending T)) in
        let T := consume count T in
        if decide (pending T = []) then again (n - count)%nat T else Ret (inr tt, T)
      else again n T
  end.

Definition discard (n : nat) : io Decoder unit := discard_loop fuel n.

(** [n, err = T.read(b)] with [len(b)]: the bytes and the error. *)
Definition read (len : nat) (T : Decoder) : list byte * option error * Decoder :=
  if decide (len = 0)%nat then ([], None, T)
  else if decide (bufferWrite T <> 0)%nat then (take len (pending T), None, consume len T)
  else if decide (defaultBufferSize < len)%nat then
    let '(r, (bs, err)) := Read (reader T) len in
    (bs, err, mkDecoder (pending T) (bufferRead T) r (packetType T) (packetLength T) (packetPos T))
  else
    let '(err, T) := refill T in
    (take len (pending T), err, consume len T).

Fixpoint readFull_loop (fuel : nat) (len : nat) (acc : list byte) (T : Decoder)
    : outcome (list byte * option error * Decoder) :=
  if decide (length acc < len)%nat then
    match fuel with
    | O => Diverge
    | S fuel =>
        let '(bs, err, T) := read (len - length acc) T in
        let acc := acc ++ bs in
        match err with
        | Some EOF => Ret (acc, Some (match acc with [] => EOF | _ => ErrUnexpectedEOF end), T)
        | Some e => Ret (acc, Some e, T)
        | None => readFull_loop fuel len acc T
        end
    end
  else Ret (acc, None, T).

Definition readFull (len : nat) : io Decoder (list byte) := fun T =>
  let! r := readFull_loop fuel len [] T in
  Ret (match r.1.2 with Some e => inl e | None => inr r.1.1 end, r.2).

(** [n, err = T.Read(b)] with [len(b)]. *)
Definition ReadPacket (len : nat) (T : Decoder) : outcome (list byte * option error * Decoder) :=
  let rem := packetLength T - packetPos T in
  if decide (rem = 0) then Ret ([], Some EOF, T)
  else if decide (rem < Z.of_nat len /\ rem < 0) then Panic     (* b[:rem] *)
  else
    let '(bs, err, T) := read (if decide (rem < Z.of_nat len) then Z.to_nat rem else len) T in
    Ret (bs, err, advance (Z.of_nat (length bs)) T).

Definition Buffered (T : Decoder) : nat := bufferWrite T - bufferRead T.

(** The rest of the current packet is skipped. *)
Definition skip_rest : io Decoder unit := fun T =>
  let rem := packetLength T - packetPos T in
  if decide (rem < 0) then Ret (inl ErrOverranReadBuffer, T)
  else if decide (0 < rem) then discard (Z.to_nat rem) T
  else Ret (inr tt, T).

Definition ReadByte : io Decoder byte :=
  skip_rest ;;
  (fun T => Ret (inr tt, mkDecoder (pending T) (bufferRead T) (reader T) x00 0 0)) ;;
  do b <- readFull 1;
  ret (nth 0 b x00).

Definition Next (typed : bool) : io Decoder unit :=
  skip_rest ;;
  do b <- (if typed then readFull 5
           else do b <- readFull 4; ret (x00 :: b));
  (fun T => Ret (inr tt, mkDecoder (pending T) (bufferRead T) (reader T)
                           (nth 0 b x00) (of_be (drop 1 b) - 4) 0)).

(** An integer of [n] bytes; the position advances on errors too. *)
Definition uint (n : nat) : io Decoder Z := fun T =>
  let! r := readFull n T in
  Ret (match r.1 with inl e => inl e | inr bs => inr (of_be bs) end, advance (Z.of_nat n) r.2).

Definition Uint8 : io Decoder Z := uint 1.
Definition Uint16 : io Decoder Z := uint 2.
Definition Uint32 : io Decoder Z := uint 4.
Definition Uint64 : io Decoder Z := uint 8.

Definition Int8 : io Decoder Z := do v <- Uint8; ret (swrap 8 v).
Definition Int16 : io Decoder Z := do v <- Uint16; ret (swrap 16 v).
Definition Int32 : io Decoder Z := do v <- Uint32; ret (swrap 32 v).
Definition Int64 : io Decoder Z := do v <- Uint64; ret (swrap 64 v).

(** [for i, v := range b { if v == 0 { ... i ... } }] *)
Fixpoint index_zero (b : list byte) : option nat :=
  match b with
  | [] => None
  | v :: b => if decide (v = x00) then Some 0%nat else S <$> index_zero b
  end.

(** [builder] holds what has been read; on an error or at the terminator the
    position advances by its length. *)
Fixpoint string_loop (fuel : nat) (builder : list byte) : io Decoder (list byte) := fun T =>
  match fuel with
  | O => Diverge
  | S fuel =>
      match refill T with
      | (Some e, T) => Ret (inl e, advance (Z.of_nat (length builder)) T)
      | (None, T) =>
          match index_zero (pending T) with
          | Some i =>
              let res := builder ++ take i (pending T) in
              Ret (inr res, advance (Z.of_nat (length res) + 1) (consume (S i) T))
          | None =>
              string_loop fuel (builder ++ pending T) (consume (length (pending T)) T)
          end
      end
  end.

Definition String : io Decoder (list byte) := fun T =>
  match (if decide (bufferWrite T = 0)%nat then refill T else (None, T)) with
  | (Some e, T) => Ret (inl e, T)
  | (None, T) =>
      match index_zero (pending T) with
      | Some i =>
          Ret (inr (take i (pending T)), advance (Z.of_nat i + 1) (consume (S i) T))
      | None =>
          string_loop fuel (pending T) (consume (length (pending T)) T)
      end
  end.
End Decoder.
Arguments Decoder R : clear implicits.
Arguments mkDecoder {R}.
Arguments pending {R}.
Arguments bufferRead {R}.
Arguments reader {R}.
Arguments packetType {R}.
Arguments packetLength {R}.
Arguments packetPos {R}.
End Dec.

(** ** packet.go: relaying a packet without decoding it *)
Module Relay.
Section Relay.
Context {W R : Type} `{Writer W} `{Reader R}.
Notation state := (Enc.Encoder W * Dec.Decoder R)%type.

(** [Encoder.ReadFrom(r *Decoder)]; [n] is the number of bytes moved so far. *)
Fixpoint ReadFrom_loop (fuel : nat) (n : nat) (s : state) : outcome ((error + nat) * state) :=
  match fuel with
  | O => Diverge
  | S fuel =>
      let '(e, d) := s in
      let! r := (if decide (defaultBufferSize <= length (Enc.buffer e))%nat then Enc.Flush e
                 else Ret (inr tt, e)) in
      match r.1 with
      | inl err => Ret (inl err, (Enc.advance (Z.of_nat n) r.2, d))
      | inr _ =>
          let e := r.2 in
          let! rd := Dec.ReadPacket (defaultBufferSize - length (Enc.buffer e)) d in
          let '(bs, err, d) := rd in
          let e := Enc.set_buffer e (Enc.buffer e ++ bs) in
          let n := (n + length bs)%nat in
          match err with
          | Some EOF =>
              Ret (if decide (n = 0)%nat then inl ErrUnexpectedEOF else inr n,
                   (Enc.advance (Z.of_nat n) e, d))
          | Some err => Ret (inl err, (Enc.advance (Z.of_nat n) e, d))
          | None => ReadFrom_loop fuel n (e, d)
          end
      end
  end.

Definition ReadFrom (fuel : nat) (s : state) : outcome ((error + nat) * state) :=
  ReadFrom_loop fuel 0 s.

(** PendingPacket.WriteTo *)
Fixpoint WriteTo (fuel : nat) (s : state) : outcome ((error + unit) * state) :=
  if decide (Dec.packetPos s.2 < Dec.packetLength s.2) then
    match fuel with
    | O => Diverge
    | S fuel' =>
        let! r := ReadFrom fuel s in
        match r.1 with
        | inl e => Ret (inl e, r.2)
        | inr _ => WriteTo fuel' r.2
        end
    end
  else Ret (inr tt, s).
End Relay.
End Relay.

(** ** Specifications: the encoder *)
Section EncoderSpec.
Context {W : Type} `{WriterLaws W}.
Implicit Types T : Enc.Encoder W.

(** Everything the encoder was given: written out, or still in the buffer. *)
Definition sent T : list byte := written (Enc.writer T) ++ Enc.buffer T.

Definition einv T : Prop := (length (Enc.buffer T) <= defaultBufferSize)%nat.

Definition same_packet T T' : Prop :=
  Enc.packetType T' = Enc.packetType T /\ Enc.packetLength T' = Enc.packetLength T.

(** The error is one the writer returned. *)
Definition writer_error (e : error) : Prop := exists w p w', Write w p = (w', Some e).

(** [m] returns; unless the writer fails it appends [bs] and advances the
    position by [n]. *)
Definition emits (m : io (Enc.Encoder W) unit) (bs : list byte) (n : Z) : Prop :=
  forall T, einv T -> exists r T', m T = Ret (r, T') /\ einv T' /\
    match r with
    | inl e => writer_error e
    | inr _ => sent T' = sent T ++ bs /\ Enc.packetPos T' = Enc.packetPos T + n /\ same_packet T T'
    end.

Lemma emits_ret : emits (ret tt) [] 0.
Proof.
  intros T HT. eexists _, T. split; [done|]. split; [done|]. cbn. rewrite app_nil_r.
  split; [done|]. split; [lia|done].
Qed.

Lemma emits_andthen m k bs bs' n n' :
  emits m bs n -> emits k bs' n' -> emits (m ;; k) (bs ++ bs') (n + n').
Proof.
  intros Hm Hk T HT. destruct (Hm T HT) as (r & T1 & HmT & HT1 & Hr). unfold andthen. rewrite HmT. cbn.
  destruct r as [e|u]; [by eexists _, _|].
  destruct (Hk T1 HT1) as (r' & T2 & HkT & HT2 & Hr'). rewrite HkT. eexists _, _. split; [done|].
  split; [done|]. destruct r' as [e|u']; [done|].
  destruct Hr as (Hs & Hp & Hsp & Hsl), Hr' as (Hs' & Hp' & Hsp' & Hsl').
  rewrite Hs', Hs, Hp', Hp, <- app_assoc. split; [done|]. split; [lia|].
  split; congruence.
Qed.

Lemma emits_eq m bs bs' n n' : emits m bs n -> bs = bs' -> n = n' -> emits m bs' n'.
Proof. by intros ? <- <-. Qed.

Lemma Flush_spec T : einv T -> exists r T', Enc.Flush T = Ret (r, T') /\ Enc.buffer T' = [] /\
  match r with
  | inl e => writer_error e
  | inr _ => sent T' = sent T /\ Enc.packetPos T' = Enc.packetPos T /\ same_packet T T'
  end.
Proof.
  intros HT. unfold Enc.Flush. destruct (Enc.buffer T) as [|b bs] eqn:Hb.
  { eexists _, T. split; [done|]. split; [done|]. done. }
  destruct (Write (Enc.writer T) (b :: bs)) as [w err] eqn:Hw.
  eexists _, _. split; [done|]. split; [done|]. destruct err as [e|].
  - by exists (Enc.writer T), (b :: bs), w.
  - split; [|done]. unfold sent. cbn. by rewrite (write_ok _ _ _ Hw), Hb, app_nil_r.
Qed.

Lemma reserve_spec n T : einv T -> (n <= defaultBufferSize)%nat ->
  exists r T', Enc.reserve n T = Ret (r, T') /\ (length (Enc.buffer T') + n <= defaultBufferSize)%nat /\
  match r with
  | inl e => writer_error e
  | inr _ => sent T' = sent T /\ Enc.packetPos T' = Enc.packetPos T /\ same_packet T T'
  end.
Proof.
  intros HT Hn. unfold Enc.reserve. case_decide as Hd.
  - destruct (Flush_spec T HT) as (r & T' & -> & Hb & Hr). exists r, T'. split; [done|].
    split; [rewrite Hb; cbn; lia|done].
  - eexists _, T. split; [done|]. split; [lia|done].
Qed.

(** Make room, store, advance. *)
Lemma emits_store bs n k :
  length bs = k -> (k <= defaultBufferSize)%nat ->
  emits (Enc.reserve k ;; Enc.put bs ;; (fun T => Ret (inr tt, Enc.advance n T))) bs n.
Proof.
  intros Hk Hle T HT. unfold andthen. destruct (reserve_spec k T HT Hle) as (r & T' & -> & Hroom & Hr).
  cbn. destruct r as [e|u]; cbn; [eexists _, T'; split; [done|]; split; [unfold einv; lia|done]|].
  unfold Enc.put. rewrite decide_True by lia. cbn. eexists _, _. split; [done|].
  destruct Hr as (Hs & Hp & Hsp). split; [unfold einv; cbn; len_lia|].
  unfold sent in *. cbn. rewrite app_assoc, Hs, Hp. done.
Qed.

Lemma emits_writeByte b : emits (Enc.writeByte b) [b] 0.
Proof.
  intros T HT. unfold Enc.writeByte, andthen.
  destruct (reserve_spec 1 T HT ltac:(unfold defaultBufferSize; lia)) as (r & T' & -> & Hroom & Hr).
  cbn. destruct r as [e|u]; cbn; [eexists _, T'; split; [done|]; split; [unfold einv; lia|done]|].
  unfold Enc.put. rewrite decide_True by (cbn; lia). eexists _, _. split; [done|].
  destruct Hr as (Hs & Hp & Hsp). split; [unfold einv; cbn; len_lia|].
  unfold sent in *. cbn. rewrite app_assoc, Hs, Hp. split; [done|]. split; [lia|done].
Qed.

Lemma emits_Uint8 v : emits (Enc.Uint8 v) [byte.of_Z v] 1.
Proof.
  intros T HT. unfold Enc.Uint8. destruct (emits_writeByte (byte.of_Z v) T HT) as (r & T' & -> & HT' & Hr).
  cbn. eexists _, _. split; [done|]. split; [done|]. destruct r as [e|u]; [done|].
  destruct Hr as (Hs & Hp & Hsp). split; [exact Hs|]. split; [|exact Hsp].
  cbn. lia.
Qed.

Lemma emits_Uint16 v : emits (Enc.Uint16 v) (be 2 v) 2.
Proof. apply emits_store; [apply length_be|unfold defaultBufferSize; lia]. Qed.
Lemma emits_Uint32 v : emits (Enc.Uint32 v) (be 4 v) 4.
Proof. apply emits_store; [apply length_be|unfold defaultBufferSize; lia]. Qed.
Lemma emits_Uint64 v : emits (Enc.Uint64 v) (be 8 v) 8.
Proof. apply emits_store; [apply length_be|unfold defaultBufferSize; lia]. Qed.
Lemma emits_Int16 v : emits (Enc.Int16 v) (be 2 (uwrap 16 v)) 2.
Proof. apply emits_Uint16. Qed.
Lemma emits_Int32 v : emits (Enc.Int32 v) (be 4 (uwrap 32 v)) 4.
Proof. apply emits_Uint32. Qed.
Lemma emits_Int64 v : emits (Enc.Int64 v) (be 8 (uwrap 64 v)) 8.
Proof. apply emits_Uint64. Qed.

Lemma string_loop_spec fuel v T :
  einv T -> (length v < fuel + (if decide (defaultBufferSize <= length (Enc.buffer T)) then 0 else 1))%nat ->
  exists r T', Enc.string_loop fuel v T = Ret (r, T') /\ einv T' /\
    match r with
    | inl e => writer_error e
    | inr _ => sent T' = sent T ++ v /\ Enc.packetPos T' = Enc.packetPos T + Z.of_nat (length v) /\
        same_packet T T'
    end.
Proof.
  revert v T. induction fuel as [|fuel IH]; intros [|b v] T HT Hf; cbn [Enc.string_loop].
  1, 3: eexists _, T; split; [done|]; split; [done|]; cbn; rewrite app_nil_r; repeat split; try done; lia.
  { cbn [length] in Hf. case_decide; lia. }
  set (n := Nat.min (defaultBufferSize - length (Enc.buffer T)) (length (b :: v))).
  set (T1 := Enc.advance (Z.of_nat n) (Enc.set_buffer T (Enc.buffer T ++ take n (b :: v)))).
  assert (Hn : (n <= length (b :: v))%nat) by (unfold n; lia).
  assert (Hn2 : (n <= defaultBufferSize - length (Enc.buffer T))%nat) by (unfold n; lia).
  assert (Hlen1 : length (Enc.buffer T1) = (length (Enc.buffer T) + n)%nat).
  { unfold T1. cbn [Enc.advance Enc.buffer Enc.set_buffer]. rewrite length_app, length_take. lia. }
  assert (HT1 : einv T1) by (unfold einv in *; rewrite Hlen1; lia).
  assert (Hs1 : sent T1 = sent T ++ take n (b :: v)) by (unfold sent, T1; cbn; by rewrite app_assoc).
  assert (Hfin : forall T2, einv T2 -> sent T2 = sent T1 -> Enc.packetPos T2 = Enc.packetPos T1 ->
    same_packet T1 T2 ->
    (length (drop n (b :: v)) < fuel + (if decide (defaultBufferSize <= length (Enc.buffer T2)) then 0 else 1))%nat ->
    exists r T', Enc.string_loop fuel (drop n (b :: v)) T2 = Ret (r, T') /\ einv T' /\
      match r with
      | inl e => writer_error e
      | inr _ => sent T' = sent T ++ b :: v /\
          Enc.packetPos T' = Enc.packetPos T + Z.of_nat (length (b :: v)) /\ same_packet T T'
      end).
  { intros T2 HT2 Hs2 Hp2 Hsp2 Hf2. destruct (IH _ T2 HT2 Hf2) as (r & T' & -> & HT' & Hr).
    exists r, T'. split; [done|]. split; [done|]. destruct r; [done|].
    destruct Hr as (Hs & Hp & Hsp). split.
    - by rewrite Hs, Hs2, Hs1, <- app_assoc, take_drop.
    - split; [rewrite Hp, Hp2; unfold T1; cbn [Enc.advance Enc.packetPos Enc.set_buffer]; rewrite length_drop; lia|].
      destruct Hsp as [? ?], Hsp2 as [? ?]. unfold T1 in *. cbn in *. split; congruence. }
  rewrite length_drop in Hfin.
  destruct (decide (defaultBufferSize <= length (Enc.buffer T1))%nat) as [Hd|Hd].
  - unfold andthen. destruct (Flush_spec T1 HT1) as (r & T2 & -> & Hb2 & Hr). cbn [obind fst snd].
    destruct r as [e|u]; [eexists _, T2; split; [done|]; split; [unfold einv; rewrite Hb2; cbn; lia|done]|].
    destruct Hr as (Hs2 & Hp2 & Hsp2). apply Hfin; try done; [unfold einv; rewrite Hb2; cbn; lia|].
    rewrite Hb2. cbn [length]. rewrite decide_False by (unfold defaultBufferSize; lia).
    case_decide; cbn [length] in *; lia.
  - apply Hfin; try done. rewrite decide_False by lia.
    case_decide; unfold n in *; cbn [length] in *; lia.
Qed.

Lemma emits_String v : emits (Enc.String v) (v ++ [x00]) (Z.of_nat (length v) + 1).
Proof.
  unfold Enc.String. apply emits_andthen.
  - intros T HT. destruct (string_loop_spec (S (length v)) v T HT) as (r & T' & -> & HT' & Hr).
    { case_decide; lia. }
    eauto.
  - intros T HT. unfold andthen. destruct (emits_writeByte x00 T HT) as (r & T' & -> & HT' & Hr).
    cbn. destruct r as [e|u]; cbn; [by eexists _, _|].
    eexists _, _. split; [done|]. split; [done|]. destruct Hr as (Hs & Hp & Hsp).
    split; [exact Hs|]. split; [cbn; lia|exact Hsp].
Qed.
End EncoderSpec.

#[export] Hint Resolve emits_ret emits_Uint8 emits_Uint16 emits_Uint32 emits_Uint64
  emits_Int16 emits_Int32 emits_Int64 emits_String : pggat.

(** ** Specifications: the decoder *)
Section DecoderSpec.
Context {R : Type} `{ReaderLaws R} (fuel : nat).
Implicit Types T : Dec.Decoder R.

(** Everything the decoder will deliver: buffered, or still to come. *)
Definition avail T : list byte := Dec.pending T ++ stream (Dec.reader T).

Definition dinv T : Prop :=
  (Dec.bufferWrite T <= defaultBufferSize)%nat /\ (Dec.pending T = [] -> Dec.bufferRead T = 0%nat).

(** The header fields and the position are untouched. *)
Definition same_header T T' : Prop :=
  Dec.packetType T' = Dec.packetType T /\ Dec.packetLength T' = Dec.packetLength T /\
  Dec.packetPos T' = Dec.packetPos T.

Lemma same_header_trans T T' T'' : same_header T T' -> same_header T' T'' -> same_header T T''.
Proof. intros (? & ? & ?) (? & ? & ?). repeat split; congruence. Qed.

Lemma consume_spec n T :
  dinv T -> dinv (Dec.consume n T) /\ same_header T (Dec.consume n T) /\
  avail T = take n (Dec.pending T) ++ avail (Dec.consume n T).
Proof.
  intros [Hw Hr]. unfold Dec.consume, avail, dinv, Dec.bufferWrite in *. cbn.
  split; [|split; [done|by rewrite app_assoc, take_drop]].
  destruct (drop n (Dec.pending T)) as [|b l] eqn:Hd; [split; [cbn; lia|done]|].
  split; [|done]. pose proof (f_equal length Hd) as Hl. rewrite length_drop in Hl. cbn in *. lia.
Qed.

Lemma refill_spec T :
  dinv T -> Dec.pending T = [] -> avail T <> [] ->
  exists T', Dec.refill T = (None, T') /\ dinv T' /\ same_header T T' /\
    avail T' = avail T /\ Dec.pending T' <> [].
Proof.
  intros [Hw Hr] Hp Ha. unfold Dec.refill.
  assert (Hbw : Dec.bufferWrite T = 0%nat) by (unfold Dec.bufferWrite; by rewrite Hp, (Hr Hp)).
  rewrite Hbw, decide_False by (unfold defaultBufferSize; lia).
  unfold avail in Ha. rewrite Hp in Ha. cbn in Ha.
  destruct (Read (Dec.reader T) (defaultBufferSize - 0)) as [r' [bs err]] eqn:HR.
  destruct (read_progress _ _ _ _ _ HR) as [-> Hbs]; [unfold defaultBufferSize; lia|done|].
  pose proof (read_length _ _ _ _ _ HR) as Hlen. pose proof (read_stream _ _ _ _ _ HR) as Hst.
  eexists. split; [done|]. unfold dinv, avail, Dec.bufferWrite. cbn. rewrite Hp, (Hr Hp), Hst. cbn.
  split; [split; [lia|done]|]. done.
Qed.

Lemma read_spec len T :
  dinv T -> (0 < len)%nat -> avail T <> [] ->
  exists bs T', Dec.read len T = (bs, None, T') /\ bs <> [] /\ (length bs <= len)%nat /\
    dinv T' /\ same_header T T' /\ avail T = bs ++ avail T'.
Proof.
  intros HT Hlen Ha. unfold Dec.read. rewrite decide_False by lia.
  assert (Htake : forall T, Dec.pending T <> [] -> take len (Dec.pending T) <> []).
  { intros T' Hp. destruct (Dec.pending T'); [done|]. by destruct len; [lia|]. }
  case_decide as Hbw.
  - assert (Hp : Dec.pending T <> []).
    { intros Hp. apply Hbw. unfold Dec.bufferWrite. destruct HT as [_ Hr]. by rewrite Hp, (Hr Hp). }
    destruct (consume_spec len T HT) as (HT' & Hsh & Hav).
    eexists _, _. split; [done|]. split; [by apply Htake|]. split; [rewrite length_take; lia|done].
  - assert (Hp : Dec.pending T = []) by (unfold Dec.bufferWrite in Hbw; destruct (Dec.pending T); cbn in *; [done|lia]).
    case_decide as Hbig.
    + destruct (Read (Dec.reader T) len) as [r' [bs err]] eqn:HR.
      unfold avail in Ha. rewrite Hp in Ha. cbn in Ha.
      destruct (read_progress _ _ _ _ _ HR Hlen Ha) as [-> Hbs].
      eexists _, _. split; [done|]. split; [done|]. split; [by eapply read_length|].
      split; [exact HT|]. split; [done|]. unfold avail. cbn. rewrite Hp. cbn. by eapply read_stream.
    + destruct (refill_spec T HT Hp Ha) as (T1 & -> & HT1 & Hsh1 & Hav1 & Hp1).
      destruct (consume_spec len T1 HT1) as (HT' & Hsh & Hav).
      eexists _, _. split; [done|]. split; [by apply Htake|]. split; [rewrite length_take; lia|].
      split; [done|]. split; [by eapply same_header_trans|]. by rewrite <- Hav1.
Qed.

Lemma readFull_loop_spec f len acc bs rest T :
  dinv T -> avail T = bs ++ rest -> (length acc + length bs = len)%nat -> (length bs <= f)%nat ->
  exists T', Dec.readFull_loop f len acc T = Ret (acc ++ bs, None, T') /\ dinv T' /\
    same_header T T' /\ avail T' = rest.
Proof.
  revert acc bs T. induction f as [|f IH]; intros acc bs T HT Ha Hlen Hf; cbn [Dec.readFull_loop];
    (destruct bs as [|b bs];
     [cbn in Hlen; rewrite decide_False by lia; exists T; rewrite app_nil_r; done|]);
    rewrite decide_True by (cbn in Hlen; lia); [cbn in Hf; lia|].
  destruct (read_spec (len - length acc) T HT) as (bs1 & T1 & -> & Hbs1 & Hl1 & HT1 & Hsh1 & Hav1);
    [cbn in Hlen; lia|by rewrite Ha|].
  rewrite Ha in Hav1.
  assert (Hpre : take (length bs1) (b :: bs) = bs1 /\ avail T1 = drop (length bs1) (b :: bs) ++ rest).
  { pose proof (f_equal (take (length bs1)) Hav1) as Ht. pose proof (f_equal (drop (length bs1)) Hav1) as Hd.
    rewrite take_app_length in Ht. rewrite drop_app_length in Hd.
    rewrite take_app_le in Ht by lia. rewrite drop_app_le in Hd by lia. done. }
  destruct Hpre as [Hpre Hrest].
  destruct (IH (acc ++ bs1) (drop (length bs1) (b :: bs)) T1 HT1 Hrest) as (T' & -> & HT' & Hsh' & Hav').
  - rewrite length_app, length_drop. cbn in *. lia.
  - rewrite length_drop. destruct bs1; [done|]. cbn in *. lia.
  - exists T'. split; [|split; [done|split; [by eapply same_header_trans|done]]].
    rewrite <- app_assoc. do 3 f_equal. rewrite <- Hpre at 1. by rewrite take_drop.
Qed.

(** [m] consumes exactly [bs], whatever follows, and returns [a]. *)
Definition reads {A} (m : io (Dec.Decoder R) A) (bs : list byte) (a : A) : Prop :=
  (length bs < fuel)%nat -> forall T rest, dinv T -> avail T = bs ++ rest ->
  exists T', m T = Ret (inr a, T') /\ dinv T' /\ avail T' = rest /\
    Dec.packetType T' = Dec.packetType T /\ Dec.packetLength T' = Dec.packetLength T /\
    Dec.packetPos T' = Dec.packetPos T + Z.of_nat (length bs).

(** The same where [bs] is all that is left of the packet. *)
Definition reads_end {A} (m : io (Dec.Decoder R) A) (bs : list byte) (a : A) : Prop :=
  (length bs < fuel)%nat -> forall T rest, dinv T -> avail T = bs ++ rest ->
  Dec.packetLength T = Dec.packetPos T + Z.of_nat (length bs) ->
  exists T', m T = Ret (inr a, T') /\ dinv T' /\ avail T' = rest /\
    Dec.packetType T' = Dec.packetType T /\ Dec.packetLength T' = Dec.packetLength T /\
    Dec.packetPos T' = Dec.packetLength T'.

Lemma reads_ret {A} (a : A) : reads (ret a) [] a.
Proof. intros _ T rest HT Ha. exists T. cbn. repeat split; try done; try apply HT. lia. Qed.

Lemma reads_andthen {A B} (m : io _ A) (k : A -> io _ B) bs bs' a b :
  reads m bs a -> reads (k a) bs' b -> reads (andthen m k) (bs ++ bs') b.
Proof.
  intros Hm Hk Hf T rest HT Ha. rewrite length_app in Hf. rewrite <- app_assoc in Ha.
  destruct (Hm ltac:(lia) T _ HT Ha) as (T1 & Hm1 & HT1 & Ha1 & Ht1 & Hl1 & Hp1).
  unfold andthen. rewrite Hm1. cbn.
  destruct (Hk ltac:(lia) T1 _ HT1 Ha1) as (T2 & Hk2 & HT2 & Ha2 & Ht2 & Hl2 & Hp2).
  exists T2. rewrite Hk2, length_app. split; [done|]. split; [done|]. split; [done|].
  split; [congruence|]. split; [congruence|]. lia.
Qed.

Lemma reads_end_andthen {A B} (m : io _ A) (k : A -> io _ B) bs bs' a b :
  reads m bs a -> reads_end (k a) bs' b -> reads_end (andthen m k) (bs ++ bs') b.
Proof.
  intros Hm Hk Hf T rest HT Ha Hlen. rewrite length_app in Hf, Hlen. rewrite <- app_assoc in Ha.
  destruct (Hm ltac:(lia) T _ HT Ha) as (T1 & Hm1 & HT1 & Ha1 & Ht1 & Hl1 & Hp1).
  unfold andthen. rewrite Hm1. cbn.
  destruct (Hk ltac:(lia) T1 _ HT1 Ha1) as (T2 & Hk2 & HT2 & Ha2 & Ht2 & Hl2 & Hp2); [lia|].
  exists T2. rewrite Hk2. split; [done|]. split; [done|]. split; [done|].
  split; [congruence|]. split; congruence.
Qed.

Lemma reads_reads_end {A} (m : io _ A) bs a : reads m bs a -> reads_end m bs a.
Proof.
  intros Hm Hf T rest HT Ha Hlen. destruct (Hm Hf T rest HT Ha) as (T' & ? & ? & ? & ? & ? & ?).
  exists T'. do 5 (split; [done|]). lia.
Qed.

Lemma reads_eq {A} (m : io _ A) bs bs' a a' : reads m bs a -> bs = bs' -> a = a' -> reads m bs' a'.
Proof. by intros ? <- <-. Qed.

Lemma reads_uint n bs : length bs = n -> reads (Dec.uint fuel n) bs (of_be bs).
Proof.
  intros Hn Hf T rest HT Ha. unfold Dec.uint, Dec.readFull.
  destruct (readFull_loop_spec fuel n [] bs rest T HT Ha) as (T' & -> & HT' & (Ht & Hl & Hp) & Ha'); [cbn; lia|lia|].
  cbn. eexists. split; [done|]. cbn. repeat split; try done; try apply HT'. lia.
Qed.

Lemma reads_map {A B} (m : io _ A) (f : A -> B) bs a :
  reads m bs a -> reads (do v <- m; ret (f v)) bs (f a).
Proof.
  intros Hm. eapply reads_eq; [eapply reads_andthen; [exact Hm|apply reads_ret]|apply app_nil_r|done].
Qed.

Lemma reads_be n v : 0 <= v < 2 ^ (8 * Z.of_nat n) -> reads (Dec.uint fuel n) (be n v) v.
Proof.
  intros Hv. eapply reads_eq; [by apply reads_uint, length_be|done|].
  rewrite of_be_be. by apply Z.mod_small.
Qed.

Lemma reads_Uint8 v : 0 <= v < 2 ^ 8 -> reads (Dec.Uint8 fuel) [byte.of_Z v] v.
Proof. by apply (reads_be 1). Qed.
Lemma reads_Uint16 v : 0 <= v < 2 ^ 16 -> reads (Dec.Uint16 fuel) (be 2 v) v.
Proof. by apply (reads_be 2). Qed.
Lemma reads_Uint32 v : 0 <= v < 2 ^ 32 -> reads (Dec.Uint32 fuel) (be 4 v) v.
Proof. by apply (reads_be 4). Qed.

Lemma reads_swrap n w v :
  w = 8 * Z.of_nat n -> 0 < w -> - 2 ^ (w - 1) <= v < 2 ^ (w - 1) ->
  reads (do v <- Dec.uint fuel n; ret (swrap w v)) (be n (uwrap w v)) v.
Proof.
  intros -> Hn Hv. eapply reads_eq; [apply reads_map, (reads_be n (uwrap (8 * Z.of_nat n) v))|done|].
  - apply Z.mod_pos_bound. lia.
  - by apply swrap_uwrap.
Qed.

Lemma reads_Int16 v : - 2 ^ 15 <= v < 2 ^ 15 -> reads (Dec.Int16 fuel) (be 2 (uwrap 16 v)) v.
Proof. intros Hv. by apply (reads_swrap 2 16). Qed.
Lemma reads_Int32 v : - 2 ^ 31 <= v < 2 ^ 31 -> reads (Dec.Int32 fuel) (be 4 (uwrap 32 v)) v.
Proof. intros Hv. by apply (reads_swrap 4 32). Qed.
Lemma reads_Int64 v : - 2 ^ 63 <= v < 2 ^ 63 -> reads (Dec.Int64 fuel) (be 8 (uwrap 64 v)) v.
Proof. intros Hv. by apply (reads_swrap 8 64). Qed.

(** Strings end at the first zero byte. *)
Lemma index_zero_spec s l : x00 ∉ s -> Dec.index_zero (s ++ x00 :: l) = Some (length s).
Proof.
  induction s as [|b s IH]; cbn; [done|]. rewrite not_elem_of_cons. intros [Hb Hs].
  rewrite decide_False by congruence. by rewrite IH.
Qed.

Lemma index_zero_None s : x00 ∉ s -> Dec.index_zero s = None.
Proof.
  induction s as [|b s IH]; cbn; [done|]. rewrite not_elem_of_cons. intros [Hb Hs].
  rewrite decide_False by congruence. by rewrite IH.
Qed.

(** Where the terminator falls relative to the buffered bytes [p]. *)
Lemma split_terminator s p (l rest : list byte) :
  s ++ x00 :: rest = p ++ l -> x00 ∉ s ->
  (exists p', p = s ++ x00 :: p') \/ (exists s', s = p ++ s' /\ x00 ∉ p /\ s' ++ x00 :: rest = l).
Proof.
  intros Heq Hs. apply app_eq_inv in Heq as [(k & -> & Hk)|(k & -> & Hk)].
  - right. exists k. rewrite not_elem_of_app in Hs. destruct Hs. done.
  - destruct k as [|b k]; cbn in Hk.
    + right. exists []. by rewrite !app_nil_r.
    + injection Hk as <- _. left. by exists k.
Qed.

Lemma take_terminated (s p' : list byte) :
  take (length s) (s ++ x00 :: p') = s /\ take (S (length s)) (s ++ x00 :: p') = s ++ [x00].
Proof.
  split; [by rewrite take_app_length|].
  replace (S (length s)) with (length (s ++ [x00])) by len_lia.
  by rewrite (app_assoc s [x00] p' : s ++ x00 :: p' = (s ++ [x00]) ++ p'), take_app_length.
Qed.

Lemma consume_terminated T s p' rest :
  dinv T -> Dec.pending T = s ++ x00 :: p' -> avail T = s ++ x00 :: rest ->
  dinv (Dec.consume (S (length s)) T) /\ same_header T (Dec.consume (S (length s)) T) /\
  avail (Dec.consume (S (length s)) T) = rest.
Proof.
  intros HT Hp Ha. destruct (consume_spec (S (length s)) T HT) as (HT' & Hsh & Hav).
  split; [done|]. split; [done|]. rewrite Ha, Hp in Hav. destruct (take_terminated s p') as [_ Htk].
  rewrite Htk, <- app_assoc in Hav. cbn in Hav. apply app_inv_head in Hav. by injection Hav.
Qed.

Lemma dec_string_loop_spec f s builder T rest :
  dinv T -> Dec.pending T = [] -> x00 ∉ s -> avail T = s ++ x00 :: rest -> (length s < f)%nat ->
  exists T', Dec.string_loop f builder T = Ret (inr (builder ++ s), T') /\ dinv T' /\ avail T' = rest /\
    Dec.packetType T' = Dec.packetType T /\ Dec.packetLength T' = Dec.packetLength T /\
    Dec.packetPos T' = Dec.packetPos T + Z.of_nat (length (builder ++ s)) + 1.
Proof.
  revert s builder T. induction f as [|f IH]; intros s builder T HT Hp Hs Ha Hf; [lia|].
  cbn [Dec.string_loop]. destruct (refill_spec T HT Hp) as (T1 & -> & HT1 & (Ht1 & Hl1 & Hp1) & Ha1 & Hne).
  { rewrite Ha. by destruct s. }
  rewrite Ha in Ha1. pose proof Ha1 as Hcase. unfold avail in Hcase. symmetry in Hcase.
  apply split_terminator in Hcase as [[p' Hp']|(s' & Hs' & Hnp & Hrest)]; [..|done].
  - rewrite Hp', index_zero_spec by done. destruct (take_terminated s p') as [-> _].
    destruct (consume_terminated T1 s p' rest HT1 Hp' Ha1) as (HT2 & (Ht2 & Hl2 & Hp2) & Ha2).
    eexists. split; [done|]. cbn [Dec.advance Dec.packetType Dec.packetLength Dec.packetPos].
    split; [exact HT2|]. split; [exact Ha2|]. split; [congruence|]. split; [congruence|].
    rewrite Hp2. lia.
  - rewrite index_zero_None by done.
    destruct (consume_spec (length (Dec.pending T1)) T1 HT1) as (HT2 & (Ht2 & Hl2 & Hp2) & Ha2).
    set (T2 := Dec.consume (length (Dec.pending T1)) T1) in *.
    assert (Hpend : Dec.pending T2 = []) by (unfold T2; cbn; by rewrite drop_all).
    destruct (IH s' (builder ++ Dec.pending T1) T2 HT2 Hpend) as (T' & -> & HT' & Ha' & Ht' & Hl' & Hp3).
    + rewrite Hs', not_elem_of_app in Hs. tauto.
    + rewrite take_ge in Ha2 by lia. unfold avail at 1 in Ha2. apply app_inv_head in Ha2. congruence.
    + rewrite Hs', length_app in Hf. destruct (Dec.pending T1); [done|]. cbn in Hf. lia.
    + exists T'. rewrite Hs', <- app_assoc. rewrite <- app_assoc in Hp3.
      split; [done|]. split; [done|]. split; [done|]. split; [congruence|]. split; [congruence|]. lia.
Qed.

Lemma reads_String s : x00 ∉ s -> reads (Dec.String fuel) (s ++ [x00]) s.
Proof.
  intros Hs Hf T rest HT Ha. rewrite length_app in Hf. cbn in Hf. rewrite <- app_assoc in Ha. cbn in Ha.
  unfold Dec.String.
  assert (Hfirst : exists T1, (if decide (Dec.bufferWrite T = 0)%nat then Dec.refill T else (None, T)) = (None, T1) /\
    dinv T1 /\ same_header T T1 /\ avail T1 = avail T).
  { case_decide as Hbw; [|by exists T].
    destruct (refill_spec T HT) as (T1 & HR & HT1 & Hsh & Hav & _); [|rewrite Ha; by destruct s|by exists T1].
    unfold Dec.bufferWrite in Hbw. destruct (Dec.pending T); [done|cbn in Hbw; lia]. }
  destruct Hfirst as (T1 & -> & HT1 & (Ht1 & Hl1 & Hp1) & Ha1). rewrite Ha in Ha1.
  pose proof Ha1 as Hcase. unfold avail in Hcase. symmetry in Hcase.
  apply split_terminator in Hcase as [[p' Hp']|(s' & Hs' & Hnp & Hrest)]; [..|done].
  - rewrite Hp', index_zero_spec by done. destruct (take_terminated s p') as [-> _].
    destruct (consume_terminated T1 s p' rest HT1 Hp' Ha1) as (HT2 & (Ht2 & Hl2 & Hp2) & Ha2).
    eexists. split; [done|]. cbn [Dec.advance Dec.packetType Dec.packetLength Dec.packetPos].
    split; [exact HT2|]. split; [exact Ha2|]. split; [congruence|]. split; [congruence|].
    rewrite Hp2. len_lia.
  - rewrite index_zero_None by done.
    destruct (consume_spec (length (Dec.pending T1)) T1 HT1) as (HT2 & (Ht2 & Hl2 & Hp2) & Ha2).
    set (T2 := Dec.consume (length (Dec.pending T1)) T1) in *.
    assert (Hpend : Dec.pending T2 = []) by (unfold T2; cbn; by rewrite drop_all).
    destruct (dec_string_loop_spec fuel s' (Dec.pending T1) T2 rest HT2 Hpend)
      as (T' & -> & HT' & Ha' & Ht' & Hl' & Hp3).
    + rewrite Hs', not_elem_of_app in Hs. tauto.
    + rewrite take_ge in Ha2 by lia. unfold avail at 1 in Ha2. apply app_inv_head in Ha2. congruence.
    + rewrite Hs', length_app in Hf. lia.
    + exists T'. rewrite <- Hs' in Hp3 |- *. split; [done|]. split; [done|]. split; [done|].
      split; [congruence|]. split; [congruence|]. rewrite Hp3, Hp2, Hp1. len_lia.
Qed.
End DecoderSpec.

#[export] Hint Resolve reads_ret reads_Uint8 reads_Uint16 reads_Uint32 reads_Int16 reads_Int32
  reads_Int64 reads_String reads_reads_end : pggat.

(** ** Framing *)

(** The header of a packet: its type byte, unless it is untyped, and its
    length, which counts the length field itself. *)
Definition header (typ : byte) (len : Z) : list byte :=
  (if decide (typ = x00) then [] else [typ]) ++ be 4 (len + 4).

Section FramingSpec.
Context {W : Type} `{WriterLaws W}.
Context {R : Type} `{ReaderLaws R} (fuel : nat).

Lemma Enc_Next_spec (T : Enc.Encoder W) typ len :
  einv T -> Enc.packetPos T = Enc.packetLength T -> 0 <= len -> len + 4 < 2 ^ 32 ->
  exists r T', Enc.Next typ len T = Ret (r, T') /\ einv T' /\
    match r with
    | inl e => writer_error (W := W) e
    | inr _ => sent T' = sent T ++ header typ len /\ Enc.packetType T' = typ /\
        Enc.packetLength T' = len /\ Enc.packetPos T' = 0
    end.
Proof.
  intros HT Hp Hnn Hlen. unfold Enc.Next. rewrite decide_False by auto.
  rewrite uwrap_id by lia.
  assert (Hty : emits (W := W) (if decide (typ <> x00) then Enc.writeByte typ else ret tt)
                  (if decide (typ = x00) then [] else [typ]) 0).
  { destruct (decide (typ = x00)).
    - rewrite decide_False by auto. apply emits_ret.
    - rewrite decide_True by done. apply emits_writeByte. }
  unfold andthen at 1. destruct (Hty T HT) as (r & T1 & -> & HT1 & Hr). cbn.
  destruct r as [e|u]; [by eexists _, _|]. destruct Hr as (Hs1 & _ & _).
  unfold andthen at 1.
  destruct (reserve_spec 4 T1 HT1 ltac:(unfold defaultBufferSize; lia)) as (r & T2 & -> & Hroom & Hr).
  cbn. destruct r as [e|u']; [eexists _, _; split; [done|]; split; [unfold einv; lia|done]|].
  destruct Hr as (Hs2 & _ & _). unfold andthen, Enc.put. rewrite length_be, decide_True by lia. cbn.
  eexists _, _. split; [done|]. split; [unfold einv; cbn; rewrite length_app, length_be; lia|].
  split; [|done]. unfold sent, header in *. cbn. rewrite app_assoc, Hs2, Hs1. by rewrite <- app_assoc.
Qed.

Lemma discard_loop_spec f n bs rest (T : Dec.Decoder R) :
  dinv T -> avail T = bs ++ rest -> rest <> [] -> length bs = n ->
  (n + (if decide (Dec.pending T = []) then 1 else 0) < f)%nat ->
  exists T', Dec.discard_loop f n T = Ret (inr tt, T') /\ dinv T' /\ same_header T T' /\ avail T' = rest.
Proof.
  revert n bs T. induction f as [|f IH]; intros n bs T HT Ha Hrest Hn Hf; [lia|].
  destruct n as [|n]; cbn [Dec.discard_loop].
  { destruct bs; [|done]. exists T. done. }
  set (again := fun n T => match Dec.refill T with
                           | (Some e, T) => Ret (inl e, T)
                           | (None, T) => Dec.discard_loop f n T end).
  assert (Hagain : forall n' bs' T1, dinv T1 -> Dec.pending T1 = [] -> avail T1 = bs' ++ rest ->
    length bs' = n' -> (n' < f)%nat ->
    exists T', again n' T1 = Ret (inr tt, T') /\ dinv T' /\ same_header T1 T' /\ avail T' = rest).
  { intros n' bs' T1 HT1 Hp1 Ha1 Hn' Hf'. unfold again.
    destruct (refill_spec T1 HT1 Hp1) as (T2 & -> & HT2 & Hsh2 & Ha2 & Hp2).
    { rewrite Ha1. intros [_ ?]%app_nil. done. }
    rewrite Ha1 in Ha2. destruct (IH n' bs' T2 HT2 Ha2 Hrest Hn') as (T' & -> & HT' & Hsh' & Ha').
    { rewrite decide_False by done. lia. }
    exists T'. split; [done|]. split; [done|]. split; [by eapply same_header_trans|done]. }
  set (count := Nat.min (S n) (length (Dec.pending T))).
  destruct (consume_spec count T HT) as (HT1 & Hsh1 & Ha1). set (T1 := Dec.consume count T) in *.
  destruct (decide (Dec.bufferWrite T <> 0)%nat) as [Hbw|Hbw].
  - assert (Hc1 : length (take count (Dec.pending T)) = count) by (rewrite length_take; unfold count; lia).
    assert (Hpre : avail T1 = drop count bs ++ rest).
    { rewrite Ha in Ha1. pose proof (f_equal (drop count) Ha1) as Hd.
      rewrite drop_app_le in Hd by (unfold count; lia).
      rewrite <- Hc1 in Hd at 2. rewrite drop_app_length in Hd. by rewrite Hd. }
    destruct (decide (Dec.pending T1 = [])) as [Hp1|Hp1].
    + destruct (Hagain (S n - count)%nat (drop count bs) T1 HT1 Hp1 Hpre) as (T' & Hag & HT' & Hsh' & Ha').
      { rewrite length_drop. lia. }
      { assert (Dec.pending T <> []).
        { intros Hp. apply Hbw. unfold Dec.bufferWrite. destruct HT as [_ Hr]. by rewrite Hp, (Hr Hp). }
        rewrite decide_False in Hf by done. unfold count. destruct (Dec.pending T); [done|cbn; lia]. }
      exists T'. split; [exact Hag|]. split; [done|]. split; [by eapply same_header_trans|done].
    + exists T1. split; [done|]. split; [done|]. split; [done|]. rewrite Hpre.
      assert (count = S n) as Hce.
      { destruct (decide (S n <= length (Dec.pending T))%nat) as [Hle|Hgt]; [unfold count; lia|].
        exfalso. apply Hp1. unfold T1, Dec.consume. cbn [Dec.pending]. apply drop_ge. unfold count. lia. }
      rewrite Hce, <- Hn, drop_all. done.
  - assert (Hp : Dec.pending T = []).
    { unfold Dec.bufferWrite in Hbw. destruct (Dec.pending T); [done|cbn in Hbw; lia]. }
    rewrite decide_True in Hf by done. apply (Hagain (S n) bs T); try done. lia.
Qed.

Lemma readFull_spec n bs rest (T : Dec.Decoder R) :
  dinv T -> avail T = bs ++ rest -> length bs = n -> (n <= fuel)%nat ->
  exists T', Dec.readFull fuel n T = Ret (inr bs, T') /\ dinv T' /\ same_header T T' /\ avail T' = rest.
Proof.
  intros HT Ha Hn Hf. unfold Dec.readFull.
  destruct (readFull_loop_spec fuel n [] bs rest T HT Ha) as (T' & -> & HT' & Hsh & Ha'); [cbn; lia|lia|].
  cbn. exists T'. done.
Qed.

Lemma skip_rest_spec skip rest (T : Dec.Decoder R) :
  dinv T -> avail T = skip ++ rest -> rest <> [] ->
  Dec.packetLength T = Dec.packetPos T + Z.of_nat (length skip) -> (length skip + 1 < fuel)%nat ->
  exists T', Dec.skip_rest fuel T = Ret (inr tt, T') /\ dinv T' /\ avail T' = rest.
Proof.
  intros HT Ha Hrest Hlen Hf. unfold Dec.skip_rest, Dec.discard.
  replace (Dec.packetLength T - Dec.packetPos T) with (Z.of_nat (length skip)) by lia.
  rewrite decide_False by lia. destruct (decide (0 < Z.of_nat (length skip))) as [Hpos|Hpos].
  - rewrite Nat2Z.id. destruct (discard_loop_spec fuel (length skip) skip rest T HT Ha Hrest eq_refl)
      as (T' & -> & HT' & _ & Ha'); [gdecide; lia|]. by exists T'.
  - destruct skip; [|cbn in Hpos; lia]. by exists T.
Qed.

Lemma of_be_header len : 0 <= len -> len + 4 < 2 ^ 32 -> of_be (be 4 (len + 4)) - 4 = len.
Proof. intros Hnn Hlen. rewrite of_be_be, Z.mod_small by (cbn; lia). lia. Qed.

Lemma Dec_Next_spec skip typ len rest (T : Dec.Decoder R) :
  dinv T -> avail T = skip ++ header typ len ++ rest ->
  Dec.packetLength T = Dec.packetPos T + Z.of_nat (length skip) ->
  0 <= len -> len + 4 < 2 ^ 32 -> (length skip + 5 < fuel)%nat ->
  exists T', Dec.Next fuel (bool_decide (typ <> x00)) T = Ret (inr tt, T') /\ dinv T' /\ avail T' = rest /\
    Dec.packetType T' = typ /\ Dec.packetLength T' = len /\ Dec.packetPos T' = 0.
Proof.
  intros HT Ha Hlen Hnn Hmax Hf. unfold Dec.Next, andthen at 1.
  destruct (skip_rest_spec skip (header typ len ++ rest) T HT Ha) as (T1 & -> & HT1 & Ha1); [|done|lia|].
  { intros Hx%(f_equal length). unfold header in Hx. rewrite !length_app, length_be in Hx. cbn in Hx. lia. }
  cbn [obind fst snd]. unfold header in Ha1. destruct (decide (typ = x00)) as [->|Hty].
  - rewrite bool_decide_false by auto. unfold andthen. cbn [app] in Ha1.
    destruct (readFull_spec 4 _ rest T1 HT1 Ha1 (length_be _ _)) as (T2 & -> & HT2 & _ & Ha2); [lia|].
    cbn [obind fst snd ret nth drop]. eexists. split; [done|].
    cbn [Dec.packetType Dec.packetLength Dec.packetPos]. split; [exact HT2|].
    split; [exact Ha2|]. split; [done|]. split; [|done]. by apply of_be_header.
  - rewrite bool_decide_true by done. unfold andthen.
    destruct (readFull_spec 5 _ rest T1 HT1 Ha1) as (T2 & -> & HT2 & _ & Ha2);
      [by rewrite length_app, length_be|lia|].
    cbn [obind fst snd nth drop app]. eexists. split; [done|].
    cbn [Dec.packetType Dec.packetLength Dec.packetPos]. split; [exact HT2|].
    split; [exact Ha2|]. split; [done|]. split; [|done]. by apply of_be_header.
Qed.

(** *** Relaying *)

Lemma ReadPacket_spec len bs rest (T : Dec.Decoder R) :
  dinv T -> avail T = bs ++ rest -> bs <> [] ->
  Dec.packetLength T = Dec.packetPos T + Z.of_nat (length bs) -> (0 < len)%nat ->
  exists b1 b2 T', Dec.ReadPacket len T = Ret (b1, None, T') /\ bs = b1 ++ b2 /\ b1 <> [] /\
    (length b1 <= len)%nat /\ dinv T' /\ avail T' = b2 ++ rest /\
    Dec.packetType T' = Dec.packetType T /\ Dec.packetLength T' = Dec.packetLength T /\
    Dec.packetLength T' = Dec.packetPos T' + Z.of_nat (length b2).
Proof.
  intros HT Ha Hbs Hlen Hpos. assert (Hl : (0 < length bs)%nat) by (destruct bs; [done|cbn; lia]).
  unfold Dec.ReadPacket.
  replace (Dec.packetLength T - Dec.packetPos T) with (Z.of_nat (length bs)) by lia.
  rewrite decide_False by lia. rewrite decide_False by lia.
  set (n := if decide (Z.of_nat (length bs) < Z.of_nat len) then Z.to_nat (Z.of_nat (length bs)) else len).
  assert (Hn : (n <= length bs)%nat /\ (0 < n <= len)%nat) by (unfold n; gdecide; lia).
  destruct (read_spec n T HT) as (b1 & T1 & -> & Hb1 & Hl1 & HT1 & (Ht1 & Hpl1 & Hpp1) & Ha1);
    [lia|rewrite Ha; by destruct bs|].
  rewrite Ha in Ha1. apply app_eq_inv in Ha1 as [(k & -> & Hk)|(k & Hb & Hk)].
  - eexists b1, k, _. split; [done|]. split; [done|]. split; [done|]. split; [lia|].
    cbn [Dec.advance Dec.packetType Dec.packetLength Dec.packetPos].
    split; [exact HT1|]. split; [exact Hk|]. split; [done|]. split; [done|].
    rewrite length_app in Hlen. lia.
  - assert (k = []) as ->.
    { apply (f_equal length) in Hb. rewrite length_app in Hb. destruct k; [done|]. cbn in Hb. lia. }
    rewrite app_nil_r in Hb. subst b1. eexists bs, [], _. rewrite app_nil_r. split; [done|].
    split; [done|]. split; [done|]. split; [lia|].
    cbn [Dec.advance Dec.packetType Dec.packetLength Dec.packetPos].
    split; [exact HT1|]. split; [cbn in *; by rewrite Hk|]. split; [done|]. split; [done|]. cbn. lia.
Qed.

Lemma ReadFrom_loop_spec f n bs rest (e : Enc.Encoder W) (d : Dec.Decoder R) :
  einv e -> dinv d -> avail d = bs ++ rest ->
  Dec.packetLength d = Dec.packetPos d + Z.of_nat (length bs) ->
  (length bs < f)%nat -> (0 < n + length bs)%nat ->
  exists r e' d', Relay.ReadFrom_loop f n (e, d) = Ret (r, (e', d')) /\ einv e' /\
    match r with
    | inl err => writer_error (W := W) err
    | inr m => m = (n + length bs)%nat /\ sent e' = sent e ++ bs /\
        Enc.packetPos e' = Enc.packetPos e + Z.of_nat m /\ same_packet e e' /\
        dinv d' /\ avail d' = rest /\ Dec.packetPos d' = Dec.packetLength d' /\
        Dec.packetType d' = Dec.packetType d
    end.
Proof.
  revert n bs e d. induction f as [|f IH]; intros n bs e d He Hd Ha Hlen Hf Hpos; [lia|].
  cbn [Relay.ReadFrom_loop].
  assert (Hfl : exists r e1, (if decide (defaultBufferSize <= length (Enc.buffer e))%nat then Enc.Flush e
      else Ret (inr tt, e)) = Ret (r, e1) /\ (length (Enc.buffer e1) < defaultBufferSize)%nat /\
      match r with
      | inl err => writer_error (W := W) err
      | inr _ => sent e1 = sent e /\ Enc.packetPos e1 = Enc.packetPos e /\ same_packet e e1
      end).
  { case_decide as Hdd; [|eexists _, e; split; [done|]; split; [lia|done]].
    destruct (Flush_spec e He) as (r & e1 & -> & Hb & Hr). eexists _, _. split; [done|].
    split; [rewrite Hb; cbn; unfold defaultBufferSize; lia|done]. }
  destruct Hfl as (r & e1 & -> & Hroom & Hr). cbn [obind fst snd].
  destruct r as [err|u]; [eexists _, _, _; split; [done|]; split; [unfold einv; cbn; lia|done]|].
  destruct Hr as (Hs1 & Hp1 & Hsp1).
  destruct bs as [|b bs].
  - assert (Hrp : Dec.ReadPacket (defaultBufferSize - length (Enc.buffer e1)) d = Ret ([], Some EOF, d)).
    { unfold Dec.ReadPacket. cbn in Hlen. rewrite decide_True by lia. done. }
    rewrite Hrp. cbn [obind fst snd]. rewrite !Nat.add_0_r. cbn in Hpos. rewrite Nat.add_0_r in Hpos.
    rewrite decide_False by lia. eexists _, _, _. split; [done|].
    split; [unfold einv; cbn; len_lia|]. split; [done|].
    split; [unfold sent in *; cbn; by rewrite !app_nil_r, Hs1|].
    split; [cbn; lia|]. split; [done|]. split; [done|]. split; [done|]. split; [cbn in Hlen; lia|done].
  - destruct (ReadPacket_spec (defaultBufferSize - length (Enc.buffer e1)) (b :: bs) rest d Hd Ha)
      as (b1 & b2 & d1 & -> & Hb & Hb1 & Hl1 & Hd1 & Ha1 & Ht1 & Hpl1 & Hpp1); [done|done|lia|].
    cbn [obind]. set (e2 := Enc.set_buffer e1 (Enc.buffer e1 ++ b1)).
    assert (He2 : einv e2) by (unfold einv, e2; cbn; rewrite length_app; lia).
    assert (Hlb : (0 < length b1)%nat) by (destruct b1; [done|cbn; lia]).
    pose proof (f_equal length Hb) as Hbl. rewrite length_app in Hbl.
    destruct (IH (n + length b1)%nat b2 e2 d1 He2 Hd1 Ha1 Hpp1) as (r' & e' & d' & Heq & He' & Hr');
      [lia|lia|].
    eexists _, _, _. split; [exact Heq|]. split; [done|]. destruct r' as [?|m]; [done|].
    destruct Hr' as (-> & Hs' & Hp' & Hsp' & Hrest). split; [lia|].
    split; [rewrite Hs', Hb; unfold sent, e2 in *; cbn; by rewrite app_assoc, Hs1, app_assoc|].
    split; [rewrite Hp'; unfold e2; cbn; lia|].
    split; [destruct Hsp', Hsp1; unfold e2 in *; cbn in *; split; congruence|].
    destruct Hrest as (? & ? & ? & Hty). split_and!; [done..|]. by rewrite Hty.
Qed.
Lemma WriteTo_spec bs rest (e : Enc.Encoder W) (d : Dec.Decoder R) :
  einv e -> dinv d -> avail d = bs ++ rest ->
  Dec.packetLength d = Dec.packetPos d + Z.of_nat (length bs) -> (length bs < fuel)%nat ->
  exists r e' d', Relay.WriteTo fuel (e, d) = Ret (r, (e', d')) /\ einv e' /\
    match r with
    | inl err => writer_error (W := W) err
    | inr _ => sent e' = sent e ++ bs /\
        Enc.packetPos e' = Enc.packetPos e + Z.of_nat (length bs) /\ same_packet e e' /\
        dinv d' /\ avail d' = rest /\ Dec.packetPos d' = Dec.packetLength d' /\
        Dec.packetType d' = Dec.packetType d
    end.
Proof.
  intros He Hd Ha Hlen Hf. destruct fuel as [|f]; [lia|]. cbn [Relay.WriteTo snd].
  destruct (decide (Dec.packetPos d < Dec.packetLength d)) as [Hlt|Hge].
  - destruct (ReadFrom_loop_spec (S f) 0 bs rest e d He Hd Ha Hlen Hf) as (r & e' & d' & Hrd & He' & Hr); [lia|].
    unfold Relay.ReadFrom. rewrite Hrd. cbn [obind fst snd].
    destruct r as [err|m]; [by eexists _, _, _|].
    destruct Hr as (-> & Hs & Hp & Hsp & Hd' & Ha' & Hpos & Hty). exists (inr tt), e', d'.
    split; [|done]. destruct f; cbn [Relay.WriteTo snd]; by rewrite decide_False by lia.
  - destruct bs; [|cbn in Hlen; lia]. exists (inr tt), e, d. split; [done|]. split; [done|].
    rewrite app_nil_r. cbn in *. split; [done|]. split; [lia|]. split; [done|]. split; [done|]. split; [done|]. split; [lia|done].
Qed.
End FramingSpec.

(** ** Concrete connections *)

(** A writer that keeps what it is given. *)
#[export] Instance list_Writer : Writer (list byte) := fun w p => (w ++ p, None).
#[export] Instance list_WriterLaws : WriterLaws (list byte).
Proof. refine {| written := fun w => w |}. by intros w p w' [= <-]. Defined.

(** A stream delivered in chunks of at most [S k] bytes. *)
Record chunked := mkChunked { chunk : nat; bytes : list byte }.

#[export] Instance chunked_Reader : Reader chunked := fun r n =>
  let m := Nat.min n (S (chunk r)) in
  (mkChunked (chunk r) (drop m (bytes r)),
   (take m (bytes r), match bytes r with [] => Some EOF | _ => None end)).

#[export] Instance chunked_ReaderLaws : ReaderLaws chunked.
Proof.
  refine {| stream := bytes |}.
  - intros r n r' bs err [= <- <- <-]. rewrite length_take. lia.
  - intros r n r' bs err [= <- <- <-]. cbn [bytes]. by rewrite take_drop.
  - intros r n r' bs err [= <- <- <-] Hn Hs. destruct (bytes r) as [|b l]; [done|].
    split; [done|]. by destruct n; [lia|].
Defined.

(** ** Theorems *)
Module WireTheorems.
Section Theorems.
Context {W : Type} `{WriterLaws W}.
Context {R : Type} `{ReaderLaws R}.

(** Framing round trip: the header that Next of the encoder writes is read
    back by Next of a decoder as the same type and length, wherever the
    buffers of both are and however the stream is cut into chunks, and even if
    the previous packet was only partly read. *)
Theorem next_roundtrip (T T' : Enc.Encoder W) (typ : byte) (len : Z) :
  einv T -> 0 <= len < 2 ^ 32 - 4 -> Enc.Next typ len T = Ret (inr tt, T') ->
  exists hdr, sent T' = sent T ++ hdr /\
    forall fuel skip rest (D : Dec.Decoder R),
      dinv D -> avail D = skip ++ hdr ++ rest ->
      Dec.packetLength D = Dec.packetPos D + Z.of_nat (length skip) ->
      (length skip + 5 < fuel)%nat ->
      exists D', Dec.Next fuel (bool_decide (typ <> x00)) D = Ret (inr tt, D') /\
        avail D' = rest /\ Dec.packetType D' = typ /\ Dec.packetLength D' = len /\ Dec.packetPos D' = 0.
Proof.
  intros HT Hlen Hn. destruct (decide (Enc.packetPos T = Enc.packetLength T)) as [Hp|Hp].
  - destruct (Enc_Next_spec T typ len HT Hp) as (r & T1 & Hn' & _ & Hr); [lia|lia|].
    assert (r = inr tt /\ T1 = T') as [-> ->] by (by split; congruence).
    exists (header typ len). split; [apply Hr|]. intros fuel skip rest D HD Ha HDl Hf.
    destruct (Dec_Next_spec fuel skip typ len rest D HD Ha HDl) as (D' & ? & _ & ?); [lia|lia|lia|].
    eauto.
  - unfold Enc.Next in Hn. by rewrite decide_True in Hn by done.
Qed.

(** Relaying a packet that was not decoded copies exactly the bytes of the
    packet that were not read yet: WriteTo of a pending packet terminates, and
    unless the writer fails the encoder is given these bytes, in order, the
    decoder stands at the end of the packet, and nothing of the next packet is
    consumed. *)
Theorem relay_copies_packet fuel bs rest (e : Enc.Encoder W) (d : Dec.Decoder R) :
  einv e -> dinv d -> avail d = bs ++ rest ->
  Dec.packetLength d = Dec.packetPos d + Z.of_nat (length bs) -> (length bs < fuel)%nat ->
  exists r e' d', Relay.WriteTo fuel (e, d) = Ret (r, (e', d')) /\
    match r with
    | inl err => writer_error (W := W) err
    | inr _ => sent e' = sent e ++ bs /\
        Enc.packetPos e' = Enc.packetPos e + Z.of_nat (length bs) /\
        avail d' = rest /\ Dec.packetPos d' = Dec.packetLength d'
    end.
Proof.
  intros He Hd Ha Hlen Hf. destruct (WriteTo_spec fuel bs rest e d He Hd Ha Hlen Hf) as (r & e' & d' & -> & _ & Hr).
  exists r, e', d'. split; [done|]. destruct r; [done|]. by destruct Hr as (? & ? & _ & _ & ? & ? & _).
Qed.
End Theorems.

Definition enc0 : Enc.Encoder (list byte) := Enc.NewEncoder [].
Definition enc1 : Enc.Encoder (list byte) :=
  Enc.mkEncoder [x51; x00; x00; x00; x07] [] x51 3 0.

Lemma next_roundtrip_witness :
  exists hdr, sent enc1 = sent enc0 ++ hdr /\
    forall fuel skip rest (D : Dec.Decoder chunked),
      dinv D -> avail D = skip ++ hdr ++ rest ->
      Dec.packetLength D = Dec.packetPos D + Z.of_nat (length skip) ->
      (length skip + 5 < fuel)%nat ->
      exists D', Dec.Next fuel (bool_decide (x51 <> x00)) D = Ret (inr tt, D') /\
        avail D' = rest /\ Dec.packetType D' = x51 /\ Dec.packetLength D' = 3 /\ Dec.packetPos D' = 0.
Proof.
  apply (next_roundtrip enc0 enc1 x51 3); [apply Nat.leb_le; vm_compute; reflexivity|lia|reflexivity].
Defined.

Lemma relay_copies_packet_witness :
  exists r e' d', Relay.WriteTo 6 (enc1, Dec.mkDecoder [x61] 0 (mkChunked 1 [x62; x63; x53]) x51 3 0)
      = Ret (r, (e', d')) /\
    match r with
    | inl err => writer_error (W := list byte) err
    | inr _ => sent e' = sent enc1 ++ [x61; x62; x63] /\
        Enc.packetPos e' = 3 /\ avail d' = [x53] /\ Dec.packetPos d' = Dec.packetLength d'
    end.
Proof.
  apply (relay_copies_packet 6 [x61; x62; x63] [x53]);
    [apply Nat.leb_le; vm_compute; reflexivity|split; [apply Nat.leb_le; vm_compute; reflexivity|done]|reflexivity|reflexivity|cbn; lia].
Defined.
End WireTheorems.
