(* ===== verification/Packets.v ===== *)
(** * Packets: lib/fed/packets/v3.0/packets.go

    The packets of protocol 3.0.  One module per packet type, with the payload
    as a record ([t]) and its [Length], [ReadFrom] and [WriteTo]; the type
    switches of Authentication and Startup are inductive types of modes.
    [Packet] is the sum of all packets, with the methods of fed.Packet.

    A [string] and a [[]uint8] are lists of bytes, a nil slice of a nullable
    field is [None].  ReadFrom decodes into a fresh value: every field of an
    old one is overwritten.  The loops over the elements of a slice are the
    combinators [write_each], [read_n], [read_remaining] and [read_until];
    the latter two take the decoder's fuel, one step per element. *)

From Stdlib Require Import Init.Byte Strings.Byte.
From coqutil Require Import Byte Word.LittleEndianList.
From S2P Require Import Prelude.
From S2P Require Import Wire.

Local Open Scope Z_scope.
Local Open Scope go_scope.
Local Open Scope io_scope.

Abbreviation gostring := (list byte).

Definition zlen {A} (l : list A) : Z := Z.of_nat (length l).

(** [for _, x := range l { length += n(x) }] *)
Definition sum_len {A} (n : A -> Z) (l : list A) : Z := foldr (fun x acc => n x + acc) 0 l.

(** ** The loops of the generated code *)
Section Loops.
Context {W : Type} `{Writer W} {R : Type} `{Reader R} (fuel : nat).

(** [for _, x := range l { err = f(x); if err != nil { return } }] *)
Definition write_each {A} (f : A -> io (Enc.Encoder W) unit) (l : list A) : io (Enc.Encoder W) unit :=
  foldr (fun x k => f x ;; k) (ret tt) l.

(** [for i := 0; i < n; i++ { l[i], err = m; if err != nil { return } }] *)
Fixpoint read_n {A} (n : nat) (m : io (Dec.Decoder R) A) : io (Dec.Decoder R) (list A) :=
  match n with
  | O => ret []
  | S n => do x <- m; do l <- read_n n m; ret (x :: l)
  end.

Definition put_uint8 (b : byte) : io (Enc.Encoder W) unit := Enc.Uint8 (byte.unsigned b).
Definition get_uint8 : io (Dec.Decoder R) byte := do v <- Dec.Uint8 fuel; ret (byte.of_Z v).

(** A slice with its length in front, as an unsigned integer of 2 or 4 bytes;
    [slices.Resize(l, int(n))] with [n >= 0]. *)
Definition write_slice16 {A} (f : A -> io (Enc.Encoder W) unit) (l : list A) : io (Enc.Encoder W) unit :=
  Enc.Uint16 (uwrap 16 (zlen l)) ;; write_each f l.
Definition read_slice16 {A} (m : io (Dec.Decoder R) A) : io (Dec.Decoder R) (list A) :=
  do n <- Dec.Uint16 fuel; read_n (Z.to_nat n) m.
Definition write_slice32 {A} (f : A -> io (Enc.Encoder W) unit) (l : list A) : io (Enc.Encoder W) unit :=
  Enc.Uint32 (uwrap 32 (zlen l)) ;; write_each f l.
Definition read_slice32 {A} (m : io (Dec.Decoder R) A) : io (Dec.Decoder R) (list A) :=
  do n <- Dec.Uint32 fuel; read_n (Z.to_nat n) m.

(** A nullable byte slice: length -1 is nil; [make([]uint8, n)] and
    [slices.Resize] panic on any other negative length. *)
Definition write_nullable (o : option (list byte)) : io (Enc.Encoder W) unit :=
  match o with
  | None => Enc.Int32 (-1) ;; write_each put_uint8 []
  | Some l => Enc.Int32 (swrap 32 (zlen l)) ;; write_each put_uint8 l
  end.
Definition read_nullable : io (Dec.Decoder R) (option (list byte)) :=
  do n <- Dec.Int32 fuel;
  if decide (n = -1) then ret None
  else if decide (n < 0) then fun _ => Panic
  else do l <- read_n (Z.to_nat n) get_uint8; ret (Some l).

Definition nullable_len (o : option (list byte)) : Z :=
  4 + sum_len (fun _ => 1) (default [] o).

(** [for { if decoder.Position() >= decoder.Length() { break }; ... }] *)
Fixpoint read_remaining_loop (f : nat) (acc : list byte) : io (Dec.Decoder R) (list byte) := fun T =>
  if decide (Dec.packetLength T <= Dec.packetPos T) then Ret (inr acc, T)
  else match f with
       | O => Diverge
       | S f => (do b <- get_uint8; read_remaining_loop f (acc ++ [b])) T
       end.
Definition read_remaining : io (Dec.Decoder R) (list byte) := read_remaining_loop fuel [].

(** [for { x, err = m; if err != nil { return }; if x is zero { break }; ... }] *)
Fixpoint read_until_loop {A} (f : nat) (m : io (Dec.Decoder R) (option A)) (acc : list A)
    : io (Dec.Decoder R) (list A) :=
  match f with
  | O => fun _ => Diverge
  | S f =>
      do x <- m;
      match x with
      | None => ret acc
      | Some x => read_until_loop f m (acc ++ [x])
      end
  end.
Definition read_until {A} (m : io (Dec.Decoder R) (option A)) : io (Dec.Decoder R) (list A) :=
  read_until_loop fuel m [].

(** [if decoder.Type() != T.Type() { return ErrUnexpectedPacket }] *)
Definition expect {A} (typ : byte) (m : io (Dec.Decoder R) A) : io (Dec.Decoder R) A := fun T =>
  if decide (Dec.packetType T <> typ) then Ret (inl ErrUnexpectedPacket, T) else m T.
End Loops.

(** ** What makes a field a codec *)
Section Fields.
Context {W : Type} `{WriterLaws W} {R : Type} `{ReaderLaws R} (fuel : nat).

(** [wr] writes [n] bytes from which [rd] reads [a] back. *)
Definition field {A} (wr : io (Enc.Encoder W) unit) (n : Z) (rd : io (Dec.Decoder R) A) (a : A) : Prop :=
  exists bs, emits wr bs n /\ zlen bs = n /\ reads fuel rd bs a.

(** The same for the last field of a packet. *)
Definition field_end {A} (wr : io (Enc.Encoder W) unit) (n : Z) (rd : io (Dec.Decoder R) A) (a : A) : Prop :=
  exists bs, emits wr bs n /\ zlen bs = n /\ reads_end fuel rd bs a.

Lemma field_field_end {A} wr n (rd : io _ A) a : field wr n rd a -> field_end wr n rd a.
Proof. intros (bs & ? & ? & ?). exists bs. eauto using reads_reads_end. Qed.

Lemma field_ret {A} (a : A) : field (ret tt) 0 (ret a) a.
Proof. exists []. split; [apply emits_ret|]. split; [done|apply reads_ret]. Qed.

Lemma field_seq {A B} wr wr' n n' (rd : io _ A) (k : A -> io _ B) a b :
  field wr n rd a -> field wr' n' (k a) b -> field (wr ;; wr') (n + n') (andthen rd k) b.
Proof.
  intros (bs & He & Hl & Hr) (bs' & He' & Hl' & Hr'). exists (bs ++ bs').
  split; [by apply emits_andthen|]. split; [unfold zlen in *; len_lia|]. by eapply reads_andthen.
Qed.

Lemma field_end_seq {A B} wr wr' n n' (rd : io _ A) (k : A -> io _ B) a b :
  field wr n rd a -> field_end wr' n' (k a) b -> field_end (wr ;; wr') (n + n') (andthen rd k) b.
Proof.
  intros (bs & He & Hl & Hr) (bs' & He' & Hl' & Hr'). exists (bs ++ bs').
  split; [by apply emits_andthen|]. split; [unfold zlen in *; len_lia|]. by eapply reads_end_andthen.
Qed.

Lemma field_last {A B} wr n (rd : io _ A) (f : A -> B) a :
  field wr n rd a -> field wr n (do x <- rd; ret (f x)) (f a).
Proof. intros (bs & ? & ? & ?). exists bs. eauto using reads_map. Qed.

Lemma field_end_last {A B} wr n (rd : io _ A) (f : A -> B) a :
  field_end wr n rd a -> field_end wr n (do x <- rd; ret (f x)) (f a).
Proof.
  intros (bs & ? & ? & Hr). exists bs. split; [done|]. split; [done|].
  intros Hf T rest HT Ha Hlen. destruct (Hr Hf T rest HT Ha Hlen) as (T' & Heq & Hrest).
  exists T'. split; [|done]. unfold andthen. by rewrite Heq.
Qed.

Lemma field_len {A} wr n n' (rd : io _ A) a : field wr n rd a -> n = n' -> field wr n' rd a.
Proof. by intros ? <-. Qed.
Lemma field_end_len {A} wr n n' (rd : io _ A) a : field_end wr n rd a -> n = n' -> field_end wr n' rd a.
Proof. by intros ? <-. Qed.

(** *** The basic fields *)

Lemma field_String s : x00 ∉ s -> field (Enc.String s) (zlen s + 1) (Dec.String fuel) s.
Proof.
  intros Hs. exists (s ++ [x00]). split; [apply emits_String|].
  split; [unfold zlen; len_lia|by apply reads_String].
Qed.

Lemma field_uint8 b : field (put_uint8 b) 1 (get_uint8 fuel) b.
Proof.
  pose proof (byte.unsigned_range b) as Hb. exists [b].
  split; [|split; [done|]].
  - eapply emits_eq; [apply emits_Uint8| |done]. by rewrite byte.of_Z_unsigned.
  - eapply reads_eq; [apply reads_map, (reads_Uint8 fuel (byte.unsigned b)); lia| |];
      by rewrite byte.of_Z_unsigned.
Qed.

Lemma field_Int8 v : - 2 ^ 7 <= v < 2 ^ 7 -> field (Enc.Int8 v) 1 (Dec.Int8 fuel) v.
Proof.
  intros Hv. exists (be 1 (uwrap 8 v)). split; [apply emits_Uint8|]. split; [done|].
  by apply (reads_swrap fuel 1 8).
Qed.
Lemma field_Int16 v : - 2 ^ 15 <= v < 2 ^ 15 -> field (Enc.Int16 v) 2 (Dec.Int16 fuel) v.
Proof.
  intros Hv. exists (be 2 (uwrap 16 v)). split; [apply emits_Int16|].
  split; [unfold zlen; by rewrite length_be|by apply reads_Int16].
Qed.
Lemma field_Int32 v : - 2 ^ 31 <= v < 2 ^ 31 -> field (Enc.Int32 v) 4 (Dec.Int32 fuel) v.
Proof.
  intros Hv. exists (be 4 (uwrap 32 v)). split; [apply emits_Int32|].
  split; [unfold zlen; by rewrite length_be|by apply reads_Int32].
Qed.
Lemma field_Uint16 v : 0 <= v < 2 ^ 16 -> field (Enc.Uint16 v) 2 (Dec.Uint16 fuel) v.
Proof.
  intros Hv. exists (be 2 v). split; [apply emits_Uint16|].
  split; [unfold zlen; by rewrite length_be|by apply reads_Uint16].
Qed.
Lemma field_Uint32 v : 0 <= v < 2 ^ 32 -> field (Enc.Uint32 v) 4 (Dec.Uint32 fuel) v.
Proof.
  intros Hv. exists (be 4 v). split; [apply emits_Uint32|].
  split; [unfold zlen; by rewrite length_be|by apply reads_Uint32].
Qed.

(** *** Slices *)

Lemma field_n {A} (f : A -> io _ unit) (n : A -> Z) (m : io _ A) (l : list A) :
  Forall (fun x => field (f x) (n x) m x) l ->
  field (write_each f l) (sum_len n l) (read_n (length l) m) l.
Proof.
  induction 1 as [|x l Hx Hl IH]; [apply field_ret|].
  cbn. eapply field_seq; [exact Hx|]. by apply (field_last _ _ _ (cons x)).
Qed.

Lemma field_slice16 {A} (f : A -> io _ unit) (n : A -> Z) (m : io _ A) (l : list A) :
  zlen l < 2 ^ 16 -> Forall (fun x => field (f x) (n x) m x) l ->
  field (write_slice16 f l) (2 + sum_len n l) (read_slice16 fuel m) l.
Proof.
  intros Hl HF. unfold write_slice16, read_slice16. rewrite uwrap_id by (unfold zlen in *; lia).
  eapply field_seq; [apply field_Uint16; unfold zlen in *; lia|].
  unfold zlen. rewrite Nat2Z.id. by apply field_n.
Qed.

Lemma field_slice32 {A} (f : A -> io _ unit) (n : A -> Z) (m : io _ A) (l : list A) :
  zlen l < 2 ^ 32 -> Forall (fun x => field (f x) (n x) m x) l ->
  field (write_slice32 f l) (4 + sum_len n l) (read_slice32 fuel m) l.
Proof.
  intros Hl HF. unfold write_slice32, read_slice32. rewrite uwrap_id by (unfold zlen in *; lia).
  eapply field_seq; [apply field_Uint32; unfold zlen in *; lia|].
  unfold zlen. rewrite Nat2Z.id. by apply field_n.
Qed.

Lemma Forall_field_uint8 l : Forall (fun b => field (put_uint8 b) 1 (get_uint8 fuel) b) l.
Proof. apply Forall_forall. intros b _. apply field_uint8. Qed.

Definition nullable_ok (o : option (list byte)) : Prop :=
  match o with None => True | Some l => zlen l < 2 ^ 31 end.

Lemma field_nullable o : nullable_ok o ->
  field (write_nullable o) (nullable_len o) (read_nullable fuel) o.
Proof.
  destruct o as [l|]; cbn; intros Hl; unfold write_nullable, read_nullable, nullable_len.
  - assert (Hz : 0 <= zlen l) by (unfold zlen; lia).
    replace (swrap 32 (zlen l)) with (zlen l) by
      (rewrite <- (swrap_uwrap 32 (zlen l)) at 1 by lia; by rewrite uwrap_id by lia).
    eapply field_seq; [apply field_Int32; lia|].
    rewrite decide_False by lia. rewrite decide_False by lia. cbn [default].
    apply (field_last _ _ _ Some). unfold zlen. rewrite Nat2Z.id.
    apply (field_n put_uint8 (fun _ => 1)). apply Forall_field_uint8.
  - eapply field_seq; [apply field_Int32; lia|]. rewrite decide_True by done. apply field_ret.
Qed.

(** The slices that occur in packets. *)
Lemma field_Int16s l : zlen l < 2 ^ 16 -> Forall (fun x => - 2 ^ 15 <= x < 2 ^ 15) l ->
  field (write_slice16 Enc.Int16 l) (2 + sum_len (fun _ => 2) l) (read_slice16 fuel (Dec.Int16 fuel)) l.
Proof.
  intros Hl HF. apply field_slice16; [done|]. eapply Forall_impl; [exact HF|]. cbv beta. apply field_Int16.
Qed.
Lemma field_Int32s l : zlen l < 2 ^ 16 -> Forall (fun x => - 2 ^ 31 <= x < 2 ^ 31) l ->
  field (write_slice16 Enc.Int32 l) (2 + sum_len (fun _ => 4) l) (read_slice16 fuel (Dec.Int32 fuel)) l.
Proof.
  intros Hl HF. apply field_slice16; [done|]. eapply Forall_impl; [exact HF|]. cbv beta. apply field_Int32.
Qed.
Lemma field_nullables l : zlen l < 2 ^ 16 -> Forall (fun x => nullable_ok x) l ->
  field (write_slice16 write_nullable l) (2 + sum_len nullable_len l) (read_slice16 fuel (read_nullable fuel)) l.
Proof.
  intros Hl HF. apply field_slice16; [done|]. eapply Forall_impl; [exact HF|]. apply field_nullable.
Qed.
Lemma field_Strings l : zlen l < 2 ^ 32 -> Forall (fun x => x00 ∉ x) l ->
  field (write_slice32 Enc.String l) (4 + sum_len (fun x => zlen x + 1) l) (read_slice32 fuel (Dec.String fuel)) l.
Proof.
  intros Hl HF. apply field_slice32; [done|]. eapply Forall_impl; [exact HF|]. apply field_String.
Qed.

Lemma remaining_loop_spec f l acc :
  (length l <= f)%nat -> (length l < fuel)%nat -> forall T rest, dinv T -> avail T = l ++ rest ->
  Dec.packetLength T = Dec.packetPos T + zlen l ->
  exists T', read_remaining_loop fuel f acc T = Ret (inr (acc ++ l), T') /\ dinv T' /\ avail T' = rest /\
    Dec.packetType T' = Dec.packetType T /\ Dec.packetLength T' = Dec.packetLength T /\
    Dec.packetPos T' = Dec.packetLength T'.
Proof.
  revert f acc. induction l as [|b l IH]; intros f acc Hf Hfu T rest HT Ha Hlen; unfold zlen in *.
  - exists T. rewrite app_nil_r. cbn in Hlen. split; [|do 4 (split; [done|]); lia].
    destruct f; cbn [read_remaining_loop]; by rewrite decide_True by lia.
  - destruct f as [|f]; [cbn in Hf; lia|]. cbn [read_remaining_loop].
    rewrite decide_False by (cbn [length] in Hlen; lia).
    assert (Hb : reads fuel (get_uint8 fuel) [b] b).
    { eapply reads_eq; [apply reads_map, (reads_Uint8 fuel (byte.unsigned b));
        pose proof (byte.unsigned_range b); lia| |]; by rewrite byte.of_Z_unsigned. }
    destruct (Hb ltac:(cbn in *; lia) T (l ++ rest) HT Ha) as (T1 & Hg & HT1 & Ha1 & Ht1 & Hl1 & Hp1).
    unfold andthen. rewrite Hg. cbn [obind fst snd].
    destruct (IH f (acc ++ [b]) ltac:(cbn in *; lia) ltac:(cbn in *; lia) T1 rest HT1 Ha1)
      as (T' & -> & HT' & Ha' & Ht' & Hl' & Hp'); [cbn in *; lia|].
    exists T'. rewrite <- app_assoc. split; [done|]. do 2 (split; [done|]). split; [congruence|].
    split; congruence.
Qed.

Lemma field_remaining l :
  field_end (write_each put_uint8 l) (sum_len (fun _ => 1) l) (read_remaining fuel) l.
Proof.
  assert (Hem : emits (write_each put_uint8 l) l (sum_len (fun _ => 1) l)).
  { clear. induction l as [|b l IH]; [apply emits_ret|]. cbn.
    apply (emits_andthen _ _ [b] l); [|exact IH].
    eapply emits_eq; [apply emits_Uint8| |done]. by rewrite byte.of_Z_unsigned. }
  exists l. split; [done|]. split.
  - clear. induction l as [|b l IH]; [done|]. unfold zlen, sum_len in *. cbn [length foldr]. lia.
  - intros Hf T rest HT Ha Hlen. unfold read_remaining.
    destruct (remaining_loop_spec fuel l [] ltac:(lia) Hf T rest HT Ha Hlen) as (T' & ? & ?). eauto.
Qed.

(** A list ended by a zero element: every element [x] is written as at least
    one byte by [f x], and [wt] writes the end mark. *)
Lemma field_until {A} (f : A -> io _ unit) (n : A -> Z) wt nt (m : io _ (option A)) (l : list A) :
  Forall (fun x => field (f x) (n x) m (Some x)) l -> (forall x, 0 < n x) -> field wt nt m None ->
  field (write_each f l ;; wt) (sum_len n l + nt) (read_until fuel m) l.
Proof.
  intros HF Hpos (term & Het & Hlt & Hrt).
  assert (Hg : exists bss, Forall2 (fun x bs => emits (f x) bs (n x) /\ zlen bs = n x /\ reads fuel m bs (Some x)) l bss).
  { clear -HF. induction HF as [|x l Hx HF [bss IH]]; [by exists []|].
    destruct Hx as (bs & Hx). exists (bs :: bss). by constructor. }
  destruct Hg as [bss Hbss].
  assert (Hc : emits (write_each f l) (concat bss) (sum_len n l) /\ zlen (concat bss) = sum_len n l /\
    (length l <= length (concat bss))%nat).
  { clear -Hbss Hpos. induction Hbss as [|x bs l bss (He & Hl & _) HF (IH1 & IH2 & IH3)].
    - split; [apply emits_ret|]. done.
    - cbn. split; [by apply emits_andthen|]. unfold zlen, sum_len in *. rewrite length_app.
      specialize (Hpos x). split; [lia|]. lia. }
  destruct Hc as (He & Hl & Hge).
  exists (concat bss ++ term). split; [by apply emits_andthen|].
  split; [unfold zlen in *; len_lia|]. intros Hf.
  assert (Hloop : forall f' acc, (length l < f')%nat ->
    reads fuel (read_until_loop f' m acc) (concat bss ++ term) (acc ++ l)).
  { clear -Hbss Hrt. induction Hbss as [|x bs l bss (_ & _ & Hx) HF IH]; intros f' acc Hf';
      (destruct f' as [|f']; [cbn in Hf'; lia|]); cbn [read_until_loop].
    - cbn. rewrite app_nil_r, <- (app_nil_r term). eapply reads_andthen; [exact Hrt|apply reads_ret].
    - cbn [concat]. rewrite <- app_assoc. eapply reads_andthen; [exact Hx|]. cbn.
      replace (acc ++ x :: l) with ((acc ++ [x]) ++ l) by (by rewrite <- app_assoc).
      apply IH. cbn in Hf'. lia. }
  apply (Hloop fuel []); [|exact Hf]. rewrite length_app in Hf. lia.
Qed.
End Fields.

#[export] Hint Resolve field_String field_uint8 field_Int8 field_Int16 field_Int32 field_Uint16
  field_Uint32 field_Int16s field_Int32s field_nullables field_Strings field_nullable field_remaining
  field_ret : pggat.

(** Proves that a struct is a codec, field by field. *)
Ltac codec_field := solve [eauto with pggat | apply field_field_end; eauto with pggat].
Ltac codec_step :=
  first [ eapply field_end_last; codec_field
        | eapply field_end_seq; [codec_field|cbv beta]
        | codec_field ].
Ltac codec := eapply field_end_len; [repeat codec_step|unfold nullable_len; lia].

(** ** The packets *)

Module BackendKeyData.
Record t := mk { ProcessID : Z; SecretKey : Z }.
Definition Type_ : byte := x4b. (* K *)
Definition Length (T : t) : Z :=
  (4) +
  (4).
Definition valid (T : t) : Prop :=
  (- 2 ^ 31 <= (ProcessID T) < 2 ^ 31) /\
  (- 2 ^ 31 <= (SecretKey T) < 2 ^ 31).
Section Codec.
Context {W : Type} `{Writer W} {R : Type} `{Reader R} (fuel : nat).
Definition Body : io (Dec.Decoder R) t :=
  do ProcessID <- Dec.Int32 fuel;
  do SecretKey <- Dec.Int32 fuel;
  ret (mk ProcessID SecretKey).
Definition ReadFrom : io (Dec.Decoder R) t := expect Type_ Body.
Definition WriteTo (T : t) : io (Enc.Encoder W) unit :=
  Enc.Int32 (ProcessID T) ;;
  Enc.Int32 (SecretKey T).
End Codec.

Lemma BackendKeyData_ok {W} `{WriterLaws W} {R} `{ReaderLaws R} fuel (T : t) :
  valid T -> field_end fuel (W := W) (R := R) (WriteTo T) (Length T) (Body fuel) T.
Proof.
  destruct T as [f0 f1].
  unfold valid, WriteTo, Length, Body. cbn [ProcessID SecretKey].
  intros (V0 & V1). codec.
Qed.
End BackendKeyData.

Module Bind.
Record t := mk { Destination : gostring; Source : gostring; FormatCodes : list Z; Parameters : list (option (list byte)); ResultFormatCodes : list Z }.
Definition Type_ : byte := x42. (* B *)
Definition Length (T : t) : Z :=
  (zlen (Destination T) + 1) +
  (zlen (Source T) + 1) +
  (2 + sum_len (fun _ => 2) (FormatCodes T)) +
  (2 + sum_len nullable_len (Parameters T)) +
  (2 + sum_len (fun _ => 2) (ResultFormatCodes T)).
Definition valid (T : t) : Prop :=
  (x00 ∉ (Destination T)) /\
  (x00 ∉ (Source T)) /\
  (zlen (FormatCodes T) < 2 ^ 16 /\ Forall (fun x => - 2 ^ 15 <= x < 2 ^ 15) (FormatCodes T)) /\
  (zlen (Parameters T) < 2 ^ 16 /\ Forall (fun x => nullable_ok x) (Parameters T)) /\
  (zlen (ResultFormatCodes T) < 2 ^ 16 /\ Forall (fun x => - 2 ^ 15 <= x < 2 ^ 15) (ResultFormatCodes T)).
Section Codec.
Context {W : Type} `{Writer W} {R : Type} `{Reader R} (fuel : nat).
Definition Body : io (Dec.Decoder R) t :=
  do Destination <- Dec.String fuel;
  do Source <- Dec.String fuel;
  do FormatCodes <- read_slice16 fuel (Dec.Int16 fuel);
  do Parameters <- read_slice16 fuel (read_nullable fuel);
  do ResultFormatCodes <- read_slice16 fuel (Dec.Int16 fuel);
  ret (mk Destination Source FormatCodes Parameters ResultFormatCodes).
Definition ReadFrom : io (Dec.Decoder R) t := expect Type_ Body.
Definition WriteTo (T : t) : io (Enc.Encoder W) unit :=
  Enc.String (Destination T) ;;
  Enc.String (Source T) ;;
  write_slice16 Enc.Int16 (FormatCodes T) ;;
  write_slice16 write_nullable (Parameters T) ;;
  write_slice16 Enc.Int16 (ResultFormatCodes T).
End Codec.

Lemma Bind_ok {W} `{WriterLaws W} {R} `{ReaderLaws R} fuel (T : t) :
  valid T -> field_end fuel (W := W) (R := R) (WriteTo T) (Length T) (Body fuel) T.
Proof.
  destruct T as [f0 f1 f2 f3 f4].
  unfold valid, WriteTo, Length, Body. cbn [Destination Source FormatCodes Parameters ResultFormatCodes].
  intros (V0 & V1 & (V2 & F2) & (V3 & F3) & (V4 & F4)). codec.
Qed.
End Bind.

Module BindComplete.
Definition t := unit.
Definition Type_ : byte := x32. (* 2 *)
Definition Length (T : t) : Z := 0.
Definition valid (T : t) : Prop := True.
Section Codec.
Context {W : Type} `{Writer W} {R : Type} `{Reader R} (fuel : nat).
Definition Body : io (Dec.Decoder R) t :=
  ret tt.
Definition ReadFrom : io (Dec.Decoder R) t := expect Type_ Body.
Definition WriteTo (T : t) : io (Enc.Encoder W) unit :=
  ret tt.
End Codec.

Lemma BindComplete_ok {W} `{WriterLaws W} {R} `{ReaderLaws R} fuel (T : t) :
  valid T -> field_end fuel (W := W) (R := R) (WriteTo T) (Length T) Body T.
Proof.
  destruct T. intros _. apply field_field_end, field_ret.
Qed.
End BindComplete.

Module Close.
Record t := mk { Which : byte; Name : gostring }.
Definition Type_ : byte := x43. (* C *)
Definition Length (T : t) : Z :=
  (1) +
  (zlen (Name T) + 1).
Definition valid (T : t) : Prop :=
  (x00 ∉ (Name T)).
Section Codec.
Context {W : Type} `{Writer W} {R : Type} `{Reader R} (fuel : nat).
Definition Body : io (Dec.Decoder R) t :=
  do Which <- get_uint8 fuel;
  do Name <- Dec.String fuel;
  ret (mk Which Name).
Definition ReadFrom : io (Dec.Decoder R) t := expect Type_ Body.
Definition WriteTo (T : t) : io (Enc.Encoder W) unit :=
  put_uint8 (Which T) ;;
  Enc.String (Name T).
End Codec.

Lemma Close_ok {W} `{WriterLaws W} {R} `{ReaderLaws R} fuel (T : t) :
  valid T -> field_end fuel (W := W) (R := R) (WriteTo T) (Length T) (Body fuel) T.
Proof.
  destruct T as [f0 f1].
  unfold valid, WriteTo, Length, Body. cbn [Which Name].
  intros V1. codec.
Qed.
End Close.

Module CloseComplete.
Definition t := unit.
Definition Type_ : byte := x33. (* 3 *)
Definition Length (T : t) : Z := 0.
Definition valid (T : t) : Prop := True.
Section Codec.
Context {W : Type} `{Writer W} {R : Type} `{Reader R} (fuel : nat).
Definition Body : io (Dec.Decoder R) t :=
  ret tt.
Definition ReadFrom : io (Dec.Decoder R) t := expect Type_ Body.
Definition WriteTo (T : t) : io (Enc.Encoder W) unit :=
  ret tt.
End Codec.

Lemma CloseComplete_ok {W} `{WriterLaws W} {R} `{ReaderLaws R} fuel (T : t) :
  valid T -> field_end fuel (W := W) (R := R) (WriteTo T) (Length T) Body T.
Proof.
  destruct T. intros _. apply field_field_end, field_ret.
Qed.
End CloseComplete.

Module CommandComplete.
Definition t := gostring.
Definition Type_ : byte := x43. (* C *)
Definition Length (T : t) : Z := zlen T + 1.
Definition valid (T : t) : Prop := x00 ∉ T.
Section Codec.
Context {W : Type} `{Writer W} {R : Type} `{Reader R} (fuel : nat).
Definition Body : io (Dec.Decoder R) t :=
  Dec.String fuel.
Definition ReadFrom : io (Dec.Decoder R) t := expect Type_ Body.
Definition WriteTo (T : t) : io (Enc.Encoder W) unit :=
  Enc.String T.
End Codec.

Lemma CommandComplete_ok {W} `{WriterLaws W} {R} `{ReaderLaws R} fuel (T : t) :
  valid T -> field_end fuel (W := W) (R := R) (WriteTo T) (Length T) (Body fuel) T.
Proof.
  intros HT. apply field_field_end. by apply field_String.
Qed.
End CommandComplete.

Module CopyBothResponse.
Record t := mk { Mode : Z; ColumnFormatCodes : list Z }.
Definition Type_ : byte := x57. (* W *)
Definition Length (T : t) : Z :=
  (1) +
  (2 + sum_len (fun _ => 2) (ColumnFormatCodes T)).
Definition valid (T : t) : Prop :=
  (- 2 ^ 7 <= (Mode T) < 2 ^ 7) /\
  (zlen (ColumnFormatCodes T) < 2 ^ 16 /\ Forall (fun x => - 2 ^ 15 <= x < 2 ^ 15) (ColumnFormatCodes T)).
Section Codec.
Context {W : Type} `{Writer W} {R : Type} `{Reader R} (fuel : nat).
Definition Body : io (Dec.Decoder R) t :=
  do Mode <- Dec.Int8 fuel;
  do ColumnFormatCodes <- read_slice16 fuel (Dec.Int16 fuel);
  ret (mk Mode ColumnFormatCodes).
Definition ReadFrom : io (Dec.Decoder R) t := expect Type_ Body.
Definition WriteTo (T : t) : io (Enc.Encoder W) unit :=
  Enc.Int8 (Mode T) ;;
  write_slice16 Enc.Int16 (ColumnFormatCodes T).
End Codec.

Lemma CopyBothResponse_ok {W} `{WriterLaws W} {R} `{ReaderLaws R} fuel (T : t) :
  valid T -> field_end fuel (W := W) (R := R) (WriteTo T) (Length T) (Body fuel) T.
Proof.
  destruct T as [f0 f1].
  unfold valid, WriteTo, Length, Body. cbn [Mode ColumnFormatCodes].
  intros (V0 & (V1 & F1)). codec.
Qed.
End CopyBothResponse.

Module CopyData.
Definition t := list byte.
Definition Type_ : byte := x64. (* d *)
Definition Length (T : t) : Z := sum_len (fun _ => 1) T.
Definition valid (T : t) : Prop := True.
Section Codec.
Context {W : Type} `{Writer W} {R : Type} `{Reader R} (fuel : nat).
Definition Body : io (Dec.Decoder R) t :=
  read_remaining fuel.
Definition ReadFrom : io (Dec.Decoder R) t := expect Type_ Body.
Definition WriteTo (T : t) : io (Enc.Encoder W) unit :=
  write_each put_uint8 T.
End Codec.

Lemma CopyData_ok {W} `{WriterLaws W} {R} `{ReaderLaws R} fuel (T : t) :
  valid T -> field_end fuel (W := W) (R := R) (WriteTo T) (Length T) (Body fuel) T.
Proof.
  intros _. apply field_remaining.
Qed.
End CopyData.

Module CopyDone.
Definition t := unit.
Definition Type_ : byte := x63. (* c *)
Definition Length (T : t) : Z := 0.
Definition valid (T : t) : Prop := True.
Section Codec.
Context {W : Type} `{Writer W} {R : Type} `{Reader R} (fuel : nat).
Definition Body : io (Dec.Decoder R) t :=
  ret tt.
Definition ReadFrom : io (Dec.Decoder R) t := expect Type_ Body.
Definition WriteTo (T : t) : io (Enc.Encoder W) unit :=
  ret tt.
End Codec.

Lemma CopyDone_ok {W} `{WriterLaws W} {R} `{ReaderLaws R} fuel (T : t) :
  valid T -> field_end fuel (W := W) (R := R) (WriteTo T) (Length T) Body T.
Proof.
  destruct T. intros _. apply field_field_end, field_ret.
Qed.
End CopyDone.

Module CopyFail.
Definition t := gostring.
Definition Type_ : byte := x66. (* f *)
Definition Length (T : t) : Z := zlen T + 1.
Definition valid (T : t) : Prop := x00 ∉ T.
Section Codec.
Context {W : Type} `{Writer W} {R : Type} `{Reader R} (fuel : nat).
Definition Body : io (Dec.Decoder R) t :=
  Dec.String fuel.
Definition ReadFrom : io (Dec.Decoder R) t := expect Type_ Body.
Definition WriteTo (T : t) : io (Enc.Encoder W) unit :=
  Enc.String T.
End Codec.

Lemma CopyFail_ok {W} `{WriterLaws W} {R} `{ReaderLaws R} fuel (T : t) :
  valid T -> field_end fuel (W := W) (R := R) (WriteTo T) (Length T) (Body fuel) T.
Proof.
  intros HT. apply field_field_end. by apply field_String.
Qed.
End CopyFail.

Module CopyInResponse.
Record t := mk { Mode : Z; ColumnFormatCodes : list Z }.
Definition Type_ : byte := x47. (* G *)
Definition Length (T : t) : Z :=
  (1) +
  (2 + sum_len (fun _ => 2) (ColumnFormatCodes T)).
Definition valid (T : t) : Prop :=
  (- 2 ^ 7 <= (Mode T) < 2 ^ 7) /\
  (zlen (ColumnFormatCodes T) < 2 ^ 16 /\ Forall (fun x => - 2 ^ 15 <= x < 2 ^ 15) (ColumnFormatCodes T)).
Section Codec.
Context {W : Type} `{Writer W} {R : Type} `{Reader R} (fuel : nat).
Definition Body : io (Dec.Decoder R) t :=
  do Mode <- Dec.Int8 fuel;
  do ColumnFormatCodes <- read_slice16 fuel (Dec.Int16 fuel);
  ret (mk Mode ColumnFormatCodes).
Definition ReadFrom : io (Dec.Decoder R) t := expect Type_ Body.
Definition WriteTo (T : t) : io (Enc.Encoder W) unit :=
  Enc.Int8 (Mode T) ;;
  write_slice16 Enc.Int16 (ColumnFormatCodes T).
End Codec.

Lemma CopyInResponse_ok {W} `{WriterLaws W} {R} `{ReaderLaws R} fuel (T : t) :
  valid T -> field_end fuel (W := W) (R := R) (WriteTo T) (Length T) (Body fuel) T.
Proof.
  destruct T as [f0 f1].
  unfold valid, WriteTo, Length, Body. cbn [Mode ColumnFormatCodes].
  intros (V0 & (V1 & F1)). codec.
Qed.
End CopyInResponse.

Module CopyOutResponse.
Record t := mk { Mode : Z; ColumnFormatCodes : list Z }.
Definition Type_ : byte := x48. (* H *)
Definition Length (T : t) : Z :=
  (1) +
  (2 + sum_len (fun _ => 2) (ColumnFormatCodes T)).
Definition valid (T : t) : Prop :=
  (- 2 ^ 7 <= (Mode T) < 2 ^ 7) /\
  (zlen (ColumnFormatCodes T) < 2 ^ 16 /\ Forall (fun x => - 2 ^ 15 <= x < 2 ^ 15) (ColumnFormatCodes T)).
Section Codec.
Context {W : Type} `{Writer W} {R : Type} `{Reader R} (fuel : nat).
Definition Body : io (Dec.Decoder R) t :=
  do Mode <- Dec.Int8 fuel;
  do ColumnFormatCodes <- read_slice16 fuel (Dec.Int16 fuel);
  ret (mk Mode ColumnFormatCodes).
Definition ReadFrom : io (Dec.Decoder R) t := expect Type_ Body.
Definition WriteTo (T : t) : io (Enc.Encoder W) unit :=
  Enc.Int8 (Mode T) ;;
  write_slice16 Enc.Int16 (ColumnFormatCodes T).
End Codec.

Lemma CopyOutResponse_ok {W} `{WriterLaws W} {R} `{ReaderLaws R} fuel (T : t) :
  valid T -> field_end fuel (W := W) (R := R) (WriteTo T) (Length T) (Body fuel) T.
Proof.
  destruct T as [f0 f1].
  unfold valid, WriteTo, Length, Body. cbn [Mode ColumnFormatCodes].
  intros (V0 & (V1 & F1)). codec.
Qed.
End CopyOutResponse.

Module DataRow.
Definition t := list (option (list byte)).
Definition Type_ : byte := x44. (* D *)
Definition Length (T : t) : Z := 2 + sum_len nullable_len T.
Definition valid (T : t) : Prop := zlen T < 2 ^ 16 /\ Forall (fun x => nullable_ok x) T.
Section Codec.
Context {W : Type} `{Writer W} {R : Type} `{Reader R} (fuel : nat).
Definition Body : io (Dec.Decoder R) t :=
  read_slice16 fuel (read_nullable fuel).
Definition ReadFrom : io (Dec.Decoder R) t := expect Type_ Body.
Definition WriteTo (T : t) : io (Enc.Encoder W) unit :=
  write_slice16 write_nullable T.
End Codec.

Lemma DataRow_ok {W} `{WriterLaws W} {R} `{ReaderLaws R} fuel (T : t) :
  valid T -> field_end fuel (W := W) (R := R) (WriteTo T) (Length T) (Body fuel) T.
Proof.
  intros [Hl HF]. apply field_field_end. by apply field_nullables.
Qed.
End DataRow.

Module Describe.
Record t := mk { Which : byte; Name : gostring }.
Definition Type_ : byte := x44. (* D *)
Definition Length (T : t) : Z :=
  (1) +
  (zlen (Name T) + 1).
Definition valid (T : t) : Prop :=
  (x00 ∉ (Name T)).
Section Codec.
Context {W : Type} `{Writer W} {R : Type} `{Reader R} (fuel : nat).
Definition Body : io (Dec.Decoder R) t :=
  do Which <- get_uint8 fuel;
  do Name <- Dec.String fuel;
  ret (mk Which Name).
Definition ReadFrom : io (Dec.Decoder R) t := expect Type_ Body.
Definition WriteTo (T : t) : io (Enc.Encoder W) unit :=
  put_uint8 (Which T) ;;
  Enc.String (Name T).
End Codec.

Lemma Describe_ok {W} `{WriterLaws W} {R} `{ReaderLaws R} fuel (T : t) :
  valid T -> field_end fuel (W := W) (R := R) (WriteTo T) (Length T) (Body fuel) T.
Proof.
  destruct T as [f0 f1].
  unfold valid, WriteTo, Length, Body. cbn [Which Name].
  intros V1. codec.
Qed.
End Describe.

Module EmptyQueryResponse.
Definition t := unit.
Definition Type_ : byte := x49. (* I *)
Definition Length (T : t) : Z := 0.
Definition valid (T : t) : Prop := True.
Section Codec.
Context {W : Type} `{Writer W} {R : Type} `{Reader R} (fuel : nat).
Definition Body : io (Dec.Decoder R) t :=
  ret tt.
Definition ReadFrom : io (Dec.Decoder R) t := expect Type_ Body.
Definition WriteTo (T : t) : io (Enc.Encoder W) unit :=
  ret tt.
End Codec.

Lemma EmptyQueryResponse_ok {W} `{WriterLaws W} {R} `{ReaderLaws R} fuel (T : t) :
  valid T -> field_end fuel (W := W) (R := R) (WriteTo T) (Length T) Body T.
Proof.
  destruct T. intros _. apply field_field_end, field_ret.
Qed.
End EmptyQueryResponse.

Module Execute.
Record t := mk { Target : gostring; MaxRows : Z }.
Definition Type_ : byte := x45. (* E *)
Definition Length (T : t) : Z :=
  (zlen (Target T) + 1) +
  (4).
Definition valid (T : t) : Prop :=
  (x00 ∉ (Target T)) /\
  (0 <= (MaxRows T) < 2 ^ 32).
Section Codec.
Context {W : Type} `{Writer W} {R : Type} `{Reader R} (fuel : nat).
Definition Body : io (Dec.Decoder R) t :=
  do Target <- Dec.String fuel;
  do MaxRows <- Dec.Uint32 fuel;
  ret (mk Target MaxRows).
Definition ReadFrom : io (Dec.Decoder R) t := expect Type_ Body.
Definition WriteTo (T : t) : io (Enc.Encoder W) unit :=
  Enc.String (Target T) ;;
  Enc.Uint32 (MaxRows T).
End Codec.

Lemma Execute_ok {W} `{WriterLaws W} {R} `{ReaderLaws R} fuel (T : t) :
  valid T -> field_end fuel (W := W) (R := R) (WriteTo T) (Length T) (Body fuel) T.
Proof.
  destruct T as [f0 f1].
  unfold valid, WriteTo, Length, Body. cbn [Target MaxRows].
  intros (V0 & V1). codec.
Qed.
End Execute.

Module Flush.
Definition t := unit.
Definition Type_ : byte := x48. (* H *)
Definition Length (T : t) : Z := 0.
Definition valid (T : t) : Prop := True.
Section Codec.
Context {W : Type} `{Writer W} {R : Type} `{Reader R} (fuel : nat).
Definition Body : io (Dec.Decoder R) t :=
  ret tt.
Definition ReadFrom : io (Dec.Decoder R) t := expect Type_ Body.
Definition WriteTo (T : t) : io (Enc.Encoder W) unit :=
  ret tt.
End Codec.

Lemma Flush_ok {W} `{WriterLaws W} {R} `{ReaderLaws R} fuel (T : t) :
  valid T -> field_end fuel (W := W) (R := R) (WriteTo T) (Length T) Body T.
Proof.
  destruct T. intros _. apply field_field_end, field_ret.
Qed.
End Flush.

Module FunctionCall.
Record t := mk { ObjectID : Z; ArgumentFormatCodes : list Z; Arguments : list (option (list byte)); ResultFormatCode : Z }.
Definition Type_ : byte := x46. (* F *)
Definition Length (T : t) : Z :=
  (4) +
  (2 + sum_len (fun _ => 2) (ArgumentFormatCodes T)) +
  (2 + sum_len nullable_len (Arguments T)) +
  (2).
Definition valid (T : t) : Prop :=
  (- 2 ^ 31 <= (ObjectID T) < 2 ^ 31) /\
  (zlen (ArgumentFormatCodes T) < 2 ^ 16 /\ Forall (fun x => - 2 ^ 15 <= x < 2 ^ 15) (ArgumentFormatCodes T)) /\
  (zlen (Arguments T) < 2 ^ 16 /\ Forall (fun x => nullable_ok x) (Arguments T)) /\
  (- 2 ^ 15 <= (ResultFormatCode T) < 2 ^ 15).
Section Codec.
Context {W : Type} `{Writer W} {R : Type} `{Reader R} (fuel : nat).
Definition Body : io (Dec.Decoder R) t :=
  do ObjectID <- Dec.Int32 fuel;
  do ArgumentFormatCodes <- read_slice16 fuel (Dec.Int16 fuel);
  do Arguments <- read_slice16 fuel (read_nullable fuel);
  do ResultFormatCode <- Dec.Int16 fuel;
  ret (mk ObjectID ArgumentFormatCodes Arguments ResultFormatCode).
Definition ReadFrom : io (Dec.Decoder R) t := expect Type_ Body.
Definition WriteTo (T : t) : io (Enc.Encoder W) unit :=
  Enc.Int32 (ObjectID T) ;;
  write_slice16 Enc.Int16 (ArgumentFormatCodes T) ;;
  write_slice16 write_nullable (Arguments T) ;;
  Enc.Int16 (ResultFormatCode T).
End Codec.

Lemma FunctionCall_ok {W} `{WriterLaws W} {R} `{ReaderLaws R} fuel (T : t) :
  valid T -> field_end fuel (W := W) (R := R) (WriteTo T) (Length T) (Body fuel) T.
Proof.
  destruct T as [f0 f1 f2 f3].
  unfold valid, WriteTo, Length, Body. cbn [ObjectID ArgumentFormatCodes Arguments ResultFormatCode].
  intros (V0 & (V1 & F1) & (V2 & F2) & V3). codec.
Qed.
End FunctionCall.

Module FunctionCallResponse.
Definition t := option (list byte).
Definition Type_ : byte := x56. (* V *)
Definition Length (T : t) : Z := nullable_len T.
Definition valid (T : t) : Prop := nullable_ok T.
Section Codec.
Context {W : Type} `{Writer W} {R : Type} `{Reader R} (fuel : nat).
Definition Body : io (Dec.Decoder R) t :=
  read_nullable fuel.
Definition ReadFrom : io (Dec.Decoder R) t := expect Type_ Body.
Definition WriteTo (T : t) : io (Enc.Encoder W) unit :=
  write_nullable T.
End Codec.

Lemma FunctionCallResponse_ok {W} `{WriterLaws W} {R} `{ReaderLaws R} fuel (T : t) :
  valid T -> field_end fuel (W := W) (R := R) (WriteTo T) (Length T) (Body fuel) T.
Proof.
  intros HT. apply field_field_end. by apply field_nullable.
Qed.
End FunctionCallResponse.

Module GSSResponse.
Definition t := list byte.
Definition Type_ : byte := x70. (* p *)
Definition Length (T : t) : Z := sum_len (fun _ => 1) T.
Definition valid (T : t) : Prop := True.
Section Codec.
Context {W : Type} `{Writer W} {R : Type} `{Reader R} (fuel : nat).
Definition Body : io (Dec.Decoder R) t :=
  read_remaining fuel.
Definition ReadFrom : io (Dec.Decoder R) t := expect Type_ Body.
Definition WriteTo (T : t) : io (Enc.Encoder W) unit :=
  write_each put_uint8 T.
End Codec.

Lemma GSSResponse_ok {W} `{WriterLaws W} {R} `{ReaderLaws R} fuel (T : t) :
  valid T -> field_end fuel (W := W) (R := R) (WriteTo T) (Length T) (Body fuel) T.
Proof.
  intros _. apply field_remaining.
Qed.
End GSSResponse.

Module NegotiateProtocolVersion.
Record t := mk { MinorProtocolVersion : Z; UnrecognizedProtocolOptions : list gostring }.
Definition Type_ : byte := x76. (* v *)
Definition Length (T : t) : Z :=
  (4) +
  (4 + sum_len (fun x => zlen x + 1) (UnrecognizedProtocolOptions T)).
Definition valid (T : t) : Prop :=
  (- 2 ^ 31 <= (MinorProtocolVersion T) < 2 ^ 31) /\
  (zlen (UnrecognizedProtocolOptions T) < 2 ^ 32 /\ Forall (fun x => x00 ∉ x) (UnrecognizedProtocolOptions T)).
Section Codec.
Context {W : Type} `{Writer W} {R : Type} `{Reader R} (fuel : nat).
Definition Body : io (Dec.Decoder R) t :=
  do MinorProtocolVersion <- Dec.Int32 fuel;
  do UnrecognizedProtocolOptions <- read_slice32 fuel (Dec.String fuel);
  ret (mk MinorProtocolVersion UnrecognizedProtocolOptions).
Definition ReadFrom : io (Dec.Decoder R) t := expect Type_ Body.
Definition WriteTo (T : t) : io (Enc.Encoder W) unit :=
  Enc.Int32 (MinorProtocolVersion T) ;;
  write_slice32 Enc.String (UnrecognizedProtocolOptions T).
End Codec.

Lemma NegotiateProtocolVersion_ok {W} `{WriterLaws W} {R} `{ReaderLaws R} fuel (T : t) :
  valid T -> field_end fuel (W := W) (R := R) (WriteTo T) (Length T) (Body fuel) T.
Proof.
  destruct T as [f0 f1].
  unfold valid, WriteTo, Length, Body. cbn [MinorProtocolVersion UnrecognizedProtocolOptions].
  intros (V0 & (V1 & F1)). codec.
Qed.
End NegotiateProtocolVersion.

Module NoData.
Definition t := unit.
Definition Type_ : byte := x6e. (* n *)
Definition Length (T : t) : Z := 0.
Definition valid (T : t) : Prop := True.
Section Codec.
Context {W : Type} `{Writer W} {R : Type} `{Reader R} (fuel : nat).
Definition Body : io (Dec.Decoder R) t :=
  ret tt.
Definition ReadFrom : io (Dec.Decoder R) t := expect Type_ Body.
Definition WriteTo (T : t) : io (Enc.Encoder W) unit :=
  ret tt.
End Codec.

Lemma NoData_ok {W} `{WriterLaws W} {R} `{ReaderLaws R} fuel (T : t) :
  valid T -> field_end fuel (W := W) (R := R) (WriteTo T) (Length T) Body T.
Proof.
  destruct T. intros _. apply field_field_end, field_ret.
Qed.
End NoData.

Module NotificationResponse.
Record t := mk { ProcessID : Z; Channel : gostring; Payload : gostring }.
Definition Type_ : byte := x41. (* A *)
Definition Length (T : t) : Z :=
  (4) +
  (zlen (Channel T) + 1) +
  (zlen (Payload T) + 1).
Definition valid (T : t) : Prop :=
  (- 2 ^ 31 <= (ProcessID T) < 2 ^ 31) /\
  (x00 ∉ (Channel T)) /\
  (x00 ∉ (Payload T)).
Section Codec.
Context {W : Type} `{Writer W} {R : Type} `{Reader R} (fuel : nat).
Definition Body : io (Dec.Decoder R) t :=
  do ProcessID <- Dec.Int32 fuel;
  do Channel <- Dec.String fuel;
  do Payload <- Dec.String fuel;
  ret (mk ProcessID Channel Payload).
Definition ReadFrom : io (Dec.Decoder R) t := expect Type_ Body.
Definition WriteTo (T : t) : io (Enc.Encoder W) unit :=
  Enc.Int32 (ProcessID T) ;;
  Enc.String (Channel T) ;;
  Enc.String (Payload T).
End Codec.

Lemma NotificationResponse_ok {W} `{WriterLaws W} {R} `{ReaderLaws R} fuel (T : t) :
  valid T -> field_end fuel (W := W) (R := R) (WriteTo T) (Length T) (Body fuel) T.
Proof.
  destruct T as [f0 f1 f2].
  unfold valid, WriteTo, Length, Body. cbn [ProcessID Channel Payload].
  intros (V0 & V1 & V2). codec.
Qed.
End NotificationResponse.

Module ParameterDescription.
Definition t := list Z.
Definition Type_ : byte := x74. (* t *)
Definition Length (T : t) : Z := 2 + sum_len (fun _ => 4) T.
Definition valid (T : t) : Prop := zlen T < 2 ^ 16 /\ Forall (fun x => - 2 ^ 31 <= x < 2 ^ 31) T.
Section Codec.
Context {W : Type} `{Writer W} {R : Type} `{Reader R} (fuel : nat).
Definition Body : io (Dec.Decoder R) t :=
  read_slice16 fuel (Dec.Int32 fuel).
Definition ReadFrom : io (Dec.Decoder R) t := expect Type_ Body.
Definition WriteTo (T : t) : io (Enc.Encoder W) unit :=
  write_slice16 Enc.Int32 T.
End Codec.

Lemma ParameterDescription_ok {W} `{WriterLaws W} {R} `{ReaderLaws R} fuel (T : t) :
  valid T -> field_end fuel (W := W) (R := R) (WriteTo T) (Length T) (Body fuel) T.
Proof.
  intros [Hl HF]. apply field_field_end. by apply field_Int32s.
Qed.
End ParameterDescription.

Module ParameterStatus.
Record t := mk { Key : gostring; Value : gostring }.
Definition Type_ : byte := x53. (* S *)
Definition Length (T : t) : Z :=
  (zlen (Key T) + 1) +
  (zlen (Value T) + 1).
Definition valid (T : t) : Prop :=
  (x00 ∉ (Key T)) /\
  (x00 ∉ (Value T)).
Section Codec.
Context {W : Type} `{Writer W} {R : Type} `{Reader R} (fuel : nat).
Definition Body : io (Dec.Decoder R) t :=
  do Key <- Dec.String fuel;
  do Value <- Dec.String fuel;
  ret (mk Key Value).
Definition ReadFrom : io (Dec.Decoder R) t := expect Type_ Body.
Definition WriteTo (T : t) : io (Enc.Encoder W) unit :=
  Enc.String (Key T) ;;
  Enc.String (Value T).
End Codec.

Lemma ParameterStatus_ok {W} `{WriterLaws W} {R} `{ReaderLaws R} fuel (T : t) :
  valid T -> field_end fuel (W := W) (R := R) (WriteTo T) (Length T) (Body fuel) T.
Proof.
  destruct T as [f0 f1].
  unfold valid, WriteTo, Length, Body. cbn [Key Value].
  intros (V0 & V1). codec.
Qed.
End ParameterStatus.

Module Parse.
Record t := mk { Destination : gostring; Query : gostring; ParameterDataTypes : list Z }.
Definition Type_ : byte := x50. (* P *)
Definition Length (T : t) : Z :=
  (zlen (Destination T) + 1) +
  (zlen (Query T) + 1) +
  (2 + sum_len (fun _ => 4) (ParameterDataTypes T)).
Definition valid (T : t) : Prop :=
  (x00 ∉ (Destination T)) /\
  (x00 ∉ (Query T)) /\
  (zlen (ParameterDataTypes T) < 2 ^ 16 /\ Forall (fun x => - 2 ^ 31 <= x < 2 ^ 31) (ParameterDataTypes T)).
Section Codec.
Context {W : Type} `{Writer W} {R : Type} `{Reader R} (fuel : nat).
Definition Body : io (Dec.Decoder R) t :=
  do Destination <- Dec.String fuel;
  do Query <- Dec.String fuel;
  do ParameterDataTypes <- read_slice16 fuel (Dec.Int32 fuel);
  ret (mk Destination Query ParameterDataTypes).
Definition ReadFrom : io (Dec.Decoder R) t := expect Type_ Body.
Definition WriteTo (T : t) : io (Enc.Encoder W) unit :=
  Enc.String (Destination T) ;;
  Enc.String (Query T) ;;
  write_slice16 Enc.Int32 (ParameterDataTypes T).
End Codec.

Lemma Parse_ok {W} `{WriterLaws W} {R} `{ReaderLaws R} fuel (T : t) :
  valid T -> field_end fuel (W := W) (R := R) (WriteTo T) (Length T) (Body fuel) T.
Proof.
  destruct T as [f0 f1 f2].
  unfold valid, WriteTo, Length, Body. cbn [Destination Query ParameterDataTypes].
  intros (V0 & V1 & (V2 & F2)). codec.
Qed.
End Parse.

Module ParseComplete.
Definition t := unit.
Definition Type_ : byte := x31. (* 1 *)
Definition Length (T : t) : Z := 0.
Definition valid (T : t) : Prop := True.
Section Codec.
Context {W : Type} `{Writer W} {R : Type} `{Reader R} (fuel : nat).
Definition Body : io (Dec.Decoder R) t :=
  ret tt.
Definition ReadFrom : io (Dec.Decoder R) t := expect Type_ Body.
Definition WriteTo (T : t) : io (Enc.Encoder W) unit :=
  ret tt.
End Codec.

Lemma ParseComplete_ok {W} `{WriterLaws W} {R} `{ReaderLaws R} fuel (T : t) :
  valid T -> field_end fuel (W := W) (R := R) (WriteTo T) (Length T) Body T.
Proof.
  destruct T. intros _. apply field_field_end, field_ret.
Qed.
End ParseComplete.

Module PasswordMessage.
Definition t := gostring.
Definition Type_ : byte := x70. (* p *)
Definition Length (T : t) : Z := zlen T + 1.
Definition valid (T : t) : Prop := x00 ∉ T.
Section Codec.
Context {W : Type} `{Writer W} {R : Type} `{Reader R} (fuel : nat).
Definition Body : io (Dec.Decoder R) t :=
  Dec.String fuel.
Definition ReadFrom : io (Dec.Decoder R) t := expect Type_ Body.
Definition WriteTo (T : t) : io (Enc.Encoder W) unit :=
  Enc.String T.
End Codec.

Lemma PasswordMessage_ok {W} `{WriterLaws W} {R} `{ReaderLaws R} fuel (T : t) :
  valid T -> field_end fuel (W := W) (R := R) (WriteTo T) (Length T) (Body fuel) T.
Proof.
  intros HT. apply field_field_end. by apply field_String.
Qed.
End PasswordMessage.

Module PortalSuspended.
Definition t := unit.
Definition Type_ : byte := x73. (* s *)
Definition Length (T : t) : Z := 0.
Definition valid (T : t) : Prop := True.
Section Codec.
Context {W : Type} `{Writer W} {R : Type} `{Reader R} (fuel : nat).
Definition Body : io (Dec.Decoder R) t :=
  ret tt.
Definition ReadFrom : io (Dec.Decoder R) t := expect Type_ Body.
Definition WriteTo (T : t) : io (Enc.Encoder W) unit :=
  ret tt.
End Codec.

Lemma PortalSuspended_ok {W} `{WriterLaws W} {R} `{ReaderLaws R} fuel (T : t) :
  valid T -> field_end fuel (W := W) (R := R) (WriteTo T) (Length T) Body T.
Proof.
  destruct T. intros _. apply field_field_end, field_ret.
Qed.
End PortalSuspended.

Module Query.
Definition t := gostring.
Definition Type_ : byte := x51. (* Q *)
Definition Length (T : t) : Z := zlen T + 1.
Definition valid (T : t) : Prop := x00 ∉ T.
Section Codec.
Context {W : Type} `{Writer W} {R : Type} `{Reader R} (fuel : nat).
Definition Body : io (Dec.Decoder R) t :=
  Dec.String fuel.
Definition ReadFrom : io (Dec.Decoder R) t := expect Type_ Body.
Definition WriteTo (T : t) : io (Enc.Encoder W) unit :=
  Enc.String T.
End Codec.

Lemma Query_ok {W} `{WriterLaws W} {R} `{ReaderLaws R} fuel (T : t) :
  valid T -> field_end fuel (W := W) (R := R) (WriteTo T) (Length T) (Body fuel) T.
Proof.
  intros HT. apply field_field_end. by apply field_String.
Qed.
End Query.

Module ReadyForQuery.
Definition t := byte.
Definition Type_ : byte := x5a. (* Z *)
Definition Length (T : t) : Z := 1.
Definition valid (T : t) : Prop := True.
Section Codec.
Context {W : Type} `{Writer W} {R : Type} `{Reader R} (fuel : nat).
Definition Body : io (Dec.Decoder R) t :=
  get_uint8 fuel.
Definition ReadFrom : io (Dec.Decoder R) t := expect Type_ Body.
Definition WriteTo (T : t) : io (Enc.Encoder W) unit :=
  put_uint8 T.
End Codec.

Lemma ReadyForQuery_ok {W} `{WriterLaws W} {R} `{ReaderLaws R} fuel (T : t) :
  valid T -> field_end fuel (W := W) (R := R) (WriteTo T) (Length T) (Body fuel) T.
Proof.
  intros _. apply field_field_end, field_uint8.
Qed.
End ReadyForQuery.

Module SASLInitialResponse.
Record t := mk { Mechanism : gostring; InitialClientResponse : option (list byte) }.
Definition Type_ : byte := x70. (* p *)
Definition Length (T : t) : Z :=
  (zlen (Mechanism T) + 1) +
  (nullable_len (InitialClientResponse T)).
Definition valid (T : t) : Prop :=
  (x00 ∉ (Mechanism T)) /\
  (nullable_ok (InitialClientResponse T)).
Section Codec.
Context {W : Type} `{Writer W} {R : Type} `{Reader R} (fuel : nat).
Definition Body : io (Dec.Decoder R) t :=
  do Mechanism <- Dec.String fuel;
  do InitialClientResponse <- read_nullable fuel;
  ret (mk Mechanism InitialClientResponse).
Definition ReadFrom : io (Dec.Decoder R) t := expect Type_ Body.
Definition WriteTo (T : t) : io (Enc.Encoder W) unit :=
  Enc.String (Mechanism T) ;;
  write_nullable (InitialClientResponse T).
End Codec.

Lemma SASLInitialResponse_ok {W} `{WriterLaws W} {R} `{ReaderLaws R} fuel (T : t) :
  valid T -> field_end fuel (W := W) (R := R) (WriteTo T) (Length T) (Body fuel) T.
Proof.
  destruct T as [f0 f1].
  unfold valid, WriteTo, Length, Body. cbn [Mechanism InitialClientResponse].
  intros (V0 & V1). codec.
Qed.
End SASLInitialResponse.

Module SASLResponse.
Definition t := list byte.
Definition Type_ : byte := x70. (* p *)
Definition Length (T : t) : Z := sum_len (fun _ => 1) T.
Definition valid (T : t) : Prop := True.
Section Codec.
Context {W : Type} `{Writer W} {R : Type} `{Reader R} (fuel : nat).
Definition Body : io (Dec.Decoder R) t :=
  read_remaining fuel.
Definition ReadFrom : io (Dec.Decoder R) t := expect Type_ Body.
Definition WriteTo (T : t) : io (Enc.Encoder W) unit :=
  write_each put_uint8 T.
End Codec.

Lemma SASLResponse_ok {W} `{WriterLaws W} {R} `{ReaderLaws R} fuel (T : t) :
  valid T -> field_end fuel (W := W) (R := R) (WriteTo T) (Length T) (Body fuel) T.
Proof.
  intros _. apply field_remaining.
Qed.
End SASLResponse.

Module Sync.
Definition t := unit.
Definition Type_ : byte := x53. (* S *)
Definition Length (T : t) : Z := 0.
Definition valid (T : t) : Prop := True.
Section Codec.
Context {W : Type} `{Writer W} {R : Type} `{Reader R} (fuel : nat).
Definition Body : io (Dec.Decoder R) t :=
  ret tt.
Definition ReadFrom : io (Dec.Decoder R) t := expect Type_ Body.
Definition WriteTo (T : t) : io (Enc.Encoder W) unit :=
  ret tt.
End Codec.

Lemma Sync_ok {W} `{WriterLaws W} {R} `{ReaderLaws R} fuel (T : t) :
  valid T -> field_end fuel (W := W) (R := R) (WriteTo T) (Length T) Body T.
Proof.
  destruct T. intros _. apply field_field_end, field_ret.
Qed.
End Sync.

Module Terminate.
Definition t := unit.
Definition Type_ : byte := x58. (* X *)
Definition Length (T : t) : Z := 0.
Definition valid (T : t) : Prop := True.
Section Codec.
Context {W : Type} `{Writer W} {R : Type} `{Reader R} (fuel : nat).
Definition Body : io (Dec.Decoder R) t :=
  ret tt.
Definition ReadFrom : io (Dec.Decoder R) t := expect Type_ Body.
Definition WriteTo (T : t) : io (Enc.Encoder W) unit :=
  ret tt.
End Codec.

Lemma Terminate_ok {W} `{WriterLaws W} {R} `{ReaderLaws R} fuel (T : t) :
  valid T -> field_end fuel (W := W) (R := R) (WriteTo T) (Length T) Body T.
Proof.
  destruct T. intros _. apply field_field_end, field_ret.
Qed.
End Terminate.

(** *** Lists of fields ended by a zero code: errors and notices *)

Section ResponseFields.
Context {W : Type} `{Writer W} {R : Type} `{Reader R} (fuel : nat).

(** The body of the loop of ReadFrom: [None] at the end mark. *)
Definition read_response_field : io (Dec.Decoder R) (option (byte * gostring)) :=
  do Code <- get_uint8 fuel;
  if decide (Code = x00) then ret None
  else do Value <- Dec.String fuel; ret (Some (Code, Value)).

Definition write_response_field (f : byte * gostring) : io (Enc.Encoder W) unit :=
  put_uint8 f.1 ;; Enc.String f.2.
End ResponseFields.

Definition response_field_ok (f : byte * gostring) : Prop := f.1 <> x00 /\ x00 ∉ f.2.

Section ZeroTerminated.
Context {W : Type} `{WriterLaws W} {R : Type} `{ReaderLaws R} (fuel : nat).

Lemma field_then_ret {A B} wr n (rd : io (Dec.Decoder R) A) (k : A -> io _ B) a b :
  field fuel (W := W) wr n rd a -> k a = ret b -> field fuel wr n (andthen rd k) b.
Proof.
  intros (bs & He & Hl & Hr) Hk. exists bs. split; [done|]. split; [done|].
  rewrite <- (app_nil_r bs). eapply reads_andthen; [exact Hr|]. rewrite Hk. apply reads_ret.
Qed.

Lemma field_response_fields l : Forall response_field_ok l ->
  field fuel (W := W) (R := R)
    (write_each write_response_field l ;; put_uint8 x00) (sum_len (fun f => 1 + (zlen f.2 + 1)) l + 1)
    (read_until fuel (read_response_field fuel)) l.
Proof.
  intros HF. apply field_until.
  - eapply Forall_impl; [exact HF|]. intros [c v] [Hc Hv]. cbn in Hc, Hv.
    unfold write_response_field, read_response_field. cbn [fst snd].
    eapply field_seq; [apply field_uint8|]. rewrite decide_False by done.
    apply (field_last _ _ _ _ (fun v => Some (c, v))). by apply field_String.
  - intros f. unfold zlen. lia.
  - eapply field_then_ret; [apply field_uint8|]. by rewrite decide_True.
Qed.
End ZeroTerminated.

Module MarkiplierResponse.
Definition t := list (byte * gostring).
Definition Type_ : byte := x45. (* E *)
Definition Length (T : t) : Z := sum_len (fun f => 1 + (zlen f.2 + 1)) T + 1.
Definition valid (T : t) : Prop := Forall response_field_ok T.
Section Codec.
Context {W : Type} `{Writer W} {R : Type} `{Reader R} (fuel : nat).
Definition Body : io (Dec.Decoder R) t := read_until fuel (read_response_field fuel).
Definition ReadFrom : io (Dec.Decoder R) t := expect Type_ Body.
Definition WriteTo (T : t) : io (Enc.Encoder W) unit :=
  write_each write_response_field T ;; put_uint8 x00.
End Codec.

Lemma MarkiplierResponse_ok {W} `{WriterLaws W} {R} `{ReaderLaws R} fuel (T : t) :
  valid T -> field_end fuel (W := W) (R := R) (WriteTo T) (Length T) (Body fuel) T.
Proof. intros HT. by apply field_field_end, field_response_fields. Qed.
End MarkiplierResponse.

Module NoticeResponse.
Definition t := list (byte * gostring).
Definition Type_ : byte := x4e. (* N *)
Definition Length (T : t) : Z := sum_len (fun f => 1 + (zlen f.2 + 1)) T + 1.
Definition valid (T : t) : Prop := Forall response_field_ok T.
Section Codec.
Context {W : Type} `{Writer W} {R : Type} `{Reader R} (fuel : nat).
Definition Body : io (Dec.Decoder R) t := read_until fuel (read_response_field fuel).
Definition ReadFrom : io (Dec.Decoder R) t := expect Type_ Body.
Definition WriteTo (T : t) : io (Enc.Encoder W) unit :=
  write_each write_response_field T ;; put_uint8 x00.
End Codec.

Lemma NoticeResponse_ok {W} `{WriterLaws W} {R} `{ReaderLaws R} fuel (T : t) :
  valid T -> field_end fuel (W := W) (R := R) (WriteTo T) (Length T) (Body fuel) T.
Proof. intros HT. by apply field_field_end, field_response_fields. Qed.
End NoticeResponse.

Module RowDescription.
Record Row := mkRow { Name : gostring; TableID : Z; ColumnAttributeNumber : Z; FieldDataType : Z;
  DataTypeSize : Z; TypeModifier : Z; FormatCode : Z }.
Definition t := list Row.
Definition Type_ : byte := x54. (* T *)
Definition row_len (r : Row) : Z := (zlen (Name r) + 1) + 4 + 2 + 4 + 2 + 4 + 2.
Definition Length (T : t) : Z := 2 + sum_len row_len T.
Definition valid_row (r : Row) : Prop :=
  (x00 ∉ Name r) /\ (- 2 ^ 31 <= TableID r < 2 ^ 31) /\ (- 2 ^ 15 <= ColumnAttributeNumber r < 2 ^ 15) /\
  (- 2 ^ 31 <= FieldDataType r < 2 ^ 31) /\ (- 2 ^ 15 <= DataTypeSize r < 2 ^ 15) /\
  (- 2 ^ 31 <= TypeModifier r < 2 ^ 31) /\ (- 2 ^ 15 <= FormatCode r < 2 ^ 15).
Definition valid (T : t) : Prop := zlen T < 2 ^ 16 /\ Forall valid_row T.
Section Codec.
Context {W : Type} `{Writer W} {R : Type} `{Reader R} (fuel : nat).
Definition read_row : io (Dec.Decoder R) Row :=
  do Name <- Dec.String fuel;
  do TableID <- Dec.Int32 fuel;
  do ColumnAttributeNumber <- Dec.Int16 fuel;
  do FieldDataType <- Dec.Int32 fuel;
  do DataTypeSize <- Dec.Int16 fuel;
  do TypeModifier <- Dec.Int32 fuel;
  do FormatCode <- Dec.Int16 fuel;
  ret (mkRow Name TableID ColumnAttributeNumber FieldDataType DataTypeSize TypeModifier FormatCode).
Definition write_row (r : Row) : io (Enc.Encoder W) unit :=
  Enc.String (Name r) ;;
  Enc.Int32 (TableID r) ;;
  Enc.Int16 (ColumnAttributeNumber r) ;;
  Enc.Int32 (FieldDataType r) ;;
  Enc.Int16 (DataTypeSize r) ;;
  Enc.Int32 (TypeModifier r) ;;
  Enc.Int16 (FormatCode r).
Definition Body : io (Dec.Decoder R) t := read_slice16 fuel read_row.
Definition ReadFrom : io (Dec.Decoder R) t := expect Type_ Body.
Definition WriteTo (T : t) : io (Enc.Encoder W) unit := write_slice16 write_row T.
End Codec.

Lemma row_ok {W} `{WriterLaws W} {R} `{ReaderLaws R} fuel (r : Row) :
  valid_row r -> field fuel (W := W) (R := R) (write_row r) (row_len r) (read_row fuel) r.
Proof.
  destruct r as [a b c d e f g]. unfold valid_row, write_row, row_len, read_row.
  cbn [Name TableID ColumnAttributeNumber FieldDataType DataTypeSize TypeModifier FormatCode].
  intros (? & ? & ? & ? & ? & ? & ?). eapply field_len.
  - repeat (eapply field_seq; [solve [eauto with pggat]|cbv beta]). eapply field_last. eauto with pggat.
  - lia.
Qed.

Lemma RowDescription_ok {W} `{WriterLaws W} {R} `{ReaderLaws R} fuel (T : t) :
  valid T -> field_end fuel (W := W) (R := R) (WriteTo T) (Length T) (Body fuel) T.
Proof.
  intros [Hl HF]. apply field_field_end. apply field_slice16; [done|].
  eapply Forall_impl; [exact HF|]. apply row_ok.
Qed.
End RowDescription.

(** *** Authentication: a 32-bit code selects the mode *)
Module Authentication.
Inductive Mode :=
| CleartextPassword
| GSS
| GSSContinue (data : list byte)
| KerberosV5
| MD5Password (salt : list byte)       (* [4]uint8 *)
| Ok
| SASL (methods : list gostring)
| SASLContinue (data : list byte)
| SASLFinal (data : list byte)
| SSPI.
Definition t := Mode.
Definition Type_ : byte := x52. (* R *)

(** AuthenticationPayloadMode *)
Definition code (m : Mode) : Z :=
  match m with
  | CleartextPassword => 3 | GSS => 7 | GSSContinue _ => 8 | KerberosV5 => 2 | MD5Password _ => 5
  | Ok => 0 | SASL _ => 10 | SASLContinue _ => 11 | SASLFinal _ => 12 | SSPI => 9
  end.

Definition mode_len (m : Mode) : Z :=
  match m with
  | GSSContinue l | SASLContinue l | SASLFinal l | MD5Password l => sum_len (fun _ => 1) l
  | SASL l => sum_len (fun x => zlen x + 1) l + 1
  | _ => 0
  end.
Definition Length (T : t) : Z := 4 + mode_len T.

Definition valid (T : t) : Prop :=
  match T with
  | MD5Password l => length l = 4%nat
  | SASL l => Forall (fun x => x <> [] /\ x00 ∉ x) l
  | _ => True
  end.

Section Codec.
Context {W : Type} `{Writer W} {R : Type} `{Reader R} (fuel : nat).

Definition read_method : io (Dec.Decoder R) (option gostring) :=
  do Method <- Dec.String fuel; if decide (Method = []) then ret None else ret (Some Method).

Definition Body : io (Dec.Decoder R) t :=
  do n <- Dec.Int32 fuel;
  match n with
  | 3 => ret CleartextPassword
  | 7 => ret GSS
  | 8 => do l <- read_remaining fuel; ret (GSSContinue l)
  | 2 => ret KerberosV5
  | 5 => do l <- read_n 4 (get_uint8 fuel); ret (MD5Password l)
  | 0 => ret Ok
  | 10 => do l <- read_until fuel read_method; ret (SASL l)
  | 11 => do l <- read_remaining fuel; ret (SASLContinue l)
  | 12 => do l <- read_remaining fuel; ret (SASLFinal l)
  | 9 => ret SSPI
  | _ => throw ErrInvalidFormat
  end.
Definition ReadFrom : io (Dec.Decoder R) t := expect Type_ Body.

Definition write_mode (m : Mode) : io (Enc.Encoder W) unit :=
  match m with
  | GSSContinue l | SASLContinue l | SASLFinal l | MD5Password l => write_each put_uint8 l
  | SASL l => write_each Enc.String l ;; Enc.String []
  | _ => ret tt
  end.
Definition WriteTo (T : t) : io (Enc.Encoder W) unit :=
  Enc.Int32 (swrap 32 (code T)) ;; write_mode T.
End Codec.

Lemma Authentication_ok {W} `{WriterLaws W} {R} `{ReaderLaws R} fuel (T : t) :
  valid T -> field_end fuel (W := W) (R := R) (WriteTo T) (Length T) (Body fuel) T.
Proof.
  intros HT. unfold WriteTo, Length, Body.
  replace (swrap 32 (code T)) with (code T) by (by destruct T).
  eapply field_end_seq; [apply field_Int32; by destruct T|].
  destruct T as [| |l| |l| |l|l|l|]; cbn [code write_mode mode_len];
    try (apply field_field_end, field_ret).
  - apply field_end_last, field_remaining.
  - cbn in HT. rewrite <- HT. apply field_end_last, field_field_end.
    apply field_n, Forall_field_uint8.
  - apply field_end_last, field_field_end, field_until.
    + eapply Forall_impl; [exact HT|]. intros s [Hne Hs]. eapply field_then_ret; [by apply field_String|].
      cbv beta. by rewrite decide_False.
    + intros s. unfold zlen. lia.
    + eapply field_then_ret; [apply (field_String fuel []); set_solver|]. by rewrite decide_True.
  - apply field_end_last, field_remaining.
  - apply field_end_last, field_remaining.
Qed.
End Authentication.

(** *** Startup: a 16-bit code selects the mode; the packet has no type byte *)
Module Startup.
Inductive Control :=
| Cancel (ProcessID SecretKey : Z)
| GSSAPI
| SSL.
Inductive Mode :=
| ControlMode (c : Control)
| Version3 (MinorVersion : Z) (Parameters : list (gostring * gostring)).
Definition t := Mode.
Definition Type_ : byte := x00.

(** StartupPayloadControlPayloadMode, StartupPayloadMode *)
Definition control_code (c : Control) : Z :=
  match c with Cancel _ _ => 5678 | GSSAPI => 5680 | SSL => 5679 end.
Definition code (m : Mode) : Z := match m with ControlMode _ => 1234 | Version3 _ _ => 3 end.

Definition control_len (c : Control) : Z := match c with Cancel _ _ => 4 + 4 | _ => 0 end.
Definition param_len (p : gostring * gostring) : Z := (zlen p.1 + 1) + (zlen p.2 + 1).
Definition mode_len (m : Mode) : Z :=
  match m with
  | ControlMode c => 2 + control_len c
  | Version3 _ l => 2 + (sum_len param_len l + 1)
  end.
Definition Length (T : t) : Z := 2 + mode_len T.

Definition valid (T : t) : Prop :=
  match T with
  | ControlMode (Cancel p k) => (- 2 ^ 31 <= p < 2 ^ 31) /\ (- 2 ^ 31 <= k < 2 ^ 31)
  | ControlMode _ => True
  | Version3 v l => (- 2 ^ 15 <= v < 2 ^ 15) /\ Forall (fun p => p.1 <> [] /\ x00 ∉ p.1 /\ x00 ∉ p.2) l
  end.

Section Codec.
Context {W : Type} `{Writer W} {R : Type} `{Reader R} (fuel : nat).

Definition read_control : io (Dec.Decoder R) Control :=
  do n <- Dec.Int16 fuel;
  match n with
  | 5678 => do p <- Dec.Int32 fuel; do k <- Dec.Int32 fuel; ret (Cancel p k)
  | 5680 => ret GSSAPI
  | 5679 => ret SSL
  | _ => throw ErrInvalidFormat
  end.

Definition read_param : io (Dec.Decoder R) (option (gostring * gostring)) :=
  do Key <- Dec.String fuel;
  if decide (Key = []) then ret None
  else do Value <- Dec.String fuel; ret (Some (Key, Value)).

Definition read_version3 : io (Dec.Decoder R) Mode :=
  do v <- Dec.Int16 fuel; do l <- read_until fuel read_param; ret (Version3 v l).

Definition Body : io (Dec.Decoder R) t :=
  do n <- Dec.Int16 fuel;
  match n with
  | 1234 => do c <- read_control; ret (ControlMode c)
  | 3 => read_version3
  | _ => throw ErrInvalidFormat
  end.
Definition ReadFrom : io (Dec.Decoder R) t := expect Type_ Body.

Definition write_control (c : Control) : io (Enc.Encoder W) unit :=
  Enc.Int16 (swrap 16 (control_code c)) ;;
  match c with
  | Cancel p k => Enc.Int32 p ;; Enc.Int32 k
  | _ => ret tt
  end.
Definition write_param (p : gostring * gostring) : io (Enc.Encoder W) unit :=
  Enc.String p.1 ;; Enc.String p.2.
Definition write_mode (m : Mode) : io (Enc.Encoder W) unit :=
  match m with
  | ControlMode c => write_control c
  | Version3 v l => Enc.Int16 v ;; write_each write_param l ;; Enc.String []
  end.
Definition WriteTo (T : t) : io (Enc.Encoder W) unit :=
  Enc.Int16 (swrap 16 (code T)) ;; write_mode T.
End Codec.

Lemma control_ok {W} `{WriterLaws W} {R} `{ReaderLaws R} fuel c :
  valid (ControlMode c) ->
  field fuel (W := W) (R := R) (write_control c) (2 + control_len c) (read_control fuel) c.
Proof.
  intros HT. unfold write_control, read_control.
  replace (swrap 16 (control_code c)) with (control_code c) by (by destruct c).
  eapply field_seq; [apply field_Int16; by destruct c|].
  destruct c as [p k| |]; cbn [control_code control_len]; try apply field_ret.
  destruct HT as [Hp Hk]. eapply field_seq; [by apply field_Int32|].
  apply (field_last _ _ _ _ (Cancel p)). by apply field_Int32.
Qed.

Lemma params_ok {W} `{WriterLaws W} {R} `{ReaderLaws R} fuel l :
  Forall (fun p : gostring * gostring => p.1 <> [] /\ x00 ∉ p.1 /\ x00 ∉ p.2) l ->
  field fuel (W := W) (R := R) (write_each write_param l ;; Enc.String []) (sum_len param_len l + 1)
    (read_until fuel (read_param fuel)) l.
Proof.
  intros HF. apply field_until.
  - eapply Forall_impl; [exact HF|]. intros [k v] (Hne & Hk & Hv). cbn in Hne, Hk, Hv.
    unfold write_param, read_param, param_len. cbn [fst snd].
    eapply field_seq; [by apply field_String|]. rewrite decide_False by done.
    apply (field_last _ _ _ _ (fun v => Some (k, v))). by apply field_String.
  - intros p. unfold param_len, zlen. lia.
  - eapply field_then_ret; [apply (field_String fuel []); set_solver|]. by rewrite decide_True.
Qed.

Lemma Startup_ok {W} `{WriterLaws W} {R} `{ReaderLaws R} fuel (T : t) :
  valid T -> field_end fuel (W := W) (R := R) (WriteTo T) (Length T) (Body fuel) T.
Proof.
  intros HT. apply field_field_end. unfold WriteTo, Length, Body.
  replace (swrap 16 (code T)) with (code T) by (by destruct T).
  eapply field_seq; [apply field_Int16; by destruct T|].
  destruct T as [c|v l]; cbn [code write_mode mode_len].
  - apply field_last. by apply control_ok.
  - destruct HT as [Hv HF]. unfold read_version3. eapply field_seq; [by apply field_Int16|].
    apply (field_last _ _ _ _ (Version3 v)). by apply params_ok.
Qed.
End Startup.

(** ** fed.Packet: all packets *)

Inductive Packet :=
| PAuthentication (p : Authentication.t)
| PBackendKeyData (p : BackendKeyData.t)
| PBind (p : Bind.t)
| PBindComplete (p : BindComplete.t)
| PClose (p : Close.t)
| PCloseComplete (p : CloseComplete.t)
| PCommandComplete (p : CommandComplete.t)
| PCopyBothResponse (p : CopyBothResponse.t)
| PCopyData (p : CopyData.t)
| PCopyDone (p : CopyDone.t)
| PCopyFail (p : CopyFail.t)
| PCopyInResponse (p : CopyInResponse.t)
| PCopyOutResponse (p : CopyOutResponse.t)
| PDataRow (p : DataRow.t)
| PDescribe (p : Describe.t)
| PEmptyQueryResponse (p : EmptyQueryResponse.t)
| PExecute (p : Execute.t)
| PFlush (p : Flush.t)
| PFunctionCall (p : FunctionCall.t)
| PFunctionCallResponse (p : FunctionCallResponse.t)
| PGSSResponse (p : GSSResponse.t)
| PMarkiplierResponse (p : MarkiplierResponse.t)
| PNegotiateProtocolVersion (p : NegotiateProtocolVersion.t)
| PNoData (p : NoData.t)
| PNoticeResponse (p : NoticeResponse.t)
| PNotificationResponse (p : NotificationResponse.t)
| PParameterDescription (p : ParameterDescription.t)
| PParameterStatus (p : ParameterStatus.t)
| PParse (p : Parse.t)
| PParseComplete (p : ParseComplete.t)
| PPasswordMessage (p : PasswordMessage.t)
| PPortalSuspended (p : PortalSuspended.t)
| PQuery (p : Query.t)
| PReadyForQuery (p : ReadyForQuery.t)
| PRowDescription (p : RowDescription.t)
| PSASLInitialResponse (p : SASLInitialResponse.t)
| PSASLResponse (p : SASLResponse.t)
| PStartup (p : Startup.t)
| PSync (p : Sync.t)
| PTerminate (p : Terminate.t).

Definition Type_ (p : Packet) : byte :=
  match p with
  | PAuthentication x => Authentication.Type_
  | PBackendKeyData x => BackendKeyData.Type_
  | PBind x => Bind.Type_
  | PBindComplete x => BindComplete.Type_
  | PClose x => Close.Type_
  | PCloseComplete x => CloseComplete.Type_
  | PCommandComplete x => CommandComplete.Type_
  | PCopyBothResponse x => CopyBothResponse.Type_
  | PCopyData x => CopyData.Type_
  | PCopyDone x => CopyDone.Type_
  | PCopyFail x => CopyFail.Type_
  | PCopyInResponse x => CopyInResponse.Type_
  | PCopyOutResponse x => CopyOutResponse.Type_
  | PDataRow x => DataRow.Type_
  | PDescribe x => Describe.Type_
  | PEmptyQueryResponse x => EmptyQueryResponse.Type_
  | PExecute x => Execute.Type_
  | PFlush x => Flush.Type_
  | PFunctionCall x => FunctionCall.Type_
  | PFunctionCallResponse x => FunctionCallResponse.Type_
  | PGSSResponse x => GSSResponse.Type_
  | PMarkiplierResponse x => MarkiplierResponse.Type_
  | PNegotiateProtocolVersion x => NegotiateProtocolVersion.Type_
  | PNoData x => NoData.Type_
  | PNoticeResponse x => NoticeResponse.Type_
  | PNotificationResponse x => NotificationResponse.Type_
  | PParameterDescription x => ParameterDescription.Type_
  | PParameterStatus x => ParameterStatus.Type_
  | PParse x => Parse.Type_
  | PParseComplete x => ParseComplete.Type_
  | PPasswordMessage x => PasswordMessage.Type_
  | PPortalSuspended x => PortalSuspended.Type_
  | PQuery x => Query.Type_
  | PReadyForQuery x => ReadyForQuery.Type_
  | PRowDescription x => RowDescription.Type_
  | PSASLInitialResponse x => SASLInitialResponse.Type_
  | PSASLResponse x => SASLResponse.Type_
  | PStartup x => Startup.Type_
  | PSync x => Sync.Type_
  | PTerminate x => Terminate.Type_
  end.

Definition Length (p : Packet) : Z :=
  match p with
  | PAuthentication x => Authentication.Length x
  | PBackendKeyData x => BackendKeyData.Length x
  | PBind x => Bind.Length x
  | PBindComplete x => BindComplete.Length x
  | PClose x => Close.Length x
  | PCloseComplete x => CloseComplete.Length x
  | PCommandComplete x => CommandComplete.Length x
  | PCopyBothResponse x => CopyBothResponse.Length x
  | PCopyData x => CopyData.Length x
  | PCopyDone x => CopyDone.Length x
  | PCopyFail x => CopyFail.Length x
  | PCopyInResponse x => CopyInResponse.Length x
  | PCopyOutResponse x => CopyOutResponse.Length x
  | PDataRow x => DataRow.Length x
  | PDescribe x => Describe.Length x
  | PEmptyQueryResponse x => EmptyQueryResponse.Length x
  | PExecute x => Execute.Length x
  | PFlush x => Flush.Length x
  | PFunctionCall x => FunctionCall.Length x
  | PFunctionCallResponse x => FunctionCallResponse.Length x
  | PGSSResponse x => GSSResponse.Length x
  | PMarkiplierResponse x => MarkiplierResponse.Length x
  | PNegotiateProtocolVersion x => NegotiateProtocolVersion.Length x
  | PNoData x => NoData.Length x
  | PNoticeResponse x => NoticeResponse.Length x
  | PNotificationResponse x => NotificationResponse.Length x
  | PParameterDescription x => ParameterDescription.Length x
  | PParameterStatus x => ParameterStatus.Length x
  | PParse x => Parse.Length x
  | PParseComplete x => ParseComplete.Length x
  | PPasswordMessage x => PasswordMessage.Length x
  | PPortalSuspended x => PortalSuspended.Length x
  | PQuery x => Query.Length x
  | PReadyForQuery x => ReadyForQuery.Length x
  | PRowDescription x => RowDescription.Length x
  | PSASLInitialResponse x => SASLInitialResponse.Length x
  | PSASLResponse x => SASLResponse.Length x
  | PStartup x => Startup.Length x
  | PSync x => Sync.Length x
  | PTerminate x => Terminate.Length x
  end.

(** The values the wire format can carry: strings without zero bytes, integers
    and slice lengths in range. *)
Definition valid (p : Packet) : Prop :=
  match p with
  | PAuthentication x => Authentication.valid x
  | PBackendKeyData x => BackendKeyData.valid x
  | PBind x => Bind.valid x
  | PBindComplete x => BindComplete.valid x
  | PClose x => Close.valid x
  | PCloseComplete x => CloseComplete.valid x
  | PCommandComplete x => CommandComplete.valid x
  | PCopyBothResponse x => CopyBothResponse.valid x
  | PCopyData x => CopyData.valid x
  | PCopyDone x => CopyDone.valid x
  | PCopyFail x => CopyFail.valid x
  | PCopyInResponse x => CopyInResponse.valid x
  | PCopyOutResponse x => CopyOutResponse.valid x
  | PDataRow x => DataRow.valid x
  | PDescribe x => Describe.valid x
  | PEmptyQueryResponse x => EmptyQueryResponse.valid x
  | PExecute x => Execute.valid x
  | PFlush x => Flush.valid x
  | PFunctionCall x => FunctionCall.valid x
  | PFunctionCallResponse x => FunctionCallResponse.valid x
  | PGSSResponse x => GSSResponse.valid x
  | PMarkiplierResponse x => MarkiplierResponse.valid x
  | PNegotiateProtocolVersion x => NegotiateProtocolVersion.valid x
  | PNoData x => NoData.valid x
  | PNoticeResponse x => NoticeResponse.valid x
  | PNotificationResponse x => NotificationResponse.valid x
  | PParameterDescription x => ParameterDescription.valid x
  | PParameterStatus x => ParameterStatus.valid x
  | PParse x => Parse.valid x
  | PParseComplete x => ParseComplete.valid x
  | PPasswordMessage x => PasswordMessage.valid x
  | PPortalSuspended x => PortalSuspended.valid x
  | PQuery x => Query.valid x
  | PReadyForQuery x => ReadyForQuery.valid x
  | PRowDescription x => RowDescription.valid x
  | PSASLInitialResponse x => SASLInitialResponse.valid x
  | PSASLResponse x => SASLResponse.valid x
  | PStartup x => Startup.valid x
  | PSync x => Sync.valid x
  | PTerminate x => Terminate.valid x
  end.

Section Packet.
Context {W : Type} `{Writer W} {R : Type} `{Reader R} (fuel : nat).

Definition WriteTo (p : Packet) : io (Enc.Encoder W) unit :=
  match p with
  | PAuthentication x => Authentication.WriteTo x
  | PBackendKeyData x => BackendKeyData.WriteTo x
  | PBind x => Bind.WriteTo x
  | PBindComplete x => BindComplete.WriteTo x
  | PClose x => Close.WriteTo x
  | PCloseComplete x => CloseComplete.WriteTo x
  | PCommandComplete x => CommandComplete.WriteTo x
  | PCopyBothResponse x => CopyBothResponse.WriteTo x
  | PCopyData x => CopyData.WriteTo x
  | PCopyDone x => CopyDone.WriteTo x
  | PCopyFail x => CopyFail.WriteTo x
  | PCopyInResponse x => CopyInResponse.WriteTo x
  | PCopyOutResponse x => CopyOutResponse.WriteTo x
  | PDataRow x => DataRow.WriteTo x
  | PDescribe x => Describe.WriteTo x
  | PEmptyQueryResponse x => EmptyQueryResponse.WriteTo x
  | PExecute x => Execute.WriteTo x
  | PFlush x => Flush.WriteTo x
  | PFunctionCall x => FunctionCall.WriteTo x
  | PFunctionCallResponse x => FunctionCallResponse.WriteTo x
  | PGSSResponse x => GSSResponse.WriteTo x
  | PMarkiplierResponse x => MarkiplierResponse.WriteTo x
  | PNegotiateProtocolVersion x => NegotiateProtocolVersion.WriteTo x
  | PNoData x => NoData.WriteTo x
  | PNoticeResponse x => NoticeResponse.WriteTo x
  | PNotificationResponse x => NotificationResponse.WriteTo x
  | PParameterDescription x => ParameterDescription.WriteTo x
  | PParameterStatus x => ParameterStatus.WriteTo x
  | PParse x => Parse.WriteTo x
  | PParseComplete x => ParseComplete.WriteTo x
  | PPasswordMessage x => PasswordMessage.WriteTo x
  | PPortalSuspended x => PortalSuspended.WriteTo x
  | PQuery x => Query.WriteTo x
  | PReadyForQuery x => ReadyForQuery.WriteTo x
  | PRowDescription x => RowDescription.WriteTo x
  | PSASLInitialResponse x => SASLInitialResponse.WriteTo x
  | PSASLResponse x => SASLResponse.WriteTo x
  | PStartup x => Startup.WriteTo x
  | PSync x => Sync.WriteTo x
  | PTerminate x => Terminate.WriteTo x
  end.

(** ReadFrom of the type of [p]. *)
Definition ReadFrom (p : Packet) : io (Dec.Decoder R) Packet :=
  match p with
  | PAuthentication _ => do x <- Authentication.ReadFrom fuel; ret (PAuthentication x)
  | PBackendKeyData _ => do x <- BackendKeyData.ReadFrom fuel; ret (PBackendKeyData x)
  | PBind _ => do x <- Bind.ReadFrom fuel; ret (PBind x)
  | PBindComplete _ => do x <- BindComplete.ReadFrom; ret (PBindComplete x)
  | PClose _ => do x <- Close.ReadFrom fuel; ret (PClose x)
  | PCloseComplete _ => do x <- CloseComplete.ReadFrom; ret (PCloseComplete x)
  | PCommandComplete _ => do x <- CommandComplete.ReadFrom fuel; ret (PCommandComplete x)
  | PCopyBothResponse _ => do x <- CopyBothResponse.ReadFrom fuel; ret (PCopyBothResponse x)
  | PCopyData _ => do x <- CopyData.ReadFrom fuel; ret (PCopyData x)
  | PCopyDone _ => do x <- CopyDone.ReadFrom; ret (PCopyDone x)
  | PCopyFail _ => do x <- CopyFail.ReadFrom fuel; ret (PCopyFail x)
  | PCopyInResponse _ => do x <- CopyInResponse.ReadFrom fuel; ret (PCopyInResponse x)
  | PCopyOutResponse _ => do x <- CopyOutResponse.ReadFrom fuel; ret (PCopyOutResponse x)
  | PDataRow _ => do x <- DataRow.ReadFrom fuel; ret (PDataRow x)
  | PDescribe _ => do x <- Describe.ReadFrom fuel; ret (PDescribe x)
  | PEmptyQueryResponse _ => do x <- EmptyQueryResponse.ReadFrom; ret (PEmptyQueryResponse x)
  | PExecute _ => do x <- Execute.ReadFrom fuel; ret (PExecute x)
  | PFlush _ => do x <- Flush.ReadFrom; ret (PFlush x)
  | PFunctionCall _ => do x <- FunctionCall.ReadFrom fuel; ret (PFunctionCall x)
  | PFunctionCallResponse _ => do x <- FunctionCallResponse.ReadFrom fuel; ret (PFunctionCallResponse x)
  | PGSSResponse _ => do x <- GSSResponse.ReadFrom fuel; ret (PGSSResponse x)
  | PMarkiplierResponse _ => do x <- MarkiplierResponse.ReadFrom fuel; ret (PMarkiplierResponse x)
  | PNegotiateProtocolVersion _ => do x <- NegotiateProtocolVersion.ReadFrom fuel; ret (PNegotiateProtocolVersion x)
  | PNoData _ => do x <- NoData.ReadFrom; ret (PNoData x)
  | PNoticeResponse _ => do x <- NoticeResponse.ReadFrom fuel; ret (PNoticeResponse x)
  | PNotificationResponse _ => do x <- NotificationResponse.ReadFrom fuel; ret (PNotificationResponse x)
  | PParameterDescription _ => do x <- ParameterDescription.ReadFrom fuel; ret (PParameterDescription x)
  | PParameterStatus _ => do x <- ParameterStatus.ReadFrom fuel; ret (PParameterStatus x)
  | PParse _ => do x <- Parse.ReadFrom fuel; ret (PParse x)
  | PParseComplete _ => do x <- ParseComplete.ReadFrom; ret (PParseComplete x)
  | PPasswordMessage _ => do x <- PasswordMessage.ReadFrom fuel; ret (PPasswordMessage x)
  | PPortalSuspended _ => do x <- PortalSuspended.ReadFrom; ret (PPortalSuspended x)
  | PQuery _ => do x <- Query.ReadFrom fuel; ret (PQuery x)
  | PReadyForQuery _ => do x <- ReadyForQuery.ReadFrom fuel; ret (PReadyForQuery x)
  | PRowDescription _ => do x <- RowDescription.ReadFrom fuel; ret (PRowDescription x)
  | PSASLInitialResponse _ => do x <- SASLInitialResponse.ReadFrom fuel; ret (PSASLInitialResponse x)
  | PSASLResponse _ => do x <- SASLResponse.ReadFrom fuel; ret (PSASLResponse x)
  | PStartup _ => do x <- Startup.ReadFrom fuel; ret (PStartup x)
  | PSync _ => do x <- Sync.ReadFrom; ret (PSync x)
  | PTerminate _ => do x <- Terminate.ReadFrom; ret (PTerminate x)
  end.

(** netconncodec.Codec.WritePacket *)
Definition WritePacket (p : Packet) : io (Enc.Encoder W) unit :=
  Enc.Next (Type_ p) (Length p) ;; WriteTo p.

(** netconncodec.Codec.ReadPacket, then ToConcrete into a packet of the type
    of [p]. *)
Definition ReadPacket (typed : bool) (p : Packet) : io (Dec.Decoder R) Packet :=
  Dec.Next fuel typed ;; ReadFrom p.
End Packet.

Section PacketSpec.
Context {W : Type} `{WriterLaws W} {R : Type} `{ReaderLaws R} (fuel : nat).

(** What a packet type promises: WriteTo writes [Length] bytes, from which
    ReadFrom reads the packet back, given the packet's header. *)
Definition packet_ok (p : Packet) : Prop :=
  exists bs, emits (W := W) (WriteTo p) bs (Length p) /\ zlen bs = Length p /\
    forall (T : Dec.Decoder R) rest, (length bs < fuel)%nat -> dinv T -> avail T = bs ++ rest ->
      Dec.packetType T = Type_ p -> Dec.packetLength T = Dec.packetPos T + zlen bs ->
      exists T', ReadFrom fuel p T = Ret (inr p, T') /\ dinv T' /\ avail T' = rest /\
        Dec.packetPos T' = Dec.packetLength T'.

Lemma packet_case {A} (C : A -> Packet) (typ : byte) (body : io (Dec.Decoder R) A) (a : A) :
  field_end fuel (W := W) (WriteTo (C a)) (Length (C a)) body a -> Type_ (C a) = typ ->
  ReadFrom fuel (C a) = (do x <- expect typ body; ret (C x)) -> packet_ok (C a).
Proof.
  intros (bs & He & Hl & Hr) Hty Hrd. exists bs. split; [done|]. split; [done|].
  intros T rest Hf HT Ha HtyT Hlen. rewrite Hrd.
  destruct (Hr Hf T rest HT Ha Hlen) as (T' & Heq & HT' & Ha' & _ & _ & Hp).
  exists T'. split; [|done]. unfold andthen, expect. rewrite decide_False by (rewrite HtyT, Hty; auto).
  by rewrite Heq.
Qed.

Lemma packet_all_ok (p : Packet) : valid p -> packet_ok p.
Proof.
  intros Hv; destruct p; cbn in Hv.
  - by eapply (packet_case PAuthentication); [apply Authentication.Authentication_ok|..].
  - by eapply (packet_case PBackendKeyData); [apply BackendKeyData.BackendKeyData_ok|..].
  - by eapply (packet_case PBind); [apply Bind.Bind_ok|..].
  - by eapply (packet_case PBindComplete); [apply BindComplete.BindComplete_ok|..].
  - by eapply (packet_case PClose); [apply Close.Close_ok|..].
  - by eapply (packet_case PCloseComplete); [apply CloseComplete.CloseComplete_ok|..].
  - by eapply (packet_case PCommandComplete); [apply CommandComplete.CommandComplete_ok|..].
  - by eapply (packet_case PCopyBothResponse); [apply CopyBothResponse.CopyBothResponse_ok|..].
  - by eapply (packet_case PCopyData); [apply CopyData.CopyData_ok|..].
  - by eapply (packet_case PCopyDone); [apply CopyDone.CopyDone_ok|..].
  - by eapply (packet_case PCopyFail); [apply CopyFail.CopyFail_ok|..].
  - by eapply (packet_case PCopyInResponse); [apply CopyInResponse.CopyInResponse_ok|..].
  - by eapply (packet_case PCopyOutResponse); [apply CopyOutResponse.CopyOutResponse_ok|..].
  - by eapply (packet_case PDataRow); [apply DataRow.DataRow_ok|..].
  - by eapply (packet_case PDescribe); [apply Describe.Describe_ok|..].
  - by eapply (packet_case PEmptyQueryResponse); [apply EmptyQueryResponse.EmptyQueryResponse_ok|..].
  - by eapply (packet_case PExecute); [apply Execute.Execute_ok|..].
  - by eapply (packet_case PFlush); [apply Flush.Flush_ok|..].
  - by eapply (packet_case PFunctionCall); [apply FunctionCall.FunctionCall_ok|..].
  - by eapply (packet_case PFunctionCallResponse); [apply FunctionCallResponse.FunctionCallResponse_ok|..].
  - by eapply (packet_case PGSSResponse); [apply GSSResponse.GSSResponse_ok|..].
  - by eapply (packet_case PMarkiplierResponse); [apply MarkiplierResponse.MarkiplierResponse_ok|..].
  - by eapply (packet_case PNegotiateProtocolVersion); [apply NegotiateProtocolVersion.NegotiateProtocolVersion_ok|..].
  - by eapply (packet_case PNoData); [apply NoData.NoData_ok|..].
  - by eapply (packet_case PNoticeResponse); [apply NoticeResponse.NoticeResponse_ok|..].
  - by eapply (packet_case PNotificationResponse); [apply NotificationResponse.NotificationResponse_ok|..].
  - by eapply (packet_case PParameterDescription); [apply ParameterDescription.ParameterDescription_ok|..].
  - by eapply (packet_case PParameterStatus); [apply ParameterStatus.ParameterStatus_ok|..].
  - by eapply (packet_case PParse); [apply Parse.Parse_ok|..].
  - by eapply (packet_case PParseComplete); [apply ParseComplete.ParseComplete_ok|..].
  - by eapply (packet_case PPasswordMessage); [apply PasswordMessage.PasswordMessage_ok|..].
  - by eapply (packet_case PPortalSuspended); [apply PortalSuspended.PortalSuspended_ok|..].
  - by eapply (packet_case PQuery); [apply Query.Query_ok|..].
  - by eapply (packet_case PReadyForQuery); [apply ReadyForQuery.ReadyForQuery_ok|..].
  - by eapply (packet_case PRowDescription); [apply RowDescription.RowDescription_ok|..].
  - by eapply (packet_case PSASLInitialResponse); [apply SASLInitialResponse.SASLInitialResponse_ok|..].
  - by eapply (packet_case PSASLResponse); [apply SASLResponse.SASLResponse_ok|..].
  - by eapply (packet_case PStartup); [apply Startup.Startup_ok|..].
  - by eapply (packet_case PSync); [apply Sync.Sync_ok|..].
  - by eapply (packet_case PTerminate); [apply Terminate.Terminate_ok|..].
Qed.
End PacketSpec.

Module PacketTheorems.
Section Theorems.
Context {W : Type} `{WriterLaws W} {R : Type} `{ReaderLaws R}.

(** C4: Every packet type round-trips.  Writing any valid packet with its
    header gives the encoder a byte string from which every decoder, in
    whatever state its buffer is and however the stream is cut into chunks,
    reads the same packet back, stops exactly at its end, and leaves what
    follows untouched. *)
Theorem packet_roundtrip (p : Packet) (e e' : Enc.Encoder W) :
  valid p -> Length p + 4 < 2 ^ 32 -> einv e -> WritePacket p e = Ret (inr tt, e') ->
  exists bs, sent e' = sent e ++ bs /\
    forall fuel skip rest (D : Dec.Decoder R),
      dinv D -> avail D = skip ++ bs ++ rest ->
      Dec.packetLength D = Dec.packetPos D + zlen skip ->
      (length skip + length bs + 1 < fuel)%nat ->
      exists D', ReadPacket fuel (bool_decide (Type_ p <> x00)) p D = Ret (inr p, D') /\
        avail D' = rest /\ Dec.packetPos D' = Dec.packetLength D'.
Proof.
  intros Hv Hlen He Hw. destruct (packet_all_ok (W := W) (R := R) 0 p Hv) as (body & Hem & Hbl & _).
  unfold WritePacket, andthen in Hw.
  destruct (decide (Enc.packetPos e = Enc.packetLength e)) as [Hpos|Hpos];
    [|unfold Enc.Next in Hw; by rewrite decide_True in Hw].
  assert (Hnn : 0 <= Length p) by (rewrite <- Hbl; unfold zlen; lia).
  destruct (Enc_Next_spec e (Type_ p) (Length p) He Hpos Hnn Hlen) as (r & e1 & Hn & He1 & Hr).
  rewrite Hn in Hw. cbn in Hw. destruct r as [err|u]; [by injection Hw|].
  destruct (Hem e1 He1) as (r' & e2 & Hw' & _ & Hr'). rewrite Hw' in Hw.
  assert (r' = inr tt /\ e2 = e') as [-> ->] by (by split; congruence).
  destruct Hr as (Hs1 & _), Hr' as (Hs2 & _).
  exists (header (Type_ p) (Length p) ++ body). split; [by rewrite Hs2, Hs1, app_assoc|].
  intros fuel skip rest D HD Ha HDl Hf. rewrite <- app_assoc in Ha.
  assert (Hh : (4 <= length (header (Type_ p) (Length p)) <= 5)%nat).
  { unfold header. rewrite length_app, length_be. gdecide; cbn; lia. }
  rewrite length_app in Hf.
  destruct (packet_all_ok (W := W) (R := R) fuel p Hv) as (body' & Hem' & Hbl' & Hrd).
  assert (body' = body) as ->.
  { destruct (Hem' e1 He1) as (r' & e2 & Hw2 & _ & Hr2). rewrite Hw' in Hw2. injection Hw2 as <- <-.
    destruct Hr2 as (Hs2' & _). rewrite Hs2 in Hs2'. by apply app_inv_head in Hs2'. }
  destruct (Dec_Next_spec fuel skip (Type_ p) (Length p) (body ++ rest) D HD Ha HDl Hnn Hlen)
    as (D1 & HN & HD1 & Ha1 & Ht1 & Hl1 & Hp1); [lia|].
  unfold ReadPacket, andthen. rewrite HN. cbn [obind fst snd].
  destruct (Hrd D1 rest) as (D' & -> & _ & Ha' & Hp'); [lia|done|done|done|lia|]. eauto.
Qed.

(** Packets are framed correctly: a valid packet is written as exactly the
    number of bytes its header announces, so after WritePacket the encoder
    accepts the next packet; no packet can fail with ErrWrongNumberOfBytes
    after a valid one, and the only errors are those of the connection. *)
Theorem write_packet_framed (p : Packet) (e : Enc.Encoder W) :
  valid p -> Length p + 4 < 2 ^ 32 -> einv e -> Enc.packetPos e = Enc.packetLength e ->
  exists r e', WritePacket p e = Ret (r, e') /\ einv e' /\
    match r with
    | inl err => writer_error (W := W) err
    | inr _ => Enc.packetPos e' = Enc.packetLength e' /\ Enc.packetType e' = Type_ p /\
        zlen (sent e') = zlen (sent e) + (if decide (Type_ p = x00) then 4 else 5) + Length p
    end.
Proof.
  intros Hv Hlen He Hpos. destruct (packet_all_ok (W := W) (R := R) 0 p Hv) as (body & Hem & Hbl & _).
  assert (Hnn : 0 <= Length p) by (rewrite <- Hbl; unfold zlen; lia).
  unfold WritePacket, andthen.
  destruct (Enc_Next_spec e (Type_ p) (Length p) He Hpos Hnn Hlen) as (r & e1 & -> & He1 & Hr).
  cbn [obind fst snd]. destruct r as [err|u]; [by eexists _, _|].
  destruct (Hem e1 He1) as (r' & e2 & -> & He2 & Hr'). eexists _, _. split; [done|].
  split; [done|]. destruct r' as [err|u']; [done|].
  destruct Hr as (Hs1 & Ht1 & Hl1 & Hp1), Hr' as (Hs2 & Hp2 & Ht2 & Hl2).
  split; [lia|]. split; [congruence|]. rewrite Hs2, Hs1. unfold zlen, header in *.
  rewrite !length_app, length_be. gdecide; cbn [length]; lia.
Qed.

(** A parameter length below -1 in a Bind packet makes ReadFrom panic
    instead of returning an error, whoever sends it: the length goes to
    [make] unchecked. *)
Theorem bind_negative_length_panics (fuel : nat) (dest src rest : list byte) (n : Z)
    (D : Dec.Decoder R) :
  x00 ∉ dest -> x00 ∉ src -> - 2 ^ 31 <= n < -1 -> dinv D -> Dec.packetType D = Bind.Type_ ->
  avail D = dest ++ [x00] ++ src ++ [x00] ++ be 2 0 ++ be 2 1 ++ be 4 (uwrap 32 n) ++ rest ->
  (length dest + length src + 16 < fuel)%nat ->
  Bind.ReadFrom fuel D = Panic.
Proof.
  intros Hd Hs Hn HD Hty Ha Hf. unfold Bind.ReadFrom, expect. rewrite decide_False by auto.
  unfold Bind.Body, andthen at 1. rewrite (app_assoc dest) in Ha.
  destruct (reads_String fuel dest Hd ltac:(len_lia) D _ HD Ha) as (D1 & -> & HD1 & Ha1 & _).
  cbn [obind fst snd]. unfold andthen at 1. rewrite (app_assoc src) in Ha1.
  destruct (reads_String fuel src Hs ltac:(len_lia) D1 _ HD1 Ha1) as (D2 & -> & HD2 & Ha2 & _).
  cbn [obind fst snd]. unfold read_slice16 at 1, andthen at 1 2.
  destruct (reads_Uint16 fuel 0 ltac:(lia) ltac:(rewrite length_be; lia) D2 _ HD2 Ha2) as (D3 & -> & HD3 & Ha3 & _).
  cbn [obind fst snd]. change (Z.to_nat 0) with 0%nat. cbn [read_n]. unfold ret at 1. cbn [obind fst snd]. unfold read_slice16 at 1, andthen at 1 2.
  destruct (reads_Uint16 fuel 1 ltac:(lia) ltac:(rewrite length_be; lia) D3 _ HD3 Ha3) as (D4 & -> & HD4 & Ha4 & _).
  cbn [obind fst snd]. change (Z.to_nat 1) with 1%nat. cbn [read_n]. unfold read_nullable, andthen at 1 2.
  destruct (reads_Int32 fuel n ltac:(lia) ltac:(rewrite length_be; lia) D4 _ HD4 Ha4) as (D5 & -> & HD5 & Ha5 & _).
  cbn [obind fst snd]. rewrite decide_False by lia. by rewrite decide_True by lia.
Qed.
End Theorems.

(** *** Concrete packets *)

Definition query : Packet := PQuery [x53; x31].        (* Query "S1" *)
Definition enc_after : Enc.Encoder (list byte) :=
  Enc.mkEncoder [x51; x00; x00; x00; x07; x53; x31; x00] [] x51 3 3.

Lemma query_valid : valid query.
Proof. apply (bool_decide_unpack _). vm_compute. exact I. Qed.

Lemma packet_roundtrip_witness :
  exists bs, sent enc_after = sent (Enc.NewEncoder []) ++ bs /\
    forall fuel skip rest (D : Dec.Decoder chunked),
      dinv D -> avail D = skip ++ bs ++ rest ->
      Dec.packetLength D = Dec.packetPos D + zlen skip ->
      (length skip + length bs + 1 < fuel)%nat ->
      exists D', ReadPacket fuel (bool_decide (Type_ query <> x00)) query D = Ret (inr query, D') /\
        avail D' = rest /\ Dec.packetPos D' = Dec.packetLength D'.
Proof.
  apply (packet_roundtrip query (Enc.NewEncoder []) enc_after);
    [apply query_valid|reflexivity|apply Nat.leb_le; vm_compute; reflexivity|reflexivity].
Defined.

Lemma write_packet_framed_witness :
  exists r e', WritePacket query (Enc.NewEncoder []) = Ret (r, e') /\ einv e' /\
    match r with
    | inl err => writer_error (W := list byte) err
    | inr _ => Enc.packetPos e' = Enc.packetLength e' /\ Enc.packetType e' = x51 /\
        zlen (sent e') = 8
    end.
Proof.
  destruct (write_packet_framed (W := list byte) (R := chunked) query (Enc.NewEncoder []))
    as (r & e' & Hw & He & Hr);
    [apply query_valid|reflexivity|apply Nat.leb_le; vm_compute; reflexivity|reflexivity|].
  exists r, e'. split; [exact Hw|]. split; [exact He|]. destruct r as [err|u]; [exact Hr|].
  destruct Hr as (Hp & Ht & Hl). split; [exact Hp|]. split; [exact Ht|]. rewrite Hl. reflexivity.
Defined.

Lemma bind_negative_length_panics_witness :
  Bind.ReadFrom 30 (Dec.mkDecoder [] 0
    (mkChunked 3 [x00; x00; x00; x00; x00; x01; xff; xff; xff; xfe]) x42 10 0) = Panic.
Proof.
  apply (bind_negative_length_panics 30 [] [] [] (-2));
    [set_solver|set_solver|lia|split; [apply Nat.leb_le; vm_compute; reflexivity|done]|reflexivity|reflexivity|cbn; lia].
Defined.
End PacketTheorems.
