(* ===== verification/Codec.v ===== *)
(** * Codec: lib/fed/codecs/netconncodec/codec.go

    A connection's encoder and decoder over one net.Conn, and the switch to TLS in
    the middle of it.  The two sides of the connection are [W] and [R]; crypto/tls
    and the socket are parameters: what [tls.Client] and [tls.Server] make of the
    two sides, the handshake, and Close.  ReadPacket and WritePacket are in
    Packets. *)

From Stdlib Require Import Init.Byte.
From S2P Require Import Prelude.
From S2P Require Import Wire.

Local Open Scope Z_scope.
Local Open Scope go_scope.

Section Codec.
Context {W R : Type} `{Writer W} `{Reader R}.

Record Codec := mkCodec { encoder : Enc.Encoder W; decoder : Dec.Decoder R; ssl : bool; closed : bool }.

Definition NewCodec (w : W) (r : R) : Codec := mkCodec (Enc.Reset w (Enc.NewEncoder w)) (Dec.Reset r (Dec.NewDecoder r)) false false.

(** The methods that are one call of the encoder or decoder. *)
Definition on_encoder {A} (m : io (Enc.Encoder W) A) : io Codec A := fun c =>
  let! r := m (encoder c) in Ret (r.1, mkCodec r.2 (decoder c) (ssl c) (closed c)).
Definition on_decoder {A} (m : io (Dec.Decoder R) A) : io Codec A := fun c =>
  let! r := m (decoder c) in Ret (r.1, mkCodec (encoder c) r.2 (ssl c) (closed c)).

Definition WriteByte (b : byte) : io Codec unit := on_encoder (Enc.WriteByte b).
Definition Flush : io Codec unit := on_encoder Enc.Flush.
(** What is waiting is sent before waiting for an answer. *)
Definition ReadByte (fuel : nat) : io Codec byte := andthen Flush (fun _ => on_decoder (Dec.ReadByte fuel)).

Context (conn_Close : W -> R -> option error).
Definition Close : io Codec unit :=
  andthen Flush (fun _ c =>
    let err := conn_Close (Enc.writer (encoder c)) (Dec.reader (decoder c)) in
    Ret (match err with Some e => inl e | None => inr tt end, mkCodec (encoder c) (decoder c) (ssl c) true)).

Context (ErrAlreadyEnabled ErrNotEmpty : error).
(** [tls.Client] (true) and [tls.Server], and Handshake. *)
Context (tls : bool -> W -> R -> W * R) (Handshake : W * R -> option error * (W * R)).

Definition EnableSSL (isClient : bool) : io Codec unit := fun c =>
  if ssl c then Ret (inl ErrAlreadyEnabled, c)
  else
    let c := mkCodec (encoder c) (decoder c) true (closed c) in
    let! r := Flush c in
    match r with
    | (inl e, c) => Ret (inl e, c)
    | (inr _, c) =>
        if decide (0 < Dec.Buffered (decoder c))%nat then Ret (inl ErrNotEmpty, c)
        else
          let sslConn := tls isClient (Enc.writer (encoder c)) (Dec.reader (decoder c)) in
          let '(err, (w, r)) := Handshake sslConn in
          let c := mkCodec (Enc.Reset w (encoder c)) (Dec.Reset r (decoder c)) true (closed c) in
          Ret (match err with Some e => inl e | None => inr tt end, c)
    end.

Context {wlaws : WriterLaws W}.

Lemma Flush_codec c : einv (encoder c) -> exists r e', Flush c = Ret (r, mkCodec e' (decoder c) (ssl c) (closed c)) /\ Enc.buffer e' = [] /\
  match r with inl e => writer_error (W := W) e | inr _ => written (Enc.writer e') = sent (encoder c) end.
Proof.
  intros He. unfold Flush, on_encoder. destruct (Flush_spec (encoder c) He) as (r & e' & -> & Hb & Hr). exists r, e'. split; [done|]. split; [done|].
  destruct r; [done|]. destruct Hr as [Hs _]. unfold sent in *. rewrite Hb, app_nil_r in Hs. done.
Qed.

(** C25: enabling TLS returns; when it returns no error, everything written before went out in
    clear before the handshake, nothing is left in the buffers, and what is read
    from then on comes from the TLS connection alone: bytes that came in clear
    ahead of the handshake are refused, never read as if they had been protected. *)
Theorem enable_ssl_clean isClient c :
  einv (encoder c) -> exists r c', EnableSSL isClient c = Ret (r, c') /\
  (Dec.pending (decoder c) <> [] -> exists e, r = inl e /\ Dec.reader (decoder c') = Dec.reader (decoder c)) /\
  (r = inr tt -> ssl c = false /\ ssl c' = true /\ Enc.buffer (encoder c') = [] /\ Dec.pending (decoder c') = [] /\
    exists w, written w = sent (encoder c) /\
      Handshake (tls isClient w (Dec.reader (decoder c))) = (None, (Enc.writer (encoder c'), Dec.reader (decoder c')))).
Proof using wlaws.
  intros He. unfold EnableSSL. destruct (ssl c) eqn:Hs; [do 2 eexists; split; [done|]; split; [by eexists|done]|].
  destruct (Flush_codec (mkCodec (encoder c) (decoder c) true (closed c)) He) as (rf & e' & Ef & Hb & Hr). rewrite Ef. cbn [obind decoder ssl closed encoder] in *.
  destruct rf as [e|[]]; [do 2 eexists; split; [done|]; split; [by eexists|done]|].
  assert (Hbuf : Dec.Buffered (decoder c) = length (Dec.pending (decoder c))) by (unfold Dec.Buffered, Dec.bufferWrite; lia).
  case_decide as Hd; [do 2 eexists; split; [done|]; split; [by eexists|done]|].
  destruct (Handshake _) as [err [w r0]] eqn:Hh. do 2 eexists. split; [done|].
  assert (Hp : Dec.pending (decoder c) = []) by (destruct (Dec.pending (decoder c)); [done|cbn in Hbuf; lia]).
  split; [by rewrite Hp|]. destruct err as [e|]; [done|]. intros _. split_and!; try done. exists (Enc.writer e'). split; [done|]. exact Hh.
Qed.

(** Close of a connection whose last packets cannot be written returns the error
    and leaves the socket open. *)
Theorem close_leaks c e e' :
  Enc.Flush (encoder c) = Ret (inl e, e') -> closed c = false ->
  exists c', Close c = Ret (inl e, c') /\ closed c' = false.
Proof. intros Ef Hc. unfold Close, Flush, on_encoder, andthen. rewrite Ef. cbn. by eexists. Qed.

(** And otherwise it sends what is waiting, then closes. *)
Lemma close_closes c e' : Enc.Flush (encoder c) = Ret (inr tt, e') -> exists r c', Close c = Ret (r, c') /\ closed c' = true.
Proof. intros Ef. unfold Close, Flush, on_encoder, andthen. rewrite Ef. cbn. by do 2 eexists. Qed.
End Codec.

(** ** On streams of bytes *)
Definition sample_codec : Codec (W := list byte) (R := chunked) :=
  mkCodec (Enc.mkEncoder [x53] [] x00 0 0) (Dec.mkDecoder [] 0 (mkChunked 3 [x16; x03]) x00 0 0) false false.
Definition sample_tls (isClient : bool) (w : list byte) (r : chunked) : list byte * chunked := (w ++ [x16], mkChunked 7 [x17]).

Lemma enable_ssl_clean_witness :
  exists c', EnableSSL EOF EOF sample_tls (fun c => (None, c)) false sample_codec = Ret (inr tt, c') /\
    ssl c' = true /\ Enc.buffer (encoder c') = [] /\ Dec.pending (decoder c') = [].
Proof.
  destruct (enable_ssl_clean EOF EOF sample_tls (fun c => (None, c)) false sample_codec ltac:(unfold einv; cbn; unfold defaultBufferSize; lia))
    as (r & c' & E & _ & Hr).
  destruct r as [e|[]]; [discriminate E|]. destruct (Hr eq_refl) as (_ & H1 & H2 & H3 & _). by exists c'.
Defined.

(** A writer that fails, as when the peer is gone. *)
Inductive broken := Broken.
#[local] Instance broken_Writer : Writer broken := fun w p => (w, Some EOF).
Definition sample_broken : Codec (W := broken) (R := chunked) :=
  mkCodec (Enc.mkEncoder [x53] Broken x00 0 0) (Dec.mkDecoder [] 0 (mkChunked 3 []) x00 0 0) false false.

Lemma close_leaks_witness : exists c', Close (fun _ _ => None) sample_broken = Ret (inl EOF, c') /\ closed c' = false.
Proof. apply (close_leaks (fun _ _ => None) sample_broken EOF (Enc.mkEncoder [] Broken x00 0 0)); reflexivity. Defined.
