(* ===== verification/Strutil.v ===== *)
(** * Strutil: lib/util/strutil (escape.go, matcher.go, cistring.go)

    Strings are byte lists; ranging over a string and utf8.DecodeRuneInString
    decode UTF-8 the way the Go library does, with U+FFFD for a byte that
    starts no encoding.

    - [Escape] and, for backends.SetParameter, what its result is worth inside
      an SQL literal.
    - [Matches], the wildcard matcher of the route matchers, against the usual
      definition of a wildcard pattern. *)

From Stdlib Require Import Init.Byte Strings.Byte Strings.String ZArith.
From S2P Require Import Prelude.
From S2P Require Import Wire.
From S2P Require Import Packets.

Local Open Scope Z_scope.
Local Open Scope go_scope.

(** ** UTF-8, as in unicode/utf8 *)

Definition rune := Z.
Definition RuneError : rune := 0xFFFD.

Definition b2z (b : byte) : Z := Z.of_N (Byte.to_N b).
Definition z2b (z : Z) : byte := default x00 (Byte.of_N (Z.to_N z)).

Definition between (lo hi z : Z) : bool := (lo <=? z) && (z <=? hi).

(** The table [first]: the length of an encoding and the range of its second
    byte, by the first byte. *)
Definition first (s0 : Z) : option (nat * Z * Z) :=
  if between 0xC2 0xDF s0 then Some (2%nat, 0x80, 0xBF)
  else if s0 =? 0xE0 then Some (3%nat, 0xA0, 0xBF)
  else if s0 =? 0xED then Some (3%nat, 0x80, 0x9F)
  else if between 0xE1 0xEF s0 then Some (3%nat, 0x80, 0xBF)
  else if s0 =? 0xF0 then Some (4%nat, 0x90, 0xBF)
  else if s0 =? 0xF4 then Some (4%nat, 0x80, 0x8F)
  else if between 0xF1 0xF3 s0 then Some (4%nat, 0x80, 0xBF)
  else None.

(** utf8.DecodeRuneInString: the rune and its size. *)
Definition DecodeRune (s : gostring) : rune * nat :=
  match s with
  | [] => (RuneError, 0%nat)
  | b0 :: s =>
      let s0 := b2z b0 in
      if s0 <? 0x80 then (s0, 1%nat)
      else match first s0 with
      | None => (RuneError, 1%nat)
      | Some (sz, lo, hi) =>
          match s with
          | [] => (RuneError, 1%nat)
          | b1 :: s =>
              let s1 := b2z b1 in
              if negb (between lo hi s1) then (RuneError, 1%nat)
              else if decide (sz = 2%nat) then (Z.lor (Z.shiftl (Z.land s0 0x1F) 6) (Z.land s1 0x3F), 2%nat)
              else match s with
              | [] => (RuneError, 1%nat)
              | b2 :: s =>
                  let s2 := b2z b2 in
                  if negb (between 0x80 0xBF s2) then (RuneError, 1%nat)
                  else if decide (sz = 3%nat) then
                    (Z.lor (Z.lor (Z.shiftl (Z.land s0 0x0F) 12) (Z.shiftl (Z.land s1 0x3F) 6)) (Z.land s2 0x3F), 3%nat)
                  else match s with
                  | [] => (RuneError, 1%nat)
                  | b3 :: _ =>
                      let s3 := b2z b3 in
                      if negb (between 0x80 0xBF s3) then (RuneError, 1%nat)
                      else (Z.lor (Z.lor (Z.lor (Z.shiftl (Z.land s0 0x07) 18) (Z.shiftl (Z.land s1 0x3F) 12))
                                     (Z.shiftl (Z.land s2 0x3F) 6)) (Z.land s3 0x3F), 4%nat)
                  end
              end
          end
      end
  end.

(** utf8.AppendRune, used by WriteRune. *)
Definition EncodeRune (r : rune) : gostring :=
  if between 0 0x7F r then [z2b r]
  else if between 0x80 0x7FF r then [z2b (Z.lor 0xC0 (Z.shiftr r 6)); z2b (Z.lor 0x80 (Z.land r 0x3F))]
  else if between 0x800 0xFFFF r && negb (between 0xD800 0xDFFF r) then
    [z2b (Z.lor 0xE0 (Z.shiftr r 12)); z2b (Z.lor 0x80 (Z.land (Z.shiftr r 6) 0x3F)); z2b (Z.lor 0x80 (Z.land r 0x3F))]
  else if between 0x10000 0x10FFFF r then
    [z2b (Z.lor 0xF0 (Z.shiftr r 18)); z2b (Z.lor 0x80 (Z.land (Z.shiftr r 12) 0x3F));
     z2b (Z.lor 0x80 (Z.land (Z.shiftr r 6) 0x3F)); z2b (Z.lor 0x80 (Z.land r 0x3F))]
  else [xef; xbf; xbd].

(** [for _, r := range s]: every rune, invalid bytes as U+FFFD. *)
Fixpoint runes_fuel (fuel : nat) (s : gostring) : list rune :=
  match fuel with
  | O => []
  | S fuel =>
      match s with
      | [] => []
      | _ => let '(r, n) := DecodeRune s in r :: runes_fuel fuel (drop n s)
      end
  end.
Definition runes (s : gostring) : list rune := runes_fuel (length s) s.

(** ** escape.go *)

Definition backslash : rune := 0x5C.

Definition special (char r : rune) : bool := (r =? char) || (r =? backslash).

Definition escape_rune (char r : rune) : gostring :=
  (if special char r then EncodeRune backslash else []) ++ EncodeRune r.

Definition Escape (str : gostring) (char : rune) : gostring :=
  if negb (existsb (special char) (runes str)) then str
  else flat_map (escape_rune char) (runes str).

(** ** cistring.go *)

Definition lower_byte (b : byte) : byte :=
  if between 0x41 0x5A (b2z b) then z2b (b2z b + 0x20) else b.

Definition is_ascii (s : gostring) : bool := forallb (fun b => b2z b <? 0x80) s.

(** strings.ToLower: byte by byte on ASCII, the Unicode tables otherwise. *)
Definition ToLower (unicode_lower : gostring -> gostring) (s : gostring) : gostring :=
  if is_ascii s then lower_byte <$> s else unicode_lower s.

Definition MakeCIString (unicode_lower : gostring -> gostring) (value : gostring) : gostring :=
  ToLower unicode_lower value.

(** ** backends.SetParameter: the query it sends *)

Definition SetParameter_query (name value : gostring) : gostring :=
  list_byte_of_string "SET " ++ [x22] ++ Escape name 0x22 ++ [x22] ++ list_byte_of_string " = " ++
  [x27] ++ Escape value 0x27 ++ [x27].

(** ** matcher.go *)

(** utf8.RuneStart *)
Definition RuneStart (b : byte) : bool := negb (Z.land (b2z b) 0xC0 =? 0x80).

(** The backwards search of DecodeLastRuneInString: at most [n] more bytes. *)
Fixpoint find_start (n : nat) (s : gostring) (start : nat) : nat :=
  match n, start with
  | O, _ | _, O => start
  | S n, S start' =>
      match s !! start' with
      | Some b => if RuneStart b then start' else find_start n s start'
      | None => start'
      end
  end.

(** utf8.DecodeLastRuneInString *)
Definition DecodeLastRune (s : gostring) : rune * nat :=
  match last s with
  | None => (RuneError, 0%nat)
  | Some b =>
      if b2z b <? 0x80 then (b2z b, 1%nat)
      else
        let end_ := length s in
        let start := find_start 3 s (end_ - 1) in
        let '(r, size) := DecodeRune (drop start s) in
        if decide ((start + size)%nat <> end_) then (RuneError, 1%nat) else (r, size)
  end.

Definition star : rune := 0x2A.

(** The inner loop of a wildcard: longer and longer ends of the haystack. *)
Fixpoint star_loop (fuel : nat) (matches : gostring -> outcome bool) (haystack : gostring) (i : nat) : outcome bool :=
  match fuel with
  | O => Diverge
  | S fuel =>
      let h := drop (length haystack - i) haystack in
      let! m := matches h in
      if m : bool then Ret true
      else
        let '(c, size) := DecodeLastRune (take (length haystack - i) haystack) in
        if c =? RuneError then Ret false
        else star_loop fuel matches haystack (i + size)
  end.

Fixpoint Matches_fuel (fuel : nat) (matcher haystack : gostring) : outcome bool :=
  match fuel with
  | O => Diverge
  | S fuel =>
      match matcher, haystack with
      | [], [] => Ret true
      | _, _ =>
          let '(e, size) := DecodeRune matcher in
          if e =? RuneError then Ret false
          else
            let matcher := drop size matcher in
            if e =? star then
              match matcher with
              | [] => Ret true
              | _ =>
                  let '(_, i) := DecodeLastRune haystack in
                  star_loop (S (length haystack)) (Matches_fuel fuel matcher) haystack i
              end
            else
              let '(c, size) := DecodeRune haystack in
              if c =? RuneError then Ret false
              else if negb (c =? e) then Ret false
              else Matches_fuel fuel matcher (drop size haystack)
      end
  end.

Definition Matches (T haystack : gostring) : outcome bool := Matches_fuel (S (length T)) T haystack.

(** ** ASCII strings *)

Definition ascii (b : byte) : Prop := b2z b < 0x80.

Lemma b2z_inj b c : b2z b = b2z c -> b = c.
Proof.
  unfold b2z. intros Heq%N2Z.inj. apply (f_equal Byte.of_N) in Heq. rewrite !Byte.of_to_N in Heq. congruence.
Qed.

Lemma b2z_range b : 0 <= b2z b < 256.
Proof. unfold b2z. pose proof (Byte.to_N_bounded b). lia. Qed.

Lemma z2b_b2z b : z2b (b2z b) = b.
Proof. unfold z2b, b2z. rewrite N2Z.id, Byte.of_to_N. done. Qed.

Lemma DecodeRune_ascii b s : ascii b -> DecodeRune (b :: s) = (b2z b, 1%nat).
Proof. intros Hb. unfold DecodeRune. by rewrite (proj2 (Z.ltb_lt _ _) Hb). Qed.

Lemma DecodeLastRune_ascii s b : ascii b -> DecodeLastRune (s ++ [b]) = (b2z b, 1%nat).
Proof. intros Hb. unfold DecodeLastRune. rewrite last_snoc. by rewrite (proj2 (Z.ltb_lt _ _) Hb). Qed.

Lemma EncodeRune_ascii b : ascii b -> EncodeRune (b2z b) = [b].
Proof.
  intros Hb. unfold EncodeRune, between. unfold ascii in Hb. pose proof (b2z_range b).
  rewrite (proj2 (Z.leb_le _ _)) by lia. rewrite (proj2 (Z.leb_le _ _)) by lia. cbn. by rewrite z2b_b2z.
Qed.

Lemma runes_ascii s : Forall ascii s -> runes s = b2z <$> s.
Proof.
  unfold runes. induction 1 as [|b s Hb Hs IH]; [done|]. cbn [length runes_fuel].
  rewrite DecodeRune_ascii by done. change (drop 1 (b :: s)) with s. by rewrite IH.
Qed.

(** [Escape] byte by byte. *)
Definition escape_byte (c b : byte) : gostring := if decide (b = c \/ b = x5c) then [x5c; b] else [b].

Lemma special_ascii c b : special (b2z c) (b2z b) = bool_decide (b = c \/ b = x5c).
Proof.
  unfold special. destruct (Z.eqb_spec (b2z b) (b2z c)) as [He|He]; cbn.
  - symmetry. apply bool_decide_eq_true. left. by apply b2z_inj.
  - destruct (Z.eqb_spec (b2z b) backslash) as [Hb|Hb]; symmetry.
    + apply bool_decide_eq_true. right. by apply b2z_inj.
    + apply bool_decide_eq_false. intros [->| ->]; done.
Qed.

Lemma Escape_ascii s c : ascii c -> Forall ascii s -> Escape s (b2z c) = flat_map (escape_byte c) s.
Proof.
  intros Hc Hs. unfold Escape. rewrite runes_ascii by done.
  assert (Hmap : flat_map (escape_rune (b2z c)) (b2z <$> s) = flat_map (escape_byte c) s).
  { induction Hs as [|b s Hb Hs IH]; [done|]. cbn [fmap list_fmap flat_map]. rewrite IH. f_equal.
    unfold escape_rune, escape_byte. rewrite special_ascii, EncodeRune_ascii by done.
    case_bool_decide; [by rewrite decide_True|by rewrite decide_False]. }
  destruct (existsb _ _) eqn:Hex; cbn [negb]; [done|].
  clear Hmap. induction Hs as [|b s Hb Hs IH]; [done|]. cbn in Hex. apply orb_false_iff in Hex as [Hb' Hex].
  cbn [flat_map]. rewrite <- IH by done. rewrite special_ascii in Hb'. apply bool_decide_eq_false in Hb'.
  unfold escape_byte. by rewrite decide_False.
Qed.

(** ** SQL literals *)

(** A literal with backslash escapes (E'...', or standard_conforming_strings
    off), after the opening delimiter [c]: its value and what follows. *)
Fixpoint escape_literal (c : byte) (s : gostring) : option (gostring * gostring) :=
  match s with
  | [] => None
  | b :: s =>
      if decide (b = c) then Some ([], s)
      else if decide (b = x5c) then
        match s with
        | [] => None
        | b :: s => prod_map (cons b) id <$> escape_literal c s
        end
      else prod_map (cons b) id <$> escape_literal c s
  end.

(** A literal of standard SQL: only a doubled quote stands for a quote. *)
Fixpoint standard_literal (s : gostring) : option (gostring * gostring) :=
  match s with
  | [] => None
  | b :: s =>
      if decide (b = x27) then
        match s with
        | c :: s' => if decide (c = x27) then prod_map (cons x27) id <$> standard_literal s' else Some ([], s)
        | [] => Some ([], s)
        end
      else prod_map (cons b) id <$> standard_literal s
  end.

(** ** Wildcards *)

Inductive glob : list byte -> list byte -> Prop :=
| glob_nil : glob [] []
| glob_byte b m h : b2z b <> star -> glob m h -> glob (b :: m) (b :: h)
| glob_star s m h h' : b2z s = star -> glob m h' -> glob (s :: m) (h ++ h').

(** A pattern of stars matches everything. *)
Lemma glob_empty m : glob m [] -> forall h, m <> [] -> glob m h.
Proof.
  intros Hg. remember [] as e eqn:He. induction Hg as [|b m h Hb Hg IH|s m h h' Hs Hg IH]; [done|done|].
  intros h0 _. apply app_eq_nil in He as [-> ->]. rewrite <- (app_nil_r h0). by constructor.
Qed.

Lemma glob_star_inv s m h : b2z s = star -> glob (s :: m) h -> exists h1 h2, h = h1 ++ h2 /\ glob m h2.
Proof. intros Hs Hg. inversion Hg; subst; [done|eauto]. Qed.

Lemma glob_byte_inv b m h : b2z b <> star -> glob (b :: m) h -> exists h', h = b :: h' /\ glob m h'.
Proof. intros Hb Hg. inversion Hg; subst; [eauto|done]. Qed.

Definition decides (o : outcome bool) (P : Prop) : Prop := exists b, o = Ret b /\ (b = true <-> P).

Lemma decides_ret (b : bool) (P : Prop) : (b = true <-> P) -> decides (Ret b) P.
Proof. intros. by exists b. Qed.

Lemma decides_iff o (P Q : Prop) : (P <-> Q) -> decides o P -> decides o Q.
Proof. intros HPQ (b & -> & Hb). exists b. split; [done|]. tauto. Qed.

Lemma not_rune_error b : ascii b -> (b2z b =? RuneError) = false.
Proof. unfold ascii, RuneError. intros. apply Z.eqb_neq. lia. Qed.

(** The wildcard loop tries every end of at least [i] bytes. *)
Lemma star_loop_spec fuel f (P : gostring -> Prop) haystack i :
  Forall ascii haystack ->
  (forall h, h `suffix_of` haystack -> decides (f h) (P h)) ->
  (i <= length haystack)%nat -> (length haystack - i < fuel)%nat ->
  decides (star_loop fuel f haystack i)
    (exists h1 h2, haystack = h1 ++ h2 /\ (i <= length h2)%nat /\ P h2).
Proof.
  intros Ha Hf. revert i. induction fuel as [|fuel IH]; intros i Hi Hfu; [lia|]. cbn [star_loop].
  set (k := (length haystack - i)%nat).
  destruct (Hf (drop k haystack)) as (b & -> & Hb); [by exists (take k haystack); rewrite take_drop|]. cbn [obind]. destruct b.
  { apply decides_ret. split; [intros _|done]. exists (take k haystack), (drop k haystack).
    rewrite take_drop. split; [done|]. split; [|by apply Hb]. rewrite length_drop. lia. }
  assert (Hnot : ~ P (drop k haystack)) by (intros HP; by apply Hb in HP).
  assert (Hends : forall h1 h2, haystack = h1 ++ h2 -> length h2 = i -> P h2 -> False).
  { intros h1 h2 Heq Hl HP. apply Hnot. replace (drop k haystack) with h2; [done|].
    subst haystack. unfold k. rewrite length_app, Hl. replace (length h1 + i - i)%nat with (length h1) by lia.
    by rewrite drop_app_length. }
  destruct (last (take k haystack)) as [b|] eqn:Hl.
  - apply last_Some in Hl as [l Hl]. assert (ascii b) as Hab.
    { assert (Forall ascii (take k haystack)) as Ht by (by apply Forall_take).
      rewrite Hl, Forall_app, Forall_singleton in Ht. tauto. }
    rewrite Hl, DecodeLastRune_ascii, not_rune_error by done.
    assert (0 < k)%nat by (apply (f_equal length) in Hl; rewrite length_take, length_app in Hl; cbn in Hl; lia).
    eapply decides_iff; [|apply IH; lia]. split.
    + intros (h1 & h2 & Heq & Hle & HP). exists h1, h2. split_and!; [done|lia|done].
    + intros (h1 & h2 & Heq & Hle & HP). exists h1, h2. split_and!; [done| |done].
      destruct (decide (length h2 = i)) as [Hli|]; [|lia]. destruct (Hends h1 h2 Heq Hli HP).
  - apply last_None in Hl. rewrite Hl. change (DecodeLastRune []) with (RuneError, 0%nat).
    change (RuneError =? RuneError) with true. cbn iota beta.
    apply decides_ret. split; [done|]. intros (h1 & h2 & Heq & Hle & HP). exfalso.
    assert (k = 0)%nat as Hk.
    { apply (f_equal length) in Hl. rewrite length_take in Hl. cbn in Hl. lia. }
    apply (Hends h1 h2 Heq); [|done]. apply (f_equal length) in Heq. rewrite length_app in Heq. lia.
Qed.

Lemma Matches_spec fuel m h :
  Forall ascii m -> Forall ascii h -> (length m < fuel)%nat -> decides (Matches_fuel fuel m h) (glob m h).
Proof.
  revert m h. induction fuel as [|fuel IH]; intros m h Hm Hh Hf; [lia|]. cbn [Matches_fuel].
  destruct m as [|e m].
  { destruct h as [|c h]; [apply decides_ret; split; [constructor|done]|].
    change (DecodeRune []) with (RuneError, 0%nat). apply decides_ret. split; [done|]. intros Hg. inversion Hg. }
  apply Forall_cons in Hm as [He Hm]. cbn [length] in Hf.
  rewrite DecodeRune_ascii, not_rune_error by done. change (drop 1 (e :: m)) with m.
  assert (Hm' : forall h', h' `suffix_of` h -> decides (Matches_fuel fuel m h') (glob m h')).
  { intros h' [l ->]. apply IH; [done| |lia]. by apply Forall_app in Hh as [_ Hh]. }
  destruct (Z.eqb_spec (b2z e) star) as [Hs|Hs].
  - destruct m as [|e' m].
    { apply decides_ret. split; [intros _|done]. rewrite <- (app_nil_r h). by repeat constructor. }
    assert (Hgo : forall i, (i <= 1)%nat -> (i <= length h)%nat ->
      decides (star_loop (S (length h)) (Matches_fuel fuel (e' :: m)) h i) (glob (e :: e' :: m) h)).
    { intros i Hi Hil. eapply decides_iff; [|apply (star_loop_spec _ _ (glob (e' :: m)) h i Hh Hm'); lia]. split.
      - intros (h1 & h2 & -> & _ & Hg). by constructor.
      - intros (h1 & h2 & -> & Hg)%glob_star_inv; [|done].
        destruct (decide (i <= length h2)%nat) as [|Hlt]; [by exists h1, h2|].
        assert (h2 = []) as -> by (apply nil_length_inv; lia).
        exists [], (h1 ++ []). split_and!; [done..|]. by apply glob_empty. }
    destruct (last h) as [b|] eqn:Hl.
    + apply last_Some in Hl as [l ->]. assert (ascii b) by (apply Forall_app in Hh as [_ Hb]; by apply Forall_cons in Hb as [Hb _]).
      rewrite DecodeLastRune_ascii by done. destruct (l ++ [b]) eqn:E; [by destruct l|]. rewrite <- E in *.
      apply Hgo; [lia|]. rewrite E. cbn. lia.
    + apply last_None in Hl as ->. change (DecodeLastRune []) with (RuneError, 0%nat). apply Hgo; lia.
  - destruct h as [|c h].
    { change (DecodeRune []) with (RuneError, 0%nat). apply decides_ret. split; [done|].
      intros (h' & ? & _)%glob_byte_inv; done. }
    apply Forall_cons in Hh as [Hc Hh]. rewrite DecodeRune_ascii, not_rune_error by done.
    change (drop 1 (c :: h)) with h. destruct (Z.eqb_spec (b2z c) (b2z e)) as [Hce|Hce]; cbn [negb].
    + apply b2z_inj in Hce as ->. eapply decides_iff; [|apply IH; [done|done|lia]]. split.
      * intros Hg. by constructor.
      * intros (h' & [= ->] & Hg)%glob_byte_inv; done.
    + apply decides_ret. split; [done|]. intros (h' & [= -> ->] & Hg)%glob_byte_inv; done.
Qed.

(** A literal is cut at the first unescaped delimiter. *)
Lemma escape_literal_app c b s :
  ascii c -> c <> x5c -> escape_literal c (escape_byte c b ++ s) = prod_map (cons b) id <$> escape_literal c s.
Proof.
  intros Hc Hne. unfold escape_byte. gdecide; cbn [app escape_literal].
  - rewrite decide_False by done. by rewrite decide_True.
  - rewrite decide_False by tauto. by rewrite decide_False by tauto.
Qed.

Lemma escape_literal_all c s rest :
  ascii c -> c <> x5c -> escape_literal c (flat_map (escape_byte c) s ++ c :: rest) = Some (s, rest).
Proof.
  intros Hc Hne. induction s as [|b s IH]; cbn [flat_map app].
  - cbn. by rewrite decide_True.
  - rewrite <- app_assoc, escape_literal_app by done. by rewrite IH.
Qed.

Lemma standard_literal_plain s rest :
  Forall (fun b => b <> x27) s -> standard_literal (s ++ rest) = prod_map (app s) id <$> standard_literal rest.
Proof.
  induction 1 as [|b s Hb Hs IH]; cbn [app standard_literal].
  - by destruct (standard_literal rest) as [[? ?]|].
  - rewrite decide_False by done. rewrite IH. by destruct (standard_literal rest) as [[? ?]|].
Qed.

(** An escaped quote ends the literal. *)
Lemma standard_literal_cut b s : b <> x27 -> standard_literal (x5c :: x27 :: b :: s) = Some ([x5c], b :: s).
Proof.
  intros Hb. cbn [standard_literal]. rewrite decide_False by done. rewrite decide_True by done.
  by rewrite decide_False by done.
Qed.

(** Bytes that Escape leaves alone. *)
Definition plain (b : byte) : Prop := ascii b /\ b <> x27 /\ b <> x5c.

Lemma escape_plain s : Forall plain s -> flat_map (escape_byte x27) s = s.
Proof.
  induction 1 as [|b s (? & ? & ?) Hs IH]; cbn [flat_map]; [done|]. rewrite IH.
  unfold escape_byte. by rewrite decide_False by tauto.
Qed.

Lemma Matches_total (T haystack : gostring) :
  Forall ascii T -> Forall ascii haystack -> exists b, Matches T haystack = Ret b /\ (b = true <-> glob T haystack).
Proof. intros. apply Matches_spec; [done|done|lia]. Qed.

(** ** Theorems *)
Module StrutilTheorems.

(** The matcher of the routes decides wildcard patterns: on ASCII strings
    Matches returns, and it returns true exactly if the haystack is the pattern
    with every star replaced by some string. *)
Theorem matcher_correct (T haystack : gostring) :
  Forall ascii T -> Forall ascii haystack ->
  exists b, Matches T haystack = Ret b /\ (b = true <-> glob T haystack).
Proof. apply Matches_total. Qed.

(** Escape is right for literals with backslash escapes: whatever ASCII
    value is escaped, the literal ends where it should and has that value. *)
Theorem escape_roundtrip (c : byte) (value rest : gostring) :
  ascii c -> c <> x5c -> Forall ascii value ->
  escape_literal c (Escape value (b2z c) ++ c :: rest) = Some (value, rest).
Proof. intros Hc Hne Hv. rewrite Escape_ascii by done. by apply escape_literal_all. Qed.

(** C33: Escape is wrong for the literals of standard SQL, which SetParameter
    writes: a quote in the value ends the literal, and the text of the value
    after it is left outside, to be executed. *)
Theorem set_parameter_injection (name v w : gostring) :
  Forall plain v -> Forall plain w -> w <> [] ->
  exists prefix, SetParameter_query name (v ++ [x27] ++ w) = prefix ++ [x27] ++ Escape (v ++ [x27] ++ w) 0x27 ++ [x27] /\
    standard_literal (Escape (v ++ [x27] ++ w) 0x27 ++ [x27]) = Some (v ++ [x5c], w ++ [x27]).
Proof.
  intros Hv Hw Hne. eexists. split; [unfold SetParameter_query; by rewrite !app_assoc|].
  assert (Hasc : forall s, Forall plain s -> Forall ascii s) by (intros s Hs; eapply Forall_impl; [done|by intros ? [? _]]).
  change 0x27 with (b2z x27). rewrite Escape_ascii; [|done|].
  2: { apply Forall_app. split; [auto|]. constructor; [done|auto]. }
  rewrite !flat_map_app. change (flat_map (escape_byte x27) [x27]) with [x5c; x27]. rewrite !escape_plain by done.
  rewrite <- !app_assoc. rewrite standard_literal_plain by (eapply Forall_impl; [exact Hv|by intros ? (_ & ? & _)]).
  destruct w as [|b w]; [done|]. apply Forall_cons in Hw as [(_ & Hb & _) Hw].
  cbn [app]. by rewrite standard_literal_cut.
Qed.

Lemma matcher_correct_witness :
  exists b, Matches [x61; x2a] [x61; x62; x63] = Ret b /\ (b = true <-> glob [x61; x2a] [x61; x62; x63]).
Proof. apply matcher_correct; repeat (constructor; [done|]); constructor. Defined.

Lemma escape_roundtrip_witness :
  escape_literal x27 (Escape [x61; x27; x5c] (b2z x27) ++ [x27; x3b]) = Some ([x61; x27; x5c], [x3b]).
Proof. apply escape_roundtrip; [done|done|]. repeat (constructor; [done|]); constructor. Defined.

Lemma set_parameter_injection_witness :
  exists prefix, SetParameter_query [x61] ([x78] ++ [x27] ++ [x3b]) = prefix ++ [x27] ++ Escape ([x78] ++ [x27] ++ [x3b]) 0x27 ++ [x27] /\
    standard_literal (Escape ([x78] ++ [x27] ++ [x3b]) 0x27 ++ [x27]) = Some ([x78] ++ [x5c], [x3b] ++ [x27]).
Proof. apply set_parameter_injection; [by repeat constructor..|done]. Defined.
(** Cases of matcher_test.go. *)
Example matcher_tests :
  (fun mh => Matches (list_byte_of_string mh.1) (list_byte_of_string mh.2)) <$>
    [("a*b", "abbbb"); ("a*b", "abbbc"); ("a*b", "bab"); ("*abc", "testabc"); ("*potatoe*", "i like potatoes so much");
     ("a**", "a"); ("a*a*", "aa"); ("*_ro", "uniswap"); ("*_ro", "uniswap_ro"); ("", ""); ("", "abc")]%string =
  Ret <$> [true; false; false; true; true; true; true; false; true; true; false].
Proof. vm_compute. reflexivity. Qed.
End StrutilTheorems.
