(* ===== verification/Encodings.v ===== *)
(** * Encodings: what the repository uses of crypto/md5, encoding/hex,
      encoding/base64 and strconv

    These are packages of Go's standard library, written here as functions on
    byte lists, with the round trips that the credentials (Credentials) rely on. *)

From Stdlib Require Import Init.Byte Strings.Byte Strings.String ZArith.
From coqutil Require Import Byte Word.LittleEndianList.
From S2P Require Import Prelude.
From S2P Require Import Wire.
From S2P Require Import Packets.
From S2P Require Import Strutil.

Local Open Scope Z_scope.

(** ** crypto/md5 *)
Module Md5.
Definition K : list Z := [
  3614090360; 3905402710; 606105819; 3250441966; 4118548399; 1200080426; 2821735955; 4249261313;
  1770035416; 2336552879; 4294925233; 2304563134; 1804603682; 4254626195; 2792965006; 1236535329;
  4129170786; 3225465664; 643717713; 3921069994; 3593408605; 38016083; 3634488961; 3889429448;
  568446438; 3275163606; 4107603335; 1163531501; 2850285829; 4243563512; 1735328473; 2368359562;
  4294588738; 2272392833; 1839030562; 4259657740; 2763975236; 1272893353; 4139469664; 3200236656;
  681279174; 3936430074; 3572445317; 76029189; 3654602809; 3873151461; 530742520; 3299628645;
  4096336452; 1126891415; 2878612391; 4237533241; 1700485571; 2399980690; 4293915773; 2240044497;
  1873313359; 4264355552; 2734768916; 1309151649; 4149444226; 3174756917; 718787259; 3951481745].

Definition shifts (i : nat) : Z :=
  nth (i mod 4) (nth (i / 16) [[7; 12; 17; 22]; [5; 9; 14; 20]; [4; 11; 16; 23]; [6; 10; 15; 21]] []) 0.

Definition rotl (n x : Z) : Z := Z.lor (uwrap 32 (Z.shiftl x n)) (Z.shiftr x (32 - n)).
Definition not32 (x : Z) : Z := Z.lxor x (2 ^ 32 - 1).

Record digest := mkDigest { dA : Z; dB : Z; dC : Z; dD : Z }.

(** The mixing function and the word of round [i]. *)
Definition mix (i : nat) (b c d : Z) : Z * nat :=
  match (i / 16)%nat with
  | O => (Z.lor (Z.land b c) (Z.land (not32 b) d), i)
  | 1%nat => (Z.lor (Z.land d b) (Z.land (not32 d) c), (5 * i + 1) mod 16)%nat
  | 2%nat => (Z.lxor (Z.lxor b c) d, (3 * i + 5) mod 16)%nat
  | _ => (Z.lxor c (Z.lor b (not32 d)), (7 * i) mod 16)%nat
  end.

Definition round (M : list Z) (s : digest) (i : nat) : digest :=
  let '(f, g) := mix i (dB s) (dC s) (dD s) in
  let f := uwrap 32 (f + dA s + nth i K 0 + nth g M 0) in
  mkDigest (dD s) (uwrap 32 (dB s + rotl (shifts i) f)) (dB s) (dC s).

Fixpoint words (n : nat) (bs : list byte) : list Z :=
  match n with
  | O => []
  | S n => le_combine (take 4 bs) :: words n (drop 4 bs)
  end.

Definition block (s : digest) (bs : list byte) : digest :=
  let t := foldl (round (words 16 bs)) s (seq 0 64) in
  mkDigest (uwrap 32 (dA s + dA t)) (uwrap 32 (dB s + dB t)) (uwrap 32 (dC s + dC t)) (uwrap 32 (dD s + dD t)).

Fixpoint blocks (n : nat) (s : digest) (bs : list byte) : digest :=
  match n with
  | O => s
  | S n => blocks n (block s (take 64 bs)) (drop 64 bs)
  end.

Definition pad (m : list byte) : list byte :=
  let l := length m in
  m ++ [x80] ++ repeat x00 ((119 - l mod 64) mod 64) ++ le_split 8 (uwrap 64 (8 * Z.of_nat l)).

Definition sum (m : list byte) : list byte :=
  let p := pad m in
  let s := blocks (length p / 64) (mkDigest 0x67452301 0xefcdab89 0x98badcfe 0x10325476) p in
  le_split 4 (dA s) ++ le_split 4 (dB s) ++ le_split 4 (dC s) ++ le_split 4 (dD s).

Lemma length_sum m : length (sum m) = 16%nat.
Proof. unfold sum. by rewrite !length_app, !length_le_split. Qed.
End Md5.

(** ** encoding/hex *)
Module Hex.
Definition digits : gostring := list_byte_of_string "0123456789abcdef".

Definition encode_byte (b : byte) : gostring :=
  [nth (Z.to_nat (b2z b / 16)) digits x00; nth (Z.to_nat (b2z b mod 16)) digits x00].
Definition Encode (bs : list byte) : gostring := concat (encode_byte <$> bs).

(** reverseHexTable: both cases are accepted. *)
Definition value (c : byte) : option Z :=
  let z := b2z c in
  if between 48 57 z then Some (z - 48)
  else if between 97 102 z then Some (z - 87)
  else if between 65 70 z then Some (z - 55)
  else None.

Fixpoint DecodeString (s : gostring) : option (list byte) :=
  match s with
  | [] => Some []
  | [_] => None
  | a :: b :: s =>
      match value a, value b, DecodeString s with
      | Some x, Some y, Some l => Some (z2b (16 * x + y) :: l)
      | _, _, _ => None
      end
  end.

Lemma decode_byte b s : DecodeString (encode_byte b ++ s) = cons b <$> DecodeString s.
Proof. destruct b; cbn; by destruct (DecodeString s). Qed.

Lemma DecodeString_hex bs : DecodeString (Encode bs) = Some bs.
Proof.
  induction bs as [|b bs IH]; [done|]. unfold Encode in *. cbn [fmap list_fmap concat]. by rewrite decode_byte, IH.
Qed.
End Hex.

(** ** encoding/base64: StdEncoding *)
Module Base64.
Definition alphabet : gostring := list_byte_of_string "ABCDEFGHIJKLMNOPQRSTUVWXYZabcdefghijklmnopqrstuvwxyz0123456789+/".
Definition pad : byte := x3d.

Definition digit (z : Z) : byte := nth (Z.to_nat z) alphabet x00.

(** decodeMap *)
Definition value (c : byte) : option Z :=
  let z := b2z c in
  if between 65 90 z then Some (z - 65)
  else if between 97 122 z then Some (z - 71)
  else if between 48 57 z then Some (z + 4)
  else if z =? 43 then Some 62
  else if z =? 47 then Some 63
  else None.

Fixpoint EncodeToString (bs : list byte) : gostring :=
  match bs with
  | [] => []
  | [a] => let v := b2z a * 65536 in [digit (v / 262144); digit (v / 4096 mod 64); pad; pad]
  | [a; b] =>
      let v := b2z a * 65536 + b2z b * 256 in
      [digit (v / 262144); digit (v / 4096 mod 64); digit (v / 64 mod 64); pad]
  | a :: b :: c :: bs =>
      let v := b2z a * 65536 + b2z b * 256 + b2z c in
      [digit (v / 262144); digit (v / 4096 mod 64); digit (v / 64 mod 64); digit (v mod 64)] ++ EncodeToString bs
  end.

(** Four characters at a time; the last may be padded, nothing may follow. *)
Fixpoint decode (s : gostring) : option (list byte) :=
  match s with
  | [] => Some []
  | a :: b :: c :: d :: s =>
      match value a, value b with
      | Some x, Some y =>
          if decide (c = pad) then
            if decide (d = pad /\ s = []) then Some [z2b ((x * 262144 + y * 4096) / 65536)] else None
          else
            match value c with
            | None => None
            | Some z =>
                if decide (d = pad) then
                  if decide (s = []) then
                    let v := x * 262144 + y * 4096 + z * 64 in Some [z2b (v / 65536); z2b (v / 256 mod 256)]
                  else None
                else
                  match value d, decode s with
                  | Some w, Some l =>
                      let v := x * 262144 + y * 4096 + z * 64 + w in
                      Some (z2b (v / 65536) :: z2b (v / 256 mod 256) :: z2b (v mod 256) :: l)
                  | _, _ => None
                  end
            end
      | _, _ => None
      end
  | _ => None
  end.

(** Line ends are skipped wherever they are. *)
Definition DecodeString (s : gostring) : option (list byte) :=
  decode (filter (fun c => c <> x0a /\ c <> x0d) s).
End Base64.

(** ** strconv *)
Module Strconv.
(** Atoi and ParseInt(s, 10, 64). *)
Fixpoint digits (s : gostring) (acc : Z) : option Z :=
  match s with
  | [] => Some acc
  | c :: s => if between 48 57 (b2z c) then digits s (acc * 10 + (b2z c - 48)) else None
  end.

Definition Atoi (s : gostring) : option Z :=
  let '(neg, rest) :=
    match s with
    | c :: l => if decide (c = x2d) then (true, l) else if decide (c = x2b) then (false, l) else (false, s)
    | [] => (false, [])
    end in
  match rest with
  | [] => None
  | _ =>
      match digits rest 0 with
      | Some n =>
          let n := if neg : bool then - n else n in
          if between (- 2 ^ 63) (2 ^ 63 - 1) n then Some n else None
      | None => None
      end
  end.

(** FormatUint(n, 10); its decimals need no more fuel than its bits. *)
Fixpoint itoa (fuel : nat) (n : Z) (acc : gostring) : gostring :=
  match fuel with
  | O => acc
  | S fuel =>
      let acc := z2b (48 + n mod 10) :: acc in
      if n <? 10 then acc else itoa fuel (n / 10) acc
  end.
Definition Utoa (n : Z) : gostring := itoa (S (Z.to_nat (Z.log2 n))) n [].

(** ParseUint(s, 10, 64) *)
Definition ParseUint (s : gostring) : option Z :=
  match s with
  | [] => None
  | _ => match digits s 0 with Some n => if n <? 2 ^ 64 then Some n else None | None => None end
  end.

(** Itoa and FormatInt(n, 10) *)
Definition Itoa (n : Z) : gostring := if n <? 0 then x2d :: Utoa (- n) else Utoa n.
End Strconv.

(** The test vectors of RFC 1321. *)
Example md5_abc : Hex.Encode (Md5.sum (list_byte_of_string "abc")) = list_byte_of_string "900150983cd24fb0d6963f7d28e17f72".
Proof. vm_compute. reflexivity. Qed.
Example md5_empty : Hex.Encode (Md5.sum []) = list_byte_of_string "d41d8cd98f00b204e9800998ecf8427e".
Proof. vm_compute. reflexivity. Qed.
Example md5_long :
  Hex.Encode (Md5.sum (list_byte_of_string "12345678901234567890123456789012345678901234567890123456789012345678901234567890")) =
  list_byte_of_string "57edf4a22be3c955ac49da2e2107b67a".
Proof. vm_compute. reflexivity. Qed.
Example base64_man : Base64.DecodeString (list_byte_of_string "TWFuTQ==") = Some (list_byte_of_string "ManM").
Proof. vm_compute. reflexivity. Qed.

(** ** Round trips *)

Lemma b2z_z2b z : 0 <= z < 256 -> b2z (z2b z) = z.
Proof.
  intros Hz. assert (Hall : forallb (fun n => b2z (z2b (Z.of_nat n)) =? Z.of_nat n) (seq 0 256) = true) by (vm_compute; reflexivity).
  rewrite forallb_forall in Hall. specialize (Hall (Z.to_nat z)). rewrite Z2Nat.id, Z.eqb_eq in Hall by lia.
  apply Hall, in_seq. lia.
Qed.

Lemma z2b_at b z : z = b2z b -> z2b z = b.
Proof. intros ->. apply z2b_b2z. Qed.

Module Base64Facts.
Import Base64.

(** The characters that a base64 text may have. *)
Definition is_digit (c : byte) : bool := match value c with Some _ => true | None => false end.

Lemma digit_spec z : 0 <= z < 64 ->
  value (digit z) = Some z /\ digit z <> pad /\ is_digit (digit z) = true.
Proof.
  intros Hz. assert (Hall : forallb (fun n => bool_decide (value (digit (Z.of_nat n)) = Some (Z.of_nat n) /\
      digit (Z.of_nat n) <> pad /\ is_digit (digit (Z.of_nat n)) = true)) (seq 0 64) = true) by (vm_compute; reflexivity).
  rewrite forallb_forall in Hall. specialize (Hall (Z.to_nat z)). rewrite Z2Nat.id, bool_decide_eq_true in Hall by lia.
  apply Hall, in_seq. lia.
Qed.

Lemma in64 z : 0 <= z mod 64 < 64.
Proof. by apply Z.mod_pos_bound. Qed.
Lemma div64 z : 0 <= z < 64 * 262144 -> 0 <= z / 262144 < 64.
Proof. intros. split; [apply Z.div_pos; lia|apply Z.div_lt_upper_bound; lia]. Qed.

(** Cutting 24 bits in four and in three. *)
Lemma four_parts v : v = v / 262144 * 262144 + v / 4096 mod 64 * 4096 + v / 64 mod 64 * 64 + v mod 64.
Proof.
  pose proof (Z.div_mod v 64 ltac:(done)) as H1. pose proof (Z.div_mod (v / 64) 64 ltac:(done)) as H2.
  pose proof (Z.div_mod (v / 64 / 64) 64 ltac:(done)) as H3. rewrite !Z.div_div in * by done.
  change (64 * 64) with 4096 in *. change (4096 * 64) with 262144 in *. lia.
Qed.

Lemma three_parts a b c :
  let v := b2z a * 65536 + b2z b * 256 + b2z c in
  z2b (v / 65536) = a /\ z2b (v / 256 mod 256) = b /\ z2b (v mod 256) = c.
Proof.
  pose proof (b2z_range a). pose proof (b2z_range b). pose proof (b2z_range c). cbn zeta.
  split_and!; apply z2b_at.
  - symmetry. apply (Z.div_unique _ _ _ (b2z b * 256 + b2z c)); lia.
  - symmetry. replace ((b2z a * 65536 + b2z b * 256 + b2z c) / 256) with (b2z a * 256 + b2z b).
    + apply (Z.mod_unique _ _ (b2z a)); lia.
    + apply (Z.div_unique _ _ _ (b2z c)); lia.
  - symmetry. apply (Z.mod_unique _ _ (b2z a * 256 + b2z b)); lia.
Qed.

Lemma decode_encode bs : decode (EncodeToString bs) = Some bs.
Proof.
  revert bs. fix IH 1. intros [|a [|b [|c bs]]]; [done|..].
  - pose proof (b2z_range a). set (v := b2z a * 65536). destruct (digit_spec (v / 262144)) as (E1 & _); [apply div64; lia|].
    destruct (digit_spec (v / 4096 mod 64) (in64 _)) as (E2 & _). cbn [EncodeToString decode]. fold v. rewrite E1, E2.
    rewrite !decide_True by done. do 2 f_equal. pose proof (three_parts a x00 x00) as (Ha & _). cbn zeta in Ha.
    change (b2z x00) with 0 in Ha. rewrite !Z.mul_0_l, !Z.add_0_r in Ha. fold v in Ha. rewrite <- Ha. f_equal. f_equal.
    pose proof (four_parts v). assert (v mod 64 = 0) by (apply Z.mod_divide; [done|]; exists (b2z a * 1024); lia).
    assert (v / 64 mod 64 = 0); [|lia]. apply Z.mod_divide; [done|]. exists (b2z a * 16).
    symmetry. apply Z.div_unique_exact; lia.
  - pose proof (b2z_range a). pose proof (b2z_range b). set (v := b2z a * 65536 + b2z b * 256).
    destruct (digit_spec (v / 262144)) as (E1 & _); [apply div64; lia|].
    destruct (digit_spec (v / 4096 mod 64) (in64 _)) as (E2 & _).
    destruct (digit_spec (v / 64 mod 64) (in64 _)) as (E3 & N3 & _). cbn [EncodeToString decode]. fold v. rewrite E1, E2.
    rewrite (decide_False (P := digit _ = pad)), E3 by done. rewrite !decide_True by done.
    pose proof (three_parts a b x00) as (Ha & Hb & _). cbn zeta in Ha, Hb.
    change (b2z x00) with 0 in Ha, Hb. rewrite !Z.add_0_r in Ha, Hb. fold v in Ha, Hb.
    assert (v = v / 262144 * 262144 + v / 4096 mod 64 * 4096 + v / 64 mod 64 * 64) as <-.
    { pose proof (four_parts v). assert (v mod 64 = 0); [|lia]. apply Z.mod_divide; [done|]. exists (b2z a * 1024 + b2z b * 4). lia. }
    by rewrite Ha, Hb.
  - pose proof (b2z_range a). pose proof (b2z_range b). pose proof (b2z_range c). set (v := b2z a * 65536 + b2z b * 256 + b2z c).
    destruct (digit_spec (v / 262144)) as (E1 & _); [apply div64; lia|].
    destruct (digit_spec (v / 4096 mod 64) (in64 _)) as (E2 & _).
    destruct (digit_spec (v / 64 mod 64) (in64 _)) as (E3 & N3 & _).
    destruct (digit_spec (v mod 64) (in64 _)) as (E4 & N4 & _). cbn [EncodeToString decode app]. fold v. rewrite E1, E2.
    rewrite (decide_False (P := digit (v / 64 mod 64) = pad)), E3 by done.
    rewrite (decide_False (P := digit (v mod 64) = pad)), E4, (IH bs) by done.
    rewrite <- four_parts. destruct (three_parts a b c) as (Ha & Hb & Hc). cbn zeta in *. fold v in Ha, Hb, Hc. by rewrite Ha, Hb, Hc.
Qed.

Definition text_byte (c : byte) : bool := is_digit c || bool_decide (c = pad).

Lemma encode_text bs : forallb text_byte (EncodeToString bs) = true.
Proof.
  assert (Hd : forall z, 0 <= z < 64 -> text_byte (digit z) = true).
  { intros z Hz. unfold text_byte. by rewrite (proj2 (proj2 (digit_spec z Hz))). }
  revert bs. fix IH 1. intros [|a [|b [|c bs]]]; [done|..]; cbn [EncodeToString forallb app];
    pose proof (b2z_range a); try pose proof (b2z_range b); try pose proof (b2z_range c);
    rewrite !Hd by (apply in64 || (apply div64; lia)); try done. apply IH.
Qed.

Lemma DecodeString_Encode bs : DecodeString (EncodeToString bs) = Some bs.
Proof.
  unfold DecodeString. transitivity (decode (EncodeToString bs)); [|apply decode_encode]. f_equal. pose proof (encode_text bs) as Ht.
  induction (EncodeToString bs) as [|c l IH]; [done|]. cbn in Ht. apply andb_true_iff in Ht as [Hc Hl].
  rewrite filter_cons_True; [by rewrite IH|]. by split; intros ->.
Qed.
End Base64Facts.

Module StrconvFacts.
Import Strconv.

Lemma digits_app s acc n rest : digits s acc = Some n -> digits (s ++ rest) acc = digits rest n.
Proof.
  revert acc. induction s as [|c s IH]; intros acc; cbn; [by intros [= ->]|]. destruct (between _ _ _); [apply IH|done].
Qed.

Lemma digit_byte d : 0 <= d < 10 -> b2z (z2b (48 + d)) = 48 + d.
Proof. intros. apply b2z_z2b. lia. Qed.

(** Writing the decimals of [n] in front of some that are there. *)
Lemma digits_itoa fuel n acc : 0 <= n < 2 ^ Z.of_nat fuel -> (0 < fuel)%nat ->
  exists s, itoa fuel n acc = s ++ acc /\ s <> [] /\ digits s 0 = Some n /\ forallb (fun c => between 48 57 (b2z c)) s = true.
Proof.
  revert n acc. induction fuel as [|fuel IH]; intros n acc Hn Hf; [lia|]. cbn [itoa].
  assert (Hd : forall z, 0 <= z < 10 -> digits [z2b (48 + z)] 0 = Some z /\ between 48 57 (b2z (z2b (48 + z))) = true).
  { intros z Hz. cbn [digits]. rewrite digit_byte by done. unfold between.
    rewrite (proj2 (Z.leb_le 48 (48 + z)) ltac:(lia)), (proj2 (Z.leb_le (48 + z) 57) ltac:(lia)). split; [cbn; f_equal; lia|done]. }
  pose proof (Z.mod_pos_bound n 10 ltac:(lia)) as Hm. destruct (Z.ltb_spec n 10).
  - rewrite Z.mod_small by lia. exists [z2b (48 + n)]. destruct (Hd n ltac:(lia)) as [E B]. split_and!; [done|done|done|]. cbn [forallb]. by rewrite B.
  - destruct (IH (n / 10) (z2b (48 + n mod 10) :: acc)) as (s & -> & Hne & E & B).
    + split; [apply Z.div_pos; lia|]. apply Z.div_lt_upper_bound; [lia|]. rewrite Nat2Z.inj_succ, Z.pow_succ_r in Hn by lia. lia.
    + destruct fuel; [cbn in Hn; lia|lia].
    + exists (s ++ [z2b (48 + n mod 10)]). split_and!.
      * by rewrite <- app_assoc.
      * by intros [? ?]%app_nil.
      * rewrite (digits_app _ _ _ _ E). destruct (Hd _ Hm) as [E1 B1]. cbn [digits] in E1 |- *. rewrite B1 in E1 |- *.
        f_equal. injection E1 as E1. pose proof (Z.div_mod n 10 ltac:(lia)). lia.
      * rewrite forallb_app, B. cbn [forallb]. by rewrite (proj2 (Hd _ Hm)).
Qed.

Lemma Utoa_spec n : 0 <= n -> Utoa n <> [] /\ digits (Utoa n) 0 = Some n /\ forallb (fun c => between 48 57 (b2z c)) (Utoa n) = true.
Proof.
  intros Hn. unfold Utoa. destruct (digits_itoa (S (Z.to_nat (Z.log2 n))) n []) as (s & -> & Hne & E & B); [|lia|].
  - split; [done|]. rewrite Nat2Z.inj_succ, Z2Nat.id by apply Z.log2_nonneg.
    destruct (Z.eq_dec n 0) as [->|]; [done|]. apply Z.log2_spec. lia.
  - by rewrite app_nil_r.
Qed.

Lemma Itoa_Utoa n : 0 <= n -> Itoa n = Utoa n.
Proof. intros Hn. unfold Itoa. by rewrite (proj2 (Z.ltb_ge n 0) Hn). Qed.

Lemma in_int64 n : - 2 ^ 63 <= n < 2 ^ 63 -> between (- 2 ^ 63) (2 ^ 63 - 1) n = true.
Proof. intros Hn. unfold between. by rewrite (proj2 (Z.leb_le (- 2 ^ 63) n) ltac:(lia)), (proj2 (Z.leb_le n (2 ^ 63 - 1)) ltac:(lia)). Qed.

Lemma ParseUint_Utoa n : 0 <= n < 2 ^ 64 -> ParseUint (Utoa n) = Some n.
Proof.
  intros Hn. destruct (Utoa_spec n ltac:(lia)) as (Hne & E & _). unfold ParseUint. destruct (Utoa n); [done|].
  rewrite E. by rewrite (proj2 (Z.ltb_lt n (2 ^ 64)) ltac:(lia)).
Qed.

Lemma Atoi_Itoa n : - 2 ^ 63 <= n < 2 ^ 63 -> Atoi (Itoa n) = Some n.
Proof.
  intros Hn. unfold Itoa. destruct (Z.ltb_spec n 0) as [Hneg|Hpos].
  - destruct (Utoa_spec (- n) ltac:(lia)) as (Hne & E & _). unfold Atoi. rewrite decide_True by done.
    destruct (Utoa (- n)); [done|]. rewrite E, Z.opp_involutive. by rewrite in_int64.
  - destruct (Utoa_spec n Hpos) as (Hne & E & B). unfold Atoi. destruct (Utoa n) as [|c s]; [done|].
    cbn [forallb] in B. apply andb_true_iff in B as [Bc _].
    rewrite !decide_False by (intros ->; done). rewrite E. by rewrite in_int64.
Qed.
End StrconvFacts.
