(* ===== verification/Fed.v ===== *)
(** * Fed: lib/fed/conn.go, middleware.go, packet.go

    A connection between the wire and the rest of the program.  A packet that
    a middleware or the bouncer handles is a [fpacket]: its type and what
    fed.ToConcrete makes of it, that is the packet itself or the error of its
    ReadFrom.

    - [ConnOps] is what the bouncer asks of a connection (reading and writing
      packets), [ConnLaws] what it promises: no panic, packets of the right
      side of the protocol, and a stream that ends (the peer hangs up after
      finitely many packets, which is what a finite run observes).
    - [Conn] is the connection of the source: a codec and a list of
      middlewares ([Codec], [MiddlewareOps], with their laws).  [conn_laws]
      discharges [ConnLaws] for it.
    - [Script] is the connection the examples use: a list of packets to read
      and a list of results for the writes. *)

From Stdlib Require Import Init.Byte Strings.Byte.
From S2P Require Import Prelude.
From S2P Require Import Wire.
From S2P Require Import Packets.

Local Open Scope go_scope.

#[export] Instance byte_Countable : Countable byte :=
  inj_countable (fun b => Byte.to_N b) Byte.of_N Byte.of_to_N.

(** What a middleware is given. *)
Record fpacket := mkF { ptype : byte; concrete : error + Packet }.

Definition of_packet (p : Packet) : fpacket := mkF (Type_ p) (inr p).

(** ** The two sides of the protocol *)

Definition frontend (p : Packet) : bool :=
  match p with
  | PBind _ | PClose _ | PCopyData _ | PCopyDone _ | PCopyFail _ | PDescribe _ | PExecute _ | PFlush _
  | PFunctionCall _ | PGSSResponse _ | PParse _ | PPasswordMessage _ | PQuery _ | PSASLInitialResponse _
  | PSASLResponse _ | PStartup _ | PSync _ | PTerminate _ => true
  | _ => false
  end.

Definition backend (p : Packet) : bool :=
  match p with
  | PCopyData _ | PCopyDone _ => true
  | _ => negb (frontend p)
  end.

(** A packet of one side: its type byte is the one of its contents. *)
Definition of_side (side : Packet -> bool) (p : fpacket) : Prop :=
  forall q, concrete p = inr q -> side q = true /\ Type_ q = ptype p.
Abbreviation front := (of_side frontend).
Abbreviation back := (of_side backend).

Lemma of_packet_side side p : side p = true -> of_side side (of_packet p).
Proof. intros Hp q [= <-]. done. Qed.
#[export] Hint Resolve of_packet_side : pggat.

(** ** What the bouncer asks of a connection *)

Class ConnOps (C : Type) := {
  conn_read : C -> outcome ((error + fpacket) * C);
  conn_write : C -> fpacket -> outcome (option error * C)
}.

Class ConnLaws (C : Type) `{ConnOps C} (rd wr : fpacket -> Prop) := {
  conn_good : C -> Prop;
  remaining : C -> nat;
  read_law c : conn_good c -> exists r c', conn_read c = Ret (r, c') /\ conn_good c' /\
    match r with
    | inl _ => remaining c' <= remaining c
    | inr p => remaining c' < remaining c /\ rd p
    end;
  write_law c p : conn_good c -> wr p -> exists e c', conn_write c p = Ret (e, c') /\ conn_good c' /\
    remaining c' <= remaining c
}.

(** ** A connection that is a script *)

Record Script := mkScript { rx : list fpacket; werr : list (option error); tx : list fpacket }.

(** Reading past the end is the error of a closed connection. *)
Definition script_read (c : Script) : (error + fpacket) * Script :=
  match rx c with
  | [] => (inl EOF, c)
  | p :: l => (inr p, mkScript l (werr c) (tx c))
  end.

Definition script_write (c : Script) (p : fpacket) : option error * Script :=
  match werr c with
  | Some e :: l => (Some e, mkScript (rx c) l (tx c))
  | None :: l => (None, mkScript (rx c) l (tx c ++ [p]))
  | [] => (None, mkScript (rx c) [] (tx c ++ [p]))
  end.

#[export] Instance script_ops : ConnOps Script := {|
  conn_read c := Ret (script_read c);
  conn_write c p := Ret (script_write c p)
|}.

#[export] Program Instance script_laws (rd wr : fpacket -> Prop) : ConnLaws Script rd wr := {|
  conn_good c := Forall rd (rx c);
  remaining c := length (rx c)
|}.
Next Obligation.
  intros rd wr [[|p l] w t] Hg; cbn in *; [by do 2 eexists|].
  apply Forall_cons in Hg as [? ?]. eexists _, _. split; [done|]. cbn. split; [done|]. split; [lia|done].
Qed.
Next Obligation.
  intros rd wr [l w t] p Hg Hp; unfold conn_write, script_ops, script_write; cbn.
  destruct w as [|[e|] w]; do 2 eexists; split_and!; done.
Qed.

(** ** Codecs and middlewares *)

(** fed.PacketCodec, what a [Conn] uses to carry packets. *)
Class Codec (K : Type) := {
  codec_Flush : K -> option error * K;
  codec_ReadPacket : bool -> K -> (error + fpacket) * K;
  codec_WritePacket : fpacket -> K -> option error * K
}.

Class CodecLaws (K : Type) `{Codec K} (rd : fpacket -> Prop) := {
  codec_good : K -> Prop;
  codec_remaining : K -> nat;
  codec_flush_law k : codec_good k ->
    codec_good (codec_Flush k).2 /\ codec_remaining (codec_Flush k).2 <= codec_remaining k;
  codec_read_law typed k : codec_good k ->
    codec_good (codec_ReadPacket typed k).2 /\
    match codec_ReadPacket typed k with
    | (inl _, k') => codec_remaining k' <= codec_remaining k
    | (inr p, k') => codec_remaining k' < codec_remaining k /\ rd p
    end;
  codec_write_law p k : codec_good k ->
    codec_good (codec_WritePacket p k).2 /\ codec_remaining (codec_WritePacket p k).2 <= codec_remaining k
}.

(** fed.Middleware: a nil packet is [None]. *)
Class MiddlewareOps (M : Type) := {
  PreRead : bool -> M -> outcome ((error + option fpacket) * M);
  MReadPacket : fpacket -> M -> outcome ((error + option fpacket) * M);
  MWritePacket : fpacket -> M -> outcome ((error + option fpacket) * M);
  PostWrite : M -> outcome ((error + option fpacket) * M)
}.

(** A middleware keeps to the sides of the protocol, and has finitely many
    packets of its own to insert before a read or after a write. *)
Definition passes (side : fpacket -> Prop) (r : error + option fpacket) : Prop :=
  forall p, r = inr (Some p) -> side p.

Class MiddlewareLaws (M : Type) `{MiddlewareOps M} (rd wr : fpacket -> Prop) := {
  mw_good : M -> Prop;
  pending : M -> nat;
  posts : M -> nat;
  pre_law typed m : mw_good m -> exists r m', PreRead typed m = Ret (r, m') /\ mw_good m' /\ passes rd r /\
    posts m' <= posts m /\ pending m' <= pending m /\ (forall p, r = inr (Some p) -> pending m' < pending m);
  mread_law p m : mw_good m -> rd p -> exists r m', MReadPacket p m = Ret (r, m') /\ mw_good m' /\ passes rd r /\
    posts m' <= posts m /\ pending m' <= pending m;
  mwrite_law p m : mw_good m -> wr p -> exists r m', MWritePacket p m = Ret (r, m') /\ mw_good m' /\ passes wr r /\
    posts m' <= posts m /\ pending m' <= pending m;
  post_law m : mw_good m -> exists r m', PostWrite m = Ret (r, m') /\ mw_good m' /\ passes wr r /\
    pending m' <= pending m /\ posts m' <= posts m /\ (forall p, r = inr (Some p) -> posts m' < posts m)
}.

(** A script is a codec, too. *)
#[export] Instance script_codec : Codec Script := {|
  codec_Flush c := (None, c);
  codec_ReadPacket _ c := script_read c;
  codec_WritePacket p c := script_write c p
|}.

#[export] Program Instance script_codec_laws (rd : fpacket -> Prop) : CodecLaws Script rd := {|
  codec_good c := Forall rd (rx c);
  codec_remaining c := length (rx c)
|}.
Next Obligation. intros rd c Hc. done. Qed.
Next Obligation.
  intros rd typed [[|p l] w t] Hg; cbn in *; [done|]. apply Forall_cons in Hg as [? ?]. split; [done|]. split; [lia|done].
Qed.
Next Obligation. intros rd p [l w t] Hg. unfold codec_WritePacket, script_codec, script_write. cbn. by destruct w as [|[e|] w]. Qed.

(** ** Connections *)

Section Conn.
Context {K M : Type} `{Codec K} `{MiddlewareOps M}.

(** BackendKey: process id and secret key. *)
Record BackendKey := mkKey { ProcessID : Z; SecretKey : Z }.

(** A CIString is the lower-cased string it holds. *)
Record Conn := mkConn {
  codec : K;
  Middleware : list M;
  SSL : bool;
  User : gostring;
  Database : gostring;
  InitialParameters : gmap gostring gostring;
  ConnKey : BackendKey;
  Authenticated : bool;
  Ready : bool
}.

Definition with_codec (T : Conn) (k : K) : Conn :=
  mkConn k (Middleware T) (SSL T) (User T) (Database T) (InitialParameters T) (ConnKey T) (Authenticated T) (Ready T).
Definition with_middleware (T : Conn) (ms : list M) : Conn :=
  mkConn (codec T) ms (SSL T) (User T) (Database T) (InitialParameters T) (ConnKey T) (Authenticated T) (Ready T).

Definition NewConn (k : K) : Conn := mkConn k [] false [] [] ∅ (mkKey 0 0) false false.

Definition Flush (T : Conn) : option error * Conn :=
  let r := codec_Flush (codec T) in (r.1, with_codec T r.2).

Definition readPacket (typed : bool) (T : Conn) : (error + fpacket) * Conn :=
  let r := codec_ReadPacket typed (codec T) in (r.1, with_codec T r.2).

Definition writePacket (packet : fpacket) (T : Conn) : option error * Conn :=
  let r := codec_WritePacket packet (codec T) in (r.1, with_codec T r.2).

(** [packet] through ReadPacket of every middleware, first to last. *)
Fixpoint read_chain (ms : list M) (packet : fpacket) : outcome ((error + option fpacket) * list M) :=
  match ms with
  | [] => Ret (inr (Some packet), [])
  | m :: ms =>
      let! r := MReadPacket packet m in
      match r.1 with
      | inr (Some packet) =>
          let! s := read_chain ms packet in
          Ret (s.1, r.2 :: s.2)
      | other => Ret (other, r.2 :: ms)
      end
  end.

(** The PreRead loop of the first middleware of [ms]: what it inserts goes
    through it and those after it; a packet that comes out ends the read. *)
Fixpoint pre_one (fuel : nat) (typed : bool) (ms : list M) : outcome ((error + option fpacket) * list M) :=
  match fuel with
  | O => Diverge
  | S fuel =>
      match ms with
      | [] => Ret (inr None, [])
      | m :: rest =>
          let! r := PreRead typed m in
          match r.1 with
          | inl e => Ret (inl e, r.2 :: rest)
          | inr None => Ret (inr None, r.2 :: rest)
          | inr (Some packet) =>
              let! s := read_chain (r.2 :: rest) packet in
              match s.1 with
              | inr None => pre_one fuel typed s.2
              | other => Ret (other, s.2)
              end
          end
      end
  end.

(** [for i := 0; i < len(T.Middleware); i++]: [ms] are the last [n]. *)
Fixpoint pre_read (n : nat) (fuel : nat) (typed : bool) (ms : list M) : outcome ((error + option fpacket) * list M) :=
  match n with
  | O => Ret (inr None, ms)
  | S n =>
      let! r := pre_one fuel typed ms in
      match r.1, r.2 with
      | inr None, m :: rest =>
          let! s := pre_read n fuel typed rest in
          Ret (s.1, m :: s.2)
      | other, ms => Ret (other, ms)
      end
  end.

Fixpoint read_loop (fuel : nat) (pre_fuel : nat) (typed : bool) (T : Conn) : outcome ((error + fpacket) * Conn) :=
  match fuel with
  | O => Diverge
  | S fuel =>
      let! r := pre_read (length (Middleware T)) pre_fuel typed (Middleware T) in
      let T := with_middleware T r.2 in
      match r.1 with
      | inl e => Ret (inl e, T)
      | inr (Some packet) => Ret (inr packet, T)
      | inr None =>
          match readPacket typed T with
          | (inl e, T) => Ret (inl e, T)
          | (inr packet, T) =>
              let! s := read_chain (Middleware T) packet in
              let T := with_middleware T s.2 in
              match s.1 with
              | inl e => Ret (inl e, T)
              | inr (Some packet) => Ret (inr packet, T)
              | inr None => read_loop fuel pre_fuel typed T
              end
          end
      end
  end.

Definition ReadPacket (fuel pre_fuel : nat) (typed : bool) (T : Conn) : outcome ((error + fpacket) * Conn) :=
  match Flush T with
  | (Some e, T) => Ret (inl e, T)
  | (None, T) => read_loop fuel pre_fuel typed T
  end.

(** [packet] through WritePacket of every middleware, last to first. *)
Fixpoint write_chain (ms : list M) (packet : fpacket) : outcome ((error + option fpacket) * list M) :=
  match ms with
  | [] => Ret (inr (Some packet), [])
  | m :: ms =>
      let! r := write_chain ms packet in
      match r.1 with
      | inr (Some packet) =>
          let! s := MWritePacket packet m in
          Ret (s.1, s.2 :: r.2)
      | other => Ret (other, m :: r.2)
      end
  end.

(** The PostWrite loop of middleware [i]: what it inserts goes through it and
    those before it, and out. *)
Fixpoint post_one (fuel : nat) (i : nat) (T : Conn) : outcome (option error * Conn) :=
  match fuel with
  | O => Diverge
  | S fuel =>
      let! m := deref (Middleware T !! i) in
      let! r := PostWrite m in
      let T := with_middleware T (<[i := r.2]> (Middleware T)) in
      match r.1 with
      | inl e => Ret (Some e, T)
      | inr None => Ret (None, T)
      | inr (Some packet) =>
          let! s := write_chain (take (S i) (Middleware T)) packet in
          let T := with_middleware T (s.2 ++ drop (S i) (Middleware T)) in
          match s.1 with
          | inl e => Ret (Some e, T)
          | inr None => post_one fuel i T
          | inr (Some packet) =>
              match writePacket packet T with
              | (Some e, T) => Ret (Some e, T)
              | (None, T) => post_one fuel i T
              end
          end
      end
  end.

(** [for i := len(T.Middleware) - 1; i >= 0; i--]: the first [n]. *)
Fixpoint post_write (n : nat) (fuel : nat) (T : Conn) : outcome (option error * Conn) :=
  match n with
  | O => Ret (None, T)
  | S i =>
      let! r := post_one fuel i T in
      match r with
      | (Some e, T) => Ret (Some e, T)
      | (None, T) => post_write i fuel T
      end
  end.

Definition WritePacket (fuel : nat) (packet : fpacket) (T : Conn) : outcome (option error * Conn) :=
  let! r := write_chain (Middleware T) packet in
  let T := with_middleware T r.2 in
  match r.1 with
  | inl e => Ret (Some e, T)
  | inr None => post_write (length (Middleware T)) fuel T
  | inr (Some packet) =>
      match writePacket packet T with
      | (Some e, T) => Ret (Some e, T)
      | (None, T) => post_write (length (Middleware T)) fuel T
      end
  end.

(** LookupMiddleware: the first of the wanted type. *)
Definition LookupMiddleware {A} (sel : M -> option A) (T : Conn) : option A :=
  head (omap sel (Middleware T)).

(** ** The laws of a connection *)

Section Laws.
Context {rd wr : fpacket -> Prop} `{!CodecLaws K rd} `{!MiddlewareLaws M rd wr}.

Definition sum_pending (ms : list M) : nat := sum_list (pending <$> ms).
Definition sum_posts (ms : list M) : nat := sum_list (posts <$> ms).

Ltac sums := unfold sum_pending, sum_posts in *; cbn in *; lia.

(** [ms'] is [ms] after some calls that keep the laws. *)
Record kept (ms ms' : list M) : Prop := {
  kept_good : Forall mw_good ms';
  kept_length : length ms' = length ms;
  kept_pending : sum_pending ms' <= sum_pending ms;
  kept_posts : sum_posts ms' <= sum_posts ms
}.

Lemma kept_refl ms : Forall mw_good ms -> kept ms ms.
Proof. by split. Qed.
Lemma kept_trans a b c : kept a b -> kept b c -> kept a c.
Proof. intros [] []. split; [done|congruence|lia|lia]. Qed.
Lemma kept_cons m m' ms ms' :
  mw_good m' -> pending m' <= pending m -> posts m' <= posts m -> kept ms ms' -> kept (m :: ms) (m' :: ms').
Proof. intros ? ? ? []. split; [by constructor|by cbn; f_equal| |]; unfold sum_pending, sum_posts in *; cbn; lia. Qed.
Lemma kept_app a a' b b' : kept a a' -> kept b b' -> kept (a ++ b) (a' ++ b').
Proof.
  intros [] []. split; [by apply Forall_app| | |]; unfold sum_pending, sum_posts in *;
    rewrite ?length_app, ?fmap_app, ?sum_list_with_app; lia.
Qed.

Lemma read_chain_law ms p :
  Forall mw_good ms -> rd p ->
  exists r ms', read_chain ms p = Ret (r, ms') /\ kept ms ms' /\ passes rd r.
Proof.
  revert p. induction ms as [|m ms IH]; intros p Hg Hp; cbn.
  - do 2 eexists. split; [done|]. split; [by apply kept_refl|]. by intros q [= <-].
  - apply Forall_cons in Hg as [Hm Hg].
    destruct (mread_law p m Hm Hp) as (r & m' & -> & Hm' & Hr & ? & ?). cbn.
    destruct r as [e|[q|]]; cbn.
    + do 2 eexists. split; [done|]. split; [|done]. by apply kept_cons, kept_refl.
    + destruct (IH q Hg (Hr q eq_refl)) as (s & ms' & -> & Hk & Hs). cbn.
      do 2 eexists. split; [done|]. split; [|done]. by apply kept_cons.
    + do 2 eexists. split; [done|]. split; [|done]. by apply kept_cons, kept_refl.
Qed.

Lemma write_chain_law ms p :
  Forall mw_good ms -> wr p ->
  exists r ms', write_chain ms p = Ret (r, ms') /\ kept ms ms' /\ passes wr r.
Proof.
  intros Hg Hp. induction ms as [|m ms IH]; cbn.
  - do 2 eexists. split; [done|]. split; [by apply kept_refl|]. by intros q [= <-].
  - apply Forall_cons in Hg as [Hm Hg]. destruct (IH Hg) as (r & ms' & -> & Hk & Hr). cbn.
    destruct r as [e|[q|]]; cbn.
    + do 2 eexists. split; [done|]. split; [|done]. by apply kept_cons.
    + destruct (mwrite_law q m Hm (Hr q eq_refl)) as (s & m' & -> & Hm' & Hs & ? & ?). cbn.
      do 2 eexists. split; [done|]. split; [|done]. by apply kept_cons.
    + do 2 eexists. split; [done|]. split; [|done]. by apply kept_cons.
Qed.

(** A PreRead loop ends: every round takes one of the pending packets. *)
Lemma pre_one_law fuel typed ms :
  Forall mw_good ms -> sum_pending ms < fuel ->
  exists r ms', pre_one fuel typed ms = Ret (r, ms') /\ kept ms ms' /\ passes rd r /\
    (forall p, r = inr (Some p) -> sum_pending ms' < sum_pending ms).
Proof.
  revert ms. induction fuel as [|fuel IH]; intros ms Hg Hf; [lia|]. cbn.
  destruct ms as [|m rest]; [by do 2 eexists; split; [done|]; split; [by apply kept_refl|]|].
  apply Forall_cons in Hg as [Hm Hg].
  destruct (pre_law typed m Hm) as (r & m' & -> & Hm' & Hr & ? & ? & Hlt). cbn.
  assert (kept (m :: rest) (m' :: rest)) as Hk by (by apply kept_cons, kept_refl).
  destruct r as [e|[p|]]; cbn; [by do 2 eexists| |by do 2 eexists].
  specialize (Hlt p eq_refl).
  assert (Hdec : sum_pending (m' :: rest) < sum_pending (m :: rest)) by (unfold sum_pending; cbn; lia).
  destruct (read_chain_law (m' :: rest) p) as (s & ms' & Hs & Hk' & Hps); [by apply Hk|by apply Hr|].
  cbn in Hs. rewrite Hs. cbn. pose proof (kept_pending _ _ Hk').
  assert (kept (m :: rest) ms') as Hkk by (by eapply kept_trans).
  destruct s as [e|[q|]]; cbn.
  - by do 2 eexists.
  - do 2 eexists. split_and!; [done..|]. intros; sums.
  - destruct (IH ms') as (r' & ms'' & -> & Hk'' & Hp'' & _); [by apply Hk'|sums|].
    do 2 eexists. split_and!; [done|by eapply kept_trans|done|]. intros. pose proof (kept_pending _ _ Hk''). sums.
Qed.

Lemma pre_read_law n fuel typed ms :
  Forall mw_good ms -> sum_pending ms < fuel ->
  exists r ms', pre_read n fuel typed ms = Ret (r, ms') /\ kept ms ms' /\ passes rd r /\
    (forall p, r = inr (Some p) -> sum_pending ms' < sum_pending ms).
Proof.
  revert ms. induction n as [|n IH]; intros ms Hg Hf; cbn.
  { do 2 eexists. by split_and!; [|apply kept_refl| |]. }
  destruct (pre_one_law fuel typed ms Hg Hf) as (r & ms1 & -> & Hk & Hr & Hlt). cbn.
  destruct r as [e|[p|]]; cbn; [by do 2 eexists..|].
  destruct ms1 as [|m rest]; [by do 2 eexists|].
  destruct Hk as [Hg1 Hl1 Hp1 Hq1]. apply Forall_cons in Hg1 as [Hm Hg1].
  unfold sum_pending, sum_posts in Hp1, Hq1; cbn in Hp1, Hq1.
  destruct (IH rest) as (s & ms' & -> & Hk' & Hs & Hlt'); [done|unfold sum_pending in *; lia|]. cbn.
  do 2 eexists. split_and!; [done| |done|].
  - destruct Hk'. split; [by constructor|by cbn in *; lia|unfold sum_pending, sum_posts in *; cbn; lia..].
  - intros p Hp. specialize (Hlt' p Hp). unfold sum_pending in *; cbn; lia.
Qed.

Definition conn_pending (T : Conn) : nat := codec_remaining (codec T) + sum_pending (Middleware T).

Ltac pend := unfold conn_pending in *; sums.

(** The codec and the middlewares keep their laws. *)
Definition well (T : Conn) : Prop := codec_good (codec T) /\ Forall mw_good (Middleware T).

Definition read_ok (T : Conn) (r : error + fpacket) (T' : Conn) : Prop :=
  well T' /\
  match r with
  | inl _ => conn_pending T' <= conn_pending T
  | inr p => conn_pending T' < conn_pending T /\ rd p
  end.

Lemma read_loop_law fuel pre_fuel typed T :
  well T -> codec_remaining (codec T) < fuel -> sum_pending (Middleware T) < pre_fuel ->
  exists r T', read_loop fuel pre_fuel typed T = Ret (r, T') /\ read_ok T r T'.
Proof.
  revert T. induction fuel as [|fuel IH]; intros T [Hc Hg] Hf Hp; [lia|]. cbn.
  destruct (pre_read_law (length (Middleware T)) pre_fuel typed (Middleware T) Hg Hp) as (r & ms & -> & Hk & Hr & Hlt).
  cbn. pose proof Hk as [Hg' _ Hk1 _].
  destruct r as [e|[p|]]; cbn.
  - do 2 eexists. split; [done|]. split; [done|]. pend.
  - do 2 eexists. split; [done|]. split; [done|]. specialize (Hlt p eq_refl).
    split; [pend|by apply Hr].
  - unfold readPacket; cbn. destruct (codec_read_law typed (codec T) Hc) as [Hck Hrd].
    destruct (codec_ReadPacket typed (codec T)) as [[e|q] k]; cbn in *.
    + do 2 eexists. split; [done|]. split; [done|]. pend.
    + destruct Hrd as [Hlt' Hq].
      destruct (read_chain_law ms q Hg' Hq) as (s & ms' & -> & [Hg'' _ Hk1' _] & Hs). cbn.
      destruct s as [e|[q'|]]; cbn.
      * do 2 eexists. split; [done|]. split; [done|]. pend.
      * do 2 eexists. split; [done|]. split; [done|]. split; [pend|by apply Hs].
      * set (T2 := with_middleware _ ms'). destruct (IH T2) as (r' & T' & -> & HT' & Hm); [done|pend|pend|].
        do 2 eexists. split; [done|]. split; [done|]. destruct r'; [pend|].
        destruct Hm. split; [pend|done].
Qed.

Lemma ReadPacket_law fuel pre_fuel typed T :
  well T -> codec_remaining (codec T) < fuel -> sum_pending (Middleware T) < pre_fuel ->
  exists r T', ReadPacket fuel pre_fuel typed T = Ret (r, T') /\ read_ok T r T'.
Proof.
  intros [Hc Hg] Hf Hp. unfold ReadPacket, Flush. destruct (codec_flush_law (codec T) Hc) as [Hck Hfl].
  destruct (codec_Flush (codec T)) as [[e|] k]; cbn in *.
  - do 2 eexists. split; [done|]. split; [done|]. pend.
  - destruct (read_loop_law fuel pre_fuel typed (with_codec T k)) as (r & T' & -> & HT' & Hm); [done|pend|done|].
    do 2 eexists. split; [done|]. split; [done|]. destruct r; [pend|].
    destruct Hm. split; [pend|done].
Qed.

(** After a write: the middlewares are kept and the codec's stream too. *)
Definition wrote (T T' : Conn) : Prop :=
  kept (Middleware T) (Middleware T') /\
  (codec_good (codec T) -> codec_good (codec T')) /\
  (codec_good (codec T) -> codec_remaining (codec T') <= codec_remaining (codec T)).

Lemma wrote_trans a b c : wrote a b -> wrote b c -> wrote a c.
Proof.
  intros (? & ? & Hab) (? & ? & Hbc). split; [by eapply kept_trans|]. split; [auto|].
  intros Ha. specialize (Hab Ha). specialize (Hbc (ltac:(auto))). lia.
Qed.

Lemma kept_insert ms i m m' :
  Forall mw_good ms -> ms !! i = Some m -> mw_good m' -> pending m' <= pending m -> posts m' <= posts m ->
  kept ms (<[i := m']> ms).
Proof.
  revert i. induction ms as [|n ms IH]; intros [|i] Hg Hi Hm Hp Hq; cbn in *; try done;
    apply Forall_cons in Hg as [Hn Hg].
  - injection Hi as ->. by apply kept_cons, kept_refl.
  - apply kept_cons; [done..|]. by apply IH.
Qed.

Lemma sum_posts_insert ms i m m' :
  ms !! i = Some m -> posts m' < posts m -> sum_posts (<[i := m']> ms) < sum_posts ms.
Proof.
  revert i. induction ms as [|n ms IH]; intros [|i] Hi Hlt; cbn in *; try done.
  - injection Hi as ->. unfold sum_posts; cbn; lia.
  - specialize (IH i Hi Hlt). by apply (proj1 (Nat.add_lt_mono_l _ _ (posts n))).
Qed.

Lemma write_out T q : Forall mw_good (Middleware T) -> wrote T (writePacket q T).2.
Proof. intros Hg. split; [by apply kept_refl|]. split; intros Hc; by apply codec_write_law. Qed.

Lemma wrote_chain T n p :
  Forall mw_good (Middleware T) -> wr p ->
  exists r ms', write_chain (take n (Middleware T)) p = Ret (r, ms') /\
    wrote T (with_middleware T (ms' ++ drop n (Middleware T))) /\ passes wr r.
Proof.
  intros Hg Hp.
  destruct (write_chain_law (take n (Middleware T)) p) as (r & ms' & -> & Hk & Hr); [by apply Forall_take|done|].
  do 2 eexists. split; [done|]. split; [|done]. split; [|done]. cbn.
  rewrite <- (take_drop n (Middleware T)) at 1. apply kept_app; [done|]. by apply kept_refl, Forall_drop.
Qed.

(** A PostWrite loop ends, too. *)
Lemma post_one_law fuel i T :
  Forall mw_good (Middleware T) -> i < length (Middleware T) -> sum_posts (Middleware T) < fuel ->
  exists e T', post_one fuel i T = Ret (e, T') /\ wrote T T'.
Proof.
  revert T. induction fuel as [|fuel IH]; intros T Hg Hi Hf; [lia|]. cbn [post_one].
  destruct (lookup_lt_is_Some_2 _ _ Hi) as [m Hm]. rewrite Hm. cbn [deref obind].
  pose proof (proj1 (Forall_lookup _ _) Hg _ _ Hm) as Hgm.
  destruct (post_law m Hgm) as (r & m' & -> & Hm' & Hr & ? & ? & Hlt). cbn [obind fst snd].
  set (T1 := with_middleware T (<[i := m']> (Middleware T))).
  assert (wrote T T1) as W1 by (split; [by eapply kept_insert|done]).
  pose proof (kept_good _ _ (proj1 W1)) as Hg1.
  destruct r as [e|[p|]]; [by do 2 eexists| |by do 2 eexists].
  assert (sum_posts (Middleware T1) < sum_posts (Middleware T)) as Hdec by (by eapply sum_posts_insert, Hlt).
  destruct (wrote_chain T1 (S i) p Hg1 (Hr p eq_refl)) as (s & ms & -> & W2 & Hs). cbn [obind fst snd].
  set (T2 := with_middleware T1 (ms ++ drop (S i) (Middleware T1))) in *.
  assert (wrote T T2) as W12 by (by eapply wrote_trans).
  assert (Hgo : forall T3, wrote T2 T3 -> exists e T', post_one fuel i T3 = Ret (e, T') /\ wrote T T').
  { intros T3 W3. pose proof W2 as [[_ ? _ ?] _]. pose proof W3 as [[? ? _ ?] _]. pose proof W1 as [[_ ? _ _] _].
    destruct (IH T3) as (e & T' & -> & W4); [done|lia|lia|].
    do 2 eexists. split; [done|]. eapply wrote_trans; [|done]. by eapply wrote_trans. }
  destruct s as [e|[q|]]; [by do 2 eexists| |apply Hgo; split; [apply kept_refl, W2|done]].
  pose proof (write_out T2 q (kept_good _ _ (proj1 W2))) as W3.
  destruct (writePacket q T2) as [[e|] T3]; cbn in W3; [|by apply Hgo].
  do 2 eexists. split; [done|]. by eapply wrote_trans.
Qed.

Lemma post_write_law n fuel T :
  Forall mw_good (Middleware T) -> n <= length (Middleware T) -> sum_posts (Middleware T) < fuel ->
  exists e T', post_write n fuel T = Ret (e, T') /\ wrote T T'.
Proof.
  revert T. induction n as [|n IH]; intros T Hg Hn Hf; cbn.
  { do 2 eexists. split; [done|]. split; [by apply kept_refl|done]. }
  destruct (post_one_law fuel n T Hg) as (e & T1 & -> & W1); [lia|done|]. cbn.
  destruct e as [e|]; [by do 2 eexists|]. pose proof W1 as [[? ? _ ?] _].
  destruct (IH T1) as (e & T2 & -> & W2); [done|lia|lia|].
  do 2 eexists. split; [done|]. by eapply wrote_trans.
Qed.

Lemma WritePacket_law fuel p T :
  Forall mw_good (Middleware T) -> wr p -> sum_posts (Middleware T) < fuel ->
  exists e T', WritePacket fuel p T = Ret (e, T') /\ wrote T T'.
Proof.
  intros Hg Hp Hf. unfold WritePacket.
  destruct (wrote_chain T (length (Middleware T)) p Hg Hp) as (r & ms & Hc & W1 & Hr).
  rewrite take_ge in Hc by done. rewrite drop_ge, app_nil_r in W1 by done. rewrite Hc. cbn [obind fst snd].
  set (T1 := with_middleware T ms) in *. pose proof W1 as [[Hg1 _ _ ?] _].
  assert (Hpost : forall T2, wrote T1 T2 ->
    exists e T', post_write (length (Middleware T2)) fuel T2 = Ret (e, T') /\ wrote T T').
  { intros T2 W2. pose proof W2 as [[? ? _ ?] _].
    destruct (post_write_law (length (Middleware T2)) fuel T2) as (e & T3 & -> & W3); [done|lia|lia|].
    do 2 eexists. split; [done|]. eapply wrote_trans; [|done]. by eapply wrote_trans. }
  destruct r as [e|[q|]]; [by do 2 eexists| |apply Hpost; split; [by apply kept_refl|done]].
  pose proof (write_out T1 q Hg1) as W2.
  destruct (writePacket q T1) as [[e|] T2]; cbn in W2; [|by apply Hpost].
  do 2 eexists. split; [done|]. by eapply wrote_trans.
Qed.
End Laws.
End Conn.
Arguments Conn : clear implicits.

(** ** [Conn] is a connection for the bouncer

    The fuel is the number of packets that can still arrive: every round of a
    loop consumes one ([ReadPacket_law], [WritePacket_law]). *)
Section Instances.
Context {K M : Type} {rd wr : fpacket -> Prop} `{CodecLaws K rd} `{MiddlewareLaws M rd wr}.

#[export] Instance conn_ops : ConnOps (Conn K M) := {|
  conn_read T := ReadPacket (S (codec_remaining (codec T))) (S (sum_pending (Middleware T))) true T;
  conn_write T p := WritePacket (S (sum_posts (Middleware T))) p T
|}.

#[export] Program Instance conn_laws : ConnLaws (Conn K M) rd wr := {|
  conn_good := well;
  remaining := conn_pending
|}.
Next Obligation. intros T Hg. apply ReadPacket_law; [done|lia|lia]. Qed.
Next Obligation.
  intros T p [Hc Hg] Hp.
  destruct (WritePacket_law (S (sum_posts (Middleware T))) p T) as (e & T' & HT & ([? _ ? _] & ? & Hr));
    [done|done|lia|].
  do 2 eexists. split; [exact HT|]. split; [split; auto|]. unfold conn_pending. specialize (Hr Hc). lia.
Qed.
End Instances.

(** ** Middlewares *)

(** A connection's middlewares are of different types. *)
Definition omapr {A B C} (f : A -> B) (o : outcome (C * A)) : outcome (C * B) := ofmap (fun r => (r.1, f r.2)) o.

#[export] Instance sum_mw {A B} `{MiddlewareOps A} `{MiddlewareOps B} : MiddlewareOps (A + B) := {|
  PreRead typed m :=
    match m with inl a => omapr inl (PreRead typed a) | inr b => omapr inr (PreRead typed b) end;
  MReadPacket p m :=
    match m with inl a => omapr inl (MReadPacket p a) | inr b => omapr inr (MReadPacket p b) end;
  MWritePacket p m :=
    match m with inl a => omapr inl (MWritePacket p a) | inr b => omapr inr (MWritePacket p b) end;
  PostWrite m :=
    match m with inl a => omapr inl (PostWrite a) | inr b => omapr inr (PostWrite b) end
|}.

#[export] Program Instance sum_mw_laws {A B} `{MiddlewareOps A} `{MiddlewareOps B} rd wr
    (la : MiddlewareLaws A rd wr) (lb : MiddlewareLaws B rd wr) : MiddlewareLaws (A + B) rd wr := {|
  mw_good m := match m with inl a => mw_good a | inr b => mw_good b end;
  pending m := match m with inl a => pending a | inr b => pending b end;
  posts m := match m with inl a => posts a | inr b => posts b end
|}.
Next Obligation.
  intros ???? rd wr la lb typed [m|m] Hm; cbn; destruct (pre_law typed m Hm) as (r & m' & -> & ?); by eexists _, (_ m').
Qed.
Next Obligation.
  intros ???? rd wr la lb p [m|m] Hm Hp; cbn; destruct (mread_law p m Hm Hp) as (r & m' & -> & ?); by eexists _, (_ m').
Qed.
Next Obligation.
  intros ???? rd wr la lb p [m|m] Hm Hp; cbn; destruct (mwrite_law p m Hm Hp) as (r & m' & -> & ?); by eexists _, (_ m').
Qed.
Next Obligation.
  intros ???? rd wr la lb [m|m] Hm; cbn; destruct (post_law m Hm) as (r & m' & -> & ?); by eexists _, (_ m').
Qed.

(** lib/fed/middlewares/unterminate: a Terminate of the client is the end of
    its stream, and is not passed on. *)
Module Unterminate.
Inductive unterm := Unterminate.

Definition ReadPacket (packet : fpacket) : error + option fpacket :=
  if decide (ptype packet = Terminate.Type_) then inl EOF else inr (Some packet).

#[global] Instance unterm_mw : MiddlewareOps unterm := {|
  PreRead _ m := Ret (inr None, m);
  MReadPacket packet m := Ret (ReadPacket packet, m);
  MWritePacket packet m := Ret (inr (Some packet), m);
  PostWrite m := Ret (inr None, m)
|}.

#[global] Program Instance unterm_laws rd wr : MiddlewareLaws unterm rd wr := {|
  mw_good _ := True;
  pending _ := 0;
  posts _ := 0
|}.
Next Obligation. intros rd wr typed m _. by do 2 eexists. Qed.
Next Obligation.
  intros rd wr p m _ Hp. do 2 eexists. split; [done|]. split_and!; [done| |done..].
  unfold ReadPacket. gdecide; [done|]. by intros ? [= <-].
Qed.
Next Obligation.
  intros rd wr p m _ Hp. do 2 eexists. split; [done|]. split_and!; [done| |done..]. by intros ? [= <-].
Qed.
Next Obligation. intros rd wr m _. by do 2 eexists. Qed.
End Unterminate.
