(* ===== verification/Eqp.v ===== *)
(** * Eqp: lib/fed/middlewares/eqp

    The middleware that follows the extended query protocol, so that a client
    finds its prepared statements on whatever server it is paired with.
    [State] (state.go) watches both directions: a Parse, Bind or Close of the
    client is pending until the server's completion arrives, a ReadyForQuery
    drops what is still pending.  [SyncMiddleware] (sync.go) computes the
    packets that bring a server to a client's statements.

    [Session] couples the tracker with the requests in flight and with the
    statements and portals the completed requests leave on the server. *)

From Stdlib Require Import Init.Byte Strings.Byte Strings.String.
From S2P Require Import Prelude.
From S2P Require Import Slices.
From S2P Require Import Ring.
From S2P Require Import Wire.
From S2P Require Import Packets.
From S2P Require Import Fed.

Local Open Scope go_scope.

Inductive CloseVariant := CloseVariantPreparedStatement | CloseVariantPortal.

Record CloseReq := mkCloseReq { Variant : CloseVariant; Target : gostring }.

(** A ring of pointers to packets; the zero value is nil. *)
#[export] Instance zero_Parse : Zero Parse.t := Parse.mk [] [] [].
#[export] Instance zero_Bind : Zero Bind.t := Bind.mk [] [] [] [] [].
#[export] Instance zero_CloseReq : Zero CloseReq := mkCloseReq CloseVariantPreparedStatement [].

Record State := mkState {
  preparedStatements : gmap gostring Parse.t;
  portals : gmap gostring Bind.t;
  pendingPreparedStatements : Ring Parse.t;
  pendingPortals : Ring Bind.t;
  pendingCloses : Ring CloseReq
}.

Definition new_State : State := mkState ∅ ∅ zero_ring zero_ring zero_ring.

(** The result of a middleware call: the packet to pass on, or an error. *)
Abbreviation result := ((error + fpacket) * State)%type.

(** *** Client to server *)

Definition Close (T : State) (packet : fpacket) : outcome result :=
  match concrete packet with
  | inl e => Ret (inl e, T)
  | inr (PClose p) =>
      let push v :=
        let! r := PushBack (pendingCloses T) (mkCloseReq v (Close.Name p)) in
        Ret (inr (of_packet (PClose p)),
             mkState (preparedStatements T) (portals T) (pendingPreparedStatements T) (pendingPortals T) r) in
      if decide (Close.Which p = x53) then push CloseVariantPreparedStatement
      else if decide (Close.Which p = x50) then push CloseVariantPortal
      else Ret (inl ErrInvalidFormat, T)
  | inr _ => Panic
  end.

Definition Parse (T : State) (packet : fpacket) : outcome result :=
  match concrete packet with
  | inl e => Ret (inl e, T)
  | inr (PParse p) =>
      let! r := PushBack (pendingPreparedStatements T) p in
      Ret (inr (of_packet (PParse p)),
           mkState (preparedStatements T) (portals T) r (pendingPortals T) (pendingCloses T))
  | inr _ => Panic
  end.

Definition Bind (T : State) (packet : fpacket) : outcome result :=
  match concrete packet with
  | inl e => Ret (inl e, T)
  | inr (PBind p) =>
      let! r := PushBack (pendingPortals T) p in
      Ret (inr (of_packet (PBind p)),
           mkState (preparedStatements T) (portals T) (pendingPreparedStatements T) r (pendingCloses T))
  | inr _ => Panic
  end.

Definition Query (T : State) : State :=
  mkState (delete [] (preparedStatements T)) (delete [] (portals T))
    (pendingPreparedStatements T) (pendingPortals T) (pendingCloses T).

Definition C2S (T : State) (packet : fpacket) : outcome result :=
  if decide (ptype packet = Close.Type_) then Close T packet
  else if decide (ptype packet = Parse.Type_) then Parse T packet
  else if decide (ptype packet = Bind.Type_) then Bind T packet
  else if decide (ptype packet = Query.Type_) then Ret (inr packet, Query T)
  else Ret (inr packet, T).

(** *** Server to client *)

Definition CloseComplete (T : State) : outcome State :=
  let! cr := PopFront (pendingCloses T) in
  let T := mkState (preparedStatements T) (portals T) (pendingPreparedStatements T) (pendingPortals T) cr.2 in
  match cr.1 with
  | None => Ret T
  | Some c =>
      match Variant c with
      | CloseVariantPortal =>
          Ret (mkState (preparedStatements T) (delete (Target c) (portals T))
                 (pendingPreparedStatements T) (pendingPortals T) (pendingCloses T))
      | CloseVariantPreparedStatement =>
          Ret (mkState (delete (Target c) (preparedStatements T)) (portals T)
                 (pendingPreparedStatements T) (pendingPortals T) (pendingCloses T))
      end
  end.

Definition ParseComplete (T : State) : outcome State :=
  let! pr := PopFront (pendingPreparedStatements T) in
  let T := mkState (preparedStatements T) (portals T) pr.2 (pendingPortals T) (pendingCloses T) in
  match pr.1 with
  | None => Ret T
  | Some p =>
      Ret (mkState (<[Parse.Destination p := p]> (preparedStatements T)) (portals T)
             (pendingPreparedStatements T) (pendingPortals T) (pendingCloses T))
  end.

Definition BindComplete (T : State) : outcome State :=
  let! br := PopFront (pendingPortals T) in
  let T := mkState (preparedStatements T) (portals T) (pendingPreparedStatements T) br.2 (pendingCloses T) in
  match br.1 with
  | None => Ret T
  | Some p =>
      Ret (mkState (preparedStatements T) (<[Bind.Destination p := p]> (portals T))
             (pendingPreparedStatements T) (pendingPortals T) (pendingCloses T))
  end.

Definition discard_all : gostring := list_byte_of_string "DISCARD ALL".

Definition CommandComplete (T : State) (packet : fpacket) : outcome result :=
  match concrete packet with
  | inl e => Ret (inl e, T)
  | inr (PCommandComplete p) =>
      Ret (inr (of_packet (PCommandComplete p)),
           if decide (p = discard_all) then
             mkState ∅ ∅ (Clear (pendingPreparedStatements T)) (Clear (pendingPortals T)) (Clear (pendingCloses T))
           else T)
  | inr _ => Panic
  end.

Definition ReadyForQuery (T : State) (packet : fpacket) : outcome result :=
  match concrete packet with
  | inl e => Ret (inl e, T)
  | inr (PReadyForQuery p) =>
      Ret (inr (of_packet (PReadyForQuery p)),
           mkState (preparedStatements T) (if decide (p = x49) then ∅ else portals T)
             (Clear (pendingPreparedStatements T)) (Clear (pendingPortals T)) (Clear (pendingCloses T)))
  | inr _ => Panic
  end.

Definition S2C (T : State) (packet : fpacket) : outcome result :=
  if decide (ptype packet = CloseComplete.Type_) then let! T := CloseComplete T in Ret (inr packet, T)
  else if decide (ptype packet = ParseComplete.Type_) then let! T := ParseComplete T in Ret (inr packet, T)
  else if decide (ptype packet = BindComplete.Type_) then let! T := BindComplete T in Ret (inr packet, T)
  else if decide (ptype packet = CommandComplete.Type_) then CommandComplete T packet
  else if decide (ptype packet = ReadyForQuery.Type_) then ReadyForQuery T packet
  else Ret (inr packet, T).

(** [for i := 0; i < other.Length(); i++ { ring.PushBack(other.Get(i)) }] *)
Fixpoint copy_ring {A} `{Zero A} (n : nat) (i : nat) (other r : Ring A) : outcome (Ring A) :=
  match n with
  | O => Ret r
  | S n =>
      let! x := Ring.Get other (Z.of_nat i) in
      let! r := PushBack r x in
      copy_ring n (S i) other r
  end.

Definition Set_ (T other : State) : outcome State :=
  let! p := copy_ring (Z.to_nat (Ring.Length (pendingPreparedStatements other))) 0
              (pendingPreparedStatements other) (Clear (pendingPreparedStatements T)) in
  let! b := copy_ring (Z.to_nat (Ring.Length (pendingPortals other))) 0
              (pendingPortals other) (Clear (pendingPortals T)) in
  let! c := copy_ring (Z.to_nat (Ring.Length (pendingCloses other))) 0
              (pendingCloses other) (Clear (pendingCloses T)) in
  Ret (mkState (preparedStatements other) (portals other) p b c).

(** ** sync.go *)

Definition preparedStatementsEqual (a b : Parse.t) : outcome bool :=
  if decide (Parse.Query a <> Parse.Query b) then Ret false
  else
    let! eq := Slices.Equal (Parse.ParameterDataTypes a) (Parse.ParameterDataTypes b) in
    Ret (if eq then true else false).

(** Iterating over a Go map visits every binding once, in any order. *)
Definition iterates {V} (m : gmap gostring V) (l : list (gostring * V)) : Prop :=
  l ≡ₚ map_to_list m.

Definition close_portals (l : list (gostring * Bind.t)) : list Packet :=
  (fun nb => PClose (Close.mk x50 nb.1)) <$> l.

Fixpoint close_statements (l : list (gostring * Parse.t)) (c : gmap gostring Parse.t) : outcome (list Packet) :=
  match l with
  | [] => Ret []
  | (name, preparedStatement) :: l =>
      let close := let! ps := close_statements l c in Ret (PClose (Close.mk x53 name) :: ps) in
      match c !! name with
      | Some clientPreparedStatement =>
          let! eq := preparedStatementsEqual preparedStatement clientPreparedStatement in
          if eq : bool then close_statements l c
          else if decide (name = []) then close_statements l c
          else close
      | None => close
      end
  end.

Fixpoint parse_statements (l : list (gostring * Parse.t)) (s : gmap gostring Parse.t) : outcome (list Packet) :=
  match l with
  | [] => Ret []
  | (name, preparedStatement) :: l =>
      let parse := let! ps := parse_statements l s in Ret (PParse preparedStatement :: ps) in
      match s !! name with
      | Some serverPreparedStatement =>
          let! eq := preparedStatementsEqual preparedStatement serverPreparedStatement in
          if eq : bool then parse_statements l s else parse
      | None => parse
      end
  end.

Definition bind_portals (l : list (gostring * Bind.t)) : list Packet := (fun nb => PBind nb.2) <$> l.

(** The packets SyncMiddleware writes to the server, given the orders in which
    the four maps are visited; a backend Sync follows if there are any. *)
Definition SyncMiddleware (c s : State) (sp : list (gostring * Bind.t)) (ss cs : list (gostring * Parse.t))
    (cp : list (gostring * Bind.t)) : outcome (list Packet) :=
  let! closes := close_statements ss (preparedStatements c) in
  let! parses := parse_statements cs (preparedStatements s) in
  Ret (close_portals sp ++ closes ++ parses ++ bind_portals cp).

(** ** What the completed requests leave on a server *)

Inductive request :=
| RParse (p : Parse.t)
| RBind (p : Bind.t)
| RClose (c : CloseReq).

Definition request_packet (r : request) : Packet :=
  match r with
  | RParse p => PParse p
  | RBind p => PBind p
  | RClose (mkCloseReq CloseVariantPreparedStatement n) => PClose (Close.mk x53 n)
  | RClose (mkCloseReq CloseVariantPortal n) => PClose (Close.mk x50 n)
  end.

Definition completion (r : request) : Packet :=
  match r with
  | RParse _ => PParseComplete tt
  | RBind _ => PBindComplete tt
  | RClose _ => PCloseComplete tt
  end.

Record Server := mkServer { sps : gmap gostring Parse.t; sportals : gmap gostring Bind.t }.

Definition effect (v : Server) (r : request) : Server :=
  match r with
  | RParse p => mkServer (<[Parse.Destination p := p]> (sps v)) (sportals v)
  | RBind p => mkServer (sps v) (<[Bind.Destination p := p]> (sportals v))
  | RClose (mkCloseReq CloseVariantPreparedStatement n) => mkServer (delete n (sps v)) (sportals v)
  | RClose (mkCloseReq CloseVariantPortal n) => mkServer (sps v) (delete n (sportals v))
  end.

(** What the server accepts: a Parse of a named statement needs a free name, a
    Bind a free name and an existing statement, a Close nothing. *)
Definition accepts (v : Server) (r : request) : Prop :=
  match r with
  | RParse p => Parse.Destination p = [] \/ sps v !! Parse.Destination p = None
  | RBind p =>
      (Bind.Destination p = [] \/ sportals v !! Bind.Destination p = None) /\ is_Some (sps v !! Bind.Source p)
  | RClose _ => True
  end.

Fixpoint accepted (v : Server) (reqs : list request) : Prop :=
  match reqs with
  | [] => True
  | r :: reqs => accepts v r /\ accepted (effect v r) reqs
  end.

(** ** A session: the tracker, the requests in flight, the server *)

Record Session := mkSession { tracker : State; inflight : list request; server : Server }.

(** Pass a packet through the tracker. *)
Definition feed (f : State -> fpacket -> outcome result) (T : State) (p : Packet) : outcome State :=
  let! r := f T (of_packet p) in Ret r.2.

Inductive event :=
| Send (r : request)          (* the client sends, possibly pipelined *)
| Complete                    (* the server completes the oldest request *)
| SimpleQuery (q : Query.t)   (* with nothing in flight *)
| Done (tag : CommandComplete.t)
| Ready (status : byte).      (* answer to a Sync: what is in flight has failed *)

Definition run_event (s : Session) (e : event) : outcome (option Session) :=
  match e with
  | Send r =>
      ofmap (fun T => Some (mkSession T (inflight s ++ [r]) (server s))) (feed C2S (tracker s) (request_packet r))
  | Complete =>
      match inflight s with
      | [] => Ret None
      | r :: rest =>
          ofmap (fun T => Some (mkSession T rest (effect (server s) r))) (feed S2C (tracker s) (completion r))
      end
  | SimpleQuery q =>
      match inflight s with
      | [] =>
          ofmap (fun T => Some (mkSession T [] (mkServer (delete [] (sps (server s))) (delete [] (sportals (server s))))))
            (feed C2S (tracker s) (PQuery q))
      | _ => Ret None
      end
  | Done tag =>
      match inflight s with
      | [] =>
          ofmap (fun T => Some (mkSession T [] (if decide (tag = discard_all) then mkServer ∅ ∅ else server s)))
            (feed S2C (tracker s) (PCommandComplete tag))
      | _ => Ret None
      end
  | Ready status =>
      ofmap (fun T => Some (mkSession T [] (if decide (status = x49) then mkServer (sps (server s)) ∅ else server s)))
        (feed S2C (tracker s) (PReadyForQuery status))
  end.

Definition session_init (s : Session) : Prop := s = mkSession new_State [] (mkServer ∅ ∅).
Definition session_step (s s' : Session) : Prop := exists e, run_event s e = Ret (Some s').

(** ** The invariant *)

Definition parses (l : list request) : list Parse.t := omap (fun r => match r with RParse p => Some p | _ => None end) l.
Definition binds (l : list request) : list Bind.t := omap (fun r => match r with RBind p => Some p | _ => None end) l.
Definition closes (l : list request) : list CloseReq := omap (fun r => match r with RClose c => Some c | _ => None end) l.

Record EInv (s : Session) : Prop := {
  ei_ps : preparedStatements (tracker s) = sps (server s);
  ei_portals : portals (tracker s) = sportals (server s);
  ei_wf1 : wf (pendingPreparedStatements (tracker s));
  ei_wf2 : wf (pendingPortals (tracker s));
  ei_wf3 : wf (pendingCloses (tracker s));
  ei_parses : contents (pendingPreparedStatements (tracker s)) = parses (inflight s);
  ei_binds : contents (pendingPortals (tracker s)) = binds (inflight s);
  ei_closes : contents (pendingCloses (tracker s)) = closes (inflight s);
  ei_keyed n p : sps (server s) !! n = Some p -> Parse.Destination p = n;
  ei_keyedp n p : sportals (server s) !! n = Some p -> Bind.Destination p = n
}.

Lemma EInv_init : EInv (mkSession new_State [] (mkServer ∅ ∅)).
Proof.
  destruct (wf_zero_ring (A := Parse.t)) as [? ?], (wf_zero_ring (A := Bind.t)) as [? ?],
    (wf_zero_ring (A := CloseReq)) as [? ?].
  by split.
Qed.

(** What the type switches do with each packet. *)
Lemma feed_parse T p : feed C2S T (PParse p) =
  let! r := PushBack (pendingPreparedStatements T) p in
  Ret (mkState (preparedStatements T) (portals T) r (pendingPortals T) (pendingCloses T)).
Proof. unfold feed. change (C2S T (of_packet (PParse p))) with (Parse T (of_packet (PParse p))).
  unfold Parse. cbn [concrete of_packet]. by destruct (PushBack _ _). Qed.
Lemma feed_bind T p : feed C2S T (PBind p) =
  let! r := PushBack (pendingPortals T) p in
  Ret (mkState (preparedStatements T) (portals T) (pendingPreparedStatements T) r (pendingCloses T)).
Proof. unfold feed. change (C2S T (of_packet (PBind p))) with (Bind T (of_packet (PBind p))).
  unfold Bind. cbn [concrete of_packet]. by destruct (PushBack _ _). Qed.
Lemma feed_close T c : feed C2S T (request_packet (RClose c)) =
  let! r := PushBack (pendingCloses T) c in
  Ret (mkState (preparedStatements T) (portals T) (pendingPreparedStatements T) (pendingPortals T) r).
Proof.
  destruct c as [[|] n]; unfold feed; cbn [request_packet].
  - change (C2S T (of_packet (PClose (Close.mk x53 n)))) with (Close T (of_packet (PClose (Close.mk x53 n)))).
    unfold Close. cbn [concrete of_packet Close.Which Close.Name]. rewrite decide_True by done.
    by destruct (PushBack _ _).
  - change (C2S T (of_packet (PClose (Close.mk x50 n)))) with (Close T (of_packet (PClose (Close.mk x50 n)))).
    unfold Close. cbn [concrete of_packet Close.Which Close.Name].
    rewrite decide_False by done. rewrite decide_True by done. by destruct (PushBack _ _).
Qed.

Lemma feed_done T tag : feed S2C T (PCommandComplete tag) =
  Ret (if decide (tag = discard_all) then
         mkState ∅ ∅ (Clear (pendingPreparedStatements T)) (Clear (pendingPortals T)) (Clear (pendingCloses T))
       else T).
Proof. reflexivity. Qed.
Lemma feed_ready T status : feed S2C T (PReadyForQuery status) =
  Ret (mkState (preparedStatements T) (if decide (status = x49) then ∅ else portals T)
         (Clear (pendingPreparedStatements T)) (Clear (pendingPortals T)) (Clear (pendingCloses T))).
Proof. reflexivity. Qed.

(** Close one pending-list case of the invariant. *)
Ltac pending := unfold parses, binds, closes in *; rewrite ?omap_app; cbn; rewrite ?app_nil_r; congruence.

Lemma send_EInv s r : EInv s -> exists s', run_event s (Send r) = Ret (Some s') /\ EInv s'.
Proof.
  intros [Hps Hpo Hw1 Hw2 Hw3 Hp Hb Hc Hk Hkp]. destruct s as [T fl v]. cbn in *.
  destruct r as [p|p|c].
  - change (request_packet (RParse p)) with (PParse p). rewrite feed_parse.
    destruct (PushBack_spec (pendingPreparedStatements T) p Hw1) as (r' & -> & Hwf & Hr). cbn.
    eexists. split; [done|]. split; cbn; try done; pending.
  - change (request_packet (RBind p)) with (PBind p). rewrite feed_bind.
    destruct (PushBack_spec (pendingPortals T) p Hw2) as (r' & -> & Hwf & Hr). cbn.
    eexists. split; [done|]. split; cbn; try done; pending.
  - rewrite feed_close. destruct (PushBack_spec (pendingCloses T) c Hw3) as (r' & -> & Hwf & Hr). cbn.
    eexists. split; [done|]. split; cbn; try done; pending.
Qed.

Lemma complete_EInv s : EInv s -> exists r, run_event s Complete = Ret r /\
  forall s', r = Some s' -> EInv s'.
Proof.
  intros [Hps Hpo Hw1 Hw2 Hw3 Hp Hb Hc Hk Hkp]. destruct s as [T [|r fl] v]; cbn in *; [by eexists|].
  destruct r as [p|p|c]; cbn [completion]; unfold feed.
  - change (S2C T (of_packet (PParseComplete ()))) with
      (let! T := ParseComplete T in Ret (@inr error _ (of_packet (PParseComplete ())), T)).
    unfold ParseComplete. destruct (PopFront_spec _ Hw1) as (r' & -> & Hwf & Hr). rewrite Hp in Hr |- *.
    cbn. eexists. split; [done|]. intros s' [= <-]. split; cbn; try done; [congruence|].
    intros n q. rewrite lookup_insert. case_decide; [by intros [= <-]|apply Hk].
  - change (S2C T (of_packet (PBindComplete ()))) with
      (let! T := BindComplete T in Ret (@inr error _ (of_packet (PBindComplete ())), T)).
    unfold BindComplete. destruct (PopFront_spec _ Hw2) as (r' & -> & Hwf & Hr). rewrite Hb in Hr |- *.
    cbn. eexists. split; [done|]. intros s' [= <-]. split; cbn; try done; [congruence|].
    intros n q. rewrite lookup_insert. case_decide; [by intros [= <-]|apply Hkp].
  - change (S2C T (of_packet (PCloseComplete ()))) with
      (let! T := CloseComplete T in Ret (@inr error _ (of_packet (PCloseComplete ())), T)).
    unfold CloseComplete. destruct (PopFront_spec _ Hw3) as (r' & -> & Hwf & Hr). rewrite Hc in Hr |- *.
    cbn. destruct c as [[|] n]; cbn; (eexists; split; [done|]; intros s' [= <-]; split; cbn; try done); try congruence.
    all: intros m q [_ Hq]%lookup_delete_Some; eauto.
Qed.

Lemma run_event_EInv s e : EInv s -> exists r, run_event s e = Ret r /\ forall s', r = Some s' -> EInv s'.
Proof.
  intros HI. destruct e as [r| |q|tag|status].
  - destruct (send_EInv s r HI) as (s' & -> & HI'). eexists. split; [done|]. by intros ? [= <-].
  - by apply complete_EInv.
  - destruct HI as [Hps Hpo Hw1 Hw2 Hw3 Hp Hb Hc Hk Hkp]. destruct s as [T [|] v]; cbn in *; [|by eexists].
    eexists. split; [done|]. intros s' [= <-]. split; cbn; try done; try congruence.
    all: intros n p [_ Hn]%lookup_delete_Some; eauto.
  - pose proof HI as [Hps Hpo Hw1 Hw2 Hw3 Hp Hb Hc Hk Hkp].
    destruct (Clear_spec _ Hw1), (Clear_spec _ Hw2), (Clear_spec _ Hw3).
    destruct s as [T [|] v]; [|by eexists].
    unfold run_event. cbn [inflight tracker server]. rewrite feed_done.
    destruct (decide (tag = discard_all)); eexists; (split; [done|]); intros s' [= <-]; [|done].
    by split.
  - pose proof HI as [Hps Hpo Hw1 Hw2 Hw3 Hp Hb Hc Hk Hkp].
    destruct (Clear_spec _ Hw1), (Clear_spec _ Hw2), (Clear_spec _ Hw3).
    unfold run_event. rewrite feed_ready.
    destruct (decide (status = x49)); eexists; (split; [done|]); intros s' [= <-]; split; try done; cbn;
      [by rewrite decide_True|by rewrite decide_False].
Qed.

Lemma session_EInv s : reachable session_init session_step s -> EInv s.
Proof.
  apply invariant_reachable; [intros s0 ->; apply EInv_init|].
  intros s0 s' _ HI [e He]. destruct (run_event_EInv s0 e HI) as (r & Hr & HI'). apply HI'. congruence.
Qed.

(** ** Synchronising a server with a client *)

(** What preparedStatementsEqual decides: the name may differ. *)
Definition same_statement (a b : Parse.t) : Prop :=
  Parse.Query a = Parse.Query b /\ Parse.ParameterDataTypes a = Parse.ParameterDataTypes b.

#[export] Instance same_statement_dec a b : Decision (same_statement a b).
Proof. unfold same_statement. apply _. Defined.

#[export] Instance same_statement_equiv : Equivalence same_statement.
Proof.
  split; [by split|by intros a b [? ?]|].
  intros a b c [? ?] [? ?]. split; congruence.
Qed.

Lemma preparedStatementsEqual_spec a b :
  preparedStatementsEqual a b = Ret (bool_decide (same_statement a b)).
Proof.
  unfold preparedStatementsEqual, same_statement. gdecide.
  - rewrite bool_decide_false; [done|]. tauto.
  - rewrite Equal_spec. cbn. repeat case_bool_decide; tauto.
Qed.

Definition same_option (a b : option Parse.t) : Prop :=
  match a, b with
  | Some p, Some q => same_statement p q
  | None, None => True
  | _, _ => False
  end.

Definition keyed (m : gmap gostring Parse.t) : Prop := forall n p, m !! n = Some p -> Parse.Destination p = n.
Definition keyed_portals (m : gmap gostring Bind.t) : Prop := forall n p, m !! n = Some p -> Bind.Destination p = n.

Definition close_s (n : gostring) : request := RClose (mkCloseReq CloseVariantPreparedStatement n).
Definition close_p (n : gostring) : request := RClose (mkCloseReq CloseVariantPortal n).

(** The statements to close and to parse, as filters of the maps. *)
Definition must_close (c : gmap gostring Parse.t) (np : gostring * Parse.t) : Prop :=
  match c !! np.1 with Some q => ~ same_statement np.2 q /\ np.1 <> [] | None => True end.
Definition must_parse (s : gmap gostring Parse.t) (np : gostring * Parse.t) : Prop :=
  match s !! np.1 with Some q => ~ same_statement np.2 q | None => True end.

#[export] Instance must_close_dec c np : Decision (must_close c np).
Proof. unfold must_close. destruct (c !! np.1); apply _. Defined.
#[export] Instance must_parse_dec s np : Decision (must_parse s np).
Proof. unfold must_parse. destruct (s !! np.1); apply _. Defined.

Lemma close_statements_spec l c :
  close_statements l c = Ret (request_packet <$> (close_s <$> (filter (must_close c) l).*1)).
Proof.
  induction l as [|[n p] l IH]; [done|]. cbn [close_statements].
  destruct (c !! n) as [q|] eqn:Hc.
  - rewrite preparedStatementsEqual_spec. cbn [obind]. case_bool_decide as Heq.
    + rewrite IH. rewrite filter_cons_False; [done|]. unfold must_close. cbn. rewrite Hc. tauto.
    + gdecide.
      * rewrite IH. rewrite filter_cons_False; [done|]. unfold must_close. cbn. rewrite Hc. tauto.
      * rewrite IH. rewrite filter_cons_True; [done|]. unfold must_close. cbn. by rewrite Hc.
  - rewrite IH. rewrite filter_cons_True; [done|]. unfold must_close. cbn. by rewrite Hc.
Qed.

Lemma parse_statements_spec l s :
  parse_statements l s = Ret (request_packet <$> (RParse <$> (filter (must_parse s) l).*2)).
Proof.
  induction l as [|[n p] l IH]; [done|]. cbn [parse_statements].
  destruct (s !! n) as [q|] eqn:Hs.
  - rewrite preparedStatementsEqual_spec. cbn [obind]. case_bool_decide as Heq.
    + rewrite IH. rewrite filter_cons_False; [done|]. unfold must_parse. cbn. rewrite Hs. tauto.
    + rewrite IH. rewrite filter_cons_True; [done|]. unfold must_parse. cbn. by rewrite Hs.
  - rewrite IH. rewrite filter_cons_True; [done|]. unfold must_parse. cbn. by rewrite Hs.
Qed.

(** The effect of each group of requests. *)
Lemma fold_close_s v names :
  sportals (foldl effect v (close_s <$> names)) = sportals v /\
  forall n, sps (foldl effect v (close_s <$> names)) !! n = if decide (n ∈ names) then None else sps v !! n.
Proof.
  revert v. induction names as [|m names IH]; intros v; cbn [fmap list_fmap foldl]; [split; [done|]; intros n; by rewrite decide_False by set_solver|].
  destruct (IH (effect v (close_s m))) as [IH1 IH2]. split; [by rewrite IH1|]. intros n. rewrite IH2. cbn.
  destruct (decide (n ∈ names)); [by rewrite decide_True by set_solver|].
  destruct (decide (n = m)) as [->|Hne]; [rewrite lookup_delete_eq, decide_True by set_solver; done|].
  rewrite lookup_delete_ne by done. by rewrite decide_False by set_solver.
Qed.

Lemma fold_close_p v names :
  sps (foldl effect v (close_p <$> names)) = sps v /\
  forall n, sportals (foldl effect v (close_p <$> names)) !! n = if decide (n ∈ names) then None else sportals v !! n.
Proof.
  revert v. induction names as [|m names IH]; intros v; cbn [fmap list_fmap foldl]; [split; [done|]; intros n; by rewrite decide_False by set_solver|].
  destruct (IH (effect v (close_p m))) as [IH1 IH2]. split; [by rewrite IH1|]. intros n. rewrite IH2. cbn.
  destruct (decide (n ∈ names)); [by rewrite decide_True by set_solver|].
  destruct (decide (n = m)) as [->|Hne]; [rewrite lookup_delete_eq, decide_True by set_solver; done|].
  rewrite lookup_delete_ne by done. by rewrite decide_False by set_solver.
Qed.

Lemma fold_parse v (l : list (gostring * Parse.t)) :
  NoDup l.*1 -> (forall n p, (n, p) ∈ l -> Parse.Destination p = n) ->
  sportals (foldl effect v (RParse <$> l.*2)) = sportals v /\
  forall n, sps (foldl effect v (RParse <$> l.*2)) !! n =
    match (list_to_map l : gmap gostring Parse.t) !! n with Some p => Some p | None => sps v !! n end.
Proof.
  revert v. induction l as [|[m q] l IH]; intros v Hnd Hk; cbn [fmap list_fmap foldl snd]; [done|].
  cbn in Hnd. apply NoDup_cons in Hnd as [Hm Hnd].
  destruct (IH (effect v (RParse q)) Hnd) as [IH1 IH2]; [intros n p Hin; apply Hk; by right|].
  split; [by rewrite IH1|]. intros n. rewrite IH2. cbn [list_to_map foldr uncurry fst snd]. rewrite lookup_insert.
  cbn [effect sps sportals]. rewrite (Hk m q) by (by left). rewrite lookup_insert. case_decide as Hd.
  - subst n. rewrite not_elem_of_list_to_map_1 by done. done.
  - done.
Qed.

Lemma fold_bind v (l : list (gostring * Bind.t)) :
  NoDup l.*1 -> (forall n p, (n, p) ∈ l -> Bind.Destination p = n) ->
  sps (foldl effect v (RBind <$> l.*2)) = sps v /\
  forall n, sportals (foldl effect v (RBind <$> l.*2)) !! n =
    match (list_to_map l : gmap gostring Bind.t) !! n with Some p => Some p | None => sportals v !! n end.
Proof.
  revert v. induction l as [|[m q] l IH]; intros v Hnd Hk; cbn [fmap list_fmap foldl snd]; [done|].
  cbn in Hnd. apply NoDup_cons in Hnd as [Hm Hnd].
  destruct (IH (effect v (RBind q)) Hnd) as [IH1 IH2]; [intros n p Hin; apply Hk; by right|].
  split; [by rewrite IH1|]. intros n. rewrite IH2. cbn [list_to_map foldr uncurry fst snd]. rewrite lookup_insert.
  cbn [effect sps sportals]. rewrite (Hk m q) by (by left). rewrite lookup_insert. case_decide as Hd.
  - subst n. rewrite not_elem_of_list_to_map_1 by done. done.
  - done.
Qed.

Lemma iterates_spec {V} (m : gmap gostring V) l :
  iterates m l -> NoDup l.*1 /\ (forall n p, (n, p) ∈ l <-> m !! n = Some p).
Proof.
  intros Hl. split; [unfold iterates in Hl; rewrite Hl; apply NoDup_fst_map_to_list|].
  intros n p. unfold iterates in Hl. rewrite Hl. apply elem_of_map_to_list.
Qed.

Lemma NoDup_fst_filter {V} (P : gostring * V -> Prop) `{forall x, Decision (P x)} (l : list (gostring * V)) :
  NoDup l.*1 -> NoDup (filter P l).*1.
Proof.
  intros Hnd. eapply sublist_NoDup; [exact Hnd|]. apply fmap_sublist, sublist_filter.
Qed.

Section Sync.
Context (c s : State) (sp : list (gostring * Bind.t)) (ss cs : list (gostring * Parse.t))
  (cp : list (gostring * Bind.t)).
Context (Hkc : keyed (preparedStatements c)) (Hkp : keyed_portals (portals c)).
Context (Hsp : iterates (portals s) sp) (Hss : iterates (preparedStatements s) ss)
  (Hcs : iterates (preparedStatements c) cs) (Hcp : iterates (portals c) cp).

Definition sync_requests : list request :=
  (close_p <$> sp.*1) ++ (close_s <$> (filter (must_close (preparedStatements c)) ss).*1) ++
  (RParse <$> (filter (must_parse (preparedStatements s)) cs).*2) ++ (RBind <$> cp.*2).

Lemma SyncMiddleware_spec : SyncMiddleware c s sp ss cs cp = Ret (request_packet <$> sync_requests).
Proof.
  unfold SyncMiddleware. rewrite close_statements_spec, parse_statements_spec. cbn [obind]. f_equal.
  unfold sync_requests, close_portals, bind_portals. rewrite !fmap_app, <- !list_fmap_compose. done.
Qed.

(** The server after the closes. *)
Definition closed_server : Server :=
  foldl effect (mkServer (preparedStatements s) (portals s))
    ((close_p <$> sp.*1) ++ (close_s <$> (filter (must_close (preparedStatements c)) ss).*1)).

Lemma closed_server_portals : sportals closed_server = ∅.
Proof.
  unfold closed_server. rewrite foldl_app.
  destruct (fold_close_s (foldl effect (mkServer (preparedStatements s) (portals s)) (close_p <$> sp.*1))
    (filter (must_close (preparedStatements c)) ss).*1) as [-> _].
  destruct (fold_close_p (mkServer (preparedStatements s) (portals s)) sp.*1) as [_ Hp].
  apply map_eq. intros n. rewrite Hp, lookup_empty. case_decide as Hin; [done|].
  destruct (portals s !! n) as [b|] eqn:Hb; cbn; [|done]. destruct Hin.
  destruct (iterates_spec _ _ Hsp) as [_ Hel]. apply list_elem_of_fmap. exists (n, b). by rewrite Hel.
Qed.

(** What is left matches the client, or is the unnamed statement. *)
Lemma closed_server_statements n :
  sps closed_server !! n =
    match preparedStatements s !! n with
    | Some p => if decide (must_close (preparedStatements c) (n, p)) then None else Some p
    | None => None
    end.
Proof.
  unfold closed_server. rewrite foldl_app.
  destruct (fold_close_s (foldl effect (mkServer (preparedStatements s) (portals s)) (close_p <$> sp.*1))
    (filter (must_close (preparedStatements c)) ss).*1) as [_ ->].
  destruct (fold_close_p (mkServer (preparedStatements s) (portals s)) sp.*1) as [-> _].
  destruct (iterates_spec _ _ Hss) as [_ Hel]. cbn [sps].
  destruct (preparedStatements s !! n) as [p|] eqn:Hp.
  - apply Hel in Hp as Hin. destruct (decide (must_close (preparedStatements c) (n, p))) as [Hm|Hm].
    + rewrite decide_True; [done|]. apply list_elem_of_fmap. exists (n, p).
      by rewrite list_elem_of_filter.
    + rewrite decide_False; [done|]. intros ([n' p'] & Heq & [Hm' Hin']%list_elem_of_filter)%list_elem_of_fmap.
      cbn in Heq. subst n'. apply Hel in Hin'. congruence.
  - by case_decide.
Qed.

(** The statements to parse. *)
Lemma parse_lookup n :
  (list_to_map (filter (must_parse (preparedStatements s)) cs) : gmap gostring Parse.t) !! n =
    match preparedStatements c !! n with
    | Some q => if decide (must_parse (preparedStatements s) (n, q)) then Some q else None
    | None => None
    end.
Proof.
  destruct (iterates_spec _ _ Hcs) as [Hnd Hel].
  pose proof (NoDup_fst_filter (must_parse (preparedStatements s)) cs Hnd) as Hnd'.
  apply option_eq. intros p. rewrite <- elem_of_list_to_map by done. rewrite list_elem_of_filter, Hel.
  destruct (preparedStatements c !! n) as [q|]; [|naive_solver].
  gdecide; split; [naive_solver..|].
  - done.
Qed.
End Sync.

(** The server the requests leave. *)
Lemma sync_correct (c s : State) sp ss cs cp :
  keyed (preparedStatements c) -> keyed_portals (portals c) ->
  iterates (portals s) sp -> iterates (preparedStatements s) ss ->
  iterates (preparedStatements c) cs -> iterates (portals c) cp ->
  let v := foldl effect (mkServer (preparedStatements s) (portals s)) (sync_requests c s sp ss cs cp) in
  (forall n, same_option (sps v !! n) (preparedStatements c !! n)) /\ sportals v = portals c.
Proof.
  intros Hkc Hkp Hsp Hss Hcs Hcp. cbn zeta. unfold sync_requests. rewrite app_assoc, foldl_app. fold (closed_server c s sp ss).
  rewrite foldl_app. set (l := filter (must_parse (preparedStatements s)) cs).
  destruct (iterates_spec _ _ Hcs) as [Hnd Hel], (iterates_spec _ _ Hcp) as [Hndp Help].
  destruct (fold_parse (closed_server c s sp ss) l) as [Hp1 Hp2].
  { by apply NoDup_fst_filter. }
  { intros n p [_ Hin]%list_elem_of_filter. apply Hkc. by apply Hel. }
  destruct (fold_bind (foldl effect (closed_server c s sp ss) (RParse <$> l.*2)) cp Hndp) as [Hb1 Hb2].
  { intros n p Hin. apply Hkp. by apply Help. }
  split.
  - intros n. rewrite Hb1, Hp2. unfold l. rewrite (parse_lookup c s cs Hcs), (closed_server_statements c s sp ss Hss).
    destruct (preparedStatements c !! n) as [q|] eqn:Hc, (preparedStatements s !! n) as [p|] eqn:Hs;
      repeat gdecide; unfold must_parse, must_close in *; cbn [fst snd] in *;
      rewrite ?Hc, ?Hs in *; cbn; try done; try tauto.
    all: destruct (decide (same_statement q p)) as [Hqp|]; [symmetry in Hqp|]; tauto.
  - apply map_eq. intros n. rewrite Hb2, Hp1, (closed_server_portals c s sp ss Hsp), lookup_empty.
    destruct (portals c !! n) as [b|] eqn:Hb.
    + apply Help in Hb as Hin. by rewrite (elem_of_list_to_map_1 cp n b Hndp Hin).
    + destruct ((list_to_map cp : gmap gostring Bind.t) !! n) as [b|] eqn:Hl; [|done].
      apply elem_of_list_to_map_2, Help in Hl. congruence.
Qed.

(** ** The server accepts what Sync sends *)

Lemma accepted_app v a b : accepted v (a ++ b) <-> accepted v a /\ accepted (foldl effect v a) b.
Proof.
  revert v. induction a as [|r a IH]; intros v; cbn; [tauto|]. rewrite IH. tauto.
Qed.

Lemma accepted_closes v k (names : list gostring) : accepted v ((fun n => RClose (mkCloseReq k n)) <$> names).
Proof. revert v. induction names; intros v; cbn; auto. Qed.

Lemma accepted_parses v (l : list (gostring * Parse.t)) :
  NoDup l.*1 ->
  (forall n p, (n, p) ∈ l -> Parse.Destination p = n /\ (n = [] \/ sps v !! n = None)) ->
  accepted v (RParse <$> l.*2).
Proof.
  revert v. induction l as [|[m q] l IH]; intros v Hnd Hl; cbn; [done|].
  apply NoDup_cons in Hnd as [Hm Hnd]. destruct (Hl m q) as [Hd Hf]; [by left|]. rewrite Hd. split; [done|].
  apply IH; [done|]. intros n p Hin. destruct (Hl n p) as [Hdn Hfn]; [by right|]. split; [done|].
  cbn [effect sps]. rewrite lookup_insert_ne; [done|]. intros ->. apply Hm, list_elem_of_fmap. by exists (n, p).
Qed.

Lemma accepted_binds v (l : list (gostring * Bind.t)) :
  NoDup l.*1 ->
  (forall n p, (n, p) ∈ l -> Bind.Destination p = n /\ sportals v !! n = None /\ is_Some (sps v !! Bind.Source p)) ->
  accepted v (RBind <$> l.*2).
Proof.
  revert v. induction l as [|[m q] l IH]; intros v Hnd Hl; cbn; [done|].
  apply NoDup_cons in Hnd as [Hm Hnd]. destruct (Hl m q) as (Hd & Hf & Hs); [by left|]. rewrite Hd. split; [tauto|].
  apply IH; [done|]. intros n p Hin. destruct (Hl n p) as (Hdn & Hfn & Hsn); [by right|]. split_and!; [done| |done].
  cbn [effect sportals]. rewrite lookup_insert_ne; [done|]. intros ->. apply Hm, list_elem_of_fmap. by exists (n, p).
Qed.

Lemma same_option_is_Some a b : same_option a b -> is_Some b -> is_Some a.
Proof. intros H [q ->]. destruct a; [done|destruct H]. Qed.

Lemma sync_accepted (c s : State) sp ss cs cp :
  keyed (preparedStatements c) -> keyed_portals (portals c) ->
  (forall n b, portals c !! n = Some b -> is_Some (preparedStatements c !! Bind.Source b)) ->
  iterates (portals s) sp -> iterates (preparedStatements s) ss ->
  iterates (preparedStatements c) cs -> iterates (portals c) cp ->
  accepted (mkServer (preparedStatements s) (portals s)) (sync_requests c s sp ss cs cp).
Proof.
  intros Hkc Hkp Hsrc Hsp Hss Hcs Hcp.
  destruct (sync_correct c s sp ss cs cp Hkc Hkp Hsp Hss Hcs Hcp) as [Hst _]. revert Hst. unfold sync_requests.
  rewrite !accepted_app, app_assoc, !foldl_app. fold (closed_server c s sp ss).
  destruct (iterates_spec _ _ Hcs) as [Hnd Hel], (iterates_spec _ _ Hcp) as [Hndp Help].
  set (l := filter (must_parse (preparedStatements s)) cs).
  assert (Hin : forall n p, (n, p) ∈ l -> must_parse (preparedStatements s) (n, p) /\ preparedStatements c !! n = Some p).
  { intros n p [Hm Hi]%list_elem_of_filter. by apply Hel in Hi. }
  destruct (fold_parse (closed_server c s sp ss) l) as [Hp1 _]; [by apply NoDup_fst_filter|intros n p [_ ?]%Hin; by apply Hkc|].
  destruct (fold_bind (foldl effect (closed_server c s sp ss) (RParse <$> l.*2)) cp Hndp) as [Hb1 _];
    [intros n p Hi; by apply Hkp, Help|].
  rewrite <- (foldl_app effect (close_p <$> _)). fold (closed_server c s sp ss).
  intros Hst. split_and!.
  - apply (accepted_closes _ CloseVariantPortal).
  - apply (accepted_closes _ CloseVariantPreparedStatement).
  - apply accepted_parses; [by apply NoDup_fst_filter|].
    intros n p [Hm Hc]%Hin. split; [by apply Hkc|]. rewrite (closed_server_statements c s sp ss Hss).
    destruct (preparedStatements s !! n) as [q|] eqn:Hs; [|by right].
    destruct (decide (n = [])) as [|Hn]; [by left|right]. rewrite decide_True; [done|].
    unfold must_parse in Hm. unfold must_close. cbn [fst snd] in *. rewrite Hc. rewrite Hs in Hm.
    split; [|done]. intros Hqp. by symmetry in Hqp.
  - apply accepted_binds; [done|]. intros n p Hi%Help. split_and!; [by apply Hkp| |].
    + rewrite Hp1, (closed_server_portals c s sp ss Hsp). apply lookup_empty.
    + eapply same_option_is_Some; [rewrite <- Hb1; apply (Hst (Bind.Source p))|by eapply Hsrc].
Qed.

(** ** Copying a tracker *)

Lemma copy_ring_spec {A} `{Zero A} n i (other r : Ring A) :
  wf other -> wf r -> (i + n = length (contents other))%nat -> contents r = take i (contents other) ->
  exists r', copy_ring n i other r = Ret r' /\ wf r' /\ contents r' = contents other.
Proof.
  revert i r. induction n as [|n IH]; intros i r Ho Hr Hlen Hc; cbn.
  - exists r. split_and!; [done..|]. rewrite Hc. apply take_ge. lia.
  - rewrite ring_Get_spec by (done || lia). rewrite Nat2Z.id.
    destruct (lookup_lt_is_Some_2 (contents other) i) as [x Hx]; [lia|]. rewrite Hx. cbn [deref obind].
    destruct (PushBack_spec r x Hr) as (r' & -> & Hwf & Hcr). cbn [obind].
    apply IH; [done..|lia|]. rewrite Hcr, Hc. symmetry. by apply take_S_r.
Qed.

Lemma copy_cleared {A} `{Zero A} (other r : Ring A) :
  wf other -> wf r ->
  exists r', copy_ring (Z.to_nat (Ring.Length other)) 0 other (Clear r) = Ret r' /\ wf r' /\ contents r' = contents other.
Proof.
  intros Ho Hr. destruct (Clear_spec r Hr) as [Hw Hc].
  apply copy_ring_spec; [done..| |by rewrite Hc]. rewrite Length_spec by done. lia.
Qed.

(** ** The middlewares of the two kinds of connections (client.go, server.go) *)

Definition rings_wf (T : State) : Prop :=
  wf (pendingPreparedStatements T) /\ wf (pendingPortals T) /\ wf (pendingCloses T).

(** A call of the tracker keeps its rings and the side of the packet. *)
Definition tracked (side : Packet -> bool) (o : outcome result) : Prop :=
  exists r T', o = Ret (r, T') /\ rings_wf T' /\ forall q, r = inr q -> of_side side q.

Lemma tracked_err side e T : rings_wf T -> tracked side (Ret (inl e, T)).
Proof. intros HT. by exists (inl e), T. Qed.
Lemma tracked_ok side p T : rings_wf T -> of_side side p -> tracked side (Ret (inr p, T)).
Proof. intros HT Hp. exists (inr p), T. split_and!; [done..|]. by intros ? [= <-]. Qed.
#[local] Hint Resolve tracked_err tracked_ok : pggat.

Ltac other_type Hq := by (exfalso; destruct (Hq _ eq_refl) as [? ?]; done).

Lemma C2S_tracked T p : rings_wf T -> front p -> tracked frontend (C2S T p).
Proof.
  intros HT Hp. pose proof HT as (H1 & H2 & H3). destruct p as [ty co]. unfold C2S. cbn [ptype].
  repeat gdecide; subst; auto with pggat.
  - unfold Close. cbn [concrete]. destruct co as [e|q]; [auto with pggat|]. destruct q; try other_type Hp.
    destruct (PushBack_spec (pendingCloses T) (mkCloseReq CloseVariantPreparedStatement (Close.Name p)) H3) as (r & -> & ? & _).
    destruct (PushBack_spec (pendingCloses T) (mkCloseReq CloseVariantPortal (Close.Name p)) H3) as (r' & -> & ? & _).
    repeat gdecide; cbn [obind]; auto with pggat;
      (apply tracked_ok; [split_and!; done|by apply of_packet_side]).
  - unfold Parse. cbn [concrete]. destruct co as [e|q]; [auto with pggat|]. destruct q; try other_type Hp.
    destruct (PushBack_spec (pendingPreparedStatements T) p H1) as (r & -> & ? & _). cbn [obind].
    apply tracked_ok; [split_and!; done|by apply of_packet_side].
  - unfold Bind. cbn [concrete]. destruct co as [e|q]; [auto with pggat|]. destruct q; try other_type Hp.
    destruct (PushBack_spec (pendingPortals T) p H2) as (r & -> & ? & _). cbn [obind].
    apply tracked_ok; [split_and!; done|by apply of_packet_side].
Qed.

Lemma CloseComplete_wf T : rings_wf T -> exists T', CloseComplete T = Ret T' /\ rings_wf T'.
Proof.
  intros (H1 & H2 & H3). unfold CloseComplete. destruct (PopFront_spec _ H3) as (r & -> & ? & _). cbn [obind fst snd].
  destruct (hd_error _) as [[[|] n]|]; cbn; eexists; split; (done || split_and!; done).
Qed.
Lemma ParseComplete_wf T : rings_wf T -> exists T', ParseComplete T = Ret T' /\ rings_wf T'.
Proof.
  intros (H1 & H2 & H3). unfold ParseComplete. destruct (PopFront_spec _ H1) as (r & -> & ? & _). cbn [obind fst snd].
  destruct (hd_error _); cbn; eexists; split; (done || split_and!; done).
Qed.
Lemma BindComplete_wf T : rings_wf T -> exists T', BindComplete T = Ret T' /\ rings_wf T'.
Proof.
  intros (H1 & H2 & H3). unfold BindComplete. destruct (PopFront_spec _ H2) as (r & -> & ? & _). cbn [obind fst snd].
  destruct (hd_error _); cbn; eexists; split; (done || split_and!; done).
Qed.

Lemma S2C_tracked T p : rings_wf T -> back p -> tracked backend (S2C T p).
Proof.
  intros HT Hp. pose proof HT as (H1 & H2 & H3). destruct p as [ty co]. unfold S2C. cbn [ptype].
  destruct (Clear_spec _ H1), (Clear_spec _ H2), (Clear_spec _ H3).
  repeat gdecide; subst; auto with pggat.
  - destruct (CloseComplete_wf T HT) as (T' & -> & ?). cbn [obind]. auto with pggat.
  - destruct (ParseComplete_wf T HT) as (T' & -> & ?). cbn [obind]. auto with pggat.
  - destruct (BindComplete_wf T HT) as (T' & -> & ?). cbn [obind]. auto with pggat.
  - unfold CommandComplete. cbn [concrete]. destruct co as [e|q]; [auto with pggat|]. destruct q; try other_type Hp.
    apply tracked_ok; [|by apply of_packet_side]. gdecide; [split_and!; done|done].
  - unfold ReadyForQuery. cbn [concrete]. destruct co as [e|q]; [auto with pggat|]. destruct q; try other_type Hp.
    apply tracked_ok; [split_and!; done|by apply of_packet_side].
Qed.

Module EqpMiddleware.
Record Client := mkClient { cstate : State }.
Record Server := mkServer { sstate : State }.

Definition NewClient : Client := mkClient new_State.
Definition NewServer : Server := mkServer new_State.

Definition pass {A B} (f : A -> B) (o : outcome ((error + fpacket) * A)) : outcome ((error + option fpacket) * B) :=
  ofmap (fun r => (match r.1 with inl e => inl e | inr p => inr (Some p) end, f r.2)) o.

#[global] Instance client_mw : MiddlewareOps Client := {|
  PreRead _ T := Ret (inr None, T);
  MReadPacket packet T := pass mkClient (C2S (cstate T) packet);
  MWritePacket packet T := pass mkClient (S2C (cstate T) packet);
  PostWrite T := Ret (inr None, T)
|}.

#[global] Instance server_mw : MiddlewareOps Server := {|
  PreRead _ T := Ret (inr None, T);
  MReadPacket packet T := pass mkServer (S2C (sstate T) packet);
  MWritePacket packet T := pass mkServer (C2S (sstate T) packet);
  PostWrite T := Ret (inr None, T)
|}.

Lemma pass_tracked {B} (f : State -> B) side (o : outcome result) :
  tracked side o ->
  exists r T', pass f o = Ret (r, f T') /\ rings_wf T' /\ passes (of_side side) r.
Proof.
  intros (r & T' & -> & HT & Hr). cbn. do 2 eexists. split; [done|]. split; [done|].
  destruct r as [e|q]; [done|]. intros ? [= <-]. by apply Hr.
Qed.

#[global] Program Instance client_laws : MiddlewareLaws Client front back := {|
  mw_good T := rings_wf (cstate T); pending _ := 0; posts _ := 0
|}.
Next Obligation. intros typed m Hm. by do 2 eexists. Qed.
Next Obligation.
  intros p m Hm Hp. destruct (pass_tracked mkClient frontend _ (C2S_tracked _ p Hm Hp)) as (r & T & ? & ? & ?).
  by exists r, (mkClient T).
Qed.
Next Obligation.
  intros p m Hm Hp. destruct (pass_tracked mkClient backend _ (S2C_tracked _ p Hm Hp)) as (r & T & ? & ? & ?).
  by exists r, (mkClient T).
Qed.
Next Obligation. intros m Hm. by do 2 eexists. Qed.

#[global] Program Instance server_laws : MiddlewareLaws Server back front := {|
  mw_good T := rings_wf (sstate T); pending _ := 0; posts _ := 0
|}.
Next Obligation. intros typed m Hm. by do 2 eexists. Qed.
Next Obligation.
  intros p m Hm Hp. destruct (pass_tracked mkServer backend _ (S2C_tracked _ p Hm Hp)) as (r & T & ? & ? & ?).
  by exists r, (mkServer T).
Qed.
Next Obligation.
  intros p m Hm Hp. destruct (pass_tracked mkServer frontend _ (C2S_tracked _ p Hm Hp)) as (r & T & ? & ? & ?).
  by exists r, (mkServer T).
Qed.
Next Obligation. intros m Hm. by do 2 eexists. Qed.
End EqpMiddleware.

(** ** Theorems *)
Module EqpTheorems.


(** Sync brings a server to the client's state: whatever the history of
    the two connections and in whatever order the maps are visited, the
    requests SyncMiddleware sends leave the server with a statement for exactly
    the client's names, each with the client's query and parameter types, and
    with exactly the client's portals. *)
Theorem eqp_sync_correct (c s : Session) sp ss cs cp :
  reachable session_init session_step c -> reachable session_init session_step s ->
  iterates (portals (tracker s)) sp -> iterates (preparedStatements (tracker s)) ss ->
  iterates (preparedStatements (tracker c)) cs -> iterates (portals (tracker c)) cp ->
  exists reqs, SyncMiddleware (tracker c) (tracker s) sp ss cs cp = Ret (request_packet <$> reqs) /\
    let v := foldl effect (server s) reqs in
    (forall n, same_option (sps v !! n) (sps (server c) !! n)) /\ sportals v = sportals (server c).
Proof.
  intros [Hps Hpo ? ? ? ? ? ? Hk Hkp]%session_EInv [Hps' Hpo' ? ? ? ? ? ? ? ?]%session_EInv Hsp Hss Hcs Hcp.
  eexists. split; [apply SyncMiddleware_spec|].
  assert (server s = mkServer (preparedStatements (tracker s)) (portals (tracker s))) as ->
    by (rewrite Hps', Hpo'; by destruct (server s)).
  rewrite <- Hps, <- Hpo. apply sync_correct; try done; [by rewrite Hps|by rewrite Hpo].
Qed.

(** The server accepts every request of a Sync: no named statement or
    portal is defined while its name is taken, and every portal is bound after
    its statement, provided the client's own portals have their statements. *)
Theorem eqp_sync_accepted (c s : Session) sp ss cs cp :
  reachable session_init session_step c -> reachable session_init session_step s ->
  (forall n b, sportals (server c) !! n = Some b -> is_Some (sps (server c) !! Bind.Source b)) ->
  iterates (portals (tracker s)) sp -> iterates (preparedStatements (tracker s)) ss ->
  iterates (preparedStatements (tracker c)) cs -> iterates (portals (tracker c)) cp ->
  exists reqs, SyncMiddleware (tracker c) (tracker s) sp ss cs cp = Ret (request_packet <$> reqs) /\
    accepted (server s) reqs.
Proof.
  intros [Hps Hpo ? ? ? ? ? ? Hk Hkp]%session_EInv [Hps' Hpo' ? ? ? ? ? ? ? ?]%session_EInv Hsrc Hsp Hss Hcs Hcp.
  eexists. split; [apply SyncMiddleware_spec|].
  assert (server s = mkServer (preparedStatements (tracker s)) (portals (tracker s))) as ->
    by (rewrite Hps', Hpo'; by destruct (server s)).
  apply sync_accepted; try done; [by rewrite Hps|by rewrite Hpo|by rewrite Hps, Hpo].
Qed.

(** A tracker copied with Set follows the same session: it replaces the
    tracker of any session by one that is exact for the other session's server
    and requests in flight. *)
Theorem eqp_set_correct (mine other : Session) :
  reachable session_init session_step mine -> reachable session_init session_step other ->
  exists T, Set_ (tracker mine) (tracker other) = Ret T /\ EInv (mkSession T (inflight other) (server other)).
Proof.
  intros [_ _ Hw1 Hw2 Hw3 _ _ _ _ _]%session_EInv [Hps Hpo Ho1 Ho2 Ho3 Hp Hb Hc Hk Hkp]%session_EInv.
  unfold Set_.
  destruct (copy_cleared _ _ Ho1 Hw1) as (p & -> & ? & Ep), (copy_cleared _ _ Ho2 Hw2) as (b & -> & ? & Eb),
    (copy_cleared _ _ Ho3 Hw3) as (r & -> & ? & Er). cbn [obind]. eexists. split; [done|].
  split; cbn; try done; [by rewrite Ep|by rewrite Eb|by rewrite Er].
Qed.

(** *** Two connections, as a client and a server of a pool *)

Definition st1 : Parse.t := Parse.mk [x61] [x51] [23%Z].
Definition st1' : Parse.t := Parse.mk [x61] [x52] [].
Definition st2 : Parse.t := Parse.mk [] [x53] [].
Definition po1 : Bind.t := Bind.mk [x70] [x61] [] [] [].

Definition run_all (s : Session) (es : list event) : outcome (option Session) :=
  foldl (fun r e => let! o := r in match o with Some s => run_event s e | None => Ret None end) (Ret (Some s)) es.

Lemma run_all_reachable es s :
  run_all (mkSession new_State [] (mkServer ∅ ∅)) es = Ret (Some s) -> reachable session_init session_step s.
Proof.
  revert s. induction es as [|e es IH] using rev_ind; intros s; unfold run_all.
  - intros [= <-]. by apply reachable_init.
  - rewrite foldl_snoc. fold (run_all (mkSession new_State [] (mkServer ∅ ∅)) es).
    destruct (run_all _ es) as [[s'|]| |]; cbn; intros He; try done.
    eapply reachable_step; [by apply IH|by exists e].
Qed.

(** The client has prepared "a" and bound portal "p" to it; the server still
    has another statement "a" and an unnamed one. *)
Definition client_events : list event :=
  [Send (RParse st1); Send (RBind po1); Complete; Complete; Ready x54; Send (RClose (mkCloseReq CloseVariantPortal [x7a]))].
Definition server_events : list event :=
  [Send (RParse st1'); Complete; Send (RParse st2); Complete; Send (RParse st1); Ready x49].

Definition state_of (es : list event) : Session :=
  match run_all (mkSession new_State [] (mkServer ∅ ∅)) es with
  | Ret (Some s) => s
  | _ => mkSession new_State [] (mkServer ∅ ∅)
  end.

Definition cl : Session := Eval vm_compute in state_of client_events.
Definition sv : Session := Eval vm_compute in state_of server_events.

Lemma cl_reachable : reachable session_init session_step cl.
Proof. apply (run_all_reachable client_events). vm_compute. reflexivity. Qed.
Lemma sv_reachable : reachable session_init session_step sv.
Proof. apply (run_all_reachable server_events). vm_compute. reflexivity. Qed.


Lemma eqp_sync_correct_witness :
  exists reqs, SyncMiddleware (tracker cl) (tracker sv) [] (map_to_list (preparedStatements (tracker sv)))
      [([x61], st1)] [([x70], po1)] = Ret (request_packet <$> reqs) /\
    let v := foldl effect (server sv) reqs in
    (forall n, same_option (sps v !! n) (sps (server cl) !! n)) /\ sportals v = sportals (server cl).
Proof. apply (eqp_sync_correct cl sv); [exact cl_reachable|exact sv_reachable|unfold iterates; reflexivity..]. Defined.

Lemma eqp_sync_accepted_witness :
  exists reqs, SyncMiddleware (tracker cl) (tracker sv) [] (map_to_list (preparedStatements (tracker sv)))
      [([x61], st1)] [([x70], po1)] = Ret (request_packet <$> reqs) /\ accepted (server sv) reqs.
Proof.
  apply (eqp_sync_accepted cl sv); [exact cl_reachable|exact sv_reachable| |unfold iterates; reflexivity..].
  intros n b Hb. change (sportals (server cl)) with ({[ [x70] := po1 ]} : gmap gostring Bind.t) in Hb.
  apply lookup_singleton_Some in Hb as [_ <-]. by exists st1.
Defined.

Lemma eqp_set_correct_witness :
  exists T, Set_ (tracker sv) (tracker cl) = Ret T /\ EInv (mkSession T (inflight cl) (server cl)).
Proof. apply eqp_set_correct; [exact sv_reachable|exact cl_reachable]. Defined.
End EqpTheorems.
