(* ===== verification/Perror.v ===== *)
(** * Perror: lib/perror

    The errors of the protocol ([PgError] of Wire): how an ErrorResponse is made
    of one and one of an ErrorResponse.  The text of an error that is no
    perror.Error (err.Error()) is a parameter. *)

From Stdlib Require Import Init.Byte Strings.Byte Strings.String.
From S2P Require Import Prelude.
From S2P Require Import Wire.
From S2P Require Import Packets.

Definition FATAL : gostring := list_byte_of_string "FATAL".
Definition InternalError : gostring := list_byte_of_string "XX000".
Definition ProtocolViolation : gostring := list_byte_of_string "08P01".
Definition FeatureNotSupported : gostring := list_byte_of_string "0A000".
Definition InvalidAuthorizationSpecification : gostring := list_byte_of_string "28000".
Definition ReadOnlySqlTransaction : gostring := list_byte_of_string "25006".
Definition InvalidPassword : gostring := list_byte_of_string "28P01".

Definition New (severity code message : gostring) (extra : list (byte * gostring)) : PgError :=
  mkPgError severity code message extra.

(** [perror.New(...)] as an error. *)
Definition fatal (code : gostring) (message : string) : error :=
  ErrPg (New FATAL code (list_byte_of_string message) []).

Definition Wrap (text : error -> gostring) (e : error) : PgError :=
  match e with
  | ErrPg p => p
  | e => New FATAL InternalError (text e) []
  end.

(** The loop of FromPacket. *)
Definition from_field (e : PgError) (f : byte * gostring) : PgError :=
  if decide (f.1 = x53) then mkPgError f.2 (SqlState e) (Message e) (Extra e)
  else if decide (f.1 = x43) then mkPgError (Severity e) f.2 (Message e) (Extra e)
  else if decide (f.1 = x4d) then mkPgError (Severity e) (SqlState e) f.2 (Extra e)
  else mkPgError (Severity e) (SqlState e) (Message e) (Extra e ++ [f]).

Definition FromPacket (packet : MarkiplierResponse.t) : PgError :=
  foldl from_field (mkPgError [] [] [] []) packet.

Definition ToPacket (e : PgError) : MarkiplierResponse.t :=
  [(x53, Severity e); (x43, SqlState e); (x4d, Message e)] ++ Extra e.

(** The severity, the code and the message have fields of their own. *)
Definition extra_ok (l : list (byte * gostring)) : Prop :=
  Forall (fun f => f.1 <> x53 /\ f.1 <> x43 /\ f.1 <> x4d) l.

Lemma from_extra e l : extra_ok l ->
  foldl from_field e l = mkPgError (Severity e) (SqlState e) (Message e) (Extra e ++ l).
Proof.
  intros Hl. revert e. induction Hl as [|f l (H1 & H2 & H3) _ IH]; intros e; simpl.
  - rewrite app_nil_r. by destruct e.
  - rewrite IH. unfold from_field. rewrite !decide_False by done. simpl. by rewrite <- app_assoc.
Qed.

Lemma from_extra_ok e l : extra_ok (Extra e) -> extra_ok (Extra (foldl from_field e l)).
Proof.
  revert e. induction l as [|f l IH]; intros e He; simpl; [done|]. apply IH. unfold from_field.
  repeat gdecide; simpl; try done. apply Forall_app. split; [done|]. by repeat constructor.
Qed.

Module PerrorTheorems.
(** An error survives being sent: what a peer makes of the ErrorResponse of an
    error is the error, and what is made of any ErrorResponse, whatever the order
    of its fields, is an error that survives so. *)
Theorem perror_roundtrip (e : PgError) (packet : MarkiplierResponse.t) :
  (extra_ok (Extra e) -> FromPacket (ToPacket e) = e) /\
  FromPacket (ToPacket (FromPacket packet)) = FromPacket packet.
Proof.
  assert (HR : forall e, extra_ok (Extra e) -> FromPacket (ToPacket e) = e).
  { intros e' He. unfold FromPacket, ToPacket. rewrite foldl_app. simpl.
    rewrite from_extra by done. by destruct e'. }
  split; [apply HR|]. apply HR. apply from_extra_ok. constructor.
Qed.
End PerrorTheorems.
