(* ===== verification/Codes.v ===== *)
(** * Codes: lib/perror/code.go, severity.go, extra.go

    The tables of the SQLSTATE codes, the severities and the additional fields of
    an error, by the names of the constants; and that an error made of them is one
    that the packets of the protocol can carry. *)

From Stdlib Require Import Init.Byte Strings.Byte Strings.String.
From S2P Require Import Prelude.
From S2P Require Import Wire.
From S2P Require Import Packets.
From S2P Require Import Perror.

(** ** code.go, in two parts *)
Definition codes_1 : list (string * string) :=
  [("SuccessfulCompletion", "00000"); ("Warning", "01000"); ("DynamicResultSetsReturned", "0100C"); ("ImplicitZeroBitPadding", "01008");
   ("NullValueEliminatedInSetFunction", "01003"); ("PrivilegeNotGranted", "01007"); ("PrivilegeNotRevoked", "01006");
   ("StringDataRightTruncationWarning", "01004"); ("DeprecatedFeature", "01P01"); ("NoData", "02000");
   ("NoAdditionalDynamicResultSetsReturned", "02001"); ("SqlStatementNotYetComplete", "03000"); ("ConnectionException", "08000");
   ("ConnectionDoesNotExist", "08003"); ("ConnectionFailure", "08006"); ("SqlclientUnableToEstablishSqlconnection", "08001");
   ("SqlserverRejectedEstablishmentOfSqlconnection", "08004"); ("TransactionResolutionUnknown", "08007"); ("ProtocolViolation", "08P01");
   ("TriggeredActionException", "09000"); ("FeatureNotSupported", "0A000"); ("InvalidTransactionInitiation", "0B000"); ("LocatorException", "0F000");
   ("InvalidLocatorSpecification", "0F001"); ("InvalidGrantor", "0L000"); ("InvalidGrantOperation", "0LP01"); ("InvalidRoleSpecification", "0P000");
   ("DiagnosticsException", "0Z000"); ("StackedDiagnosticsAccessedWithoutActiveHandler", "0Z002"); ("CaseNotFound", "20000");
   ("CardinalityViolation", "21000"); ("DataException", "22000"); ("ArraySubscriptError", "2202E"); ("CharacterNotInRepertoire", "22021");
   ("DatetimeFieldOverflow", "22008"); ("DivisionByZero", "22012"); ("ErrorInAssignment", "22005"); ("EscapeCharacterConflict", "2200B");
   ("IndicatorOverflow", "22022"); ("IntervalFieldOverflow", "22015"); ("InvalidArgumentForLogarithm", "2201E");
   ("InvalidArgumentForNtileFunction", "22014"); ("InvalidArgumentForNthValueFunction", "22016"); ("InvalidArgumentForPowerFunction", "2201F");
   ("InvalidArgumentForWidthBucketFunction", "2201G"); ("InvalidCharacterValueForCast", "22018"); ("InvalidDatetimeFormat", "22007");
   ("InvalidEscapeCharacter", "22019"); ("InvalidEscapeOctet", "2200D"); ("InvalidEscapeSequence", "22025");
   ("NonstandardUseOfEscapeCharacter", "22P06"); ("InvalidIndicatorParameterValue", "22010"); ("InvalidParameterValue", "22023");
   ("InvalidPrecedingOrFollowingSize", "22013"); ("InvalidRegularExpression", "2201B"); ("InvalidRowCountInLimitClause", "2201W");
   ("InvalidRowCountInResultOffsetClause", "2201X"); ("InvalidTablesampleArgument", "2202H"); ("InvalidTablesampleRepeat", "2202G");
   ("InvalidTimeZoneDisplacementValue", "22009"); ("InvalidUseOfEscapeCharacter", "2200C"); ("MostSpecificTypeMismatch", "2200G");
   ("NullValueNotAllowedDataException", "22004"); ("NullValueNoIndicatorParameter", "22002"); ("NumericValueOutOfRange", "22003");
   ("SequenceGeneratorLimitExceeded", "2200H"); ("StringDataLengthMismatch", "22026"); ("StringDataRightTruncationDataException", "22001");
   ("SubstringError", "22011"); ("TrimError", "22027"); ("UnterminatedCString", "22024"); ("ZeroLengthCharacterString", "2200F");
   ("FloatingPointException", "22P01"); ("InvalidTextRepresentation", "22P02"); ("InvalidBinaryRepresentation", "22P03");
   ("BadCopyFileFormat", "22P04"); ("UntranslatableCharacter", "22P05"); ("NotAnXmlDocument", "2200L"); ("InvalidXmlDocument", "2200M");
   ("InvalidXmlContent", "2200N"); ("InvalidXmlComment", "2200S"); ("InvalidXmlProcessingInstruction", "2200T");
   ("DuplicateJsonObjectKeyValue", "22030"); ("InvalidArgumentForSqlJsonDatetimeFunction", "22031"); ("InvalidJsonText", "22032");
   ("InvalidSqlJsonSubscript", "22033"); ("MoreThanOneSqlJsonItem", "22034"); ("NoSqlJsonItem", "22035"); ("NonNumericSqlJsonItem", "22036");
   ("NonUniqueKeysInAJsonObject", "22037"); ("SingletonSqlJsonItemRequired", "22038"); ("SqlJsonArrayNotFound", "22039");
   ("SqlJsonMemberNotFound", "2203A"); ("SqlJsonNumberNotFound", "2203B"); ("SqlJsonObjectNotFound", "2203C"); ("TooManyJsonArrayElements", "2203D");
   ("TooManyJsonObjectMembers", "2203E"); ("SqlJsonScalarRequired", "2203F"); ("SqlJsonItemCannotBeCastToTargetType", "2203G");
   ("IntegrityConstraintViolation", "23000"); ("RestrictViolation", "23001"); ("NotNullViolation", "23502"); ("ForeignKeyViolation", "23503");
   ("UniqueViolation", "23505"); ("CheckViolation", "23514"); ("ExclusionViolation", "23P01"); ("InvalidCursorState", "24000");
   ("InvalidTransactionState", "25000"); ("ActiveSqlTransaction", "25001"); ("BranchTransactionAlreadyActive", "25002");
   ("HeldCursorRequiresSameIsolationLevel", "25008"); ("InappropriateAccessModeForBranchTransaction", "25003");
   ("InappropriateIsolationLevelForBranchTransaction", "25004"); ("NoActiveSqlTransactionForBranchTransaction", "25005");
   ("ReadOnlySqlTransaction", "25006"); ("SchemaAndDataStatementMixingNotSupported", "25007"); ("NoActiveSqlTransaction", "25P01");
   ("InFailedSqlTransaction", "25P02"); ("IdleInTransactionSessionTimeout", "25P03"); ("InvalidSqlStatementName", "26000");
   ("TriggeredDataChangeViolation", "27000"); ("InvalidAuthorizationSpecification", "28000"); ("InvalidPassword", "28P01");
   ("DependentPrivilegeDescriptorsStillExist", "2B000"); ("DependentObjectsStillExist", "2BP01"); ("InvalidTransactionTermination", "2D000");
   ("SqlRoutineException", "2F000"); ("FunctionExecutedNoReturnStatement", "2F005"); ("ModifyingSqlDataNotPermittedSQLRoutineException", "2F002");
   ("ProhibitedSqlStatementAttemptedSQLRoutineException", "2F003")]%string.
Definition codes_2 : list (string * string) :=
  [("ReadingSqlDataNotPermittedSQLRoutineException", "2F004"); ("InvalidCursorName", "34000"); ("ExternalRoutineException", "38000");
   ("ContainingSqlNotPermitted", "38001"); ("ModifyingSqlDataNotPermittedExternalRoutineException", "38002");
   ("ProhibitedSqlStatementAttemptedExternalRoutineException", "38003"); ("ReadingSqlDataNotPermittedExternalRoutineException", "38004");
   ("ExternalRoutineInvocationException", "39000"); ("InvalidSqlstateReturned", "39001");
   ("NullValueNotAllowedExternalRoutineInvocationException", "39004"); ("TriggerProtocolViolated", "39P01"); ("SrfProtocolViolated", "39P02");
   ("EventTriggerProtocolViolated", "39P03"); ("SavepointException", "3B000"); ("InvalidSavepointSpecification", "3B001");
   ("InvalidCatalogName", "3D000"); ("InvalidSchemaName", "3F000"); ("TransactionRollback", "40000");
   ("TransactionIntegrityConstraintViolation", "40002"); ("SerializationFailure", "40001"); ("StatementCompletionUnknown", "40003");
   ("DeadlockDetected", "40P01"); ("SyntaxErrorOrAccessRuleViolation", "42000"); ("SyntaxError", "42601"); ("InsufficientPrivilege", "42501");
   ("CannotCoerce", "42846"); ("GroupingError", "42803"); ("WindowingError", "42P20"); ("InvalidRecursion", "42P19"); ("InvalidForeignKey", "42830");
   ("InvalidName", "42602"); ("NameTooLong", "42622"); ("ReservedName", "42939"); ("DatatypeMismatch", "42804"); ("IndeterminateDatatype", "42P18");
   ("CollationMismatch", "42P21"); ("IndeterminateCollation", "42P22"); ("WrongObjectType", "42809"); ("GeneratedAlways", "428C9");
   ("UndefinedColumn", "42703"); ("UndefinedFunction", "42883"); ("UndefinedTable", "42P01"); ("UndefinedParameter", "42P02");
   ("UndefinedObject", "42704"); ("DuplicateColumn", "42701"); ("DuplicateCursor", "42P03"); ("DuplicateDatabase", "42P04");
   ("DuplicateFunction", "42723"); ("DuplicatePreparedStatement", "42P05"); ("DuplicateSchema", "42P06"); ("DuplicateTable", "42P07");
   ("DuplicateAlias", "42712"); ("DuplicateObject", "42710"); ("AmbiguousColumn", "42702"); ("AmbiguousFunction", "42725");
   ("AmbiguousParameter", "42P08"); ("AmbiguousAlias", "42P09"); ("InvalidColumnReference", "42P10"); ("InvalidColumnDefinition", "42611");
   ("InvalidCursorDefinition", "42P11"); ("InvalidDatabaseDefinition", "42P12"); ("InvalidFunctionDefinition", "42P13");
   ("InvalidPreparedStatementDefinition", "42P14"); ("InvalidSchemaDefinition", "42P15"); ("InvalidTableDefinition", "42P16");
   ("InvalidObjectDefinition", "42P17"); ("WithCheckOptionViolation", "44000"); ("InsufficientResources", "53000"); ("DiskFull", "53100");
   ("OutOfMemory", "53200"); ("TooManyConnections", "53300"); ("ConfigurationLimitExceeded", "53400"); ("ProgramLimitExceeded", "54000");
   ("StatementTooComplex", "54001"); ("TooManyColumns", "54011"); ("TooManyArguments", "54023"); ("ObjectNotInPrerequisiteState", "55000");
   ("ObjectInUse", "55006"); ("CantChangeRuntimeParam", "55P02"); ("LockNotAvailable", "55P03"); ("UnsafeNewEnumValueUsage", "55P04");
   ("OperatorIntervention", "57000"); ("QueryCanceled", "57014"); ("AdminShutdown", "57P01"); ("CrashShutdown", "57P02"); ("CannotConnectNow", "57P03");
   ("DatabaseDropped", "57P04"); ("IdleSessionTimeout", "57P05"); ("SystemError", "58000"); ("IoError", "58030"); ("UndefinedFile", "58P01");
   ("DuplicateFile", "58P02"); ("SnapshotTooOld", "72000"); ("ConfigFileError", "F0000"); ("LockFileExists", "F0001"); ("FdwError", "HV000");
   ("FdwColumnNameNotFound", "HV005"); ("FdwDynamicParameterValueNeeded", "HV002"); ("FdwFunctionSequenceError", "HV010");
   ("FdwInconsistentDescriptorInformation", "HV021"); ("FdwInvalidAttributeValue", "HV024"); ("FdwInvalidColumnName", "HV007");
   ("FdwInvalidColumnNumber", "HV008"); ("FdwInvalidDataType", "HV004"); ("FdwInvalidDataTypeDescriptors", "HV006");
   ("FdwInvalidDescriptorFieldIdentifier", "HV091"); ("FdwInvalidHandle", "HV00B"); ("FdwInvalidOptionIndex", "HV00C");
   ("FdwInvalidOptionName", "HV00D"); ("FdwInvalidStringLengthOrBufferLength", "HV090"); ("FdwInvalidStringFormat", "HV00A");
   ("FdwInvalidUseOfNullPointer", "HV009"); ("FdwTooManyHandles", "HV014"); ("FdwOutOfMemory", "HV001"); ("FdwNoSchemas", "HV00P");
   ("FdwOptionNameNotFound", "HV00J"); ("FdwReplyHandle", "HV00K"); ("FdwSchemaNotFound", "HV00Q"); ("FdwTableNotFound", "HV00R");
   ("FdwUnableToCreateExecution", "HV00L"); ("FdwUnableToCreateReply", "HV00M"); ("FdwUnableToEstablishConnection", "HV00N"); ("PlpgsqlError", "P0000");
   ("RaiseException", "P0001"); ("NoDataFound", "P0002"); ("TooManyRows", "P0003"); ("AssertFailure", "P0004"); ("InternalError", "XX000");
   ("DataCorrupted", "XX001"); ("IndexCorrupted", "XX002")]%string.
Definition codes : list (string * string) := (codes_1 ++ codes_2)%list.

Definition severities : list (string * string) :=
  [("ERROR", "ERROR"); ("FATAL", "FATAL"); ("PANIC", "PANIC"); ("WARNING", "WARNING"); ("NOTICE", "NOTICE"); ("DEBUG", "DEBUG");
   ("INFO", "INFO"); ("LOG", "LOG")]%string.

Definition extras : list (string * byte) :=
  [("Detail"%string, x44); ("Hint"%string, x48); ("Position"%string, x50); ("InternalPosition"%string, x70); ("InternalQuery"%string, x71); ("Where"%string, x57); ("SchemaName"%string, x73);
   ("TableName"%string, x74); ("ColumnName"%string, x63); ("DataTypeName"%string, x64); ("ConstraintName"%string, x6e); ("File"%string, x46); ("Line"%string, x4c); ("Routine"%string, x52)].

Definition value (t : list (string * string)) (name : string) : option gostring :=
  (fun p => list_byte_of_string p.2) <$> find (fun p => String.eqb p.1 name) t.

(** An SQLSTATE: five digits and capital letters. *)
Definition sqlstate_byte (b : byte) : bool :=
  let n := Z.of_N (Byte.to_N b) in ((48 <=? n) && (n <=? 57) || (65 <=? n) && (n <=? 90))%Z.
Definition sqlstate (c : gostring) : bool := (length c =? 5)%nat && forallb sqlstate_byte c.

Lemma codes_sqlstate : Forall (fun p => sqlstate (list_byte_of_string p.2) = true) codes.
Proof. apply Forall_forall. intros p Hp. pose proof (proj1 (forallb_forall (fun p => sqlstate (list_byte_of_string p.2)) codes) ltac:(vm_compute; reflexivity)) as H. apply H. by apply list_elem_of_In. Qed.

Lemma sqlstate_no_nul c : sqlstate c = true -> x00 ∉ c.
Proof.
  unfold sqlstate. intros [_ Hc]%andb_true_iff Hx. apply list_elem_of_In in Hx.
  by pose proof (proj1 (forallb_forall _ _) Hc _ Hx).
Qed.

Lemma severities_no_nul : Forall (fun p => x00 ∉ list_byte_of_string p.2) severities.
Proof. repeat constructor; vm_compute; set_solver. Qed.

(** No two constants have the same code, or the same name; the names that the
    model of lib/perror has are those of the table. *)
Lemma codes_distinct : NoDup (fst <$> codes) /\ NoDup (snd <$> codes).
Proof. split; (apply (bool_decide_unpack _); vm_compute; exact I). Qed.

Lemma codes_used :
  value codes "InternalError" = Some InternalError /\ value codes "ProtocolViolation" = Some ProtocolViolation /\
  value codes "FeatureNotSupported" = Some FeatureNotSupported /\
  value codes "InvalidAuthorizationSpecification" = Some InvalidAuthorizationSpecification /\
  value codes "ReadOnlySqlTransaction" = Some ReadOnlySqlTransaction /\ value codes "InvalidPassword" = Some InvalidPassword /\
  value severities "FATAL" = Some FATAL.
Proof. repeat split. Qed.

(** The types of the additional fields are none of the severity's, the code's and
    the message's, and not the byte that ends a packet. *)
Lemma extras_apart : Forall (fun p => p.2 <> x53 /\ p.2 <> x43 /\ p.2 <> x4d /\ p.2 <> x00) extras.
Proof. by repeat constructor. Qed.

(** An error with a severity, a code and additional fields of the tables, and texts
    without a zero byte, is an ErrorResponse that can be sent, from which the other
    side makes the same error. *)
Theorem table_error_sent (severity code : string * string) (message : gostring) (fields : list (string * byte * gostring)) :
  severity ∈ severities -> code ∈ codes -> x00 ∉ message ->
  Forall (fun f => f.1 ∈ extras /\ x00 ∉ f.2) fields ->
  let e := New (list_byte_of_string severity.2) (list_byte_of_string code.2) message ((fun f => (f.1.2, f.2)) <$> fields) in
  MarkiplierResponse.valid (ToPacket e) /\ FromPacket (ToPacket e) = e.
Proof.
  intros Hs Hc Hm Hf e. unfold e. split.
  - pose proof (proj1 (Forall_forall _ _) severities_no_nul _ Hs) as Hs0.
    pose proof (sqlstate_no_nul _ (proj1 (Forall_forall _ _) codes_sqlstate _ Hc)) as Hc0.
    apply Forall_app. split; [by repeat constructor|]. apply Forall_fmap. eapply Forall_impl; [done|]. intros f [Hx Hv].
    pose proof (proj1 (Forall_forall _ _) extras_apart _ Hx) as (_ & _ & _ & H0). by split.
  - refine (proj1 (PerrorTheorems.perror_roundtrip _ []) _). apply Forall_fmap. eapply Forall_impl; [done|]. intros f [Hx _].
    by pose proof (proj1 (Forall_forall _ _) extras_apart _ Hx) as (? & ? & ? & _).
Qed.
