(* ===== verification/Startup.v ===== *)
(** * Startup: lib/bouncer/backends/v0/accept.go and cancel.go,
      lib/bouncer/frontends/v0, lib/bouncer/sslmode.go

    How a connection begins.  [BackendStartup] is pggat connecting to a server
    as a client: TLS, startup packet, authentication, until the server is ready.
    [FrontendStartup] is pggat accepting a client: TLS, cancel requests, startup
    parameters; [FrontendAuth] authenticates it.

    A [Session] is a connection (any that satisfies the interface of Fed, with
    single bytes and TLS) with the fields of fed.Conn that are set here; [log] is
    a ghost, what went over the connection.  A packet of a client that answers an
    authentication request has one type byte for several packets: what a script
    holds is the packet as the code reads it.  Passwords and SASL come from
    libraries: parameters. *)

From Stdlib Require Import Init.Byte Strings.Byte Strings.String.
From S2P Require Import Prelude.
From S2P Require Import Wire.
From S2P Require Import Packets.
From S2P Require Import Strutil.
From S2P Require Import Fed.
From S2P Require Import Perror.

Local Open Scope go_scope.
Local Open Scope io_scope.

Abbreviation lit := list_byte_of_string.

(** ** The connection *)

Class StartupOps (C : Type) := {
  read_byte : C -> (error + byte) * C;
  write_byte : C -> byte -> option error * C;
  enable_ssl : C -> bool -> option error * C    (* as a client *)
}.

Class StartupLaws (C : Type) `{ConnLaws C rd wr} `{StartupOps C} := {
  read_byte_law c : conn_good c -> conn_good (read_byte c).2 /\ remaining (read_byte c).2 <= remaining c;
  write_byte_law c b : conn_good c -> conn_good (write_byte c b).2 /\ remaining (write_byte c b).2 <= remaining c;
  enable_ssl_law c b : conn_good c -> conn_good (enable_ssl c b).2 /\ remaining (enable_ssl c b).2 <= remaining c
}.

(** What happened on a connection. *)
Inductive sev :=
| WP (p : fpacket)   (* a packet was written *)
| RP (p : fpacket)   (* a packet was read *)
| WB (b : byte)
| RB (b : byte)
| TLS.

Section Session.
Context {C : Type} `{ConnOps C} `{StartupOps C}.

Record Session := mkSession {
  wire : C;
  User : gostring;
  Database : gostring;
  Parameters : gmap gostring gostring;   (* InitialParameters *)
  Key : BackendKey;
  Authenticated : bool;
  log : list sev
}.

Definition set_wire (c : C) (l : list sev) (s : Session) : Session :=
  mkSession c (User s) (Database s) (Parameters s) (Key s) (Authenticated s) (log s ++ l).
Definition set_user (u : gostring) (s : Session) : Session :=
  mkSession (wire s) u (Database s) (Parameters s) (Key s) (Authenticated s) (log s).
Definition set_database (d : gostring) (s : Session) : Session :=
  mkSession (wire s) (User s) d (Parameters s) (Key s) (Authenticated s) (log s).
Definition set_parameter (k v : gostring) (s : Session) : Session :=
  mkSession (wire s) (User s) (Database s) (<[k := v]> (Parameters s)) (Key s) (Authenticated s) (log s).
Definition set_key (k : BackendKey) (s : Session) : Session :=
  mkSession (wire s) (User s) (Database s) (Parameters s) k (Authenticated s) (log s).
Definition set_authenticated (s : Session) : Session :=
  mkSession (wire s) (User s) (Database s) (Parameters s) (Key s) true (log s).

Definition update (f : Session -> Session) : io Session unit := fun s => Ret (inr tt, f s).
Definition get_session : io Session Session := fun s => Ret (inr s, s).

Definition ReadPacket : io Session fpacket := fun s =>
  let! r := conn_read (wire s) in
  match r.1 with
  | inl e => Ret (inl e, set_wire r.2 [] s)
  | inr p => Ret (inr p, set_wire r.2 [RP p] s)
  end.

Definition WritePacket (p : Packet) : io Session unit := fun s =>
  let! r := conn_write (wire s) (of_packet p) in
  match r.1 with
  | Some e => Ret (inl e, set_wire r.2 [] s)
  | None => Ret (inr tt, set_wire r.2 [WP (of_packet p)] s)
  end.

Definition ReadByte : io Session byte := fun s =>
  let r := read_byte (wire s) in
  match r.1 with
  | inl e => Ret (inl e, set_wire r.2 [] s)
  | inr b => Ret (inr b, set_wire r.2 [RB b] s)
  end.

Definition WriteByte (b : byte) : io Session unit := fun s =>
  let r := write_byte (wire s) b in
  match r.1 with
  | Some e => Ret (inl e, set_wire r.2 [] s)
  | None => Ret (inr tt, set_wire r.2 [WB b] s)
  end.

Definition EnableSSL (isClient : bool) : io Session unit := fun s =>
  let r := enable_ssl (wire s) isClient in
  match r.1 with
  | Some e => Ret (inl e, set_wire r.2 [] s)
  | None => Ret (inr tt, set_wire r.2 [TLS] s)
  end.

(** [fed.ToConcrete(&p, packet)], for the packet [f] picks. *)
Definition to_concrete {A} (f : Packet -> option A) (p : fpacket) : io Session A :=
  match concrete p with
  | inl e => throw e
  | inr q => match f q with Some a => ret a | None => throw ErrUnexpectedPacket end
  end.

(** [for { done, err = m(); if err != nil { return err }; if done { break } }] *)
Fixpoint until_done (fuel : nat) (m : io Session bool) : io Session unit :=
  match fuel with
  | O => fun _ => Diverge
  | S fuel => do done <- m; if done : bool then ret tt else until_done fuel m
  end.

(** ** bouncer.SSLMode *)

Definition SSLMode := string.
Definition ShouldAttempt (T : SSLMode) : bool := negb (bool_decide (T = "disable"%string)).
Definition IsRequired (T : SSLMode) : bool :=
  negb (bool_decide (T = "disable"%string) || bool_decide (T = "allow"%string) ||
        bool_decide (T = "prefer"%string) || bool_decide (T = ""%string)).
End Session.
Arguments Session : clear implicits.

(** ** Connecting to a server *)
Module BackendStartup.
Section Backend.
Context {C : Type} `{ConnOps C} `{StartupOps C}.
(** The Unicode tables of strings.ToLower; a SASL encoder and its Write. *)
Context (unicode_lower : gostring -> gostring).
Context {E : Type} (encoder_Write : E -> list byte -> (option (list byte) * option error) * E).

(** auth.Credentials: the interfaces a value implements. *)
Record Credentials := mkCredentials {
  EncodeCleartext : option gostring;
  EncodeMD5 : option (list byte -> gostring);
  EncodeSASL : option (list gostring -> error + gostring * E)
}.

Record acceptOptions := mkOptions {
  sslMode : SSLMode;
  Username : gostring;
  creds : Credentials;
  OptDatabase : gostring;
  StartupParameters : list (gostring * gostring)   (* in the order of the range *)
}.

Definition ErrMethodNotSupported : error := ErrOther 10.
Definition ErrUnexpectedAuthenticationResponse : error := ErrOther 11.
Definition ErrExpectedEOF : error := ErrOther 12.
Definition ErrKerberos : error := ErrOther 13.
Definition ErrGSS : error := ErrOther 14.
Definition ErrSSPI : error := ErrOther 15.
Definition ErrUnknownMethod : error := ErrOther 16.
Definition ErrNegotiate : error := ErrOther 17.
Definition ErrSSLRejected : error := ErrOther 18.

Definition to_authentication (q : Packet) := match q with PAuthentication a => Some a | _ => None end.
Definition to_error (q : Packet) := match q with PMarkiplierResponse e => Some e | _ => None end.
Definition to_key (q : Packet) := match q with PBackendKeyData k => Some k | _ => None end.
Definition to_status (q : Packet) := match q with PParameterStatus s => Some s | _ => None end.

Definition authenticationSASLChallenge (encoder : E) : io (Session C) (bool * E) :=
  do packet <- ReadPacket;
  if decide (ptype packet <> Authentication.Type_) then throw (ErrUnexpectedType (ptype packet))
  else
    do p <- to_concrete to_authentication packet;
    match p with
    | Authentication.SASLContinue mode =>
        let w := encoder_Write encoder mode in
        match w.1.2 with
        | Some e => throw e
        | None => WritePacket (PSASLResponse (default [] w.1.1)) ;; ret (false, w.2)
        end
    | Authentication.SASLFinal mode =>
        let w := encoder_Write encoder mode in
        match w.1.2 with
        | Some EOF => ret (true, w.2)
        | Some e => throw e
        | None => throw ErrExpectedEOF
        end
    | _ => throw ErrUnexpectedAuthenticationResponse
    end.

Fixpoint challenge_loop (fuel : nat) (encoder : E) : io (Session C) unit :=
  match fuel with
  | O => fun _ => Diverge
  | S fuel =>
      do r <- authenticationSASLChallenge encoder;
      if r.1 : bool then ret tt else challenge_loop fuel r.2
  end.

Definition authenticationSASL (fuel : nat) (mechanisms : list gostring) (c : list gostring -> error + gostring * E) : io (Session C) unit :=
  match c mechanisms with
  | inl e => throw e
  | inr (mechanism, encoder) =>
      let w := encoder_Write encoder [] in
      match w.1.2 with
      | Some e => throw e
      | None =>
          WritePacket (PSASLInitialResponse (SASLInitialResponse.mk mechanism w.1.1)) ;;
          challenge_loop fuel w.2
      end
  end.

Definition authenticationMD5 (salt : list byte) (c : list byte -> gostring) : io (Session C) unit :=
  WritePacket (PPasswordMessage (c salt)).
Definition authenticationCleartext (c : gostring) : io (Session C) unit := WritePacket (PPasswordMessage c).

Definition authentication (fuel : nat) (o : acceptOptions) (p : Authentication.t) : io (Session C) bool :=
  match p with
  | Authentication.Ok => update set_authenticated ;; ret true
  | Authentication.KerberosV5 => throw ErrKerberos
  | Authentication.CleartextPassword =>
      match EncodeCleartext (creds o) with
      | None => throw ErrMethodNotSupported
      | Some c => authenticationCleartext c ;; ret false
      end
  | Authentication.MD5Password salt =>
      match EncodeMD5 (creds o) with
      | None => throw ErrMethodNotSupported
      | Some c => authenticationMD5 salt c ;; ret false
      end
  | Authentication.GSS => throw ErrGSS
  | Authentication.SSPI => throw ErrSSPI
  | Authentication.SASL mechanisms =>
      match EncodeSASL (creds o) with
      | None => throw ErrMethodNotSupported
      | Some c => authenticationSASL fuel mechanisms c ;; ret false
      end
  | _ => throw ErrUnknownMethod
  end.

Definition startup0 (fuel : nat) (o : acceptOptions) : io (Session C) bool :=
  do packet <- ReadPacket;
  if decide (ptype packet = MarkiplierResponse.Type_) then
    do p <- to_concrete to_error packet; throw (ErrPg (FromPacket p))
  else if decide (ptype packet = Authentication.Type_) then
    do p <- to_concrete to_authentication packet; authentication fuel o p
  else if decide (ptype packet = NegotiateProtocolVersion.Type_) then throw ErrNegotiate
  else throw (ErrUnexpectedType (ptype packet)).

Definition startup1 : io (Session C) bool :=
  do packet <- ReadPacket;
  if decide (ptype packet = BackendKeyData.Type_) then
    do p <- to_concrete to_key packet;
    update (set_key (mkKey (BackendKeyData.ProcessID p) (BackendKeyData.SecretKey p))) ;; ret false
  else if decide (ptype packet = ParameterStatus.Type_) then
    do p <- to_concrete to_status packet;
    update (set_parameter (MakeCIString unicode_lower (ParameterStatus.Key p)) (ParameterStatus.Value p)) ;; ret false
  else if decide (ptype packet = ReadyForQuery.Type_) then ret true
  else if decide (ptype packet = MarkiplierResponse.Type_) then
    do p <- to_concrete to_error packet; throw (ErrPg (FromPacket p))
  else if decide (ptype packet = NoticeResponse.Type_) then ret false
  else throw (ErrUnexpectedType (ptype packet)).

Definition ssl_request : Packet := PStartup (Startup.ControlMode Startup.SSL).

Definition enableSSL : io (Session C) bool :=
  WritePacket ssl_request ;;
  do yn <- ReadByte;
  if decide (yn <> x53) then ret false
  else EnableSSL true ;; ret true.

Definition startup_packet (o : acceptOptions) : Packet :=
  let database := if decide (OptDatabase o = []) then Username o else OptDatabase o in
  PStartup (Startup.Version3 0
    ([(lit "user", Username o); (lit "database", database)] ++ StartupParameters o)).

Definition accept (fuel : nat) (o : acceptOptions) : io (Session C) unit :=
  (if ShouldAttempt (sslMode o) then
     do sslEnabled <- enableSSL;
     if negb sslEnabled && IsRequired (sslMode o) then throw ErrSSLRejected else ret tt
   else ret tt) ;;
  WritePacket (startup_packet o) ;;
  until_done fuel (startup0 fuel o) ;;
  until_done fuel startup1.

(** cancel.go *)
Definition Cancel (key : BackendKey) : io (Session C) unit :=
  WritePacket (PStartup (Startup.ControlMode (Startup.Cancel (ProcessID key) (SecretKey key)))).
End Backend.
End BackendStartup.

(** ** strings.Fields, strings.Cut *)

(** unicode.IsSpace *)
Definition IsSpace (r : rune) : bool :=
  existsb (Z.eqb r) [9; 10; 11; 12; 13; 32; 0x85; 0xA0; 0x1680; 0x2028; 0x2029; 0x202F; 0x205F; 0x3000]%Z || between 0x2000 0x200A r.

Definition flush_field (cur : gostring) : list gostring := if decide (cur = []) then [] else [cur].

Fixpoint fields_fuel (fuel : nat) (s cur : gostring) : list gostring :=
  match fuel with
  | O => flush_field cur
  | S fuel =>
      match s with
      | [] => flush_field cur
      | _ =>
          let '(r, n) := DecodeRune s in
          if IsSpace r then flush_field cur ++ fields_fuel fuel (drop n s) []
          else fields_fuel fuel (drop n s) (cur ++ take n s)
      end
  end.

(** A rune has at least one byte, so the length is fuel enough. *)
Definition Fields (s : gostring) : list gostring := fields_fuel (length s) s [].

(** strings.Cut(s, "=") *)
Fixpoint Cut (s : gostring) : option (gostring * gostring) :=
  match s with
  | [] => None
  | b :: s => if decide (b = x3d) then Some ([], s) else (fun kv => (b :: kv.1, kv.2)) <$> Cut s
  end.

Definition HasPrefix (s prefix : gostring) : bool := bool_decide (take (length prefix) s = prefix).

(** ** Accepting a client *)
Module FrontendStartup.
Section Frontend.
Context {C : Type} `{ConnOps C} `{StartupOps C}.
Context (unicode_lower : gostring -> gostring) (error_text : error -> gostring).
Context (SSLConfig : bool).   (* not nil *)

Definition to_startup (q : Packet) := match q with PStartup p => Some p | _ => None end.

(** The fields of the parameter "options".  [fields[i]] after a last -c is out
    of range. *)
Fixpoint set_options (fields : list gostring) : io (Session C) unit :=
  match fields with
  | [] => ret tt
  | f :: fields =>
      if decide (f = lit "-c") then
        match fields with
        | [] => fun _ => Panic
        | set :: fields =>
            match Cut set with
            | None => throw (fatal ProtocolViolation "Expected key=value")
            | Some (key, value) =>
                update (set_parameter (MakeCIString unicode_lower key) value) ;; set_options fields
            end
        end
      else throw (fatal FeatureNotSupported "Flag not supported, sorry")
  end.

(** The range over the startup parameters; the result is unsupportedOptions. *)
Fixpoint set_parameters (l : list (gostring * gostring)) (unsupportedOptions : list gostring) : io (Session C) (list gostring) :=
  match l with
  | [] => ret unsupportedOptions
  | (key, value) :: l =>
      if decide (key = lit "user") then update (set_user value) ;; set_parameters l unsupportedOptions
      else if decide (key = lit "database") then update (set_database value) ;; set_parameters l unsupportedOptions
      else if decide (key = lit "options") then set_options (Fields value) ;; set_parameters l unsupportedOptions
      else if decide (key = lit "replication") then
        throw (fatal FeatureNotSupported "Replication mode is not supported yet")
      else if HasPrefix key (lit "_pq_.") then set_parameters l (unsupportedOptions ++ [key])
      else update (set_parameter (MakeCIString unicode_lower key) value) ;; set_parameters l unsupportedOptions
  end.

(** Result: the key if the client wants to cancel, and done. *)
Definition startup0 : io (Session C) (option BackendKey * bool) :=
  do packet <- ReadPacket;
  do p <- to_concrete to_startup packet;
  match p with
  | Startup.ControlMode (Startup.Cancel pid secret) => ret (Some (mkKey pid secret), true)
  | Startup.ControlMode Startup.SSL =>
      if negb SSLConfig then WriteByte x4e ;; ret (None, false)
      else WriteByte x53 ;; EnableSSL false ;; ret (None, false)
  | Startup.ControlMode Startup.GSSAPI => WriteByte x4e ;; ret (None, false)
  | Startup.Version3 MinorVersion params =>
      do unsupportedOptions <- set_parameters params [];
      (if negb (bool_decide (MinorVersion = 0%Z)) || (0 <? length unsupportedOptions)
       then WritePacket (PNegotiateProtocolVersion (NegotiateProtocolVersion.mk 0 unsupportedOptions)) else ret tt) ;;
      do s <- get_session;
      if decide (User s = []) then throw (fatal InvalidAuthorizationSpecification "User is required")
      else
        (if decide (Database s = []) then update (set_database (User s)) else ret tt) ;;
        ret (None, true)
  end.

Fixpoint accept0 (fuel : nat) : io (Session C) (option BackendKey) :=
  match fuel with
  | O => fun _ => Diverge
  | S fuel => do r <- startup0; if r.2 : bool then ret r.1 else accept0 fuel
  end.

(** The error of this write is ignored. *)
Definition fail (e : error) : io (Session C) unit := fun s =>
  let! r := WritePacket (PMarkiplierResponse (ToPacket (Wrap error_text e))) s in Ret (inr tt, r.2).

Definition accept (fuel : nat) : io (Session C) (option BackendKey) := fun s =>
  let! r := accept0 fuel s in
  match r.1 with
  | inl e => let! q := fail e r.2 in Ret (inl e, q.2)
  | inr k => Ret (inr k, r.2)
  end.
End Frontend.
End FrontendStartup.

(** ** Authenticating a client *)
Module FrontendAuth.
Section Auth.
Context {C : Type} `{ConnOps C} `{StartupOps C}.
(** A SASL verifier and its Write. *)
Context {V : Type} (verifier_Write : V -> list byte -> (list byte * option error) * V).

(** auth.Credentials: what the code finds them to implement, in its order. *)
Inductive Credentials :=
| CredNil
| CredSASL (mechanisms : list gostring) (VerifySASL : gostring -> error + V)
| CredMD5 (VerifyMD5 : list byte -> gostring -> option error)
| CredOther.

(** crypto/rand: salt, process id, secret key. *)
Record random := mkRandom { rnd_salt : error + list byte; rnd_pid : error + list byte; rnd_key : error + list byte }.

Definition of_random (r : error + list byte) : io (Session C) (list byte) :=
  match r with inl e => throw e | inr b => ret b end.

Definition to_initial (q : Packet) := match q with PSASLInitialResponse p => Some p | _ => None end.
Definition to_response (q : Packet) := match q with PSASLResponse p => Some p | _ => None end.
Definition to_password (q : Packet) := match q with PPasswordMessage p => Some p | _ => None end.

(** [resp, err = tool.Write(data)]; io.EOF means done. *)
Definition verify (tool : V) (data : list byte) : io (Session C) (V * list byte * bool) :=
  let w := verifier_Write tool data in
  match w.1.2 with
  | Some EOF => ret (w.2, w.1.1, true)
  | Some e => throw e
  | None => ret (w.2, w.1.1, false)
  end.

Definition authenticationSASLInitial (VerifySASL : gostring -> error + V) : io (Session C) (V * list byte * bool) :=
  do packet <- ReadPacket;
  do p <- to_concrete to_initial packet;
  match VerifySASL (SASLInitialResponse.Mechanism p) with
  | inl e => throw e
  | inr tool => verify tool (default [] (SASLInitialResponse.InitialClientResponse p))
  end.

Definition authenticationSASLContinue (tool : V) : io (Session C) (V * list byte * bool) :=
  do packet <- ReadPacket;
  do p <- to_concrete to_response packet;
  verify tool p.

Fixpoint sasl_loop (fuel : nat) (r : V * list byte * bool) : io (Session C) unit :=
  match fuel with
  | O => fun _ => Diverge
  | S fuel =>
      if r.2 : bool then WritePacket (PAuthentication (Authentication.SASLFinal r.1.2))
      else
        WritePacket (PAuthentication (Authentication.SASLContinue r.1.2)) ;;
        do r <- authenticationSASLContinue r.1.1;
        sasl_loop fuel r
  end.

Definition authenticationSASL (fuel : nat) (mechanisms : list gostring) (VerifySASL : gostring -> error + V) : io (Session C) unit :=
  WritePacket (PAuthentication (Authentication.SASL mechanisms)) ;;
  do r <- authenticationSASLInitial VerifySASL;
  sasl_loop fuel r.

Definition authenticationMD5 (rnd : random) (VerifyMD5 : list byte -> gostring -> option error) : io (Session C) unit :=
  do salt <- of_random (rnd_salt rnd);
  WritePacket (PAuthentication (Authentication.MD5Password salt)) ;;
  do packet <- ReadPacket;
  do pw <- to_concrete to_password packet;
  match VerifyMD5 salt pw with Some e => throw e | None => ret tt end.

Definition authOk : Packet := PAuthentication Authentication.Ok.

Definition authenticate (fuel : nat) (rnd : random) (creds : Credentials) : io (Session C) unit :=
  match creds with
  | CredNil => ret tt
  | CredSASL mechanisms v => authenticationSASL fuel mechanisms v
  | CredMD5 v => authenticationMD5 rnd v
  | CredOther => throw (fatal InternalError "Auth method not supported")
  end ;;
  WritePacket authOk ;;
  update set_authenticated ;;
  do pid <- of_random (rnd_pid rnd);
  do key <- of_random (rnd_key rnd);
  let k := mkKey (swrap 32 (of_be pid)) (swrap 32 (of_be key)) in
  update (set_key k) ;;
  WritePacket (PBackendKeyData (BackendKeyData.mk (ProcessID k) (SecretKey k))).

(** The sleep after an error is left out. *)
Definition Authenticate (fuel : nat) (rnd : random) (creds : Credentials) : io (Session C) unit := fun s =>
  if Authenticated s then Ret (inr tt, s) else authenticate fuel rnd creds s.
End Auth.
End FrontendAuth.

(** ** The code returns *)
Section Total.
Context {C : Type} {rd wr : fpacket -> Prop} `{ConnLaws C rd wr} `{!StartupOps C} `{!StartupLaws C}.
Context (fuel : nat).

Definition session_good (s : Session C) : Prop := conn_good (wire s).
Definition session_remaining (s : Session C) : nat := remaining (wire s).

(** With fuel for every packet to come, [m] returns; [strict]: without an error
    only if it has read a packet. *)
Definition fine {A} (strict : bool) (m : io (Session C) A) : Prop :=
  forall s, session_good s -> session_remaining s < fuel ->
  exists r s', m s = Ret (r, s') /\ session_good s' /\ session_remaining s' <= session_remaining s /\
    (strict = true -> forall a, r = inr a -> session_remaining s' < session_remaining s).

Lemma fine_ret {A} (a : A) : fine false (ret a).
Proof. intros s Hg Hf. by exists (inr a), s. Qed.

Lemma fine_throw {A} b e : fine b (@throw _ A e).
Proof. intros s Hg Hf. by exists (inl e), s. Qed.

Lemma fine_update f : (forall s, wire (f s) = wire s) -> fine false (update f).
Proof.
  intros Hw s Hg Hf. exists (inr tt), (f s). unfold session_good, session_remaining in *. rewrite Hw. done.
Qed.

Lemma fine_get : fine false get_session.
Proof. intros s Hg Hf. by exists (inr s), s. Qed.

Lemma fine_bind {A B} b1 b2 (m : io (Session C) A) (k : A -> io (Session C) B) :
  fine b1 m -> (forall a, fine b2 (k a)) -> fine (b1 || b2) (andthen m k).
Proof.
  intros Hm Hk s Hg Hf. unfold andthen. destruct (Hm s Hg Hf) as (r & s1 & -> & Hg1 & Hr1 & Hs1). cbn.
  destruct r as [e|a]; [by exists (inl e), s1|].
  destruct (Hk a s1 Hg1) as (r2 & s2 & -> & Hg2 & Hr2 & Hs2); [lia|]. exists r2, s2. split_and!; [done..|lia|].
  intros Hb a2 ->. destruct b1; [specialize (Hs1 eq_refl a eq_refl); lia|]. specialize (Hs2 Hb a2 eq_refl). lia.
Qed.

Lemma fine_seq {A B} b (m : io (Session C) A) (k : A -> io (Session C) B) :
  fine false m -> (forall a, fine b (k a)) -> fine b (andthen m k).
Proof. apply (fine_bind false b). Qed.

Lemma fine_weaken {A} b (m : io (Session C) A) : fine b m -> fine false m.
Proof. intros Hm s Hg Hf. destruct (Hm s Hg Hf) as (r & s' & ? & ? & ? & _). by exists r, s'. Qed.

Lemma fine_read {A} (k : fpacket -> io (Session C) A) :
  (forall p, rd p -> fine false (k p)) -> fine true (andthen ReadPacket k).
Proof.
  intros Hk s Hg Hf. unfold andthen, ReadPacket. destruct (read_law (wire s) Hg) as (r & c & -> & Hc & Hr). cbn.
  destruct r as [e|p]; cbn; [exists (inl e); by eexists|]. destruct Hr as [Hr Hp].
  destruct (Hk p Hp (set_wire c [RP p] s)) as (r2 & s2 & E & Hg2 & Hr2 & _).
  - done.
  - unfold session_remaining in *. simpl. lia.
  - rewrite E. unfold session_remaining in *. simpl in Hr2. exists r2, s2. split_and!; [done..|lia|]. intros. lia.
Qed.

Lemma fine_write p : wr (of_packet p) -> fine false (WritePacket p).
Proof.
  intros Hp s Hg Hf. unfold WritePacket. destruct (write_law (wire s) (of_packet p) Hg Hp) as (e & c & -> & Hc & Hr). cbn.
  destruct e; by eexists _, _.
Qed.

Lemma fine_read_byte : fine false ReadByte.
Proof.
  intros s Hg Hf. unfold ReadByte. destruct (read_byte_law (wire s) Hg) as [Hc Hr].
  destruct (read_byte (wire s)) as [[e|b] c]; by eexists _, _.
Qed.

Lemma fine_write_byte b : fine false (WriteByte b).
Proof.
  intros s Hg Hf. unfold WriteByte. destruct (write_byte_law (wire s) b Hg) as [Hc Hr].
  destruct (write_byte (wire s) b) as [[e|] c]; by eexists _, _.
Qed.

Lemma fine_ssl b : fine false (EnableSSL b).
Proof.
  intros s Hg Hf. unfold EnableSSL. destruct (enable_ssl_law (wire s) b Hg) as [Hc Hr].
  destruct (enable_ssl (wire s) b) as [[e|] c]; by eexists _, _.
Qed.

Lemma fine_concrete {A} (f : Packet -> option A) p : fine false (to_concrete f p).
Proof.
  unfold to_concrete. destruct (concrete p) as [e|q]; [apply fine_throw|]. destruct (f q); [apply fine_ret|apply fine_throw].
Qed.

(** The continuation of a conversion may know what was converted. *)
Lemma fine_concrete_bind {A B} b (f : Packet -> option A) p (k : A -> io (Session C) B) :
  (forall q a, concrete p = inr q -> f q = Some a -> fine b (k a)) -> fine b (andthen (to_concrete f p) k).
Proof.
  intros Hk s Hg Hf. unfold to_concrete. destruct (concrete p) as [e|q] eqn:Eq; [by apply fine_throw|].
  destruct (f q) as [a|] eqn:Ef; [|by apply fine_throw]. exact (Hk q a eq_refl Ef s Hg Hf).
Qed.

Lemma fine_until_done m : fine true m -> fine false (until_done fuel m).
Proof.
  intros Hm s Hg Hf. assert (Hn : session_remaining s < fuel) by done.
  revert s Hg Hf Hn. generalize fuel at 2 3. intros n. induction n as [|n IH]; intros s Hg Hf Hn; [lia|].
  cbn [until_done]. unfold andthen. destruct (Hm s Hg Hf) as (r & s1 & -> & Hg1 & Hr1 & Hs1). cbn.
  destruct r as [e|[|]]; [by exists (inl e), s1|by exists (inr tt), s1|].
  specialize (Hs1 eq_refl _ eq_refl). destruct (IH s1 Hg1) as (r2 & s2 & E & ? & ? & _); [lia..|].
  rewrite E. exists r2, s2. split_and!; [done..|lia|done].
Qed.
End Total.

(** Close or reduce a goal [fine]. *)
Ltac fine_step :=
  first
    [ apply fine_ret | apply fine_throw | apply fine_concrete | apply fine_get
    | apply fine_read_byte | apply fine_write_byte | apply fine_ssl
    | apply fine_update; done
    | apply fine_write; by apply of_packet_side
    | apply fine_seq; [|intros ?] ].
Ltac fine_solve := repeat first [fine_step | progress (cbv zeta) | case_match].

Section BackendTotal.
Context {C : Type} `{ConnLaws C back front} `{!StartupOps C} `{!StartupLaws C}.
Context (unicode_lower : gostring -> gostring).
Context {E : Type} (encoder_Write : E -> list byte -> (option (list byte) * option error) * E).
Import BackendStartup.

Lemma challenge_fine fuel e : fine fuel true (authenticationSASLChallenge encoder_Write e).
Proof. apply fine_read. intros p _. fine_solve.
Qed.

Lemma challenge_loop_fine fuel e : fine fuel false (challenge_loop encoder_Write fuel e).
Proof.
  intros s Hg Hf. assert (Hn : session_remaining s < fuel) by done.
  revert s e Hg Hf Hn. generalize fuel at 2 3. intros n. induction n as [|n IH]; intros s e Hg Hf Hn; [lia|].
  cbn [challenge_loop]. unfold andthen. destruct (challenge_fine fuel e s Hg Hf) as (r & s1 & -> & Hg1 & Hr1 & Hs1). cbn.
  destruct r as [er|[[|] e']]; [by exists (inl er), s1|by exists (inr tt), s1|].
  specialize (Hs1 eq_refl _ eq_refl). cbn. destruct (IH s1 e' Hg1) as (r2 & s2 & E2 & ? & ? & _); [lia..|].
  rewrite E2. exists r2, s2. split_and!; [done..|lia|done].
Qed.

Lemma authentication_fine fuel o p : fine fuel false (authentication encoder_Write fuel o p).
Proof.
  unfold authentication, authenticationSASL, authenticationMD5, authenticationCleartext.
  fine_solve; apply challenge_loop_fine.
Qed.

Lemma accept_fine fuel o : fine fuel false (accept unicode_lower encoder_Write fuel o).
Proof.
  unfold accept. apply fine_seq; [unfold enableSSL; fine_solve|intros _].
  apply fine_seq; [fine_step|intros _]. apply fine_seq; [|intros _]; apply fine_until_done.
  - apply fine_read. intros p _. fine_solve. apply authentication_fine.
  - apply fine_read. intros p _. fine_solve.
Qed.
End BackendTotal.

Section FrontendTotal.
Import FrontendStartup.
(** A flag -c is followed by its value. *)
Fixpoint options_ok (fields : list gostring) : bool :=
  match fields with
  | [] => true
  | f :: fields =>
      if decide (f = lit "-c") then match fields with [] => false | _ :: fields => options_ok fields end else true
  end.

Definition params_ok (l : list (gostring * gostring)) : Prop :=
  forall v, (lit "options", v) ∈ l -> options_ok (Fields v) = true.

(** A startup packet whose options are. *)
Definition startup_ok (p : fpacket) : Prop :=
  forall v l, concrete p = inr (PStartup (Startup.Version3 v l)) -> params_ok l.

Context {C : Type} `{ConnLaws C startup_ok back} `{!StartupOps C} `{!StartupLaws C}.
Context (unicode_lower : gostring -> gostring) (error_text : error -> gostring) (SSLConfig : bool).

Lemma set_options_fine fuel l : options_ok l = true -> fine fuel false (set_options unicode_lower l).
Proof.
  remember (length l) as n eqn:En. assert (Hn : length l <= n) by lia. clear En. revert l Hn.
  induction n as [|n IH]; intros [|f l] Hn Hok; cbn [set_options length] in *; try lia; try fine_step.
  cbn [options_ok] in Hok. destruct (decide (f = lit "-c")); [|fine_step]. destruct l as [|v l]; [done|].
  destruct (Cut v) as [[key value]|]; [|fine_step]. apply fine_seq; [fine_step|intros _]. apply IH; [simpl in Hn; lia|done].
Qed.

Lemma set_parameters_fine fuel l u : params_ok l -> fine fuel false (set_parameters unicode_lower l u).
Proof.
  revert u. induction l as [|[k v] l IH]; intros u Hok; cbn [set_parameters]; [fine_step|].
  assert (Hl : params_ok l) by (intros v' Hv'; apply Hok; by right).
  do 2 (destruct (decide _); [apply fine_seq; [fine_step|intros _; by apply IH]|]).
  destruct (decide (k = _)) as [->|]; [apply fine_seq; [|intros _; by apply IH]; apply set_options_fine, Hok; left|].
  destruct (decide _); [fine_step|]. destruct (HasPrefix _ _); [by apply IH|].
  apply fine_seq; [fine_step|intros _; by apply IH].
Qed.

Lemma startup0_fine fuel : fine fuel true (startup0 unicode_lower SSLConfig).
Proof.
  apply fine_read. intros p Hp. apply fine_concrete_bind. intros q m Eq Em.
  destruct m as [[pid key| |]|v l]; [fine_solve..|].
  destruct q; simplify_eq/=. apply fine_seq; [by apply set_parameters_fine, (Hp v)|intros u]. fine_solve.
Qed.

Lemma accept0_fine fuel : fine fuel false (accept0 unicode_lower SSLConfig fuel).
Proof.
  intros s Hg Hf. assert (Hn : session_remaining s < fuel) by done.
  revert s Hg Hf Hn. generalize fuel at 2 3. intros n. induction n as [|n IH]; intros s Hg Hf Hn; [lia|].
  cbn [accept0]. unfold andthen. destruct (startup0_fine fuel s Hg Hf) as (r & s1 & -> & Hg1 & Hr1 & Hs1). cbn.
  destruct r as [er|[k [|]]]; [by exists (inl er), s1|by exists (inr k), s1|].
  specialize (Hs1 eq_refl _ eq_refl). cbn. destruct (IH s1 Hg1) as (r2 & s2 & E2 & ? & ? & _); [lia..|].
  rewrite E2. exists r2, s2. split_and!; [done..|lia|done].
Qed.

Lemma frontend_accept_fine fuel : fine fuel false (FrontendStartup.accept unicode_lower error_text SSLConfig fuel).
Proof.
  intros s Hg Hf. unfold FrontendStartup.accept. destruct (accept0_fine fuel s Hg Hf) as (r & s1 & -> & Hg1 & Hr1 & _). cbn.
  destruct r as [e|k]; [|by exists (inr k), s1]. unfold fail.
  assert (Hw : fine (C := C) fuel false (WritePacket (PMarkiplierResponse (ToPacket (Wrap error_text e))))) by fine_step.
  destruct (Hw s1 Hg1) as (r2 & s2 & -> & ? & ? & _); [lia|]. exists (inl e), s2. split_and!; [done..|lia|done].
Qed.
End FrontendTotal.

Section AuthTotal.
Import FrontendAuth.
Context {C : Type} {rd : fpacket -> Prop} `{ConnLaws C rd back} `{!StartupOps C} `{!StartupLaws C}.
Context {V : Type} (verifier_Write : V -> list byte -> (list byte * option error) * V).

Lemma verify_fine fuel tool data : fine (C := C) fuel false (verify verifier_Write tool data).
Proof. unfold verify. fine_solve. Qed.

Lemma sasl_loop_fine fuel r : fine (C := C) fuel false (sasl_loop verifier_Write fuel r).
Proof.
  intros s Hg Hf. assert (Hn : session_remaining s < fuel) by done.
  revert s r Hg Hf Hn. generalize fuel at 2 3. intros n. induction n as [|n IH]; intros s r Hg Hf Hn; [lia|].
  cbn [sasl_loop]. destruct (r.2).
  { assert (Hw : fine (C := C) fuel false (WritePacket (PAuthentication (Authentication.SASLFinal r.1.2)))) by fine_step. by apply Hw. }
  assert (Hw : fine (C := C) fuel true (WritePacket (PAuthentication (Authentication.SASLContinue r.1.2)) ;;
    authenticationSASLContinue verifier_Write r.1.1)).
  { apply fine_seq; [fine_step|intros _]. apply fine_read. intros p _. apply fine_seq; [fine_step|intros x; apply verify_fine]. }
  destruct (Hw s Hg Hf) as (r1 & s1 & E1 & Hg1 & Hr1 & Hs1). revert E1. unfold andthen.
  destruct (WritePacket _ s) as [[[e|u] s0]| |]; cbn; [intros [= <- <-]; by eexists _, _| |done..].
  intros ->. cbn. destruct r1 as [e|r1]; [by eexists _, _|].
  specialize (Hs1 eq_refl _ eq_refl). destruct (IH s1 r1 Hg1) as (r2 & s2 & E2 & ? & ? & _); [lia..|].
  rewrite E2. exists r2, s2. split_and!; [done..|lia|done].
Qed.

Lemma authenticate_fine fuel rnd creds : fine (C := C) fuel false (Authenticate verifier_Write fuel rnd creds).
Proof.
  intros s Hg Hf. unfold Authenticate. destruct (Authenticated s); [by exists (inr tt), s|]. revert s Hg Hf.
  change (fine (C := C) fuel false (authenticate verifier_Write fuel rnd creds)). unfold authenticate, of_random.
  apply fine_seq; [|intros _; fine_solve]. destruct creds as [|mechs v|v|]; [fine_step| | |fine_step].
  - apply fine_seq; [fine_step|intros _]. apply fine_seq; [|intros r; apply sasl_loop_fine].
    eapply fine_weaken, fine_read. intros p _. apply fine_seq; [fine_step|intros x].
    destruct (v _); [fine_step|apply verify_fine].
  - unfold authenticationMD5, of_random. apply fine_seq; [fine_solve|intros salt]. apply fine_seq; [fine_step|intros _].
    eapply fine_weaken, fine_read. intros p _. fine_solve.
Qed.
End AuthTotal.

(** ** What goes over the connection *)
Section Partial.
Context {C : Type} `{ConnOps C} `{StartupOps C}.

Lemma andthen_Ret {A B} (m : io (Session C) A) (k : A -> io (Session C) B) s r s' :
  andthen m k s = Ret (r, s') ->
  (exists e, m s = Ret (inl e, s') /\ r = inl e) \/ (exists a s1, m s = Ret (inr a, s1) /\ k a s1 = Ret (r, s')).
Proof.
  intros Hr. unfold andthen in Hr. inv_ret. destruct x as [[e|a] s1]; cbn in Hr; [injection Hr as <- <-|]; eauto.
Qed.

(** The connection's operations change the wire and the log only. *)
Definition same_fields (s s' : Session C) : Prop :=
  User s' = User s /\ Database s' = Database s /\ Parameters s' = Parameters s /\ Key s' = Key s /\
  Authenticated s' = Authenticated s.

Lemma ReadPacket_Ret s r s' : ReadPacket s = Ret (r, s') ->
  same_fields s s' /\ log s' = log s ++ match r with inr p => [RP p] | inl _ => [] end.
Proof. intros E. unfold ReadPacket in E. inv_ret. destruct x as [[e|p] c]; cbn in E; by simplify_eq. Qed.

Lemma WritePacket_Ret p s r s' : WritePacket p s = Ret (r, s') ->
  same_fields s s' /\ log s' = log s ++ match r with inr _ => [WP (of_packet p)] | inl _ => [] end.
Proof. intros E. unfold WritePacket in E. inv_ret. destruct x as [[e|] c]; cbn in E; by simplify_eq. Qed.

Lemma ReadByte_Ret s r s' : ReadByte s = Ret (r, s') ->
  same_fields s s' /\ log s' = log s ++ match r with inr b => [RB b] | inl _ => [] end.
Proof. intros E. unfold ReadByte in E. destruct (read_byte (wire s)) as [[e|b] c]; cbn in E; by simplify_eq. Qed.

Lemma EnableSSL_Ret b s r s' : EnableSSL b s = Ret (r, s') ->
  same_fields s s' /\ log s' = log s ++ match r with inr _ => [TLS] | inl _ => [] end.
Proof. intros E. unfold EnableSSL in E. destruct (enable_ssl (wire s) b) as [[e|] c]; cbn in E; by simplify_eq. Qed.

Lemma to_concrete_Ret {A} (f : Packet -> option A) p s r s' : to_concrete (C := C) f p s = Ret (r, s') ->
  s' = s /\ forall a, r = inr a -> exists q, concrete p = inr q /\ f q = Some a.
Proof.
  unfold to_concrete. intros E. destruct (concrete p) as [e|q]; [|destruct (f q) eqn:Ef]; cbn in E; injection E as <- <-; (split; [done|]);
    intros a' [= <-]; eauto.
Qed.

Lemma to_concrete_ok {A} (f : Packet -> option A) p s a s' : to_concrete (C := C) f p s = Ret (inr a, s') ->
  s' = s /\ exists q, concrete p = inr q /\ f q = Some a.
Proof. intros [-> Hr]%to_concrete_Ret. split; [done|]. by apply Hr. Qed.

(** The events of [m] satisfy [G]. *)
Definition emits {A} (G : list sev -> Prop) (m : io (Session C) A) : Prop :=
  forall s r s', m s = Ret (r, s') -> exists l, log s' = log s ++ l /\ G l.

(** Predicates on events one by one. *)
Definition each_event {A} (g : sev -> Prop) (m : io (Session C) A) : Prop := emits (Forall g) m.

Lemma each_ret {A} g (a : A) : each_event g (ret a).
Proof. intros s r s' [= <- <-]. exists []. by rewrite app_nil_r. Qed.

Lemma each_throw {A} g e : each_event g (@throw _ A e).
Proof. intros s r s' [= <- <-]. exists []. by rewrite app_nil_r. Qed.

Lemma each_update g f : (forall s, log (f s) = log s) -> each_event g (update f).
Proof. intros Hf s r s' [= <- <-]. exists []. by rewrite Hf, app_nil_r. Qed.

Lemma each_get g : each_event g get_session.
Proof. intros s r s' [= <- <-]. exists []. by rewrite app_nil_r. Qed.

Lemma each_bind {A B} g (m : io (Session C) A) (k : A -> io (Session C) B) :
  each_event g m -> (forall a, each_event g (k a)) -> each_event g (andthen m k).
Proof.
  intros Hm Hk s r s' E. unfold andthen in E. inv_ret. destruct x as [[e|a] s1]; cbn in E.
  - injection E as <- <-. by eapply Hm.
  - destruct (Hm s _ _ H1) as (l1 & E1 & G1). destruct (Hk a s1 _ _ E) as (l2 & E2 & G2).
    exists (l1 ++ l2). simpl in E1. rewrite E2, E1, <- app_assoc. split; [done|]. by apply Forall_app.
Qed.

Lemma each_read (g : sev -> Prop) : (forall p, g (RP p)) -> each_event g ReadPacket.
Proof.
  intros Hg s r s' E. unfold ReadPacket in E. inv_ret. destruct x as [[e|p] c]; cbn in E; simplify_eq; simpl; [exists []|exists [RP p]]; by auto.
Qed.

Lemma each_write (g : sev -> Prop) p : g (WP (of_packet p)) -> each_event g (WritePacket p).
Proof.
  intros Hg s r s' E. unfold WritePacket in E. inv_ret. destruct x as [[e|] c]; cbn in E; simplify_eq; simpl; eexists; by auto.
Qed.

Lemma each_read_byte (g : sev -> Prop) : (forall b, g (RB b)) -> each_event g ReadByte.
Proof.
  intros Hg s r s' E. unfold ReadByte in E. destruct (read_byte (wire s)) as [[e|b] c]; cbn in E; simplify_eq; simpl; eexists; by auto.
Qed.

Lemma each_write_byte (g : sev -> Prop) b : g (WB b) -> each_event g (WriteByte b).
Proof.
  intros Hg s r s' E. unfold WriteByte in E. destruct (write_byte (wire s) b) as [[e|] c]; cbn in E; simplify_eq; simpl; eexists; by auto.
Qed.

Lemma each_ssl (g : sev -> Prop) b : g TLS -> each_event g (EnableSSL b).
Proof.
  intros Hg s r s' E. unfold EnableSSL in E. destruct (enable_ssl (wire s) b) as [[e|] c]; cbn in E; simplify_eq; simpl; eexists; by auto.
Qed.

Lemma each_concrete {A} g (f : Packet -> option A) p : each_event g (to_concrete f p).
Proof.
  unfold to_concrete. destruct (concrete p) as [e|q]; [apply each_throw|]. destruct (f q); [apply each_ret|apply each_throw].
Qed.

Lemma each_until g fuel m : each_event g m -> each_event g (until_done fuel m).
Proof.
  intros Hm. induction fuel as [|fuel IH]; [by intros s r s'|]. cbn [until_done]. apply each_bind; [done|].
  intros [|]; [apply each_ret|done].
Qed.
End Partial.

Ltac each_step :=
  first
    [ apply each_ret | apply each_throw | apply each_concrete | apply each_get
    | apply each_update; done | apply each_read; done | apply each_write; done
    | apply each_read_byte; done | apply each_write_byte; done | apply each_ssl; done
    | apply each_bind; [|intros ?] ].
Ltac each_solve := repeat first [each_step | progress (cbv zeta) | case_match].

(** *** Fields that the packets do not touch *)
Section Leaves.
Context {C : Type} `{ConnOps C} `{StartupOps C} {X : Type} (f : Session C -> X).
Hypothesis f_wire : forall c l s, f (set_wire c l s) = f s.

Definition leaves {A} (m : io (Session C) A) : Prop := forall s r s', m s = Ret (r, s') -> f s' = f s.

Lemma leaves_ret {A} (a : A) : leaves (ret a).
Proof. by intros s r s' [= <- <-]. Qed.
Lemma leaves_throw {A} e : leaves (@throw _ A e).
Proof. by intros s r s' [= <- <-]. Qed.
Lemma leaves_update g : (forall s, f (g s) = f s) -> leaves (update g).
Proof. by intros Hg s r s' [= <- <-]. Qed.
Lemma leaves_get : leaves get_session.
Proof. by intros s r s' [= <- <-]. Qed.
Lemma leaves_bind {A B} (m : io (Session C) A) (k : A -> io (Session C) B) :
  leaves m -> (forall a, leaves (k a)) -> leaves (andthen m k).
Proof.
  intros Hm Hk s r s' [(e & E & _)|(a & s1 & E & Ek)]%andthen_Ret; [by eapply Hm|].
  etrans; [by eapply Hk|by eapply Hm].
Qed.
Lemma leaves_read : leaves ReadPacket.
Proof. intros s r s' E. unfold ReadPacket in E. inv_ret. destruct x as [[e|p] c]; cbn in E; by simplify_eq. Qed.
Lemma leaves_write p : leaves (WritePacket p).
Proof. intros s r s' E. unfold WritePacket in E. inv_ret. destruct x as [[e|] c]; cbn in E; by simplify_eq. Qed.
Lemma leaves_read_byte : leaves ReadByte.
Proof. intros s r s' E. unfold ReadByte in E. destruct (read_byte (wire s)) as [[e|b] c]; cbn in E; by simplify_eq. Qed.
Lemma leaves_write_byte b : leaves (WriteByte b).
Proof. intros s r s' E. unfold WriteByte in E. destruct (write_byte (wire s) b) as [[e|] c]; cbn in E; by simplify_eq. Qed.
Lemma leaves_ssl b : leaves (EnableSSL b).
Proof. intros s r s' E. unfold EnableSSL in E. destruct (enable_ssl (wire s) b) as [[e|] c]; cbn in E; by simplify_eq. Qed.
Lemma leaves_concrete {A} (g : Packet -> option A) p : leaves (to_concrete g p).
Proof. by intros s r s' [-> _]%to_concrete_Ret. Qed.
Lemma leaves_until fuel m : leaves m -> leaves (until_done fuel m).
Proof.
  intros Hm. induction fuel as [|fuel IH]; [by intros s r s'|]. cbn [until_done]. apply leaves_bind; [done|].
  intros [|]; [apply leaves_ret|done].
Qed.
End Leaves.

Ltac leaves_step :=
  first
    [ apply leaves_ret | apply leaves_throw | apply leaves_concrete | apply leaves_get
    | apply leaves_update; done | apply leaves_read; done | apply leaves_write; done
    | apply leaves_read_byte; done | apply leaves_write_byte; done | apply leaves_ssl; done
    | apply leaves_bind; [|intros ?] ].
Ltac leaves_solve := repeat first [leaves_step | progress (cbv zeta) | case_match].

(** *** Nothing but the request for TLS is sent before TLS *)
Section Confidential.
Context {C : Type} `{ConnOps C} `{StartupOps C}.
Context (unicode_lower : gostring -> gostring).
Context {E : Type} (encoder_Write : E -> list byte -> (option (list byte) * option error) * E).
Import BackendStartup.

Definition confidential (l : list sev) : Prop :=
  forall i p, l !! i = Some (WP p) -> p = of_packet ssl_request \/ exists j, j < i /\ l !! j = Some TLS.

Lemma confidential_app l l' : confidential l -> TLS ∈ l -> confidential (l ++ l').
Proof.
  intros Hl [j Hj]%list_elem_of_lookup i p Hi. assert (j < length l) by (by eapply lookup_lt_Some).
  destruct (decide (i < length l)).
  - rewrite lookup_app_l in Hi by done. destruct (Hl i p Hi) as [->|(j' & ? & ?)]; [by left|]. right. exists j'.
    rewrite lookup_app_l by lia. done.
  - right. exists j. rewrite lookup_app_l by done. split; [lia|done].
Qed.

Definition any_event (e : sev) : Prop := True.

Lemma any_challenge fuel e : each_event (C := C) any_event (challenge_loop encoder_Write fuel e).
Proof.
  revert e. induction fuel as [|fuel IH]; intros e; [by intros s r s'|]. cbn [challenge_loop].
  apply each_bind; [unfold authenticationSASLChallenge; each_solve|]. intros [[|] e']; [apply each_ret|apply IH].
Qed.

Lemma any_rest fuel o :
  each_event (C := C) any_event (WritePacket (startup_packet o) ;; until_done fuel (startup0 encoder_Write fuel o) ;; until_done fuel (startup1 unicode_lower)).
Proof.
  apply each_bind; [each_step|intros _]. apply each_bind; [|intros _]; apply each_until.
  - unfold startup0, authentication, authenticationSASL, authenticationMD5, authenticationCleartext.
    each_solve; apply any_challenge.
  - unfold startup1. each_solve.
Qed.

Lemma enableSSL_log (s s' : Session C) r :
  log s = [] -> enableSSL s = Ret (r, s') -> confidential (log s') /\ (r = inr true -> TLS ∈ log s').
Proof.
  assert (H1 : forall l, (forall p, WP p ∉ l) -> confidential (WP (of_packet ssl_request) :: l)).
  { intros l Hno [|i] p Hi; simpl in Hi; [left; congruence|]. by apply list_elem_of_lookup_2, Hno in Hi. }
  intros Hl Er. unfold enableSSL in Er.
  apply andthen_Ret in Er as [(e & E1 & ->)|([] & s1 & E1 & Er)]; apply WritePacket_Ret in E1 as [_ L1]; rewrite Hl in L1; simpl in L1.
  { rewrite L1. split; [by intros i p|done]. }
  apply andthen_Ret in Er as [(e & E2 & ->)|(yn & s2 & E2 & Er)]; apply ReadByte_Ret in E2 as [_ L2]; rewrite L1 in L2; simpl in L2.
  { rewrite L2. split; [apply H1; set_solver|done]. }
  destruct (decide (yn <> x53)).
  { injection Er as <- <-. rewrite L2. split; [apply H1; set_solver|done]. }
  apply andthen_Ret in Er as [(e & E3 & ->)|([] & s3 & E3 & Er)]; apply EnableSSL_Ret in E3 as [_ L3]; rewrite L2 in L3; simpl in L3.
  { rewrite L3. split; [apply H1; set_solver|done]. }
  injection Er as <- <-. rewrite L3. split; [apply H1; set_solver|]. set_solver.
Qed.

Lemma accept_confidential fuel o (s s' : Session C) r :
  IsRequired (sslMode o) = true -> log s = [] ->
  accept unicode_lower encoder_Write fuel o s = Ret (r, s') -> confidential (log s').
Proof.
  intros Hreq Hl Er. unfold accept in Er. rewrite Hreq in Er.
  assert (Hatt : ShouldAttempt (sslMode o) = true).
  { unfold IsRequired, ShouldAttempt in *. by destruct (bool_decide (sslMode o = "disable"%string)). }
  rewrite Hatt in Er. apply andthen_Ret in Er as [(e & E1 & ->)|([] & s1 & E1 & Er)].
  - apply andthen_Ret in E1 as [(e' & E2 & _)|([|] & s2 & E2 & E1)]; [|by injection E1|injection E1 as _ <-]; by eapply enableSSL_log.
  - apply andthen_Ret in E1 as [(e' & _ & ?)|([|] & s2 & E2 & E1)]; [done| |done]. injection E1 as <-.
    destruct (enableSSL_log s s2 _ Hl E2) as [Hc Ht].
    destruct (any_rest fuel o s2 r s' Er) as (l & -> & _). by apply confidential_app, Ht.
Qed.
End Confidential.

(** *** What a successful startup has read *)
Section Ready.
Context {C : Type} `{ConnOps C} `{StartupOps C}.
Context (unicode_lower : gostring -> gostring).
Context {E : Type} (encoder_Write : E -> list byte -> (option (list byte) * option error) * E).
Import BackendStartup.

(** What the server said before it was ready: parameters and key.  Of two
    values the later one counts. *)
Definition announce (pk : gmap gostring gostring * BackendKey) (p : fpacket) : gmap gostring gostring * BackendKey :=
  match concrete p with
  | inr (PParameterStatus s as q) =>
      if decide (ptype p = Type_ q) then (<[MakeCIString unicode_lower (ParameterStatus.Key s) := ParameterStatus.Value s]> pk.1, pk.2) else pk
  | inr (PBackendKeyData k as q) =>
      if decide (ptype p = Type_ q) then (pk.1, mkKey (BackendKeyData.ProcessID k) (BackendKeyData.SecretKey k)) else pk
  | _ => pk
  end.
Definition announced (s : Session C) : gmap gostring gostring * BackendKey := (Parameters s, Key s).

Lemma announce_other pk p :
  ptype p <> ParameterStatus.Type_ -> ptype p <> BackendKeyData.Type_ -> announce pk p = pk.
Proof. intros H1 H2. unfold announce. destruct (concrete p) as [e|[]]; try done; by rewrite decide_False. Qed.

Lemma same_announced (s s' : Session C) : same_fields s s' -> announced s' = announced s /\ Authenticated s' = Authenticated s.
Proof. intros (_ & _ & Hp & Hk & Ha). unfold announced. by rewrite Hp, Hk. Qed.

Lemma startup1_Ret (s s' : Session C) done :
  startup1 unicode_lower s = Ret (inr done, s') ->
  exists p, log s' = log s ++ [RP p] /\ announced s' = announce (announced s) p /\ Authenticated s' = Authenticated s /\
    done = bool_decide (ptype p = ReadyForQuery.Type_).
Proof.
  intros Er. unfold startup1 in Er. apply andthen_Ret in Er as [(e & _ & ?)|(p & s1 & E1 & Er)]; [done|].
  apply ReadPacket_Ret in E1 as [Hs L1]. apply same_announced in Hs as [Hs Ha]. exists p.
  destruct (decide _) as [Ht|Ht].
  { apply andthen_Ret in Er as [(e & _ & ?)|(k & s2 & E2 & Er)]; [done|]. injection Er as <- <-.
    apply to_concrete_ok in E2 as [-> (q & Ec & Eq)]. destruct q; simplify_eq/=.
    unfold announce, announced in *. rewrite Ec, decide_True by done. cbn. rewrite Hs.
    split_and!; [done..|]. by rewrite Ht. }
  destruct (decide _) as [Ht2|Ht2].
  { apply andthen_Ret in Er as [(e & _ & ?)|(k & s2 & E2 & Er)]; [done|]. injection Er as <- <-.
    apply to_concrete_ok in E2 as [-> (q & Ec & Eq)]. destruct q; simplify_eq/=.
    unfold announce, announced in *. rewrite Ec, decide_True by done. cbn. rewrite Hs, <- H1.
    split_and!; [done..|]. by rewrite Ht2. }
  rewrite announce_other by done.
  destruct (decide _) as [Ht3|Ht3]; [injection Er as <- <-; rewrite bool_decide_true by done; by rewrite Hs|].
  destruct (decide _) as [Ht4|Ht4].
  { by apply andthen_Ret in Er as [(e & _ & ?)|(k & s2 & E2 & Er)]. }
  destruct (decide _) as [Ht5|Ht5]; [|done]. injection Er as <- <-. rewrite bool_decide_false by done. by rewrite Hs.
Qed.

(** The server's packets of the second phase. *)
Lemma startup1_loop fuel (s s' : Session C) :
  until_done fuel (startup1 unicode_lower) s = Ret (inr tt, s') ->
  exists ps z, log s' = log s ++ map RP (ps ++ [z]) /\ announced s' = foldl announce (announced s) ps /\
    Authenticated s' = Authenticated s /\ ptype z = ReadyForQuery.Type_.
Proof.
  revert s. induction fuel as [|fuel IH]; intros s Er; [done|]. cbn [until_done] in Er.
  apply andthen_Ret in Er as [(e & _ & ?)|(d & s1 & E1 & Er)]; [done|].
  apply startup1_Ret in E1 as (p & L1 & A1 & H1 & ->). destruct (bool_decide _) eqn:Hd.
  - injection Er as <-. apply bool_decide_eq_true in Hd. exists [], p. split_and!; [done| |done..].
    rewrite A1. simpl. apply announce_other; rewrite Hd; done.
  - apply IH in Er as (ps & z & L2 & A2 & H2 & Hz). exists (p :: ps), z.
    rewrite L2, L1, A2, A1, H2, H1, <- app_assoc. done.
Qed.

(** The first phase ends with the server's AuthenticationOk. *)
Lemma startup0_Ret fuel o (s s' : Session C) :
  startup0 encoder_Write fuel o s = Ret (inr true, s') ->
  exists p, log s' = log s ++ [RP p] /\ concrete p = inr (PAuthentication Authentication.Ok) /\
    announced s' = announced s /\ Authenticated s' = true.
Proof.
  intros Er. unfold startup0 in Er. apply andthen_Ret in Er as [(e & _ & ?)|(p & s1 & E1 & Er)]; [done|].
  apply ReadPacket_Ret in E1 as [Hs L1]. apply same_announced in Hs as [Hs Ha]. exists p.
  destruct (decide _); [by apply andthen_Ret in Er as [(e' & _ & ?)|(k & s2 & E2 & Er)]|].
  destruct (decide _); [|by destruct (decide _)].
  apply andthen_Ret in Er as [(e' & _ & ?)|(k & s2 & E2 & Er)]; [done|].
  apply to_concrete_ok in E2 as [-> (q & Ec & Eq)]. destruct q; simplify_eq/=.
  destruct k; cbn [authentication] in Er; try done.
  - destruct (EncodeCleartext _); [|done]. by apply andthen_Ret in Er as [(? & _ & ?)|(? & ? & _ & ?)].
  - destruct (EncodeMD5 _); [|done]. by apply andthen_Ret in Er as [(? & _ & ?)|(? & ? & _ & ?)].
  - injection Er as <-. unfold announced in *. simpl. by rewrite Hs, H1.
  - destruct (EncodeSASL _); [|done]. by apply andthen_Ret in Er as [(? & _ & ?)|(? & ? & _ & ?)].
Qed.

Lemma challenge_leaves fuel e : leaves announced (challenge_loop encoder_Write fuel e).
Proof.
  revert e. induction fuel as [|fuel IH]; intros e; [by intros s r s'|]. cbn [challenge_loop].
  apply leaves_bind; [unfold authenticationSASLChallenge; leaves_solve|]. intros [[|] e']; [apply leaves_ret|apply IH].
Qed.

Lemma startup0_leaves fuel o : leaves announced (startup0 encoder_Write fuel o).
Proof.
  unfold startup0, authentication, authenticationSASL, authenticationMD5, authenticationCleartext.
  leaves_solve; apply challenge_leaves.
Qed.

Lemma startup0_loop n fuel o (s s' : Session C) :
  until_done n (startup0 encoder_Write fuel o) s = Ret (inr tt, s') ->
  announced s' = announced s /\ Authenticated s' = true /\
  exists l p, log s' = log s ++ l ++ [RP p] /\ concrete p = inr (PAuthentication Authentication.Ok).
Proof.
  revert s. induction n as [|n IH]; intros s Er; [done|]. cbn [until_done] in Er.
  apply andthen_Ret in Er as [(e & _ & ?)|([|] & s1 & E1 & Er)]; [done| |].
  - injection Er as <-. apply startup0_Ret in E1 as (p & L & Hc & Ha & Hau). split_and!; [done..|]. by exists [], p.
  - apply IH in Er as (A2 & H2 & l & p & L2 & Hp). rewrite A2, H2, L2. rewrite (startup0_leaves _ _ _ _ _ E1).
    split_and!; [done..|]. assert (Hany : each_event (C := C) any_event (startup0 encoder_Write fuel o)).
    { unfold startup0, authentication, authenticationSASL, authenticationMD5, authenticationCleartext.
      each_solve; apply any_challenge. }
    destruct (Hany _ _ _ E1) as (l1 & -> & _). exists (l1 ++ l), p. by rewrite <- !app_assoc.
Qed.

(** A startup that succeeds: what was written and read. *)
Lemma accept_ready fuel o (s s' : Session C) :
  accept unicode_lower encoder_Write fuel o s = Ret (inr tt, s') ->
  Authenticated s' = true /\
  exists l p ps z, log s' = log s ++ l ++ RP p :: map RP (ps ++ [z]) /\
    WP (of_packet (startup_packet o)) ∈ l /\
    concrete p = inr (PAuthentication Authentication.Ok) /\ ptype z = ReadyForQuery.Type_ /\
    announced s' = foldl announce (announced s) ps.
Proof.
  intros Er. unfold accept in Er. apply andthen_Ret in Er as [(e & _ & ?)|([] & s1 & E1 & Er)]; [done|].
  assert (A1 : leaves (C := C) announced (if ShouldAttempt (sslMode o) then
     do sslEnabled <- enableSSL;
     if negb sslEnabled && IsRequired (sslMode o) then throw ErrSSLRejected else ret tt
   else ret tt)) by (unfold enableSSL; leaves_solve).
  assert (L1 : each_event (C := C) any_event (if ShouldAttempt (sslMode o) then
     do sslEnabled <- enableSSL;
     if negb sslEnabled && IsRequired (sslMode o) then throw ErrSSLRejected else ret tt
   else ret tt)) by (unfold enableSSL; each_solve).
  apply A1 in E1 as A1'. apply L1 in E1 as (l1 & L1' & _). clear A1 L1.
  apply andthen_Ret in Er as [(e & _ & ?)|([] & s2 & E2 & Er)]; [done|].
  apply WritePacket_Ret in E2 as [[A2 _]%same_announced L2].
  apply andthen_Ret in Er as [(e & _ & ?)|([] & s3 & E3 & Er)]; [done|].
  apply startup0_loop in E3 as (A3 & H3 & l3 & p & L3 & Hp).
  apply startup1_loop in Er as (ps & z & L4 & A4 & H4 & Hz). split; [by rewrite H4|].
  exists (l1 ++ [WP (of_packet (startup_packet o))] ++ l3), p, ps, z. split_and!; [|set_solver|done|done|].
  - rewrite L4, L3, L2, L1', <- !app_assoc. done.
  - by rewrite A4, A3, A2, A1'.
Qed.
End Ready.

(** *** Who is let in *)
Section Sound.
Context {C : Type} `{ConnOps C} `{StartupOps C}.
Context {V : Type} (verifier_Write : V -> list byte -> (list byte * option error) * V).
Import FrontendAuth.

(** The verifier takes the client's messages, the last one as the final one. *)
Fixpoint accepts (tool : V) (msgs : list (list byte)) : Prop :=
  match msgs with
  | [] => False
  | m :: msgs =>
      let w := verifier_Write tool m in
      match w.1.2 with
      | Some EOF => msgs = []
      | Some _ => False
      | None => accepts w.2 msgs
      end
  end.

(** What a client answers a SASL request with. *)
Definition client_data (e : sev) : option (list byte) :=
  match e with
  | RP p =>
      match concrete p with
      | inr (PSASLInitialResponse i) => Some (default [] (SASLInitialResponse.InitialClientResponse i))
      | inr (PSASLResponse d) => Some d
      | _ => None
      end
  | _ => None
  end.

(** Why credentials let a client in, given what was read from it. *)
Definition proven (rnd : random) (creds : Credentials) (l : list sev) : Prop :=
  match creds with
  | CredNil => True
  | CredMD5 VerifyMD5 =>
      exists salt pw p, rnd_salt rnd = inr salt /\ WP (of_packet (PAuthentication (Authentication.MD5Password salt))) ∈ l /\
        RP p ∈ l /\ concrete p = inr (PPasswordMessage pw) /\ VerifyMD5 salt pw = None
  | CredSASL _ VerifySASL =>
      exists p i tool, RP p ∈ l /\ concrete p = inr (PSASLInitialResponse i) /\
        VerifySASL (SASLInitialResponse.Mechanism i) = inr tool /\ accepts tool (omap client_data l)
  | CredOther => False
  end.

Lemma omap_data_write (s s' : Session C) p r : WritePacket p s = Ret (r, s') -> omap client_data (log s') = omap client_data (log s).
Proof. intros [_ ->]%WritePacket_Ret. rewrite omap_app. destruct r; by rewrite app_nil_r. Qed.

Lemma verify_Ret tool data (s s' : Session C) r :
  verify verifier_Write tool data s = Ret (inr r, s') ->
  s' = s /\ r.1.1 = (verifier_Write tool data).2 /\
  (verifier_Write tool data).1.2 = (if r.2 then Some EOF else None).
Proof.
  unfold verify. intros E. destruct ((verifier_Write tool data).1.2) as [e|]; [destruct e|]; try discriminate E; by injection E as <- <-.
Qed.

Lemma sasl_loop_sound fuel r (s s' : Session C) :
  sasl_loop verifier_Write fuel r s = Ret (inr tt, s') ->
  exists msgs, omap client_data (log s') = omap client_data (log s) ++ msgs /\
    if r.2 then msgs = [] else accepts r.1.1 msgs.
Proof.
  revert r s. induction fuel as [|fuel IH]; intros r s Er; [done|]. cbn [sasl_loop] in Er. destruct (r.2) eqn:Hd.
  { exists []. split; [|done]. rewrite app_nil_r. by eapply omap_data_write. }
  apply andthen_Ret in Er as [(? & _ & ?)|([] & s1 & E1 & Er)]; [done|]. apply omap_data_write in E1.
  apply andthen_Ret in Er as [(? & _ & ?)|(r2 & s3 & E2 & Er)]; [done|].
  apply IH in Er as (msgs & Hm & Hr). unfold authenticationSASLContinue in E2.
  apply andthen_Ret in E2 as [(? & _ & ?)|(p & s2 & E2 & E3)]; [done|]. apply ReadPacket_Ret in E2 as [_ L2].
  apply andthen_Ret in E3 as [(? & _ & ?)|(d & s2' & E3 & E4)]; [done|].
  apply to_concrete_ok in E3 as [-> (q & Ec & Eq)]. destruct q; simplify_eq/=.
  apply verify_Ret in E4 as (-> & Et & Ev). exists (d :: msgs). split.
  - rewrite Hm, L2, omap_app, E1. cbn. rewrite Ec. by rewrite <- app_assoc.
  - cbn. rewrite Ev. destruct (r2.2); [done|]. by rewrite <- Et.
Qed.

(** The events before the client is let in. *)
Definition not_ok (e : sev) : Prop := e <> WP (of_packet authOk).

Definition check (fuel : nat) (rnd : random) (creds : Credentials) : io (Session C) unit :=
  match creds with
  | CredNil => ret tt
  | CredSASL mechanisms v => authenticationSASL verifier_Write fuel mechanisms v
  | CredMD5 v => authenticationMD5 rnd v
  | CredOther => throw (fatal InternalError "Auth method not supported")
  end.

Lemma sasl_loop_quiet fuel r :
  each_event (C := C) not_ok (sasl_loop verifier_Write fuel r) /\ leaves (C := C) Authenticated (sasl_loop verifier_Write fuel r).
Proof.
  revert r. induction fuel as [|fuel IH]; intros r; [split; by intros ? ? ?|].
  split; cbn [sasl_loop]; unfold authenticationSASLContinue, verify.
  - each_solve; apply IH.
  - leaves_solve; apply IH.
Qed.

Lemma check_quiet fuel rnd creds :
  each_event not_ok (check fuel rnd creds) /\ leaves Authenticated (check fuel rnd creds).
Proof.
  unfold check, authenticationSASL, authenticationSASLInitial, authenticationMD5, verify, of_random.
  split; [each_solve|leaves_solve]; apply sasl_loop_quiet.
Qed.

Lemma check_sound fuel rnd creds (s s' : Session C) :
  log s = [] -> check fuel rnd creds s = Ret (inr tt, s') -> proven rnd creds (log s').
Proof.
  intros Hl Er. destruct creds as [|mechs v|v|]; cbn [check proven] in *; [done| | |done].
  - unfold authenticationSASL in Er. apply andthen_Ret in Er as [(? & _ & ?)|([] & s1 & E1 & Er)]; [done|].
    apply omap_data_write in E1. rewrite Hl in E1.
    apply andthen_Ret in Er as [(? & _ & ?)|(r & s3 & E2 & Er)]; [done|].
    destruct (proj1 (sasl_loop_quiet fuel r) _ _ _ Er) as (l3 & L3 & _). apply sasl_loop_sound in Er as (msgs & Hm & Hr).
    unfold authenticationSASLInitial in E2.
    apply andthen_Ret in E2 as [(? & _ & ?)|(p & s2 & E2 & E3)]; [done|]. apply ReadPacket_Ret in E2 as [_ L2].
    apply andthen_Ret in E3 as [(? & _ & ?)|(i & s2' & E3 & E4)]; [done|].
    apply to_concrete_ok in E3 as [-> (q & Ec & Eq)]. destruct q; simplify_eq/=.
    destruct (v _) as [|tool] eqn:Ev; [done|]. apply verify_Ret in E4 as (-> & Et & Ew).
    exists p, i, tool. split_and!; [rewrite L3, L2; set_solver|done..|].
    rewrite Hm, L2, omap_app, E1. cbn. rewrite Ec. cbn. rewrite Ew. destruct (r.2); [by subst|]. by rewrite <- Et.
  - unfold authenticationMD5, of_random in Er. destruct (rnd_salt rnd) as [|salt] eqn:Es; [done|].
    apply andthen_Ret in Er as [(? & _ & ?)|(salt' & s0 & [= <- <-] & Er)]; [done|].
    apply andthen_Ret in Er as [(? & _ & ?)|([] & s1 & E1 & Er)]; [done|]. apply WritePacket_Ret in E1 as [_ L1].
    apply andthen_Ret in Er as [(? & _ & ?)|(p & s2 & E2 & Er)]; [done|]. apply ReadPacket_Ret in E2 as [_ L2].
    apply andthen_Ret in Er as [(? & _ & ?)|(pw & s3 & E3 & Er)]; [done|].
    apply to_concrete_ok in E3 as [-> (q & Ec & Eq)]. destruct q; simplify_eq/=.
    destruct (v salt pw) eqn:Ev; [done|]. injection Er as <-. exists salt, pw, p. rewrite L2, L1. set_solver.
Qed.

Lemma proven_app rnd creds l l' :
  proven rnd creds l -> Forall (fun e => client_data e = None) l' -> proven rnd creds (l ++ l').
Proof.
  intros Hp Hl. assert (Eo : omap client_data (l ++ l') = omap client_data l).
  { rewrite omap_app. induction Hl as [|e l' He _ IH]; [apply app_nil_r|]. cbn. by rewrite He. }
  destruct creds; cbn [proven] in *; [done| |set_solver|done].
  destruct Hp as (p & i & tool & ? & ? & ? & ?). exists p, i, tool. rewrite Eo. set_solver.
Qed.

Lemma authenticate_proven fuel rnd creds (s s' : Session C) r :
  Authenticated s = false -> log s = [] -> authenticate verifier_Write fuel rnd creds s = Ret (r, s') ->
  (r = inr tt -> Authenticated s' = true) /\
  (Authenticated s' = true \/ WP (of_packet authOk) ∈ log s' -> proven rnd creds (log s')).
Proof.
  intros Ha Hl Er. apply andthen_Ret in Er as [(e & E1 & ->)|([] & s1 & E1 & Er)].
  { split; [done|]. destruct (proj1 (check_quiet fuel rnd creds) _ _ _ E1) as (l & L & Hq).
    apply (proj2 (check_quiet fuel rnd creds)) in E1. rewrite E1, Ha, L, Hl. intros [?|Hin]; [done|].
    rewrite Forall_forall in Hq. by apply Hq in Hin. }
  apply check_sound in E1 as Hp; [|done]. apply andthen_Ret in Er as [(e & E2 & ->)|([] & s2 & E2 & Er)].
  { apply WritePacket_Ret in E2 as [_ L]. rewrite L, app_nil_r. done. }
  apply WritePacket_Ret in E2 as [_ L2].
  assert (Hrest : each_event (C := C) (fun e => client_data e = None) (do pid <- of_random (rnd_pid rnd);
    do key <- of_random (rnd_key rnd);
    let k := mkKey (swrap 32 (of_be pid)) (swrap 32 (of_be key)) in
    update (set_key k) ;; WritePacket (PBackendKeyData (BackendKeyData.mk (ProcessID k) (SecretKey k)))))
    by (unfold of_random; each_solve).
  assert (Hau : leaves (C := C) Authenticated (do pid <- of_random (rnd_pid rnd);
    do key <- of_random (rnd_key rnd);
    let k := mkKey (swrap 32 (of_be pid)) (swrap 32 (of_be key)) in
    update (set_key k) ;; WritePacket (PBackendKeyData (BackendKeyData.mk (ProcessID k) (SecretKey k)))))
    by (unfold of_random; leaves_solve).
  apply andthen_Ret in Er as [(e & E3 & _)|([] & s3 & [= <-] & Er)]; [done|].
  apply Hau in Er as A3. apply Hrest in Er as (l & L3 & Hl3). split; [by rewrite A3|]. intros _.
  rewrite L3. simpl. rewrite L2, <- app_assoc. apply proven_app; [done|]. by constructor.
Qed.
End Sound.

(** *** What a client is taken to be *)
Section Identity.
Context {C : Type} `{ConnOps C} `{StartupOps C}.
Context (unicode_lower : gostring -> gostring) (SSLConfig : bool).
Import FrontendStartup.

(** The last value of a key. *)
Definition last_value (k : gostring) (l : list (gostring * gostring)) (d : gostring) : gostring :=
  foldl (fun v kv => if decide (kv.1 = k) then kv.2 else v) d l.

Definition identity (s : Session C) := (User s, Database s).
Definition not_params (s : Session C) := (wire s, Key s, Authenticated s, log s).

Lemma set_options_leaves fields :
  leaves identity (set_options unicode_lower fields) /\ leaves not_params (set_options unicode_lower fields).
Proof.
  remember (length fields) as n eqn:En. assert (Hn : length fields <= n) by lia. clear En. revert fields Hn.
  induction n as [|n IH]; intros [|f [|v l]] Hn; cbn [set_options length] in *; try lia;
    (split; leaves_solve; try (by intros ? ? ?)); apply IH; lia.
Qed.

Lemma set_parameters_leaves l u : leaves not_params (set_parameters unicode_lower l u).
Proof.
  revert u. induction l as [|[k v] l IH]; intros u; cbn [set_parameters]; leaves_solve; try apply IH. apply set_options_leaves.
Qed.

Lemma set_parameters_identity l u (s s' : Session C) r :
  set_parameters unicode_lower l u s = Ret (inr r, s') ->
  User s' = last_value (lit "user") l (User s) /\ Database s' = last_value (lit "database") l (Database s).
Proof.
  revert u s. induction l as [|[k v] l IH]; intros u s Er; cbn [set_parameters] in Er; [by injection Er as _ <-|].
  unfold last_value. cbn [foldl fst snd]. fold (last_value (lit "user") l) (last_value (lit "database") l).
  destruct (decide (k = lit "user")) as [->|]; [exact (IH _ _ Er)|].
  destruct (decide (k = lit "database")) as [->|]; [exact (IH _ _ Er)|].
  destruct (decide (k = lit "options")).
  { apply andthen_Ret in Er as [(? & _ & ?)|([] & s1 & E1 & Er)]; [done|].
    apply (proj1 (set_options_leaves _)) in E1. injection E1 as <- <-. exact (IH _ _ Er). }
  destruct (decide _); [done|]. destruct (HasPrefix _ _); exact (IH _ _ Er).
Qed.

(** [m], then on to the next round. *)
Lemma next_round (m : io (Session C) unit) (s s' : Session C) k done :
  each_event any_event m -> leaves identity m -> (m ;; ret (None : option BackendKey, false)) s = Ret (inr (k, done), s') ->
  k = None /\ done = false /\ identity s' = identity s /\ exists l, log s' = log s ++ l.
Proof.
  intros He Hi Er. apply andthen_Ret in Er as [(? & _ & ?)|([] & s1 & E1 & [= <- <- <-])]; [done|].
  apply He in E1 as Hl. destruct Hl as (l & ? & _). apply Hi in E1. split_and!; [done..|]. by exists l.
Qed.

(** One round. *)
Lemma startup0_result (s s' : Session C) k done :
  startup0 unicode_lower SSLConfig s = Ret (inr (k, done), s') ->
  exists p q rest, log s' = log s ++ RP p :: rest /\ concrete p = inr (PStartup q) /\
    match q with
    | Startup.ControlMode (Startup.Cancel pid secret) => k = Some (mkKey pid secret) /\ done = true /\ identity s' = identity s
    | Startup.ControlMode _ => k = None /\ done = false /\ identity s' = identity s
    | Startup.Version3 v l =>
        k = None /\ done = true /\ User s' = last_value (lit "user") l (User s) /\ User s' <> [] /\
        Database s' = (let d := last_value (lit "database") l (Database s) in if decide (d = []) then User s' else d)
    end.
Proof.
  intros Er. unfold startup0 in Er. apply andthen_Ret in Er as [(e & _ & ?)|(p & s1 & E1 & Er)]; [done|].
  apply ReadPacket_Ret in E1 as [(Hu & Hd & _) L1].
  apply andthen_Ret in Er as [(? & _ & ?)|(q & s2 & E3 & Er)]; [done|].
  apply to_concrete_ok in E3 as [-> (q' & Ec & Eq)]. destruct q'; simplify_eq/=. exists p, q.
  assert (Hid : identity s1 = identity s) by (unfold identity; by rewrite Hu, Hd).
  destruct q as [[pid secret| |]|v l]; cbv beta iota in Er.
  - injection Er as <- <- <-. exists []. by rewrite L1.
  - apply (next_round (WriteByte x4e)) in Er as (-> & -> & E2 & l & L2); [|each_step|leaves_step].
    exists l. by rewrite L2, L1, <- app_assoc, E2.
  - destruct SSLConfig; cbn [negb] in Er.
    + apply andthen_Ret in Er as [(? & _ & ?)|([] & s2 & E2 & Er)]; [done|].
      apply (leaves_write_byte identity) in E2 as I2; [|done].
      apply (each_write_byte any_event) in E2 as (l2 & L2 & _); [|done].
      apply (next_round (EnableSSL false)) in Er as (-> & -> & E3 & l & L3); [|each_step|leaves_step].
      exists (l2 ++ l). by rewrite L3, L2, L1, <- !app_assoc, E3, I2.
    + apply (next_round (WriteByte x4e)) in Er as (-> & -> & E2 & l & L2); [|each_step|leaves_step].
      exists l. by rewrite L2, L1, <- app_assoc, E2.
  - apply andthen_Ret in Er as [(? & _ & ?)|(u & s2 & E2 & Er)]; [done|].
    apply set_parameters_leaves in E2 as L2. injection L2 as _ _ _ L2.
    apply set_parameters_identity in E2 as [U2 D2]. rewrite Hu in U2. rewrite Hd in D2.
    apply andthen_Ret in Er as [(? & _ & ?)|([] & s3 & E3 & Er)]; [done|].
    assert (He : each_event (C := C) any_event (if negb (bool_decide (v = 0%Z)) || (0 <? length u)
       then WritePacket (PNegotiateProtocolVersion (NegotiateProtocolVersion.mk 0 u)) else ret tt)) by each_solve.
    assert (Hi : leaves (C := C) identity (if negb (bool_decide (v = 0%Z)) || (0 <? length u)
       then WritePacket (PNegotiateProtocolVersion (NegotiateProtocolVersion.mk 0 u)) else ret tt)) by leaves_solve.
    apply Hi in E3 as I3. apply He in E3 as (l3 & L3 & _). injection I3 as U3 D3.
    apply andthen_Ret in Er as [(? & _ & ?)|(s3' & ? & [= <- <-] & Er)]; [done|].
    destruct (decide (User s3 = [])) as [|Hne]; [done|].
    exists l3. rewrite U2 in U3. rewrite D2 in D3. rewrite <- D3. destruct (decide (Database s3 = [])); injection Er as <- <- <-; simpl;
      (split_and!; [by rewrite L3, L2, L1, <- app_assoc|done..]).
Qed.

Lemma accept0_result fuel (s s' : Session C) k :
  accept0 unicode_lower SSLConfig fuel s = Ret (inr k, s') ->
  exists l p rest q, log s' = log s ++ l ++ RP p :: rest /\ concrete p = inr (PStartup q) /\
    match q with
    | Startup.ControlMode (Startup.Cancel pid secret) => k = Some (mkKey pid secret)
    | Startup.ControlMode _ => False
    | Startup.Version3 v ps =>
        k = None /\ User s' = last_value (lit "user") ps (User s) /\ User s' <> [] /\
        Database s' = (let d := last_value (lit "database") ps (Database s) in if decide (d = []) then User s' else d)
    end.
Proof.
  revert s. induction fuel as [|fuel IH]; intros s Er; [done|]. cbn [accept0] in Er.
  apply andthen_Ret in Er as [(? & _ & ?)|([k1 d] & s1 & E1 & Er)]; [done|].
  apply startup0_result in E1 as (p & q & rest & L1 & Ec & Hq).
  destruct d; cbn [fst snd] in Er.
  - injection Er as <- <-. exists [], p, rest, q. split_and!; [done..|].
    destruct q as [[]|]; [apply Hq|by destruct Hq as (_ & ? & _)..|]. by destruct Hq as (-> & _ & Hq).
  - assert (I1 : identity s1 = identity s) by (destruct q as [[]|]; by destruct Hq as (? & ? & ?)).
    apply IH in Er as (l & p' & rest' & q' & L2 & Ec' & Hq'). injection I1 as <- <-.
    exists (RP p :: rest ++ l), p', rest', q'. split_and!; [|done..].
    rewrite L2, L1. simpl. by rewrite <- !app_assoc.
Qed.
End Identity.

(** ** A connection for the examples *)

(** Packets to read, bytes to read, whether TLS works. *)
Record Peer := mkPeer { peer_packets : Script; peer_bytes : list byte; peer_tls : bool }.

Definition peer_packets_to (c : Peer) (s : Script) : Peer := mkPeer s (peer_bytes c) (peer_tls c).

#[export] Instance peer_ops : ConnOps Peer := {|
  conn_read c := let r := script_read (peer_packets c) in Ret (r.1, peer_packets_to c r.2);
  conn_write c p := let r := script_write (peer_packets c) p in Ret (r.1, peer_packets_to c r.2)
|}.

#[export] Instance peer_startup : StartupOps Peer := {|
  read_byte c :=
    match peer_bytes c with
    | [] => (inl EOF, c)
    | b :: l => (inr b, mkPeer (peer_packets c) l (peer_tls c))
    end;
  write_byte c b := (None, c);
  enable_ssl c b := (if peer_tls c then None else Some EOF, c)
|}.

#[export] Program Instance peer_laws (rd wr : fpacket -> Prop) : ConnLaws Peer rd wr := {|
  conn_good c := Forall rd (rx (peer_packets c));
  remaining c := length (rx (peer_packets c))
|}.
Next Obligation.
  intros rd wr [[[|p l] w t] b ssl] Hg; cbn in *; [by do 2 eexists|].
  apply Forall_cons in Hg as [? ?]. eexists _, _. split; [done|]. cbn. split; [done|]. split; [lia|done].
Qed.
Next Obligation.
  intros rd wr [[l w t] b ssl] p Hg Hp; unfold conn_write, peer_ops, script_write; cbn.
  destruct w as [|[e|] w]; do 2 eexists; split_and!; done.
Qed.

#[export] Instance peer_startup_laws (rd wr : fpacket -> Prop) : StartupLaws Peer (rd := rd) (wr := wr).
Proof.
  split; intros [[l w t] b ssl]; cbn.
  - intros Hg. by destruct b.
  - done.
  - done.
Qed.

Definition peer_session (l : list fpacket) (bytes : list byte) : Session Peer :=
  mkSession (mkPeer (mkScript l [] []) bytes true) [] [] ∅ (mkKey 0 0) false [].

Module StartupTheorems.
Section Backends.
Context {C : Type} `{ConnLaws C back front} `{!StartupOps C} `{!StartupLaws C}.
Context (unicode_lower : gostring -> gostring).
Context {E : Type} (encoder_Write : E -> list byte -> (option (list byte) * option error) * E).
Import BackendStartup.

(** C16: Connecting to a server ends: with the packets the server sends as fuel,
    accept returns.  If the SSL mode requires TLS, then whether it succeeds or
    not, and whatever the server answers, nothing but the SSLRequest has been
    sent in the clear: no user name, no password. *)
Theorem ssl_required_confidential fuel (o : @acceptOptions E) (s : Session C) :
  session_good s -> session_remaining s < fuel -> log s = [] ->
  exists r s', BackendStartup.accept unicode_lower encoder_Write fuel o s = Ret (r, s') /\
    (IsRequired (sslMode o) = true -> confidential (log s')).
Proof.
  intros Hg Hf Hl. destruct (accept_fine unicode_lower encoder_Write fuel o s Hg Hf) as (r & s' & Er & _).
  exists r, s'. split; [done|]. intros Hreq. by eapply accept_confidential.
Qed.

(** Connecting to a server succeeds only after the startup packet was written,
    the server said AuthenticationOk and then, after nothing but parameters, its
    key and notices, ReadyForQuery; the connection then has the last value the
    server gave of each parameter, by its case-insensitive name, and its key. *)
Theorem server_ready fuel (o : @acceptOptions E) (s s' : Session C) :
  BackendStartup.accept unicode_lower encoder_Write fuel o s = Ret (inr tt, s') ->
  Authenticated s' = true /\
  exists l p ps z, log s' = log s ++ l ++ RP p :: map RP (ps ++ [z]) /\
    WP (of_packet (startup_packet o)) ∈ l /\
    concrete p = inr (PAuthentication Authentication.Ok) /\ ptype z = ReadyForQuery.Type_ /\
    announced s' = foldl (announce unicode_lower) (announced s) ps.
Proof. apply accept_ready. Qed.
End Backends.

Section Frontends.
Context {C : Type} `{ConnLaws C startup_ok back} `{!StartupOps C} `{!StartupLaws C}.
Context (unicode_lower : gostring -> gostring) (error_text : error -> gostring) (SSLConfig : bool).
Import FrontendStartup.

(** Accepting a client ends.  It succeeds in two ways only: the client's last
    packet is a cancel request, whose key is the result; or it is a startup
    packet, and then the user is the last one it names and not empty, and the
    database the last one it names or, without one, the user.  For clients whose
    options have a value after every -c. *)
Theorem client_identity fuel (s : Session C) :
  session_good s -> session_remaining s < fuel ->
  exists r s', FrontendStartup.accept unicode_lower error_text SSLConfig fuel s = Ret (r, s') /\
    forall k, r = inr k ->
    exists l p rest q, log s' = log s ++ l ++ RP p :: rest /\ concrete p = inr (PStartup q) /\
      match q with
      | Startup.ControlMode (Startup.Cancel pid secret) => k = Some (mkKey pid secret)
      | Startup.ControlMode _ => False
      | Startup.Version3 v ps =>
          k = None /\ User s' = last_value (lit "user") ps (User s) /\ User s' <> [] /\
          Database s' = (let d := last_value (lit "database") ps (Database s) in if decide (d = []) then User s' else d)
      end.
Proof.
  intros Hg Hf. destruct (frontend_accept_fine unicode_lower error_text SSLConfig fuel s Hg Hf) as (r & s' & Er & _).
  exists r, s'. split; [done|]. intros k ->. unfold FrontendStartup.accept in Er. inv_ret. destruct x as [[e|k'] s1]; cbn in Er.
  - inv_ret. by simplify_eq.
  - simplify_eq. by eapply accept0_result.
Qed.
End Frontends.

(** A client that has not authenticated can crash the process: a startup packet
    whose options end in a flag -c without a value makes accept index past the end
    of the fields. *)
Theorem startup_options_panics (unicode_lower : gostring -> gostring) (error_text : error -> gostring) (SSLConfig : bool)
    (fuel : nat) (v : Z) (params : list (gostring * gostring)) (l : list fpacket) (bytes : list byte) :
  FrontendStartup.accept unicode_lower error_text SSLConfig (S fuel)
    (peer_session (of_packet (PStartup (Startup.Version3 v ((lit "options", lit "-c") :: params))) :: l) bytes) = Panic.
Proof. reflexivity. Qed.

Section Auth.
Context {C : Type} {rd : fpacket -> Prop} `{ConnLaws C rd back} `{!StartupOps C} `{!StartupLaws C}.
Context {V : Type} (verifier_Write : V -> list byte -> (list byte * option error) * V).
Import FrontendAuth.

(** C15: Authenticating a client ends, and lets it in only if it has proven who it
    is: the connection is authenticated, or AuthenticationOk was sent, only if
    there are no credentials to check, or the password read answers the salt that
    was sent, or the SASL verifier of the mechanism the client chose took the
    client's messages, in order, to its end. *)
Theorem authenticate_sound fuel rnd (creds : @Credentials V) (s : Session C) :
  session_good s -> session_remaining s < fuel -> Authenticated s = false -> log s = [] ->
  exists r s', Authenticate verifier_Write fuel rnd creds s = Ret (r, s') /\
    (r = inr tt -> Authenticated s' = true) /\
    (Authenticated s' = true \/ WP (of_packet authOk) ∈ log s' -> proven verifier_Write rnd creds (log s')).
Proof.
  intros Hg Hf Ha Hl. destruct (authenticate_fine verifier_Write fuel rnd creds s Hg Hf) as (r & s' & Er & _).
  exists r, s'. split; [done|]. unfold Authenticate in Er. rewrite Ha in Er. by eapply authenticate_proven.
Qed.
End Auth.

(** *** Examples *)

Definition ex_creds : @BackendStartup.Credentials unit := BackendStartup.mkCredentials (Some (lit "pw")) None None.
Definition ex_options : BackendStartup.acceptOptions :=
  BackendStartup.mkOptions "require"%string (lit "app") ex_creds [] [].
Definition ex_encoder (e : unit) (d : list byte) : (option (list byte) * option error) * unit := ((None, None), e).

(** A server that takes TLS, asks for a password and is then ready. *)
Definition ex_server : Session Peer := peer_session
  [of_packet (PAuthentication Authentication.CleartextPassword); of_packet (PAuthentication Authentication.Ok);
   of_packet (PParameterStatus (ParameterStatus.mk (lit "TimeZone") (lit "UTC")));
   of_packet (PBackendKeyData (BackendKeyData.mk 7 42)); of_packet (PReadyForQuery x49)] [x53].

Lemma ex_server_good : session_good (rd := back) (wr := front) ex_server.
Proof. unfold session_good. cbn. repeat (apply Forall_cons; split; [by intros q [= <-]|]). constructor. Qed.

Lemma ssl_required_confidential_witness :
  exists r s', BackendStartup.accept (fun s => s) ex_encoder 9 ex_options ex_server = Ret (r, s') /\
    (IsRequired (BackendStartup.sslMode ex_options) = true -> confidential (log s')).
Proof.
  apply (ssl_required_confidential (fun s => s) ex_encoder 9 ex_options ex_server);
    [apply ex_server_good|vm_compute; lia|reflexivity].
Defined.

Lemma server_ready_witness :
  exists s', BackendStartup.accept (fun s => s) ex_encoder 9 ex_options ex_server = Ret (inr tt, s') /\ Authenticated s' = true.
Proof.
  eexists. split; [vm_compute; reflexivity|].
  refine (proj1 (server_ready (fun s => s) ex_encoder 9 ex_options ex_server _ _)). vm_compute; reflexivity.
Defined.

(** A client that asks for TLS and names a user. *)
Definition ex_client : Session Peer := peer_session
  [of_packet (PStartup (Startup.ControlMode Startup.SSL));
   of_packet (PStartup (Startup.Version3 0 [(lit "user", lit "app"); (lit "options", lit "-c a=b")]))] [].

Lemma ex_client_good : session_good (rd := startup_ok) (wr := back) ex_client.
Proof.
  unfold session_good. cbn. apply Forall_cons; split; [by intros v l|]. apply Forall_cons; split; [|constructor].
  intros v l [= <- <-] w Hw. rewrite !elem_of_cons in Hw. destruct Hw as [[=]|[[= ->]|[]%elem_of_nil]]. by vm_compute.
Qed.

Lemma client_identity_witness :
  exists r s', FrontendStartup.accept (fun s => s) (fun _ => []) true 9 ex_client = Ret (r, s') /\
    forall k, r = inr k -> exists l p rest q, log s' = log ex_client ++ l ++ RP p :: rest /\ concrete p = inr (PStartup q) /\
      match q with
      | Startup.ControlMode (Startup.Cancel pid secret) => k = Some (mkKey pid secret)
      | Startup.ControlMode _ => False
      | Startup.Version3 v ps =>
          k = None /\ User s' = last_value (lit "user") ps (User ex_client) /\ User s' <> [] /\
          Database s' = (let d := last_value (lit "database") ps (Database ex_client) in if decide (d = []) then User s' else d)
      end.
Proof.
  apply (client_identity (fun s => s) (fun _ => []) true 9 ex_client); [apply ex_client_good|vm_compute; lia].
Defined.

(** A client that sends the right password, and a check of it. *)
Definition ex_login : Session Peer := peer_session [of_packet (PPasswordMessage (lit "pw"))] [].
Definition ex_random : FrontendAuth.random := FrontendAuth.mkRandom (inr [x01; x02; x03; x04]) (inr [x00; x00; x00; x07]) (inr [xff; xff; xff; xff]).
Definition ex_md5 : @FrontendAuth.Credentials unit :=
  FrontendAuth.CredMD5 (fun salt pw => if decide (pw = lit "pw") then None else Some (ErrOther 1)).
Definition ex_verifier (v : unit) (d : list byte) : (list byte * option error) * unit := (([], Some EOF), v).

Lemma authenticate_sound_witness :
  exists r s', FrontendAuth.Authenticate ex_verifier 9 ex_random ex_md5 ex_login = Ret (r, s') /\
    (r = inr tt -> Authenticated s' = true) /\
    (Authenticated s' = true \/ WP (of_packet FrontendAuth.authOk) ∈ log s' -> proven ex_verifier ex_random ex_md5 (log s')).
Proof.
  apply (authenticate_sound (rd := fun _ => True) ex_verifier 9 ex_random ex_md5 ex_login);
    [unfold session_good; cbn; repeat constructor|vm_compute; lia|reflexivity|reflexivity].
Defined.
End StartupTheorems.
