(* ===== verification/Containers.v ===== *)
(** * Containers: lib/util/maps, lib/util/flip, lib/util/pools/log2.go and
      lib/util/strutil/cut.go

    The small containers.  A Go map may be nil: it is an option of a map, nil
    reads like the empty map, and the methods that write make it.  A method under
    a lock is one step; [Range] gives the lock back around each call of its
    function, which may therefore change the map: the function passes it on. *)

From Stdlib Require Import Init.Byte Strings.Byte.
From S2P Require Import Prelude.
From S2P Require Import Slices.
From S2P Require Import Wire.
From S2P Require Import Packets.
From S2P Require Import Strutil.
From S2P Require Import Startup.

Local Open Scope go_scope.

(** ** clone.go, clear.go *)
Section Maps.
Context {K V : Type} `{Countable K}.

(** Reading a map, nil or not. *)
Definition contents (m : option (gmap K V)) : gmap K V := default ∅ m.

(** The loops, in the order of the range over [m]. *)
Definition Clear (order : gmap K V -> list (K * V)) (m : option (gmap K V)) : option (gmap K V) :=
  (fun m => foldl (fun m kv => delete kv.1 m) m (order m)) <$> m.
Definition Clone (order : gmap K V -> list (K * V)) (m : option (gmap K V)) : option (gmap K V) :=
  match m with
  | None => None
  | Some m => Some (foldl (fun m2 kv => <[kv.1 := kv.2]> m2) ∅ (order m))
  end.

Section Order.
Context (order : gmap K V -> list (K * V)) (order_all : forall m, order m ≡ₚ map_to_list m).

Lemma delete_all_lookup (l : list (K * V)) (m : gmap K V) k :
  foldl (fun m kv => delete kv.1 m) m l !! k = if decide (k ∈ l.*1) then None else m !! k.
Proof.
  revert m. induction l as [|[k' v] l IH]; intros m; cbn; [by rewrite decide_False by set_solver|].
  rewrite IH. destruct (decide (k ∈ l.*1)); [by rewrite decide_True by set_solver|].
  destruct (decide (k = k')) as [->|Hne].
  - by rewrite lookup_delete_eq, decide_True by set_solver.
  - by rewrite lookup_delete_ne, decide_False by set_solver.
Qed.

(** Clear leaves an empty map. *)
Lemma Clear_empty (m : option (gmap K V)) : contents (Clear order m) = ∅.
Proof using order_all.
  destruct m as [m|]; [|done]. cbn. apply map_eq. intros k. rewrite delete_all_lookup, lookup_empty.
  case_decide as Hk; [done|]. apply eq_None_not_Some. intros [v Hv]. apply Hk.
  apply list_elem_of_fmap. exists (k, v). split; [done|]. rewrite order_all. by apply elem_of_map_to_list.
Qed.

(** Clone copies the map, nil as nil. *)
Lemma Clone_same (m : option (gmap K V)) : Clone order m = m.
Proof using order_all.
  destruct m as [m|]; [|done]. cbn. f_equal.
  transitivity (list_to_map (M := gmap K V) (rev (order m))).
  - induction (order m) as [|kv l IH] using rev_ind; [done|]. rewrite foldl_app, rev_app_distr. cbn. by rewrite IH.
  - assert (Hp : rev (order m) ≡ₚ map_to_list m) by (by rewrite <- Permutation_rev, order_all).
    rewrite (list_to_map_proper _ (map_to_list m)); [apply list_to_map_to_list| |done].
    rewrite Hp. apply NoDup_fst_map_to_list.
Qed.
End Order.
End Maps.

(** ** rwlocked.go *)
Module RWLocked.
Section RWLocked.
Context {K V : Type} `{Countable K}.

Record t := mk { inner : option (gmap K V) }.
Implicit Types T : t.

Definition Delete (key : K) T : t := mk (delete key <$> inner T).
Definition Load (key : K) T : option V := contents (inner T) !! key.
Definition LoadAndDelete (key : K) T : option V * t := (contents (inner T) !! key, mk (delete key <$> inner T)).
Definition LoadOrStore (key : K) (value : V) T : (V * bool) * t :=
  match contents (inner T) !! key with
  | Some actual => ((actual, true), T)
  | None => ((value, false), mk (Some (<[key := value]> (contents (inner T)))))
  end.
Definition Store (key : K) (value : V) T : t := mk (Some (<[key := value]> (contents (inner T)))).
Definition Swap (key : K) (value : V) T : option V * t :=
  (contents (inner T) !! key, mk (Some (<[key := value]> (contents (inner T))))).
Definition Len T : nat := size (contents (inner T)).
Definition Clear (order : gmap K V -> list (K * V)) T : t := mk (Containers.Clear order (inner T)).

(** The range visits the keys in some order, a key that has gone meanwhile not at
    all; [fn] runs without the lock and is given the map. *)
Fixpoint Range {W : Type} (fn : K -> V -> W * t -> bool * (W * t)) (order : list K) (s : W * t) : bool * (W * t) :=
  match order with
  | [] => (true, s)
  | k :: order =>
      match Load k s.2 with
      | None => Range fn order s
      | Some v =>
          let '(go, s) := fn k v s in
          if negb go then (false, s) else Range fn order s
      end
  end.

(** What the operations are on finite maps. *)
Inductive op := OLoad (k : K) | OLoadAndDelete (k : K) | OLoadOrStore (k : K) (v : V) | OStore (k : K) (v : V) | OSwap (k : K) (v : V) | ODelete (k : K).

Definition run (o : op) T : (option V * bool) * t :=
  match o with
  | OLoad k => ((Load k T, bool_decide (is_Some (Load k T))), T)
  | OLoadAndDelete k => let '(v, T') := LoadAndDelete k T in ((v, bool_decide (is_Some v)), T')
  | OLoadOrStore k v => let '((a, loaded), T') := LoadOrStore k v T in ((Some a, loaded), T')
  | OStore k v => ((None, false), Store k v T)
  | OSwap k v => let '(p, T') := Swap k v T in ((p, bool_decide (is_Some p)), T')
  | ODelete k => ((None, false), Delete k T)
  end.

Definition spec (o : op) (m : gmap K V) : (option V * bool) * gmap K V :=
  match o with
  | OLoad k => ((m !! k, bool_decide (is_Some (m !! k))), m)
  | OLoadAndDelete k => ((m !! k, bool_decide (is_Some (m !! k))), delete k m)
  | OLoadOrStore k v => ((Some (default v (m !! k)), bool_decide (is_Some (m !! k))), <[k := default v (m !! k)]> m)
  | OStore k v => ((None, false), <[k := v]> m)
  | OSwap k v => ((m !! k, bool_decide (is_Some (m !! k))), <[k := v]> m)
  | ODelete k => ((None, false), delete k m)
  end.

(** Every operation of the locked map is that of a finite map, whether the map has
    been made or not. *)
Lemma rwlocked_run_spec o T : ((run o T).1, contents (inner (run o T).2)) = spec o (contents (inner T)).
Proof.
  destruct T as [m]. assert (Hd : forall k, contents (delete k <$> m) = delete k (contents m))
    by (intros k; destruct m; cbn; [done|by rewrite delete_empty]).
  unfold contents in *. destruct o as [k|k|k v|k v|k v|k]; cbn; rewrite ?Hd; try done.
  unfold LoadOrStore, contents. cbn. destruct (default ∅ m !! k) eqn:Hk; cbn; [|done].
  by rewrite insert_id by done.
Qed.
End RWLocked.
Arguments t K V {_ _}.
End RWLocked.

(** ** 2key.go *)
Module TwoKey.
Section TwoKey.
Context {K1 K2 V : Type} `{Countable K1} `{Countable K2}.

Record t := mk { inner : option (gmap (K1 * K2) V) }.
Implicit Types T : t.
Definition empty : t := mk None.

Definition Delete (k1 : K1) (k2 : K2) T : t := mk (delete (k1, k2) <$> inner T).
Definition Load (k1 : K1) (k2 : K2) T : option V := contents (inner T) !! (k1, k2).
Definition Store (k1 : K1) (k2 : K2) (value : V) T : t := mk (Some (<[(k1, k2) := value]> (contents (inner T)))).
Fixpoint Range {W : Type} (fn : K1 -> K2 -> V -> W -> bool * W) (order : list ((K1 * K2) * V)) (w : W) : bool * W :=
  match order with
  | [] => (true, w)
  | (keys, value) :: order =>
      let '(go, w) := fn keys.1 keys.2 value w in
      if negb go then (false, w) else Range fn order w
  end.

Lemma Load_empty k1 k2 : Load k1 k2 empty = None.
Proof. done. Qed.
Lemma Load_Store k1 k2 k1' k2' v T :
  Load k1 k2 (Store k1' k2' v T) = if decide ((k1, k2) = (k1', k2')) then Some v else Load k1 k2 T.
Proof.
  unfold Load, Store. cbn. case_decide as Hk; [rewrite Hk; by apply lookup_insert_eq|by rewrite lookup_insert_ne].
Qed.
Lemma Load_Delete k1 k2 k1' k2' T :
  Load k1 k2 (Delete k1' k2' T) = if decide ((k1, k2) = (k1', k2')) then None else Load k1 k2 T.
Proof.
  unfold Load, Delete. destruct T as [[m|]]; cbn; [|by case_decide].
  case_decide as Hk; [rewrite Hk; by apply lookup_delete_eq|by rewrite lookup_delete_ne].
Qed.
End TwoKey.
Arguments t K1 K2 V {_ _ _ _}.
End TwoKey.

(** ** bank.go *)
Module Bank.
Section Bank.
Context {E : Type}.

(** The pending functions, by what they return. *)
Definition Queue (fn : option E) (T : list (option E)) : list (option E) := T ++ [fn].

Fixpoint first_error (arrived : list (option E)) : option E :=
  match arrived with
  | [] => None
  | Some err :: _ => Some err
  | None :: arrived => first_error arrived
  end.

(** The results come out of the channel in the order in which they were sent. *)
Definition Wait (arrival : list (option E) -> list (option E)) (T : list (option E)) : option E :=
  match T with
  | [] => None
  | [fn] => fn
  | _ => first_error (arrival T)
  end.

Lemma first_error_None l : first_error l = None <-> Forall (fun r => r = None) l.
Proof. induction l as [|[e|] l IH]; cbn; rewrite ?Forall_cons, ?Forall_nil, ?IH; naive_solver. Qed.
Lemma first_error_In l e : first_error l = Some e -> Some e ∈ l.
Proof. induction l as [|[e'|] l IH]; cbn; [done|intros [= ->]; by left|intros ?; right; auto]. Qed.

(** Wait is nil only if every function went well, and otherwise the error of one. *)
Lemma Wait_spec arrival T : (forall l, arrival l ≡ₚ l) ->
  match Wait arrival T with
  | None => Forall (fun r => r = None) T
  | Some e => Some e ∈ T
  end.
Proof.
  intros Hp. destruct T as [|r [|r' T]]; cbn; [constructor|destruct r; [by left|by repeat constructor]|].
  destruct (first_error _) as [e|] eqn:He.
  - apply first_error_In in He. by rewrite Hp in He.
  - apply first_error_None in He. by rewrite Hp in He.
Qed.
End Bank.
End Bank.

(** ** log2.go: slices to reuse, by the logarithm of their capacity *)
Module Log2.
Section Log2.
Context {A : Type} `{Zero A}.
Local Open Scope Z_scope.

(** bits.Len32 and bits.TrailingZeros32 of a uint32. *)
Definition Len32 (x : Z) : Z := if decide (x = 0) then 0 else Z.log2 x + 1.
Fixpoint trailing (n : nat) (x : Z) : Z :=
  match n with
  | O => 0
  | S n => if Z.testbit x 0 then 0 else 1 + trailing n (Z.shiftr x 1)
  end.
Definition TrailingZeros32 (x : Z) : Z := trailing 32 x.

Definition clear (s : slice A) : slice A := Slice (replicate (len s) zero ++ drop (len s) (arr s)) (len s).

(** [pools] has 32 elements. *)
Definition Get (length : Z) (L : list (list (slice A))) : outcome (option (slice A) * list (list (slice A))) :=
  if decide (length = 0) then Ret (None, L)
  else
    let log2 := Z.to_nat (Len32 ((length - 1) mod 2 ^ 32)) in
    let! p := deref (L !! log2) in
    match Pool.Get p with
    | (Some v, p) => Ret (Some (clear (Resize v (Z.to_nat length))), <[log2 := p]> L)
    | (None, p) =>
        let capacity := Z.to_nat (Z.shiftl 1 (Z.of_nat log2)) in
        Ret (Some (Slice (replicate capacity zero) (Z.to_nat length)), <[log2 := p]> L)
    end.

Definition Put (v : slice A) (L : list (list (slice A))) : outcome (list (list (slice A))) :=
  if decide (cap v = 0)%nat then Ret L
  else
    let log2 := Z.to_nat (TrailingZeros32 (Z.of_nat (cap v) mod 2 ^ 32)) in
    let! p := deref (L !! log2) in Ret (<[log2 := Pool.Put p v]> L).

Definition pools_ok (L : list (list (slice A))) : Prop := length L = 32%nat /\ Forall (Forall slice_wf) L.

(** The slice of a Get has the length asked for, is full of zeros whatever it held
    before, and a negative length panics. *)
Lemma Get_zeroed n L : pools_ok L -> 0 < n -> n <= 2 ^ 31 ->
  exists v L', Get n L = Ret (Some v, L') /\ elems v = replicate (Z.to_nat n) zero /\ slice_wf v /\ pools_ok L'.
Proof.
  intros [Hl Hw] Hn Hb. unfold Get. rewrite decide_False by lia. rewrite Z.mod_small by lia.
  assert (Hlog : 0 <= Len32 (n - 1) <= 31 /\ n <= 2 ^ Len32 (n - 1)).
  { unfold Len32. case_decide; [split; lia|].
    destruct (Z.log2_spec (n - 1)) as [_ Hlt]; [lia|]. pose proof (Z.log2_nonneg (n - 1)).
    assert (Z.log2 (n - 1) < 31) by (apply Z.log2_lt_pow2; lia). rewrite <- Z.add_1_r in Hlt. lia. }
  destruct Hlog as [Hr Hp]. set (k := Z.to_nat (Len32 (n - 1))).
  destruct (lookup_lt_is_Some_2 L k) as [p Hk]; [rewrite Hl; lia|]. rewrite Hk. cbn.
  assert (Hpw : Forall slice_wf p) by (by eapply Forall_lookup_1 in Hw).
  destruct (Pool.Get p) as [[v|] p'] eqn:Hg.
  - pose proof (Pool.Get_Some _ _ _ Hg) as ->. apply Forall_app in Hpw as [Hp' [Hv _]%Forall_cons].
    destruct (Resize_spec v (Z.to_nat n) Hv) as (_ & Hlen & Hwf).
    do 2 eexists. split; [done|]. unfold clear, elems, slice_wf, cap in *. cbn. rewrite Hlen in *.
    split_and!.
    + by rewrite take_app_le, take_replicate, Nat.min_id by (rewrite length_replicate; lia).
    + rewrite length_app, length_replicate, length_drop. lia.
    + split; [by rewrite length_insert|by apply Forall_insert].
  - unfold Pool.Get in Hg. destruct (last p); [done|]. injection Hg as <-.
    do 2 eexists. split; [done|]. unfold elems, slice_wf, cap. cbn. rewrite length_replicate.
    assert (Hc : (Z.to_nat n <= Z.to_nat (Z.shiftl 1 (Z.of_nat k)))%nat).
    { rewrite Z.shiftl_1_l. unfold k. rewrite Z2Nat.id by lia. apply Z2Nat.inj_le; lia. }
    split_and!; [by rewrite take_replicate, Nat.min_l by lia|lia|split; [by rewrite length_insert|by apply Forall_insert]].
Qed.

Lemma Get_negative n L : pools_ok L -> - 2 ^ 31 < n < 0 -> Get n L = Panic.
Proof.
  intros [Hl _] Hn. unfold Get. rewrite decide_False by lia.
  assert (E : Len32 ((n - 1) mod 2 ^ 32) = 32).
  { unfold Len32. replace ((n - 1) mod 2 ^ 32) with (n - 1 + 2 ^ 32) by (apply (Z.mod_unique _ _ (-1)); lia).
    rewrite decide_False by lia. rewrite (Z.log2_unique _ 31); [done|lia|change (Z.succ 31) with 32; lia]. }
  rewrite E, (proj2 (lookup_ge_None L _)) by (rewrite Hl; lia). done.
Qed.
End Log2.
End Log2.

(** ** cut.go *)
Fixpoint cut (s sep : gostring) : option (gostring * gostring) :=
  if HasPrefix s sep then Some ([], drop (length sep) s)
  else match s with
       | [] => None
       | b :: s => (fun p => (b :: p.1, p.2)) <$> cut s sep
       end.
(** strings.LastIndex *)
Fixpoint LastIndex (s sep : gostring) : option nat :=
  match s with
  | [] => if decide (sep = []) then Some 0 else None
  | b :: s' =>
      match LastIndex s' sep with
      | Some i => Some (S i)
      | None => if HasPrefix s sep then Some 0 else None
      end
  end.

Definition CutLeft (s sep : gostring) : gostring * gostring * bool :=
  match cut s sep with
  | Some (before, after) => (before, after, true)
  | None => ([], s, false)
  end.
Definition CutRight (s sep : gostring) : gostring * gostring * bool :=
  match LastIndex s sep with
  | Some i => (take i s, drop (i + length sep) s, true)
  | None => (s, [], false)
  end.

Lemma HasPrefix_eq s p : HasPrefix s p = true <-> exists t, s = p ++ t.
Proof.
  unfold HasPrefix. rewrite bool_decide_eq_true. split.
  - intros E. exists (drop (length p) s). rewrite <- E at 1. by rewrite take_drop.
  - intros [t ->]. by rewrite take_app_length.
Qed.
Lemma cut_Some s sep b a : cut s sep = Some (b, a) -> s = b ++ sep ++ a.
Proof.
  revert b. induction s as [|c s IH]; intros b; cbn [cut]; destruct (HasPrefix _ sep) eqn:Hp.
  1,3: intros [= <- <-]; apply HasPrefix_eq in Hp as [t Ht]; cbn [app]; by rewrite Ht, drop_app_length.
  - done.
  - intros Hf. apply fmap_Some in Hf as ([b' a'] & Hc & E). injection E as -> ->. cbn. by rewrite (IH _ Hc).
Qed.
Lemma LastIndex_Some s sep i : LastIndex s sep = Some i -> s = take i s ++ sep ++ drop (i + length sep) s.
Proof.
  revert i. induction s as [|c s IH]; intros i; cbn [LastIndex].
  - case_decide as Hs; [|done]. intros [= <-]. by rewrite Hs.
  - destruct (LastIndex s sep) as [j|]; [intros [= <-]; cbn [take drop Nat.add app]; f_equal; by apply IH|].
    destruct (HasPrefix _ sep) eqn:Hp; [|done]. intros [= <-]. apply HasPrefix_eq in Hp as [t Ht].
    cbn [take app Nat.add]. by rewrite Ht, drop_app_length.
Qed.

(** Whatever the side, the parts and the separator make up the string; without the
    separator the string is all after it or all before it. *)
Lemma cuts_join s sep :
  (let '(b, a, found) := CutLeft s sep in s = if found then b ++ sep ++ a else b ++ a) /\
  (let '(b, a, found) := CutRight s sep in s = if found then b ++ sep ++ a else b ++ a).
Proof.
  unfold CutLeft, CutRight. split.
  - destruct (cut s sep) as [[b a]|] eqn:Hc; [by apply cut_Some|done].
  - destruct (LastIndex s sep) eqn:Hc; [by apply LastIndex_Some|by rewrite app_nil_r].
Qed.
