(* ===== verification/Report.v ===== *)
(** * Report: lib/gat/metrics/pool.go, state.go, ReadMetrics of the pools and of the handlers

    What the statistics loop of the app logs: the pools add their servers and
    clients to a metrics.Pool, whose String is logged and which is then cleared.
    Floats are parameters: [ratio a b] is [float64(a) / float64(b)], [blank u] is
    [u == 0.0 || math.IsNaN(u)] and [percent u] the text of [u*100] with two
    decimals. *)

From Stdlib Require Import Init.Byte Strings.Byte Strings.String.
From S2P Require Import Prelude.
From S2P Require Import Chan.
From S2P Require Import Metrics.
From S2P Require Import Wire.
From S2P Require Import Packets.
From S2P Require Import Strutil.
From S2P Require Import Encodings.
From S2P Require Import Startup.
From S2P Require Import Containers.

Local Open Scope Z_scope.

Section Text.
Context {F : Type} (ratio : Z -> Z -> F) (blank : F -> bool) (percent : F -> gostring).

Definition ConnState_String (T : ConnState) : gostring :=
  lit match T with
      | ConnStateIdle => "idle"
      | ConnStateActive => "active"
      | ConnStateAwaitingServer => "awaiting server"
      | ConnStatePairing => "pairing"
      | ConnStateRunningResetQuery => "running reset query"
      end.

(** The sums of connStateUtils. *)
Definition spent (items : gmap uuid Conn) (st : ConnState) : Z := map_fold (fun _ c n => n + Utilization c st) 0 items.
Definition spent_total (items : gmap uuid Conn) : Z := map_fold (fun _ c n => n + total (Utilization c)) 0 items.
Definition connStateUtils (items : gmap uuid Conn) (st : ConnState) : F := ratio (spent items st) (spent_total items).

Definition util_entry (count : ConnState -> nat) (util : ConnState -> F) (st : ConnState) : gostring :=
  Strconv.Itoa (Z.of_nat (count st)) ++ lit " " ++ ConnState_String st ++ lit " (" ++ percent (util st) ++ lit "%)".
Fixpoint util_loop (count : ConnState -> nat) (util : ConnState -> F) (l : list ConnState) (addSpace : bool) (b : gostring) : gostring :=
  match l with
  | [] => b
  | st :: l =>
      if blank (util st) then util_loop count util l addSpace b
      else util_loop count util l true (b ++ (if addSpace then lit ", " else []) ++ util_entry count util st)
  end.
Definition connStateUtilString (count : ConnState -> nat) (util : ConnState -> F) : gostring := util_loop count util states false [].

Definition Pool_String (T : PoolMetrics) : gostring :=
  let text items := lit " (" ++ connStateUtilString (connStateCounts items) (connStateUtils items) ++ lit ")" in
  Strconv.Itoa (Pool_TransactionCount T) ++ lit " transactions | " ++
  Strconv.Itoa (Z.of_nat (size (Servers T))) ++ lit " servers" ++ text (Servers T) ++ lit " | " ++
  Strconv.Itoa (Z.of_nat (size (Clients T))) ++ lit " clients" ++ text (Clients T).

Definition Pool_Clear (order : gmap uuid Conn -> list (uuid * Conn)) (T : PoolMetrics) : PoolMetrics :=
  mkPoolMetrics (contents (Containers.Clear order (Some (Servers T)))) (contents (Containers.Clear order (Some (Clients T)))).

(** ** The line of a report *)
Fixpoint joined (l : list gostring) : gostring :=
  match l with
  | [] => []
  | [s] => s
  | s :: l => s ++ lit ", " ++ joined l
  end.

Lemma util_loop_joined count util l b : util_loop count util l true b =
  b ++ concat ((fun st => lit ", " ++ util_entry count util st) <$> filter (fun st => blank (util st) = false) l).
Proof.
  revert b. induction l as [|st l IH]; intros b; [by rewrite app_nil_r|]. cbn [util_loop].
  rewrite filter_cons. destruct (blank (util st)) eqn:E; [rewrite decide_False by done; apply IH|].
  rewrite decide_True by done. rewrite IH, <- app_assoc. done.
Qed.
Lemma joined_cons s l : joined (s :: l) = s ++ concat ((fun x => lit ", " ++ x) <$> l).
Proof. revert s. induction l as [|x l IH]; intros s; [by rewrite app_nil_r|]. change (joined (s :: x :: l)) with (s ++ lit ", " ++ joined (x :: l)). rewrite IH. done. Qed.

(** The text has an entry for each state in which time was spent, in the order of
    the states, with the number of connections that are in the state now and the
    share of the time; the others are left out, also those in which connections
    are now but have not been for any time. *)
Lemma util_line (items : gmap uuid Conn) :
  (forall a b, blank (ratio a b) = true <-> a = 0) ->
  connStateUtilString (connStateCounts items) (connStateUtils items) =
  joined (util_entry (connStateCounts items) (connStateUtils items) <$> filter (fun st => spent items st <> 0) states).
Proof.
  intros Hb. unfold connStateUtilString. assert (Hf : forall st, blank (connStateUtils items st) = false <-> spent items st <> 0).
  { intros st. unfold connStateUtils. rewrite <- (Hb _ (spent_total items)). destruct (blank _); split; congruence. }
  rewrite <- (list_filter_iff (fun st => blank (connStateUtils items st) = false) (fun st => spent items st <> 0) states Hf).
  induction states as [|st l IH]; [done|]. cbn [util_loop]. rewrite filter_cons.
  destruct (blank (connStateUtils items st)) eqn:E; [rewrite decide_False by done; exact IH|].
  rewrite decide_True by done. cbn [fmap list_fmap app]. rewrite util_loop_joined, joined_cons, <- list_fmap_compose. done.
Qed.

(** A metrics.Pool that was cleared reports nothing. *)
Lemma Pool_Clear_empty order T : (forall m, order m ≡ₚ map_to_list m) -> Pool_Clear order T = mkPoolMetrics ∅ ∅.
Proof. intros Ho. unfold Pool_Clear. by rewrite !Clear_empty. Qed.
End Text.

(** ** ReadMetrics of the pools: [servers] is what ReadMetrics of the server pools
    does to the metrics (Spool); the clients are read in the order [it]. *)
Section Read.
Context {K : Type} `{Countable K}.

Fixpoint read_clients {C} (id : C -> uuid) (read : C -> Z -> Conn * C) (now : Z) (keys : list K) (clients : gmap K C) (m : gmap uuid Conn) :
    gmap uuid Conn * gmap K C :=
  match keys with
  | [] => (m, clients)
  | k :: keys =>
      match clients !! k with
      | None => read_clients id read now keys clients m
      | Some c => let r := read c now in read_clients id read now keys (<[k := r.2]> clients) (<[id c := r.1]> m)
      end
  end.

Definition basic_pool_ReadMetrics (servers : PoolMetrics -> PoolMetrics) (it : list K) (now : Z) (clients : gmap K BasicClient) (m : PoolMetrics) :
    PoolMetrics * gmap K BasicClient :=
  let m := servers m in
  let r := read_clients basic_ID Basic_ReadMetrics now it clients (Clients m) in
  (mkPoolMetrics (Servers m) r.1, r.2).
Definition hybrid_pool_ReadMetrics (primary replica : PoolMetrics -> PoolMetrics) (it : list K) (now : Z) (clients : gmap K HybridClient) (m : PoolMetrics) :
    PoolMetrics * gmap K HybridClient :=
  let m := replica (primary m) in
  let r := read_clients hybrid_ID Hybrid_ReadMetrics now it clients (Clients m) in
  (mkPoolMetrics (Servers m) r.1, r.2).

(** Every client is reported once, under its identifier, and starts afresh; the
    other entries are kept. *)
Lemma read_clients_spec {C} (id : C -> uuid) (read : C -> Z -> Conn * C) now keys (clients : gmap K C) m :
  NoDup keys -> (forall k k' c c', clients !! k = Some c -> clients !! k' = Some c' -> id c = id c' -> k = k') ->
  let r := read_clients id read now keys clients m in
  (forall k, r.2 !! k = if decide (k ∈ keys) then (fun c => (read c now).2) <$> clients !! k else clients !! k) /\
  (forall k c, k ∈ keys -> clients !! k = Some c -> r.1 !! id c = Some (read c now).1) /\
  (forall u, (forall k c, k ∈ keys -> clients !! k = Some c -> id c <> u) -> r.1 !! u = m !! u).
Proof.
  assert (Hgen : forall keys (cl0 cl : gmap K C) m, NoDup keys -> (forall k, k ∈ keys -> cl !! k = cl0 !! k) ->
    (forall k k' c c', cl0 !! k = Some c -> cl0 !! k' = Some c' -> id c = id c' -> k = k') ->
    let r := read_clients id read now keys cl m in
    (forall k, r.2 !! k = if decide (k ∈ keys) then (fun c => (read c now).2) <$> cl0 !! k else cl !! k) /\
    (forall k c, k ∈ keys -> cl0 !! k = Some c -> r.1 !! id c = Some (read c now).1) /\
    (forall u, (forall k c, k ∈ keys -> cl0 !! k = Some c -> id c <> u) -> r.1 !! u = m !! u)).
  2: { intros Hn Hi. by apply Hgen. }
  clear keys clients m. induction keys as [|k keys IH]; intros cl0 cl m Hnd Hc Hi.
  { cbn. split_and!; [done|by intros ? ? ?%elem_of_nil|done]. }
  apply NoDup_cons in Hnd as [Hk Hn]. cbn. pose proof (Hc k ltac:(left)) as Ek.
  destruct (cl !! k) as [c|] eqn:E.
  - destruct (IH cl0 (<[k := (read c now).2]> cl) (<[id c := (read c now).1]> m)) as (I1 & I2 & I3); [done| |done|].
    { intros k' Hk'. rewrite lookup_insert_ne by (intros ->; done). apply Hc. by right. }
    split_and!.
    + intros k'. rewrite I1. destruct (decide (k' = k)) as [->|Hne].
      * rewrite decide_False, lookup_insert_eq, decide_True, <- Ek by (done || left). done.
      * rewrite lookup_insert_ne by done. destruct (decide (k' ∈ keys)); [by rewrite decide_True by (by right)|].
        rewrite decide_False; [done|]. by intros [?|?]%elem_of_cons.
    + intros k' c' [->|Hk']%elem_of_cons E'; [|by eapply I2].
      rewrite <- Ek in E'. injection E' as ->. rewrite I3; [by rewrite lookup_insert_eq|].
      intros k2 c2 H2 E2 Hid. apply Hk. by rewrite (Hi k k2 c' c2) by done.
    + intros u Hu. rewrite I3 by (intros; eapply Hu; [by right|done]). apply lookup_insert_ne. eapply Hu; [left|by rewrite <- Ek].
  - destruct (IH cl0 cl m) as (I1 & I2 & I3); [done|intros; apply Hc; by right|done|]. split_and!.
    + intros k'. rewrite I1. destruct (decide (k' = k)) as [->|Hne].
      * rewrite decide_False, decide_True, <- Ek, E by (done || left). done.
      * destruct (decide (k' ∈ keys)); [by rewrite decide_True by (by right)|]. rewrite decide_False; [done|]. by intros [?|?]%elem_of_cons.
    + intros k' c' [->|Hk']%elem_of_cons E'; [congruence|by eapply I2].
    + intros u Hu. apply I3. intros. eapply Hu; [by right|done].
Qed.
End Read.
