(* ===== verification/Credentials.v ===== *)
(** * Credentials: lib/auth and lib/auth/credentials

    What a stored password is made into ([FromString]) and how each kind of
    credentials logs in and checks a login.  [to_frontend] and [to_backend] are
    the interfaces that frontends.Authenticate and backends.Accept (Startup) find
    a value to implement.

    The SCRAM conversations and hashes are of a library: parameters.  A *Scram is
    shared, and remembers the client key of the last login: [clientKey] of a
    [Verifier], an argument of [EncodeSASL]. *)

From Stdlib Require Import Init.Byte Strings.Byte Strings.String ZArith.
From S2P Require Import Prelude.
From S2P Require Import Wire.
From S2P Require Import Packets.
From S2P Require Import Strutil.
From S2P Require Import Encodings.
From S2P Require Import Fed.
From S2P Require Import Startup.

Local Open Scope Z_scope.

Definition ErrFailed : error := ErrOther 30.
Definition ErrSASLMechanismNotSupported : error := ErrOther 31.
Definition ErrInvalidSecretFormat : error := ErrOther 32.
Definition ErrSyntax : error := ErrOther 33.       (* of strconv, hex, base64 *)
Definition ErrLogInFirst : error := ErrOther 34.

Definition ScramSHA256 : gostring := lit "SCRAM-SHA-256".

(** scram.KeyInfo and scram.ServerKeys, with SHA-256 *)
Record KeyInfo := mkKeyInfo { Salt : list byte; Iters : Z }.
Record ServerKeys := mkServerKeys { ServerKey : list byte; StoredKey : list byte; Info : KeyInfo }.

Inductive Credentials :=
| Cleartext (Username Password : gostring)
| MD5 (Hash : list byte)
| Scram (Keys : ServerKeys).

(** ** strings.Cut *)
Fixpoint cut_at (c : byte) (s : gostring) : option (gostring * gostring) :=
  match s with
  | [] => None
  | b :: s => if decide (b = c) then Some ([], s) else (fun kv => (b :: kv.1, kv.2)) <$> cut_at c s
  end.

Definition or_err {A} (e : error) (o : option A) : error + A := match o with Some a => inr a | None => inl e end.
Definition sbind {A B} (m : error + A) (k : A -> error + B) : error + B := match m with inl e => inl e | inr a => k a end.

(** ** Reading a stored password *)

Definition ScramFromString (password : gostring) : error + ServerKeys :=
  sbind (or_err ErrInvalidSecretFormat (cut_at x24 password)) (fun '(alg, iterKeys) =>
  if decide (alg <> ScramSHA256) then inl ErrInvalidSecretFormat else
  sbind (or_err ErrInvalidSecretFormat (cut_at x24 iterKeys)) (fun '(iterSalt, keys) =>
  sbind (or_err ErrInvalidSecretFormat (cut_at x3a iterSalt)) (fun '(iter, salt) =>
  sbind (or_err ErrInvalidSecretFormat (cut_at x3a keys)) (fun '(storedKey, serverKey) =>
  sbind (or_err ErrSyntax (Strconv.Atoi iter)) (fun iters =>
  sbind (or_err ErrSyntax (Base64.DecodeString salt)) (fun saltBytes =>
  sbind (or_err ErrSyntax (Base64.DecodeString storedKey)) (fun stored =>
  sbind (or_err ErrSyntax (Base64.DecodeString serverKey)) (fun server =>
  inr (mkServerKeys server stored (mkKeyInfo saltBytes iters)))))))))).

Definition MD5FromString (value : gostring) : error + list byte :=
  if HasPrefix value (lit "md5") then or_err ErrSyntax (Hex.DecodeString (drop 3 value))
  else inl ErrInvalidSecretFormat.

(** [None] is nil. *)
Definition FromString (user password : gostring) : option Credentials :=
  if decide (password = []) then None
  else match ScramFromString password with
       | inr keys => Some (Scram keys)
       | inl _ =>
           match MD5FromString password with
           | inr hash => Some (MD5 hash)
           | inl _ => Some (Cleartext user password)
           end
       end.

(** ** Cleartext and MD5 *)

Definition VerifyCleartext (password value : gostring) : option error :=
  if decide (password <> value) then Some ErrFailed else None.

(** The second half of both EncodeMD5. *)
Definition salted (hexEncoded : gostring) (salt : list byte) : gostring :=
  lit "md5" ++ Hex.Encode (Md5.sum (hexEncoded ++ salt)).

Definition Cleartext_EncodeMD5 (user password : gostring) (salt : list byte) : gostring :=
  salted (Hex.Encode (Md5.sum (password ++ user))) salt.
Definition MD5_EncodeMD5 (hash : list byte) (salt : list byte) : gostring := salted (Hex.Encode hash) salt.

(** VerifyMD5 of both. *)
Definition VerifyMD5 (EncodeMD5 : list byte -> gostring) (salt : list byte) (value : gostring) : option error :=
  if decide (EncodeMD5 salt <> value) then Some ErrFailed else None.

(** ** SASL *)
Section Sasl.
(** scram.ServerConversation and scram.ClientConversation; a lookup of keys may
    need a random salt. *)
Context {Conv : Type} (ServerConversation : (error + list byte -> option ServerKeys) -> Conv).
Context (conv_Write : Conv -> list byte -> (list byte * option error) * Conv) (RecoveredClientKey : Conv -> list byte).
Context {E : Type} (ClientPassword : gostring -> E) (ClientKeys : list byte -> list byte -> KeyInfo -> E).
Context (SaltedPassword : gostring -> list byte -> Z -> list byte).
Context (server_key client_key stored_key : list byte -> list byte).

Record Verifier := mkVerifier { conversation : Conv; intercept : bool; clientKey : option (list byte) }.

(** ScramInterceptorVerifier.Write, or the conversation's own. *)
Definition Write (T : Verifier) (bytes : list byte) : (list byte * option error) * Verifier :=
  let r := conv_Write (conversation T) bytes in
  (r.1, mkVerifier r.2 (intercept T)
          (if intercept T && bool_decide (r.1.2 = Some EOF) then Some (RecoveredClientKey r.2) else clientKey T)).

Definition SupportedSASLMechanisms : list gostring := [ScramSHA256].

(** The keys of a password, with the salt that crypto/rand gives. *)
Definition password_keys (password : gostring) (rnd : error + list byte) : option ServerKeys :=
  match rnd with
  | inl _ => None
  | inr salt =>
      let p := SaltedPassword password salt 4096 in
      Some (mkServerKeys (server_key p) (stored_key (client_key p)) (mkKeyInfo salt 4096))
  end.

Definition Cleartext_VerifySASL (password : gostring) (mechanism : gostring) : error + Verifier :=
  if decide (mechanism = ScramSHA256)
  then inr (mkVerifier (ServerConversation (password_keys password)) false None)
  else inl ErrSASLMechanismNotSupported.

Definition Scram_VerifySASL (keys : ServerKeys) (key : option (list byte)) (mechanism : gostring) : error + Verifier :=
  if decide (mechanism = ScramSHA256)
  then inr (mkVerifier (ServerConversation (fun _ => Some keys)) true key)
  else inl ErrSASLMechanismNotSupported.

Definition encode_with (e : E) (mechanisms : list gostring) : error + gostring * E :=
  if decide (ScramSHA256 ∈ mechanisms) then inr (ScramSHA256, e) else inl ErrSASLMechanismNotSupported.

Definition Cleartext_EncodeSASL (password : gostring) : list gostring -> error + gostring * E :=
  encode_with (ClientPassword password).

Definition Scram_EncodeSASL (keys : ServerKeys) (key : option (list byte)) (mechanisms : list gostring) : error + gostring * E :=
  match key with
  | None => inl ErrLogInFirst
  | Some k => encode_with (ClientKeys k (ServerKey keys) (Info keys)) mechanisms
  end.

(** *** The interfaces of each kind *)

Definition to_frontend (c : option Credentials) (key : option (list byte)) : @FrontendAuth.Credentials Verifier :=
  match c with
  | None => FrontendAuth.CredNil
  | Some (Cleartext user password) => FrontendAuth.CredSASL SupportedSASLMechanisms (Cleartext_VerifySASL password)
  | Some (MD5 hash) => FrontendAuth.CredMD5 (VerifyMD5 (MD5_EncodeMD5 hash))
  | Some (Scram keys) => FrontendAuth.CredSASL SupportedSASLMechanisms (Scram_VerifySASL keys key)
  end.

Definition to_backend (c : option Credentials) (key : option (list byte)) : @BackendStartup.Credentials E :=
  match c with
  | None => BackendStartup.mkCredentials None None None
  | Some (Cleartext user password) =>
      BackendStartup.mkCredentials (Some password) (Some (Cleartext_EncodeMD5 user password)) (Some (Cleartext_EncodeSASL password))
  | Some (MD5 hash) => BackendStartup.mkCredentials None (Some (MD5_EncodeMD5 hash)) None
  | Some (Scram keys) => BackendStartup.mkCredentials None None (Some (Scram_EncodeSASL keys key))
  end.
End Sasl.

(** ** Stored passwords are recognised *)

Lemma cut_at_app c s t : c ∉ s -> cut_at c (s ++ c :: t) = Some (s, t).
Proof.
  induction s as [|b s IH]; intros Hc; cbn; [by rewrite decide_True|].
  rewrite decide_False, IH by set_solver. done.
Qed.

Lemma cut_at_none c s : c ∉ s -> cut_at c s = None.
Proof.
  induction s as [|b s IH]; intros Hc; cbn; [done|]. rewrite decide_False, IH by set_solver. done.
Qed.

(** A byte that [f] is false of is in no text that [f] is true of. *)
Lemma forallb_not_in (f : byte -> bool) c s : forallb f s = true -> f c = false -> c ∉ s.
Proof. rewrite forallb_forall. intros Hs Hc Hin%list_elem_of_In. apply Hs in Hin. congruence. Qed.

Lemma base64_no c bs : Base64Facts.text_byte c = false -> c ∉ Base64.EncodeToString bs.
Proof. apply forallb_not_in, Base64Facts.encode_text. Qed.

Lemma Itoa_no c n : 0 <= n -> between 48 57 (b2z c) = false -> c ∉ Strconv.Itoa n.
Proof. intros Hn. rewrite StrconvFacts.Itoa_Utoa by done. apply (forallb_not_in (fun c => between 48 57 (b2z c))). by apply StrconvFacts.Utoa_spec. Qed.

(** The text that PostgreSQL stores for a SCRAM password. *)
Definition scram_secret (k : ServerKeys) : gostring :=
  ScramSHA256 ++ x24 :: (Strconv.Itoa (Iters (Info k)) ++ x3a :: Base64.EncodeToString (Salt (Info k))) ++
  x24 :: Base64.EncodeToString (StoredKey k) ++ x3a :: Base64.EncodeToString (ServerKey k).

(** And for an MD5 password. *)
Definition md5_secret (user password : gostring) : gostring := lit "md5" ++ Hex.Encode (Md5.sum (password ++ user)).

Lemma ScramFromString_secret k : 0 <= Iters (Info k) < 2 ^ 63 -> ScramFromString (scram_secret k) = inr k.
Proof.
  intros Hi. destruct k as [server stored [salt iters]]. unfold ScramFromString, scram_secret. cbn [Info Iters Salt StoredKey ServerKey] in *.
  rewrite cut_at_app by (apply (bool_decide_unpack _); by vm_compute). cbn [or_err sbind]. rewrite decide_False by auto.
  rewrite cut_at_app.
  2: { rewrite not_elem_of_app, not_elem_of_cons. split_and!; [apply Itoa_no; [lia|done]|done|by apply base64_no]. }
  cbn [or_err sbind]. rewrite cut_at_app by (apply Itoa_no; [lia|done]). cbn [or_err sbind].
  rewrite cut_at_app by (by apply base64_no). cbn [or_err sbind].
  rewrite StrconvFacts.Atoi_Itoa, !Base64Facts.DecodeString_Encode by (done || lia). done.
Qed.

Lemma hex_no c bs : c ∉ Hex.digits -> c <> x00 -> c ∉ Hex.Encode bs.
Proof.
  intros Hc H0. assert (Hd : forall n, c <> nth n Hex.digits x00).
  { intros n E. destruct (nth_in_or_default n Hex.digits x00) as [Hin|E']; [|congruence].
    apply Hc, list_elem_of_In. by rewrite E. }
  unfold Hex.Encode. induction bs as [|b bs IH]; [by apply not_elem_of_nil|]. cbn [fmap list_fmap concat Hex.encode_byte app].
  rewrite !not_elem_of_cons. split_and!; [apply Hd|apply Hd|done].
Qed.

Lemma FromString_md5 user password : FromString user (md5_secret user password) = Some (MD5 (Md5.sum (password ++ user))).
Proof.
  unfold FromString. rewrite decide_False by done.
  assert (ScramFromString (md5_secret user password) = inl ErrInvalidSecretFormat) as ->.
  { unfold ScramFromString. rewrite cut_at_none; [done|]. unfold md5_secret. rewrite not_elem_of_app. split.
    - apply (bool_decide_unpack _). by vm_compute.
    - apply hex_no; [apply (bool_decide_unpack _); by vm_compute|done]. }
  unfold MD5FromString, md5_secret. change (HasPrefix _ _) with true.
  change (drop 3 _) with (Hex.Encode (Md5.sum (password ++ user))). by rewrite Hex.DecodeString_hex.
Qed.

Module CredentialsTheorems.

(** C35: Stored passwords are recognised for what they are and interchangeable with
    the password.  Of the text that PostgreSQL stores for a SCRAM password the
    keys, the salt and the iterations are read back.  The text it stores for an
    MD5 password is read back as the hash, and for every salt the owner of the
    password is let in by these credentials, and they answer a server that asks
    for a password exactly as the password would. *)
Theorem stored_passwords_recognised (user password : gostring) (k : ServerKeys) :
  0 <= Iters (Info k) < 2 ^ 63 ->
  FromString user (scram_secret k) = Some (Scram k) /\
  exists hash, FromString user (md5_secret user password) = Some (MD5 hash) /\
    forall salt, VerifyMD5 (MD5_EncodeMD5 hash) salt (Cleartext_EncodeMD5 user password salt) = None /\
      MD5_EncodeMD5 hash salt = Cleartext_EncodeMD5 user password salt.
Proof.
  intros Hi. split.
  - unfold FromString. rewrite decide_False by done. by rewrite ScramFromString_secret.
  - exists (Md5.sum (password ++ user)). split; [apply FromString_md5|]. intros salt. split; [|done].
    unfold VerifyMD5. by rewrite decide_False by auto.
Qed.

Definition ex_keys : ServerKeys := mkServerKeys [x01; x02; xff] [x10] (mkKeyInfo [x73; x61; x6c; x74] 4096).

Lemma stored_passwords_recognised_witness :
  FromString (lit "bob") (lit "SCRAM-SHA-256$4096:c2FsdA==$EA==:AQL/") = Some (Scram ex_keys) /\
  exists hash, FromString (lit "bob") (md5_secret (lit "bob") (lit "pw")) = Some (MD5 hash) /\
    forall salt, VerifyMD5 (MD5_EncodeMD5 hash) salt (Cleartext_EncodeMD5 (lit "bob") (lit "pw") salt) = None /\
      MD5_EncodeMD5 hash salt = Cleartext_EncodeMD5 (lit "bob") (lit "pw") salt.
Proof. apply (stored_passwords_recognised (lit "bob") (lit "pw") ex_keys). cbn. lia. Defined.

(** The case of credentials_test.go. *)
Example test_md5 :
  FromString (lit "bob") (lit "md5e20510fd38e1c0fd99db13da5c29bd95") =
  FromString (lit "bob") (md5_secret (lit "bob") (lit "jNKuKKlBDO48qbLiVw7IuoaamZ1SmHAUdQ9PKH7qRzsyJVF0BNPSFMbHTQwxe0HJ")).
Proof. vm_compute. reflexivity. Qed.

(** A password may look like a hash: any that starts with md5 and goes on with an
    even number of hexadecimal digits, not 32 of them as in PostgreSQL, is taken
    for one; its owner is turned away. *)
Example short_md5_misread :
  FromString (lit "bob") (lit "md5cafe") = Some (MD5 [xca; xfe]) /\
  VerifyMD5 (MD5_EncodeMD5 [xca; xfe]) [x01; x02; x03; x04]
    (Cleartext_EncodeMD5 (lit "bob") (lit "md5cafe") [x01; x02; x03; x04]) = Some ErrFailed.
Proof. split; vm_compute; reflexivity. Qed.

(** SCRAM credentials can log in to a server once a client has logged in with
    them, with the key that its login gave away; not before. *)
Lemma scram_login_first {Conv E} conv_Write RecoveredClientKey (ClientKeys : list byte -> list byte -> KeyInfo -> E)
    keys (T : @Verifier Conv) bytes mechanisms :
  intercept T = true -> ScramSHA256 ∈ mechanisms ->
  Scram_EncodeSASL ClientKeys keys None mechanisms = inl ErrLogInFirst /\
  ((Write conv_Write RecoveredClientKey T bytes).1.2 = Some EOF ->
   Scram_EncodeSASL ClientKeys keys (clientKey (Write conv_Write RecoveredClientKey T bytes).2) mechanisms =
   inr (ScramSHA256, ClientKeys (RecoveredClientKey (conv_Write (conversation T) bytes).2) (ServerKey keys) (Info keys))).
Proof.
  intros Hi Hm. split; [done|]. unfold Write. cbn [fst snd]. intros HE. cbn [clientKey]. rewrite Hi, bool_decide_true by done.
  cbn. unfold encode_with. by rewrite decide_True.
Qed.
End CredentialsTheorems.
