(* ===== verification/Ini.v ===== *)
(** * Ini: lib/util/encoding/ini, lib/util/encoding/userlist

    Unmarshal fills any Go value by reflection.  The types it meets are [typ] and
    the values [val]; a field of a struct is named by its ini tag.  [get] finds
    the place a key names and [set] stores a text there.  A pointer or a map that
    is nil is made when something is stored in it.  Where the code fails it
    returns the error; the part it has filled by then is dropped, as by Load's
    callers.

    strconv.ParseFloat, strconv.Unquote and the UnmarshalINI of a type are
    parameters; files are a function from names to contents. *)

From Stdlib Require Import Init.Byte Strings.Byte Strings.String ZArith.
From S2P Require Import Prelude.
From S2P Require Import Wire.
From S2P Require Import Packets.
From S2P Require Import Strutil.
From S2P Require Import Encodings.
From S2P Require Import Fed.
From S2P Require Import Startup.
From S2P Require Import Credentials.

Local Open Scope Z_scope.
Local Open Scope go_scope.

Definition ErrCannotSet : error := ErrOther 50.
Definition ErrExpectedKeyValue : error := ErrOther 51.
Definition ErrWrongLength : error := ErrOther 52.
Definition ErrInclude : error := ErrOther 53.
Definition ErrUserlist : error := ErrOther 54.

(** ** package bytes *)

(** TrimSpace: spaces are dropped from the left, then from the right. *)
Fixpoint trim_left (fuel : nat) (s : gostring) : gostring :=
  match fuel, s with
  | S fuel, _ :: _ => let '(r, n) := DecodeRune s in if IsSpace r then trim_left fuel (drop n s) else s
  | _, _ => s
  end.
Fixpoint trim_right (fuel : nat) (s : gostring) : gostring :=
  match fuel, s with
  | S fuel, _ :: _ => let '(r, n) := DecodeLastRune s in if IsSpace r then trim_right fuel (take (length s - n) s) else s
  | _, _ => s
  end.
Definition TrimSpace (s : gostring) : gostring :=
  let l := trim_left (length s) s in trim_right (length l) l.

(** [line, data, _ = bytes.Cut(data, []byte{'\n'})] *)
Definition cut_line (data : gostring) : gostring * gostring :=
  match cut_at x0a data with Some r => r | None => (data, []) end.

(** Split at every [c]. *)
Fixpoint Split (c : byte) (s : gostring) : list gostring :=
  match s with
  | [] => [[]]
  | b :: s =>
      if decide (b = c) then [] :: Split c s
      else match Split c s with
           | p :: l => (b :: p) :: l
           | [] => [[b]]
           end
  end.

Definition HasSuffix (s suffix : gostring) : bool := bool_decide (drop (length s - length suffix) s = suffix).

(** ** Types and values *)

Inductive typ :=
| TString
| TInt (width : Z)
| TUint (width : Z)
| TFloat
| TPtr (t : typ)
| TStruct (fields : list (gostring * typ))      (* the exported ones *)
| TMap (key elem : typ)
| TSlice (t : typ)
| TArray (n : nat) (t : typ)
| TCustom (i : nat)                             (* an ini.Unmarshaller; it is no section *)
| TOther.                                       (* any other kind, such as a bool *)

Section Ini.
(** Floats, and the values of the types with a method UnmarshalINI. *)
Context {F : Type} (zero_float : F) (ParseFloat : gostring -> option F).
Context {U : Type} (zero_custom : nat -> U) (UnmarshalINI : nat -> gostring -> U -> outcome (error + U)).

Inductive val :=
| VString (s : gostring)
| VInt (z : Z)
| VFloat (f : F)
| VPtr (v : option val)
| VStruct (fields : list val)
| VMap (m : option (list (val * val)))          (* None: nil; no key twice *)
| VSlice (l : list val)
| VArray (l : list val)
| VCustom (i : nat) (u : U)
| VOther.

Fixpoint zero_val (t : typ) : val :=
  match t with
  | TString => VString []
  | TInt _ | TUint _ => VInt 0
  | TFloat => VFloat zero_float
  | TPtr _ => VPtr None
  | TStruct fs => VStruct (map (fun f => zero_val f.2) fs)
  | TMap _ _ => VMap None
  | TSlice _ => VSlice []
  | TArray n t => VArray (repeat (zero_val t) n)
  | TCustom i => VCustom i (zero_custom i)
  | TOther => VOther
  end.

(** A result: an error, or the new value. *)
Abbreviation res A := (outcome (error + A)).

Definition rbind {A B} (m : res A) (k : A -> res B) : res B :=
  let! r := m in match r with inl e => Ret (inl e) | inr a => k a end.

Definition rmap {A B} (f : A -> B) (m : res A) : res B := rbind m (fun a => Ret (inr (f a))).

(** rv.SetMapIndex(k, v), for keys compared by [same]. *)
Fixpoint map_set (same : val -> val -> bool) (k v : val) (m : list (val * val)) : list (val * val) :=
  match m with
  | [] => [(k, v)]
  | (k', v') :: m => if same k k' then (k, v) :: m else (k', v') :: map_set same k v m
  end.

Context (same : val -> val -> bool).

(** The loop over the fields of a struct; [rec] goes on in the field named * and
    [done] are the fields before. *)
Definition get_fields (rec fn : typ -> val -> res val) (key : gostring) :=
  fix fields (fs : list (gostring * typ)) (vs done : list val) : res val :=
    match fs, vs with
    | (name, t) :: fs, v :: vs =>
        if decide (name = lit "*") then rmap (fun v => VStruct (done ++ v :: vs)) (rec t v)
        else if decide (name = key) then rmap (fun v => VStruct (done ++ v :: vs)) (fn t v)
        else fields fs vs (done ++ [v])
    | _, _ => Ret (inr (VStruct (done ++ vs)))
    end.

(** [set_key] is set, for the key of a map; [fn] is called with the place. *)
Fixpoint get (set_key : typ -> val -> gostring -> res val) (fn : typ -> val -> res val) (t : typ) (v : val) (key : gostring) : res val :=
  match t, v with
  | TPtr t, VPtr o => rmap (fun v => VPtr (Some v)) (get set_key fn t (default (zero_val t) o) key)
  | TStruct fs, VStruct vs =>
      get_fields (fun t v => get set_key fn t v key) fn key fs vs []
  | TMap tk te, VMap m =>
      rbind (set_key tk (zero_val tk) key) (fun k =>
      rbind (fn te (zero_val te)) (fun v =>
      Ret (inr (VMap (Some (map_set same k v (default [] m)))))))
  | _, _ => Ret (inr v)
  end.

Definition or_syntax {A B} (o : option A) (k : A -> B) : res B :=
  match o with Some a => Ret (inr (k a)) | None => Ret (inl ErrSyntax) end.

(** The loop over the items of an array or slice. *)
Fixpoint set_items (f : val -> gostring -> res val) (vs : list val) (items : list gostring) : res (list val) :=
  match vs, items with
  | v :: vs, item :: items =>
      rbind (f v (TrimSpace item)) (fun v => rmap (cons v) (set_items f vs items))
  | _, _ => Ret (inr [])
  end.

(** The loop over key=value fields. *)
Fixpoint set_fields (f : gostring -> gostring -> val -> res val) (fields : list gostring) (v : val) : res val :=
  match fields with
  | [] => Ret (inr v)
  | field :: fields =>
      match cut_at x3d field with
      | None => Ret (inl ErrExpectedKeyValue)
      | Some (k, value) => rbind (f k value v) (set_fields f fields)
      end
  end.

Fixpoint set (fuel : nat) (t : typ) (v : val) (value : gostring) : res val :=
  match fuel with
  | O => Diverge
  | S fuel =>
      match t, v with
      | TPtr t, VPtr o => rmap (fun v => VPtr (Some v)) (set fuel t (default (zero_val t) o) value)
      | TOther, _ => Ret (inl ErrCannotSet)
      | TCustom i, VCustom _ u => rmap (VCustom i) (UnmarshalINI i value u)
      | TStruct _, _ | TMap _ _, _ =>
          set_fields (fun k value v => get (set fuel) (fun t v => set fuel t v value) t v k) (Fields value) v
      | TArray n t, VArray vs =>
          let items := Split x2c value in
          if decide (length items <> length vs) then Ret (inl ErrWrongLength)
          else rmap VArray (set_items (set fuel t) vs items)
      | TSlice t, _ =>
          let items := Split x2c value in
          rmap VSlice (set_items (set fuel t) (repeat (zero_val t) (length items)) items)
      | TString, _ => Ret (inr (VString value))
      | TInt w, _ => or_syntax (Strconv.Atoi value) (fun z => VInt (swrap w z))
      | TUint w, _ => or_syntax (Strconv.ParseUint value) (fun z => VInt (uwrap w z))
      | TFloat, _ => or_syntax (ParseFloat value) VFloat
      | _, _ => Panic
      end
  end.

Definition setpath (fuel : nat) (t : typ) (v : val) (section key value : gostring) : res val :=
  let store := fun t v => set fuel t v value in
  match section with
  | [] => get (set fuel) store t v key
  | _ => get (set fuel) (fun t v => get (set fuel) store t v key) t v section
  end.

(** Nested pointers, structs and maps. *)
Fixpoint depth (t : typ) : nat :=
  match t with
  | TPtr t | TSlice t | TArray _ t => S (depth t)
  | TMap k e => S (Nat.max (depth k) (depth e))
  | TStruct fs => S (list_max (map (fun f => depth f.2) fs))
  | _ => 1
  end%nat.

(** One line of the file: the section and the value after it. *)
Definition line_step (t : typ) (section : gostring) (v : val) (line : gostring) : res (gostring * val) :=
  if HasPrefix line (lit "%include") then Ret (inl ErrInclude)
  else if HasPrefix line (lit ";") || HasPrefix line (lit "#") then Ret (inr (section, v))
  else if HasPrefix line (lit "[") && HasSuffix line (lit "]") then
    if decide (length line < 2)%nat then Panic               (* line[1 : len(line)-1] *)
    else Ret (inr (take (length line - 2) (drop 1 line), v))
  else
    match cut_at x3d line with
    | None => Ret (inl ErrExpectedKeyValue)
    | Some (key, value) =>
        rmap (fun v => (section, v)) (setpath (depth t) t v section (TrimSpace key) (TrimSpace value))
    end.

Fixpoint unmarshal_loop (fuel : nat) (t : typ) (section : gostring) (v : val) (data : gostring) : res val :=
  match fuel with
  | O => Diverge
  | S fuel =>
      let '(line, data) := cut_line data in
      let line := TrimSpace line in
      match line, data with
      | [], [] => Ret (inr v)
      | [], _ => unmarshal_loop fuel t section v data
      | _, _ => rbind (line_step t section v line) (fun r => unmarshal_loop fuel t r.1 r.2 data)
      end
  end.

(** The value behind the pointer that is given, of type [t]. *)
Definition Unmarshal (t : typ) (data : gostring) (v : val) : res val :=
  unmarshal_loop (S (S (length data))) t [] v data.
End Ini.
Arguments val : clear implicits.
Arguments VString {F U}.
Arguments VInt {F U}.
Arguments VFloat {F U}.
Arguments VPtr {F U}.
Arguments VStruct {F U}.
Arguments VMap {F U}.
Arguments VSlice {F U}.
Arguments VArray {F U}.
Arguments VCustom {F U}.
Arguments VOther {F U}.

(** ** userlist.Unmarshal *)
Fixpoint userlist_loop (Unquote : gostring -> option gostring) (fuel : nat) (res : gmap gostring gostring) (data : gostring)
    : outcome (error + gmap gostring gostring) :=
  match fuel with
  | O => Diverge
  | S fuel =>
      let '(line, data) := cut_line data in
      let line := TrimSpace line in
      match line, data with
      | [], [] => Ret (inr res)
      | [], _ => userlist_loop Unquote fuel res data
      | _, _ =>
          match Fields line with
          | k :: v :: _ =>
              match Unquote k, Unquote v with
              | Some key, Some value => userlist_loop Unquote fuel (<[key := value]> res) data
              | _, _ => Ret (inl ErrSyntax)
              end
          | _ => Ret (inl ErrUserlist)
          end
      end
  end.

Definition userlist_Unmarshal (Unquote : gostring -> option gostring) (data : gostring) : outcome (error + gmap gostring gostring) :=
  userlist_loop Unquote (S (S (length data))) ∅ data.

(** ** readfile.go

    [files] is os.ReadFile.  A file that includes itself is read without end:
    [fuel] bounds the depth of the inclusions. *)
Section ReadFile.
Context (files : gostring -> error + gostring).

Fixpoint read_loop (ReadFile : gostring -> outcome (error + gostring)) (fuel : nat) (result lines : gostring) : outcome (error + gostring) :=
  match fuel with
  | O => Diverge
  | S fuel =>
      let '(line, lines) := cut_line lines in
      let line := TrimSpace line in
      match line, lines with
      | [], [] => Ret (inr (result ++ [x0a]))
      | [], _ => read_loop ReadFile fuel (result ++ [x0a]) lines
      | _, _ =>
          if HasPrefix line (lit "%include") then
            let! r := ReadFile (TrimSpace (drop 8 line)) in
            match r with
            | inl e => Ret (inl e)
            | inr b => read_loop ReadFile fuel (result ++ b ++ [x0a]) lines
            end
          else read_loop ReadFile fuel (result ++ line ++ [x0a]) lines
      end
  end.

Fixpoint ReadFile (fuel : nat) (path : gostring) : outcome (error + gostring) :=
  match fuel with
  | O => Diverge
  | S fuel =>
      match files path with
      | inl e => Ret (inl e)
      | inr lines => read_loop (ReadFile fuel) (S (S (length lines))) [] lines
      end
  end.
End ReadFile.

(** ** The cases of unmarshal_test.go *)
Module IniTest.
Definition F := unit.
Definition U := unit.
Definition ParseFloat (s : gostring) : option F := None.
Definition custom (i : nat) (s : gostring) (u : U) : outcome (error + U) := Ret (inr u).
Definition same (a b : val F U) : bool :=
  match a, b with VString s, VString s' => bool_decide (s = s') | _, _ => false end.

Definition database : typ := TStruct [(lit "host", TString); (lit "port", TUint 16); (lit "user", TString); (lit "password", TString);
  (lit "client_encoding", TString); (lit "datestyle", TString); (lit "dbname", TString); (lit "auth_user", TString)].
Definition peer : typ := TStruct [(lit "host", TString)].
Definition pgbouncer : typ := TStruct ((fun n => (lit n, TString)) <$>
  ["pool_mode"; "listen_port"; "listen_addr"; "auth_type"; "auth_file"; "logfile"; "pidfile"; "admin_users"; "stats_users";
   "so_reuseport"; "unix_socket_dir"; "peer_id"]%string).
Definition root : typ := TStruct [(lit "databases", TMap TString database); (lit "peers", TMap TString peer); (lit "pgbouncer", pgbouncer)].

Definition unmarshal (lines : list string) : outcome (error + val F U) :=
  Unmarshal tt ParseFloat (fun _ => tt) custom same root (concat ((fun l => lit l ++ [x0a]) <$> lines)) (zero_val tt (fun _ => tt) root).

Definition str (s : string) : val F U := VString (lit s).
Definition db (host : string) (port : Z) (user password enc datestyle dbname auth : string) : val F U :=
  VStruct [str host; VInt port; str user; str password; str enc; str datestyle; str dbname; str auth].

Example case1 :
  unmarshal ["[databases]"; "postgres = host=localhost dbname=postgres"; ""; "[peers]"; "1 = host=/tmp/pgbouncer1";
    "2 = host=/tmp/pgbouncer2"; ""; "[pgbouncer]"; "listen_addr=127.0.0.1"; "auth_file=auth_file.conf"; "so_reuseport=1";
    "; only unix_socket_dir and peer_id are different"; "unix_socket_dir=/tmp/pgbouncer2"; "peer_id=2"]%string =
  Ret (inr (VStruct [VMap (Some [(str "postgres", db "localhost" 0 "" "" "" "" "postgres" "")]);
    VMap (Some [(str "1", VStruct [str "/tmp/pgbouncer1"]); (str "2", VStruct [str "/tmp/pgbouncer2"])]);
    VStruct (str <$> [""; ""; "127.0.0.1"; ""; "auth_file.conf"; ""; ""; ""; ""; "1"; "/tmp/pgbouncer2"; "2"]%string)])).
Proof. vm_compute. reflexivity. Qed.

Example case3 :
  unmarshal ["[databases]"; ""; "; foodb over Unix socket"; "foodb ="; ""; "; redirect bardb to bazdb on localhost";
    "bardb = host=localhost dbname=bazdb"; ""; "; access to destination database will go with single user";
    "forcedb = host=localhost port=300 user=baz password=foo client_encoding=UNICODE datestyle=ISO"]%string =
  Ret (inr (VStruct [VMap (Some [(str "foodb", db "" 0 "" "" "" "" "" ""); (str "bardb", db "localhost" 0 "" "" "" "" "bazdb" "");
      (str "forcedb", db "localhost" 300 "baz" "foo" "UNICODE" "ISO" "" "")]);
    VMap None; VStruct (repeat (str "") 12)])).
Proof. vm_compute. reflexivity. Qed.

(** A number that does not fit its field is cut to its width without an error. *)
Example port_wraps :
  unmarshal ["[databases]"; "a = port=70000"]%string =
  Ret (inr (VStruct [VMap (Some [(str "a", db "" 4464 "" "" "" "" "" "")]); VMap None; VStruct (repeat (str "") 12)])).
Proof. vm_compute. reflexivity. Qed.
End IniTest.

(** ** Unmarshal returns, with a value of the type it was given *)
Section Typed.
Context {F : Type} (zero_float : F) (ParseFloat : gostring -> option F).
Context {U : Type} (zero_custom : nat -> U) (UnmarshalINI : nat -> gostring -> U -> outcome (error + U)).
Context (same : val F U -> val F U -> bool).
Context (Hcustom : forall i value u, exists r, UnmarshalINI i value u = Ret r).

Fixpoint has_type (t : typ) (v : val F U) : Prop :=
  match t, v with
  | TString, VString _ => True
  | TInt w, VInt z => - 2 ^ (w - 1) <= z < 2 ^ (w - 1)
  | TUint w, VInt z => 0 <= z < 2 ^ w
  | TFloat, VFloat _ => True
  | TPtr t, VPtr o => match o with Some v => has_type t v | None => True end
  | TStruct fs, VStruct vs =>
      (fix fields (fs : list (gostring * typ)) (vs : list (val F U)) : Prop :=
         match fs, vs with
         | [], [] => True
         | (_, t) :: fs, v :: vs => has_type t v /\ fields fs vs
         | _, _ => False
         end) fs vs
  | TMap tk te, VMap m => match m with Some m => Forall (fun e => has_type tk e.1 /\ has_type te e.2) m | None => True end
  | TSlice t, VSlice l => Forall (has_type t) l
  | TArray n t, VArray l => length l = n /\ Forall (has_type t) l
  | TCustom i, VCustom j _ => i = j
  | TOther, VOther => True
  | _, _ => False
  end.

(** Integers have a width. *)
Fixpoint widths_ok (t : typ) : Prop :=
  match t with
  | TInt w | TUint w => 0 < w
  | TPtr t | TSlice t | TArray _ t => widths_ok t
  | TMap k e => widths_ok k /\ widths_ok e
  | TStruct fs => fold_right (fun f P => widths_ok f.2 /\ P) True fs
  | _ => True
  end.

Lemma typ_nested (P : typ -> Prop) :
  P TString -> (forall w, P (TInt w)) -> (forall w, P (TUint w)) -> P TFloat -> (forall t, P t -> P (TPtr t)) ->
  (forall fs, Forall (fun f => P f.2) fs -> P (TStruct fs)) -> (forall k e, P k -> P e -> P (TMap k e)) ->
  (forall t, P t -> P (TSlice t)) -> (forall n t, P t -> P (TArray n t)) -> (forall i, P (TCustom i)) -> P TOther -> forall t, P t.
Proof.
  intros H1 H2 H3 H4 H5 H6 H7 H8 H9 H10 H11. fix IH 1. intros [|w|w| |t|fs|k e|t|n t|i|];
    [exact H1|apply H2|apply H3|exact H4|apply H5, IH| |apply H7; apply IH|apply H8, IH|apply H9, IH|apply H10|exact H11].
  apply H6. induction fs as [|f fs IHfs]; constructor; [apply IH|done].
Qed.

Abbreviation zero t := (zero_val zero_float zero_custom t).

Lemma zero_typed t : widths_ok t -> has_type t (zero t).
Proof.
  induction t as [|w|w| |t IH|fs IH|k e _ _|t _|n t IH|i|] using typ_nested; cbn; try done.
  - intros Hw. pose proof (Z.pow_pos_nonneg 2 (w - 1)). lia.
  - intros Hw. pose proof (Z.pow_pos_nonneg 2 w). lia.
  - induction IH as [|[name t] fs Ht _ IHfs]; cbn in *; [done|]. intros [? ?]. split; [by apply Ht|by apply IHfs].
  - intros Hw. split; [by rewrite repeat_length|]. apply Forall_forall. intros v Hv%list_elem_of_In%repeat_spec. subst. auto.
Qed.

(** [m] returns, and if it is not an error then a value of type [t]. *)
Definition gives_type (t : typ) (m : outcome (error + val F U)) : Prop :=
  exists r, m = Ret r /\ match r with inl _ => True | inr v => has_type t v end.

Lemma gives_ret t v : has_type t v -> gives_type t (Ret (inr v)).
Proof. intros Hv. by exists (inr v). Qed.
Lemma gives_err t e : gives_type t (Ret (inl e)).
Proof. by exists (inl e). Qed.

Lemma gives_bind t t' m k : gives_type t' m -> (forall v, has_type t' v -> gives_type t (k v)) -> gives_type t (rbind m k).
Proof. intros (r & -> & Hr) Hk. cbn. destruct r; [apply gives_err|auto]. Qed.

Lemma gives_map t t' m f : gives_type t' m -> (forall v, has_type t' v -> has_type t (f v)) -> gives_type t (rmap f m).
Proof. intros Hm Hf. eapply gives_bind; [exact Hm|]. intros v Hv. by apply gives_ret, Hf. Qed.

(** [fn] works for types up to a depth. *)
Definition good (n : nat) (fn : typ -> val F U -> outcome (error + val F U)) : Prop :=
  forall t v, (depth t <= n)%nat -> widths_ok t -> has_type t v -> gives_type t (fn t v).

Lemma map_set_typed tk te k v m :
  has_type tk k -> has_type te v -> Forall (fun e => has_type tk e.1 /\ has_type te e.2) m ->
  Forall (fun e => has_type tk e.1 /\ has_type te e.2) (map_set same k v m).
Proof.
  intros Hk Hv Hm. induction Hm as [|[k' v'] m [? ?] Hm IH]; cbn; [by repeat constructor|].
  destruct (same k k'); by constructor.
Qed.

Lemma struct_app (fs fs' : list (gostring * typ)) vs vs' :
  has_type (TStruct fs) (VStruct vs) -> has_type (TStruct fs') (VStruct vs') -> has_type (TStruct (fs ++ fs')) (VStruct (vs ++ vs')).
Proof.
  revert vs. induction fs as [|[name t] fs IH]; intros [|v vs]; cbn; try done. intros [Hv Hvs] H'. split; [done|]. by apply IH.
Qed.

Lemma depth_struct f fs : f ∈ fs -> (depth f.2 < depth (TStruct fs))%nat.
Proof.
  intros Hin. cbn. apply Nat.lt_succ_r. pose proof (proj1 (list_max_le (map (fun f => depth f.2) fs) _) (Nat.le_refl _)) as Hall.
  rewrite List.Forall_forall in Hall. apply Hall. apply in_map_iff. exists f. split; [done|]. by apply list_elem_of_In.
Qed.

Lemma get_fields_cons (rec fn : typ -> val F U -> outcome (error + val F U)) key name t fs v vs dn :
  get_fields rec fn key ((name, t) :: fs) (v :: vs) dn =
  if decide (name = lit "*") then rmap (fun v => VStruct (dn ++ v :: vs)) (rec t v)
  else if decide (name = key) then rmap (fun v => VStruct (dn ++ v :: vs)) (fn t v)
  else get_fields rec fn key fs vs (dn ++ [v]).
Proof. done. Qed.

Lemma get_good n set_key fn : good n fn -> (forall key, good n (fun t v => set_key t v key)) ->
  forall t v key, (depth t <= S n)%nat -> widths_ok t -> has_type t v ->
  gives_type t (get zero_float zero_custom same set_key fn t v key).
Proof.
  intros Hfn Hkey. induction t as [|w|w| |t IH|fs IH|tk te _ _|t _|m t _|i|] using typ_nested; intros v key Hd Hw Ht; cbn [get];
    try (by destruct v; apply gives_ret).
  - destruct v as [| | |o| | | | | |]; try done. eapply gives_map; [|intros v Hv; exact Hv]. cbn in Hd. apply IH; [lia|done|].
    destruct o; [done|]. by apply zero_typed.
  - destruct v as [| | | |vs| | | | |]; try done.
    (* the fields before are done *)
    assert (Hloop : forall fs1 done, has_type (TStruct fs1) (VStruct done) -> Forall (fun f => f ∈ fs1 ++ fs) fs ->
      gives_type (TStruct (fs1 ++ fs))
        (get_fields (fun t v => get zero_float zero_custom same set_key fn t v key) fn key fs vs done)); [|by apply (Hloop [] []); [|apply Forall_forall]].
    assert (Hdep : forall f, f ∈ fs -> (depth f.2 <= n)%nat) by (intros f Hf; pose proof (depth_struct f fs Hf); lia). clear Hd.
    revert vs Ht. induction IH as [|[name t] fs Hft _ IHfs]; intros vs Ht fs1 dn Hdn Hin; destruct vs as [|v vs]; try done.
    + cbn. rewrite !app_nil_r. by apply gives_ret.
    + destruct Hw as [Hwt Hw]. destruct Ht as [Hv Hvs].
      assert (Hdt : (depth t <= n)%nat) by (apply (Hdep (name, t)); by left).
      assert (Hput : forall v', has_type t v' -> has_type (TStruct (fs1 ++ (name, t) :: fs)) (VStruct (dn ++ v' :: vs))).
      { intros v' Hv'. apply struct_app; [done|]. by split. }
      rewrite get_fields_cons. destruct (decide (name = lit "*")); [eapply gives_map; [apply Hft; [cbn; lia|done|done]|exact Hput]|].
      destruct (decide (name = key)); [eapply gives_map; [by apply Hfn|exact Hput]|].
      replace (fs1 ++ (name, t) :: fs) with ((fs1 ++ [(name, t)]) ++ fs) by (by rewrite <- app_assoc).
      apply IHfs; [done|intros f Hf; apply Hdep; by right|done| |].
      * apply struct_app; [done|]. by split.
      * apply Forall_forall. intros f Hf. rewrite <- app_assoc. set_solver.
  - destruct v as [| | | | |m| | | |]; try done. destruct Hw as [Hwk Hwe]. cbn in Hd.
    eapply gives_bind; [apply (Hkey key); [lia|done|by apply zero_typed]|]. intros k Hk.
    eapply gives_bind; [apply Hfn; [lia|done|by apply zero_typed]|]. intros v Hv.
    apply gives_ret. cbn. apply map_set_typed; [done|done|]. by destruct m.
Qed.

Abbreviation set := (set zero_float ParseFloat zero_custom UnmarshalINI same).
Abbreviation get := (get zero_float zero_custom same).

Lemma set_fields_good t f fields v :
  (forall k value v, has_type t v -> gives_type t (f k value v)) -> has_type t v -> gives_type t (set_fields f fields v).
Proof.
  intros Hf. revert v. induction fields as [|field fields IH]; intros v Hv; cbn; [by apply gives_ret|].
  destruct (cut_at x3d field) as [[k value]|]; [|apply gives_err]. eapply gives_bind; [by apply Hf|exact IH].
Qed.

(** The same for lists. *)
Lemma set_items_good t f vs items :
  (forall v item, has_type t v -> gives_type t (f v item)) -> Forall (has_type t) vs -> length items = length vs ->
  exists r, set_items f vs items = Ret r /\ match r with inl _ => True | inr l => length l = length vs /\ Forall (has_type t) l end.
Proof.
  intros Hf Hvs. revert items. induction Hvs as [|v vs Hv Hvs IH]; intros [|item items] Hl; cbn; try done.
  { by exists (inr []). }
  destruct (Hf v (TrimSpace item) Hv) as ([e|v'] & -> & Hv'); cbn; [by exists (inl e)|].
  destruct (IH items) as ([e|l] & -> & Hr); [by injection Hl|by exists (inl e)|]. cbn. exists (inr (v' :: l)). split; [done|].
  destruct Hr as [? ?]. split; [cbn; by f_equal|by constructor].
Qed.

Lemma swrap_range w z : 0 < w -> - 2 ^ (w - 1) <= swrap w z < 2 ^ (w - 1).
Proof.
  intros Hw. unfold swrap. assert (2 ^ w = 2 * 2 ^ (w - 1)) by (rewrite <- Z.pow_succ_r by lia; f_equal; lia).
  pose proof (Z.mod_pos_bound (z + 2 ^ (w - 1)) (2 ^ w) ltac:(pose proof (Z.pow_pos_nonneg 2 w); lia)). lia.
Qed.

Lemma uwrap_range w z : 0 < w -> 0 <= uwrap w z < 2 ^ w.
Proof. intros Hw. apply Z.mod_pos_bound. pose proof (Z.pow_pos_nonneg 2 w). lia. Qed.

Lemma gives_items t t' (C : list (val F U) -> val F U) (m : outcome (error + list (val F U))) (P : list (val F U) -> Prop) :
  (exists r, m = Ret r /\ match r with inl _ => True | inr l => P l /\ Forall (has_type t') l end) ->
  (forall l, P l -> Forall (has_type t') l -> has_type t (C l)) -> gives_type t (rmap C m).
Proof. intros ([e|l] & -> & Hr) HC; cbn; [apply gives_err|]. apply gives_ret. by apply HC; apply Hr. Qed.

Lemma set_good n value : good n (fun t v => set n t v value).
Proof.
  revert value. induction n as [|n IH]; intros value t v Hd Hw Ht.
  { destruct t; cbn in Hd; lia. }
  assert (Hget : forall k val v, has_type t v -> gives_type t (get (set n) (fun t v => set n t v val) t v k)).
  { intros k w v' Hv'. apply (get_good n); [apply IH|exact IH|lia|done|done]. }
  destruct t as [|w|w| |t|fs|tk te|t|m t|i|]; cbn [Ini.set].
  - by apply gives_ret.
  - unfold or_syntax. destruct (Strconv.Atoi value); [|apply gives_err]. apply gives_ret. by apply swrap_range.
  - unfold or_syntax. destruct (Strconv.ParseUint value); [|apply gives_err]. apply gives_ret. by apply uwrap_range.
  - unfold or_syntax. destruct (ParseFloat value); [by apply gives_ret|apply gives_err].
  - destruct v as [| | |o| | | | | |]; try done. eapply gives_map; [|intros v Hv; exact Hv]. cbn in Hd.
    apply (IH value); [lia|done|]. destruct o; [done|]. by apply zero_typed.
  - apply set_fields_good; [|done]. intros k val. apply Hget.
  - apply set_fields_good; [|done]. intros k val. apply Hget.
  - eapply (gives_items _ t VSlice _ (fun _ => True)); [|done].
    destruct (set_items_good t (set n t) (repeat (zero_val zero_float zero_custom t) (length (Split x2c value))) (Split x2c value)) as (r & -> & Hr).
    + intros v' item Hv'. cbn in Hd. apply (IH item); [lia|done|done].
    + apply Forall_forall. intros v' Hv'%list_elem_of_In%repeat_spec. subst. by apply zero_typed.
    + by rewrite repeat_length.
    + exists r. split; [done|]. destruct r; [done|]. by destruct Hr.
  - destruct v as [| | | | | | |vs| |]; try done. destruct Ht as [Hl Hvs]. case_decide as Hlen; [apply gives_err|].
    eapply (gives_items _ t VArray _ (fun l => length l = length vs)).
    + apply set_items_good; [|done|done]. intros v' item Hv'. cbn in Hd. apply (IH item); [lia|done|done].
    + intros l Hll HF. split; [congruence|done].
  - destruct v as [| | | | | | | |j u|]; try done. cbn in Ht. subst j. destruct (Hcustom i value u) as [[e|u'] ->]; [apply gives_err|by apply gives_ret].
  - apply gives_err.
Qed.

Lemma setpath_typed t v section key value : widths_ok t -> has_type t v ->
  gives_type t (setpath zero_float ParseFloat zero_custom UnmarshalINI same (depth t) t v section key value).
Proof.
  intros Hw Hv. unfold setpath.
  assert (Hget : forall fn key, good (depth t) fn -> good (depth t) (fun t' v' => get (set (depth t)) fn t' v' key)).
  { intros fn k Hfn t' v' Hd' Hw' Hv'. apply (get_good (depth t)); [done|exact (set_good (depth t))|lia|done|done]. }
  destruct section; (apply Hget; [|lia|done|done]); [|apply Hget]; apply set_good.
Qed.

Lemma prefix_suffix_long (line : gostring) : line <> [] ->
  HasPrefix line (lit "[") && HasSuffix line (lit "]") = true -> ~ (length line < 2)%nat.
Proof.
  intros Hne [Hp Hs]%andb_true_iff. destruct line as [|a [|b l]]; [done| |cbn; lia].
  unfold HasPrefix, HasSuffix in *. cbn in *. apply bool_decide_eq_true in Hp, Hs. congruence.
Qed.

Lemma line_step_typed t section v line : line <> [] -> widths_ok t -> has_type t v ->
  exists r, line_step zero_float ParseFloat zero_custom UnmarshalINI same t section v line = Ret r /\
    match r with inl _ => True | inr q => has_type t q.2 end.
Proof.
  intros Hne Hw Hv. unfold line_step. destruct (HasPrefix line (lit "%include")); [by exists (inl ErrInclude)|].
  destruct (_ || _); [by exists (inr (section, v))|].
  destruct (HasPrefix line (lit "[") && _) eqn:Hs; [rewrite decide_False by (by apply prefix_suffix_long); eexists; by split|].
  destruct (cut_at x3d line) as [[key value]|]; [|by eexists; split].
  destruct (setpath_typed t v section (TrimSpace key) (TrimSpace value) Hw Hv) as (r & -> & Hr). destruct r; by eexists; split.
Qed.

Lemma cut_line_shorter data line rest : cut_line data = (line, rest) -> data <> [] -> (length rest < length data)%nat.
Proof.
  unfold cut_line. intros E Hne. destruct (cut_at x0a data) as [[a b]|] eqn:Hc; injection E as <- <-; [|destruct data; [done|cbn; lia]].
  clear Hne. revert a Hc. induction data as [|c data IH]; cbn; [done|]. intros a. case_decide; [intros [= <- <-]; lia|].
  destruct (cut_at x0a data) as [[a' b']|]; cbn; [|done]. intros [= <- <-]. specialize (IH a' eq_refl). lia.
Qed.

Lemma unmarshal_loop_typed fuel t section v data : widths_ok t -> has_type t v -> (length data < fuel)%nat ->
  gives_type t (unmarshal_loop zero_float ParseFloat zero_custom UnmarshalINI same fuel t section v data).
Proof.
  intros Hw. revert section v data. induction fuel as [|fuel IH]; intros section v data Hv Hf; [lia|]. cbn [unmarshal_loop].
  destruct (cut_line data) as [line rest] eqn:Hc.
  destruct data as [|b data]; [injection Hc as <- <-; by apply gives_ret|].
  apply cut_line_shorter in Hc; [|done]. destruct (TrimSpace line) as [|c l] eqn:Htrim.
  - destruct rest; [by apply gives_ret|]. apply IH; [done|cbn in *; lia].
  - destruct (line_step_typed t section v (c :: l)) as ([e|q] & -> & Hq); [done..|apply gives_err|]. cbn. apply IH; [done|cbn in *; lia].
Qed.
End Typed.

Lemma userlist_loop_returns Unquote fuel res data : (length data < fuel)%nat -> exists r, userlist_loop Unquote fuel res data = Ret r.
Proof.
  revert res data. induction fuel as [|fuel IH]; intros res data Hf; [lia|]. cbn [userlist_loop].
  destruct (cut_line data) as [line rest] eqn:Hc. destruct data as [|b data]; [injection Hc as <- <-; by eexists|].
  apply cut_line_shorter in Hc; [|done]. assert (Hnext : forall res, exists r, userlist_loop Unquote fuel res rest = Ret r) by (intros; apply IH; lia).
  destruct (TrimSpace line) as [|c l]; [destruct rest; [by eexists|apply Hnext]|].
  destruct (Fields (c :: l)) as [|k [|v ?]]; [by eexists..|]. destruct (Unquote k), (Unquote v); [apply Hnext|by eexists..].
Qed.

Lemma userlist_returns Unquote data : exists r, userlist_Unmarshal Unquote data = Ret r.
Proof. apply userlist_loop_returns. lia. Qed.

(** ** Theorems *)
Module IniTheorems.

(** C36: Reading an ini file into a Go value is total and safe: for every text and
    every type of structs, maps, pointers, slices, arrays and scalars, Unmarshal
    returns, if the UnmarshalINI methods of the types do; it neither panics nor
    loops; and unless it returns an error the value
    has the type it had before, with every integer within its width. *)
Theorem unmarshal_well_typed {F} (zero_float : F) ParseFloat {U} (zero_custom : nat -> U) UnmarshalINI same
    (t : typ) (data : gostring) (v : val F U) :
  (forall i value u, exists r, UnmarshalINI i value u = Ret r) -> widths_ok t -> has_type t v ->
  exists r, Unmarshal zero_float ParseFloat zero_custom UnmarshalINI same t data v = Ret r /\
    match r with inl _ => True | inr v' => has_type t v' end.
Proof. intros Hc Hw Hv. apply unmarshal_loop_typed; [done|done|done|lia]. Qed.

Lemma unmarshal_well_typed_witness :
  exists r, IniTest.unmarshal ["[databases]"; "a = port=70000"]%string = Ret r /\
    match r with inl _ => True | inr v' => has_type IniTest.root v' end.
Proof.
  apply (unmarshal_well_typed tt IniTest.ParseFloat (fun _ => tt) IniTest.custom IniTest.same IniTest.root); [by eexists|cbn; lia|].
  apply zero_typed. cbn. lia.
Defined.

(** A file that includes itself is read without end. *)
Lemma include_cycle fuel : ReadFile (fun _ => inr (lit "%include a")) fuel (lit "a") = Diverge.
Proof.
  assert (Hstep : forall read, read (lit "a") = Diverge -> read_loop read 12 [] (lit "%include a") = Diverge).
  { intros read H. vm_compute in H |- *. by rewrite H. }
  induction fuel as [|fuel IH]; [done|]. apply Hstep, IH.
Qed.
End IniTheorems.
