(* ===== verification/IniDoc.v ===== *)
(** * IniDoc: what an ini file says

    The reader of Ini works on bytes.  Here a file is a list of lines: blank ones,
    comments, section headers and settings, each indented and padded at will, and
    [run] says what they mean: the settings are stored one after the other, each
    under the section that was named last.  Unmarshal of the text of a file is
    [run] of its lines.  Then, for sections that are structs, what a field holds
    in the end; and that reading a file with its inclusions ends. *)

From Stdlib Require Import Init.Byte Strings.Byte Strings.String ZArith.
From S2P Require Import Prelude.
From S2P Require Import Wire.
From S2P Require Import Packets.
From S2P Require Import Strutil.
From S2P Require Import Encodings.
From S2P Require Import Fed.
From S2P Require Import Startup.
From S2P Require Import Credentials.
From S2P Require Import Ini.

Local Open Scope Z_scope.
Local Open Scope go_scope.

(** ** TrimSpace *)

(** An ASCII space that is no newline; an ASCII byte that is no space. *)
Definition blank (b : byte) : bool := existsb (Z.eqb (b2z b)) [9; 11; 12; 13; 32].
Definition solid (b : byte) : bool := (b2z b <? 0x80) && negb (IsSpace (b2z b)).

(** A text that is empty or begins and ends with a solid byte. *)
Definition edged (s : gostring) : bool :=
  match head s with Some b => solid b | None => true end && match last s with Some b => solid b | None => true end.

Lemma blank_space b : blank b = true -> b2z b < 0x80 /\ IsSpace (b2z b) = true.
Proof. destruct b; vm_compute; intros E; try discriminate E; (split; [done|reflexivity]). Qed.

Lemma solid_ascii b : solid b = true -> b2z b < 0x80 /\ IsSpace (b2z b) = false.
Proof. unfold solid. rewrite andb_true_iff, Z.ltb_lt, negb_true_iff. done. Qed.

Lemma trim_left_pad p s fuel : forallb blank p = true -> match head s with Some b => solid b | None => true end = true ->
  (length (p ++ s) <= fuel)%nat -> trim_left fuel (p ++ s) = s.
Proof.
  intros Hp Hs. revert fuel. induction p as [|b p IH]; intros fuel Hf; cbn [app] in *.
  - destruct fuel as [|fuel], s as [|b s]; try done. apply solid_ascii in Hs as [Ha Hs].
    cbn [trim_left DecodeRune]. rewrite (proj2 (Z.ltb_lt _ _) Ha). by rewrite Hs.
  - cbn in Hp. apply andb_true_iff in Hp as [[Ha Hb]%blank_space Hp]. destruct fuel as [|fuel]; [cbn in Hf; lia|].
    cbn [trim_left DecodeRune]. rewrite (proj2 (Z.ltb_lt _ _) Ha), Hb. cbn [drop]. apply IH; [done|cbn in Hf; lia].
Qed.

Lemma trim_right_step fuel s b : b2z b < 0x80 ->
  trim_right (S fuel) (s ++ [b]) = if IsSpace (b2z b) then trim_right fuel s else s ++ [b].
Proof.
  intros Ha. destruct (s ++ [b]) as [|x l] eqn:E; [by destruct s|].
  cbn [trim_right]. rewrite <- E. unfold DecodeLastRune. rewrite last_snoc, (proj2 (Z.ltb_lt _ _) Ha).
  rewrite length_app, Nat.add_sub, take_app_length. done.
Qed.

Lemma trim_right_pad s p fuel : forallb blank p = true -> match last s with Some b => solid b | None => true end = true ->
  (length (s ++ p) <= fuel)%nat -> trim_right fuel (s ++ p) = s.
Proof.
  intros Hp Hs. revert fuel. induction p as [|b p IH] using rev_ind; intros fuel Hf.
  - rewrite app_nil_r in *. destruct s as [|b s _] using rev_ind; [by destruct fuel|].
    rewrite last_snoc in Hs. apply solid_ascii in Hs as [Ha Hs]. destruct fuel as [|fuel]; [rewrite length_app in Hf; cbn in Hf; lia|].
    by rewrite trim_right_step, Hs.
  - rewrite forallb_app in Hp. apply andb_true_iff in Hp as [Hp Hb]. cbn in Hb. rewrite andb_true_r in Hb. apply blank_space in Hb as [Ha Hb].
    rewrite app_assoc in *. rewrite (length_app (s ++ p)) in Hf. cbn [length] in Hf. destruct fuel as [|fuel]; [lia|]. rewrite trim_right_step, Hb by done. apply IH; [done|lia].
Qed.

Lemma TrimSpace_pad p s q : forallb blank p = true -> forallb blank q = true -> edged s = true -> TrimSpace (p ++ s ++ q) = s.
Proof.
  intros Hp Hq [Hh Hl]%andb_true_iff. unfold TrimSpace. destruct s as [|b s].
  - cbn [app]. rewrite <- (app_nil_r (p ++ q)). rewrite trim_left_pad; [done|by rewrite forallb_app, Hp|done|done].
  - rewrite trim_left_pad; [|done|done|done]. apply trim_right_pad; done.
Qed.

Lemma TrimSpace_edged s : edged s = true -> TrimSpace s = s.
Proof. intros Hs. rewrite <- (app_nil_r s) at 1. by apply (TrimSpace_pad [] s []). Qed.

(** ** Lines *)

Inductive item :=
| Blank
| Comment (hash : bool) (text : gostring)
| Header (name : gostring)
| Setting (key before after value : gostring).   (* the spaces around = *)

#[export] Instance item_eq_dec : EqDecision item.
Proof. solve_decision. Defined.

Record line := mkLine { indent : gostring; what : item; rest : gostring }.

Definition body (i : item) : gostring :=
  match i with
  | Blank => []
  | Comment hash text => (if hash then x23 else x3b) :: text
  | Header name => x5b :: name ++ [x5d]
  | Setting key before after value => key ++ before ++ x3d :: after ++ value
  end.

Definition text_of (l : line) : gostring := indent l ++ body (what l) ++ rest l ++ [x0a].
Definition render (ls : list line) : gostring := concat (text_of <$> ls).

(** A key begins with no byte that makes the line something else. *)
Definition key_ok (key : gostring) : bool :=
  match key with
  | [] => false
  | b :: _ => negb (bool_decide (b ∈ [x25; x3b; x23; x5b])) && negb (bool_decide (x3d ∈ key))
  end.

Definition item_ok (i : item) : bool :=
  match i with
  | Setting key before after value =>
      key_ok key && edged key && edged value && forallb blank before && forallb blank after
  | i => edged (body i)
  end.

Definition line_ok (l : line) : bool :=
  forallb blank (indent l) && forallb blank (rest l) && item_ok (what l) && negb (bool_decide (x0a ∈ body (what l))).

Lemma blank_no_newline p : forallb blank p = true -> x0a ∉ p.
Proof. intros Hp. by apply (forallb_not_in blank). Qed.

Lemma edged_app s m t : s <> [] -> t <> [] -> edged s = true -> edged t = true -> edged (s ++ m ++ t) = true.
Proof.
  unfold edged. intros Hs Ht [H1 _]%andb_true_iff [_ H2]%andb_true_iff. destruct s as [|b s]; [done|].
  destruct t as [|c t _] using rev_ind; [done|]. rewrite last_snoc in H2.
  rewrite !app_assoc, last_snoc, H2, andb_true_r. done.
Qed.

(** The spaces before a value that is empty are trimmed off. *)
Definition trim_item (i : item) : item :=
  match i with Setting key before _ [] => Setting key before [] [] | i => i end.

Lemma item_ok_trim i : item_ok i = true -> item_ok (trim_item i) = true.
Proof. destruct i as [| | |key before after [|b value]]; try done. cbn. rewrite !andb_true_iff. tauto. Qed.

Lemma body_edged i : item_ok i = true -> edged (body (trim_item i)) = true.
Proof.
  destruct i as [| | |key before after value]; try done. cbn [item_ok]. rewrite !andb_true_iff. intros [[[[Hk Hke] Hv] Hb] Ha].
  assert (key <> []) by (by destruct key). destruct value as [|b value]; cbn [trim_item body app].
  - by apply edged_app.
  - replace (key ++ before ++ x3d :: after ++ b :: value) with (key ++ (before ++ x3d :: after) ++ b :: value) by (by rewrite <- !app_assoc).
    by apply edged_app.
Qed.

(** What the reader makes of a line. *)
Lemma trimmed i p q : item_ok i = true -> forallb blank p = true -> forallb blank q = true ->
  TrimSpace (p ++ body i ++ q) = body (trim_item i).
Proof.
  intros Hi Hp Hq. pose proof (body_edged i Hi) as He. destruct i as [| | |key before after [|b value]]; try by apply TrimSpace_pad.
  cbn in Hi. rewrite !andb_true_iff in Hi. destruct Hi as [_ Ha]. cbn [trim_item body] in *. rewrite !app_nil_r in *.
  replace ((key ++ before ++ x3d :: after) ++ q) with ((key ++ before ++ [x3d]) ++ after ++ q) by (by rewrite <- !app_assoc).
  apply TrimSpace_pad; [done|by rewrite forallb_app, Ha|done].
Qed.

(** ** The meaning of a file *)
Section Run.
Context {F : Type} (zero_float : F) (ParseFloat : gostring -> option F).
Context {U : Type} (zero_custom : nat -> U) (UnmarshalINI : nat -> gostring -> U -> outcome (error + U)).
Context (same : val F U -> val F U -> bool).
Abbreviation set := (Ini.set zero_float ParseFloat zero_custom UnmarshalINI same).
Abbreviation get := (Ini.get zero_float zero_custom same).
Abbreviation setpath := (Ini.setpath zero_float ParseFloat zero_custom UnmarshalINI same).
Abbreviation line_step := (Ini.line_step zero_float ParseFloat zero_custom UnmarshalINI same).
Abbreviation unmarshal_loop := (Ini.unmarshal_loop zero_float ParseFloat zero_custom UnmarshalINI same).
Abbreviation Unmarshal := (Ini.Unmarshal zero_float ParseFloat zero_custom UnmarshalINI same).

Fixpoint run (t : typ) (l : list item) (section : gostring) (v : val F U) : outcome (error + val F U) :=
  match l with
  | [] => Ret (inr v)
  | Header name :: l => run t l name v
  | Setting key _ _ value :: l => rbind (setpath (depth t) t v section key value) (run t l section)
  | _ :: l => run t l section v
  end.

Lemma prefix_no (s p : gostring) b c : head s = Some b -> head p = Some c -> b <> c -> HasPrefix s p = false.
Proof.
  destruct s as [|b' s], p as [|c' p]; try done. intros [= ->] [= ->] Hb. unfold HasPrefix.
  apply bool_decide_eq_false. cbn. congruence.
Qed.

Lemma not_special s b : head s = Some b -> b ∉ [x25; x3b; x23] ->
  HasPrefix s (lit "%include") = false /\ HasPrefix s (lit ";") || HasPrefix s (lit "#") = false.
Proof.
  intros Hs Hb. rewrite (prefix_no s (lit "%include") b x25 Hs eq_refl), (prefix_no s (lit ";") b x3b Hs eq_refl),
    (prefix_no s (lit "#") b x23 Hs eq_refl) by set_solver.
  done.
Qed.

(** A line that is not blank. *)
Lemma line_step_item t section v i : item_ok i = true -> i <> Blank -> forall p q, forallb blank p = true -> forallb blank q = true ->
  TrimSpace (p ++ body i ++ q) <> [] /\
  line_step t section v (TrimSpace (p ++ body i ++ q)) =
    match i with
    | Header name => Ret (inr (name, v))
    | Setting key _ _ value => rmap (fun v => (section, v)) (setpath (depth t) t v section key value)
    | _ => Ret (inr (section, v))
    end.
Proof.
  intros Hok Hi p q Hp Hq. destruct i as [|hash text|name|key before after value]; [done| | |].
  - rewrite TrimSpace_pad by done. split; [done|]. unfold Ini.line_step. destruct hash; by cbn.
  - rewrite TrimSpace_pad by done. split; [done|]. unfold Ini.line_step.
    destruct (not_special (body (Header name)) x5b eq_refl) as [-> ->]; [set_solver|].
    assert (HasSuffix (body (Header name)) (lit "]") = true) as ->.
    { apply bool_decide_eq_true. change (length (lit "]")) with 1%nat. cbn [body].
      rewrite app_comm_cons, length_app, Nat.add_sub, drop_app_length. done. }
    change (HasPrefix (body (Header name)) (lit "[")) with true. cbn [andb].
    assert (length (body (Header name)) = S (S (length name))) as -> by (cbn; rewrite length_app; cbn; lia).
    rewrite decide_False by lia. replace (S (S (length name)) - 2)%nat with (length name) by lia. change (drop 1 (body (Header name))) with (name ++ [x5d]). by rewrite take_app_length.
  - cbn in Hok. repeat (apply andb_true_iff in Hok as [Hok ?]).
    destruct key as [|b key]; [done|]. cbn [key_ok] in Hok. apply andb_true_iff in Hok as [Hb He].
    apply negb_true_iff, bool_decide_eq_false in Hb, He.
    rewrite trimmed by (done || (cbn [item_ok key_ok]; rewrite !bool_decide_eq_false_2 by done; by rewrite !andb_true_iff)).
    assert (exists tail, body (trim_item (Setting (b :: key) before after value)) = (b :: key) ++ before ++ x3d :: tail /\ TrimSpace tail = value)
      as (tail & -> & Hv).
    { destruct value as [|v0 value]; eexists; (split; [done|]); [done|].
      rewrite <- (app_nil_r (v0 :: value)) at 1. by apply TrimSpace_pad. }
    split; [done|]. unfold Ini.line_step.
    destruct (not_special ((b :: key) ++ before ++ x3d :: tail) b eq_refl) as [-> ->]; [set_solver|].
    rewrite (prefix_no ((b :: key) ++ before ++ x3d :: tail) (lit "[") b x5b eq_refl eq_refl) by set_solver. cbn [andb].
    rewrite app_assoc, cut_at_app.
    2: { rewrite not_elem_of_app. split; [done|]. by apply (forallb_not_in blank). }
    rewrite Hv. rewrite <- (app_nil_l (b :: key)), <- app_assoc, TrimSpace_pad by done. done.
Qed.

Lemma run_blank t section v l : run t (Blank :: l) section v = run t l section v.
Proof. done. Qed.

Lemma cut_line_render l ls : line_ok l = true -> cut_line (render (l :: ls)) = (indent l ++ body (what l) ++ rest l, render ls).
Proof.
  unfold line_ok. rewrite !andb_true_iff, negb_true_iff, bool_decide_eq_false. intros [[[Hi Hr] _] Hb].
  unfold cut_line, render, text_of. cbn [fmap list_fmap concat].
  replace ((indent l ++ body (what l) ++ rest l ++ [x0a]) ++ _)
    with ((indent l ++ body (what l) ++ rest l) ++ x0a :: concat (text_of <$> ls)) by (by rewrite <- !app_assoc).
  rewrite cut_at_app; [done|]. rewrite !not_elem_of_app. split_and!; [by apply blank_no_newline|done|by apply blank_no_newline].
Qed.

Lemma length_render l ls : (length (render ls) < length (render (l :: ls)))%nat.
Proof. unfold render, text_of. cbn [fmap list_fmap concat]. rewrite !length_app. cbn. lia. Qed.

Lemma unmarshal_loop_render t fuel ls section v : Forall (fun l => line_ok l = true) ls -> (length (render ls) < fuel)%nat ->
  unmarshal_loop fuel t section v (render ls) = run t (what <$> ls) section v.
Proof.
  intros Hls. revert fuel section v. induction Hls as [|l ls Hl Hls IH]; intros fuel section v Hf.
  { destruct fuel; [lia|done]. }
  destruct fuel as [|fuel]; [lia|]. pose proof (length_render l ls). cbn [Ini.unmarshal_loop]. rewrite cut_line_render by done.
  pose proof Hl as Hok. unfold line_ok in Hok. rewrite !andb_true_iff in Hok. destruct Hok as [[[Hi Hr] Hok] _].
  destruct (decide (what l = Blank)) as [Hw|Hw].
  - assert (TrimSpace (indent l ++ body (what l) ++ rest l) = []) as -> by (rewrite Hw; by apply TrimSpace_pad).
    cbn [fmap list_fmap]. rewrite Hw, run_blank. destruct (render ls) as [|c r] eqn:E; [|apply IH; lia].
    destruct ls as [|l' ls]; [done|]. pose proof (length_render l' ls). rewrite E in *. cbn in *. lia.
  - destruct (line_step_item t section v (what l) Hok Hw (indent l) (rest l) Hi Hr) as [Hne E].
    destruct (TrimSpace _) as [|c s] eqn:Et; [done|]. rewrite E. cbn [fmap list_fmap].
    destruct (what l) as [| | |key before after value]; [done|cbn; apply IH; lia|cbn; apply IH; lia|]. cbn [run].
    destruct (setpath _ _ _ _ _ _) as [[e|v']| |]; cbn; try done. apply IH. lia.
Qed.

Lemma unmarshal_render t ls v : Forall (fun l => line_ok l = true) ls -> Unmarshal t (render ls) v = run t (what <$> ls) [] v.
Proof. intros Hls. apply unmarshal_loop_render; [done|lia]. Qed.

(** ** Sections that are structs *)

(** No field is named *, no two alike. *)
Definition plain (fs : list (gostring * typ)) : Prop := Forall (fun f => f.1 <> lit "*") fs /\ NoDup fs.*1.

(** Where [key] is stored: in the field of that name, and nowhere else. *)
Lemma get_fields_plain rec fn key fs (vs dn : list (val F U)) v' :
  plain fs -> get_fields rec fn key fs vs dn = Ret (inr v') -> length vs = length fs ->
  exists vs', v' = VStruct (dn ++ vs') /\ length vs' = length fs /\
    forall i name t, fs !! i = Some (name, t) ->
      if decide (name = key) then exists v w, vs !! i = Some v /\ vs' !! i = Some w /\ fn t v = Ret (inr w)
      else vs' !! i = vs !! i.
Proof.
  intros [Hs Hn]. revert vs dn. induction fs as [|[name t] fs IH]; intros vs dn E Hl; destruct vs as [|v vs]; try done.
  { injection E as <-. exists []. split_and!; [done|done|]. intros i ? ?. by rewrite lookup_nil. }
  rewrite get_fields_cons in E. apply Forall_cons in Hs as [Hs1 Hs]. apply NoDup_cons in Hn as [Hn1 Hn]. cbn in Hs1, Hn1, Hl. injection Hl as Hl.
  rewrite decide_False in E by done. case_decide as Hk.
  - subst name. destruct (fn t v) as [[e|w]| |] eqn:Ef; cbn in E; try discriminate E. injection E as <-.
    exists (w :: vs). split_and!; [done|cbn; congruence|]. intros [|i] name' t'; cbn; [intros [= <- <-]; rewrite decide_True by done; by exists v, w|].
    intros Hi. rewrite decide_False; [done|]. intros ->. apply Hn1. apply list_elem_of_fmap. eexists (key, t'). split; [done|].
    by eapply list_elem_of_lookup_2.
  - destruct (IH Hs Hn vs (dn ++ [v]) E Hl) as (vs' & -> & Hl' & Hf). exists (v :: vs'). split_and!; [by rewrite <- app_assoc|cbn; congruence|].
    intros [|i] name' t'; cbn; [intros [= <- <-]; by rewrite decide_False|apply Hf].
Qed.

Lemma get_plain sk fn key fs (vs : list (val F U)) v' :
  plain fs -> get sk fn (TStruct fs) (VStruct vs) key = Ret (inr v') -> length vs = length fs ->
  exists vs', v' = VStruct vs' /\ length vs' = length fs /\
    forall i name t, fs !! i = Some (name, t) ->
      if decide (name = key) then exists v w, vs !! i = Some v /\ vs' !! i = Some w /\ fn t v = Ret (inr w)
      else vs' !! i = vs !! i.
Proof. intros Hp E Hl. cbn [Ini.get] in E. by apply (get_fields_plain _ _ _ _ _ [] _ Hp E Hl). Qed.

(** The field [j] of the section [i]. *)
Definition field_of (i j : nat) (v : val F U) : option (val F U) :=
  match v with
  | VStruct vs => match vs !! i with Some (VStruct ws) => ws !! j | _ => None end
  | _ => None
  end.

(** The last setting of [key] in [sec]: what it stores, or what was there. *)
Fixpoint last_setting (sec key : gostring) (section : gostring) (l : list item) (old : option (val F U)) : option (val F U) :=
  match l with
  | [] => old
  | Header name :: l => last_setting sec key name l old
  | Setting k _ _ value :: l =>
      last_setting sec key section l (if decide (section = sec /\ k = key) then Some (VString value) else old)
  | _ :: l => last_setting sec key section l old
  end.

(** Every setting is under a header that names a section. *)
Fixpoint headed (section : gostring) (l : list item) : bool :=
  match l with
  | [] => true
  | Header name :: l => headed name l
  | Setting _ _ _ _ :: l => negb (bool_decide (section = [])) && headed section l
  | _ :: l => headed section l
  end.

Section Fields.
Context (fs gs : list (gostring * typ)) (sec key : gostring) (i j : nat).
Context (Hfs : plain fs) (Hgs : plain gs) (Hi : fs !! i = Some (sec, TStruct gs)) (Hj : gs !! j = Some (key, TString)).

(** The value has the shape of the structs. *)
Definition shaped (v : val F U) : Prop :=
  exists vs ws, v = VStruct vs /\ length vs = length fs /\ vs !! i = Some (VStruct ws) /\ length ws = length gs.

Lemma setpath_field n v section k value v' : section <> [] -> shaped v ->
  setpath (S n) (TStruct fs) v section k value = Ret (inr v') ->
  shaped v' /\ field_of i j v' = if decide (section = sec /\ k = key) then Some (VString value) else field_of i j v.
Proof.
  intros Hs (vs & ws & -> & Hlv & Hv & Hlw) E. unfold Ini.setpath in E. destruct section as [|c section]; [done|].
  destruct (get_plain _ _ _ _ _ _ Hfs E Hlv) as (vs' & -> & Hlv' & Hf). specialize (Hf i sec (TStruct gs) Hi).
  destruct (decide (sec = c :: section)) as [->|Hne].
  - destruct Hf as (v & w & Hv1 & Hw & Eg). rewrite Hv in Hv1. injection Hv1 as <-.
    destruct (get_plain _ _ _ _ _ _ Hgs Eg Hlw) as (ws' & -> & Hlw' & Hg). specialize (Hg j key TString Hj).
    split; [by exists vs', ws'|]. cbn [field_of]. rewrite Hw, Hv. destruct (decide (key = k)) as [->|Hk].
    + destruct Hg as (x & y & _ & Hy & Ey). rewrite decide_True by done. rewrite Hy. cbn in Ey. by injection Ey as <-.
    + by rewrite decide_False by (intros [_ ?]; congruence).
  - rewrite Hv in Hf. split; [by exists vs', ws|]. cbn [field_of]. rewrite Hf, Hv. by rewrite decide_False by (intros [? _]; congruence).
Qed.

Lemma run_field l section v v' : headed section l = true -> shaped v -> run (TStruct fs) l section v = Ret (inr v') ->
  field_of i j v' = last_setting sec key section l (field_of i j v).
Proof.
  revert section v. induction l as [|it l IH]; intros section v Hl Hv E; [by injection E as <-|].
  destruct it as [|hash text|name|k b a value]; cbn in Hl, E |- *; [by apply IH..|].
  apply andb_true_iff in Hl as [Hs%negb_true_iff%bool_decide_eq_false Hl].
  destruct (setpath _ _ _ _ _ _) as [[e|v1]| |] eqn:Es; cbn in E; try discriminate E.
  destruct (setpath_field _ _ _ _ _ _ Hs Hv Es) as [Hv1 <-]. by apply IH.
Qed.
End Fields.
End Run.

(** ** Reading a file with its inclusions ends *)

(** The files that [path] includes. *)
Definition included (files : gostring -> error + gostring) (path q : gostring) : Prop :=
  exists text l, files path = inr text /\ l ∈ Split x0a text /\
    HasPrefix (TrimSpace l) (lit "%include") = true /\ q = TrimSpace (drop 8 (TrimSpace l)).

Lemma Split_cut c s :
  match cut_at c s with
  | Some (a, b) => Split c s = a :: Split c b
  | None => Split c s = [s]
  end.
Proof.
  induction s as [|b s IH]; [done|]. cbn. case_decide; [done|].
  destruct (cut_at c s) as [[a r]|]; by rewrite IH.
Qed.

Lemma cut_line_Split text l r : cut_line text = (l, r) -> l ∈ Split x0a text /\ (r <> [] -> forall x, x ∈ Split x0a r -> x ∈ Split x0a text).
Proof.
  unfold cut_line. pose proof (Split_cut x0a text) as Hs. destruct (cut_at x0a text) as [[a b]|]; intros [= <- <-]; rewrite Hs; set_solver.
Qed.

Lemma read_loop_returns read fuel result text :
  (forall l, l ∈ Split x0a text -> HasPrefix (TrimSpace l) (lit "%include") = true -> exists r, read (TrimSpace (drop 8 (TrimSpace l))) = Ret r) ->
  (length text < fuel)%nat -> exists r, read_loop read (S fuel) result text = Ret r.
Proof.
  revert result text. induction fuel as [|fuel IH]; intros result text Hr Hf; [lia|]. remember (S fuel) as n eqn:En. cbn [read_loop].
  destruct (cut_line text) as [l r] eqn:Hc. destruct (cut_line_Split _ _ _ Hc) as [Hl Hrest].
  destruct (decide (r = [])) as [->|Hne].
  { destruct (TrimSpace l) as [|c s] eqn:Et; [by eexists|].
    subst n. destruct (HasPrefix (c :: s) (lit "%include")) eqn:Hp; [|by eexists].
    destruct (Hr l Hl) as [[e|b] E]; [by rewrite Et|rewrite Et in E; rewrite E; by eexists..]. }
  assert (Htext : text <> []) by (intros ->; by injection Hc as _ <-).
  pose proof (cut_line_shorter _ _ _ Hc Htext). assert (Hnext : forall res, exists q, read_loop read n res r = Ret q).
  { intros res. subst n. apply IH; [|lia]. intros l' Hl'. apply Hr. by apply Hrest. }
  destruct (TrimSpace l) as [|c s] eqn:Et; [destruct r; [done|apply Hnext]|].
  destruct (HasPrefix (c :: s) (lit "%include")) eqn:Hp; [|apply Hnext].
  destruct (Hr l Hl) as [[e|b] E]; [by rewrite Et|rewrite Et in E; rewrite E; by eexists|rewrite Et in E; rewrite E; cbn; apply Hnext].
Qed.

Lemma ReadFile_returns files (rank : gostring -> nat) fuel path :
  (forall p q, included files p q -> (rank q < rank p)%nat) -> (rank path < fuel)%nat -> exists r, ReadFile files fuel path = Ret r.
Proof.
  intros Hrank. revert path. induction fuel as [|fuel IH]; intros path Hf; [lia|]. cbn [ReadFile].
  destruct (files path) as [e|text] eqn:Ef; [by eexists|]. apply read_loop_returns; [|lia]. intros l Hl Hp. apply IH.
  assert (included files path (TrimSpace (drop 8 (TrimSpace l)))) as H%Hrank by (by exists text, l). lia.
Qed.

(** ** Reading a file without inclusions *)

(** Its lines, trimmed; and it may end with one more. *)
Definition trim_line (l : line) : line := mkLine [] (trim_item (what l)) [].
Definition empty_line : line := mkLine [] Blank [].

Lemma not_include i : item_ok i = true -> HasPrefix (body (trim_item i)) (lit "%include") = false.
Proof.
  intros Hi. destruct i as [|hash text|name|key before after value]; [done| | |].
  - apply (prefix_no _ _ (if hash then x23 else x3b) x25); [done|done|by destruct hash].
  - by apply (prefix_no _ _ x5b x25).
  - destruct key as [|b key]; [done|]. apply (prefix_no _ _ b x25); [by destruct value|done|].
    cbn in Hi. rewrite !andb_true_iff, !negb_true_iff, !bool_decide_eq_false in Hi. destruct Hi as [[[[[Hb _] _] _] _] _]. set_solver.
Qed.

Lemma body_trim_nonempty i : item_ok i = true -> i <> Blank -> body (trim_item i) <> [].
Proof. destruct i as [| | |[|b key] before after value]; try done. by destruct value. Qed.

Lemma render_app ls ls' : render (ls ++ ls') = render ls ++ render ls'.
Proof. unfold render. by rewrite fmap_app, concat_app. Qed.

Lemma render_nil_inv ls : render ls = [] -> ls = [].
Proof. destruct ls as [|l ls]; [done|]. intros E. pose proof (length_render l ls) as H. rewrite E in H. cbn in H. lia. Qed.

Lemma read_loop_render read fuel result ls : Forall (fun l => line_ok l = true) ls -> (length (render ls) < fuel)%nat ->
  exists k, read_loop read fuel result (render ls) = Ret (inr (result ++ render ((trim_line <$> ls) ++ repeat empty_line k))).
Proof.
  intros Hls. revert fuel result. induction Hls as [|l ls Hl Hls IH]; intros fuel result Hf.
  { destruct fuel; [lia|]. by exists 1%nat. }
  destruct fuel as [|fuel]; [lia|]. pose proof (length_render l ls). cbn [read_loop]. rewrite cut_line_render by done.
  unfold line_ok in Hl. rewrite !andb_true_iff in Hl. destruct Hl as [[[Hi Hr] Hok] _]. rewrite trimmed by done.
  cbn [fmap list_fmap]. change (render ((trim_line l :: _) ++ ?x)) with (text_of (trim_line l) ++ render ((trim_line <$> ls) ++ x)).
  unfold text_of at 1. cbn [trim_line indent what rest app]. destruct (decide (what l = Blank)) as [Hw|Hw].
  - rewrite Hw. cbn [trim_item body app]. destruct (render ls) as [|c r] eqn:E.
    + apply render_nil_inv in E as ->. by exists 0%nat.
    + destruct (IH fuel (result ++ [x0a])) as [k Hk]; [lia|]. exists k. rewrite Hk. by rewrite <- app_assoc.
  - rewrite not_include by done. pose proof (body_trim_nonempty _ Hok Hw) as Hb.
    destruct (IH fuel (result ++ body (trim_item (what l)) ++ [x0a])) as [k Hk]; [lia|]. exists k.
    destruct (body (trim_item (what l))) as [|c b]; [done|]. rewrite Hk. by rewrite <- !app_assoc.
Qed.

Lemma line_ok_trim l : line_ok l = true -> line_ok (trim_line l) = true.
Proof.
  unfold line_ok. rewrite !andb_true_iff, !negb_true_iff, !bool_decide_eq_false. intros [[[_ _] Hok] Hn].
  split_and!; [done|done|by apply item_ok_trim|]. cbn [trim_line what].
  destruct (what l) as [| | |key before after [|b value]]; try done. cbn in *. set_solver.
Qed.

Lemma run_trim {F} (zero_float : F) ParseFloat {U} (zero_custom : nat -> U) UnmarshalINI same t l k section (v : val F U) :
  run zero_float ParseFloat zero_custom UnmarshalINI same t ((trim_item <$> l) ++ repeat Blank k) section v =
  run zero_float ParseFloat zero_custom UnmarshalINI same t l section v.
Proof.
  revert section v. induction l as [|it l IH]; intros section v; [by induction k|].
  destruct it as [| | |key before after value]; cbn; [apply IH..|].
  destruct value; cbn; (destruct (setpath _ _ _ _ _ _ _ _ _ _ _) as [[e|v']| |]; cbn; [done|apply IH|done|done]).
Qed.

(** Such a file is read, and read as its lines say. *)
Lemma read_and_run {F} (zero_float : F) ParseFloat {U} (zero_custom : nat -> U) UnmarshalINI same t files fuel path ls (v : val F U) :
  files path = inr (render ls) -> Forall (fun l => line_ok l = true) ls ->
  rbind (ReadFile files (S fuel) path) (fun text => Unmarshal zero_float ParseFloat zero_custom UnmarshalINI same t text v) =
  run zero_float ParseFloat zero_custom UnmarshalINI same t (what <$> ls) [] v.
Proof.
  intros Hp Hls. cbn [ReadFile]. rewrite Hp. destruct (read_loop_render (ReadFile files fuel) (S (S (length (render ls)))) [] ls) as [k ->];
    [done|lia|]. cbn [rbind app obind]. rewrite unmarshal_render.
  - rewrite fmap_app, <- list_fmap_compose. rewrite <- (run_trim _ _ _ _ _ _ (what <$> ls) k), <- list_fmap_compose. f_equal. f_equal.
    induction k as [|k IH]; cbn; [done|by f_equal].
  - apply Forall_app. split.
    + apply Forall_fmap. eapply Forall_impl; [exact Hls|]. apply line_ok_trim.
    + apply Forall_forall. intros l ->%list_elem_of_In%repeat_spec. done.
Qed.

(** ** Theorems *)
Module IniDocTheorems.

(** C37: The reader of ini files reads the grammar it means to: for a file of blank
    lines, comments, headers and settings, however they are indented and padded,
    Unmarshal stores exactly the settings, trimmed, in their order, each under the
    section named last, and stops at the first one that cannot be stored. *)
Theorem unmarshal_document {F} (zero_float : F) ParseFloat {U} (zero_custom : nat -> U) UnmarshalINI same
    (t : typ) (ls : list line) (v : val F U) :
  Forall (fun l => line_ok l = true) ls ->
  Unmarshal zero_float ParseFloat zero_custom UnmarshalINI same t (render ls) v =
  run zero_float ParseFloat zero_custom UnmarshalINI same t (what <$> ls) [] v.
Proof. apply unmarshal_render. Qed.

Definition ex_doc : list line :=
  [mkLine [] (Comment true (lit " databases")) [x0d]; mkLine [x20] (Header (lit "databases")) []; mkLine [] Blank [x09];
   mkLine [x09] (Setting (lit "a") [x20] [x20; x20] (lit "host=h port=5432")) [x0d]].

Lemma unmarshal_document_witness :
  Forall (fun l => line_ok l = true) ex_doc /\
  Ini.Unmarshal tt IniTest.ParseFloat (fun _ => tt) IniTest.custom IniTest.same IniTest.root (render ex_doc) (zero_val tt (fun _ => tt) IniTest.root) =
  Ret (inr (VStruct [VMap (Some [(IniTest.str "a", IniTest.db "h" 5432 "" "" "" "" "" "")]); VMap None; zero_val tt (fun _ => tt) IniTest.pgbouncer])).
Proof.
  assert (H : Forall (fun l => line_ok l = true) ex_doc) by (repeat constructor). split; [exact H|].
  rewrite (unmarshal_document tt IniTest.ParseFloat (fun _ => tt) IniTest.custom IniTest.same IniTest.root ex_doc _ H). by vm_compute.
Defined.
End IniDocTheorems.
