(* ===== verification/Gsql.v ===== *)
(** * Gsql: lib/gsql, the SQL client that the program itself uses

    Query and ExtendedQuery send a query over a connection and fill Go values
    with the rows of the reply, by reflection.  The types they meet are [typ] and
    the values [val]; a field of a struct has the name of its sql tag.  A place is
    a value with its type and whether it can be set ([settable]: reflect's CanSet,
    true for what is reached through a pointer); the functions that find a place
    take what is done with it as an argument and return the whole value, changed.
    Where the code fails it returns the error; what it has filled by then is
    dropped.

    strconv.ParseFloat and FormatFloat are parameters. *)

From Stdlib Require Import Init.Byte Strings.Byte Strings.String ZArith.
From S2P Require Import Prelude.
From S2P Require Import Wire.
From S2P Require Import Packets.
From S2P Require Import Strutil.
From S2P Require Import Encodings.
From S2P Require Import Fed.
From S2P Require Import Perror.

Local Open Scope Z_scope.
Local Open Scope go_scope.
Local Open Scope io_scope.

#[local] Abbreviation lit := list_byte_of_string.

Definition ErrResultTooBig : error := ErrOther 60.
Definition ErrExtraFields : error := ErrOther 61.
Definition ErrResultMustBeNonNil : error := ErrOther 62.
Definition ErrUnexpected : error := ErrOther 63.              (* ErrUnexpectedType *)
Definition ErrExpectedReadyForQuery : error := ErrOther 64.
Definition ErrNumber : error := ErrOther 65.                  (* of strconv *)

(** ** Types and values *)

Inductive typ :=
| TString
| TInt (width : Z)
| TUint (width : Z)
| TFloat
| TBool
| TPtr (t : typ)
| TStruct (fields : list (gostring * typ))      (* the exported ones *)
| TMap (string_keys : bool) (elem : typ)
| TSlice (t : typ)
| TArray (n : nat) (t : typ)
| TOther.

Section Gsql.
Context {F : Type} (zero_float : F) (ParseFloat : gostring -> option F) (FormatFloat : F -> gostring).

Inductive val :=
| VString (s : gostring)
| VInt (z : Z)
| VFloat (f : F)
| VBool (b : bool)
| VPtr (v : option val)
| VStruct (fields : list val)
| VMap (m : option (list (gostring * val)))     (* None: nil; no key twice *)
| VSlice (l : list val)
| VArray (l : list val)
| VOther.

Fixpoint zero_val (t : typ) : val :=
  match t with
  | TString => VString []
  | TInt _ | TUint _ => VInt 0
  | TFloat => VFloat zero_float
  | TBool => VBool false
  | TPtr _ => VPtr None
  | TStruct fs => VStruct (map (fun f => zero_val f.2) fs)
  | TMap _ _ => VMap None
  | TSlice _ => VSlice []
  | TArray n t => VArray (repeat (zero_val t) n)
  | TOther => VOther
  end.

(** What is done with a place: the value it has then. *)
Abbreviation act := (bool -> typ -> val -> error + val).

Definition smap {A B} (f : A -> B) (m : error + A) : error + B := match m with inl e => inl e | inr a => inr (f a) end.

(** ** setColumn *)

(** "unptr": the loop that follows pointers, making them where they are nil. *)
Fixpoint unptr (k : act) (settable : bool) (t : typ) (v : val) : error + val :=
  match t, v with
  | TPtr t, VPtr None => if settable then smap (fun v => VPtr (Some v)) (unptr k true t (zero_val t)) else inl ErrResultMustBeNonNil
  | TPtr t, VPtr (Some v) => smap (fun v => VPtr (Some v)) (unptr k true t v)
  | _, _ => k settable t v
  end.

(** [result.Index(row)] *)
Definition at_index (row : nat) (f : list val -> val) (k : val -> error + val) (vs : list val) : error + val :=
  match vs !! row with Some v => smap (fun v => f (<[row := v]> vs)) (k v) | None => inl ErrResultTooBig end.

(** "get row" *)
Definition get_row (row : nat) (k : act) : act := fun settable t v =>
  match t, v with
  | TArray _ t, VArray vs => at_index row VArray (k settable t) vs
  | TSlice t, VSlice vs =>
      if decide (row < length vs)%nat then at_index row VSlice (k true t) vs
      else if settable then at_index row VSlice (k true t) (vs ++ repeat (zero_val t) (S row - length vs))
      else inl ErrResultTooBig
  | TStruct _, _ | TMap _ _, _ => if decide (row <> 0%nat) then inl ErrResultTooBig else k settable t v
  | _, _ => inl ErrUnexpected
  end.

(** A field for the column [i] that is called [name]: by its tag, or by a tag that is the number. *)
Definition names (name : gostring) (i : nat) (f : gostring * typ) : bool :=
  bool_decide (f.1 = name) || bool_decide (Strconv.Atoi f.1 = Some (Z.of_nat i)).

Fixpoint map_set (k : gostring) (v : val) (m : list (gostring * val)) : list (gostring * val) :=
  match m with
  | [] => [(k, v)]
  | (k', v') :: m => if decide (k = k') then (k, v) :: m else (k', v') :: map_set k v m
  end.

(** "get field" *)
Definition get_field (name : gostring) (i : nat) (k : act) : act := fun settable t v =>
  match t, v with
  | TStruct fs, VStruct vs =>
      match list_find (fun f => names name i f = true) fs with
      | Some (j, (_, t)) =>
          match vs !! j with Some v => smap (fun v => VStruct (<[j := v]> vs)) (k settable t v) | None => inl ErrUnexpected end
      | None => inr (VStruct vs)
      end
  | TMap string_keys te, VMap m =>
      if negb string_keys then inl ErrUnexpected
      else if bool_decide (m = None) && negb settable then inl ErrResultMustBeNonNil
      else smap (fun v => VMap (Some (map_set name v (default [] m)))) (k true te (zero_val te))
  | _, _ => inl ErrUnexpected
  end.

(** The last switch: the text of a column as a value. *)
Definition scan (col : gostring) (t : typ) : error + val :=
  match t with
  | TString => inr (VString col)
  | TUint w => match Strconv.ParseUint col with Some z => inr (VInt (uwrap w z)) | None => inl ErrNumber end
  | TInt w => match Strconv.Atoi col with Some z => inr (VInt (swrap w z)) | None => inl ErrNumber end
  | TFloat => match ParseFloat col with Some f => inr (VFloat f) | None => inl ErrNumber end
  | TBool =>
      match col with
      | [c] => if decide (c = x66) then inr (VBool false) else if decide (c = x74) then inr (VBool true) else inl ErrUnexpected
      | _ => inl ErrUnexpected
      end
  | _ => inl ErrUnexpected
  end.

(** A column is stored; NULL in a pointer only. *)
Definition put (col : option gostring) : act := fun settable t v =>
  if negb settable then inl ErrUnexpected
  else match col with
       | None => match t with TPtr _ => inr (VPtr None) | _ => inl ErrUnexpected end
       | Some col => unptr (fun _ t _ => scan col t) settable t v
       end.

Definition setColumn (rd : RowDescription.t) (row i : nat) (col : option gostring) (t : typ) (result : val) : error + val :=
  match rd !! i with
  | None => inl ErrExtraFields
  | Some desc => unptr (get_row row (unptr (get_field (RowDescription.Name desc) i (put col)))) false t result
  end.

(** [for i, col := range dr] *)
Fixpoint set_columns (rd : RowDescription.t) (row i : nat) (dr : list (option gostring)) (t : typ) (result : val) : error + val :=
  match dr with
  | [] => inr result
  | col :: dr =>
      match setColumn rd row i col t result with
      | inl e => inl e
      | inr result => set_columns rd row (S i) dr t result
      end
  end.

(** ** Over a connection *)
Section Conn.
Context {C : Type} `{ConnOps C}.

Definition ReadPacket : io C fpacket := conn_read.
Definition WritePacket (p : Packet) : io C unit := fun c =>
  let! r := conn_write c (of_packet p) in Ret (match r.1 with Some e => inl e | None => inr tt end, r.2).

(** fed.ToConcrete; a packet of another type makes it panic. *)
Definition ToConcrete {A} (as_ : Packet -> option A) (p : fpacket) : io C A := fun c =>
  match concrete p with
  | inl e => Ret (inl e, c)
  | inr q => match as_ q with Some a => Ret (inr a, c) | None => Panic end
  end.

Definition lift {A} (m : error + A) : io C A := match m with inl e => throw e | inr a => ret a end.

Definition as_rd (q : Packet) := match q with PRowDescription x => Some x | _ => None end.
Definition as_dr (q : Packet) := match q with PDataRow x => Some x | _ => None end.
Definition as_error (q : Packet) := match q with PMarkiplierResponse x => Some x | _ => None end.

Fixpoint readRows (fuel : nat) (rd : RowDescription.t) (row : nat) (t : typ) (result : val) : io C val :=
  match fuel with
  | O => fun _ => Diverge
  | S fuel =>
      do packet <- ReadPacket;
      if decide (ptype packet = RowDescription.Type_) then
        do rd <- ToConcrete as_rd packet; readRows fuel rd row t result
      else if decide (ptype packet = DataRow.Type_) then
        do dr <- ToConcrete as_dr packet;
        do result <- lift (set_columns rd row 0 dr t result);
        readRows fuel rd (S row) t result
      else if decide (ptype packet = MarkiplierResponse.Type_) then
        do p <- ToConcrete as_error packet; throw (ErrPg (FromPacket p))
      else if decide (ptype packet = CommandComplete.Type_) then ret result
      else readRows fuel rd row t result
  end.

Fixpoint readQueryResults (fuel : nat) (results : list (typ * val)) : io C (list val) :=
  match results with
  | [] => ret []
  | (t, v) :: results =>
      do v <- readRows fuel [] 0 t v;
      do vs <- readQueryResults fuel results;
      ret (v :: vs)
  end.

(** "make sure we receive ready for query" *)
Definition expect_ready : io C unit :=
  do packet <- ReadPacket;
  if decide (ptype packet <> ReadyForQuery.Type_) then throw ErrExpectedReadyForQuery else ret tt.

Definition Query (fuel : nat) (results : list (typ * val)) (query : gostring) : io C (list val) :=
  WritePacket (PQuery query) ;;
  do vs <- readQueryResults fuel results;
  expect_ready ;;
  ret vs.

(** ** ExtendedQuery *)

(** The text of an argument; NULL for a nil pointer. *)
Fixpoint format (t : typ) (v : val) : error + option gostring :=
  match t, v with
  | TPtr t, VPtr o => match o with None => inr None | Some v => format t v end
  | TString, VString s => inr (Some s)
  | TUint _, VInt z => inr (Some (Strconv.Utoa z))
  | TInt _, VInt z => inr (Some (Strconv.Itoa z))
  | TFloat, VFloat f => inr (Some (FormatFloat f))
  | TBool, VBool b => inr (Some [if b then x74 else x66])
  | _, _ => inl ErrUnexpected
  end.

(** An argument is a value with its type, or nil (reflect.Invalid). *)
Definition arg : Type := option (typ * val).

Fixpoint parameters (args : list arg) : error + list (option gostring) :=
  match args with
  | [] => inr []
  | a :: args =>
      match (match a with Some (t, v) => format t v | None => inr None end) with
      | inl e => inl e
      | inr p => smap (cons p) (parameters args)
      end
  end.

Definition ExtendedQuery (fuel : nat) (t : typ) (result : val) (query : gostring) (args : list arg) : io C val :=
  match args with
  | [] => do vs <- Query fuel [(t, result)] query; ret (List.hd result vs)
  | _ =>
      WritePacket (PParse (Parse.mk [] query [])) ;;
      do params <- lift (parameters args);
      WritePacket (PBind (Bind.mk [] [] [] params [])) ;;
      WritePacket (PDescribe (Describe.mk x50 [])) ;;
      WritePacket (PExecute (Execute.mk [] 0)) ;;
      WritePacket (PSync tt) ;;
      do vs <- readQueryResults fuel [(t, result)];
      expect_ready ;;
      ret (List.hd result vs)
  end.
End Conn.
End Gsql.
Arguments val : clear implicits.
Arguments VString {F}.
Arguments VInt {F}.
Arguments VFloat {F}.
Arguments VBool {F}.
Arguments VPtr {F}.
Arguments VStruct {F}.
Arguments VMap {F}.
Arguments VSlice {F}.
Arguments VArray {F}.
Arguments VOther {F}.

(** ** Arguments come back as they are *)
Section Facts.
Context {F : Type} (zero_float : F) (ParseFloat : gostring -> option F) (FormatFloat : F -> gostring).
Abbreviation val := (val F).
Abbreviation format := (format FormatFloat).
Abbreviation put := (put zero_float ParseFloat).
Abbreviation unptr := (unptr zero_float).
Abbreviation set_columns := (set_columns zero_float ParseFloat).
Abbreviation setColumn := (setColumn zero_float ParseFloat).

(** A value of a scalar type, or pointers to one; only the first may be nil. *)
Fixpoint fits (t : typ) (v : val) : Prop :=
  match t, v with
  | TString, VString _ | TFloat, VFloat _ | TBool, VBool _ => True
  | TInt w, VInt z => 0 < w <= 64 /\ - 2 ^ (w - 1) <= z < 2 ^ (w - 1)
  | TUint w, VInt z => 0 < w <= 64 /\ 0 <= z < 2 ^ w
  | TPtr t, VPtr o => match o with None => True | Some v => fits t v /\ format t v <> inr None end
  | _, _ => False
  end.

(** The pointers of a place are pointers. *)
Fixpoint pointers (t : typ) (v : val) : Prop :=
  match t, v with
  | TPtr t, VPtr o => match o with None => True | Some v => pointers t v end
  | TPtr _, _ => False
  | _, _ => True
  end.

Lemma zero_pointers t : pointers t (zero_val zero_float t).
Proof. by destruct t. Qed.

Lemma unptr_other k settable t (v : val) : (forall t', t <> TPtr t') -> unptr k settable t v = k settable t v.
Proof. intros Ht. destruct t; try done. by destruct (Ht t). Qed.

Lemma swrap_id w z : 0 < w -> - 2 ^ (w - 1) <= z < 2 ^ (w - 1) -> swrap w z = z.
Proof.
  intros Hw Hz. unfold swrap. assert (2 ^ w = 2 * 2 ^ (w - 1)) by (rewrite <- Z.pow_succ_r by lia; f_equal; lia).
  rewrite Z.mod_small by lia. lia.
Qed.

Lemma fits_format t v : fits t v -> exists p, format t v = inr p.
Proof.
  revert v. induction t as [|w|w| | |t IH| | | | |]; intros v; destruct v as [| | | |[v|]| | | | |]; cbn; try done; try (by eexists).
  intros [Hv _]. by apply IH.
Qed.

Context (Hfloat : forall f, ParseFloat (FormatFloat f) = Some f).

Lemma scan_format t v col : fits t v -> format t v = inr (Some col) -> (forall t', t <> TPtr t') -> scan ParseFloat col t = inr v.
Proof.
  intros Hv E Ht. destruct t as [|w|w| | |t| | | | |]; destruct v as [| | |b|[v|]| | | | |]; cbn [fits Gsql.format scan] in *; try done;
    try (by destruct (Ht t)); injection E as <-; try done.
  - destruct Hv as [Hw Hz]. rewrite StrconvFacts.Atoi_Itoa; [by rewrite swrap_id by lia|].
    pose proof (Z.pow_le_mono_r 2 (w - 1) 63 ltac:(lia) ltac:(lia)). lia.
  - destruct Hv as [Hw Hz]. rewrite StrconvFacts.ParseUint_Utoa; [by rewrite uwrap_id|].
    pose proof (Z.pow_le_mono_r 2 w 64 ltac:(lia) ltac:(lia)). lia.
  - by rewrite Hfloat.
  - by destruct b.
Qed.

Lemma unptr_scan t v col old : fits t v -> format t v = inr (Some col) -> pointers t old ->
  unptr (fun _ t _ => scan ParseFloat col t) true t old = inr v.
Proof.
  revert v old. induction t as [|w|w| | |t IH| | | | |]; intros v old Hv E Ho;
    try (rewrite unptr_other by done; by apply scan_format).
  destruct v as [| | | |[v|]| | | | |]; try done. destruct Hv as [Hv _]. destruct old as [| | | |[old|]| | | | |]; try done; cbn [Gsql.unptr].
  - by rewrite (IH v).
  - rewrite (IH v); [done|done|done|apply zero_pointers].
Qed.

(** What is sent for a value is read as that value. *)
Lemma put_format t v p old : fits t v -> format t v = inr p -> pointers t old -> put p true t old = inr v.
Proof.
  intros Hv E Ho. unfold Gsql.put. cbn [negb]. destruct p as [col|]; [by apply unptr_scan|].
  destruct t; destruct v as [| | | |[v|]| | | | |]; try done. by destruct Hv.
Qed.

(** ** A row in a struct *)

Abbreviation of_struct vs := (VPtr (Some (VStruct vs))).

Lemma setColumn_struct rd i desc col fs (vs : list val) : rd !! i = Some desc ->
  setColumn rd 0 i col (TPtr (TStruct fs)) (of_struct vs) =
  match list_find (fun f => names (RowDescription.Name desc) i f = true) fs with
  | Some (j, (_, t)) =>
      match vs !! j with Some v => smap (fun v => of_struct (<[j := v]> vs)) (put col true t v) | None => inl ErrUnexpected end
  | None => inr (of_struct vs)
  end.
Proof.
  intros Hi. unfold Gsql.setColumn. rewrite Hi. cbn [Gsql.unptr get_row get_field]. rewrite decide_False by auto. cbn [Gsql.unptr get_field].
  destruct (list_find _ fs) as [[j [? t]]|]; [|done]. destruct (vs !! j) as [v|]; [|done]. by destruct (put col true t v).
Qed.

(** Tags that are names, each once. *)
Definition tagged (fs : list (gostring * typ)) : Prop := NoDup fs.*1 /\ Forall (fun f => Strconv.Atoi f.1 = None) fs.

Lemma find_tag fs name i j t : tagged fs -> fs !! j = Some (name, t) ->
  list_find (fun f => names name i f = true) fs = Some (j, (name, t)).
Proof.
  intros [Hn Ha] Hj. apply list_find_Some. split_and!; [done|unfold names; cbn; by rewrite bool_decide_eq_true_2|].
  intros k [name' t'] Hk Hlt Hname. unfold names in Hname. cbn in Hname. apply orb_true_iff in Hname as [E|E]; apply bool_decide_eq_true in E.
  - subst name'. enough (k = j) by lia. apply (NoDup_lookup fs.*1 k j name); [done|by rewrite list_lookup_fmap, Hk|by rewrite list_lookup_fmap, Hj].
  - rewrite Forall_lookup in Ha. specialize (Ha k _ Hk). cbn in Ha. congruence.
Qed.

Lemma find_tag_inv fs name i j f : tagged fs -> list_find (fun f => names name i f = true) fs = Some (j, f) -> fs !! j = Some f /\ f.1 = name.
Proof.
  intros [_ Ha] (Hj & Hf & _)%list_find_Some. split; [done|]. unfold names in Hf. apply orb_true_iff in Hf as [E|E]; apply bool_decide_eq_true in E; [done|].
  rewrite Forall_lookup in Ha. specialize (Ha j _ Hj). congruence.
Qed.

Lemma lookup_name (rd : RowDescription.t) i desc : rd !! i = Some desc -> (RowDescription.Name <$> rd) !! i = Some (RowDescription.Name desc).
Proof. intros Hi. rewrite list_lookup_fmap. apply fmap_Some. by exists desc. Qed.

Lemma set_columns_struct (rd : RowDescription.t) fs dr i0 (vs : list val) result :
  tagged fs -> NoDup (RowDescription.Name <$> rd) ->
  set_columns rd 0 i0 dr (TPtr (TStruct fs)) (of_struct vs) = inr result ->
  exists vs', result = of_struct vs' /\
    forall j name t v, fs !! j = Some (name, t) -> vs !! j = Some v ->
      (forall i desc col, dr !! i = Some col -> rd !! (i0 + i)%nat = Some desc -> RowDescription.Name desc = name ->
         exists w, put col true t v = inr w /\ vs' !! j = Some w) /\
      ((forall i desc, (i < length dr)%nat -> rd !! (i0 + i)%nat = Some desc -> RowDescription.Name desc <> name) -> vs' !! j = Some v).
Proof.
  intros Hfs Hrd. revert i0 vs. induction dr as [|col dr IH]; intros i0 vs E.
  { injection E as <-. exists vs. split; [done|]. intros j name t v Hj Hv. split; [by intros|done]. }
  cbn [Gsql.set_columns] in E. destruct (rd !! i0) as [desc0|] eqn:H0; [|unfold Gsql.setColumn in E; by rewrite H0 in E].
  rewrite (setColumn_struct _ _ _ _ _ _ H0) in E.
  assert (Hlater : forall i desc, rd !! (S i0 + i)%nat = Some desc -> RowDescription.Name desc <> RowDescription.Name desc0).
  { intros i desc Hi Hname. enough (S i0 + i = i0)%nat by lia. apply (NoDup_lookup (RowDescription.Name <$> rd) _ _ (RowDescription.Name desc0) Hrd);
      [rewrite <- Hname; by apply lookup_name|by apply lookup_name]. }
  destruct (list_find _ fs) as [[j0 [name0 t0]]|] eqn:Hfind.
  - apply find_tag_inv in Hfind as [Hj0 Hname0]; [|done]. cbn in Hname0. subst name0.
    destruct (vs !! j0) as [v0|] eqn:Hv0; [|done]. destruct (put col true t0 v0) as [e|w0] eqn:Hput; [done|]. cbn [smap] in E.
    destruct (IH _ _ E) as (vs' & -> & Hvs'). exists vs'. split; [done|]. intros j name t v Hj Hv.
    destruct (decide (j = j0)) as [->|Hne].
    + rewrite Hj0 in Hj. injection Hj as <- <-. rewrite Hv0 in Hv. injection Hv as <-.
      destruct (Hvs' j0 _ _ w0 Hj0) as [_ Hkeep]; [by apply list_lookup_insert_eq; eapply lookup_lt_Some|].
      assert (Hw : vs' !! j0 = Some w0) by (apply Hkeep; intros i desc _ Hi; by apply (Hlater i)). split.
      * intros [|i] desc col' Hcol Hi Hname; [injection Hcol as <-; by exists w0|]. rewrite Nat.add_succ_r in Hi. by destruct (Hlater i desc Hi).
      * intros Hno. destruct (Hno 0%nat desc0); [cbn; lia|by rewrite Nat.add_0_r|done].
    + destruct (Hvs' j name t v Hj) as [Hset Hkeep]; [by rewrite list_lookup_insert_ne|]. split.
      * intros [|i] desc col' Hcol Hi Hname; [|rewrite Nat.add_succ_r in Hi; by apply (Hset i desc)].
        rewrite Nat.add_0_r, H0 in Hi. injection Hi as <-. destruct Hne. destruct Hfs as [Hn _].
        apply (NoDup_lookup fs.*1 j j0 name Hn); rewrite list_lookup_fmap; [by rewrite Hj|by rewrite Hj0, <- Hname].
      * intros Hno. apply Hkeep. intros i desc Hi. rewrite Nat.add_succ_comm. apply Hno. cbn. lia.
  - apply list_find_None in Hfind. destruct (IH _ _ E) as (vs' & -> & Hvs'). exists vs'. split; [done|]. intros j name t v Hj Hv.
    destruct (Hvs' j name t v Hj Hv) as [Hset Hkeep]. split.
    + intros [|i] desc col' Hcol Hi Hname; [|rewrite Nat.add_succ_r in Hi; by apply (Hset i desc)].
      rewrite Nat.add_0_r, H0 in Hi. injection Hi as <-. rewrite Forall_lookup in Hfind. destruct (Hfind j _ Hj).
      unfold names. cbn. by rewrite bool_decide_eq_true_2.
    + intros Hno. apply Hkeep. intros i desc Hi. rewrite Nat.add_succ_comm. apply Hno. cbn. lia.
Qed.
End Facts.

(** ** Theorems *)
Module GsqlTheorems.

(** A server that is asked to give back its one parameter. *)
Definition echo (desc : RowDescription.Row) (p : option gostring) (tag : CommandComplete.t) (status : ReadyForQuery.t) : list fpacket :=
  of_packet <$> [PParseComplete tt; PBindComplete tt; PRowDescription [desc]; PDataRow [p]; PCommandComplete tag; PReadyForQuery status].

Lemma readRows_echo {F} (zero_float : F) ParseFloat fuel desc p tag status rest sent T (v : val F) r :
  set_columns zero_float ParseFloat [desc] 0 0 [p] T v = inr r ->
  readRows zero_float ParseFloat (6 + fuel) [] 0 T v (mkScript (echo desc p tag status ++ rest) [] sent) =
  Ret (inr r, mkScript (of_packet (PReadyForQuery status) :: rest) [] sent).
Proof.
  cbn [set_columns]. destruct (setColumn zero_float ParseFloat [desc] 0 0 p T v) as [e|w] eqn:E; [done|]. intros [= <-].
  transitivity (andthen (lift (set_columns zero_float ParseFloat [desc] 0 0 [p] T v)) ret
    (mkScript (of_packet (PReadyForQuery status) :: rest) [] sent)); cbn [set_columns]; rewrite ?E; [|reflexivity].
  change (readRows zero_float ParseFloat (6 + fuel) [] 0 T v (mkScript (echo desc p tag status ++ rest) [] sent)) with
    (andthen (lift (match setColumn zero_float ParseFloat [desc] 0 0 p T v with inl e => inl e | inr r => inr r end))
       (fun r => readRows zero_float ParseFloat (2 + fuel) [desc] 1 T r)
       (mkScript ((of_packet <$> [PCommandComplete tag; PReadyForQuery status]) ++ rest) [] sent)). by rewrite E.
Qed.

Lemma then_write {A} q (k : unit -> io Script A) rx tx :
  andthen (WritePacket q) k (mkScript rx [] tx) = k tt (mkScript rx [] (tx ++ [of_packet q])).
Proof. done. Qed.

(** C39: A value that is sent as an argument of a query and comes back in a column is
    read as that value: for every text, number in the range of its width, bool,
    float (if ParseFloat reads what FormatFloat writes) and pointer to such a
    value, nil and NULL included, ExtendedQuery sends it in Bind, reads the whole
    reply and fills the field tagged 0 with it, whatever was there. *)
Theorem extended_query_echo {F} (zero_float : F) ParseFloat FormatFloat fuel t (v old : val F) query desc tag status sent rest :
  (forall f, ParseFloat (FormatFloat f) = Some f) -> fits FormatFloat t v -> pointers t old ->
  exists p, format FormatFloat t v = inr p /\
    ExtendedQuery zero_float ParseFloat FormatFloat (6 + fuel) (TPtr (TStruct [(lit "0", t)])) (VPtr (Some (VStruct [old]))) query [Some (t, v)]
      (mkScript (echo desc p tag status ++ rest) [] sent) =
    Ret (inr (VPtr (Some (VStruct [v]))),
         mkScript rest [] (sent ++ (of_packet <$> [PParse (Parse.mk [] query []); PBind (Bind.mk [] [] [] [p] []);
           PDescribe (Describe.mk x50 []); PExecute (Execute.mk [] 0); PSync tt]))).
Proof.
  intros Hfloat Hv Hold. destruct (fits_format _ _ _ Hv) as [p Hp]. exists p. split; [done|].
  pose proof (put_format zero_float ParseFloat FormatFloat Hfloat t v p old Hv Hp Hold) as Hput.
  assert (Hcol : set_columns zero_float ParseFloat [desc] 0 0 [p] (TPtr (TStruct [(lit "0", t)])) (VPtr (Some (VStruct [old]))) =
                 inr (VPtr (Some (VStruct [v])))).
  { cbn [set_columns]. rewrite (setColumn_struct _ _ _ _ desc) by done. cbn [list_find].
    rewrite decide_True; [cbn -[put]; by rewrite Hput|]. unfold names. rewrite (bool_decide_eq_true_2 (_ = Some _)) by (by vm_compute). by rewrite orb_true_r. }
  apply (readRows_echo _ _ fuel desc p tag status rest (sent ++ [of_packet (PParse (Parse.mk [] query [])); of_packet (PBind (Bind.mk [] [] [] [p] []));
    of_packet (PDescribe (Describe.mk x50 [])); of_packet (PExecute (Execute.mk [] 0)); of_packet (PSync tt)])) in Hcol.
  unfold ExtendedQuery. cbn [parameters]. rewrite Hp. cbn [readQueryResults]. revert Hcol.
  generalize (readRows zero_float ParseFloat (C := Script) (6 + fuel) [] 0 (TPtr (TStruct [(lit "0", t)])) (VPtr (Some (VStruct [old])))).
  intros rows Hrows. 
  rewrite !then_write. cbn [smap lift]. change (andthen (ret ?a) ?k ?c) with (k a c). cbn beta. rewrite !then_write, <- !app_assoc. cbn [app].
  unfold andthen at 1 2. rewrite Hrows. reflexivity.
Qed.

Definition ex_desc : RowDescription.Row := RowDescription.mkRow (lit "?column?") 0 0 20 8 (-1) 0.

Lemma extended_query_echo_witness :
  exists p, format (F := gostring) (fun s => s) (TPtr (TInt 8)) (VPtr (Some (VInt (-128)))) = inr p /\
    ExtendedQuery [] Some (fun s => s) 6 (TPtr (TStruct [(lit "0", TPtr (TInt 8))])) (VPtr (Some (VStruct [VPtr None]))) (lit "SELECT $1")
      [Some (TPtr (TInt 8), VPtr (Some (VInt (-128))))] (mkScript (echo ex_desc p (lit "SELECT 1") x49 ++ []) [] []) =
    Ret (inr (VPtr (Some (VStruct [VPtr (Some (VInt (-128)))]))),
         mkScript [] [] ([] ++ (of_packet <$> [PParse (Parse.mk [] (lit "SELECT $1") []); PBind (Bind.mk [] [] [] [p] []);
           PDescribe (Describe.mk x50 []); PExecute (Execute.mk [] 0); PSync tt]))).
Proof.
  apply (extended_query_echo [] Some (fun s => s) 0 (TPtr (TInt 8)) (VPtr (Some (VInt (-128)))) (VPtr None)); [done| |done].
  cbn. split; [lia|done].
Defined.

(** A row that is read into a struct is distributed by name: if the fields have
    distinct tags that are not numbers and the columns distinct names, then after
    the columns of a row were stored every field whose tag is the name of a column
    has the value of that column, and every other field is as it was. *)
Theorem row_fills_struct {F} (zero_float : F) ParseFloat (rd : RowDescription.t) fs dr (vs : list (val F)) result :
  tagged fs -> NoDup (RowDescription.Name <$> rd) ->
  set_columns zero_float ParseFloat rd 0 0 dr (TPtr (TStruct fs)) (VPtr (Some (VStruct vs))) = inr result ->
  exists vs', result = VPtr (Some (VStruct vs')) /\
    forall j name t v, fs !! j = Some (name, t) -> vs !! j = Some v ->
      (forall i desc col, dr !! i = Some col -> rd !! i = Some desc -> RowDescription.Name desc = name ->
         exists w, put zero_float ParseFloat col true t v = inr w /\ vs' !! j = Some w) /\
      ((forall i desc, (i < length dr)%nat -> rd !! i = Some desc -> RowDescription.Name desc <> name) -> vs' !! j = Some v).
Proof. intros Hfs Hrd. by apply (set_columns_struct zero_float ParseFloat rd fs dr 0). Qed.

Definition ex_rd : RowDescription.t := [RowDescription.mkRow (lit "passwd") 0 0 25 0 0 0; RowDescription.mkRow (lit "extra") 0 0 25 0 0 0].
Definition ex_fs : list (gostring * typ) := [(lit "usename", TString); (lit "passwd", TPtr TString)].

Lemma row_fills_struct_witness :
  exists vs' : list (val unit), VPtr (Some (VStruct [VString (lit "bob"); VPtr (Some (VString (lit "pw")))])) = VPtr (Some (VStruct vs')) /\
    vs' !! 1%nat = Some (VPtr (Some (VString (lit "pw")))) /\ vs' !! 0%nat = Some (VString (lit "bob")).
Proof.
  destruct (row_fills_struct tt (fun _ => None) ex_rd ex_fs [Some (lit "pw"); Some (lit "x")] [VString (lit "bob"); VPtr None]
    (VPtr (Some (VStruct [VString (lit "bob"); VPtr (Some (VString (lit "pw")))])))) as (vs' & E & Hvs').
  - split; [apply (bool_decide_unpack _); by vm_compute|repeat constructor].
  - apply (bool_decide_unpack _). by vm_compute.
  - by vm_compute.
  - exists vs'. split; [exact E|]. split.
    + destruct (Hvs' 1%nat (lit "passwd") (TPtr TString) (VPtr None) eq_refl eq_refl) as [H _].
      destruct (H 0%nat _ _ eq_refl eq_refl eq_refl) as (w & Hw & ->). vm_compute in Hw. by injection Hw as <-.
    + destruct (Hvs' 0%nat (lit "usename") TString (VString (lit "bob")) eq_refl eq_refl) as [_ H]. apply H.
      intros [|[|i]] desc Hi [= <-]; by vm_compute.
Defined.

(** An error in the reply ends Query at once: the ReadyForQuery that follows is not
    read, and stays in the connection. *)
Example error_leaves_ready (t : typ) (v : val unit) (query : gostring) (e : MarkiplierResponse.t) :
  Query tt (fun _ => None) 9 [(t, v)] query (mkScript [of_packet (PMarkiplierResponse e); of_packet (PReadyForQuery x49)] [] []) =
  Ret (inl (ErrPg (FromPacket e)), mkScript [of_packet (PReadyForQuery x49)] [] [of_packet (PQuery query)]).
Proof. reflexivity. Qed.
End GsqlTheorems.
