(* ===== verification/Backend.v ===== *)
(** * Backend: lib/bouncer/backends/v0 (context.go, query.go), lib/bouncer/bouncers/v2

    The bouncer: one transaction of a client is relayed to a server.  The
    state is serverToPeerBinding; the client (the peer) may be absent or be
    lost on the way, the server is then still brought to the end of its
    transaction.

    The loops of the source read until a packet ends them: the definitions take
    fuel, and [transaction_runs] shows that as much fuel as the connections
    have packets is enough.  [log] is a ghost: what was exchanged, in order. *)

From Stdlib Require Import Init.Byte Strings.Byte Strings.String.
From S2P Require Import Prelude.
From S2P Require Import Wire.
From S2P Require Import Packets.
From S2P Require Import Ring.
From S2P Require Import Strutil.
From S2P Require Import Fed.
From S2P Require Import Eqp.

Local Open Scope go_scope.
Local Open Scope io_scope.

(** What went over the two connections. *)
Inductive ev :=
| SW (p : fpacket)    (* written to the server *)
| SR (p : fpacket)    (* read from the server *)
| PW (p : fpacket)    (* written to the peer *)
| PR (p : fpacket).   (* read from the peer *)

Section Backend.
Context {CS CP : Type} `{ConnOps CS} `{ConnOps CP}.

Record serverToPeerBinding := mkBinding {
  Server : CS;
  Peer : option CP;            (* nil: none *)
  Packet : option fpacket;     (* nil: none *)
  PeerError : option error;
  TxState : byte;
  lost : option CP;            (* the peer's connection once Peer is nil *)
  log : list ev
}.

Definition set_packet (T : serverToPeerBinding) (p : option fpacket) : serverToPeerBinding :=
  mkBinding (Server T) (Peer T) p (PeerError T) (TxState T) (lost T) (log T).
Definition set_status (T : serverToPeerBinding) (s : byte) : serverToPeerBinding :=
  mkBinding (Server T) (Peer T) (Packet T) (PeerError T) s (lost T) (log T).
Definition set_server (T : serverToPeerBinding) (c : CS) (l : list ev) : serverToPeerBinding :=
  mkBinding c (Peer T) (Packet T) (PeerError T) (TxState T) (lost T) (log T ++ l).
Definition set_peer (T : serverToPeerBinding) (c : CP) (l : list ev) : serverToPeerBinding :=
  mkBinding (Server T) (Some c) (Packet T) (PeerError T) (TxState T) (lost T) (log T ++ l).

(** ** context.go *)

Definition type_of (T : serverToPeerBinding) : outcome byte := ofmap ptype (deref (Packet T)).

(** [binding.Packet.Type()] *)
Definition packet_type : io serverToPeerBinding byte := fun T => let! t := type_of T in Ret (inr t, T).

Definition ServerRead : io serverToPeerBinding unit := fun T =>
  let! r := conn_read (Server T) in
  match r.1 with
  | inl e => Ret (inl e, set_packet (set_server T r.2 []) None)
  | inr p => Ret (inr tt, set_packet (set_server T r.2 [SR p]) (Some p))
  end.

Definition ServerWrite : io serverToPeerBinding unit := fun T =>
  let! p := deref (Packet T) in
  let! r := conn_write (Server T) p in
  match r.1 with
  | Some e => Ret (inl e, set_server T r.2 [])
  | None => Ret (inr tt, set_server T r.2 [SW p])
  end.

Definition PeerOK (T : serverToPeerBinding) : bool :=
  match Peer T, PeerError T with
  | Some _, None => true
  | _, _ => false
  end.

Definition PeerFail (e : error) (T : serverToPeerBinding) : serverToPeerBinding :=
  mkBinding (Server T) None (Packet T) (Some e) (TxState T)
    (match Peer T with Some c => Some c | None => lost T end) (log T).

Definition PeerRead : io serverToPeerBinding bool := fun T =>
  match Peer T, PeerError T with
  | Some c, None =>
      let! r := conn_read c in
      match r.1 with
      | inl e => Ret (inr false, PeerFail e (set_packet (set_peer T r.2 []) None))
      | inr p => Ret (inr true, set_packet (set_peer T r.2 [PR p]) (Some p))
      end
  | _, _ => Ret (inr false, T)
  end.

Definition PeerWrite : io serverToPeerBinding unit := fun T =>
  match Peer T, PeerError T with
  | Some c, None =>
      let! p := deref (Packet T) in
      let! r := conn_write c p in
      match r.1 with
      | Some e => Ret (inr tt, PeerFail e (set_peer T r.2 []))
      | None => Ret (inr tt, set_peer T r.2 [PW p])
      end
  | _, _ => Ret (inr tt, T)
  end.

(** [binding.PeerFail(binding.ErrUnexpectedPacket())] *)
Definition peer_fail_unexpected : io serverToPeerBinding unit := fun T =>
  let! t := type_of T in
  Ret (inr tt, PeerFail (ErrUnexpectedType t) T).

Definition put_packet (p : Packets.Packet) : io serverToPeerBinding unit := fun T =>
  Ret (inr tt, set_packet T (Some (of_packet p))).

(** ** query.go *)

Definition is_in (t : byte) (l : list byte) : bool := bool_decide (t ∈ l).

Fixpoint copyIn_loop (fuel : nat) : io serverToPeerBinding unit :=
  match fuel with
  | O => fun _ => Diverge
  | S fuel =>
      do ok <- PeerRead;
      if negb ok then put_packet (PCopyFail (list_byte_of_string "peer failed")) ;; ServerWrite
      else
        do t <- packet_type;
        if is_in t [CopyData.Type_] then ServerWrite ;; copyIn_loop fuel
        else if is_in t [CopyDone.Type_; CopyFail.Type_] then ServerWrite
        else peer_fail_unexpected ;; copyIn_loop fuel
  end.

Definition copyIn (fuel : nat) : io serverToPeerBinding unit := PeerWrite ;; copyIn_loop fuel.

Fixpoint copyOut_loop (fuel : nat) : io serverToPeerBinding unit :=
  match fuel with
  | O => fun _ => Diverge
  | S fuel =>
      ServerRead ;;
      do t <- packet_type;
      if is_in t [CopyData.Type_; NoticeResponse.Type_; ParameterStatus.Type_; NotificationResponse.Type_]
      then PeerWrite ;; copyOut_loop fuel
      else if is_in t [CopyDone.Type_; MarkiplierResponse.Type_] then PeerWrite
      else throw (ErrUnexpectedType t)
  end.

Definition copyOut (fuel : nat) : io serverToPeerBinding unit := PeerWrite ;; copyOut_loop fuel.

(** The case of a ReadyForQuery, the same in the three loops. *)
Definition ready_for_query : io serverToPeerBinding unit := fun T =>
  let! p := deref (Packet T) in
  match concrete p with
  | inl e => Ret (inl e, T)
  | inr (PReadyForQuery s) => PeerWrite (set_status (set_packet T (Some (of_packet (PReadyForQuery s)))) s)
  | inr _ => Panic
  end.

Fixpoint query_loop (fuel : nat) : io serverToPeerBinding unit :=
  match fuel with
  | O => fun _ => Diverge
  | S n =>
      ServerRead ;;
      do t <- packet_type;
      if is_in t [CommandComplete.Type_; RowDescription.Type_; DataRow.Type_; EmptyQueryResponse.Type_;
                  MarkiplierResponse.Type_; NoticeResponse.Type_; ParameterStatus.Type_; NotificationResponse.Type_]
      then PeerWrite ;; query_loop n
      else if is_in t [CopyInResponse.Type_] then copyIn n ;; query_loop n
      else if is_in t [CopyOutResponse.Type_] then copyOut n ;; query_loop n
      else if is_in t [ReadyForQuery.Type_] then ready_for_query
      else throw (ErrUnexpectedType t)
  end.

Definition query (fuel : nat) : io serverToPeerBinding unit := ServerWrite ;; query_loop fuel.

Definition queryString (fuel : nat) (q : gostring) : io serverToPeerBinding unit :=
  put_packet (PQuery q) ;; query fuel.

Fixpoint functionCall_loop (fuel : nat) : io serverToPeerBinding unit :=
  match fuel with
  | O => fun _ => Diverge
  | S n =>
      ServerRead ;;
      do t <- packet_type;
      if is_in t [MarkiplierResponse.Type_; FunctionCallResponse.Type_; NoticeResponse.Type_;
                  ParameterStatus.Type_; NotificationResponse.Type_]
      then PeerWrite ;; functionCall_loop n
      else if is_in t [ReadyForQuery.Type_] then ready_for_query
      else throw (ErrUnexpectedType t)
  end.

Definition functionCall (fuel : nat) : io serverToPeerBinding unit := ServerWrite ;; functionCall_loop fuel.

Fixpoint sync_loop (fuel : nat) : io serverToPeerBinding bool :=
  match fuel with
  | O => fun _ => Diverge
  | S n =>
      ServerRead ;;
      do t <- packet_type;
      if is_in t [ParseComplete.Type_; BindComplete.Type_; CloseComplete.Type_; MarkiplierResponse.Type_;
                  RowDescription.Type_; NoData.Type_; ParameterDescription.Type_;
                  CommandComplete.Type_; DataRow.Type_; EmptyQueryResponse.Type_; PortalSuspended.Type_;
                  NoticeResponse.Type_; ParameterStatus.Type_; NotificationResponse.Type_]
      then PeerWrite ;; sync_loop n
      else if is_in t [CopyInResponse.Type_] then copyIn n ;; ret false
      else if is_in t [CopyOutResponse.Type_] then copyOut n ;; sync_loop n
      else if is_in t [ReadyForQuery.Type_] then ready_for_query ;; ret true
      else throw (ErrUnexpectedType t)
  end.

Definition sync (fuel : nat) : io serverToPeerBinding bool := ServerWrite ;; sync_loop fuel.

(** The peer is gone: Sync until the server is ready. *)
Fixpoint drain (fuel : nat) : io serverToPeerBinding unit :=
  match fuel with
  | O => fun _ => Diverge
  | S n =>
      put_packet (PSync tt) ;;
      do ok <- sync (S n);
      if ok : bool then ret tt else drain n
  end.

Definition extended : list byte :=
  [Parse.Type_; Bind.Type_; Close.Type_; Describe.Type_; Execute.Type_; Flush.Type_].

Fixpoint eqp_loop (fuel : nat) : io serverToPeerBinding unit :=
  match fuel with
  | O => fun _ => Diverge
  | S n =>
      do ok <- PeerRead;
      if negb ok then drain (S n)
      else
        do t <- packet_type;
        if is_in t [Sync.Type_] then
          do ok <- sync (S n);
          if ok : bool then ret tt else eqp_loop n
        else if is_in t extended then ServerWrite ;; eqp_loop n
        else peer_fail_unexpected ;; eqp_loop n
  end.

Definition eqp (fuel : nat) : io serverToPeerBinding unit := ServerWrite ;; eqp_loop fuel.

(** The first switch of the loop of transaction. *)
Definition serve_packet (fuel : nat) : io serverToPeerBinding unit :=
  do t <- packet_type;
  if is_in t [Query.Type_] then query fuel
  else if is_in t [FunctionCall.Type_] then functionCall fuel
  else if is_in t [Sync.Type_] then
    (fun T => Ret (inr tt, set_packet T (Some (of_packet (PReadyForQuery (TxState T)))))) ;; PeerWrite
  else if is_in t extended then eqp fuel
  else peer_fail_unexpected.

Definition tx_state : io serverToPeerBinding byte := fun T => Ret (inr (TxState T), T).

Fixpoint transaction (fuel : nat) : io serverToPeerBinding unit :=
  match fuel with
  | O => fun _ => Diverge
  | S n =>
      serve_packet (S n) ;;
      do s <- tx_state;
      if decide (s = x49) then ret tt
      else
        do ok <- PeerRead;
        if negb ok then
          queryString (S n) (list_byte_of_string "ABORT;") ;;
          do s <- tx_state;
          if decide (s <> x49) then throw ErrExpectedIdle else ret tt
        else transaction n
  end.

(** *** The entry points: (err, peerError) and the two connections after *)

Definition result : Type := option error * option error * CS * option CP.

Definition finish {A} (o : outcome ((error + A) * serverToPeerBinding)) : outcome result :=
  let! r := o in
  Ret (match r.1 with inl e => Some e | inr _ => None end, PeerError r.2, Server r.2,
       match Peer r.2 with Some c => Some c | None => lost r.2 end).

Definition new_binding (server : CS) (peer : option CP) (packet : option fpacket) : serverToPeerBinding :=
  mkBinding server peer packet None x00 None
    match peer, packet with Some _, Some p => [PR p] | _, _ => [] end.

Definition QueryString (fuel : nat) (server : CS) (peer : option CP) (q : gostring) : outcome result :=
  finish (queryString fuel q (new_binding server peer None)).

Definition SetParameter (fuel : nat) (server : CS) (peer : option CP) (name value : gostring) : outcome result :=
  QueryString fuel server peer (SetParameter_query name value).

Definition Sync_ (fuel : nat) (server : CS) (peer : option CP) : outcome result :=
  finish (sync fuel (new_binding server peer (Some (of_packet (PSync tt))))).

Definition Transaction (fuel : nat) (server : CS) (peer : option CP) (initialPacket : fpacket) : outcome result :=
  finish (transaction fuel (new_binding server peer (Some initialPacket))).

Definition Bounce (fuel : nat) (client : CP) (server : CS) (initialPacket : fpacket) : outcome result :=
  let! r := Transaction fuel server (Some client) initialPacket in
  let '(serverError, clientError, s, c) := r in
  Ret (clientError, serverError, s, c).
End Backend.
Arguments serverToPeerBinding : clear implicits.

(** ** Reasoning about a transaction *)

Section Laws.
Context {CS CP : Type} `{LS : ConnLaws CS back front} `{LP : ConnLaws CP front back}.
Abbreviation binding := (serverToPeerBinding CS CP).

(** The packets that can still arrive. *)
Definition peer_left (T : binding) : nat := match Peer T with Some c => remaining c | None => 0 end.
Definition left_ (T : binding) : nat := remaining (Server T) + peer_left T.

Definition good (T : binding) : Prop :=
  conn_good (Server T) /\ (forall c, Peer T = Some c -> conn_good c).

(** Every call keeps the connections, and a lost peer stays lost. *)
Record kept (T T' : binding) : Prop := {
  kept_good : good T';
  kept_left : left_ T' <= left_ T;
  kept_lost : PeerOK T = false -> PeerOK T' = false;
  kept_log : exists l, log T' = log T ++ l
}.

Lemma binding_kept_refl T : good T -> kept T T.
Proof. split; [done..|]. exists []. by rewrite app_nil_r. Qed.
Lemma binding_kept_trans T1 T2 T3 : kept T1 T2 -> kept T2 T3 -> kept T1 T3.
Proof.
  intros [? ? ? [l1 Hl1]] [? ? ? [l2 Hl2]]. split; [done|lia|auto|].
  exists (l1 ++ l2). by rewrite Hl2, Hl1, app_assoc.
Qed.

(** [m] returns from [T], and [Q] holds if there is no error. *)
Definition runs {A} (m : io binding A) (T : binding) (Q : A -> binding -> Prop) : Prop :=
  exists r T', m T = Ret (r, T') /\ kept T T' /\ match r with inl _ => True | inr a => Q a T' end.

Lemma runs_bind {A B} (m : io binding A) (k : A -> io binding B) T Q R :
  runs m T Q -> (forall a T', kept T T' -> Q a T' -> runs (k a) T' R) -> runs (andthen m k) T R.
Proof.
  intros (r & T' & Hm & HT' & Hr) Hk. unfold runs, andthen. rewrite Hm. cbn.
  destruct r as [e|a]; [by exists (inl e), T'|].
  destruct (Hk a T' HT' Hr) as (r & T'' & -> & HT'' & Hr'). exists r, T''. split_and!; [done| |done].
  by eapply binding_kept_trans.
Qed.

Lemma runs_weaken {A} (m : io binding A) T (Q R : A -> binding -> Prop) :
  runs m T Q -> (forall a T', kept T T' -> Q a T' -> R a T') -> runs m T R.
Proof.
  intros (r & T' & Hm & HT' & Hr) HQ. exists r, T'. split_and!; [done..|]. destruct r; auto.
Qed.

Lemma runs_ret {A} (a : A) T (Q : A -> binding -> Prop) : good T -> Q a T -> runs (ret a) T Q.
Proof. intros. exists (inr a), T. split_and!; [done|by apply binding_kept_refl|done]. Qed.
Lemma runs_throw {A} e T (Q : A -> binding -> Prop) : good T -> runs (throw e) T Q.
Proof. intros. exists (inl e), T. split_and!; [done|by apply binding_kept_refl|done]. Qed.

(** *** What a log of a transparent relay looks like

    [relay h l]: every packet of the peer is forwarded to the server in order
    and unchanged, except for a Sync that is answered with the known status;
    every packet of the server is passed to the peer before anything else
    happens.  [h] is the packet of the peer not yet handled. *)
Inductive relay : option fpacket -> list ev -> Prop :=
| relay_start p : relay (Some p) [PR p]
| relay_take p l : relay None l -> relay (Some p) (l ++ [PR p])
| relay_forward p l : relay (Some p) l -> relay None (l ++ [SW p])
| relay_reply p l : relay None l -> relay None (l ++ [SR p; PW p])
| relay_phony p s l : relay (Some p) l -> ptype p = Sync.Type_ ->
    relay None (l ++ [PW (of_packet (PReadyForQuery s))]).

(** As long as the peer is there. *)
Definition relayed (h : option fpacket) (T : binding) : Prop :=
  PeerOK T = true -> relay h (log T).

(** A packet of the server is in hand, to be passed on. *)
Definition holding (T : binding) : Prop :=
  exists p l, Packet T = Some p /\ back p /\ log T = l ++ [SR p] /\ (PeerOK T = true -> relay None l).

(** The events of the server, and that the last one is a ReadyForQuery with
    the status [TxState]. *)
Definition server_ev (e : ev) : bool := match e with SW _ | SR _ => true | _ => false end.
Definition server_log (l : list ev) : list ev := filter (fun e => server_ev e = true) l.
Definition settled (T : binding) : Prop :=
  exists l, server_log (log T) = l ++ [SR (of_packet (PReadyForQuery (TxState T)))].

Lemma server_log_app a b : server_log (a ++ b) = server_log a ++ server_log b.
Proof. apply filter_app. Qed.

(** *** The operations of context.go *)

Ltac log_solve := cbn; first [by eexists|by (exists []; rewrite app_nil_r)].
Ltac kept_solve := split; [done|unfold left_, peer_left; cbn; lia|done|log_solve].

Lemma ServerRead_runs T :
  good T -> relayed None T ->
  runs ServerRead T (fun _ T' => holding T' /\ left_ T' < left_ T).
Proof.
  intros [Hs Hp] Hr. unfold runs, ServerRead. destruct (read_law (Server T) Hs) as (r & c & -> & Hc & Hl). cbn.
  destruct r as [e|p]; cbn.
  - eexists _, _. split; [done|]. split; [kept_solve|done].
  - destruct Hl as [Hl Hb]. eexists _, _. split; [done|]. split; [kept_solve|].
    split; [|unfold left_, peer_left; cbn; lia]. by exists p, (log T).
Qed.

Lemma ServerWrite_runs T p :
  good T -> Packet T = Some p -> front p -> relayed (Some p) T ->
  runs ServerWrite T (fun _ T' => relayed None T').
Proof.
  intros [Hs Hp] HP Hf Hr. unfold runs, ServerWrite. rewrite HP. cbn.
  destruct (write_law (Server T) p Hs Hf) as (e & c & -> & Hc & Hl). cbn.
  destruct e as [e|]; (eexists _, _; split; [done|]; split; [kept_solve|]); [done|].
  intros Hok. apply relay_forward, Hr. done.
Qed.

(** With what is logged. *)
Lemma ServerWrite_logs T p :
  good T -> Packet T = Some p -> front p -> relayed (Some p) T ->
  runs ServerWrite T (fun _ T' => log T' = log T ++ [SW p] /\ relayed None T').
Proof.
  intros Hg HP Hf Hr. destruct (ServerWrite_runs T p Hg HP Hf Hr) as (r & T' & HT & Hk & HQ).
  exists r, T'. split_and!; [done..|]. destruct r as [e|u]; [done|]. split; [|done].
  revert HT. unfold ServerWrite. rewrite HP. cbn. destruct (conn_write (Server T) p) as [[[e|] c]| |]; cbn; try discriminate.
  by intros [= _ <-].
Qed.

Lemma PeerOK_true (T : binding) : PeerOK T = true -> exists c, Peer T = Some c /\ PeerError T = None.
Proof. unfold PeerOK. destruct (Peer T), (PeerError T); naive_solver. Qed.

(** Nothing happens without a peer. *)
Lemma PeerRead_lost (T : binding) : PeerOK T = false -> PeerRead T = Ret (inr false, T).
Proof. unfold PeerOK, PeerRead. by destruct (Peer T), (PeerError T). Qed.
Lemma PeerWrite_lost (T : binding) : PeerOK T = false -> PeerWrite T = Ret (inr tt, T).
Proof. unfold PeerOK, PeerWrite. by destruct (Peer T), (PeerError T). Qed.

Lemma PeerRead_runs T :
  good T -> relayed None T ->
  runs PeerRead T (fun ok T' => TxState T' = TxState T /\ server_log (log T') = server_log (log T) /\
    if ok : bool then exists p, Packet T' = Some p /\ front p /\ relayed (Some p) T' /\ left_ T' < left_ T
    else PeerOK T' = false).
Proof.
  intros [Hs Hp] Hr. destruct (PeerOK T) eqn:Hok.
  - destruct (PeerOK_true T Hok) as (c & Hc & He). unfold runs, PeerRead. rewrite Hc, He.
    destruct (read_law c (Hp c Hc)) as (r & c' & -> & Hc' & Hl). cbn.
    assert (Hpl : peer_left T = remaining c) by (unfold peer_left; by rewrite Hc).
    destruct r as [e|p]; cbn.
    + eexists _, _. split; [done|]. split; [split; [by split|unfold left_; rewrite Hpl; cbn; lia|done|log_solve]|]. cbn.
      by rewrite server_log_app, app_nil_r.
    + destruct Hl as [Hl Hf]. eexists _, _. split; [done|].
      split; [split; [by split; [|intros ? [= <-]]|unfold left_; rewrite Hpl; cbn; lia|by rewrite Hok|log_solve]|].
      cbn. split; [done|]. split; [by rewrite server_log_app, app_nil_r|]. exists p. split_and!; [done|done| |].
      * intros _. by apply relay_take, Hr.
      * unfold left_. rewrite Hpl. cbn. lia.
  - unfold runs. rewrite PeerRead_lost by done. eexists _, _. split; [done|]. by split; [apply binding_kept_refl|].
Qed.

Lemma PeerWrite_runs T p :
  good T -> Packet T = Some p -> back p ->
  runs PeerWrite T (fun _ T' => TxState T' = TxState T /\ server_log (log T') = server_log (log T) /\
    (PeerOK T' = true -> PeerOK T = true /\ log T' = log T ++ [PW p])).
Proof.
  intros [Hs Hp] HP Hb. destruct (PeerOK T) eqn:Hok.
  - destruct (PeerOK_true T Hok) as (c & Hc & He). unfold runs, PeerWrite. rewrite Hc, He, HP. cbn.
    destruct (write_law c p (Hp c Hc) Hb) as (e & c' & -> & Hc' & Hl). cbn.
    assert (Hpl : peer_left T = remaining c) by (unfold peer_left; by rewrite Hc).
    destruct e as [e|]; (eexists _, _; split; [done|]).
    + split; [split; [by split|unfold left_; rewrite Hpl; cbn; lia|done|log_solve]|]. cbn.
      by rewrite server_log_app, app_nil_r.
    + split; [split; [by split; [|intros ? [= <-]]|unfold left_; rewrite Hpl; cbn; lia|by rewrite Hok|log_solve]|].
      cbn. by rewrite server_log_app, app_nil_r.
  - unfold runs. rewrite PeerWrite_lost by done. eexists _, _. split; [done|]. split; [by apply binding_kept_refl|].
    split_and!; try done. by rewrite Hok.
Qed.

(** A reply of the server is passed on. *)
Lemma PeerWrite_reply T :
  good T -> holding T -> runs PeerWrite T (fun _ T' => relayed None T').
Proof.
  intros Hg (p & l & HP & Hb & Hl & Hr). eapply runs_weaken; [by eapply PeerWrite_runs|].
  intros u T' _ (_ & _ & HT') Hok. destruct (HT' Hok) as [Hok' ->]. rewrite Hl, <- app_assoc.
  apply relay_reply, Hr. done.
Qed.

Lemma packet_type_runs T p :
  good T -> Packet T = Some p -> runs packet_type T (fun t T' => t = ptype p /\ T' = T).
Proof.
  intros Hg HP. unfold runs, packet_type, type_of. rewrite HP. cbn. eexists _, _. split; [done|].
  by split; [apply binding_kept_refl|].
Qed.

Lemma peer_fail_runs T p :
  good T -> Packet T = Some p ->
  runs peer_fail_unexpected T (fun _ T' => PeerOK T' = false /\ TxState T' = TxState T /\ log T' = log T).
Proof.
  intros [Hs Hp] HP. unfold runs, peer_fail_unexpected, type_of. rewrite HP. cbn. eexists _, _. split; [done|].
  split; [split; [by split|unfold left_; cbn; lia|done|log_solve]|]. done.
Qed.

Lemma put_packet_runs T q :
  good T -> runs (put_packet q) T (fun _ T' => Packet T' = Some (of_packet q) /\ PeerOK T' = PeerOK T /\ left_ T' = left_ T).
Proof.
  intros Hg. eexists _, _. split; [done|]. split; [split; [done..|log_solve]|done].
Qed.

Lemma lost_relayed h (T : binding) : PeerOK T = false -> relayed h T.
Proof. intros Hl Hok. congruence. Qed.
(** *** query.go *)

(** Sequence two steps, the second from what the first leaves. *)
Tactic Notation "step" uconstr(lem) "as" simple_intropattern(pat) :=
  eapply runs_bind; [eapply lem; eauto using kept_good|intros ? ? ?Hk pat].

Lemma copyIn_loop_runs fuel T :
  good T -> relayed None T -> left_ T < fuel -> runs (copyIn_loop fuel) T (fun _ T' => relayed None T').
Proof.
  revert T. induction fuel as [|fuel IH]; intros T Hg Hr Hf; [lia|]. cbn [copyIn_loop].
  step PeerRead_runs as (_ & _ & Hp). destruct a; cbn [negb].
  - destruct Hp as (p & HP & Hfr & Hrel & Hlt). step packet_type_runs as [-> ->].
    destruct (is_in _ _); [|destruct (is_in _ _)].
    + step ServerWrite_runs as Hr'. apply IH; [by apply Hk1|done|]. pose proof (kept_left _ _ Hk1). lia.
    + eapply ServerWrite_runs; eauto using kept_good.
    + step peer_fail_runs as (Hl & _ & _). apply IH; [by apply Hk1|by apply lost_relayed|].
      pose proof (kept_left _ _ Hk1). lia.
  - step put_packet_runs as (HP & Hok & _).
    eapply ServerWrite_runs; [by apply Hk0|done|by apply of_packet_side|apply lost_relayed; congruence].
Qed.

Lemma copyIn_runs fuel T :
  good T -> holding T -> left_ T < fuel -> runs (copyIn fuel) T (fun _ T' => relayed None T').
Proof.
  intros Hg Hh Hf. unfold copyIn. step PeerWrite_reply as Hr. apply copyIn_loop_runs; [by apply Hk|done|].
  pose proof (kept_left _ _ Hk). lia.
Qed.

(** The loops that read from the server begin alike. *)
Lemma server_packet_runs {A} T (k : byte -> io binding A) (Q : A -> binding -> Prop) :
  good T -> relayed None T ->
  (forall p T', kept T T' -> holding T' -> Packet T' = Some p -> left_ T' < left_ T -> runs (k (ptype p)) T' Q) ->
  runs (ServerRead ;; do t <- packet_type; k t) T Q.
Proof.
  intros Hg Hr Hk. step ServerRead_runs as [Hh Hlt]. pose proof Hh as (p & l & HP & _).
  step packet_type_runs as [-> ->]. by apply Hk.
Qed.

(** Pass a reply on and go on reading. *)
Lemma reply_runs {A} T T0 (k : io binding A) (Q : A -> binding -> Prop) fuel :
  kept T0 T -> holding T -> left_ T < left_ T0 -> left_ T0 < S fuel ->
  (forall T', good T' -> relayed None T' -> left_ T' < fuel -> left_ T' < left_ T0 -> runs k T' Q) ->
  runs (PeerWrite ;; k) T Q.
Proof.
  intros Hk0 Hh Hlt Hf Hk. step PeerWrite_reply as Hr. pose proof (kept_left _ _ Hk1).
  apply Hk; [by apply Hk1|done|lia|lia].
Qed.

Lemma copyOut_loop_runs fuel T :
  good T -> relayed None T -> left_ T < fuel -> runs (copyOut_loop fuel) T (fun _ T' => relayed None T').
Proof.
  revert T. induction fuel as [|fuel IH]; intros T Hg Hr Hf; [lia|]. cbn [copyOut_loop].
  apply server_packet_runs; [done..|]. intros p T' Hk Hh HP Hlt. destruct (is_in _ _); [|destruct (is_in _ _)].
  - eapply reply_runs; eauto.
  - apply PeerWrite_reply; [by apply Hk|done].
  - apply runs_throw, Hk.
Qed.

Lemma copyOut_runs fuel T :
  good T -> holding T -> left_ T < fuel -> runs (copyOut fuel) T (fun _ T' => relayed None T').
Proof.
  intros Hg Hh Hf. unfold copyOut. step PeerWrite_reply as Hr. apply copyOut_loop_runs; [by apply Hk|done|].
  pose proof (kept_left _ _ Hk). lia.
Qed.

(** Read to the end of a COPY and go on. *)
Lemma copy_runs {A} T T0 (copy : nat -> io binding unit) (k : io binding A) (Q : A -> binding -> Prop) fuel :
  (forall fuel T, good T -> holding T -> left_ T < fuel -> runs (copy fuel) T (fun _ T' => relayed None T')) ->
  kept T0 T -> holding T -> left_ T < left_ T0 -> left_ T0 < S fuel ->
  (forall T', good T' -> relayed None T' -> left_ T' < fuel -> left_ T' < left_ T0 -> runs k T' Q) ->
  runs (copy fuel ;; k) T Q.
Proof.
  intros Hcopy Hk0 Hh Hlt Hf Hk. eapply runs_bind; [apply Hcopy; [by apply Hk0|done|lia]|].
  intros u T' Hk1 Hr. pose proof (kept_left _ _ Hk1). apply Hk; [by apply Hk1|done|lia|lia].
Qed.

Lemma ready_for_query_runs T p :
  good T -> holding T -> Packet T = Some p -> ptype p = ReadyForQuery.Type_ ->
  runs ready_for_query T (fun _ T' => relayed None T' /\ settled T').
Proof.
  intros Hg (q & l & HP & Hb & Hl & Hr) HP' Ht. assert (q = p) as -> by congruence.
  unfold runs, ready_for_query. rewrite HP. cbn. destruct p as [ty [e|[]]]; cbn in Ht |- *; subst ty;
    try by (exfalso; destruct (Hb _ eq_refl)).
  { eexists _, _. split; [done|]. by split; [apply binding_kept_refl|]. }
  set (T1 := set_status _ _).
  destruct (PeerWrite_runs T1 (of_packet (PReadyForQuery p))) as (r & T' & -> & [Hg' Hl' Hok' Hlg'] & HT');
    [done|done|by apply of_packet_side|].
  exists r, T'. split; [done|]. split; [by split|]. destruct r as [e|u]; [done|].
  destruct HT' as (Htx & Hsl & Hlog). split.
  - intros Hok. destruct (Hlog Hok) as [Hok1 ->]. cbn. rewrite Hl, <- app_assoc. apply relay_reply, Hr. done.
  - exists (server_log l). rewrite Hsl, Htx. cbn. by rewrite Hl, server_log_app.
Qed.

Lemma is_in_one t u : is_in t [u] = true -> t = u.
Proof. unfold is_in. rewrite bool_decide_eq_true. by intros ?%list_elem_of_singleton. Qed.

Lemma query_loop_runs fuel T :
  good T -> relayed None T -> left_ T < fuel ->
  runs (query_loop fuel) T (fun _ T' => relayed None T' /\ settled T').
Proof.
  revert T. induction fuel as [|fuel IH]; intros T Hg Hr Hf; [lia|]. cbn [query_loop].
  apply server_packet_runs; [done..|]. intros p T' Hk Hh HP Hlt.
  destruct (is_in _ _); [eapply reply_runs; eauto|].
  destruct (is_in _ _); [eapply (copy_runs _ _ copyIn); eauto using copyIn_runs|].
  destruct (is_in _ _); [eapply (copy_runs _ _ copyOut); eauto using copyOut_runs|].
  destruct (is_in _ _) eqn:Ht; [|by apply runs_throw, Hk].
  eapply ready_for_query_runs; [by apply Hk|done|done|by apply is_in_one].
Qed.

Lemma functionCall_loop_runs fuel T :
  good T -> relayed None T -> left_ T < fuel ->
  runs (functionCall_loop fuel) T (fun _ T' => relayed None T' /\ settled T').
Proof.
  revert T. induction fuel as [|fuel IH]; intros T Hg Hr Hf; [lia|]. cbn [functionCall_loop].
  apply server_packet_runs; [done..|]. intros p T' Hk Hh HP Hlt.
  destruct (is_in _ _); [eapply reply_runs; eauto|].
  destruct (is_in _ _) eqn:Ht; [|by apply runs_throw, Hk].
  eapply ready_for_query_runs; [by apply Hk|done|done|by apply is_in_one].
Qed.

(** Forward the packet of the peer, then run [loop]. *)
Lemma forward_runs {A} T p (loop : io binding A) (Q : A -> binding -> Prop) fuel :
  good T -> Packet T = Some p -> front p -> relayed (Some p) T -> left_ T < fuel ->
  (forall T', good T' -> relayed None T' -> left_ T' < fuel -> left_ T' <= left_ T -> runs loop T' Q) ->
  runs (ServerWrite ;; loop) T Q.
Proof.
  intros Hg HP Hf Hr Hlt Hk. step ServerWrite_runs as Hr'. pose proof (kept_left _ _ Hk0).
  apply Hk; [by apply Hk0|done|lia|lia].
Qed.

Lemma query_runs fuel T p :
  good T -> Packet T = Some p -> front p -> relayed (Some p) T -> left_ T < fuel ->
  runs (query fuel) T (fun _ T' => relayed None T' /\ settled T').
Proof. intros. eapply forward_runs; eauto using query_loop_runs. Qed.

Lemma functionCall_runs fuel T p :
  good T -> Packet T = Some p -> front p -> relayed (Some p) T -> left_ T < fuel ->
  runs (functionCall fuel) T (fun _ T' => relayed None T' /\ settled T').
Proof. intros. eapply forward_runs; eauto using functionCall_loop_runs. Qed.

(** A round of sync reads at least one packet of the server. *)
Lemma sync_loop_runs fuel T :
  good T -> relayed None T -> left_ T < fuel ->
  runs (sync_loop fuel) T (fun ok T' => relayed None T' /\ left_ T' < left_ T /\ (ok = true -> settled T')).
Proof.
  revert T. induction fuel as [|fuel IH]; intros T Hg Hr Hf; [lia|]. cbn [sync_loop].
  apply server_packet_runs; [done..|]. intros p T' Hk Hh HP Hlt.
  assert (Hgo : forall T', good T' -> relayed None T' -> left_ T' < fuel -> left_ T' < left_ T ->
    runs (sync_loop fuel) T' (fun ok T' => relayed None T' /\ left_ T' < left_ T /\ (ok = true -> settled T'))).
  { intros T1 ? ? ? ?. eapply runs_weaken; [by apply IH|]. intros ok T2 _ (? & ? & ?). split_and!; [done|lia|done]. }
  destruct (is_in _ _); [eapply reply_runs; eauto|].
  destruct (is_in _ _).
  { eapply (copy_runs _ _ copyIn); eauto using copyIn_runs. intros T1 ? ? ? ?. by apply runs_ret. }
  destruct (is_in _ _); [eapply (copy_runs _ _ copyOut); eauto using copyOut_runs|].
  destruct (is_in _ _) eqn:Ht; [|by apply runs_throw, Hk].
  eapply runs_bind; [eapply ready_for_query_runs; [by apply Hk|done|done|by apply is_in_one]|].
  intros u T1 Hk1 [? ?]. pose proof (kept_left _ _ Hk1). apply runs_ret; [by apply Hk1|]. split_and!; [done|lia|done].
Qed.

Lemma sync_runs fuel T p :
  good T -> Packet T = Some p -> front p -> relayed (Some p) T -> left_ T < fuel ->
  runs (sync fuel) T (fun ok T' => relayed None T' /\ left_ T' < left_ T /\ (ok = true -> settled T')).
Proof.
  intros. eapply forward_runs; eauto. intros T' ? ? ? ?. eapply runs_weaken; [by apply sync_loop_runs|].
  intros ok T2 _ (? & ? & ?). split_and!; [done|lia|done].
Qed.

Lemma drain_runs fuel T :
  good T -> PeerOK T = false -> left_ T < fuel ->
  runs (drain fuel) T (fun _ T' => relayed None T' /\ settled T').
Proof.
  revert T. induction fuel as [|fuel IH]; intros T Hg Hl Hf; [lia|]. cbn [drain].
  step put_packet_runs as (HP & Hok & Hleft).
  eapply runs_bind; [eapply sync_runs; [by apply Hk|done|by apply of_packet_side|apply lost_relayed; congruence|lia]|].
  intros ok T2 Hk2 (Hr & Hlt & Hset). destruct ok; [apply runs_ret; [by apply Hk2|auto]|].
  apply IH; [by apply Hk2| |lia]. apply Hk2. congruence.
Qed.

Lemma eqp_loop_runs fuel T :
  good T -> relayed None T -> left_ T < fuel ->
  runs (eqp_loop fuel) T (fun _ T' => relayed None T' /\ settled T').
Proof.
  revert T. induction fuel as [|fuel IH]; intros T Hg Hr Hf; [lia|]. cbn [eqp_loop].
  step PeerRead_runs as (_ & _ & Hp). pose proof (kept_left _ _ Hk). destruct a; cbn [negb].
  - destruct Hp as (p & HP & Hfr & Hrel & Hlt). step packet_type_runs as [-> ->].
    destruct (is_in _ _); [|destruct (is_in _ _)].
    + eapply runs_bind; [eapply sync_runs; eauto using kept_good; lia|].
      intros ok T2 Hk2 (Hr2 & Hlt2 & Hset). destruct ok; [apply runs_ret; [by apply Hk2|auto]|].
      apply IH; [by apply Hk2|done|lia].
    + eapply (forward_runs _ _ _ _ fuel); eauto using kept_good. lia.
    + step peer_fail_runs as (Hl & _ & _). pose proof (kept_left _ _ Hk1).
      apply IH; [by apply Hk1|by apply lost_relayed|lia].
  - apply drain_runs; [by apply Hk|done|lia].
Qed.

Lemma eqp_runs fuel T p :
  good T -> Packet T = Some p -> front p -> relayed (Some p) T -> left_ T < fuel ->
  runs (eqp fuel) T (fun _ T' => relayed None T' /\ settled T').
Proof. intros. eapply forward_runs; eauto using eqp_loop_runs. Qed.

(** Either the server has just reported [TxState], or it was not involved. *)
Definition unchanged (T T' : binding) : Prop :=
  TxState T' = TxState T /\ server_log (log T') = server_log (log T).

Lemma serve_packet_runs fuel T p :
  good T -> Packet T = Some p -> front p -> relayed (Some p) T -> left_ T < fuel ->
  runs (serve_packet fuel) T (fun _ T' => relayed None T' /\ (settled T' \/ unchanged T T')).
Proof.
  intros Hg HP Hf Hr Hlt. unfold serve_packet. step packet_type_runs as [-> ->].
  destruct (is_in _ _); [eapply runs_weaken; [by eapply query_runs|intros u T2 _ [? ?]; auto]|].
  destruct (is_in _ _); [eapply runs_weaken; [by eapply functionCall_runs|intros u T2 _ [? ?]; auto]|].
  destruct (is_in _ _) eqn:Ht.
  { apply is_in_one in Ht. set (T1 := set_packet T (Some (of_packet (PReadyForQuery (TxState T))))).
    apply (runs_bind _ _ _ (fun _ T' => T' = T1)); [by eexists _, _; split; [done|]; split; [split; [done..|log_solve]|]|].
    intros u T2 Hk2 ->. eapply runs_weaken; [by eapply PeerWrite_runs; [apply Hk2|done|apply of_packet_side]|].
    intros u2 T3 Hk3 (Htx & Hsl & Hlog). split; [|by right; split].
    intros Hok. destruct (Hlog Hok) as [Hok' ->]. eapply relay_phony; [|done]. by apply Hr. }
  clear Ht. destruct (is_in _ _); [eapply runs_weaken; [by eapply eqp_runs|intros u T2 _ [? ?]; auto]|].
  eapply runs_weaken; [by eapply peer_fail_runs|]. intros u T2 _ (Hl & Htx & Hlog).
  split; [by apply lost_relayed|]. right. split; [done|by rewrite Hlog].
Qed.

(** The status of the transaction is the server's, once it has been asked. *)
Definition known (T : binding) : Prop := settled T \/ (TxState T = x00 /\ server_log (log T) = []).

Lemma known_unchanged T T' : known T -> unchanged T T' -> known T'.
Proof. unfold known, settled. intros Hkn [-> ->]. done. Qed.

Lemma known_idle T : known T -> TxState T = x49 -> settled T.
Proof. intros [?|[? ?]] ?; [done|congruence]. Qed.

Lemma transaction_runs fuel T p :
  good T -> Packet T = Some p -> front p -> relayed (Some p) T -> known T -> left_ T < fuel ->
  runs (transaction fuel) T (fun _ T' => relayed None T' /\ settled T' /\ TxState T' = x49).
Proof.
  revert T p. induction fuel as [|fuel IH]; intros T p Hg HP Hf Hr Hkn Hlt; [lia|]. cbn [transaction].
  step serve_packet_runs as [Hr1 Hs1]. pose proof (kept_left _ _ Hk).
  assert (known T') as Hkn1 by (destruct Hs1 as [?|?]; [by left|by eapply known_unchanged]).
  apply (runs_bind _ _ _ (fun s T1 => s = TxState T' /\ T1 = T'));
    [by eexists _, _; split; [done|]; split; [apply binding_kept_refl, Hk|]|]. intros s T1 _ [-> ->].
  destruct (decide _) as [Hi|Hi]; [apply runs_ret; [by apply Hk|split_and!; [done|by apply known_idle|done]]|].
  step PeerRead_runs as (Htx & Hsl & Hp). pose proof (kept_left _ _ Hk0).
  destruct a0; cbn [negb].
  - destruct Hp as (q & HPq & Hfq & Hrq & Hltq). eapply IH; eauto using kept_good; [|lia].
    by eapply known_unchanged.
  - unfold queryString. apply (runs_bind _ _ _ (fun _ T3 => relayed None T3 /\ settled T3)).
    { step put_packet_runs as (HP3 & Hok3 & Hl3).
      eapply query_runs; [by apply Hk1|done|by apply of_packet_side|apply lost_relayed; congruence|lia]. }
    intros u T3 Hk3 [Hr3 Hs3].
    apply (runs_bind _ _ _ (fun s T1 => s = TxState T3 /\ T1 = T3));
      [by eexists _, _; split; [done|]; split; [apply binding_kept_refl, Hk3|]|]. intros s T4 _ [-> ->].
    destruct (decide _) as [Hn|Hn]; [by apply runs_throw, Hk3|].
    apply runs_ret; [by apply Hk3|]. split_and!; [done..|]. by destruct (decide (TxState T3 = x49)).
Qed.
End Laws.

(** ** What a log of a relay shows *)

Definition from_peer (l : list ev) : list fpacket := omap (fun e => match e with PR p => Some p | _ => None end) l.
Definition to_server (l : list ev) : list fpacket := omap (fun e => match e with SW p => Some p | _ => None end) l.
Definition from_server (l : list ev) : list fpacket := omap (fun e => match e with SR p => Some p | _ => None end) l.
Definition to_peer (l : list ev) : list fpacket := omap (fun e => match e with PW p => Some p | _ => None end) l.

(** Nothing is lost, reordered or made up, up to answered Syncs: the server
    sees a subsequence of the peer's packets, the peer gets all packets of the
    server in order, and one more for every Sync the server did not see. *)
Record faithful (hand : list fpacket) (l : list ev) : Prop := {
  f_up : exists k, from_peer l = k ++ hand /\ sublist (to_server l) k;
  f_down : sublist (from_server l) (to_peer l);
  f_count : length (from_peer l) + length (from_server l) = length hand + length (to_server l) + length (to_peer l)
}.

Ltac proj := unfold from_peer, to_server, from_server, to_peer in *; rewrite ?omap_app; cbn.

Lemma relay_faithful h l : relay h l -> faithful (option_list h) l.
Proof.
  induction 1 as [p|p l _ IH|p l _ IH|p l _ IH|p s l _ IH _]; [|destruct IH as [(k & Hk & Hup) Hd Hc]..]; cbn in *.
  - split; proj; [exists []|..]; done.
  - split; proj; rewrite ?Hk, ?app_nil_r.
    + exists k. by rewrite ?app_nil_r in *.
    + done.
    + revert Hc. proj. rewrite Hk, !length_app. cbn. lia.
  - split; proj; rewrite ?app_nil_r.
    + exists (k ++ [p]). rewrite app_nil_r. split; [done|]. by apply sublist_app.
    + done.
    + revert Hc. proj. rewrite !length_app. cbn. lia.
  - split; proj; rewrite ?app_nil_r.
    + exists k. by rewrite app_nil_r in *.
    + by apply sublist_app.
    + revert Hc. proj. rewrite !length_app. cbn. lia.
  - split; proj; rewrite ?app_nil_r.
    + exists (k ++ [p]). rewrite app_nil_r. split; [done|]. by apply sublist_inserts_r.
    + by apply sublist_inserts_r.
    + revert Hc. proj. rewrite !length_app. cbn. lia.
Qed.

(** ** Theorems *)
Module BackendTheorems.
Section Theorems.
Context {CS CP : Type} `{LS : ConnLaws CS back front} `{LP : ConnLaws CP front back}.

(** A server and possibly a client, with at most [fuel] packets to come. *)
Definition fits (fuel : nat) (server : CS) (peer : option CP) : Prop :=
  conn_good server /\ (forall c, peer = Some c -> conn_good c) /\
  remaining server + match peer with Some c => remaining c | None => 0 end < fuel.

(** [runs] from a fresh binding. *)
Lemma transaction_new fuel server peer p :
  fits fuel server peer -> front p ->
  runs (transaction fuel) (new_binding server peer (Some p))
    (fun _ T' => relayed None T' /\ settled T' /\ TxState T' = x49).
Proof.
  intros (Hs & Hp & Hf) Hfr. eapply transaction_runs; [by split|done|done| |by right; destruct peer|done].
  intros Hok. destruct peer; [apply relay_start|done].
Qed.

(** C12: A transaction ends: whatever the two sides send, relaying it returns
    (possibly with an error) after at most as many rounds as there are packets,
    and never panics. *)
Theorem bounce_returns (fuel : nat) (client : CP) (server : CS) (p : fpacket) :
  fits fuel server (Some client) -> front p ->
  exists r, Bounce fuel client server p = Ret r.
Proof.
  intros Hfit Hf. destruct (transaction_new _ _ _ _ Hfit Hf) as (r & T' & Ht & _).
  unfold Bounce, Transaction. rewrite Ht. cbn. by eexists.
Qed.

(** C1: A server is only given back idle: if a transaction ends without a
    server error, then the last thing exchanged with the server is its
    ReadyForQuery with status 'I', whether or not the client survived. *)
Theorem transaction_ends_idle (fuel : nat) (server : CS) (peer : option CP) (p : fpacket) r T' :
  fits fuel server peer -> front p ->
  transaction fuel (new_binding server peer (Some p)) = Ret (inr r, T') ->
  exists l, server_log (log T') = l ++ [SR (of_packet (PReadyForQuery x49))].
Proof.
  intros Hfit Hf Ht. destruct (transaction_new _ _ _ _ Hfit Hf) as (r' & T1 & Ht' & _ & HT).
  rewrite Ht' in Ht. injection Ht as -> ->. destruct HT as (_ & [l Hl] & Htx). exists l. by rewrite Hl, Htx.
Qed.

(** C6: A transaction is relayed faithfully: as long as the client is there,
    the server gets a subsequence of the client's packets, the client gets
    all packets of the server in order, nothing is changed or duplicated, and
    the only packets the server does not see are Syncs that were answered in
    its place. *)
Theorem transaction_relays (fuel : nat) (server : CS) (client : CP) (p : fpacket) r T' :
  fits fuel server (Some client) -> front p ->
  transaction fuel (new_binding server (Some client) (Some p)) = Ret (inr r, T') ->
  PeerOK T' = true -> relay None (log T') /\ faithful [] (log T').
Proof.
  intros Hfit Hf Ht Hok. destruct (transaction_new _ _ _ _ Hfit Hf) as (r' & T1 & Ht' & _ & HT).
  rewrite Ht' in Ht. injection Ht as -> ->. destruct HT as (Hr & _). specialize (Hr Hok).
  split; [done|]. by apply relay_faithful in Hr.
Qed.

(** A query of the pooler itself (a reset query, a SET) is complete when it
    returns without an error: the server was sent the query first and has
    answered with a ReadyForQuery, with nothing sent to it since. *)
Theorem query_string_complete (fuel : nat) (server : CS) (q : gostring) :
  fits fuel server (None : option CP) ->
  exists r T', queryString fuel q (new_binding server (None : option CP) None) = Ret (r, T') /\
    forall u, r = inr u ->
      exists l s, server_log (log T') = SW (of_packet (PQuery q)) :: l ++ [SR (of_packet (PReadyForQuery s))].
Proof.
  intros (Hs & Hp & Hf). set (T1 := set_packet (new_binding server (None : option CP) None) (Some (of_packet (PQuery q)))).
  change (queryString fuel q (new_binding server None None)) with (query fuel T1). unfold query.
  assert (runs (ServerWrite ;; query_loop fuel) T1 (fun _ T' => settled T' /\
    exists l, log T' = SW (of_packet (PQuery q)) :: l)) as (r & T' & HT & _ & Hr).
  { eapply runs_bind; [eapply (ServerWrite_logs T1 (of_packet (PQuery q))); [by split|done|by apply of_packet_side|done]|].
    intros u T2 Hk [Hlog Hr]. pose proof (kept_left _ _ Hk). unfold left_ in *. cbn in *.
    eapply runs_weaken; [apply query_loop_runs; [by apply Hk|done|unfold left_; lia]|].
    intros u3 T3 [_ _ _ [l Hl]] [_ Hset]. split; [done|]. exists l. by rewrite Hl, Hlog. }
  exists r, T'. split; [exact HT|]. intros u ->. destruct Hr as [[l Hl] [l' Hl']]. rewrite Hl' in Hl |- *.
  cbn in Hl |- *. destruct l as [|e l]; cbn in Hl; [done|]. injection Hl as _ ->. eauto.
Qed.

(** A Sync of an idle client is answered with a status that is none of the
    protocol's ('I', 'T' or 'E'): the first packet of a transaction is answered
    before the server has been asked, and TxState is still 0.  The transaction
    is then not over, so the server stays bound to the client. *)
Theorem phony_sync_status (fuel : nat) (server : CS) (client client' : CP) (p : fpacket) :
  ptype p = Sync.Type_ ->
  conn_write client (of_packet (PReadyForQuery x00)) = Ret (None, client') ->
  exists T', serve_packet fuel (new_binding server (Some client) (Some p)) = Ret (inr tt, T') /\
    log T' = [PR p; PW (of_packet (PReadyForQuery x00))] /\ TxState T' <> x49 /\ Peer T' = Some client'.
Proof.
  intros Ht Hw. unfold serve_packet, packet_type, type_of, andthen. cbn. rewrite Ht. cbn.
  change (is_in Sync.Type_ [Query.Type_]) with false. change (is_in Sync.Type_ [FunctionCall.Type_]) with false.
  change (is_in Sync.Type_ [Sync.Type_]) with true. cbn [PeerWrite].
  unfold PeerWrite, set_packet, new_binding. cbn [Peer PeerError Packet TxState deref obind Server lost log].
  rewrite Hw. cbn [obind fst snd]. eexists. by split.
Qed.
End Theorems.

(** *** A transaction of two queries over the connections of a pool *)

Abbreviation ServerConn := (Conn Script EqpMiddleware.Server).
Abbreviation ClientConn := (Conn Script (Unterminate.unterm + EqpMiddleware.Client)).

#[local] Instance sconn_ops : ConnOps ServerConn := conn_ops (rd := back) (wr := front).
#[local] Instance sconn_laws : ConnLaws ServerConn back front := conn_laws.
#[local] Instance cconn_ops : ConnOps ClientConn := conn_ops (rd := front) (wr := back).
#[local] Instance cconn_laws : ConnLaws ClientConn front back := conn_laws.

Definition server_script : list fpacket :=
  of_packet <$> [PCommandComplete []; PReadyForQuery x54; PCommandComplete []; PReadyForQuery x49].
Definition sconn : ServerConn :=
  with_middleware (NewConn (mkScript server_script [] [])) [EqpMiddleware.NewServer].
Definition cconn : ClientConn :=
  with_middleware (NewConn (mkScript [of_packet (PQuery [x43])] [] []))
    [inl Unterminate.Unterminate; inr EqpMiddleware.NewClient].
Definition begin_ : fpacket := of_packet (PQuery [x42]).

Lemma rings_new : rings_wf new_State.
Proof. split_and!; apply wf_zero_ring. Qed.

Lemma side_script side (l : list Packets.Packet) :
  forallb side l = true -> Forall (of_side side) (of_packet <$> l).
Proof. induction l as [|p l IH]; cbn; [done|]. intros [? ?]%andb_prop. constructor; [by apply of_packet_side|auto]. Qed.

Lemma sconn_good : conn_good sconn.
Proof. split; [by apply (side_script backend)|]. constructor; [apply rings_new|done]. Qed.
Lemma cconn_good : conn_good cconn.
Proof.
  split; [by apply (side_script frontend [PQuery [x43]])|]. constructor; [done|]. constructor; [apply rings_new|done].
Qed.

Lemma both_fit : fits 6 sconn (Some cconn).
Proof. split_and!; [apply sconn_good|intros ? [= <-]; apply cconn_good|vm_compute; lia]. Qed.

Definition run_tx := Eval vm_compute in transaction 6 (new_binding sconn (Some cconn) (Some begin_)).
Definition tx_binding : serverToPeerBinding ServerConn ClientConn :=
  match run_tx with Ret (_, T) => T | _ => new_binding sconn (Some cconn) (Some begin_) end.

Lemma run_tx_eq : transaction 6 (new_binding sconn (Some cconn) (Some begin_)) = Ret (inr tt, tx_binding).
Proof. vm_compute. reflexivity. Qed.

Lemma bounce_returns_witness : exists r, Bounce 6 cconn sconn begin_ = Ret r.
Proof. apply bounce_returns; [exact both_fit|by apply of_packet_side]. Defined.

Lemma transaction_ends_idle_witness :
  exists l, server_log (log tx_binding) = l ++ [SR (of_packet (PReadyForQuery x49))].
Proof. eapply transaction_ends_idle; [exact both_fit| |exact run_tx_eq]. by apply of_packet_side. Defined.

Lemma transaction_relays_witness : relay None (log tx_binding) /\ faithful [] (log tx_binding).
Proof. eapply transaction_relays; [exact both_fit| |exact run_tx_eq|reflexivity]. by apply of_packet_side. Defined.

Lemma query_string_complete_witness :
  exists r T', queryString 5 [x51] (new_binding sconn (None : option ClientConn) None) = Ret (r, T') /\
    forall u, r = inr u ->
      exists l s, server_log (log T') = SW (of_packet (PQuery [x51])) :: l ++ [SR (of_packet (PReadyForQuery s))].
Proof. apply query_string_complete. split_and!; [apply sconn_good|done|vm_compute; lia]. Defined.

Lemma phony_sync_status_witness :
  exists T', serve_packet 5 (new_binding sconn (Some (mkScript [] [] [])) (Some (of_packet (PSync tt)))) = Ret (inr tt, T') /\
    log T' = [PR (of_packet (PSync tt)); PW (of_packet (PReadyForQuery x00))] /\ TxState T' <> x49 /\
    Peer T' = Some (mkScript [] [] [of_packet (PReadyForQuery x00)]).
Proof. apply phony_sync_status; reflexivity. Defined.
End BackendTheorems.
