(* ===== verification/EqpSync.v ===== *)
(** * EqpSync: lib/fed/middlewares/eqp/sync.go on a connection

    [Eqp.SyncMiddleware] is the packets that bring a server to a client's
    statements and portals; here they are written to the server, loop by loop, and
    followed by a backend Sync that waits for the answers.  The log has what was
    exchanged with the server. *)

From Stdlib Require Import Init.Byte.
From S2P Require Import Prelude.
From S2P Require Import Wire.
From S2P Require Import Packets.
From S2P Require Import Fed.
From S2P Require Import Eqp.
From S2P Require Import Backend.

Local Open Scope go_scope.

Section Run.
Context {CS CP : Type} `{ConnOps CS} `{ConnOps CP}.

(** The writes of one loop: [if err := server.WritePacket(...); err != nil { return err }]. *)
Fixpoint write_all (ps : list Packets.Packet) (server : CS) (l : list ev) : outcome (option error * CS * list ev) :=
  match ps with
  | [] => Ret (None, server, l)
  | p :: ps =>
      let! r := conn_write server (of_packet p) in
      match r.1 with
      | Some e => Ret (Some e, r.2, l)
      | None => write_all ps r.2 (l ++ [SW (of_packet p)])
      end
  end.

Definition then_write (ps : outcome (list Packets.Packet)) (r : option error * CS * list ev) : outcome (option error * CS * list ev) :=
  match r with
  | (Some e, server, l) => Ret (Some e, server, l)
  | (None, server, l) => let! ps := ps in write_all ps server l
  end.

(** [s] and [c] are the states of the two middlewares; the server's is not
    changed by what is written, only by the answers. *)
Definition SyncMiddleware (fuel : nat) (c s : State) (sp : list (gostring * Bind.t)) (ss cs : list (gostring * Parse.t))
    (cp : list (gostring * Bind.t)) (server : CS) : outcome (option error * CS * list ev) :=
  let! r := write_all (close_portals sp) server [] in
  let! r := then_write (close_statements ss (preparedStatements c)) r in
  let! r := then_write (parse_statements cs (preparedStatements s)) r in
  let! r := then_write (Ret (bind_portals cp)) r in
  match r with
  | (Some e, server, l) => Ret (Some e, server, l)
  | (None, server, []) => Ret (None, server, [])
  | (None, server, l) =>
      let! r := sync fuel (new_binding (CP := CP) server None (Some (of_packet (PSync tt)))) in
      Ret (match r.1 with inl e => Some e | inr _ => None end, Server r.2, l ++ log r.2)
  end.

(** Sync: the middlewares are looked up on the two connections. *)
Definition Sync (fuel : nat) (c s : option State) sp ss cs cp (server : CS) : outcome (option error * CS * list ev) :=
  match c, s with
  | Some c, Some s => SyncMiddleware fuel c s sp ss cs cp server
  | _, _ => Panic
  end.

Lemma write_all_app ps qs server l :
  write_all (ps ++ qs) server l = let! r := write_all ps server l in then_write (Ret qs) r.
Proof.
  revert server l. induction ps as [|p ps IH]; intros server l; cbn; [done|].
  destruct (conn_write server (of_packet p)) as [[[e|] c]| |]; cbn; [done|apply IH|done|done].
Qed.
End Run.

Section Laws.
Context {CS CP : Type} `{LS : ConnLaws CS back front} `{LP : ConnLaws CP front back}.

(** What is written has been logged; writing returns. *)
Lemma write_all_runs ps (server : CS) l : conn_good server -> Forall (fun p => frontend p = true) ps ->
  exists e server' l', write_all ps server l = Ret (e, server', l ++ l') /\ conn_good server' /\ remaining server' <= remaining server /\
    (e = None -> l' = (fun p => SW (of_packet p)) <$> ps).
Proof.
  revert server l. induction ps as [|p ps IH]; intros server l Hg Hf; cbn [write_all].
  - exists None, server, []. by rewrite app_nil_r.
  - apply Forall_cons in Hf as [Hp Hf]. destruct (write_law server (of_packet p) Hg) as (e & s1 & -> & Hg1 & Hr1); [apply of_packet_side; exact Hp|].
    cbn. destruct e as [e|]; [exists (Some e), s1, []; by rewrite app_nil_r|].
    destruct (IH s1 (l ++ [SW (of_packet p)]) Hg1 Hf) as (e & s2 & l' & -> & Hg2 & Hr2 & He).
    exists e, s2, (SW (of_packet p) :: l'). rewrite <- app_assoc. split_and!; [done|done|lia|]. intros Hn. cbn. by rewrite He.
Qed.

(** The four loops write the packets of [Eqp.SyncMiddleware], one after the other. *)
Lemma SyncMiddleware_writes fuel c s sp ss cs cp (server : CS) :
  SyncMiddleware (CP := CP) fuel c s sp ss cs cp server =
    let! r := write_all (request_packet <$> sync_requests c s sp ss cs cp) server [] in
    match r with
    | (Some e, server, l) => Ret (Some e, server, l)
    | (None, server, []) => Ret (None, server, [])
    | (None, server, l) =>
        let! r := sync fuel (new_binding (CP := CP) server None (Some (of_packet (PSync tt)))) in
        Ret (match r.1 with inl e => Some e | inr _ => None end, Server r.2, l ++ log r.2)
    end.
Proof.
  assert (E : request_packet <$> sync_requests c s sp ss cs cp =
    ((close_portals sp ++ (request_packet <$> (close_s <$> (filter (must_close (preparedStatements c)) ss).*1))) ++
      (request_packet <$> (RParse <$> (filter (must_parse (preparedStatements s)) cs).*2))) ++ bind_portals cp).
  { unfold sync_requests, close_portals, bind_portals. rewrite !fmap_app, <- !list_fmap_compose, <- !app_assoc. done. }
  unfold SyncMiddleware. rewrite close_statements_spec, parse_statements_spec, E, !write_all_app.
  destruct (write_all (close_portals sp) server []) as [[[[e|] s1] l1]| |]; cbn [obind then_write]; [done| |done|done].
  destruct (write_all _ s1 l1) as [[[[e|] s2] l2]| |]; cbn [obind then_write]; [done| |done|done].
  destruct (write_all _ s2 l2) as [[[[e|] s3] l3]| |]; done.
Qed.

Lemma sync_requests_front c s sp ss cs cp : Forall (fun p => frontend p = true) (request_packet <$> sync_requests c s sp ss cs cp).
Proof. apply Forall_fmap, Forall_forall. intros r _. by destruct r as [?|?|[[] ?]]. Qed.

End Laws.

(** ** The client and the server of [EqpTheorems], and a server that answers *)
Definition eqp_server : Script := mkScript [of_packet (PCloseComplete tt); of_packet (PParseComplete tt); of_packet (PBindComplete tt); of_packet (PReadyForQuery x49)] [] [].

