(* ===== verification/Dialing.v ===== *)
(** * Dialing: handlers/pool/dialer.go and the critics of handlers/pool/critics

    A Dialer opens a connection to a server and has it accepted (Startup), or
    opens one to cancel a query.  A critic rates a server by a query on such a
    connection.  net.Dial is a parameter: the connection or an error; [sock] are
    the sockets' openings and closings.  The clock enters as the time a query
    took. *)

From Stdlib Require Import Init.Byte Strings.Byte Strings.String ZArith.
From S2P Require Import Prelude.
From S2P Require Import Wire.
From S2P Require Import Packets.
From S2P Require Import Strutil.
From S2P Require Import Fed.
From S2P Require Import Startup.
From S2P Require Import Credentials.
From S2P Require Import Backend.
From S2P Require Import Gsql.

Local Open Scope Z_scope.
Local Open Scope go_scope.

(** ** dialer.go *)
Module Dialer.
Record Dialer := mkDialer {
  Address : gostring;
  SSLMode : string;
  Username : gostring;
  Database : gostring;
  RawPassword : gostring;
  RawParameters : gmap gostring gostring;
  Credentials : option Credentials;
  Parameters : gmap gostring gostring
}.

(** Provision, but for the module that configures TLS.  Of two parameters whose
    names differ in case one wins: [order] is the order of the range. *)
Definition Provision (unicode_lower : gostring -> gostring) (order : gmap gostring gostring -> list (gostring * gostring)) (T : Dialer) : Dialer :=
  mkDialer (Address T) (SSLMode T) (Username T) (Database T) (RawPassword T) (RawParameters T)
    (FromString (Username T) (RawPassword T))
    (foldl (fun m p => <[MakeCIString unicode_lower p.1 := p.2]> m) ∅ (order (RawParameters T))).

Section Dial.
Context {C : Type} `{ConnOps C} `{StartupOps C}.
Context (unicode_lower : gostring -> gostring).
Context {E : Type} (encoder_Write : E -> list byte -> (option (list byte) * option error) * E).
(** The credentials as the startup uses them: Credentials.to_backend. *)
Context (to_backend : option Credentials.Credentials -> @BackendStartup.Credentials E).
Context (net_Dial : string -> gostring -> error + C).
Context (order : gmap gostring gostring -> list (gostring * gostring)).

Inductive sock := Opened (network : string) (address : gostring) | Closed.

Definition dial (T : Dialer) : (error + C) * list sock :=
  let network := if HasPrefix (Address T) (lit "/") then "unix"%string else "tcp"%string in
  match net_Dial network (Address T) with
  | inl e => (inl e, [])
  | inr c => (inr c, [Opened network (Address T)])
  end.

(** fed.NewConn *)
Definition new_session (c : C) : Session C := mkSession c [] [] ∅ (mkKey 0 0) false [].

(** The connection that is returned is ready: conn.Ready is set. *)
Definition Dial (fuel : nat) (T : Dialer) : outcome ((error + Session C) * list sock) :=
  match dial T with
  | (inl e, l) => Ret (inl e, l)
  | (inr c, l) =>
      let conn := set_database (Database T) (set_user (Username T) (new_session c)) in
      let! r := BackendStartup.accept unicode_lower encoder_Write fuel
        (BackendStartup.mkOptions (SSLMode T) (Username T) (to_backend (Credentials T)) (Database T) (order (Parameters T))) conn in
      match r.1 with
      | inl e => Ret (inl e, l)
      | inr _ => Ret (inr r.2, l)
      end
  end.

(** The deferred Close closes the socket. *)
Definition Cancel (key : BackendKey) (T : Dialer) : outcome (list sev * list sock) :=
  match dial T with
  | (inl _, l) => Ret ([], l)
  | (inr c, l) =>
      let! r := BackendStartup.Cancel key (new_session c) in
      match r.1 with
      | inl _ => Ret (Startup.log r.2, l ++ [Closed])
      | inr _ => let! q := Startup.ReadPacket r.2 in Ret (Startup.log q.2, l ++ [Closed])
      end
  end.

(** A dial that fails after the socket was opened leaves it open. *)
Lemma dial_leaks fuel T e l c : net_Dial (if HasPrefix (Address T) (lit "/") then "unix" else "tcp")%string (Address T) = inr c ->
  Dial fuel T = Ret (inl e, l) -> exists network, l = [Opened network (Address T)].
Proof.
  intros Hd. unfold Dial, dial. rewrite Hd. destruct (BackendStartup.accept _ _ _ _ _) as [[[e'|u] s]| |]; cbn; [|by intros [=]..].
  intros [= _ <-]. by eexists.
Qed.

(** Cancelling sends the request and nothing else, and closes what it opened. *)
Lemma cancel_closes key T l s : Cancel key T = Ret (l, s) ->
  (s = [] \/ exists network, s = [Opened network (Address T); Closed]) /\
  forall p, WP p ∈ l -> p = of_packet (PStartup (Startup.ControlMode (Startup.Cancel (ProcessID key) (SecretKey key)))).
Proof.
  unfold Cancel, dial. destruct (net_Dial _ _) as [e|c]; [intros [= <- <-]; split; [by left|set_solver]|].
  unfold BackendStartup.Cancel, Startup.WritePacket. cbn [wire new_session].
  destruct (conn_write c _) as [[[e|] c']| |]; cbn; [| |done|done].
  - intros [= <- <-]. split; [right; by eexists|set_solver].
  - unfold Startup.ReadPacket. cbn. destruct (conn_read c') as [[[e|p] c'']| |]; cbn; [| |done|done]; intros [= <- <-]; split; try (right; by eexists); set_solver.
Qed.
End Dial.
End Dialer.

(** ** The critics *)
Module Critics.

(** latency/critic.go *)
Record Latency := mkLatency { QueryThreshold : Z; Validity : Z }.

Definition millisecond : Z := 1000000.
Definition NewLatency : Latency := mkLatency (300 * millisecond) (5 * 60 * 1000 * millisecond).

(** [int(dur / threshold)]: a division of integers, which panics for zero. *)
Definition penalty (dur threshold : Z) : outcome Z := if decide (threshold = 0) then Panic else Ret (swrap 64 (Z.quot dur threshold)).

Section Latency.
Context {CS : Type} `{ConnOps CS} {CP : Type} `{ConnOps CP}.
Definition latency_Taste (fuel : nat) (T : Latency) (dur : Z) (conn : CS) : outcome ((Z * Z * option error) * CS) :=
  let! r := QueryString (CP := CP) fuel conn None (lit "select 0") in
  let '(err, _, conn, _) := r in
  match err with
  | Some e => Ret ((0, Validity T, Some e), conn)
  | None => let! p := penalty dur (QueryThreshold T) in Ret ((p, Validity T, None), conn)
  end.
End Latency.

(** replication/critic.go; floats are a parameter: [positive] is > 0, [per] the
    division of a lag by a time in seconds, converted to int. *)
Record Replication := mkReplication { LagQueryThreshold : Z; ReplicationThreshold : Z; LagValidity : Z }.

Definition NewReplication : Replication :=
  mkReplication (300 * millisecond) (3 * 1000 * millisecond) (5 * 60 * 1000 * millisecond).

Definition replicationLagQuery : gostring :=
  lit "SELECT CASE WHEN pg_last_wal_receive_lsn() = pg_last_wal_replay_lsn() THEN 0 ELSE EXTRACT (epoch from (now() - pg_last_xact_replay_timestamp())) END AS lag;".

Section Replication.
Context {C : Type} `{ConnOps C}.
Context {F : Type} (zero_float : F) (ParseFloat : gostring -> option F) (positive : F -> bool) (per : F -> Z -> Z).

(** replicationLagQueryResult: Lag *float64 `sql:"0"` *)
Definition result_type : Gsql.typ := Gsql.TPtr (Gsql.TStruct [(lit "0", Gsql.TPtr Gsql.TFloat)]).
Definition no_result : Gsql.val F := Gsql.VPtr (Some (Gsql.VStruct [Gsql.VPtr None])).

Definition Lag (v : list (Gsql.val F)) : option F :=
  match v with
  | [Gsql.VPtr (Some (Gsql.VStruct [Gsql.VPtr (Some (Gsql.VFloat f))]))] => Some f
  | _ => None
  end.

Definition replication_Taste (fuel : nat) (T : Replication) (dur : Z) (conn : C) : outcome ((Z * Z * option error) * C) :=
  let! r := Gsql.Query zero_float ParseFloat fuel [(result_type, no_result)] replicationLagQuery conn in
  match r.1 with
  | inl e => Ret ((0, 0, Some e), r.2)
  | inr v =>
      let! p := match Lag v with
                | Some lag => if positive lag then Ret (per lag (ReplicationThreshold T)) else penalty dur (LagQueryThreshold T)
                | None => penalty dur (LagQueryThreshold T)
                end in
      Ret ((p, LagValidity T, None), r.2)
  end.
End Replication.

(** A penalty counts the thresholds that fit in the time a query took. *)
Lemma penalty_counts dur threshold : 0 < threshold -> 0 <= dur < 2 ^ 63 ->
  exists p, penalty dur threshold = Ret p /\ 0 <= p /\ p * threshold <= dur < (p + 1) * threshold.
Proof.
  intros Ht Hd. unfold penalty. rewrite decide_False by lia. rewrite Z.quot_div_nonneg by lia. eexists. split; [done|].
  assert (Hq : 0 <= dur / threshold <= dur) by (split; [apply Z.div_pos; lia|apply Z.div_le_upper_bound; nia]).
  rewrite swrap_id by lia. pose proof (Z.div_mod dur threshold ltac:(lia)). pose proof (Z.mod_pos_bound dur threshold Ht). nia.
Qed.

(** With the defaults of the configuration file the thresholds are positive; a
    critic that is configured in JSON without one has the threshold zero, and the
    first server it rates makes the process panic. *)
Example zero_threshold_panics validity dur :
  latency_Taste (CP := Script) 9 (mkLatency 0 validity) dur
    (mkScript (of_packet <$> [PRowDescription []; PDataRow []; PCommandComplete (lit "SELECT 1"); PReadyForQuery x49]) [] []) = Panic.
Proof. reflexivity. Qed.
End Critics.
