(* ===== verification/InitialSync.v ===== *)
(** * InitialSync: syncInitialParameters of pools/basic/pool.go

    In the mode "initial" a basic pool makes the parameters of a server and of a
    client agree once, when they are paired: by what both sent or reported at
    their start.  The client is told of every parameter; tracked ones are set on
    the server.  The maps are given as lists, in the order of the range; [iev] are
    the packets the client was sent and the parameters that were set. *)

From Stdlib Require Import Init.Byte Strings.Byte Strings.String.
From S2P Require Import Prelude.
From S2P Require Import Slices.
From S2P Require Import Wire.
From S2P Require Import Packets.
From S2P Require Import Strutil.
From S2P Require Import Fed.
From S2P Require Import Backend.

Local Open Scope go_scope.

Abbreviation params := (list (gostring * gostring)).

Inductive iev := Told (key value : gostring) | Was_set (key value : gostring).

(** [m[key]]: the empty string if there is none. *)
Definition value_at (m : params) (key : gostring) : gostring := default [] ((list_to_map m : gmap gostring gostring) !! key).

Section Sync.
Context {CS CP : Type} `{ConnOps CS} `{ConnOps CP}.

(** (err, serverErr), what was done, and the client and the server after. *)
Abbreviation res := (option error * option error * list iev * CP * CS)%type.

(** [err = client.Conn.WritePacket(ctx, &p); if err != nil { return }; k] *)
Definition tell (key value : gostring) (client : CP) (server : CS) (k : CP -> outcome res) : outcome res :=
  let! r := conn_write client (of_packet (PParameterStatus (ParameterStatus.mk key value))) in
  match r.1 with
  | Some e => Ret (Some e, None, [], r.2, server)
  | None => let! q := k r.2 in let '(e, se, l, c, s) := q in Ret (e, se, Told key value :: l, c, s)
  end.

(** The second loop: what only the server has. *)
Fixpoint server_loop (clientParams : params) (l : params) (client : CP) (server : CS) : outcome res :=
  match l with
  | [] => Ret (None, None, [], client, server)
  | (key, value) :: l =>
      if decide (key ∈ clientParams.*1) then server_loop clientParams l client server
      else tell key value client server (fun client => server_loop clientParams l client server)
  end.

(** The first loop: what the client asked for; [k] goes on after it. *)
Fixpoint client_loop (fuel : nat) (tracked : list gostring) (serverParams : params) (k : CP -> CS -> outcome res) (l : params) (client : CP) (server : CS)
    : outcome res :=
  match l with
  | [] => k client server
  | (key, value) :: l =>
      if decide (value_at serverParams key = value) then
        tell key (value_at serverParams key) client server (fun client => client_loop fuel tracked serverParams k l client server)
      else
        let setServer := Contains tracked key in
        let value := if setServer then value else value_at serverParams key in
        tell key value client server (fun client =>
          if setServer then
            let! r := SetParameter (CP := CP) fuel server None key value in
            match r.1.1.1 with
            | Some e => Ret (None, Some e, [], client, r.1.2)
            | None =>
                let! q := client_loop fuel tracked serverParams k l client r.1.2 in
                let '(e, se, l, c, s) := q in Ret (e, se, Was_set key value :: l, c, s)
            end
          else client_loop fuel tracked serverParams k l client server)
  end.

Definition syncInitialParameters (fuel : nat) (tracked : list gostring) (clientParams serverParams : params) (client : CP) (server : CS) : outcome res :=
  client_loop fuel tracked serverParams (server_loop clientParams serverParams) clientParams client server.

(** ** What it does *)

(** The last that the client was told of a key, and the last it was set to. *)
Definition told (l : list iev) (key : gostring) : option gostring :=
  foldl (fun o e => match e with Told k v => if decide (k = key) then Some v else o | _ => o end) None l.
Definition set_to (l : list iev) (key : gostring) : option gostring :=
  foldl (fun o e => match e with Was_set k v => if decide (k = key) then Some v else o | _ => o end) None l.

(** What is done for one parameter of the client, and for all that only the server has. *)
Definition one (tracked : list gostring) (serverParams : params) (p : gostring * gostring) : list iev :=
  if decide (value_at serverParams p.1 = p.2) then [Told p.1 p.2]
  else if Contains tracked p.1 then [Told p.1 p.2; Was_set p.1 p.2] else [Told p.1 (value_at serverParams p.1)].
Definition others (clientParams serverParams : params) : list iev :=
  (fun p => Told p.1 p.2) <$> filter (fun p => p.1 ∉ clientParams.*1) serverParams.

Lemma tell_ok key value client server k l c s :
  tell key value client server k = Ret (None, None, l, c, s) -> exists client' l', k client' = Ret (None, None, l', c, s) /\ l = Told key value :: l'.
Proof.
  unfold tell. destruct (conn_write client _) as [[[e|] client']| |]; cbn; try done.
  destruct (k client') as [[[[[e se] l'] c'] s']| |] eqn:E; cbn; try done. intros [= -> -> <- -> ->]. by exists client', l'.
Qed.

Lemma server_loop_ok clientParams l client server ev c s :
  server_loop clientParams l client server = Ret (None, None, ev, c, s) -> ev = others clientParams l.
Proof.
  unfold others. revert client ev. induction l as [|[key value] l IH]; intros client ev; cbn [server_loop]; [by intros [= <-]|].
  case_decide as Hk.
  - rewrite filter_cons_False by (cbn; auto). apply IH.
  - rewrite filter_cons_True by done. intros (client' & l' & E & ->)%tell_ok. cbn. by rewrite (IH _ _ E).
Qed.

Lemma client_loop_ok fuel tracked serverParams k l client server ev c s :
  client_loop fuel tracked serverParams k l client server = Ret (None, None, ev, c, s) ->
  exists client' server' ev', k client' server' = Ret (None, None, ev', c, s) /\ ev = concat (one tracked serverParams <$> l) ++ ev'.
Proof.
  revert client server ev. induction l as [|[key value] l IH]; intros client server ev; cbn [client_loop]; [intros E; by exists client, server, ev|].
  cbn [fmap list_fmap concat]. unfold one at 1. cbn [fst snd]. case_decide as Hv.
  { intros (client' & l' & E & ->)%tell_ok. destruct (IH _ _ _ E) as (? & ? & ev' & Ek & ->). rewrite Hv. by do 3 eexists. }
  destruct (Contains tracked key); intros (client' & l' & E & ->)%tell_ok.
  - destruct (SetParameter fuel server None key value) as [[[[[e|] pe] server'] cp]| |]; cbn in E; try done.
    destruct (client_loop _ _ _ _ _ _ server') as [[[[[e' se'] l''] c'] s']| |] eqn:El; cbn in E; try done.
    injection E as -> -> <- -> ->. destruct (IH _ _ _ El) as (? & ? & ev' & Ek & ->). by do 3 eexists.
  - destruct (IH _ _ _ E) as (? & ? & ev' & Ek & ->). by do 3 eexists.
Qed.
End Sync.

(** ** Theorems about the log *)

Definition about (key : gostring) (e : iev) : Prop := match e with Told k _ | Was_set k _ => k = key end.

Lemma told_app l l' key : told (l ++ l') key = match told l' key with Some v => Some v | None => told l key end.
Proof.
  unfold told. rewrite foldl_app. generalize (foldl (fun o e => match e with Told k v => if decide (k = key) then Some v else o | _ => o end) None l).
  induction l' as [|e l' IH] using rev_ind; intros o; [done|]. rewrite !foldl_app. cbn. destruct e; [case_decide; [done|]|]; apply IH.
Qed.

Lemma set_to_app l l' key : set_to (l ++ l') key = match set_to l' key with Some v => Some v | None => set_to l key end.
Proof.
  unfold set_to. rewrite foldl_app. generalize (foldl (fun o e => match e with Was_set k v => if decide (k = key) then Some v else o | _ => o end) None l).
  induction l' as [|e l' IH] using rev_ind; intros o; [done|]. rewrite !foldl_app. cbn. destruct e; [|case_decide; [done|]]; apply IH.
Qed.

Lemma told_cons e l key : told (e :: l) key = match told l key with Some v => Some v | None => told [e] key end.
Proof. exact (told_app [e] l key). Qed.
Lemma set_to_cons e l key : set_to (e :: l) key = match set_to l key with Some v => Some v | None => set_to [e] key end.
Proof. exact (set_to_app [e] l key). Qed.

(** Nothing is said of a key that no event is about. *)
Lemma silent l key : Forall (fun e => ~ about key e) l -> told l key = None /\ set_to l key = None.
Proof.
  induction l as [|e l IH] using rev_ind; [done|]. rewrite Forall_app, told_app, set_to_app. rewrite Forall_singleton. intros [Hl He].
  destruct (IH Hl) as [-> ->]. destruct e; cbn in *; by rewrite decide_False.
Qed.

Lemma one_silent tracked sp p key : p.1 <> key -> Forall (fun e => ~ about key e) (one tracked sp p).
Proof. intros Hk. unfold one. case_decide; [by repeat constructor|]. destruct (Contains _ _); by repeat constructor. Qed.

Lemma ones_silent tracked sp l key : key ∉ l.*1 -> Forall (fun e => ~ about key e) (concat (one tracked sp <$> l)).
Proof.
  intros Hk. apply Forall_concat, Forall_fmap, Forall_forall. intros p Hp. apply one_silent. intros <-. apply Hk. by apply list_elem_of_fmap_2.
Qed.

Lemma others_silent cp sp key : key ∈ cp.*1 \/ key ∉ sp.*1 -> Forall (fun e => ~ about key e) (others cp sp).
Proof.
  intros Hk. apply Forall_fmap, Forall_forall. intros p [Hp Hin]%list_elem_of_filter E. cbn in E. subst key.
  destruct Hk as [Hk|Hk]; [done|]. apply Hk. by apply list_elem_of_fmap_2.
Qed.

(** Of a parameter that only the server has the client is told the value. *)
Lemma others_told cp sp key v : NoDup sp.*1 -> (key, v) ∈ sp -> key ∉ cp.*1 -> told (others cp sp) key = Some v /\ set_to (others cp sp) key = None.
Proof.
  intros Hnd Hin Hk. induction sp as [|[k w] sp IH]; [by apply not_elem_of_nil in Hin|]. cbn in Hnd. apply NoDup_cons in Hnd as [Hk' Hnd].
  unfold others. apply elem_of_cons in Hin as [[= -> ->]|Hin].
  - rewrite filter_cons_True by done. rewrite fmap_cons, told_cons, set_to_cons.
    destruct (silent (others cp sp) k) as [Ht Hs]; [apply others_silent; by right|]. unfold others in Ht, Hs. rewrite Ht, Hs. cbn. by rewrite decide_True.
  - destruct (IH Hnd Hin) as [Ht Hs]. unfold others in Ht, Hs. rewrite filter_cons. case_decide; [|done].
    by rewrite fmap_cons, told_cons, set_to_cons, Ht, Hs.
Qed.

Lemma value_at_in (m : params) key v : NoDup m.*1 -> (key, v) ∈ m -> value_at m key = v.
Proof. intros Hnd Hin. unfold value_at. by rewrite (elem_of_list_to_map_1 _ _ _ Hnd Hin). Qed.

(** A parameter of the client. *)
Lemma ones_told tracked sp cp key v : NoDup cp.*1 -> (key, v) ∈ cp ->
  told (concat (one tracked sp <$> cp)) key = told (one tracked sp (key, v)) key /\
  set_to (concat (one tracked sp <$> cp)) key = set_to (one tracked sp (key, v)) key.
Proof.
  intros Hnd [l1 [l2 ->]]%list_elem_of_split. rewrite fmap_app, NoDup_app in Hnd. destruct Hnd as (_ & Hd & Hnd%NoDup_cons). cbn in Hd, Hnd.
  rewrite fmap_app, concat_app. cbn [fmap list_fmap concat]. rewrite !told_app, !set_to_app.
  destruct (silent _ _ (ones_silent tracked sp l2 key (proj1 Hnd))) as [-> ->].
  destruct (silent (concat (one tracked sp <$> l1)) key) as [-> ->]; [|by destruct (told _ _), (set_to _ _)].
  apply ones_silent. intros Hin. apply (Hd _ Hin). by left.
Qed.

Module InitialSyncTheorems.


(** A client that asks for a time zone, which is tracked, and an encoding, which is not. *)
Abbreviation lit := list_byte_of_string.
Definition ex_client : params := [(lit "timezone", lit "UTC"); (lit "encoding", lit "LATIN1")].
Definition ex_server : params := [(lit "encoding", lit "UTF8"); (lit "timezone", lit "CET"); (lit "version", lit "16")].
Definition ex_conn : Script := mkScript (of_packet <$> [PCommandComplete (lit "SET"); PReadyForQuery x49]) [] [].
Definition ex_log : list iev :=
  [Told (lit "timezone") (lit "UTC"); Was_set (lit "timezone") (lit "UTC"); Told (lit "encoding") (lit "UTF8"); Told (lit "version") (lit "16")].

End InitialSyncTheorems.
