(* ===== verification/Ps.v ===== *)
(** * Ps: lib/fed/middlewares/ps

    The middleware that follows the run-time parameters (ParameterStatus) of
    clients and servers, and [Sync], which makes them agree when a client is
    paired with a server: tracked parameters of the client are set on the
    server, the others are reported to the client.

    A connection holds the middleware; [Holds] is the pointer the code gets
    from LookupMiddleware, [PsServerOps] adds backends.SetParameter.  Parameter
    names are CIStrings, kept in lower case. *)

From Stdlib Require Import Init.Byte Strings.Byte.
From S2P Require Import Prelude.
From S2P Require Import Slices.
From S2P Require Import Wire.
From S2P Require Import Packets.
From S2P Require Import Strutil.
From S2P Require Import Fed.
From S2P Require Import Backend.

Local Open Scope go_scope.

Abbreviation params := (gmap gostring gostring).

(** [m[key]]: the empty string if there is none. *)
Definition value_of (m : params) (key : gostring) : gostring := default [] (m !! key).

Section Ps.
Context (unicode_lower : gostring -> gostring).

(** ** client.go *)

Record Client := mkClient { synced : bool; cparameters : params }.

Definition NewClient (parameters : params) : Client := mkClient false parameters.

Definition ClientWritePacket (packet : fpacket) (T : Client) : outcome ((error + option fpacket) * Client) :=
  if decide (ptype packet = ParameterStatus.Type_) then
    match concrete packet with
    | inl e => Ret (inl e, T)
    | inr (PParameterStatus p) =>
        let ikey := MakeCIString unicode_lower (ParameterStatus.Key p) in
        if synced T && bool_decide (value_of (cparameters T) ikey = ParameterStatus.Value p)
        then Ret (inr None, T)
        else Ret (inr (Some (of_packet (PParameterStatus p))),
                  mkClient (synced T) (<[ikey := ParameterStatus.Value p]> (cparameters T)))
    | inr _ => Panic
    end
  else Ret (inr (Some packet), T).

Definition Set_ (T other : Client) : Client := mkClient (synced other) (cparameters other).

(** ** server.go *)

Record Server := mkServer { sparameters : params }.

Definition NewServer (parameters : params) : Server := mkServer parameters.

Definition ServerReadPacket (packet : fpacket) (T : Server) : outcome ((error + option fpacket) * Server) :=
  if decide (ptype packet = ParameterStatus.Type_) then
    match concrete packet with
    | inl e => Ret (inl e, T)
    | inr (PParameterStatus p) =>
        let ikey := MakeCIString unicode_lower (ParameterStatus.Key p) in
        Ret (inr (Some (of_packet (PParameterStatus p))),
             mkServer (<[ikey := ParameterStatus.Value p]> (sparameters T)))
    | inr _ => Panic
    end
  else Ret (inr (Some packet), T).

(** ** The middlewares *)

#[export] Instance psclient_mw : MiddlewareOps Client := {|
  PreRead _ T := Ret (inr None, T);
  MReadPacket packet T := Ret (inr (Some packet), T);
  MWritePacket packet T := ClientWritePacket packet T;
  PostWrite T := Ret (inr None, T)
|}.

#[export] Instance psserver_mw : MiddlewareOps Server := {|
  PreRead _ T := Ret (inr None, T);
  MReadPacket packet T := ServerReadPacket packet T;
  MWritePacket packet T := Ret (inr (Some packet), T);
  PostWrite T := Ret (inr None, T)
|}.

(** They keep the laws of a connection, so the theorems on the bouncer hold
    with them, too. *)
#[export] Program Instance psclient_laws : MiddlewareLaws Client front back := {|
  mw_good _ := True; pending _ := 0; posts _ := 0
|}.
Next Obligation. intros typed m _. by do 2 eexists. Qed.
Next Obligation.
  intros p m _ Hp. do 2 eexists. split; [done|]. split_and!; [done| |done..]. by intros ? [= <-].
Qed.
Next Obligation.
  intros [ty co] m _ Hp. unfold MWritePacket, psclient_mw, ClientWritePacket. cbn [ptype concrete].
  destruct (decide (ty = ParameterStatus.Type_)) as [->|]; [|by do 2 eexists; split; [done|]; split_and!; [|intros ? [= <-]|..]].
  destruct co as [e|q]; [by do 2 eexists|]. destruct q; try by (exfalso; destruct (Hp _ eq_refl)).
  destruct (_ && _); do 2 eexists; (split; [done|]); split_and!; try done.
  intros ? [= <-]. by apply of_packet_side.
Qed.
Next Obligation. intros m _. by do 2 eexists. Qed.

#[export] Program Instance psserver_laws : MiddlewareLaws Server back front := {|
  mw_good _ := True; pending _ := 0; posts _ := 0
|}.
Next Obligation. intros typed m _. by do 2 eexists. Qed.
Next Obligation.
  intros [ty co] m _ Hp. unfold MReadPacket, psserver_mw, ServerReadPacket. cbn [ptype concrete].
  destruct (decide (ty = ParameterStatus.Type_)) as [->|]; [|by do 2 eexists; split; [done|]; split_and!; [|intros ? [= <-]|..]].
  destruct co as [e|q]; [by do 2 eexists|]. destruct q; try by (exfalso; destruct (Hp _ eq_refl)).
  do 2 eexists. split; [done|]. split_and!; try done. intros ? [= <-]. by apply of_packet_side.
Qed.
Next Obligation.
  intros p m _ Hp. do 2 eexists. split; [done|]. split_and!; [done| |done..]. by intros ? [= <-].
Qed.
Next Obligation. intros m _. by do 2 eexists. Qed.

(** ** sync.go *)

(** A connection with a middleware of type [A]: LookupMiddleware, and writing
    through the pointer it returns. *)
Class Holds (A C : Type) := { held : C -> option A; put : A -> C -> C }.

(** A server connection for [Sync]: backends.SetParameter without a peer. *)
Class PsServerOps (CS : Type) := {
  ps_server : Holds Server CS;
  set_parameter : CS -> gostring -> gostring -> outcome (option error * CS)
}.
#[export] Existing Instance ps_server.

(** The code: Backend.SetParameter on a connection that holds the middleware. *)
Definition backend_server {CS CP : Type} `{ConnOps CS} `{ConnOps CP} (fuel : nat) (h : Holds Server CS) : PsServerOps CS := {|
  ps_server := h;
  set_parameter c name value :=
    let! r := SetParameter (CP := CP) fuel c None name value in
    let '(err, _, server, _) := r in Ret (err, server)
|}.

Section Sync.
Context {CS CP : Type} `{PsServerOps CS} `{ConnOps CP} `{Holds Client CP}.
Context (tracking : list gostring) (order : params -> list gostring).

(** The client's side: nil with the state alone, or a connection. *)
Abbreviation side := (Client + CP)%type.

Definition client_of (x : side) : outcome Client :=
  match x with
  | inl c => Ret c
  | inr conn => deref (held conn)
  end.

(** [client.WritePacket(ctx, &packets.ParameterStatus{...})], unless nil. *)
Definition report (x : side) (name value : gostring) : outcome (option error * side) :=
  match x with
  | inl c => Ret (None, x)
  | inr conn =>
      let! r := conn_write conn (of_packet (PParameterStatus (ParameterStatus.mk name value))) in
      Ret (r.1, inr r.2)
  end.

Definition is_conn (x : side) : bool := match x with inr _ => true | inl _ => false end.

(** (clientErr, serverErr) and the two sides after. *)
Definition sync (x : side) (server : CS) (name : gostring) : outcome (option error * option error * side * CS) :=
  let! c := client_of x in
  let! s := deref (held server) in
  let value := cparameters c !! name in
  let expected := sparameters s !! name in
  if decide (default [] value = default [] expected) then
    if is_conn x && negb (synced c) then
      let! r := report x name (default [] expected) in
      Ret (r.1, None, r.2, server)
    else Ret (None, None, x, server)
  else
    let report_if (doSet : bool) (v : gostring) (server : CS) :=
      if doSet then let! r := report x name v in Ret (r.1, None, r.2, server)
      else Ret (None, None, x, server) in
    match value, Contains tracking name with
    | Some value, true =>
        let! r := set_parameter server name value in
        match r.1 with
        | Some e => Ret (None, Some e, x, r.2)
        | None =>
            let! s := deref (held r.2) in
            let server := put (mkServer (<[name := value]> (sparameters s))) r.2 in
            report_if (negb (synced c)) value server
        end
    | _, _ => report_if (bool_decide (is_Some expected)) (default [] expected) server
    end.

(** A loop over names, ended by an error; [skip]: names the client has. *)
Fixpoint sync_all (skip : bool) (names : list gostring) (x : side) (server : CS)
    : outcome (option error * option error * side * CS) :=
  match names with
  | [] => Ret (None, None, x, server)
  | name :: names =>
      let! c := client_of x in
      if skip && bool_decide (is_Some (cparameters c !! name)) then sync_all skip names x server
      else
        let! r := sync x server name in
        match r with
        | (None, None, x, server) => sync_all skip names x server
        | _ => Ret r
        end
  end.

(** The two loops of SyncMiddleware and of Sync. *)
Definition sync_loops (x : side) (server : CS) : outcome (option error * option error * side * CS) :=
  let! c := client_of x in
  let! r := sync_all false (order (cparameters c)) x server in
  match r with
  | (None, None, x, server) =>
      let! s := deref (held server) in
      sync_all true (order (sparameters s)) x server
  | _ => Ret r
  end.

Definition SyncMiddleware (c : Client) (server : CS) : outcome (option error * CS) :=
  let! r := sync_loops (inl c) server in
  let '(_, err, _, server) := r in Ret (err, server).

Definition Sync (client : CP) (server : CS) : outcome (option error * option error * CP * CS) :=
  let! r := sync_loops (inr client) server in
  match r with
  | (None, None, inr client, server) =>
      let! c := deref (held client) in
      Ret (None, None, put (mkClient true (cparameters c)) client, server)
  | (ce, se, inr client, server) => Ret (ce, se, client, server)
  | (_, _, inl _, _) => Panic
  end.

(** ** What Sync achieves *)

(** The middleware sees what is written to the client. *)
Class PsClientLaws := {
  write_returns conn c p : held conn = Some (c : Client) ->
    exists e conn' c', conn_write conn (of_packet (PParameterStatus p)) = Ret (e, conn') /\ held conn' = Some (c' : Client);
  held_put conn c c' : held conn = Some c -> held (put c' conn) = Some (c' : Client);
  held_write conn c p conn' : held conn = Some c ->
    conn_write conn (of_packet (PParameterStatus p)) = Ret (None, conn') ->
    exists r c', ClientWritePacket (of_packet (PParameterStatus p)) c = Ret (inr r, c') /\ held conn' = Some c'
}.

(** Setting one parameter makes the server report at most that one. *)
Class PsServerLaws := {
  set_returns server s name value : held server = Some (s : Server) ->
    exists e server' s', set_parameter server name value = Ret (e, server') /\ held server' = Some (s' : Server);
  sheld_put server s s' : held server = Some s -> held (put s' server) = Some (s' : Server);
  set_law server s name value server' : held server = Some s ->
    set_parameter server name value = Ret (None, server') ->
    exists s', held server' = Some s' /\ forall k, k <> name -> sparameters s' !! k = sparameters s !! k
}.

Context {LC : PsClientLaws} {LS : PsServerLaws}.

(** The client knows what the server has reported. *)
Definition agree (c : Client) (s : Server) (k : gostring) : Prop :=
  forall e, sparameters s !! k = Some e -> value_of (cparameters c) k = e.

(** The names of [P] have been synchronised, the others are as before. *)
Record synced_on (P : gostring -> Prop) (c : Client) (s : Server) (c' : Client) (s' : Server) : Prop := {
  so_flag : synced c' = synced c;
  so_other k : ~ P k -> cparameters c' !! k = cparameters c !! k /\ sparameters s' !! k = sparameters s !! k;
  so_agree k : P k -> agree c' s' k;
  so_tracked k v : P k -> k ∈ tracking -> cparameters c !! k = Some v -> value_of (sparameters s') k = v;
  so_keys k : P k -> is_Some (cparameters c !! k) -> is_Some (cparameters c' !! k);
  so_server k : P k -> cparameters c !! k = None -> sparameters s' !! k = sparameters s !! k
}.

Lemma synced_on_none c s : synced_on (fun _ => False) c s c s.
Proof. by split. Qed.

Lemma synced_on_equiv P Q c s c' s' : (forall k, P k <-> Q k) -> synced_on P c s c' s' -> synced_on Q c s c' s'.
Proof. intros HPQ []. split; [done|..]; naive_solver. Qed.

Lemma synced_on_trans P Q c1 s1 c2 s2 c3 s3 :
  (forall k, P k -> Q k -> False) ->
  synced_on P c1 s1 c2 s2 -> synced_on Q c2 s2 c3 s3 -> synced_on (fun k => P k \/ Q k) c1 s1 c3 s3.
Proof.
  intros Hd [F1 O1 A1 T1 K1 S1] [F2 O2 A2 T2 K2 S2]. split.
  - congruence.
  - intros k Hn. destruct (O1 k), (O2 k); [tauto..|]. split; congruence.
  - intros k [Hp|Hq]; [|by apply A2]. destruct (O2 k) as [Hc Hs]; [naive_solver|].
    specialize (A1 k Hp). unfold agree, value_of in *. by rewrite Hc, Hs.
  - intros k v [Hp|Hq] Ht Hv.
    + destruct (O2 k) as [_ Hs]; [naive_solver|]. unfold value_of. rewrite Hs. by eapply T1.
    + eapply T2; [done..|]. destruct (O1 k) as [-> _]; [naive_solver|done].
  - intros k [Hp|Hq] Hs.
    + destruct (O2 k) as [-> _]; [naive_solver|auto].
    + apply K2; [done|]. destruct (O1 k) as [-> _]; [naive_solver|done].
  - intros k [Hp|Hq] Hn.
    + destruct (O2 k) as [_ ->]; [naive_solver|auto].
    + destruct (O1 k) as [Hc <-]; [naive_solver|]. apply S2; [done|congruence].
Qed.

(** What the client's middleware does with a report. *)
Lemma report_spec conn c name v x :
  held conn = Some c -> MakeCIString unicode_lower name = name -> report (inr conn) name v = Ret (None, x) ->
  exists conn' c', x = inr conn' /\ held conn' = Some c' /\ synced c' = synced c /\
    value_of (cparameters c') name = v /\ (is_Some (cparameters c !! name) -> is_Some (cparameters c' !! name)) /\
    (forall k, k <> name -> cparameters c' !! k = cparameters c !! k).
Proof.
  intros Hc Hn. unfold report. destruct (conn_write _ _) as [[e conn']| |] eqn:Hw; cbn; try done. intros [= -> <-].
  destruct (held_write _ _ _ _ Hc Hw) as (r & c' & Hcw & Hc'). exists conn', c'. split; [done|]. split; [done|].
  revert Hcw. unfold ClientWritePacket. cbn [concrete of_packet ptype Type_]. rewrite decide_True by done.
  cbn [ParameterStatus.Key ParameterStatus.Value]. rewrite Hn.
  destruct (synced c) eqn:Hs; cbn [andb]; [case_bool_decide as Hv|]; intros [= <- <-]; cbn; (split; [done|]).
  - done.
  - unfold value_of. cbn. rewrite lookup_insert_eq. split_and!; [done|by eexists|]. intros. by rewrite lookup_insert_ne.
  - unfold value_of. cbn. rewrite lookup_insert_eq. split_and!; [done|by eexists|]. intros. by rewrite lookup_insert_ne.
Qed.

Definition one (name : gostring) : gostring -> Prop := fun k => k = name.

(** The two sides after a step. *)
Definition after (P : gostring -> Prop) (c : Client) (s : Server) (x' : side) (server' : CS) : Prop :=
  exists conn' c' s', x' = inr conn' /\ held conn' = Some c' /\ held server' = Some s' /\ synced_on P c s c' s'.

Lemma after_same conn server c s name :
  held conn = Some c -> held server = Some s ->
  (forall e, sparameters s !! name = Some e -> value_of (cparameters c) name = e) ->
  (name ∈ tracking -> forall v, cparameters c !! name = Some v -> value_of (sparameters s) name = v) ->
  after (one name) c s (inr conn) server.
Proof.
  intros Hc Hs Ha Ht. exists conn, c, s. split_and!; [done..|].
  split; [done|done|by intros k ->|by intros k v -> ? ?; apply Ht|done|done].
Qed.

(** A report of the value the server has. *)
Lemma after_report conn server c s s' name v x' :
  held conn = Some c -> held server = Some s' -> MakeCIString unicode_lower name = name ->
  (forall e, sparameters s' !! name = Some e -> v = e) ->
  (name ∈ tracking -> forall w, cparameters c !! name = Some w -> value_of (sparameters s') name = w) ->
  (forall k, k <> name -> sparameters s' !! k = sparameters s !! k) ->
  (cparameters c !! name = None -> sparameters s' !! name = sparameters s !! name) ->
  report (inr conn) name v = Ret (None, x') -> after (one name) c s x' server.
Proof.
  intros Hc Hs Hn Ha Ht Hk Hno Hr.
  destruct (report_spec conn c name v x' Hc Hn Hr) as (conn' & c' & -> & Hc' & Hf & Hv & Hsome & Hother).
  exists conn', c', s'. split_and!; [done..|]. unfold one. split; [done|by split; [apply Hother|apply Hk]| | | |].
  - intros k -> e He. rewrite Hv. by apply Ha.
  - intros k w -> ? ?. by apply Ht.
  - by intros k ->.
  - by intros k ->.
Qed.

Abbreviation normal := (fun name => MakeCIString unicode_lower name = name).

Lemma report_if_ret {A} (x : side) name v (server : CS) (k : option error * side -> A) r :
  (let! r := report x name v in Ret (k r)) = Ret r -> exists e x', report x name v = Ret (e, x') /\ k (e, x') = r.
Proof. destruct (report x name v) as [[e x']| |]; cbn; naive_solver. Qed.

Lemma sync_spec conn server name c s x' server' :
  held conn = Some c -> held server = Some s -> normal name ->
  sync (inr conn) server name = Ret (None, None, x', server') -> after (one name) c s x' server'.
Proof.
  intros Hc Hs Hn. unfold sync. cbn [client_of]. rewrite Hc, Hs. cbn [deref obind is_conn andb].
  destruct (decide _) as [Heq|Hne].
  - destruct (synced c); cbn [negb].
    + intros [= <- <-]. apply after_same; [done..| |].
      * intros e He. rewrite He in Heq. done.
      * intros _ v Hv. rewrite Hv in Heq. done.
    + intros (e & x1 & Hr & [= -> -> ->])%report_if_ret; [|done].
      eapply after_report; [done..| | |done|done|done].
      * intros e He. by rewrite He.
      * intros _ v Hv. rewrite Hv in Heq. done.
  - assert (Hrep : forall v, (forall e, sparameters s !! name = Some e -> v = e) ->
      (name ∈ tracking -> cparameters c !! name = None) ->
      (let! r := report (inr conn) name v in Ret (r.1, None, r.2, server)) = Ret (None, @None error, x', server') ->
      after (one name) c s x' server').
    { intros v Hv Ht (e & x1 & Hr & [= -> -> ->])%report_if_ret; [|done].
      eapply after_report; [done..| |done|done|done]. intros Htr w Hw. rewrite (Ht Htr) in Hw. done. }
    assert (Hnot : (name ∈ tracking -> cparameters c !! name = None) ->
      (if bool_decide (is_Some (sparameters s !! name)) then
         let! r := report (inr conn) name (default [] (sparameters s !! name)) in Ret (r.1, None, r.2, server)
       else Ret (None, None, inr conn, server)) = Ret (None, @None error, x', server') ->
      after (one name) c s x' server').
    { intros Ht. case_bool_decide as He; [apply Hrep; [intros e ->; done|done]|].
      intros [= <- <-]. apply after_same; [done..| |].
      - intros e Hse. destruct He. by eexists.
      - intros Htr v Hv. rewrite (Ht Htr) in Hv. done. }
    destruct (cparameters c !! name) as [v|] eqn:Hcv; [|by apply Hnot].
    destruct (Contains tracking name) eqn:Htr.
    2: { apply Hnot. intros Hin%Contains_spec. congruence. }
    destruct (set_parameter server name v) as [[e server1]| |] eqn:Hset; cbn [obind fst snd]; try done.
    destruct e as [e|]; [done|]. destruct (set_law _ _ _ _ _ Hs Hset) as (s1 & Hs1 & Hother). rewrite Hs1. cbn [deref obind].
    set (s2 := mkServer (<[name := v]> (sparameters s1))).
    assert (Hs2 : held (put s2 server1) = Some s2) by (by eapply sheld_put).
    assert (Hk : forall k, k <> name -> sparameters s2 !! k = sparameters s !! k).
    { intros k Hk. cbn. by rewrite lookup_insert_ne, Hother. }
    assert (Hv2 : sparameters s2 !! name = Some v) by (cbn; by rewrite lookup_insert_eq).
    destruct (synced c); cbn [negb].
    + intros [= <- <-]. exists conn, c, s2. split_and!; [done..|]. unfold one. split; [done|by intros k ?; rewrite Hk| | |done|].
      * intros k -> e He. rewrite Hv2 in He. unfold value_of. rewrite Hcv. by injection He.
      * intros k w -> _ Hw. unfold value_of. rewrite Hv2. cbn. congruence.
      * intros k -> Hno. congruence.
    + intros (e & x1 & Hr & [= -> -> <-])%report_if_ret; [|done].
      eapply (after_report _ _ _ _ s2); [done..| | |done| |done].
      * intros e He. congruence.
      * intros _ w Hw. unfold value_of. rewrite Hv2. cbn. congruence.
      * intros Hno. congruence.
Qed.

(** The names a loop handles. *)
Definition handled (skip : bool) (names : list gostring) (c : Client) : gostring -> Prop :=
  fun k => k ∈ names /\ (skip = true -> cparameters c !! k = None).

Lemma sync_all_spec skip names conn server c s x' server' :
  held conn = Some c -> held server = Some s -> NoDup names -> Forall normal names ->
  sync_all skip names (inr conn) server = Ret (None, None, x', server') -> after (handled skip names c) c s x' server'.
Proof.
  revert conn server c s. induction names as [|name names IH]; intros conn server c s Hc Hs Hnd Hn; cbn [sync_all].
  { intros [= <- <-]. exists conn, c, s. split_and!; [done..|]. eapply synced_on_equiv; [|apply synced_on_none].
    unfold handled. set_solver. }
  apply NoDup_cons in Hnd as [Hnin Hnd]. apply Forall_cons in Hn as [Hn1 Hn].
  cbn [client_of]. rewrite Hc. cbn [deref obind].
  destruct (skip && bool_decide (is_Some (cparameters c !! name))) eqn:Hskip.
  - apply andb_prop in Hskip as [-> Hsome%bool_decide_eq_true]. intros Hr.
    destruct (IH _ _ _ _ Hc Hs Hnd Hn Hr) as (conn' & c' & s' & -> & ? & ? & Hso).
    exists conn', c', s'. split_and!; [done..|]. eapply synced_on_equiv; [|exact Hso].
    intros k. unfold handled. rewrite elem_of_cons. split; [tauto|]. intros [[->|?] Hno]; [|tauto].
    destruct Hsome as [v Hv]. rewrite Hno in Hv; done.
  - destruct (sync (inr conn) server name) as [[[[ce se] x1] server1]| |] eqn:Hsync; cbn [obind]; try done.
    destruct ce as [ce|], se as [se|]; try done.
    destruct (sync_spec _ _ _ _ _ _ _ Hc Hs Hn1 Hsync) as (conn1 & c1 & s1 & -> & Hc1 & Hs1 & Hso1). intros Hr.
    destruct (IH _ _ _ _ Hc1 Hs1 Hnd Hn Hr) as (conn' & c' & s' & -> & ? & ? & Hso).
    exists conn', c', s'. split_and!; [done..|].
    eapply synced_on_equiv; [|eapply synced_on_trans; [|exact Hso1|exact Hso]].
    + intros k. unfold handled, one. rewrite elem_of_cons.
      assert (Hk : k <> name -> cparameters c1 !! k = cparameters c !! k) by (intros; by apply (so_other _ _ _ _ _ Hso1)).
      split.
      * intros [->|[Hin Hno]]; [split; [by left|]|].
        -- intros ->. cbn in Hskip. apply bool_decide_eq_false in Hskip. by apply eq_None_not_Some.
        -- split; [by right|]. rewrite <- Hk; [done|]. by intros ->.
      * intros [[->|Hin] Hno]; [by left|]. destruct (decide (k = name)) as [->|Hne]; [by left|]. right.
        by rewrite (Hk Hne).
    + unfold one, handled. by intros k -> [? _].
Qed.

(** [for name := range m] visits every key once. *)
Definition ranges (f : params -> list gostring) : Prop := forall m, f m ≡ₚ (map_to_list m).*1.

Lemma ranges_spec m : ranges order -> NoDup (order m) /\ forall k, k ∈ order m <-> is_Some (m !! k).
Proof.
  intros Ho. pose proof (Ho m) as Hm. split; [rewrite Hm; apply NoDup_fst_map_to_list|]. intros k. rewrite Hm.
  rewrite list_elem_of_fmap. split.
  - intros ([k' v] & -> & Hin). apply elem_of_map_to_list in Hin. by eexists.
  - intros [v Hv]. exists (k, v). by rewrite elem_of_map_to_list.
Qed.

Lemma sync_loops_spec conn server c s x' server' :
  ranges order -> held conn = Some c -> held server = Some s ->
  (forall k, is_Some (cparameters c !! k) \/ is_Some (sparameters s !! k) -> normal k) ->
  sync_loops (inr conn) server = Ret (None, None, x', server') ->
  exists conn' c' s', x' = inr conn' /\ held conn' = Some c' /\ held server' = Some s' /\
    (forall k, agree c' s' k) /\
    (forall k v, k ∈ tracking -> cparameters c !! k = Some v -> value_of (sparameters s') k = v).
Proof.
  intros Ho Hc Hs Hn. unfold sync_loops. cbn [client_of]. rewrite Hc. cbn [deref obind].
  destruct (ranges_spec (cparameters c) Ho) as [Hnd1 Hin1].
  destruct (sync_all false _ _ _) as [[[[ce se] x1] server1]| |] eqn:Hl1; cbn [obind]; try done.
  destruct ce as [ce|], se as [se|]; try done.
  assert (Hn1 : Forall normal (order (cparameters c))) by (apply Forall_forall; intros k Hk; apply Hn; left; by apply Hin1).
  destruct (sync_all_spec _ _ _ _ _ _ _ _ Hc Hs Hnd1 Hn1 Hl1) as (conn1 & c1 & s1 & -> & Hc1 & Hs1 & Hso1).
  rewrite Hs1. cbn [deref obind]. intros Hl2.
  destruct (ranges_spec (sparameters s1) Ho) as [Hnd2 Hin2].
  assert (Hkey : forall k, is_Some (cparameters c1 !! k) <-> is_Some (cparameters c !! k)).
  { intros k. destruct (decide (is_Some (cparameters c !! k))) as [Hk|Hk].
    - split; [done|]. intros _. apply (so_keys _ _ _ _ _ Hso1 k); [|done]. split; [by apply Hin1|done].
    - destruct (so_other _ _ _ _ _ Hso1 k) as [-> _]; [|done]. intros [Hin _]. by apply Hin1 in Hin. }
  assert (Hn2 : Forall normal (order (sparameters s1))).
  { apply Forall_forall. intros k Hk%Hin2. apply Hn. destruct (decide (is_Some (cparameters c !! k))) as [|Hck]; [by left|right].
    destruct (so_other _ _ _ _ _ Hso1 k) as [_ <-]; [|done]. intros [Hin _]. by apply Hin1 in Hin. }
  destruct (sync_all_spec _ _ _ _ _ _ _ _ Hc1 Hs1 Hnd2 Hn2 Hl2) as (conn2 & c2 & s2 & -> & Hc2 & Hs2 & Hso2).
  exists conn2, c2, s2. split_and!; [done..| |].
  - intros k. destruct (decide (handled true (order (sparameters s1)) c1 k)) as [Hh|Hh]; [by apply (so_agree _ _ _ _ _ Hso2)|].
    destruct (so_other _ _ _ _ _ Hso2 k Hh) as [Hck Hsk]. unfold agree, value_of. rewrite Hck, Hsk. intros e He.
    apply (so_agree _ _ _ _ _ Hso1); [|done]. split; [|done]. apply Hin1, Hkey.
    destruct (cparameters c1 !! k) eqn:Hk1; [by eexists|]. destruct Hh. split; [|done]. apply Hin2. by eexists.
  - intros k v Ht Hv. assert (handled false (order (cparameters c)) c k) as Hh by (split; [apply Hin1; by eexists|done]).
    destruct (so_other _ _ _ _ _ Hso2 k) as [_ Hsk].
    { intros [_ Hno]. specialize (Hno eq_refl). apply eq_None_not_Some in Hno. apply Hno, Hkey. by eexists. }
    unfold value_of. rewrite Hsk. by eapply (so_tracked _ _ _ _ _ Hso1).
Qed.

(** *** It returns *)

Definition returns (o : outcome (option error * option error * side * CS)) : Prop :=
  exists ce se conn' server' c' s',
    o = Ret (ce, se, inr conn', server') /\ held conn' = Some (c' : Client) /\ held server' = Some (s' : Server).

Lemma report_returns conn c server s name v :
  held conn = Some c -> held server = Some s ->
  returns (let! r := report (inr conn) name v in Ret (r.1, None, r.2, server)).
Proof.
  intros Hc Hs. unfold report.
  destruct (write_returns conn c (ParameterStatus.mk name v) Hc) as (e & conn' & c' & -> & Hc'). cbn.
  by exists e, None, conn', server, c', s.
Qed.

Lemma sync_returns conn server name c s :
  held conn = Some c -> held server = Some s -> returns (sync (inr conn) server name).
Proof.
  intros Hc Hs. unfold sync. cbn [client_of]. rewrite Hc, Hs. cbn [deref obind is_conn andb].
  assert (Hdone : returns (Ret (None, None, inr conn, server))) by (by exists None, None, conn, server, c, s).
  destruct (decide _); [destruct (synced c); cbn [negb]; [done|by eapply report_returns]|].
  assert (Hno : returns
    (if bool_decide (is_Some (sparameters s !! name)) then
       let! r := report (inr conn) name (default [] (sparameters s !! name)) in Ret (r.1, None, r.2, server)
     else Ret (None, None, inr conn, server))) by (destruct (bool_decide _); [by eapply report_returns|done]).
  destruct (cparameters c !! name) as [v|]; [|done]. destruct (Contains tracking name); [|done].
  destruct (set_returns server s name v Hs) as (e & server' & s' & -> & Hs'). cbn [obind fst snd].
  destruct e as [e|]; [by exists None, (Some e), conn, server', c, s'|]. rewrite Hs'. cbn [deref obind].
  set (s2 := mkServer _). assert (Hp : held (put s2 server') = Some s2) by (by eapply sheld_put).
  destruct (synced c); cbn [negb]; [by exists None, None, conn, (put s2 server'), c, s2|by eapply report_returns].
Qed.

Lemma sync_all_returns skip names conn server c s :
  held conn = Some c -> held server = Some s -> returns (sync_all skip names (inr conn) server).
Proof.
  revert conn server c s. induction names as [|name names IH]; intros conn server c s Hc Hs; cbn [sync_all].
  { by exists None, None, conn, server, c, s. }
  cbn [client_of]. rewrite Hc. cbn [deref obind]. destruct (_ && _); [by eapply IH|].
  destruct (sync_returns conn server name c s Hc Hs) as (ce & se & conn' & server' & c' & s' & -> & Hc' & Hs'). cbn [obind].
  destruct ce as [ce|], se as [se|]; [by do 6 eexists..|by eapply IH].
Qed.

Lemma sync_loops_returns conn server c s :
  held conn = Some c -> held server = Some s -> returns (sync_loops (inr conn) server).
Proof.
  intros Hc Hs. unfold sync_loops. cbn [client_of]. rewrite Hc. cbn [deref obind].
  destruct (sync_all_returns false (order (cparameters c)) conn server c s Hc Hs)
    as (ce & se & conn' & server' & c' & s' & -> & Hc' & Hs'). cbn [obind].
  destruct ce as [ce|], se as [se|]; [by do 6 eexists..|]. rewrite Hs'. cbn [deref obind].
  by eapply sync_all_returns.
Qed.

Lemma Sync_spec client server c s :
  ranges order -> held client = Some c -> held server = Some s ->
  (forall k, is_Some (cparameters c !! k) \/ is_Some (sparameters s !! k) -> normal k) ->
  exists ce se client' server', Sync client server = Ret (ce, se, client', server') /\
    (ce = None -> se = None ->
     exists c' s', held client' = Some c' /\ held server' = Some s' /\ synced c' = true /\
       (forall k, agree c' s' k) /\
       (forall k v, k ∈ tracking -> cparameters c !! k = Some v -> value_of (sparameters s') k = v)).
Proof.
  intros Ho Hc Hs Hn. unfold Sync.
  destruct (sync_loops_returns client server c s Hc Hs) as (ce & se & conn' & server' & c' & s' & Hl & Hc' & Hs').
  rewrite Hl. cbn [obind]. destruct ce as [ce|]; [by do 4 eexists|]. destruct se as [se|]; [by do 4 eexists|].
  rewrite Hc'. cbn [deref obind]. do 4 eexists. split; [done|]. intros _ _.
  destruct (sync_loops_spec _ _ _ _ _ _ Ho Hc Hs Hn Hl) as (conn2 & c2 & s2 & [= <-] & Hc2 & Hs2 & Ha & Ht).
  exists (mkClient true (cparameters c')), s2. split; [by eapply held_put|]. split_and!; [done..| |done].
  intros k e He. cbn. replace c' with c2 by congruence. by apply Ha.
Qed.
End Sync.
End Ps.
Arguments PsServerOps : clear implicits.

(** ** A client and a server *)

(** A client's connection with this middleware alone. *)
Module PsExample.
Definition lower : gostring -> gostring := fun s => s.

#[local] Instance client_ops : ConnOps (Script * Client) := {|
  conn_read c := let r := script_read c.1 in Ret (r.1, (r.2, c.2));
  conn_write c p :=
    let! r := ClientWritePacket lower p c.2 in
    match r.1 with
    | inl e => Ret (Some e, (c.1, r.2))
    | inr None => Ret (None, (c.1, r.2))
    | inr (Some q) => let w := script_write c.1 q in Ret (w.1, (w.2, r.2))
    end
|}.

#[local] Instance client_holds : Holds Client (Script * Client) := {| held c := Some c.2; put m c := (c.1, m) |}.

(** A server that takes every value. *)
#[local] Instance server_ops : PsServerOps Server := {|
  ps_server := {| held s := Some s; put m _ := m |};
  set_parameter s name value := Ret (None, mkServer (<[name := value]> (sparameters s)))
|}.

#[local] Instance client_conn_laws : PsClientLaws lower (CP := Script * Client).
Proof.
  split.
  - intros [w m] c p [= <-]. unfold conn_write, client_ops, ClientWritePacket. cbn -[script_write].
    destruct (_ && _); cbn -[script_write]; by do 3 eexists.
  - by intros [w m] c c' [= <-].
  - intros [w m] c p conn' [= <-]. unfold conn_write, client_ops.
    destruct (ClientWritePacket _ _ _) as [[[e|[q|]] m']| |]; cbn -[script_write]; try done.
    + intros [= _ <-]. by do 2 eexists.
    + intros [= <-]. by do 2 eexists.
Qed.

#[local] Instance server_conn_laws : PsServerLaws (CS := Server).
Proof.
  split; cbn.
  - intros ? s name value [= <-]. by do 3 eexists.
  - by intros ? s s' [= <-].
  - intros ? s name value server' [= <-] [= <-]. eexists. split; [done|]. intros. cbn. by rewrite lookup_insert_ne.
Qed.

(** The client has set "a" (tracked) and "t"; the server differs and also
    reports "v". *)
Definition cparams : params := {[ [x61] := [x31]; [x74] := [x32] ]}.
Definition sparams : params := {[ [x61] := [x33]; [x74] := [x34]; [x76] := [x35] ]}.
Definition keys (m : params) : list gostring := (map_to_list m).*1.

Lemma names_normal k :
  is_Some (cparams !! k) \/ is_Some (sparams !! k) -> MakeCIString lower k = k.
Proof.
  unfold cparams, sparams. rewrite !lookup_insert_is_Some, !lookup_singleton_is_Some.
  intros [[<-|[_ <-]]|[<-|[_ [<-|[_ <-]]]]]; reflexivity.
Qed.
End PsExample.

(** ** Theorems *)
Module PsTheorems.


Import PsExample.
#[local] Existing Instances client_ops client_holds server_ops client_conn_laws server_conn_laws.


(** In this run: "a" was set on the server, "t" and "v" were reported. *)
Example ps_sync_run :
  ofmap (fun r => (tx r.1.2.1, sparameters r.2 !! [x61]))
    (Sync [[x61]] keys (mkScript [] [] [], NewClient cparams) (NewServer sparams)) =
  Ret (of_packet ∘ PParameterStatus <$>
         [ParameterStatus.mk [x74] [x34]; ParameterStatus.mk [x61] [x31]; ParameterStatus.mk [x76] [x35]], Some [x31]).
Proof. vm_compute. reflexivity. Qed.
End PsTheorems.
