(* ===== verification/Pools.v ===== *)
(** * Pools: lib/gat/handlers/pool/pools/basic, pools/hybrid

    The loops that serve a client: acquire a server, pair it with the client,
    relay a transaction, give the server back.  Both kinds of pools are here:
    [basic_serve] (basic/pool.go), [serveOnly] and [serveRW] (hybrid/pool.go),
    with their deferred clean-up.

    What the loops call is an interface, [PoolEnv]: the client's connection
    (Fed), the pairing of the middlewares (Ps, Eqp), the relaying (Backend) and
    the server pools.  Prometheus and tracing spans are left out.  [plog] is a
    ghost: what was done with servers and clients, in order; the states of
    clients and servers (Metrics) and the maps of clients are in it too, since
    they are read by others only: [Cancel] goes by them. *)

From Stdlib Require Import Init.Byte Strings.Byte Strings.String.
From S2P Require Import Prelude.
From S2P Require Import Chan.
From S2P Require Import Metrics.
From S2P Require Import Wire.
From S2P Require Import Packets.
From S2P Require Import Fed.

Local Open Scope go_scope.

(** The server pools: a basic pool has one, a hybrid pool two. *)
Inductive spool := Primary | Replica.

#[export] Instance spool_eq_dec : EqDecision spool.
Proof. solve_decision. Defined.

(** A result (err, serverErr) of working with a server. *)
Abbreviation errs := (option error * option error)%type.

Class PoolEnv (W : Type) := {
  client_read : W -> (error + fpacket) * W;           (* conn.ReadPacket *)
  client_write_ready : W -> option error * W;         (* conn.WritePacket(ReadyForQuery('I')) *)
  conn_ready : W -> bool;                             (* conn.Ready *)
  set_conn_ready : W -> W;
  pool_empty : spool -> W -> bool * W;                (* Pool.Empty *)
  pool_acquire : spool -> W -> option nat * W;        (* Pool.Acquire: nil is None *)
  pool_release : spool -> nat -> W -> W;              (* Pool.Release *)
  pool_remove : spool -> nat -> W -> W;               (* Pool.RemoveServer *)
  ps_sync : nat -> W -> errs * W;                     (* ps.Sync *)
  ps_sync_middleware : nat -> W -> option error * W;  (* ps.SyncMiddleware with psi *)
  initial_sync : nat -> W -> errs * W;                (* SyncInitialParameters *)
  eqp_sync : nat -> W -> option error * W;            (* eqp.Sync *)
  eqp_sync_middleware : nat -> W -> option error * W; (* eqp.SyncMiddleware with eqpi *)
  bounce : nat -> fpacket -> W -> errs * W;           (* bouncers.Bounce *)
  save_state : W -> W;                                (* psi.Set(psa); eqpi.Set(eqpa) *)
  m_primary : W -> W;                                 (* Middleware.Primary *)
  m_reset : W -> W                                    (* Middleware.Reset *)
}.

(** The client hangs up after finitely many packets: [to_come] counts those it
    will still send and those the hybrid middleware can replay; only
    Middleware.Primary starts a replay ([replaying]), Middleware.Reset ends it. *)
Class PoolEnvLaws (W : Type) `{PoolEnv W} := {
  to_come : W -> nat;
  replaying : W -> bool;
  calm w w' := to_come w' <= to_come w /\ replaying w' = replaying w;
  client_read_law w :
    calm w (client_read w).2 /\
    match client_read w with (inl _, _) => True | (inr _, w') => to_come w' < to_come w end;
  write_ready_law w : calm w (client_write_ready w).2;
  set_ready_law w : calm w (set_conn_ready w);
  empty_law sp w : calm w (pool_empty sp w).2;
  acquire_law sp w : calm w (pool_acquire sp w).2;
  release_law sp s w : calm w (pool_release sp s w);
  remove_law sp s w : calm w (pool_remove sp s w);
  ps_sync_law s w : calm w (ps_sync s w).2;
  ps_sync_middleware_law s w : calm w (ps_sync_middleware s w).2;
  initial_sync_law s w : calm w (initial_sync s w).2;
  eqp_sync_law s w : calm w (eqp_sync s w).2;
  eqp_sync_middleware_law s w : calm w (eqp_sync_middleware s w).2;
  bounce_law s p w : calm w (bounce s p w).2;
  save_state_law w : calm w (save_state w);
  m_primary_law w : replaying w = false -> to_come (m_primary w) <= to_come w;
  m_reset_law w : to_come (m_reset w) <= to_come w /\ replaying (m_reset w) = false
}.

(** What is done with servers, the flag says that the server failed; and what the
    maps of clients and the states of clients and servers become.  The peer of a
    client of a basic pool has no flag that it is a replica: [false]. *)
Inductive pev :=
| Acquired (sp : spool) (s : nat)
| Used (s : nat) (failed : bool)
| Released (sp : spool) (s : nat)
| Removed (sp : spool) (s : nat)
| Listed                                                         (* T.addClient *)
| Unlisted                                                       (* T.removeClient *)
| Joined (sp : spool)                                            (* Pool.AddClient *)
| Left (sp : spool)                                              (* Pool.RemoveClient *)
| ClientState (st : ConnState) (peer : option nat) (isReplica : bool) (* client.SetState *)
| ServerState (s : nat) (st : ConnState)                         (* server.SetState *)
| ClientDone                                                     (* client.TransactionComplete *)
| ServerDone (s : nat).                                          (* server.TransactionComplete *)

(** The last ones do nothing with servers. *)
Definition is_note (e : pev) : bool :=
  match e with Acquired _ _ | Used _ _ | Released _ _ | Removed _ _ => false | _ => true end.

Definition is_err (e : option error) : bool := match e with Some _ => true | None => false end.

Definition ErrFailedToAcquirePeer : error := ErrOther 1.
Definition ErrReadOnly : error := ErrOther 2.

Section Pools.
Context {W : Type} `{PoolEnv W}.

(** The local variables of a serve function.  A basic pool uses [primary]. *)
Record locals := mkLocals {
  world : W;
  primary : option nat;
  replica : option nat;
  err : option error;
  serverErr : option error;
  plog : list pev
}.

Definition var (sp : spool) (T : locals) : option nat :=
  match sp with Primary => primary T | Replica => replica T end.

Definition set_var (sp : spool) (v : option nat) (T : locals) : locals :=
  match sp with
  | Primary => mkLocals (world T) v (replica T) (err T) (serverErr T) (plog T)
  | Replica => mkLocals (world T) (primary T) v (err T) (serverErr T) (plog T)
  end.
Definition set_world (w : W) (T : locals) : locals :=
  mkLocals w (primary T) (replica T) (err T) (serverErr T) (plog T).
Definition set_err (e : option error) (T : locals) : locals :=
  mkLocals (world T) (primary T) (replica T) e (serverErr T) (plog T).
Definition set_errs (e : errs) (T : locals) : locals :=
  mkLocals (world T) (primary T) (replica T) e.1 e.2 (plog T).
Definition emit (l : list pev) (T : locals) : locals :=
  mkLocals (world T) (primary T) (replica T) (err T) (serverErr T) (plog T ++ l).

(** [v = pool.Acquire(client.ID)]; [None] is the early return. *)
Definition acquire (sp : spool) (T : locals) : option nat * locals :=
  let r := pool_acquire sp (world T) in
  match r.1 with
  | None => (None, set_var sp None (set_world r.2 T))
  | Some s => (Some s, emit [Acquired sp s] (set_var sp (Some s) (set_world r.2 T)))
  end.

(** [if v != nil { pool.Release(v); v = nil }] *)
Definition release (sp : spool) (T : locals) : locals :=
  match var sp T with
  | None => T
  | Some s => emit [Released sp s] (set_var sp None (set_world (pool_release sp s (world T)) T))
  end.

(** The deferred function, for one pool. *)
Definition clean_up (sp : spool) (T : locals) : locals :=
  match var sp T with
  | None => T
  | Some s =>
      if is_err (serverErr T)
      then emit [Removed sp s] (set_var sp None (set_world (pool_remove sp s (world T)) T))
      else release sp T
  end.

(** [err, serverErr = f(server)] *)
Definition use (f : W -> errs * W) (s : nat) (T : locals) : locals :=
  let r := f (world T) in
  emit [Used s (is_err r.1.2)] (set_errs r.1 (set_world r.2 T)).

(** *** Pairing *)

Inductive ParameterStatusSync := SyncNone | SyncInitial | SyncDynamic.

Record config := mkConfig {
  parameter_status_sync : ParameterStatusSync;
  ExtendedQuerySync : bool;
  ReleaseAfterTransaction : bool
}.

(** [f], with the states set before it, and after it if it went well. *)
Definition pairing (before after : list pev) (f : W -> errs * W) (s : nat) (T : locals) : locals :=
  let T := use f s (emit before T) in
  if is_err (err T) || is_err (serverErr T) then T else emit after T.

(** basic: pair *)
Definition basic_sync (c : config) (s : nat) (w : W) : errs * W :=
  let r :=
    match parameter_status_sync c with
    | SyncDynamic => ps_sync s w
    | SyncInitial => initial_sync s w
    | SyncNone => ((None, None), w)
    end in
  if is_err r.1.1 || is_err r.1.2 then r
  else if ExtendedQuerySync c then let q := eqp_sync s r.2 in ((r.1.1, q.1), q.2)
  else r.

Definition basic_pair (c : config) (s : nat) (T : locals) : locals :=
  pairing
    (match parameter_status_sync c, ExtendedQuerySync c with
     | SyncNone, false => []
     | _, _ => [ClientState ConnStatePairing (Some s) false; ServerState s ConnStatePairing]
     end)
    [ClientState ConnStateActive (Some s) false; ServerState s ConnStateActive]
    (basic_sync c s) s T.

(** hybrid: pair *)
Definition hybrid_sync (s : nat) (w : W) : errs * W :=
  let r := ps_sync s w in
  if is_err r.1.1 || is_err r.1.2 then r
  else let q := eqp_sync s r.2 in ((r.1.1, q.1), q.2).

Definition pair (s : nat) (T : locals) : locals :=
  pairing [ClientState ConnStatePairing (Some s) true; ServerState s ConnStatePairing]
    [ClientState ConnStateActive (Some s) true; ServerState s ConnStateActive]
    (hybrid_sync s) s T.

(** hybrid: PairPrimary.  It returns a serverErr only; err is nil here. *)
Definition primary_sync (s : nat) (w : W) : errs * W :=
  let r := ps_sync_middleware s w in
  if is_err r.1 then ((None, r.1), r.2) else let q := eqp_sync_middleware s r.2 in ((None, q.1), q.2).

Definition PairPrimary (s : nat) (T : locals) : locals :=
  pairing [ServerState s ConnStatePairing]
    [ClientState ConnStateActive (Some s) false; ServerState s ConnStateActive]
    (primary_sync s) s T.

(** *** The common start: a client that is not ready yet is paired and told *)

(** [inl e]: the function returns [e]. *)
Definition start (isReplica : bool) (pair : nat -> locals -> locals) (sp : spool) (T : locals)
    : (option error + unit) * locals :=
  match acquire sp (emit [ClientState ConnStateAwaitingServer None isReplica] T) with
  | (None, T) => (inl (Some ErrFailedToAcquirePeer), T)
  | (Some s, T) =>
      let T := pair s T in
      if is_err (serverErr T) then (inl (serverErr T), T)
      else if is_err (err T) then (inl (err T), T)
      else
        let r := client_write_ready (world T) in
        let T := set_err r.1 (set_world r.2 T) in
        if is_err (err T) then (inl (err T), T)
        else (inr tt, set_world (set_conn_ready (world T)) T)
  end.

(** [packet, err = conn.ReadPacket(ctx, true); if err != nil { return err }] *)
Definition read (T : locals) : (option error + fpacket) * locals :=
  match client_read (world T) with
  | (inl e, w) => (inl (Some e), set_err (Some e) (set_world w T))
  | (inr p, w) => (inr p, set_err None (set_world w T))
  end.

(** [if err == nil && serverErr == nil { err, serverErr = bouncers.Bounce(...) }] *)
Definition bounced (s : nat) (packet : fpacket) (T : locals) : locals :=
  if is_err (err T) || is_err (serverErr T) then T else use (bounce s packet) s T.

(** After a transaction: [inl e] returns [e]; otherwise it is counted. *)
Definition count (dones : list pev) (T : locals) : (option error + unit) * locals :=
  if is_err (serverErr T) then (inl (serverErr T), T)
  else
    let T := emit dones T in
    if is_err (err T) then (inl (err T), T) else (inr tt, T).

Definition new_locals (w : W) : locals := mkLocals w None None None None [].

(** The client is registered with the pool and with its server pools; when the
    body returns the deferred calls give the server back and unregister the
    client. *)
Definition registered (sps : list spool) (w : W) : locals :=
  emit (Listed :: (Joined <$> sps)) (new_locals w).

Definition deferred (sps : list spool) (o : outcome (option error * locals)) : outcome (option error * locals) :=
  let! r := o in
  Ret (r.1, emit ((Left <$> reverse sps) ++ [Unlisted]) (foldl (fun T sp => clean_up sp T) r.2 sps)).

(** *** basic: serve *)

Fixpoint basic_loop (fuel : nat) (c : config) (T : locals) : outcome (option error * locals) :=
  match fuel with
  | O => Diverge
  | S fuel =>
      let T :=
        match primary T, ReleaseAfterTransaction c with
        | Some _, true => release Primary (emit [ClientState ConnStateIdle None false] T)
        | _, _ => T
        end in
      match read T with
      | (inl e, T) => Ret (e, T)
      | (inr packet, T) =>
          let '(o, T) :=
            match primary T with
            | Some s => (Some s, T)
            | None =>
                match acquire Primary (emit [ClientState ConnStateAwaitingServer None false] T) with
                | (None, T) => (None, T)
                | (Some s, T) => (Some s, basic_pair c s T)
                end
            end in
          match o with
          | None => Ret (Some ErrFailedToAcquirePeer, T)
          | Some s =>
              match count [ClientDone; ServerDone s] (bounced s packet T) with
              | (inl e, T) => Ret (e, T)
              | (inr _, T) => basic_loop fuel c T
              end
          end
      end
  end.

(** The body of serve, without the deferred calls. *)
Definition basic_body (fuel : nat) (c : config) (w : W) : outcome (option error * locals) :=
  let T := registered [Primary] w in
  if conn_ready w then basic_loop fuel c T
  else match start false (basic_pair c) Primary T with
       | (inl e, T) => Ret (e, T)
       | (inr _, T) => basic_loop fuel c T
       end.

Definition basic_serve (fuel : nat) (c : config) (w : W) : outcome (option error * locals) :=
  deferred [Primary] (basic_body fuel c w).

(** *** hybrid: serveOnly, with the primary or the replica *)

Fixpoint only_loop (fuel : nat) (sp : spool) (T : locals) : outcome (option error * locals) :=
  match fuel with
  | O => Diverge
  | S fuel =>
      let T := emit [ClientState ConnStateIdle None true] (release sp T) in
      match read T with
      | (inl e, T) => Ret (e, T)
      | (inr packet, T) =>
          match acquire sp (emit [ClientState ConnStateAwaitingServer None true] T) with
          | (None, T) => Ret (Some ErrFailedToAcquirePeer, T)
          | (Some s, T) =>
              match count [ServerDone s; ClientDone] (bounced s packet (pair s T)) with
              | (inl e, T) => Ret (e, T)
              | (inr _, T) => only_loop fuel sp T
              end
          end
      end
  end.

Definition serveOnly (fuel : nat) (write : bool) (w : W) : outcome (option error * locals) :=
  let sp := if write then Primary else Replica in
  let T := registered [sp] w in
  deferred [sp]
    (if conn_ready w then only_loop fuel sp T
     else match start true pair sp T with
          | (inl e, T) => Ret (e, T)
          | (inr _, T) => only_loop fuel sp T
          end).

(** *** hybrid: serveRW *)

(** A transaction on the primary, with [pair] and the packet that is read next. *)
Definition on_primary (pair : nat -> locals -> locals) (T : locals) : (option error + unit) * locals :=
  match read T with
  | (inl e, T) => (inl e, T)
  | (inr packet, T) =>
      match acquire Primary (emit [ClientState ConnStateAwaitingServer None false] T) with
      | (None, T) => (inl (Some ErrFailedToAcquirePeer), T)
      | (Some s, T) =>
          let T := bounced s packet (pair s T) in
          if is_err (serverErr T) then (inl (serverErr T), T) else (inr tt, emit [ServerDone s] T)
      end
  end.

(** The transaction on the replica failed because it writes: again, with the
    buffered packets, on the primary. *)
Definition fallback (T : locals) : (option error + unit) * locals :=
  on_primary PairPrimary (release Replica (set_world (m_primary (world T)) T)).

(** "try replica first" *)
Definition try_replica (packet : fpacket) (T : locals) : (option error + unit) * locals :=
  match acquire Replica T with
  | (None, T) => (inl (Some ErrFailedToAcquirePeer), T)
  | (Some s, T) =>
      let T := pair s T in
      let T := bounced s packet (set_world (save_state (world T)) T) in
      if is_err (serverErr T) then (inl (serverErr T), T)
      else
        let T := emit [ServerDone s] T in
        if decide (err T = Some ErrReadOnly) then fallback T else (inr tt, T)
  end.

(** "straight to primary" *)
Definition straight (T : locals) : (option error + unit) * locals :=
  on_primary pair (set_world (m_primary (world T)) T).

Fixpoint rw_loop (fuel : nat) (T : locals) : outcome (option error * locals) :=
  match fuel with
  | O => Diverge
  | S fuel =>
      let T := emit [ClientState ConnStateIdle None false] (release Replica (release Primary T)) in
      match read T with
      | (inl e, T) => Ret (e, T)
      | (inr packet, T) =>
          let T := emit [ClientState ConnStateAwaitingServer None false] T in
          let e := pool_empty Replica (world T) in
          let T := set_world e.2 T in
          match (if e.1 then straight T else try_replica packet T) with
          | (inl e, T) => Ret (e, T)
          | (inr _, T) =>
              let T := emit [ClientDone] T in
              if is_err (err T) then Ret (err T, T)
              else rw_loop fuel (set_world (m_reset (world T)) T)
          end
      end
  end.

Definition serveRW (fuel : nat) (w : W) : outcome (option error * locals) :=
  let T := registered [Primary; Replica] w in
  deferred [Primary; Replica]
    (if conn_ready w then rw_loop fuel T
     else
       let e := pool_empty Replica (world T) in
       let T := set_world e.2 T in
       match start false pair (if e.1 then Primary else Replica) T with
       | (inl e, T) => Ret (e, T)
       | (inr _, T) => rw_loop fuel T
       end).

(** *** hybrid: serve, by the mode that the client asks for; a parameter that it
    did not send is "". *)
Definition hybrid_mode (InitialParameters : gmap gostring gostring) : string :=
  let v := default [] (InitialParameters !! list_byte_of_string "hybrid.mode") in
  if decide (v = list_byte_of_string "ro") then "ro"
  else if decide (v = list_byte_of_string "wo") then "wo"
  else "rw".
Definition hybrid_serve (fuel : nat) (InitialParameters : gmap gostring gostring) (w : W) : outcome (option error * locals) :=
  let mode := hybrid_mode InitialParameters in
  if decide (mode = "ro") then serveOnly fuel false w
  else if decide (mode = "wo") then serveOnly fuel true w
  else if decide (mode = "rw") then serveRW fuel w
  else Panic.
End Pools.
Arguments locals : clear implicits.

(** ** Every server is given back

    [lent h l]: the log [l] is a sequence of loans, of which [h] is the open
    one: the pool and the server, and whether the server has failed.  A server
    that has failed is removed, another one is released, to the pool it came
    from; only the server on loan is used. *)
Inductive lent : option (spool * nat * bool) -> list pev -> Prop :=
| lent_none : lent None []
| lent_acquire sp s l : lent None l -> lent (Some (sp, s, false)) (l ++ [Acquired sp s])
| lent_use sp s l failed : lent (Some (sp, s, false)) l -> lent (Some (sp, s, failed)) (l ++ [Used s failed])
| lent_release sp s l : lent (Some (sp, s, false)) l -> lent None (l ++ [Released sp s])
| lent_remove sp s l : lent (Some (sp, s, true)) l -> lent None (l ++ [Removed sp s])
| lent_note h e l : lent h l -> is_note e = true -> lent h (l ++ [e]).

Lemma lent_notes h l l' : lent h l -> forallb is_note l' = true -> lent h (l ++ l').
Proof.
  revert l. induction l' as [|e l' IH]; intros l Hl Hn; [by rewrite app_nil_r|].
  apply andb_true_iff in Hn as [He Hn]. rewrite cons_middle, app_assoc. apply IH; [by constructor|done].
Qed.

Section Laws.
Context {W : Type} `{PoolEnvLaws W}.
Abbreviation locals := (locals W).

Lemma calm_refl w : calm w w.
Proof. by split. Qed.
Lemma calm_trans w1 w2 w3 : calm w1 w2 -> calm w2 w3 -> calm w1 w3.
Proof. intros [? ?] [? ?]. split; [lia|congruence]. Qed.

(** What the variables say agrees with the log: at most one server is held. *)
Definition holds (h : option (spool * nat)) (T : locals) : Prop :=
  match h with
  | None => primary T = None /\ replica T = None /\ lent None (plog T)
  | Some (sp, s) =>
      var sp T = Some s /\ (forall sp', sp' <> sp -> var sp' T = None) /\
      lent (Some (sp, s, is_err (serverErr T))) (plog T)
  end.

(** Some server may be held. *)
Definition sound (T : locals) : Prop := exists h, holds h T.

Definition ok (T : locals) : Prop := serverErr T = None.

Lemma holds_world h w T : holds h T -> holds h (set_world w T).
Proof. by destruct h as [[[|] s]|]. Qed.
Lemma holds_err h e T : holds h T -> holds h (set_err e T).
Proof. by destruct h as [[[|] s]|]. Qed.

Lemma holds_emit h l T : forallb is_note l = true -> holds h T -> holds h (emit l T).
Proof.
  intros Hn. destruct h as [[sp s]|]; intros (? & Ho & ?); (split; [by try destruct sp|]); (split; [|by apply lent_notes]); [|done].
  intros sp' Hne. specialize (Ho sp' Hne). by destruct sp'.
Qed.

Lemma pool_acquire_spec sp T o T' :
  acquire sp T = (o, T') -> holds None T -> ok T ->
  holds ((fun s => (sp, s)) <$> o) T' /\ ok T' /\ calm (world T) (world T') /\ err T' = err T.
Proof.
  unfold acquire. pose proof (acquire_law sp (world T)) as Hcalm.
  destruct (pool_acquire sp (world T)) as [[s|] w]; cbn in *; intros [= <- <-] (Hp & Hr & Hl) Hok.
  - split_and!; [|by destruct sp|by destruct sp|by destruct sp]. cbn.
    unfold ok in Hok. destruct sp; cbn; (split_and!; [done|by intros [] ?|rewrite Hok; by apply lent_acquire]).
  - by destruct sp.
Qed.

Lemma awaiting_spec sp st p rep T o T' :
  acquire sp (emit [ClientState st p rep] T) = (o, T') -> holds None T -> ok T ->
  holds ((fun s => (sp, s)) <$> o) T' /\ ok T' /\ calm (world T) (world T') /\ err T' = err T.
Proof. intros Ha Hh Hok. apply (pool_acquire_spec _ _ _ _ Ha); [by apply (holds_emit None)|done]. Qed.

Lemma use_spec f sp s T :
  (forall w, calm w (f w).2) -> holds (Some (sp, s)) T -> ok T ->
  holds (Some (sp, s)) (use f s T) /\ calm (world T) (world (use f s T)).
Proof.
  intros Hf (Hv & Ho & Hl) Hok. unfold use. split; [|apply Hf]. destruct (f (world T)) as [[e se] w]; cbn.
  unfold ok in Hok. rewrite Hok in Hl. split; [by destruct sp|]. split; [|by apply lent_use].
  intros sp' Hne. specialize (Ho sp' Hne). by destruct sp'.
Qed.

Lemma release_held sp s T :
  holds (Some (sp, s)) T -> ok T ->
  holds None (release sp T) /\ ok (release sp T) /\ calm (world T) (world (release sp T)).
Proof.
  intros (Hv & Ho & Hl) Hok. unfold release. rewrite Hv. unfold ok in *. rewrite Hok in Hl.
  pose proof (release_law sp s (world T)) as Hc.
  split_and!; [|by destruct sp|by destruct sp].
  destruct sp; cbn.
  - specialize (Ho Replica ltac:(done)). split_and!; [done|done|]. by apply lent_release.
  - specialize (Ho Primary ltac:(done)). split_and!; [done|done|]. by apply lent_release.
Qed.

Lemma release_none sp T : var sp T = None -> release sp T = T.
Proof. intros Hv. unfold release. by rewrite Hv. Qed.

Lemma holds_none_var sp T : holds None T -> var sp T = None.
Proof. intros (? & ? & _). by destruct sp. Qed.

Lemma clean_up_held sp s T : holds (Some (sp, s)) T -> holds None (clean_up sp T).
Proof.
  intros Hh. pose proof Hh as (Hv & Ho & Hl). unfold clean_up. rewrite Hv.
  destruct (serverErr T) as [e|] eqn:He; cbn [is_err] in *; [|by eapply release_held].
  assert (Hother : forall sp', sp' <> sp -> var sp' T = None) by done.
  destruct sp; cbn.
  - specialize (Ho Replica ltac:(done)). split_and!; [done|done|]. by apply lent_remove.
  - specialize (Ho Primary ltac:(done)). split_and!; [done|done|]. by apply lent_remove.
Qed.

Lemma clean_up_none sp T : var sp T = None -> clean_up sp T = T.
Proof. intros Hv. unfold clean_up. by rewrite Hv. Qed.

(** *** The pieces of the loops *)

Definition held_in (sps : list spool) (T : locals) : Prop :=
  holds None T \/ exists sp s, sp ∈ sps /\ holds (Some (sp, s)) T.

Lemma held_none sps T : holds None T -> held_in sps T.
Proof. by left. Qed.
Lemma held_some sps sp s T : sp ∈ sps -> holds (Some (sp, s)) T -> held_in sps T.
Proof. right. eauto. Qed.

Lemma clean_up_all sps T : held_in sps T -> holds None (foldl (fun T sp => clean_up sp T) T sps).
Proof.
  revert T. induction sps as [|sp sps IH]; intros T [Hn|(sp' & s & Hin & Hh)]; cbn; [done|set_solver|..].
  - rewrite clean_up_none by (by apply holds_none_var). apply IH. by left.
  - destruct (decide (sp' = sp)) as [->|Hne]; [apply IH; left; by eapply clean_up_held|].
    pose proof Hh as (_ & Ho & _). rewrite clean_up_none by (by apply Ho). apply IH. right. exists sp', s. set_solver.
Qed.

Lemma deferred_spec sps o :
  (exists e T, o = Ret (e, T) /\ held_in sps T) ->
  exists e T, deferred sps o = Ret (e, T) /\ holds None T.
Proof.
  intros (e & T & -> & HT). cbn. do 2 eexists. split; [done|]. apply (holds_emit None); [|by apply clean_up_all].
  rewrite forallb_app, andb_true_r. apply forallb_forall. intros ev Hev. apply list_elem_of_In, list_elem_of_fmap in Hev as (sp & -> & _). done.
Qed.

Lemma basic_sync_calm c s w : calm w (basic_sync c s w).2.
Proof.
  unfold basic_sync.
  assert (Hr : forall r : errs * W, calm w r.2 ->
    calm w (if is_err r.1.1 || is_err r.1.2 then r
            else if ExtendedQuerySync c then let q := eqp_sync s r.2 in ((r.1.1, q.1), q.2) else r).2).
  { intros r Hr. destruct (_ || _); [done|]. destruct (ExtendedQuerySync c); [|done].
    eapply calm_trans; [exact Hr|apply eqp_sync_law]. }
  apply Hr. destruct (parameter_status_sync c); [apply calm_refl|apply initial_sync_law|apply ps_sync_law].
Qed.

Lemma hybrid_sync_calm s w : calm w (hybrid_sync s w).2.
Proof.
  unfold hybrid_sync. destruct (_ || _); [apply ps_sync_law|]. eapply calm_trans; [apply ps_sync_law|apply eqp_sync_law].
Qed.

Lemma primary_sync_calm s w : calm w (primary_sync s w).2.
Proof.
  unfold primary_sync. destruct (is_err _); [apply ps_sync_middleware_law|].
  eapply calm_trans; [apply ps_sync_middleware_law|apply eqp_sync_middleware_law].
Qed.

(** What pairing may do. *)
Definition pairs (f : nat -> locals -> locals) : Prop :=
  forall sp s T, holds (Some (sp, s)) T -> ok T -> holds (Some (sp, s)) (f s T) /\ calm (world T) (world (f s T)).

Lemma pairing_spec before after f sp s T :
  forallb is_note before = true -> forallb is_note after = true -> (forall w, calm w (f w).2) ->
  holds (Some (sp, s)) T -> ok T ->
  holds (Some (sp, s)) (pairing before after f s T) /\ calm (world T) (world (pairing before after f s T)).
Proof.
  intros Hb Ha Hf Hh Hok. unfold pairing.
  destruct (use_spec f sp s (emit before T) Hf (holds_emit _ _ _ Hb Hh) Hok) as [Hh1 Hc1].
  destruct (_ || _); [done|]. split; [by apply holds_emit|done].
Qed.

Lemma basic_pair_pairs c : pairs (basic_pair c).
Proof. intros sp s T. apply pairing_spec; [by destruct (parameter_status_sync c), (ExtendedQuerySync c)|done|apply basic_sync_calm]. Qed.
Lemma pair_pairs : pairs pair.
Proof. intros sp s T. apply pairing_spec; [done|done|apply hybrid_sync_calm]. Qed.
Lemma PairPrimary_pairs : pairs PairPrimary.
Proof. intros sp s T. apply pairing_spec; [done|done|apply primary_sync_calm]. Qed.

Lemma is_err_false e : is_err e = false -> e = None.
Proof. by destruct e. Qed.

Lemma client_read_spec h T r T' :
  read T = (r, T') -> holds h T -> ok T ->
  holds h T' /\ ok T' /\ calm (world T) (world T') /\
  match r with inl _ => True | inr _ => to_come (world T') < to_come (world T) /\ err T' = None end.
Proof.
  unfold read. destruct (client_read_law (world T)) as [Hc Hl].
  destruct (client_read (world T)) as [[e|p] w]; intros [= <- <-] Hh Hok; cbn in *;
    (split; [by apply holds_err, holds_world|]); done.
Qed.

Lemma bounced_spec sp s packet T :
  holds (Some (sp, s)) T ->
  holds (Some (sp, s)) (bounced s packet T) /\ calm (world T) (world (bounced s packet T)).
Proof.
  intros Hh. unfold bounced. destruct (is_err (err T)); [split; [done|apply calm_refl]|]. cbn [orb].
  destruct (is_err (serverErr T)) eqn:He; [split; [done|apply calm_refl]|].
  apply use_spec; [apply bounce_law|done|by apply is_err_false].
Qed.

(** Pair, then relay unless the pairing failed. *)
Lemma work_spec f sp s packet T :
  pairs f -> holds (Some (sp, s)) T -> ok T ->
  holds (Some (sp, s)) (bounced s packet (f s T)) /\ calm (world T) (world (bounced s packet (f s T))).
Proof.
  intros Hf Hh Hok. destruct (Hf sp s T Hh Hok) as [Hh1 Hc1].
  destruct (bounced_spec sp s packet _ Hh1) as [Hh2 Hc2]. split; [done|]. by eapply calm_trans.
Qed.

(** What a piece that can return early leaves. *)
Definition piece (sps : list spool) (T : locals) (r : (option error + unit) * locals) : Prop :=
  held_in sps r.2 /\ match r.1 with inl _ => True | inr _ => ok r.2 end /\ to_come (world r.2) <= to_come (world T).

Lemma start_spec rep f sp sps T :
  pairs f -> sp ∈ sps -> holds None T -> ok T ->
  piece sps T (start rep f sp T) /\ replaying (world (start rep f sp T).2) = replaying (world T).
Proof.
  intros Hf Hin Hh Hok. unfold start. destruct (acquire sp _) as [[s|] T1] eqn:Ha;
    destruct (awaiting_spec _ _ _ _ _ _ _ Ha Hh Hok) as (Hh1 & Hok1 & [Hl1 Hr1] & _); cbn in Hh1.
  2: { split; [|done]. split; [by apply held_none|done]. }
  destruct (Hf sp s T1 Hh1 Hok1) as [Hh2 [Hl2 Hr2]]. set (T2 := f s T1) in *. clearbody T2.
  assert (Hearly : forall e, piece sps T (inl e, T2)) by (intros e; split; [by eapply held_some|]; cbn [fst snd]; split; [done|lia]).
  destruct (is_err (serverErr T2)) eqn:He; [split; [done|cbn [fst snd]; congruence]|].
  destruct (is_err (err T2)); [split; [done|cbn [fst snd]; congruence]|].
  destruct (write_ready_law (world T2)) as [Hl3 Hr3]. destruct (client_write_ready (world T2)) as [e3 w3].
  destruct (set_ready_law w3) as [Hl4 Hr4].
  cbn [fst snd] in *. set (T3 := set_err e3 (set_world w3 T2)). change (world T3) with w3.
  assert (holds (Some (sp, s)) T3) as Hh3 by (by apply holds_err, holds_world).
  destruct (is_err (err T3)); cbn [fst snd].
  - split; [|change (world T3) with w3; congruence].
    split; [by eapply held_some|]. split; [done|]. change (to_come w3 <= to_come (world T)). lia.
  - set (T4 := set_world _ T3). split; [|change (world T4) with (set_conn_ready w3); congruence].
    split; [eapply held_some; [done|by apply holds_world]|]. split; [by apply is_err_false|].
    change (to_come (set_conn_ready w3) <= to_come (world T)). lia.
Qed.

(** *** The loops *)

Definition ends (sps : list spool) (o : outcome (option error * locals)) : Prop :=
  exists e T, o = Ret (e, T) /\ held_in sps T.

Lemma ends_ret sps e T : held_in sps T -> ends sps (Ret (e, T)).
Proof. intros. by exists e, T. Qed.

(** The check of the two errors after a transaction. *)
Lemma count_spec sps sp s dones T (k : locals -> outcome (option error * locals)) :
  forallb is_note dones = true -> sp ∈ sps -> holds (Some (sp, s)) T ->
  (forall T', holds (Some (sp, s)) T' -> ok T' -> world T' = world T -> ends sps (k T')) ->
  ends sps match count dones T with (inl e, T) => Ret (e, T) | (inr _, T) => k T end.
Proof.
  intros Hd Hin Hh Hk. unfold count. destruct (is_err (serverErr T)) eqn:H1; [by eapply ends_ret, held_some|].
  apply (holds_emit _ _ _ Hd) in Hh. change (err (emit dones T)) with (err T).
  destruct (is_err (err T)) eqn:H2; [by eapply ends_ret, held_some|]. apply Hk; [done|by apply is_err_false|done].
Qed.

Lemma basic_loop_spec fuel c T :
  held_in [Primary] T -> ok T -> to_come (world T) < fuel -> ends [Primary] (basic_loop fuel c T).
Proof.
  revert T. induction fuel as [|fuel IH]; intros T Hh Hok Hf; [lia|]. cbn [basic_loop].
  set (T0 := match primary T, ReleaseAfterTransaction c with
             | Some _, true => release Primary (emit [ClientState ConnStateIdle None false] T) | _, _ => T end).
  assert (Hh0 : held_in [Primary] T0 /\ ok T0 /\ to_come (world T0) <= to_come (world T)).
  { unfold T0. destruct (primary T) as [s0|] eqn:Hp; [|done]. destruct (ReleaseAfterTransaction c); [|done].
    destruct Hh as [Hn|(sp & s & ->%list_elem_of_singleton & Hs)]; [by rewrite (proj1 Hn) in Hp|].
    destruct (release_held _ _ _ (holds_emit _ [ClientState ConnStateIdle None false] _ eq_refl Hs) Hok) as (? & ? & [? _]).
    split_and!; [by left|done|done]. }
  clearbody T0. destruct Hh0 as (Hh0 & Hok0 & Hl0).
  destruct (read T0) as [[e|packet] T1] eqn:Hr.
  { apply ends_ret. destruct Hh0 as [Hn|(sp & s & Hin & Hs)];
      destruct (client_read_spec _ _ _ _ Hr ltac:(eassumption) Hok0) as (? & _); [by left|by eapply held_some]. }
  (* a server: the one held, or a new one *)
  assert (Hgo : forall s T2, holds (Some (Primary, s)) T2 -> to_come (world T2) < fuel ->
    ends [Primary] match count [ClientDone; ServerDone s] (bounced s packet T2) with
                   | (inl e, T) => Ret (e, T) | (inr _, T) => basic_loop fuel c T end).
  { intros s T2 Hs Hl. destruct (bounced_spec _ _ packet _ Hs) as [Hs3 [Hl3 _]].
    eapply count_spec; [done|by left|exact Hs3|]. intros T' Hs' Hok' Hw. apply IH; [by eapply held_some; [left|]|done|].
    rewrite Hw. lia. }
  destruct Hh0 as [Hn|(sp & s & ->%list_elem_of_singleton & Hs)].
  - destruct (client_read_spec _ _ _ _ Hr Hn Hok0) as (Hn1 & Hok1 & [? _] & Hlt & _).
    rewrite (proj1 Hn1). destruct (acquire Primary _) as [[s|] T2] eqn:Ha;
      destruct (awaiting_spec _ _ _ _ _ _ _ Ha Hn1 Hok1) as (Hh2 & Hok2 & [Hl2 _] & _).
    + destruct (basic_pair_pairs c Primary s T2 Hh2 Hok2) as [Hh3 [Hl3 _]]. apply Hgo; [done|lia].
    + apply ends_ret. by left.
  - destruct (client_read_spec _ _ _ _ Hr Hs Hok0) as (Hs1 & Hok1 & _ & Hlt & _).
    rewrite (proj1 Hs1 : primary T1 = Some s). apply Hgo; [done|lia].
Qed.

Lemma release_in sp T :
  held_in [sp] T -> ok T ->
  holds None (release sp T) /\ ok (release sp T) /\ calm (world T) (world (release sp T)).
Proof.
  intros [Hn|(sp' & s & ->%list_elem_of_singleton & Hs)] Hok; [|by eapply release_held].
  rewrite release_none by (by apply holds_none_var). split_and!; [done|done|apply calm_refl].
Qed.

Lemma only_loop_spec fuel sp T :
  held_in [sp] T -> ok T -> to_come (world T) < fuel -> ends [sp] (only_loop fuel sp T).
Proof.
  revert T. induction fuel as [|fuel IH]; intros T Hh Hok Hf; [lia|]. cbn [only_loop].
  destruct (release_in sp T Hh Hok) as (Hn & Hok0 & [Hl0 _]).
  apply (holds_emit None [ClientState ConnStateIdle None true] _ eq_refl) in Hn.
  set (T0 := emit _ (release sp T)) in *. change (world (release sp T)) with (world T0) in Hl0. change (ok T0) in Hok0. clearbody T0.
  destruct (read T0) as [[e|packet] T1] eqn:Hr;
    destruct (client_read_spec _ _ _ _ Hr Hn Hok0) as (Hn1 & Hok1 & [Hl1 _] & Hlt); [apply ends_ret; by left|].
  destruct Hlt as [Hlt _]. destruct (acquire sp _) as [[s|] T2] eqn:Ha;
    destruct (awaiting_spec _ _ _ _ _ _ _ Ha Hn1 Hok1) as (Hh2 & Hok2 & [Hl2 _] & _); [|apply ends_ret; by left].
  destruct (work_spec pair sp s packet T2 pair_pairs Hh2 Hok2) as [Hh3 [Hl3 _]].
  eapply count_spec; [done|by left|exact Hh3|]. intros T' Hs' Hok' Hw. apply IH; [by eapply held_some; [left|]|done|].
  rewrite Hw. lia.
Qed.

Abbreviation both := [Primary; Replica].

Lemma in_both sp : sp ∈ both.
Proof. destruct sp; set_solver. Qed.

Lemma on_primary_spec f T0 T :
  pairs f -> holds None T -> ok T -> to_come (world T) <= to_come (world T0) -> piece both T0 (on_primary f T).
Proof.
  intros Hf Hn Hok Hl. unfold on_primary.
  destruct (read T) as [[e|packet] T1] eqn:Hr; destruct (client_read_spec _ _ _ _ Hr Hn Hok) as (Hn1 & Hok1 & [Hl1 _] & _).
  { split; [by left|]. split; [done|cbn [snd]; lia]. }
  destruct (acquire Primary _) as [[s|] T2] eqn:Ha;
    destruct (awaiting_spec _ _ _ _ _ _ _ Ha Hn1 Hok1) as (Hh2 & Hok2 & [Hl2 _] & _); [|split; [by left|]; split; [done|cbn [snd]; lia]].
  destruct (work_spec f Primary s packet T2 Hf Hh2 Hok2) as [Hh3 [Hl3 _]]. set (T3 := bounced s packet (f s T2)) in *. clearbody T3.
  destruct (is_err (serverErr T3)) eqn:He.
  - split; [eapply held_some; [apply in_both|exact Hh3]|]. split; [done|cbn [snd]; lia].
  - split; [eapply held_some; [apply in_both|by apply holds_emit]|]. split; [by apply is_err_false|].
    change (to_come (world T3) <= to_come (world T0)). lia.
Qed.

Lemma fallback_spec s T :
  holds (Some (Replica, s)) T -> ok T -> replaying (world T) = false -> piece both T (fallback T).
Proof.
  intros Hh Hok Hrep. unfold fallback. pose proof (m_primary_law _ Hrep) as Hlp.
  set (T0 := set_world (m_primary (world T)) T).
  destruct (release_held Replica s T0) as (Hn & Hok0 & [Hl0 _]); [by apply holds_world|done|].
  change (world T0) with (m_primary (world T)) in Hl0. apply on_primary_spec; [apply PairPrimary_pairs|done|done|lia].
Qed.

Lemma straight_spec T :
  holds None T -> ok T -> replaying (world T) = false -> piece both T (straight T).
Proof.
  intros Hn Hok Hrep. unfold straight. apply on_primary_spec; [apply pair_pairs|done|done|by apply m_primary_law].
Qed.

Lemma try_replica_spec packet T :
  holds None T -> ok T -> replaying (world T) = false -> piece both T (try_replica packet T).
Proof.
  intros Hn Hok Hrep. unfold try_replica. destruct (acquire Replica T) as [[s|] T1] eqn:Ha;
    destruct (pool_acquire_spec _ _ _ _ Ha Hn Hok) as (Hh1 & Hok1 & [Hl1 Hr1] & _).
  2: { split; [by left|]. split; [done|cbn [snd]; lia]. }
  destruct (pair_pairs Replica s T1 Hh1 Hok1) as [Hh2 [Hl2 Hr2]].
  set (T2 := pair s T1) in *. clearbody T2. destruct (save_state_law (world T2)) as [Hl3 Hr3].
  set (T3 := set_world (save_state (world T2)) T2). assert (holds (Some (Replica, s)) T3) as Hh3 by (by apply holds_world).
  destruct (bounced_spec _ _ packet _ Hh3) as [Hh4 [Hl4 Hr4]].
  change (world T3) with (save_state (world T2)) in Hl4, Hr4. cbn zeta.
  set (T4 := bounced s packet T3) in *. clearbody T4.
  assert (Hheld : forall l, forallb is_note l = true -> held_in both (emit l T4))
    by (intros l Hl; eapply held_some; [apply in_both|by apply holds_emit]).
  destruct (is_err (serverErr T4)) eqn:He.
  { split; [eapply held_some; [apply in_both|exact Hh4]|]. split; [done|cbn [snd]; lia]. }
  change (err (emit [ServerDone s] T4)) with (err T4).
  destruct (decide (err T4 = Some ErrReadOnly)).
  - destruct (fallback_spec s (emit [ServerDone s] T4)) as (? & ? & Hl5); [by apply holds_emit|by apply is_err_false|
      change (replaying (world T4) = false); congruence|].
    split; [done|]. split; [done|]. change (world (emit [ServerDone s] T4)) with (world T4) in Hl5. lia.
  - split; [by apply Hheld|]. split; [by apply is_err_false|]. change (to_come (world T4) <= to_come (world T)). lia.
Qed.

Lemma release_both T :
  held_in both T -> ok T ->
  let T' := release Replica (release Primary T) in holds None T' /\ ok T' /\ calm (world T) (world T').
Proof.
  intros Hh Hok. cbn zeta.
  assert (Hnone : forall T, holds None T -> ok T -> release Replica T = T) by (intros; apply release_none; by apply holds_none_var).
  destruct Hh as [Hn|([|] & s & _ & Hs)].
  - rewrite (release_none Primary) by (by apply holds_none_var). rewrite Hnone by done. split_and!; [done|done|apply calm_refl].
  - destruct (release_held _ _ _ Hs Hok) as (? & ? & ?). by rewrite Hnone.
  - pose proof Hs as (_ & Ho & _). rewrite (release_none Primary) by (by apply Ho). by eapply release_held.
Qed.

Lemma rw_loop_spec fuel T :
  held_in both T -> ok T -> replaying (world T) = false -> to_come (world T) < fuel -> ends both (rw_loop fuel T).
Proof.
  revert T. induction fuel as [|fuel IH]; intros T Hh Hok Hrep Hf; [lia|]. cbn [rw_loop].
  destruct (release_both T Hh Hok) as (Hn & Hok0 & [Hl0 Hr0]). cbn zeta in *.
  apply (holds_emit None [ClientState ConnStateIdle None false] _ eq_refl) in Hn.
  set (T0 := emit _ (release Replica (release Primary T))) in *.
  change (world (release Replica (release Primary T))) with (world T0) in Hl0, Hr0. change (ok T0) in Hok0. clearbody T0.
  destruct (read T0) as [[e|packet] T1] eqn:Hr; destruct (client_read_spec _ _ _ _ Hr Hn Hok0) as (Hn1 & Hok1 & [Hl1 Hr1] & Hlt);
    [apply ends_ret; by left|]. destruct Hlt as [Hlt _].
  apply (holds_emit None [ClientState ConnStateAwaitingServer None false] _ eq_refl) in Hn1.
  set (T1' := emit _ T1) in *. change (world T1) with (world T1') in *. change (ok T1') in Hok1. clearbody T1'. clear T1 Hr. rename T1' into T1.
  destruct (empty_law Replica (world T1)) as [Hl2 Hr2]. set (T2 := set_world (pool_empty Replica (world T1)).2 T1).
  assert (Hp : forall b : bool, piece both T2 (if b then straight T2 else try_replica packet T2)).
  { intros b. assert (replaying (world T2) = false) by (change (world T2) with (pool_empty Replica (world T1)).2; congruence).
    destruct b; [by apply straight_spec|by apply try_replica_spec]. }
  specialize (Hp (pool_empty Replica (world T1)).1).
  destruct (if (pool_empty Replica (world T1)).1 then straight T2 else try_replica packet T2) as [[e|u] T3];
    destruct Hp as (Hh3 & Hok3 & Hl3); cbn [fst snd] in *; [by apply ends_ret|].
  change (world T2) with (pool_empty Replica (world T1)).2 in Hl3.
  assert (Hh4 : held_in both (emit [ClientDone] T3)).
  { destruct Hh3 as [?|(sp & s & ? & ?)]; [left; by apply holds_emit|right; exists sp, s; split; [done|by apply holds_emit]]. }
  change (err (emit [ClientDone] T3)) with (err T3). change (world (emit [ClientDone] T3)) with (world T3).
  destruct (is_err (err T3)); [by apply ends_ret|]. destruct (m_reset_law (world T3)) as [Hl4 Hr4].
  apply IH; [|done|done|change (to_come (m_reset (world T3)) < fuel); lia].
  destruct Hh4 as [?|(sp & s & ? & ?)]; [left; by apply holds_world|right; exists sp, s; split; [done|by apply holds_world]].
Qed.

Lemma registered_holds sps w : holds None (registered sps w).
Proof.
  apply (holds_emit None); [|split_and!; [done..|constructor]]. cbn. apply forallb_forall.
  intros ev Hev. apply list_elem_of_In, list_elem_of_fmap in Hev as (sp & -> & _). done.
Qed.

Lemma basic_body_ends fuel c w : to_come w < fuel -> ends [Primary] (basic_body fuel c w).
Proof.
  intros Hf. unfold basic_body. pose proof (registered_holds [Primary] w) as Hh. set (T := registered [Primary] w) in *.
  destruct (conn_ready w); [apply basic_loop_spec; [by left|done|done]|].
  destruct (start_spec false (basic_pair c) Primary [Primary] T) as [(Hh1 & Hok & Hl) _];
    [apply basic_pair_pairs|set_solver|done|done|].
  destruct (start _ _ _ _) as [[e|u] T']; cbn [fst snd] in *; [by apply ends_ret|].
  apply basic_loop_spec; [done|done|]. change (world T) with w in Hl. lia.
Qed.
End Laws.

(** ** A scripted environment *)
Module PoolScript.

(** What the client sends, what the hybrid middleware has recorded and (as
    primary) still replays, the servers to be had and the results of the
    transactions, in order. *)
Record world := mkWorld {
  w_rx : list fpacket;
  w_buf : list fpacket;
  w_replay : option (list fpacket);
  w_ready : bool;
  w_servers : list nat;
  w_results : list errs
}.

Definition next_result (w : world) : errs * world :=
  match w_results w with
  | [] => ((None, None), w)
  | r :: l => (r, mkWorld (w_rx w) (w_buf w) (w_replay w) (w_ready w) (w_servers w) l)
  end.

Definition next_packet (w : world) : (error + fpacket) * world :=
  match w_replay w, w_rx w with
  | Some (p :: l), _ => (inr p, mkWorld (w_rx w) (w_buf w) (Some l) (w_ready w) (w_servers w) (w_results w))
  | _, [] => (inl EOF, w)
  | Some [], p :: l => (inr p, mkWorld l (w_buf w) (Some []) (w_ready w) (w_servers w) (w_results w))
  | None, p :: l => (inr p, mkWorld l (w_buf w ++ [p]) None (w_ready w) (w_servers w) (w_results w))
  end.

Definition next_server (w : world) : option nat * world :=
  match w_servers w with
  | [] => (None, w)
  | s :: l => (Some s, mkWorld (w_rx w) (w_buf w) (w_replay w) (w_ready w) l (w_results w))
  end.

#[global] Instance world_env : PoolEnv world := {|
  client_read := next_packet;
  client_write_ready w := (None, w);
  conn_ready := w_ready;
  set_conn_ready w := mkWorld (w_rx w) (w_buf w) (w_replay w) true (w_servers w) (w_results w);
  pool_empty _ w := (false, w);
  pool_acquire _ := next_server;
  pool_release _ _ w := w;
  pool_remove _ _ w := w;
  ps_sync _ w := ((None, None), w);
  ps_sync_middleware _ w := (None, w);
  initial_sync _ w := ((None, None), w);
  eqp_sync _ w := (None, w);
  eqp_sync_middleware _ w := (None, w);
  bounce _ _ := next_result;
  save_state w := w;
  m_primary w := mkWorld (w_rx w) (w_buf w) (Some (w_buf w)) (w_ready w) (w_servers w) (w_results w);
  m_reset w := mkWorld (w_rx w) [] None (w_ready w) (w_servers w) (w_results w)
|}.

Definition w_to_come (w : world) : nat :=
  2 * length (w_rx w) + match w_replay w with Some l => length l | None => length (w_buf w) end.
Definition w_replaying (w : world) : bool := match w_replay w with Some _ => true | None => false end.

#[global] Program Instance world_laws : PoolEnvLaws world := {|
  to_come := w_to_come;
  replaying := w_replaying
|}.
Next Obligation.
  intros [[|p rx] buf [[|q l]|] rd sv res]; unfold w_to_come, w_replaying; cbn; rewrite ?length_app; cbn; repeat split; lia.
Qed.
Next Obligation. by intros []. Qed.
Next Obligation. by intros []. Qed.
Next Obligation. by intros ? []. Qed.
Next Obligation. by intros ? [? ? ? ? [|]]. Qed.
Next Obligation. by intros ? ? []. Qed.
Next Obligation. by intros ? ? []. Qed.
Next Obligation. by intros ? []. Qed.
Next Obligation. by intros ? []. Qed.
Next Obligation. by intros ? []. Qed.
Next Obligation. by intros ? []. Qed.
Next Obligation. by intros ? []. Qed.
Next Obligation. by intros ? ? [? ? ? ? ? [|]]. Qed.
Next Obligation. by intros []. Qed.
Next Obligation. intros [? ? [l|] ? ? ?]; [done|]. unfold w_to_come. cbn. lia. Qed.
Next Obligation. intros [? ? [l|] ? ? ?]; unfold w_to_come; cbn; split; lia || done. Qed.

(** Two transactions; the first writes, so it moves from the replica (server
    1) to the primary (server 2); the second fails on server 3. *)
Definition q : fpacket := of_packet (PQuery [x51]).
Definition w0 : world :=
  mkWorld [q; q] [] None true [1; 2; 3] [(Some ErrReadOnly, None); (None, None); (None, Some EOF)].
End PoolScript.

(** ** Theorems *)
Module PoolTheorems.
Abbreviation both := [Primary; Replica].
Section Theorems.
Context {W : Type} `{PoolEnvLaws W}.

(** C20: Every server a basic pool acquires for a client is given back: serving a
    client ends when it hangs up, and on every path, errors included, each
    acquired server is used only while on loan and is then released, or removed
    if it failed, exactly once and before the next one is acquired. *)
Theorem basic_serve_gives_back (fuel : nat) (c : config) (w : W) :
  to_come w < fuel -> exists e T, basic_serve fuel c w = Ret (e, T) /\ lent None (plog T).
Proof.
  intros Hf. destruct (deferred_spec [Primary] (basic_body fuel c w) (basic_body_ends fuel c w Hf)) as (e & T & E & _ & _ & Hl).
  by do 2 eexists.
Qed.

Lemma hybrid_modes_give_back (fuel : nat) (w : W) :
  to_come w < fuel -> replaying w = false ->
  (exists e T, serveRW fuel w = Ret (e, T) /\ lent None (plog T)) /\
  (forall write, exists e T, serveOnly fuel write w = Ret (e, T) /\ lent None (plog T)).
Proof.
  intros Hf Hrep. split; [|intros write].
  - unfold serveRW. pose proof (registered_holds both w) as Hh. set (T := registered both w) in *.
    match goal with |- context [deferred both ?o] => enough (ends both o) as (e & T' & HT & _ & _ & Hl)%deferred_spec end.
    { exists e, T'. split; [exact HT|done]. }
    destruct (conn_ready w); [apply rw_loop_spec; [by left|done|done|done]|]. cbn zeta.
    destruct (empty_law Replica w) as [Hl0 Hr0]. change (world T) with w.
    destruct (pool_empty Replica w) as [em w']. cbn [fst snd] in *. set (T0 := set_world w' T).
    destruct (start_spec false pair (if em then Primary else Replica) both T0) as [(Hh1 & Hok & Hl) Hr];
      [apply pair_pairs|apply in_both|by apply holds_world|done|].
    destruct (start _ _ _ _) as [[e|u] T1]; cbn [fst snd] in *; [by apply ends_ret|].
    change (world T0) with w' in Hl, Hr. apply rw_loop_spec; [done|done|congruence|lia].
  - unfold serveOnly. set (sp := if write then Primary else Replica). cbn zeta.
    pose proof (registered_holds [sp] w) as Hh. set (T := registered [sp] w) in *.
    match goal with |- context [deferred [sp] ?o] => enough (ends [sp] o) as (e & T' & HT & _ & _ & Hl)%deferred_spec end.
    { exists e, T'. split; [exact HT|done]. }
    destruct (conn_ready w); [apply only_loop_spec; [by left|done|done]|].
    destruct (start_spec true pair sp [sp] T) as [(Hh1 & Hok & Hl) _]; [apply pair_pairs|set_solver|done|done|].
    destruct (start _ _ _ _) as [[e|u] T1]; cbn [fst snd] in *; [by apply ends_ret|].
    apply only_loop_spec; [done|done|]. change (world T) with w in Hl. lia.
Qed.

(** C21: The same for a hybrid pool: in the mode that the client asks for, and
    whatever it asks for, a client holds at most one server of the two pools at a
    time, also when a transaction moves from the replica to the primary, and every
    server goes back to the pool it came from. *)
Theorem hybrid_serve_gives_back (fuel : nat) (params : gmap gostring gostring) (w : W) :
  to_come w < fuel -> replaying w = false ->
  exists e T, hybrid_serve fuel params w = Ret (e, T) /\ lent None (plog T).
Proof.
  intros Hf Hr. destruct (hybrid_modes_give_back fuel w Hf Hr) as [Hrw Hon]. unfold hybrid_serve, hybrid_mode.
  destruct (decide (_ = list_byte_of_string "ro")); [exact (Hon false)|].
  destruct (decide (_ = list_byte_of_string "wo")); [exact (Hon true)|exact Hrw].
Qed.
End Theorems.

Lemma basic_serve_gives_back_witness :
  exists e T, basic_serve 5 (mkConfig SyncDynamic true true) PoolScript.w0 = Ret (e, T) /\ lent None (plog T).
Proof. apply basic_serve_gives_back. vm_compute. lia. Defined.

Lemma hybrid_serve_gives_back_witness :
  exists e T, hybrid_serve 5 {[ list_byte_of_string "hybrid.mode" := list_byte_of_string "wo" ]} PoolScript.w0 = Ret (e, T) /\ lent None (plog T).
Proof. apply hybrid_serve_gives_back; [vm_compute; lia|reflexivity]. Defined.

(** The loans of the run above. *)
Example hybrid_run :
  ofmap (fun r => (r.1, filter (fun e => is_note e = false) (plog r.2))) (serveRW 5 PoolScript.w0) =
  Ret (Some EOF,
       [Acquired Replica 1; Used 1 false; Used 1 false; Released Replica 1;
        Acquired Primary 2; Used 2 false; Used 2 false; Released Primary 2;
        Acquired Replica 3; Used 3 false; Used 3 true; Removed Replica 3]).
Proof. vm_compute. reflexivity. Qed.
End PoolTheorems.
