(* ===== verification/Cancel.v ===== *)
(** * Cancel: Pool.Cancel of pools/basic/pool.go and pools/hybrid/pool.go

    A cancel request names a client by its key.  The pool looks up the server
    that the client has recorded as its peer and has that server's query
    cancelled; the client's own goroutine meanwhile acquires, releases and
    records (Pools).  [listed], [peer_of] and [held_of] read these off a client's
    log: a Cancel that comes at some moment sees the log up to then, so a claim
    about every prefix of a log is one about a Cancel at any time. *)

From S2P Require Import Prelude.
From S2P Require Import Chan.
From S2P Require Import Metrics.
From S2P Require Import Wire.
From S2P Require Import Packets.
From S2P Require Import Fed.
From S2P Require Import Pools.

#[export] Instance BackendKey_eq_dec : EqDecision BackendKey.
Proof. solve_decision. Defined.
#[export] Instance BackendKey_countable : Countable BackendKey.
Proof.
  refine (inj_countable' (fun k => (ProcessID k, SecretKey k)) (fun p => mkKey p.1 p.2) _). by intros [].
Defined.

(** T.clients has the client. *)
Definition listed (l : list pev) : bool :=
  foldl (fun b e => match e with Listed => true | Unlisted => false | _ => b end) false l.

(** client.peer and client.peerIsReplica *)
Definition peer_of (l : list pev) : option nat * bool :=
  foldl (fun p e => match e with ClientState _ s r => (s, r) | _ => p end) (None, false) l.

(** The server on loan, with the pool it is from. *)
Definition held_of (l : list pev) : option (spool * nat) :=
  foldl (fun h e => match e with Acquired sp s => Some (sp, s) | Released _ _ | Removed _ _ => None | _ => h end) None l.

(** The clients of a pool, by key, as far as they are. *)
Definition clients := gmap BackendKey (list pev).

(** What T.clients[key] finds. *)
Definition lookup_client (T : clients) (key : BackendKey) : option (list pev) :=
  match T !! key with
  | Some l => if listed l then Some l else None
  | None => None
  end.

(** basic: the server that T.servers.Cancel is called with. *)
Definition basic_Cancel (T : clients) (key : BackendKey) : option nat :=
  match lookup_client T key with
  | Some l => (peer_of l).1
  | None => None
  end.

(** hybrid: the server, and the pool whose Cancel is called with it. *)
Definition hybrid_Cancel (T : clients) (key : BackendKey) : option (spool * nat) :=
  match lookup_client T key with
  | Some l =>
      match peer_of l with
      | (None, _) => None
      | (Some s, true) => Some (Replica, s)
      | (Some s, false) => Some (Primary, s)
      end
  | None => None
  end.

(** ** A basic pool cancels what the client holds *)

(** At this moment a peer is a server on loan. *)
Definition own_peer (l : list pev) : Prop := forall s, (peer_of l).1 = Some s -> held_of l = Some (Primary, s).

Definition always (P : list pev -> Prop) (l : list pev) : Prop := forall p, p `prefix_of` l -> P p.

Lemma always_snoc P l e : always P (l ++ [e]) <-> always P l /\ P (l ++ [e]).
Proof.
  split.
  - intros Ha. split; [|by apply Ha]. intros p Hp. apply Ha. by apply prefix_app_r.
  - intros [Ha Hl] p [k Hk]. destruct k as [|x k] using rev_ind; [rewrite app_nil_r in Hk; by subst|].
    rewrite app_assoc in Hk. apply app_inj_tail in Hk as [Hk _]. apply Ha. by exists k.
Qed.

Lemma peer_snoc l e : peer_of (l ++ [e]) = match e with ClientState _ s r => (s, r) | _ => peer_of l end.
Proof. unfold peer_of. by rewrite foldl_app. Qed.

Lemma held_snoc l e :
  held_of (l ++ [e]) = match e with Acquired sp s => Some (sp, s) | Released _ _ | Removed _ _ => None | _ => held_of l end.
Proof. unfold held_of. by rewrite foldl_app. Qed.

Section Tidy.
Context {W : Type} `{PoolEnv W}.

(** The log is tidy so far, and the variable says what is held. *)
Definition tidy (T : locals W) : Prop :=
  always own_peer (plog T) /\ held_of (plog T) = (fun s => (Primary, s)) <$> primary T.

Definition same_vars (T T' : locals W) : Prop := plog T' = plog T /\ primary T' = primary T.

Lemma tidy_same T T' : same_vars T T' -> tidy T -> tidy T'.
Proof. intros [El Ep]. unfold tidy. by rewrite El, Ep. Qed.

Lemma tidy_world w T : tidy T -> tidy (set_world w T).
Proof. by apply tidy_same. Qed.
Lemma tidy_err e T : tidy T -> tidy (set_err e T).
Proof. by apply tidy_same. Qed.

Lemma own_peer_now T : tidy T -> own_peer (plog T).
Proof. intros [Ha _]. by apply Ha. Qed.

(** Notes that name no other peer than the server that is held. *)
Definition proper (o : option nat) (e : pev) : Prop :=
  is_note e = true /\ match e with ClientState _ (Some s) _ => o = Some s | _ => True end.

Lemma tidy_emit l T : Forall (proper (primary T)) l -> tidy T -> tidy (emit l T).
Proof.
  intros Hl. revert T Hl. induction l as [|e l IH]; intros T Hl HT.
  { eapply tidy_same; [|exact HT]. split; [cbn; apply app_nil_r|done]. }
  apply Forall_cons in Hl as [[Hn He] Hl].
  eapply (tidy_same (emit l (emit [e] T))); [split; [cbn; by rewrite <- app_assoc|done]|].
  apply IH; [done|]. pose proof (own_peer_now T HT) as Ho. destruct HT as [Ha Hh]. unfold tidy. cbn [emit plog primary set_var set_world set_errs fst snd].
  assert (held_of (plog T ++ [e]) = held_of (plog T)) as Eh by (rewrite held_snoc; by destruct e).
  rewrite Eh. split; [|done]. apply always_snoc. split; [done|]. intros s. rewrite peer_snoc, Eh.
  destruct e as [| | | | | | | |st p r| | |]; try (apply Ho); try done.
  destruct p as [s'|]; [|done]. intros [= <-]. by rewrite Hh, He.
Qed.

Lemma tidy_none T : tidy T -> primary T = None -> (peer_of (plog T)).1 = None.
Proof.
  intros HT Hp. pose proof (own_peer_now T HT) as Ho. destruct HT as [_ Hh]. rewrite Hp in Hh.
  destruct (peer_of (plog T)).1 as [s|] eqn:E; [|done]. apply Ho in E. by rewrite Hh in E.
Qed.

Lemma tidy_acquire T o T' : acquire Primary T = (o, T') -> tidy T -> primary T = None -> tidy T' /\ primary T' = o.
Proof.
  unfold acquire. intros Ha HT Hp. pose proof (tidy_none T HT Hp) as Hn. destruct HT as [Hal Hh].
  destruct (pool_acquire Primary (world T)) as [[s|] w]; cbn in Ha; injection Ha as <- <-; unfold tidy; cbn [emit plog primary set_var set_world set_errs fst snd].
  - split; [|done]. split; [|by rewrite held_snoc]. apply always_snoc. split; [done|].
    intros s'. rewrite peer_snoc, Hn. done.
  - rewrite Hp in Hh. done.
Qed.

Lemma tidy_use f s T : tidy T -> tidy (use f s T) /\ primary (use f s T) = primary T.
Proof.
  intros HT. pose proof (own_peer_now T HT) as Ho. destruct HT as [Ha Hh]. split; [|done]. unfold tidy, use. cbn [emit plog primary set_var set_world set_errs fst snd].
  rewrite held_snoc. split; [|done]. apply always_snoc. split; [done|]. intros s'. rewrite peer_snoc, held_snoc. apply Ho.
Qed.

Lemma tidy_release T : tidy T -> tidy (release Primary (emit [ClientState ConnStateIdle None false] T)).
Proof.
  intros HT. apply (tidy_emit [ClientState ConnStateIdle None false]) in HT; [|by repeat constructor].
  set (T' := emit _ T) in *. assert (Hn : (peer_of (plog T')).1 = None) by (unfold T'; cbn [emit plog]; by rewrite peer_snoc). clearbody T'.
  unfold release. destruct (var Primary T') as [s|]; [|done]. destruct HT as [Ha Hh]. unfold tidy. cbn [emit plog primary set_var set_world set_errs fst snd].
  rewrite held_snoc. split; [|done]. apply always_snoc. split; [done|]. intros s'. by rewrite peer_snoc, Hn.
Qed.

Lemma tidy_basic_pair c s T : tidy T -> primary T = Some s -> tidy (basic_pair c s T) /\ primary (basic_pair c s T) = Some s.
Proof.
  intros HT Hp. unfold basic_pair, pairing.
  match goal with |- context [emit ?b T] => assert (Hb : Forall (proper (primary T)) b) end.
  { rewrite Hp. destruct (parameter_status_sync c), (ExtendedQuerySync c); by repeat constructor. }
  match goal with |- context [use ?f s (emit ?b T)] => destruct (tidy_use f s (emit b T) (tidy_emit b T Hb HT)) as [HT1 Hp1] end.
  cbn [emit primary] in Hp1. rewrite Hp in Hp1. destruct (_ || _); [done|]. split; [|done].
  apply tidy_emit; [|done]. rewrite Hp1. by repeat constructor.
Qed.

Lemma tidy_read T r T' : read T = (r, T') -> tidy T -> tidy T' /\ primary T' = primary T.
Proof.
  unfold read. destruct (client_read (world T)) as [[e|p] w]; intros [= <- <-] HT; (split; [by apply tidy_err, tidy_world|done]).
Qed.

Lemma tidy_bounced s packet T : tidy T -> tidy (bounced s packet T) /\ primary (bounced s packet T) = primary T.
Proof. intros HT. unfold bounced. destruct (_ || _); [done|]. by apply tidy_use. Qed.

Lemma tidy_count l T : Forall (proper (primary T)) l -> tidy T -> tidy (count l T).2.
Proof.
  intros Hl HT. unfold count. destruct (is_err (serverErr T)); [done|]. destruct (is_err _); by apply tidy_emit.
Qed.

Lemma tidy_start c T : tidy T -> primary T = None -> tidy (start false (basic_pair c) Primary T).2.
Proof.
  intros HT Hp. unfold start. destruct (acquire Primary _) as [[s|] T1] eqn:Ha;
    (apply tidy_acquire in Ha as [HT1 Hp1]; [|by apply tidy_emit; [repeat constructor|]|done]); [|done].
  destruct (tidy_basic_pair c s T1 HT1 Hp1) as [HT2 _]. set (T2 := basic_pair c s T1) in *. clearbody T2.
  destruct (is_err (serverErr T2)); [done|]. destruct (is_err (err T2)); [done|].
  destruct (is_err _); cbn [snd]; repeat (apply tidy_err || apply tidy_world); done.
Qed.

Lemma tidy_loop fuel c T e T' : basic_loop fuel c T = Ret (e, T') -> tidy T -> tidy T'.
Proof.
  revert T. induction fuel as [|fuel IH]; intros T; cbn [basic_loop]; [done|]. intros E HT.
  set (T0 := match primary T, ReleaseAfterTransaction c with
             | Some _, true => release Primary (emit [ClientState ConnStateIdle None false] T) | _, _ => T end) in E.
  assert (HT0 : tidy T0) by (unfold T0; destruct (primary T), (ReleaseAfterTransaction c); [by apply tidy_release|done..]).
  clearbody T0. destruct (read T0) as [[e1|packet] T1] eqn:Hr; apply tidy_read in Hr as [HT1 Hp1]; try done; [by injection E as <- <-|].
  assert (Hgo : forall s T2, tidy T2 -> match count [ClientDone; ServerDone s] (bounced s packet T2) with
      | (inl e, T) => Ret (e, T) | (inr _, T) => basic_loop fuel c T end = Ret (e, T') -> tidy T').
  { intros s T2 HT2 E2. destruct (tidy_bounced s packet T2 HT2) as [HT3 _].
    assert (HT4 : tidy (count [ClientDone; ServerDone s] (bounced s packet T2)).2) by (apply tidy_count; [by repeat constructor|done]).
    destruct (count _ _) as [[e4|u] T4]; [by injection E2 as <- <-|]. by eapply IH. }
  destruct (primary T1) as [s|] eqn:Hp; [exact (Hgo s T1 HT1 E)|].
  destruct (acquire Primary _) as [[s|] T2] eqn:Ha;
    (apply tidy_acquire in Ha as [HT2 Hp2]; [|by apply tidy_emit; [repeat constructor|]|done]); [|by injection E as <- <-].
  eapply Hgo; [|exact E]. by apply tidy_basic_pair.
Qed.

Lemma tidy_body fuel c w e T : basic_body fuel c w = Ret (e, T) -> tidy T.
Proof.
  assert (HT : tidy (registered [Primary] w)).
  { apply tidy_emit; [by repeat constructor|]. split; [|done]. intros p ->%prefix_nil_inv. by intros s. }
  unfold basic_body. destruct (conn_ready w); [intros E; by eapply tidy_loop|].
  pose proof (tidy_start c _ HT eq_refl) as HT1. destruct (start _ _ _ _) as [[e1|u] T1]; [by intros [= <- <-]|].
  intros E. by eapply tidy_loop.
Qed.
End Tidy.

(** ** Theorems *)
Module CancelTheorems.


Definition ex_key : BackendKey := mkKey 7 42.
Definition ex_config : config := mkConfig SyncDynamic true true.
(** A client in the middle of its first query. *)
Definition ex_log : list pev :=
  [Listed; Joined Primary; ClientState ConnStateAwaitingServer None false; Acquired Primary 1;
   ClientState ConnStatePairing (Some 1) false].


(** The clients of one pool: one, whose run is at step [n]. *)
Definition at_step {W} (n : nat) (o : outcome (option error * locals W)) : list pev :=
  match o with Ret r => take n (plog r.2) | _ => [] end.
Definition alone (l : list pev) : clients := {[ex_key := l]}.

(** A cancel request can go astray.  A hybrid pool releases a server before the
    client forgets it, so in between a request for this client is sent to a server
    that it no longer holds, and that may be at work for another client; the same
    happens in a basic pool when a client has hung up, until it is unlisted.  And
    the hybrid pool notes every server it pairs as a replica: for a client that
    holds a server of the primary (in mode wo, or if there are no replicas) the
    replicas' pool is asked, which does not know the server, so nothing is
    cancelled. *)
Theorem cancel_astray :
  (exists n, hybrid_Cancel (alone (at_step n (serveRW 5 PoolScript.w0))) ex_key = Some (Replica, 1) /\
     held_of (at_step n (serveRW 5 PoolScript.w0)) = None) /\
  (exists n, basic_Cancel (alone (at_step n (basic_serve 5 ex_config PoolScript.w0))) ex_key = Some 1 /\
     held_of (at_step n (basic_serve 5 ex_config PoolScript.w0)) = None) /\
  (exists n, hybrid_Cancel (alone (at_step n (serveOnly 5 true PoolScript.w0))) ex_key = Some (Replica, 1) /\
     held_of (at_step n (serveOnly 5 true PoolScript.w0)) = Some (Primary, 1)).
Proof.
  split; [exists 14; by vm_compute|]. split; [exists 13; by vm_compute|exists 6; by vm_compute].
Qed.
End CancelTheorems.
