(* ===== verification/Replay.v ===== *)
(** * Replay: lib/gat/handlers/pool/pools/hybrid/middleware.go, buffer.go

    A hybrid pool runs a transaction on a replica first and, if it turns out to
    write, again on the primary.  The middleware of the client's connection keeps
    what the client sent ([Buffer]) for the second run and holds back the answers
    to what is only repeated.

    [Middleware] has an encoder and a decoder (Wire) on one buffer: [buf] is the
    buffer, and both see it through a pointer ([on_enc], [on_dec]).  A packet
    that comes in is a value, or is still in the decoder of the connection it
    came from ([Pending]); a packet that the middleware gives out is pending in
    its own decoder. *)

From Stdlib Require Import Init.Byte Strings.Byte.
From S2P Require Import Prelude.
From S2P Require Import Wire.
From S2P Require Import Packets.
From S2P Require Import Perror.
From S2P Require Import Pools.

Local Open Scope Z_scope.
Local Open Scope go_scope.
Local Open Scope io_scope.

(** ** buffer.go *)
Module Buf.
Record Buffer := mkBuffer { buf : list byte; pos : nat }.

Definition Buffered (T : Buffer) : Z := Z.of_nat (length (buf T)) - Z.of_nat (pos T).
Definition Reset (T : Buffer) : Buffer := mkBuffer [] 0.
Definition ResetRead (T : Buffer) : Buffer := mkBuffer (buf T) 0.

#[export] Instance Read_ : Reader Buffer := fun T n =>
  if decide (Buffered T = 0) then (T, ([], Some EOF))
  else
    let bs := take n (drop (pos T) (buf T)) in
    (mkBuffer (buf T) (pos T + length bs), (bs, None)).

#[export] Instance Write_ : Writer Buffer := fun T b => (mkBuffer (buf T ++ b) (pos T), None).

(** [written] has the read position too, which writing leaves as it is. *)
#[export] Instance Write_laws : WriterLaws Buffer.
Proof.
  refine {| written := fun T => repeat x00 (pos T) ++ x01 :: buf T |}.
  intros w p w' [= <-]. cbn. by rewrite <- app_assoc.
Defined.

(** What [written] says. *)
Lemma written_inj T T' bs :
  written T' = written T ++ bs -> pos T' = pos T /\ buf T' = buf T ++ bs.
Proof.
  cbn. rewrite <- app_assoc. generalize (pos T) (pos T'). intros n. induction n as [|n IH]; intros [|m]; cbn;
    [by intros [=]|done..|]. intros [= E]. destruct (IH m E) as [-> ->]. done.
Qed.

#[export] Instance Read_laws : ReaderLaws Buffer.
Proof.
  refine {| stream := fun T => drop (pos T) (buf T) |}.
  - intros r n r' bs err. unfold Read, Read_. case_decide; intros [= <- <- <-]; len_lia.
  - intros r n r' bs err. unfold Read, Read_. case_decide; intros [= <- <- <-]; [done|]. cbn [pos buf].
    rewrite <- drop_drop. rewrite <- (take_drop n (drop (pos r) (buf r))) at 1. f_equal.
    rewrite length_take. destruct (decide (n <= length (drop (pos r) (buf r)))%nat) as [Hn|Hn].
    + by rewrite Nat.min_l by lia.
    + rewrite Nat.min_r by lia. by rewrite !drop_ge by lia.
  - intros r n r' bs err. unfold Read, Read_, Buffered. intros HR Hn Hs. revert HR.
    assert (0 < length (drop (pos r) (buf r)))%nat by (destruct (drop (pos r) (buf r)); [done|cbn; lia]).
    rewrite length_drop in *. rewrite decide_False by lia. intros [= <- <- <-]. split; [done|].
    intros E%(f_equal length). rewrite length_take, length_drop in E. cbn in E. lia.
Defined.

(** Nothing that is written to a buffer fails. *)
Lemma write_never_fails e : ~ writer_error (W := Buffer) e.
Proof. by intros (w & p & w' & [=]). Qed.
End Buf.
Import Buf.

(** ** middleware.go *)
Record Middleware := mkMiddleware {
  primary : bool;
  buf : Buffer;
  bufEnc : Enc.Encoder Buffer;
  bufDec : Dec.Decoder Buffer
}.

(** The encoder and the decoder with the buffer as it is. *)
Definition enc (T : Middleware) : Enc.Encoder Buffer :=
  Enc.mkEncoder (Enc.buffer (bufEnc T)) (buf T) (Enc.packetType (bufEnc T))
    (Enc.packetLength (bufEnc T)) (Enc.packetPos (bufEnc T)).
Definition dec (T : Middleware) : Dec.Decoder Buffer :=
  Dec.mkDecoder (Dec.pending (bufDec T)) (Dec.bufferRead (bufDec T)) (buf T) (Dec.packetType (bufDec T))
    (Dec.packetLength (bufDec T)) (Dec.packetPos (bufDec T)).
Definition set_enc (e : Enc.Encoder Buffer) (T : Middleware) : Middleware :=
  mkMiddleware (primary T) (Enc.writer e) e (bufDec T).
Definition set_dec (d : Dec.Decoder Buffer) (T : Middleware) : Middleware :=
  mkMiddleware (primary T) (Dec.reader d) (bufEnc T) d.

Definition on_enc {A} (m : io (Enc.Encoder Buffer) A) : io Middleware A := fun T =>
  let! r := m (enc T) in Ret (r.1, set_enc r.2 T).
Definition on_dec {A} (m : io (Dec.Decoder Buffer) A) : io Middleware A := fun T =>
  let! r := m (dec T) in Ret (r.1, set_dec r.2 T).

Definition NewMiddleware : Middleware :=
  let b := mkBuffer [] 0 in mkMiddleware false b (Enc.NewEncoder b) (Dec.NewDecoder b).

Definition Reset (T : Middleware) : Middleware :=
  let b := Buf.Reset (buf T) in
  mkMiddleware false b (Enc.Reset b (bufEnc T)) (Dec.Reset b (bufDec T)).

Definition Primary (T : Middleware) : Middleware :=
  let b := ResetRead (buf T) in
  mkMiddleware true b (bufEnc T) (Dec.Reset b (bufDec T)).

(** A fed.Packet: a value, or the packet that a decoder is at. *)
Inductive packet := Concrete (p : Packet) | Pending.

Section Packets.
Context {W : Type} `{Writer W} {R : Type} `{Reader R} (fuel : nat).

Definition Type_ (k : packet) (d : Dec.Decoder R) : byte :=
  match k with Concrete p => Packets.Type_ p | Pending => Dec.packetType d end.
Definition Length (k : packet) (d : Dec.Decoder R) : Z :=
  match k with Concrete p => Packets.Length p | Pending => Dec.packetLength d end.

(** packet.WriteTo(encoder) *)
Definition WriteTo (k : packet) : io (Enc.Encoder W * Dec.Decoder R) unit := fun s =>
  match k with
  | Concrete p => let! r := Packets.WriteTo p s.1 in Ret (r.1, (r.2, s.2))
  | Pending => Relay.WriteTo fuel s
  end.

(** [encoder.Next(packet.Type(), packet.Length()); packet.WriteTo(encoder)], as
    in netconncodec.Codec.WritePacket. *)
Definition send (k : packet) : io (Enc.Encoder W * Dec.Decoder R) unit := fun s =>
  ((fun s => let! r := Enc.Next (Type_ k s.2) (Length k s.2) s.1 in Ret (r.1, (r.2, s.2))) ;; WriteTo k) s.
End Packets.

Section Middleware.
Context {R : Type} `{Reader R} (fuel : nat).
Abbreviation state := (Middleware * Dec.Decoder R)%type.

Definition lift {A} (m : io Middleware A) : io state A := fun s =>
  let! r := m s.1 in Ret (r.1, (r.2, s.2)).

(** [PendingPacket{&T.bufDec}] or nil *)
Definition PreRead (typed : bool) : io Middleware bool := fun T =>
  if negb (primary T) then Ret (inr false, T)
  else if decide (Buffered (buf T) = 0 /\ Dec.Buffered (bufDec T) = 0%nat) then Ret (inr false, T)
  else (on_dec (Dec.Next fuel typed) ;; ret true) T.

(** What is returned: the packet given, or [PendingPacket{&T.bufDec}]. *)
Inductive out := Given | Own.

Definition ReadPacket (k : packet) : io state out := fun s =>
  if primary s.1 then Ret (inr Given, s)
  else
    ((fun s => let! r := send fuel k (enc s.1, s.2) in Ret (r.1, (set_enc r.2.1 s.1, r.2.2))) ;;
     lift (on_enc Enc.Flush) ;;
     (fun s => lift (on_dec (Dec.Next fuel (bool_decide (Type_ k s.2 <> x00)))) s) ;;
     ret Own) s.

(** fed.ToConcrete into a packets.MarkiplierResponse *)
Definition to_error (k : packet) : io state MarkiplierResponse.t := fun s =>
  match k with
  | Concrete (PMarkiplierResponse p) => Ret (inr p, s)
  | Concrete _ => Panic
  | Pending => let! r := MarkiplierResponse.ReadFrom fuel s.2 in Ret (r.1, (s.1, r.2))
  end.

Definition read_only (p : MarkiplierResponse.t) : bool :=
  existsb (fun field => bool_decide (field.1 = x43 /\ field.2 = ReadOnlySqlTransaction)) p.

Definition WritePacket (k : packet) : io state (option packet) := fun s =>
  if primary s.1 && bool_decide (0 < Buffered (buf s.1) \/ (0 < Dec.Buffered (bufDec s.1))%nat)
  then Ret (inr None, s)
  else if decide (Type_ k s.2 = MarkiplierResponse.Type_) then
    (do p <- to_error k;
     if read_only p then throw ErrReadOnly else ret (Some (Concrete (PMarkiplierResponse p)))) s
  else Ret (inr (Some k), s).
End Middleware.

(** ** What a decoder does to its reader

    Decoding only reads: it keeps whatever reading keeps. *)
Section Keeps.
Context {R : Type} `{Reader R} (P : R -> Prop) (HP : forall r n, P r -> P (Read r n).1) (fuel : nat).

Definition keeps {A} (m : io (Dec.Decoder R) A) : Prop :=
  forall T r T', P (Dec.reader T) -> m T = Ret (r, T') -> P (Dec.reader T').

Lemma keeps_pure {A} (f : Dec.Decoder R -> error + A) (g : Dec.Decoder R -> Dec.Decoder R) :
  (forall T, Dec.reader (g T) = Dec.reader T) -> keeps (fun T => Ret (f T, g T)).
Proof. intros Hg T r T' HT [= <- <-]. by rewrite Hg. Qed.

Lemma keeps_andthen {A B} (m : io _ A) (k : A -> io _ B) :
  keeps m -> (forall a, keeps (k a)) -> keeps (andthen m k).
Proof.
  intros Hm Hk T r T' HT. unfold andthen. destruct (m T) as [[q T1]| |] eqn:E; cbn; try done.
  destruct q as [e|a]; [intros [= <- <-]; by eapply Hm|]. intros E'. eapply Hk; [|done]. by eapply Hm.
Qed.

Lemma keeps_refill T : P (Dec.reader T) -> P (Dec.reader (Dec.refill T).2).
Proof.
  intros HT. unfold Dec.refill. case_decide; [done|].
  destruct (Read _ _) as [r' [bs err]] eqn:E. cbn. replace r' with (Read (Dec.reader T) (defaultBufferSize - Dec.bufferWrite T)).1 by (by rewrite E). by apply HP.
Qed.

Lemma keeps_read len T : P (Dec.reader T) -> P (Dec.reader (Dec.read len T).2).
Proof.
  intros HT. unfold Dec.read. repeat case_decide; [done..| |].
  - pose proof (HP (Dec.reader T) len HT). by destruct (Read _ _) as [r' [bs err]].
  - pose proof (keeps_refill T HT). by destruct (Dec.refill T).
Qed.

Lemma keeps_discard f n : keeps (Dec.discard_loop f n).
Proof.
  revert n. induction f as [|f IH]; intros [|n] T r T' HT; cbn [Dec.discard_loop]; [by intros [= <- <-]|done|by intros [= <- <-]|].
  assert (Hagain : forall m T1, P (Dec.reader T1) ->
    match Dec.refill T1 with (Some e, T) => Ret (inl e, T) | (None, T) => Dec.discard_loop f m T end = Ret (r, T') ->
    P (Dec.reader T')).
  { intros m T1 HT1 E. pose proof (keeps_refill T1 HT1) as Hr. destruct (Dec.refill T1) as [[e|] T2]; [by injection E as <- <-|].
    by eapply IH. }
  repeat case_decide; [by apply Hagain|by intros [= <- <-]|by apply Hagain].
Qed.

Lemma keeps_readFull len : keeps (Dec.readFull fuel len).
Proof.
  intros T r T' HT. unfold Dec.readFull. generalize (@nil byte) as acc. revert T HT.
  generalize fuel as f. induction f as [|f IH]; intros T HT acc; cbn [Dec.readFull_loop]; case_decide; cbn; try done;
    [by intros [= <- <-]| |by intros [= <- <-]].
  pose proof (keeps_read (len - length acc) T HT) as Hr. destruct (Dec.read _ T) as [[bs err] T1].
  destruct err as [e|]; [|by apply IH]. destruct e; cbn; by intros [= <- <-].
Qed.

Lemma keeps_Next typed : keeps (Dec.Next fuel typed).
Proof.
  unfold Dec.Next. apply keeps_andthen.
  - intros T r T' HT. unfold Dec.skip_rest. repeat case_decide; [by intros [= <- <-]|by apply keeps_discard|by intros [= <- <-]].
  - intros _. apply keeps_andthen; [|intros b; by apply keeps_pure].
    destruct typed; [apply keeps_readFull|]. apply keeps_andthen; [apply keeps_readFull|].
    intros b. by apply (keeps_pure (fun _ => inr (x00 :: b)) (fun T => T)).
Qed.

Lemma keeps_ReadPacket n d bs err d' :
  P (Dec.reader d) -> Dec.ReadPacket n d = Ret (bs, err, d') -> P (Dec.reader d').
Proof.
  intros Hd. unfold Dec.ReadPacket. gdecide; [by intros [= <- <- <-]|]. gdecide; [done|].
  match goal with |- context [Dec.read ?m d] => pose proof (keeps_read m d Hd) as Hk; destruct (Dec.read m d) as [[bs' err'] d1] end.
  by intros [= <- <- <-].
Qed.

Context {W : Type} `{Writer W}.

Lemma keeps_ReadFrom f n (e : Enc.Encoder W) d r s :
  P (Dec.reader d) -> Relay.ReadFrom_loop f n (e, d) = Ret (r, s) -> P (Dec.reader s.2).
Proof.
  revert n e d. induction f as [|f IH]; intros n e d Hd; cbn [Relay.ReadFrom_loop]; [done|].
  intros E. apply obind_Ret in E as ([[er|u] e1] & _ & E); cbn [fst snd] in E; [by injection E as <- <-|].
  apply obind_Ret in E as ([[bs err] d1] & Hx & E). apply keeps_ReadPacket in Hx; [|done].
  destruct err as [er|]; [|by eapply IH]. by destruct er; injection E as <- <-.
Qed.

Lemma keeps_WriteTo f (e : Enc.Encoder W) d r s :
  P (Dec.reader d) -> Relay.WriteTo f (e, d) = Ret (r, s) -> P (Dec.reader s.2).
Proof.
  revert e d. induction f as [|f IH]; intros e d Hd; cbn [Relay.WriteTo snd]; gdecide; try done; [by intros [= <- <-]| |by intros [= <- <-]].
  intros E. apply obind_Ret in E as ([q [e1 d1]] & Hx & E). unfold Relay.ReadFrom in Hx.
  apply keeps_ReadFrom in Hx; [|done]. cbn [snd] in Hx. cbn [fst snd] in E.
  destruct q as [er|m]; [by injection E as <- <-|]. exact (IH e1 d1 Hx E).
Qed.
End Keeps.

(** ** What is recorded and replayed *)

(** A packet on the wire. *)
Definition frame (typ : byte) (body : list byte) : list byte := header typ (zlen body) ++ body.

(** The body of a value. *)
Definition encode (p : Packet) : list byte :=
  match Packets.WriteTo p (Enc.NewEncoder (mkBuffer [] 0)) with
  | Ret (_, T) => Buf.buf (Enc.writer T) ++ Enc.buffer T
  | _ => []
  end.

Lemma encode_spec p : valid p ->
  emits (W := Buffer) (Packets.WriteTo p) (encode p) (Packets.Length p) /\ zlen (encode p) = Packets.Length p.
Proof.
  intros Hv. destruct (packet_all_ok (W := Buffer) (R := Buffer) 0 p Hv) as (bs & He & Hl & _).
  assert (encode p = bs) as ->; [|done]. unfold encode.
  destruct (He (Enc.NewEncoder (mkBuffer [] 0))) as (r & T & -> & _ & Hr); [unfold einv, defaultBufferSize; cbn; lia|].
  destruct r as [er|u]; [by apply write_never_fails in Hr|]. destruct Hr as (Hs & _). unfold sent in Hs.
  cbn [Enc.NewEncoder Enc.writer Enc.buffer] in Hs. rewrite app_nil_r in Hs. cbn in Hs.
  rewrite <- app_assoc in Hs. destruct (pos (Enc.writer T)) as [|n]; cbn in Hs; by injection Hs.
Qed.

(** [k], with [d] the decoder of a pending packet, is a packet of type [typ] with
    [body], none of it read yet. *)
Definition gives {R} `{ReaderLaws R} (k : packet) (d : Dec.Decoder R) (typ : byte) (body : list byte) : Prop :=
  match k with
  | Concrete p => valid p /\ typ = Packets.Type_ p /\ body = encode p
  | Pending => exists rest, dinv d /\ avail d = body ++ rest /\ Dec.packetType d = typ /\
      Dec.packetLength d = zlen body /\ Dec.packetPos d = 0
  end.

Section Send.
Context {R : Type} `{ReaderLaws R} (fuel : nat).

Lemma gives_header k (d : Dec.Decoder R) typ body : gives k d typ body -> Type_ k d = typ /\ Length k d = zlen body.
Proof.
  destruct k as [p|]; cbn; [intros (Hv & -> & ->); by split; [|symmetry; apply encode_spec]|].
  intros (rest & ? & ? & ? & ? & ?). done.
Qed.

(** Sending any packet whose WriteTo writes its body. *)
Lemma send_with {W} `{WriterLaws W} k (d : Dec.Decoder R) typ body (e : Enc.Encoder W) (Q : Dec.Decoder R -> Prop) :
  Type_ k d = typ -> Length k d = zlen body -> zlen body + 4 < 2 ^ 32 ->
  (forall e1, einv e1 -> exists r e2 d2, WriteTo fuel k (e1, d) = Ret (r, (e2, d2)) /\ einv e2 /\
     match r with
     | inl er => writer_error (W := W) er
     | inr _ => sent e2 = sent e1 ++ body /\ Enc.packetPos e2 = Enc.packetPos e1 + zlen body /\ same_packet e1 e2 /\ Q d2
     end) ->
  einv e -> Enc.packetPos e = Enc.packetLength e ->
  exists r e2 d2, send fuel k (e, d) = Ret (r, (e2, d2)) /\ einv e2 /\
    match r with
    | inl er => writer_error (W := W) er
    | inr _ => sent e2 = sent e ++ frame typ body /\ Enc.packetPos e2 = Enc.packetLength e2 /\ Q d2
    end.
Proof.
  intros Ht Hl Hmax Hw He Hp. unfold send, andthen. cbn [fst snd]. rewrite Ht, Hl.
  destruct (Enc_Next_spec e typ (zlen body) He Hp) as (r & e1 & -> & He1 & Hr); [unfold zlen; lia|done|].
  cbn [obind fst snd]. destruct r as [er|u]; [by eexists _, _, _|]. destruct Hr as (Hs1 & _ & Hl1 & Hp1).
  destruct (Hw e1 He1) as (r & e2 & d2 & -> & He2 & Hr). eexists _, _, _. split; [done|]. split; [done|].
  destruct r as [er|u']; [done|]. destruct Hr as (Hs2 & Hp2 & [_ Hl2] & HQ).
  split; [by rewrite Hs2, Hs1, <- app_assoc|]. split; [lia|done].
Qed.

Lemma send_pending {W} `{WriterLaws W} (d : Dec.Decoder R) typ body rest (e : Enc.Encoder W) :
  dinv d -> avail d = body ++ rest -> Dec.packetType d = typ -> Dec.packetLength d = zlen body -> Dec.packetPos d = 0 ->
  zlen body + 4 < 2 ^ 32 -> (length body < fuel)%nat -> einv e -> Enc.packetPos e = Enc.packetLength e ->
  exists r e2 d2, send fuel Pending (e, d) = Ret (r, (e2, d2)) /\ einv e2 /\
    match r with
    | inl er => writer_error (W := W) er
    | inr _ => sent e2 = sent e ++ frame typ body /\ Enc.packetPos e2 = Enc.packetLength e2 /\
        dinv d2 /\ avail d2 = rest /\ Dec.packetPos d2 = Dec.packetLength d2 /\ Dec.packetType d2 = typ
    end.
Proof.
  intros Hd Ha Ht Hl Hp0 Hmax Hf He Hp. apply (send_with Pending d typ body e
    (fun d2 => dinv d2 /\ avail d2 = rest /\ Dec.packetPos d2 = Dec.packetLength d2 /\ Dec.packetType d2 = typ)); [done..| |done|done].
  intros e1 He1. destruct (WriteTo_spec fuel body rest e1 d He1 Hd Ha) as (r & e2 & d2 & E & He2 & Hr); [unfold zlen in *; lia|done|].
  exists r, e2, d2. split; [exact E|]. split; [done|]. destruct r; [done|].
  destruct Hr as (? & ? & ? & ? & ? & ? & ?). split_and!; try done. congruence.
Qed.

(** The packets that a middleware records. *)
Lemma send_gives k (d : Dec.Decoder R) typ body (e : Enc.Encoder Buffer) :
  gives k d typ body -> zlen body + 4 < 2 ^ 32 -> (length body < fuel)%nat ->
  einv e -> Enc.packetPos e = Enc.packetLength e ->
  exists e2 d2, send fuel k (e, d) = Ret (inr tt, (e2, d2)) /\ einv e2 /\
    sent e2 = sent e ++ frame typ body /\ Enc.packetPos e2 = Enc.packetLength e2 /\ Type_ k d2 = typ.
Proof.
  intros Hg Hmax Hf He Hp. pose proof (gives_header _ _ _ _ Hg) as [Ht Hl].
  assert (exists r e2 d2, send fuel k (e, d) = Ret (r, (e2, d2)) /\ einv e2 /\
    match r with
    | inl er => writer_error (W := Buffer) er
    | inr _ => sent e2 = sent e ++ frame typ body /\ Enc.packetPos e2 = Enc.packetLength e2 /\ Type_ k d2 = typ
    end) as (r & e2 & d2 & E & He2 & Hr).
  { destruct k as [p|].
    - destruct Hg as (Hv & -> & ->). destruct (encode_spec p Hv) as [Hem Hlen].
      apply (send_with (Concrete p) d _ _ e (fun d2 => Packets.Type_ p = Packets.Type_ p)); [done..| |done|done].
      intros e1 He1. destruct (Hem e1 He1) as (r & e2 & Hw & He2 & Hr). eexists r, e2, d.
      split; [cbn; by rewrite Hw|]. split; [done|]. destruct r; [done|]. rewrite Hlen. by destruct Hr as (? & ? & ?).
    - destruct Hg as (rest & ? & ? & ? & ? & ?).
      destruct (send_pending d typ body rest e) as (r & e2 & d2 & E & He2 & Hr); [done..|].
      exists r, e2, d2. split; [done|]. split; [done|]. destruct r; [done|]. by destruct Hr as (? & ? & _ & _ & _ & ?). }
  destruct r as [er|[]]; [by apply write_never_fails in Hr|]. eauto 10.
Qed.
End Send.

(** *** The states of a middleware *)

(** The buffer has [bytes], the encoder has nothing left to write. *)
Definition kept (T : Middleware) (bytes : list byte) : Prop :=
  Buf.buf (buf T) = bytes /\ (pos (buf T) <= length bytes)%nat /\
  Enc.buffer (bufEnc T) = [] /\ Enc.packetPos (bufEnc T) = Enc.packetLength (bufEnc T).

(** The decoder is in a packet of which [cur] was not read yet; [rest] follows. *)
Definition at_packet (T : Middleware) (cur rest : list byte) : Prop :=
  dinv (dec T) /\ avail (dec T) = cur ++ rest /\ Dec.packetLength (bufDec T) = Dec.packetPos (bufDec T) + zlen cur.

Definition recording (T : Middleware) (bytes cur : list byte) : Prop :=
  primary T = false /\ kept T bytes /\ at_packet T cur [].

Definition replaying (T : Middleware) (bytes cur rest : list byte) : Prop :=
  primary T = true /\ kept T bytes /\ at_packet T cur rest.

(** What decoding keeps of the buffer. *)
Definition content (bytes : list byte) (b : Buffer) : Prop := Buf.buf b = bytes /\ (pos b <= length bytes)%nat.

Lemma content_Read bytes b n : content bytes b -> content bytes (Read b n).1.
Proof.
  intros [<- Hp]. unfold Read, Read_. case_decide; [done|]. split; [done|]. cbn [fst pos]. len_lia.
Qed.

Lemma kept_content T bytes : kept T bytes -> content bytes (buf T).
Proof. by intros (? & ? & _). Qed.

Lemma kept_set_dec T bytes d : kept T bytes -> content bytes (Dec.reader d) -> kept (set_dec d T) bytes.
Proof. by intros (_ & _ & ? & ?) [? ?]. Qed.

Lemma recording_new : recording NewMiddleware [] [].
Proof. split; [done|]. split; [done|]. split; [|done]. split; [cbn; unfold defaultBufferSize; lia|done]. Qed.

Lemma recording_Reset T bytes : kept T bytes -> recording (Reset T) [] [].
Proof.
  intros (_ & _ & _ & ?). split; [done|]. split; [done|]. split; [|done].
  split; [cbn; unfold defaultBufferSize; lia|done].
Qed.

Lemma replaying_Primary T bytes : kept T bytes -> replaying (Primary T) bytes [] bytes.
Proof.
  intros (<- & _ & ? & ?). split; [done|]. split; [split_and!; try done; cbn; lia|].
  split; [split; [cbn; unfold defaultBufferSize; lia|done]|]. by split.
Qed.

(** Whether anything is left to read. *)
Lemma buffered_avail T bytes : kept T bytes ->
  Buffered (buf T) = Z.of_nat (length (drop (pos (buf T)) bytes)) /\
  Dec.Buffered (bufDec T) = length (Dec.pending (dec T)) /\
  avail (dec T) = Dec.pending (dec T) ++ drop (pos (buf T)) bytes.
Proof.
  intros (<- & Hp & _). unfold Buffered, Dec.Buffered, Dec.bufferWrite. rewrite length_drop. split_and!; [lia| |done].
  cbn [dec Dec.pending]. lia.
Qed.

Lemma drained T bytes cur rest : kept T bytes -> at_packet T cur rest ->
  (Buffered (buf T) = 0 /\ Dec.Buffered (bufDec T) = 0%nat <-> cur ++ rest = []) /\
  (0 < Buffered (buf T) \/ (0 < Dec.Buffered (bufDec T))%nat <-> cur ++ rest <> []).
Proof.
  intros Hk (_ & <- & _). destruct (buffered_avail T bytes Hk) as (-> & -> & ->).
  generalize (Dec.pending (dec T)) (drop (pos (buf T)) bytes). intros p s.
  assert (p ++ s = [] <-> (length p = 0 /\ length s = 0)%nat) as ->.
  { rewrite app_nil. destruct p, s; cbn; naive_solver lia. }
  split; lia.
Qed.

Section Spec.
Context {R : Type} `{ReaderLaws R} (fuel : nat).

(** Next of the decoder, in the middleware. *)
Lemma on_dec_Next T bytes cur typ body more :
  kept T bytes -> at_packet T cur (frame typ body ++ more) -> typ <> x00 -> zlen body + 4 < 2 ^ 32 -> (length cur + 5 < fuel)%nat ->
  exists T', on_dec (Dec.Next fuel true) T = Ret (inr tt, T') /\ kept T' bytes /\ at_packet T' body more /\
    primary T' = primary T /\ Dec.packetType (bufDec T') = typ /\ Dec.packetLength (bufDec T') = zlen body /\ Dec.packetPos (bufDec T') = 0.
Proof.
  intros Hk (Hd & Ha & Hl) Ht Hmax Hf. unfold frame in Ha. rewrite <- app_assoc in Ha.
  destruct (Dec_Next_spec fuel cur typ (zlen body) (body ++ more) (dec T) Hd Ha Hl) as (d & E & Hd' & Ha' & Ht' & Hl' & Hp');
    [unfold zlen; lia|done|done|].
  rewrite bool_decide_true in E by done. unfold on_dec. rewrite E. cbn [obind fst snd]. eexists. split; [done|].
  split; [apply kept_set_dec; [done|]; apply (keeps_Next (content bytes) (content_Read bytes) fuel true (dec T) (inr tt) d); [by apply kept_content|exact E]|].
  split; [|done]. destruct d. split; [done|]. split; [done|]. cbn in *. lia.
Qed.

(** A packet that is read is recorded, and handed out from the buffer. *)
Lemma mw_ReadPacket_spec T bytes cur k (d : Dec.Decoder R) typ body :
  recording T bytes cur -> gives k d typ body -> typ <> x00 -> zlen body + 4 < 2 ^ 32 ->
  (length cur + 5 < fuel)%nat -> (length body < fuel)%nat ->
  exists T' d', ReadPacket fuel k (T, d) = Ret (inr Own, (T', d')) /\ recording T' (bytes ++ frame typ body) body /\
    Dec.packetType (bufDec T') = typ /\ Dec.packetLength (bufDec T') = zlen body /\ Dec.packetPos (bufDec T') = 0.
Proof.
  intros (Hpr & (<- & Hpos & Hb & Hpp) & (Hd & Ha & Hl)) Hg Ht Hmax Hf1 Hf2. unfold ReadPacket. cbn [fst snd]. rewrite Hpr.
  destruct (send_gives fuel k d typ body (enc T) Hg) as (e & d2 & Es & He & Hs & Hp & Hty); [done|done| |done|].
  { unfold einv. cbn. rewrite Hb. cbn. lia. }
  unfold andthen. cbn [fst snd]. rewrite Es. cbn [obind fst snd].
  unfold lift, on_enc. cbn [fst snd].
  assert (enc (set_enc e T) = e) as Ee by (by destruct e). rewrite Ee.
  destruct (Flush_spec e He) as (r & e1 & -> & Hb1 & Hr). cbn [obind fst snd].
  destruct r as [er|u]; [by apply write_never_fails in Hr|]. destruct Hr as (Hs1 & Hp1 & _ & Hl1).
  assert (pos (Enc.writer e1) = pos (buf T) /\ Buf.buf (Enc.writer e1) = Buf.buf (buf T) ++ frame typ body) as [Hpos1 Hbuf1].
  { apply written_inj. unfold sent in Hs, Hs1. cbn [enc Enc.writer Enc.buffer] in Hs. rewrite Hb, app_nil_r in Hs.
    rewrite <- Hs, <- Hs1. rewrite Hb1. by rewrite app_nil_r. }
  set (T1 := set_enc e1 (set_enc e T)). rewrite Hty, bool_decide_true by done.
  destruct (on_dec_Next T1 (Buf.buf (buf T) ++ frame typ body) cur typ body []) as (T2 & E2 & Hk2 & Ha2 & Hpr2 & ? & ? & ?); [| |done..|].
  - split; [exact Hbuf1|]. split; [cbn; rewrite Hpos1; len_lia|]. split; [exact Hb1|]. cbn. congruence.
  - split; [exact Hd|]. split; [|exact Hl]. rewrite app_nil_r. rewrite app_nil_r in Ha. rewrite <- Ha. unfold avail, T1, dec.
    cbn [Dec.pending Dec.reader bufDec buf set_enc stream Read_laws]. rewrite Hpos1, Hbuf1, drop_app_le by lia. by rewrite app_assoc.
  - rewrite E2. cbn. eexists _, _. split; [done|]. split; [|done]. by split; [rewrite Hpr2|].
Qed.

Lemma PreRead_spec T bytes cur typ body more :
  replaying T bytes cur (frame typ body ++ more) -> typ <> x00 -> zlen body + 4 < 2 ^ 32 -> (length cur + 5 < fuel)%nat ->
  exists T', PreRead fuel true T = Ret (inr true, T') /\ replaying T' bytes body more /\
    Dec.packetType (bufDec T') = typ /\ Dec.packetLength (bufDec T') = zlen body /\ Dec.packetPos (bufDec T') = 0.
Proof.
  intros (Hp & Hk & Ha) Ht Hmax Hf. unfold PreRead. rewrite Hp. cbn [negb].
  rewrite decide_False.
  - destruct (on_dec_Next T bytes cur typ body more) as (T' & E & ? & ? & ? & ?); [done..|]. unfold andthen. rewrite E. cbn.
    exists T'. split; [done|]. split; [|done]. split; [congruence|done].
  - destruct (drained _ _ _ _ Hk Ha) as [-> _]. intros E%(f_equal length). unfold frame, header in E.
    rewrite !length_app, length_be in E. cbn in E. lia.
Qed.

Lemma PreRead_end T bytes : replaying T bytes [] [] -> PreRead fuel true T = Ret (inr false, T).
Proof.
  intros (Hp & Hk & Ha). unfold PreRead. rewrite Hp. cbn [negb]. rewrite decide_True; [done|]. by apply (drained _ _ _ _ Hk Ha).
Qed.

(** While anything is left to repeat, the client is told nothing. *)
Lemma WritePacket_swallows T bytes cur rest k (d : Dec.Decoder R) :
  replaying T bytes cur rest -> cur ++ rest <> [] -> WritePacket fuel k (T, d) = Ret (inr None, (T, d)).
Proof.
  intros (Hp & Hk & Ha) Hne. unfold WritePacket. cbn [fst]. rewrite Hp, bool_decide_true; [done|]. by apply (drained _ _ _ _ Hk Ha).
Qed.

(** Execute has the type of an error, but no client is sent one. *)
Definition for_client (p : Packet) : Prop := match p with PExecute _ => False | _ => True end.

(** Afterwards, and on a replica, it is told everything but that a transaction
    is read only. *)
Lemma WritePacket_passes T p (d : Dec.Decoder R) :
  (primary T = false \/ exists bytes, replaying T bytes [] []) -> for_client p ->
  WritePacket fuel (Concrete p) (T, d) =
    Ret (if match p with PMarkiplierResponse l => read_only l | _ => false end
         then inl ErrReadOnly else inr (Some (Concrete p)), (T, d)).
Proof.
  intros HT Hc. unfold WritePacket. cbn [fst snd].
  assert (primary T && bool_decide (0 < Buffered (buf T) \/ (0 < Dec.Buffered (bufDec T))%nat) = false) as ->.
  { destruct HT as [->|(bytes & Hp & Hk & Ha)]; [done|]. rewrite bool_decide_false; [by destruct (primary T)|].
    destruct (drained _ _ _ _ Hk Ha) as [_ ->]. by intros []. }
  destruct p; try done. cbn. unfold andthen. cbn. by destruct (read_only p).
Qed.
End Spec.

(** *** A transaction and its repetition *)
Section Runs.
Context {R : Type} `{ReaderLaws R} {W : Type} `{WriterLaws W} (fuel : nat).

(** Writing [PendingPacket{&T.bufDec}] to a server. *)
Definition forward : io (Middleware * Enc.Encoder W) unit := fun s =>
  let! r := send fuel Pending (s.2, dec s.1) in Ret (r.1, (set_dec r.2.2 s.1, r.2.1)).

(** The client's packets, each with the decoder it comes from, are read through
    the middleware and relayed to a server. *)
Fixpoint run_replica (l : list (packet * Dec.Decoder R)) : io (Middleware * Enc.Encoder W) unit :=
  match l with
  | [] => ret tt
  | (k, d) :: l =>
      (fun s =>
         let! r := ReadPacket fuel k (s.1, d) in
         match r.1 with
         | inl e => Ret (inl e, (r.2.1, s.2))
         | inr Own => forward (r.2.1, s.2)
         | inr Given => let! q := send fuel k (s.2, r.2.2) in Ret (q.1, (r.2.1, q.2.1))
         end) ;;
      run_replica l
  end.

(** [n] packets are read from the middleware alone and relayed to a server. *)
Fixpoint run_primary (n : nat) : io (Middleware * Enc.Encoder W) unit :=
  match n with
  | O => ret tt
  | S n =>
      (fun s =>
         let! r := PreRead fuel true s.1 in
         match r.1 with
         | inl e => Ret (inl e, (r.2, s.2))
         | inr true => forward (r.2, s.2)
         | inr false => Ret (inl EOF, (r.2, s.2))
         end) ;;
      run_primary n
  end.

Definition raw := (byte * list byte)%type.
Definition frames (l : list raw) : list byte := concat ((fun p => frame p.1 p.2) <$> l).
Definition raw_ok (p : raw) : Prop := p.1 <> x00 /\ zlen p.2 + 4 < 2 ^ 32 /\ (length p.2 + 5 < fuel)%nat.

Lemma forward_spec T bytes typ body more (e : Enc.Encoder W) :
  kept T bytes -> at_packet T body more -> raw_ok (typ, body) ->
  Dec.packetType (bufDec T) = typ -> Dec.packetLength (bufDec T) = zlen body -> Dec.packetPos (bufDec T) = 0 ->
  einv e -> Enc.packetPos e = Enc.packetLength e ->
  exists r T' e', forward (T, e) = Ret (r, (T', e')) /\ primary T' = primary T /\
    match r with
    | inl er => writer_error (W := W) er
    | inr _ => sent e' = sent e ++ frame typ body /\ einv e' /\ Enc.packetPos e' = Enc.packetLength e' /\
        kept T' bytes /\ at_packet T' [] more
    end.
Proof.
  intros Hk (Hd & Ha & _) (_ & Hmax & Hf) Ht Hl Hp He Hpe. cbn [fst snd] in *. unfold forward. cbn [fst snd].
  destruct (send_pending fuel (dec T) typ body more e) as (r & e' & d' & E & He' & Hr); [done..|lia|done|done|].
  rewrite E. cbn [obind fst snd]. exists r, (set_dec d' T), e'. split; [done|]. split; [done|].
  destruct r as [er|u]; [done|]. destruct Hr as (? & ? & Hd' & Ha' & Hp' & _). split_and!; try done.
  - apply kept_set_dec; [done|]. unfold send, andthen in E.
    apply obind_Ret in E as ([q [e1 d1]] & E1 & E). apply obind_Ret in E1 as ([q1 e2] & _ & [= <- <- <-]). cbn [fst snd] in E.
    destruct q1 as [er|u1]; [done|].
    apply (keeps_WriteTo (content bytes) (content_Read bytes)) in E; [exact E|by apply kept_content].
  - destruct d'. split; [exact Hd'|]. split; [done|]. cbn [set_dec bufDec]. rewrite Hp'. unfold zlen. cbn. lia.
Qed.

Lemma run_replica_spec l ps T bytes (e : Enc.Encoder W) :
  Forall2 (fun s p => gives s.1 s.2 p.1 p.2) l ps -> Forall raw_ok ps ->
  recording T bytes [] -> einv e -> Enc.packetPos e = Enc.packetLength e ->
  exists r T' e', run_replica l (T, e) = Ret (r, (T', e')) /\
    match r with
    | inl er => writer_error (W := W) er
    | inr _ => sent e' = sent e ++ frames ps /\ recording T' (bytes ++ frames ps) []
    end.
Proof.
  intros Hl Hok. revert T bytes e. induction Hl as [|[k d] [typ body] l ps Hg _ IH]; intros T bytes e HT He Hp; cbn [run_replica].
  { exists (inr tt), T, e. split; [done|]. unfold frames. cbn. by rewrite !app_nil_r. }
  apply Forall_cons in Hok as [Hb Hok]. pose proof Hb as (Ht & Hmax & Hf). cbn [fst snd] in *.
  destruct (mw_ReadPacket_spec fuel T bytes [] k d typ body) as (T1 & d1 & E1 & (Hpr1 & Hk1 & Ha1) & ? & ? & ?); [done..|cbn; lia|lia|].
  destruct (forward_spec T1 (bytes ++ frame typ body) typ body [] e) as (r & T2 & e2 & E2 & Hpr2 & Hr); [done..|].
  unfold andthen. cbn [fst snd]. rewrite E1. cbn [obind fst snd]. rewrite E2. cbn [obind fst snd].
  destruct r as [er|u]; [by eexists _, _, _|]. destruct Hr as (Hs2 & He2 & Hp2 & Hk2 & Ha2).
  destruct (IH Hok T2 (bytes ++ frame typ body) e2) as (r' & T' & e' & -> & Hr'); [split; [congruence|done]|done|done|].
  exists r', T', e'. split; [done|]. destruct r'; [done|]. destruct Hr' as [-> Hr']. rewrite Hs2, <- !app_assoc in *. done.
Qed.

Lemma run_primary_spec ps T bytes more (e : Enc.Encoder W) :
  Forall raw_ok ps -> replaying T bytes [] (frames ps ++ more) -> einv e -> Enc.packetPos e = Enc.packetLength e ->
  exists r T' e', run_primary (length ps) (T, e) = Ret (r, (T', e')) /\
    match r with
    | inl er => writer_error (W := W) er
    | inr _ => sent e' = sent e ++ frames ps /\ replaying T' bytes [] more
    end.
Proof.
  intros Hok. revert T e. induction Hok as [|[typ body] ps Hb _ IH]; intros T e HT He Hp; cbn [length run_primary].
  { exists (inr tt), T, e. split; [done|]. unfold frames. cbn. by rewrite app_nil_r. }
  pose proof Hb as (Ht & Hmax & Hf). cbn [fst snd] in *. unfold frames in HT. cbn in HT. rewrite <- app_assoc in HT.
  destruct (PreRead_spec fuel T bytes [] typ body _ HT) as (T1 & E1 & (Hpr1 & Hk1 & Ha1) & ? & ? & ?); [done..|cbn; lia|].
  destruct (forward_spec T1 bytes typ body _ e Hk1 Ha1) as (r & T2 & e2 & E2 & Hpr2 & Hr); [done..|].
  unfold andthen. cbn [fst snd]. rewrite E1. cbn [obind fst snd]. rewrite E2. cbn [obind fst snd].
  destruct r as [er|u]; [by eexists _, _, _|]. destruct Hr as (Hs2 & He2 & Hp2 & Hk2 & Ha2).
  destruct (IH T2 e2) as (r' & T' & e' & -> & Hr'); [split; [congruence|done]|done|done|].
  exists r', T', e'. split; [done|]. destruct r'; [done|]. destruct Hr' as [-> Hr']. by rewrite Hs2, <- !app_assoc.
Qed.
End Runs.

(** ** Theorems *)
Module ReplayTheorems.
Section Theorems.
Context {R : Type} `{ReaderLaws R} {W : Type} `{WriterLaws W} (fuel : nat).


(** A client is not told of the parameters of the primary: serveRW switches to
    the primary, reads the first packet again and pairs the client with the
    server before the packet is relayed; unless the packet is empty its body
    still counts as something to repeat, so every ParameterStatus that the
    pairing writes is dropped. *)
Theorem primary_pairing_silenced T bytes k (d : Dec.Decoder R) typ body :
  kept T bytes -> gives k d typ body -> raw_ok fuel (typ, body) -> body <> [] ->
  exists T1 d1 T2, ReadPacket fuel k (Reset T, d) = Ret (inr Own, (T1, d1)) /\
    PreRead fuel true (Primary T1) = Ret (inr true, T2) /\
    forall k' (d' : Dec.Decoder R), WritePacket fuel k' (T2, d') = Ret (inr None, (T2, d')).
Proof.
  intros Hk Hg (Ht & Hmax & Hf) Hb. cbn [fst snd] in *.
  destruct (mw_ReadPacket_spec fuel (Reset T) [] [] k d typ body) as (T1 & d1 & E1 & (_ & Hk1 & _) & _);
    [by eapply recording_Reset|done..|cbn; lia|lia|].
  pose proof (replaying_Primary T1 _ Hk1) as HP. cbn [app] in HP.
  destruct (PreRead_spec fuel (Primary T1) (frame typ body) [] typ body []) as (T2 & E2 & HT2 & _);
    [by rewrite app_nil_r|done..|cbn; lia|].
  exists T1, d1, T2. split; [done|]. split; [done|]. intros k' d'. eapply WritePacket_swallows; [exact HT2|]. by rewrite app_nil_r.
Qed.
End Theorems.


(** A query as a value, and one of which the connection has read only a part. *)
Definition ex_decoder : Dec.Decoder chunked := Dec.mkDecoder [x61] 0 (mkChunked 1 [x62; x63; x53]) x51 3 0.
Definition ex_sources : list (packet * Dec.Decoder chunked) := [(Concrete (PQuery [x53; x31]), ex_decoder); (Pending, ex_decoder)].
Definition ex_raw : list raw := [(x51, [x53; x31; x00]); (x51, [x61; x62; x63])].
Definition ex_enc : Enc.Encoder (list byte) := Enc.NewEncoder [].

Lemma ex_gives : Forall2 (fun s p => gives s.1 s.2 p.1 p.2) ex_sources ex_raw.
Proof.
  repeat constructor.
  - apply (bool_decide_unpack _). vm_compute. exact I.
  - exists [x53]. split_and!; [split; [apply Nat.leb_le; vm_compute; reflexivity|done]|reflexivity..].
Qed.

Lemma ex_kept : kept NewMiddleware [].
Proof. by split_and!. Qed.


Lemma primary_pairing_silenced_witness :
  exists T1 d1 T2, ReadPacket 100 Pending (Reset NewMiddleware, ex_decoder) = Ret (inr Own, (T1, d1)) /\
    PreRead 100 true (Primary T1) = Ret (inr true, T2) /\
    forall k' (d' : Dec.Decoder chunked), WritePacket 100 k' (T2, d') = Ret (inr None, (T2, d')).
Proof.
  apply (primary_pairing_silenced 100 NewMiddleware [] Pending ex_decoder x51 [x61; x62; x63]); [apply ex_kept| |repeat split; cbn; try done; lia|done].
  pose proof ex_gives as Hg. inversion_clear Hg as [|? ? ? ? _ Hg']. by inversion_clear Hg'.
Defined.

(** The client begins a read only transaction, and means it: the replica and then
    the primary answer that a statement writes.  It has another query to send. *)
Definition ex_world : PoolScript.world :=
  PoolScript.mkWorld [PoolScript.q; PoolScript.q] [] None true [1; 2; 3]%nat [(Some ErrReadOnly, None); (Some ErrReadOnly, None)].
Definition ex_error : MarkiplierResponse.t := [(x53, FATAL); (x43, ReadOnlySqlTransaction)].

(** A client that is told that its transaction is read only loses its
    connection: also on the primary, where there is no other server to try,
    WritePacket turns the server's error into ErrReadOnly instead of passing it
    on, and serveRW returns it, with packets of the client still to come. *)
Theorem read_only_ends_session :
  (forall {R} `{ReaderLaws R} fuel T bytes (d : Dec.Decoder R), replaying T bytes [] [] ->
     WritePacket fuel (Concrete (PMarkiplierResponse ex_error)) (T, d) = Ret (inl ErrReadOnly, (T, d))) /\
  (exists T, serveRW 5 ex_world = Ret (Some ErrReadOnly, T) /\ PoolScript.w_rx (world T) = [PoolScript.q]).
Proof.
  split.
  - intros R ? ? fuel T bytes d HT. rewrite WritePacket_passes; [by vm_compute|right; by eexists|done].
  - eexists. split; [vm_compute; reflexivity|reflexivity].
Qed.
End ReplayTheorems.
