(* ===== verification/Mio.v ===== *)
(** * Mio: lib/util/mio

    Connections in memory: [Pipe] is ReadWriteCloser, [Conn] two of them, with an
    end on each side; [Listener] accepts them.

    A method holds the mutex, except that waiting for the condition variable
    releases it: [Read] and [Accept] then return [Wait] and are tried again when
    they have been woken.  [PSys] and [LSys] interleave any number of calls:
    [parked] ones wait for a signal, [woken] ones have got it.  Times are
    integers; the time of a call is an argument. *)

From Stdlib Require Import Init.Byte Strings.Byte ZArith.
From S2P Require Import Prelude.
From S2P Require Import Ring.
From S2P Require Import Wire.

Local Open Scope Z_scope.
Local Open Scope go_scope.

Definition ErrClosed : error := ErrOther 40.          (* net.ErrClosed *)
Definition DeadlineExceeded : error := ErrOther 41.   (* context.DeadlineExceeded *)
Definition ErrAddressInUse : error := ErrOther 42.
Definition ErrAddressNotFound : error := ErrOther 43.

(** ** ReadWriteCloser *)
Module Pipe.
(** A zero time.Time is [None]; a timer is the time it fires at. *)
Record Pipe := mkPipe {
  buf : list byte;
  closed : bool;
  readDeadline : option Z;
  readDeadlineTimer : option Z;
  writeDeadline : option Z
}.

Definition new : Pipe := mkPipe [] false None None None.

Definition passed (deadline : option Z) (now : Z) : bool :=
  match deadline with Some d => d <? now | None => false end.

Inductive attempt :=
| Got (bs : list byte)
| Failed (e : error)
| Wait.

(** From the top of the loop to its end or to T.r.Wait. *)
Definition Read (len : nat) (now : Z) (T : Pipe) : attempt * Pipe :=
  match buf T with
  | [] =>
      if closed T then (Failed EOF, T)
      else if passed (readDeadline T) now then (Failed DeadlineExceeded, T)
      else (Wait, T)
  | _ =>
      (Got (take len (buf T)), mkPipe (drop len (buf T)) (closed T) (readDeadline T) (readDeadlineTimer T) (writeDeadline T))
  end.

(** Without an error it ends with a broadcast; so does Close. *)
Definition Write (b : list byte) (now : Z) (T : Pipe) : option error * Pipe :=
  if closed T then (Some ErrClosed, T)
  else if passed (writeDeadline T) now then (Some DeadlineExceeded, T)
  else (None, mkPipe (buf T ++ b) (closed T) (readDeadline T) (readDeadlineTimer T) (writeDeadline T)).

Definition Close (T : Pipe) : option error * Pipe :=
  if closed T then (Some ErrClosed, T)
  else (None, mkPipe (buf T) true (readDeadline T) None (writeDeadline T)).

Definition setReadDeadline (t : option Z) (T : Pipe) : option error * Pipe :=
  if closed T then (Some ErrClosed, T)
  else (None, mkPipe (buf T) (closed T) (readDeadline T) t (writeDeadline T)).

Definition setWriteDeadline (t : option Z) (T : Pipe) : option error * Pipe :=
  (None, mkPipe (buf T) (closed T) (readDeadline T) (readDeadlineTimer T) t).

Definition SetDeadline (t : option Z) (T : Pipe) : option error * Pipe :=
  match setReadDeadline t T with
  | (Some e, T) => (Some e, T)
  | (None, T) => setWriteDeadline t T
  end.

(** The timer fires: readDeadlineExceeded only broadcasts. *)
Definition fire (T : Pipe) : Pipe := mkPipe (buf T) (closed T) (readDeadline T) None (writeDeadline T).

(** *** Any number of callers *)
Record PSys := mkPSys {
  pipe : Pipe;
  parked : list nat;          (* Reads in T.r.Wait, by the length of their buffer *)
  woken : list nat;           (* Reads that have been signalled *)
  written : list byte;        (* ghost: all that Write accepted *)
  delivered : list byte;      (* ghost: all that Read returned *)
  failures : list error       (* ghost: the errors of Read *)
}.

Definition PInit (s : PSys) : Prop := s = mkPSys new [] [] [] [] [].

(** What a Read does, with the calls [ws] woken before it. *)
Definition attempted (len : nat) (now : Z) (ws : list nat) (s : PSys) : PSys :=
  match Read len now (pipe s) with
  | (Got bs, p) => mkPSys p (parked s) ws (written s) (delivered s ++ bs) (failures s)
  | (Failed e, p) => mkPSys p (parked s) ws (written s) (delivered s) (failures s ++ [e])
  | (Wait, p) => mkPSys p (len :: parked s) ws (written s) (delivered s) (failures s)
  end.

Definition broadcast (p : Pipe) (w : list byte) (s : PSys) : PSys :=
  mkPSys p [] (woken s ++ parked s) (written s ++ w) (delivered s) (failures s).

Definition quiet (p : Pipe) (s : PSys) : PSys := mkPSys p (parked s) (woken s) (written s) (delivered s) (failures s).

Inductive PStep : PSys -> PSys -> Prop :=
| PRead s len now : PStep s (attempted len now (woken s) s)
| PRetry s l1 len l2 now : woken s = l1 ++ len :: l2 -> PStep s (attempted len now (l1 ++ l2) s)
| PWrite s b now p : Write b now (pipe s) = (None, p) -> PStep s (broadcast p b s)
| PWriteFails s b now e p : Write b now (pipe s) = (Some e, p) -> PStep s (quiet p s)
| PClose s p : Close (pipe s) = (None, p) -> PStep s (broadcast p [] s)
| PCloseFails s e p : Close (pipe s) = (Some e, p) -> PStep s (quiet p s)
| PSetRead s t : PStep s (quiet (setReadDeadline t (pipe s)).2 s)
| PSetWrite s t : PStep s (quiet (setWriteDeadline t (pipe s)).2 s)
| PSet s t : PStep s (quiet (SetDeadline t (pipe s)).2 s)
| PFire s t : readDeadlineTimer (pipe s) = Some t -> PStep s (broadcast (fire (pipe s)) [] s).

Record PInv (s : PSys) : Prop := {
  inv_stream : written s = delivered s ++ buf (pipe s);
  inv_parked : parked s <> [] -> buf (pipe s) = [] /\ closed (pipe s) = false;
  inv_deadline : readDeadline (pipe s) = None;
  inv_failures : DeadlineExceeded ∉ failures s
}.

Lemma attempted_inv len now ws s : PInv s -> PInv (attempted len now ws s).
Proof.
  intros [Hs Hp Hd Hf]. unfold attempted, Read. destruct (buf (pipe s)) as [|b l] eqn:Hb.
  - destruct (closed (pipe s)) eqn:Hc; [|rewrite Hd; cbn [passed]].
    + constructor; cbn; [by rewrite Hb|intros Hne; by destruct (Hp Hne)|done|]. rewrite not_elem_of_app. split; [done|]. by apply not_elem_of_cons; split; [|apply not_elem_of_nil].
    + by constructor; cbn; [rewrite Hb|..].
  - constructor; cbn [written delivered pipe parked failures buf closed readDeadline]; [|intros [? _]%Hp; done|done|done].
    rewrite Hs, <- app_assoc. f_equal. by rewrite take_drop.
Qed.

Lemma quiet_inv p s : PInv s -> buf p = buf (pipe s) -> closed p = closed (pipe s) -> readDeadline p = readDeadline (pipe s) -> PInv (quiet p s).
Proof. intros [Hs Hp Hd Hf] Hb Hc Hr. constructor; cbn; [by rewrite Hb|by rewrite Hb, Hc|by rewrite Hr|done]. Qed.

Lemma broadcast_inv p w s : PInv s -> buf p = buf (pipe s) ++ w -> readDeadline p = readDeadline (pipe s) -> PInv (broadcast p w s).
Proof. intros [Hs Hp Hd Hf] Hb Hr. constructor; cbn; [by rewrite Hb, Hs, <- app_assoc|done|by rewrite Hr|done]. Qed.

Lemma PInv_step s s' : PInv s -> PStep s s' -> PInv s'.
Proof.
  intros Hi Hst. destruct Hst as [s len now|s l1 len l2 now Hw|s b now p Hw|s b now e p Hw|s p Hc|s e p Hc|s t|s t|s t|s t Ht].
  - by apply attempted_inv.
  - by apply attempted_inv.
  - unfold Write in Hw. destruct (closed _); [done|]. destruct (passed _ _); [done|]. injection Hw as <-. by apply broadcast_inv.
  - unfold Write in Hw. repeat case_match; simplify_eq; by apply quiet_inv.
  - unfold Close in Hc. case_match; [done|]. injection Hc as <-. apply broadcast_inv; cbn; [done|by rewrite app_nil_r|done].
  - unfold Close in Hc. case_match; simplify_eq; by apply quiet_inv.
  - unfold setReadDeadline. destruct (closed (pipe s)) eqn:E; apply quiet_inv; cbn; try done; by rewrite E.
  - by apply quiet_inv.
  - unfold SetDeadline, setReadDeadline. destruct (closed (pipe s)) eqn:E; apply quiet_inv; cbn; try done; by rewrite E.
  - apply broadcast_inv; cbn; [done|by rewrite app_nil_r|done].
Qed.

Lemma PInv_reachable s : reachable PInit PStep s -> PInv s.
Proof.
  apply invariant_reachable; [|intros ? ? _; apply PInv_step]. intros ? ->. constructor; cbn; [done|done|done|by apply not_elem_of_nil].
Qed.
End Pipe.

(** ** Conn and its two ends *)
Module Conn.
Import Pipe.
Record Conn := mkConn { out : Pipe; in_ : Pipe }.

Inductive side := Outward | Inward.

#[export] Instance side_eq_dec : EqDecision side.
Proof. solve_decision. Defined.

Definition Read (e : side) (len : nat) (now : Z) (T : Conn) : attempt * Conn :=
  match e with
  | Outward => let r := Pipe.Read len now (out T) in (r.1, mkConn r.2 (in_ T))
  | Inward => let r := Pipe.Read len now (in_ T) in (r.1, mkConn (out T) r.2)
  end.

Definition Write (e : side) (b : list byte) (now : Z) (T : Conn) : option error * Conn :=
  match e with
  | Outward => let r := Pipe.Write b now (in_ T) in (r.1, mkConn (out T) r.2)
  | Inward => let r := Pipe.Write b now (out T) in (r.1, mkConn r.2 (in_ T))
  end.

Definition Close (T : Conn) : option error * Conn :=
  let r := Pipe.Close (out T) in
  match r.1 with
  | Some e => (Some e, mkConn r.2 (in_ T))
  | None => let q := Pipe.Close (in_ T) in (q.1, mkConn r.2 q.2)
  end.

Definition setRead (e : side) (t : option Z) (T : Conn) : option error * Conn :=
  match e with
  | Outward => let r := Pipe.setReadDeadline t (out T) in (r.1, mkConn r.2 (in_ T))
  | Inward => let r := Pipe.setReadDeadline t (in_ T) in (r.1, mkConn (out T) r.2)
  end.
Definition setWrite (e : side) (t : option Z) (T : Conn) : option error * Conn :=
  match e with
  | Outward => let r := Pipe.setWriteDeadline t (in_ T) in (r.1, mkConn (out T) r.2)
  | Inward => let r := Pipe.setWriteDeadline t (out T) in (r.1, mkConn r.2 (in_ T))
  end.
Definition SetDeadline (e : side) (t : option Z) (T : Conn) : option error * Conn :=
  match setRead e t T with
  | (Some err, T) => (Some err, T)
  | (None, T) => setWrite e t T
  end.

Definition new : Conn := mkConn Pipe.new Pipe.new.

(** A call on an end; the bytes that Read returns. *)
Inductive call :=
| CRead (len : nat) (now : Z)
| CWrite (b : list byte) (now : Z)
| CClose
| CSetDeadline (t : option Z).

Definition run (T : Conn) (c : side * call) : list byte * Conn :=
  match c with
  | (e, CRead len now) => let r := Read e len now T in (match r.1 with Got bs => bs | _ => [] end, r.2)
  | (e, CWrite b now) => ([], (Write e b now T).2)
  | (_, CClose) => ([], (Close T).2)
  | (e, CSetDeadline t) => ([], (SetDeadline e t T).2)
  end.

(** All that an end gets to read in a sequence of calls. *)
Fixpoint received (e : side) (T : Conn) (cs : list (side * call)) : list byte :=
  match cs with
  | [] => []
  | c :: cs => let r := run T c in (if decide (c.1 = e) then r.1 else []) ++ received e r.2 cs
  end.

End Conn.

(** ** Listener *)
Module Listener.
Import Conn.

(** A nil reference. *)
#[local] Instance nil_ref : Zero nat := 0%nat.

Record Listener := mkListener {
  address : nat;              (* stands for the string *)
  incoming : Ring nat;        (* the connections, by reference *)
  all : list nat;
  closed : bool
}.

(** The package's [listeners], the listeners and the connections, and the calls
    of Accept that wait, by their listener. *)
Record Net := mkNet {
  listeners : gmap nat nat;
  lheap : gmap nat Listener;
  cheap : gmap nat Conn.Conn;
  parked : list nat;
  woken : list nat
}.

Definition set_listener (l : nat) (L : Listener) (N : Net) : Net :=
  mkNet (listeners N) (<[l := L]> (lheap N)) (cheap N) (parked N) (woken N).

(** [l] is the new reference. *)
Definition Listen (l addr : nat) (N : Net) : (error + nat) * Net :=
  match listeners N !! addr with
  | Some _ => (inl ErrAddressInUse, N)
  | None => (inr l, mkNet (<[addr := l]> (listeners N)) (<[l := mkListener addr zero_ring [] false]> (lheap N)) (cheap N) (parked N) (woken N))
  end.

(** What Accept returns: an end of the connection, an error, or nothing yet. *)
Inductive accepted := Accepted (e : side) (c : nat) | Refused (e : error) | Blocked.

Definition Accept (l : nat) (N : Net) : outcome (accepted * Net) :=
  let! L := deref (lheap N !! l) in
  if decide (Length (incoming L) = 0) then
    if closed L then Ret (Refused ErrClosed, N)
    else Ret (Blocked, mkNet (listeners N) (lheap N) (cheap N) (parked N ++ [l]) (woken N))
  else
    let! r := PopFront (incoming L) in
    let N := set_listener l (mkListener (address L) r.2 (all L) (closed L)) N in
    match r.1 with
    | Some c => Ret (Accepted Outward c, N)
    | None => Panic
    end.

(** [for _, c := range T.all { _ = c.Close() }] *)
Definition close_conns (cs : list nat) (h : gmap nat Conn.Conn) : gmap nat Conn.Conn :=
  foldl (fun h c => match h !! c with Some conn => <[c := (Conn.Close conn).2]> h | None => h end) h cs.

Definition close (l : nat) (N : Net) : outcome (option error * Net) :=
  let! L := deref (lheap N !! l) in
  if closed L then Ret (Some ErrClosed, N)
  else Ret (None, mkNet (listeners N) (<[l := mkListener (address L) (incoming L) (all L) true]> (lheap N))
                    (close_conns (all L) (cheap N)) (parked N) (woken N)).

Definition Close (l : nat) (N : Net) : outcome (option error * Net) :=
  let! r := close l N in
  match r.1 with
  | Some e => Ret (Some e, r.2)
  | None =>
      let! L := deref (lheap r.2 !! l) in
      Ret (None, mkNet (delete (address L) (listeners r.2)) (lheap r.2) (cheap r.2) (parked r.2) (woken r.2))
  end.

(** T.a.Signal: one of the calls that wait. *)
Fixpoint remove_first (l : nat) (ws : list nat) : list nat :=
  match ws with
  | [] => []
  | w :: ws => if decide (w = l) then ws else w :: remove_first l ws
  end.

Definition signal (l : nat) (N : Net) : Net :=
  if decide (l ∈ parked N) then mkNet (listeners N) (lheap N) (cheap N) (remove_first l (parked N)) (woken N ++ [l]) else N.

(** [c] is the new connection. *)
Definition Dial (c addr : nat) (N : Net) : outcome ((error + side * nat) * Net) :=
  match listeners N !! addr with
  | None => Ret (inl ErrAddressNotFound, N)
  | Some l =>
      let! L := deref (lheap N !! l) in
      let! r := PushBack (incoming L) c in
      let N := mkNet (listeners N) (<[l := mkListener (address L) r (all L ++ [c]) (closed L)]> (lheap N))
                 (<[c := Conn.new]> (cheap N)) (parked N) (woken N) in
      Ret (inr (Outward, c), signal l N)
  end.

Definition empty_net : Net := mkNet ∅ ∅ ∅ [] [].
End Listener.

(** ** Theorems *)
Module MioTheorems.
Import Pipe.

(** A pipe is a stream, whoever reads and writes it and whenever: what was read,
    followed by what is buffered, is what was written; and no wake-up is lost: a
    Read waits only while the pipe is empty and open, so once there are bytes or
    the pipe is closed, every Read in progress returns when it runs. *)
Theorem pipe_stream (s : PSys) :
  reachable PInit PStep s ->
  written s = delivered s ++ buf (pipe s) /\
  (parked s <> [] -> buf (pipe s) = [] /\ closed (pipe s) = false) /\
  (buf (pipe s) <> [] \/ closed (pipe s) = true ->
     parked s = [] /\ forall len now, (Pipe.Read len now (pipe s)).1 <> Wait).
Proof.
  intros [Hs Hp Hd Hf]%PInv_reachable. split; [done|]. split; [done|]. intros Hready. split.
  - destruct (parked s) as [|n l]; [done|]. destruct (Hp ltac:(done)) as [Hb Hc]. destruct Hready; congruence.
  - intros len now. unfold Pipe.Read. destruct (buf (pipe s)); [|done]. destruct Hready as [?| ->]; done.
Qed.

Definition ex_waiting : PSys := mkPSys Pipe.new [4%nat] [] [] [] [].
Definition ex_written : PSys := mkPSys (mkPipe [x61; x62] false None None None) [] [4%nat] [x61; x62] [] [].

Lemma pipe_stream_witness :
  written ex_written = delivered ex_written ++ buf (pipe ex_written) /\
  (parked ex_written <> [] -> buf (pipe ex_written) = [] /\ closed (pipe ex_written) = false) /\
  (buf (pipe ex_written) <> [] \/ closed (pipe ex_written) = true ->
     parked ex_written = [] /\ forall len now, (Pipe.Read len now (pipe ex_written)).1 <> Wait).
Proof.
  apply (pipe_stream ex_written). apply (reachable_step _ _ ex_waiting); [|exact (PWrite ex_waiting [x61; x62] 0 _ eq_refl)].
  eapply (reachable_step _ _ (mkPSys Pipe.new [] [] [] [] [])); [by apply reachable_init|].
  exact (PRead (mkPSys Pipe.new [] [] [] [] []) 4 0).
Defined.

(** A read deadline has no effect: setReadDeadline arms a timer, but does not
    store the deadline that Read compares with, so no Read ever fails with
    DeadlineExceeded, whatever deadlines were set and whatever time it is; the
    timer wakes a Read of an empty pipe only to wait again. *)
Theorem read_deadline_ignored (s : PSys) :
  reachable PInit PStep s ->
  DeadlineExceeded ∉ failures s /\
  forall t len now, buf (pipe s) = [] -> closed (pipe s) = false ->
    (setReadDeadline (Some t) (pipe s)).1 = None /\
    Pipe.Read len now (fire (setReadDeadline (Some t) (pipe s)).2) = (Wait, fire (setReadDeadline (Some t) (pipe s)).2).
Proof.
  intros [Hs Hp Hd Hf]%PInv_reachable. split; [done|]. intros t len now Hb Hc. unfold setReadDeadline. rewrite Hc. split; [done|].
  unfold Pipe.Read. cbn [fire snd buf closed readDeadline]. by rewrite Hb, Hd.
Qed.

Lemma read_deadline_ignored_witness :
  DeadlineExceeded ∉ failures ex_waiting /\
  forall t len now, buf (pipe ex_waiting) = [] -> closed (pipe ex_waiting) = false ->
    (setReadDeadline (Some t) (pipe ex_waiting)).1 = None /\
    Pipe.Read len now (fire (setReadDeadline (Some t) (pipe ex_waiting)).2) = (Wait, fire (setReadDeadline (Some t) (pipe ex_waiting)).2).
Proof.
  apply (read_deadline_ignored ex_waiting). eapply (reachable_step _ _ (mkPSys Pipe.new [] [] [] [] [])); [by apply reachable_init|].
  exact (PRead (mkPSys Pipe.new [] [] [] [] []) 4 0).
Defined.

(** The ends that a listener and a dialer get of a connection are the same one:
    nothing that one of them writes is ever read by the other. *)
Lemma same_end_deaf (T : Conn.Conn) cs :
  buf (Conn.out T) = [] -> Forall (fun c => c.1 = Conn.Outward) cs -> Conn.received Conn.Outward T cs = [].
Proof.
  intros Hb Hcs. revert T Hb. induction Hcs as [|[e c] cs He _ IH]; intros T Hb; [done|]. cbn in He. subst e.
  cbn [Conn.received fst]. rewrite decide_True by done.
  assert (Hrun : (Conn.run T (Conn.Outward, c)).1 = [] /\ buf (Conn.out (Conn.run T (Conn.Outward, c)).2) = []).
  { destruct c as [len now|b now| |t]; cbn.
    - unfold Pipe.Read. rewrite Hb. repeat case_match; done.
    - done.
    - unfold Conn.Close, Pipe.Close. repeat case_match; cbn in *; simplify_eq; done.
    - unfold Conn.SetDeadline, Conn.setRead, setReadDeadline. repeat case_match; cbn in *; simplify_eq; done. }
  destruct Hrun as [-> Hb']. by apply IH.
Qed.

Example listener_deaf :
  forall N r, Listener.Dial 7 1 (Listener.Listen 0 1 Listener.empty_net).2 = Ret (r, N) ->
  exists N', Listener.Accept 0 N = Ret (Listener.Accepted Conn.Outward 7, N') /\ r = inr (Conn.Outward, 7%nat).
Proof. intros N r E. vm_compute in E. injection E as <- <-. eexists. split; vm_compute; reflexivity. Qed.

(** And Close of a listener wakes no Accept: one that waits stays parked, on a
    listener that nobody can dial any more. *)
Example close_strands_accept :
  exists N1 N2, Listener.Accept 0 (Listener.Listen 0 1 Listener.empty_net).2 = Ret (Listener.Blocked, N1) /\
    Listener.Close 0 N1 = Ret (None, N2) /\ Listener.parked N2 = [0%nat] /\ Listener.woken N2 = [] /\ Listener.listeners N2 = ∅.
Proof. do 2 eexists. split; [vm_compute; reflexivity|]. split; [vm_compute; reflexivity|]. done. Qed.
End MioTheorems.
