(* ===== verification/Conc.v ===== *)
(** * Conc: code that gives up its mutex

    A method that unlocks its mutex around a slow call (Chef.cook, Chef.score)
    runs in segments; anything may happen between two of them.  [run] is such a
    method: it has returned, panicked, or is [Ask]ing the outside world with the
    mutex released.  Code is written in the monad [M]; [step] interleaves any
    number of calls.

    [safe] is a rely-guarantee reading of a run.  The invariant [I] of the shared
    state is indexed by a multiset of tokens, what the calls in progress own
    (slots they allocated, connections nobody else knows yet); [le] is what every
    step keeps, such as the fields that are never written.  [reachable_owned] is
    the soundness: if every operation is [safe], the invariant holds in every
    reachable state for some division of the tokens among the calls in progress. *)

From stdpp Require Export gmultiset.
From S2P Require Import Prelude.

Set Default Proof Using "Type*".

Lemma multiplicity_NoDup {A} `{Countable A} (l : list A) x :
  NoDup l -> multiplicity x (list_to_set_disj l : gmultiset A) = if decide (x ∈ l) then 1 else 0.
Proof.
  induction l as [|y l IH]; intros Hnd; [done|]. rewrite list_to_set_disj_cons, multiplicity_disj_union, multiplicity_singleton.
  rewrite IH by (by eapply NoDup_cons_1_2). apply NoDup_cons_1_1 in Hnd. repeat gdecide; set_solver.
Qed.

Inductive run (S Q R A : Type) : Type :=
| Done (a : A) (s : S)
| Ask (q : Q) (s : S) (k : R -> S -> run S Q R A)
| Crash.
Arguments Done {S Q R A} a s.
Arguments Ask {S Q R A} q s k.
Arguments Crash {S Q R A}.

Section Monad.
Context {S Q R : Type}.

Definition M (A : Type) : Type := S -> run S Q R A.

Definition mret {A} (a : A) : M A := fun s => Done a s.

Fixpoint run_bind {A B} (r : run S Q R A) (f : A -> M B) : run S Q R B :=
  match r with
  | Done a s => f a s
  | Ask q s k => Ask q s (fun x s' => run_bind (k x s') f)
  | Crash => Crash
  end.
Definition mbind {A B} (m : M A) (f : A -> M B) : M B := fun s => run_bind (m s) f.

Lemma mbind_done {A B} (m : M A) (f : A -> M B) s a s' :
  m s = Done a s' -> mbind m f s = f a s'.
Proof. unfold mbind. by intros ->. Qed.

Definition mget : M S := fun s => Done s s.
Definition modify (f : S -> S) : M unit := fun s => Done tt (f s).
(** Unlock, call, lock again. *)
Definition ask (q : Q) : M R := fun s => Ask q s (fun x s' => Done x s').
(** Dereference or index: a panic if there is nothing. *)
Definition need {A} (o : option A) : M A := fun s => match o with Some a => Done a s | None => Crash end.

(** A run that nobody interferes with, with the answers it gets. *)
Fixpoint alone {A} (xs : list R) (r : run S Q R A) : run S Q R A :=
  match xs, r with
  | x :: xs, Ask q s k => alone xs (k x s)
  | _, _ => r
  end.

Fixpoint each {A} (f : A -> M unit) (l : list A) : M unit :=
  match l with
  | [] => mret tt
  | x :: l => mbind (f x) (fun _ => each f l)
  end.
End Monad.
Arguments M : clear implicits.

Declare Scope conc_scope.
Delimit Scope conc_scope with conc.
Notation "'do' x <- m 'in' k" := (mbind m (fun x => k))
  (at level 10, x binder, m at level 100, k at level 200) : conc_scope.
Notation "m ';;;' k" := (mbind m (fun _ => k)) (at level 100, k at level 200, right associativity) : conc_scope.

(** ** Interleavings *)

Section Interleaving.
Context {S Q R : Type} {K : Type} `{Countable K}.

(** What the world may answer, how that changes the state and which tokens come
    with the answer; what else may change while the mutex is free. *)
Context (answers : Q -> R -> S -> S -> gmultiset K -> Prop).
Context (env : S -> S -> Prop).
(** The calls that may be made. *)
Context (op : M S Q R unit -> Prop).
Context (init : S -> Prop).

(** A call in progress: what it asked, and how it goes on. *)
Record call := mkCall { asked : Q; resume : R -> S -> run S Q R unit }.
Record Sys := mkSys { shared : S; calls : list call; crashed : bool }.

Definition after (cs : list call) (r : run S Q R unit) (s : S) : Sys :=
  match r with
  | Done _ s' => mkSys s' cs false
  | Ask q s' k => mkSys s' (mkCall q k :: cs) false
  | Crash => mkSys s cs true
  end.

Inductive step : Sys -> Sys -> Prop :=
| step_call s cs m : op m -> step (mkSys s cs false) (after cs (m s) s)
| step_resume s cs1 c cs2 x s' g :
    answers (asked c) x s s' g ->
    step (mkSys s (cs1 ++ c :: cs2) false) (after (cs1 ++ cs2) (resume c x s') s')
| step_env s s' cs : env s s' -> step (mkSys s cs false) (mkSys s' cs false).

Definition sys_init (y : Sys) : Prop := init (shared y) /\ calls y = [] /\ crashed y = false.
Definition sys_reachable : Sys -> Prop := reachable sys_init step.

(** One step, computed. *)
Definition run_call (m : M S Q R unit) (y : Sys) : Sys := after (calls y) (m (shared y)) (shared y).
Definition run_resume (n : nat) (x : R) (f : S -> S) (y : Sys) : Sys :=
  match calls y !! n with
  | Some c => after (take n (calls y) ++ drop (Datatypes.S n) (calls y)) (resume c x (f (shared y))) (f (shared y))
  | None => y
  end.

Lemma reachable_call m y : sys_reachable y -> crashed y = false -> op m -> sys_reachable (run_call m y).
Proof.
  intros Hy Hc Hm. eapply reachable_step; [exact Hy|]. destruct y as [s cs b]; simpl in *; subst. by constructor.
Qed.

Lemma reachable_resume n q x f g y :
  sys_reachable y -> crashed y = false -> asked <$> calls y !! n = Some q ->
  answers q x (shared y) (f (shared y)) g -> sys_reachable (run_resume n x f y).
Proof.
  intros Hy Hc Hq Hx. eapply reachable_step; [exact Hy|]. destruct y as [s cs b]; simpl in *; subst.
  unfold run_resume. simpl. destruct (cs !! n) as [c|] eqn:E; [|done]. injection Hq as <-.
  rewrite <- (take_drop_middle cs n c E) at 1. by econstructor.
Qed.

(** ** The logic *)

Context (I : gmultiset K -> S -> Prop) (le : S -> S -> Prop).

Fixpoint safe {A} (P : A -> gmultiset K -> S -> Prop) (F : gmultiset K) (s0 : S) (r : run S Q R A) : Prop :=
  match r with
  | Done a s => le s0 s /\ exists own, I (F ⊎ own) s /\ P a own s
  | Ask q s k =>
      le s0 s /\ exists own, I (F ⊎ own) s /\
      forall F' x s1 s2 g, le s s1 -> I (F' ⊎ own) s1 -> answers q x s1 s2 g -> safe P F' s2 (k x s2)
  | Crash => False
  end.

(** [triple own Pre m Post]: started with the tokens [own]. *)
Definition triple {A} (own : gmultiset K) (Pre : S -> Prop) (m : M S Q R A)
    (Post : A -> gmultiset K -> S -> Prop) : Prop :=
  forall F s, I (F ⊎ own) s -> Pre s -> safe Post F s (m s).

Context `{!PreOrder le}.
Context (answers_I : forall q x s s' g F, answers q x s s' g -> I F s -> I (F ⊎ g) s').
Context (answers_le : forall q x s s' g, answers q x s s' g -> le s s').
Context (env_I : forall s s' F, env s s' -> I F s -> I F s').
Context (env_le : forall s s', env s s' -> le s s').

Lemma safe_mono {A} (P P' : A -> gmultiset K -> S -> Prop) F s0 s1 r :
  le s0 s1 -> (forall a own s, le s1 s -> P a own s -> P' a own s) ->
  safe P F s1 r -> safe P' F s0 r.
Proof using I answers answers_le H le Q R S K PreOrder0 EqDecision0.
  revert F s0 s1. induction r as [a s|q s k IH|]; simpl; intros F s0 s1 Hle HP; [| |done].
  - intros (Hs & own & HI & Ha). split; [by etrans|]. eauto.
  - intros (Hs & own & HI & Hk). split; [by etrans|]. exists own. split; [done|].
    intros F' x s2 s3 g Hs2 HI2 Hx. eapply IH; [reflexivity| |by eapply Hk].
    intros a own' s4 H4. apply HP. etrans; [exact Hs|]. etrans; [exact Hs2|].
    etrans; [by eapply answers_le|done].
Qed.

Lemma safe_bind {A B} (P : A -> gmultiset K -> S -> Prop) (P' : B -> gmultiset K -> S -> Prop) F s0 (r : run S Q R A) f :
  safe P F s0 r ->
  (forall F a own s, I (F ⊎ own) s -> P a own s -> safe P' F s (f a s)) ->
  safe P' F s0 (run_bind r f).
Proof using I answers answers_le H le Q R S K PreOrder0 EqDecision0.
  revert F s0. induction r as [a s|q s k IH|]; simpl; intros F s0 Hr Hf; [| |done].
  - destruct Hr as (Hs & own & HI & Ha). eapply safe_mono; [exact Hs| |by eapply Hf]. done.
  - destruct Hr as (Hs & own & HI & Hk). split; [done|]. exists own. split; [done|].
    intros F' x s2 s3 g Hs2 HI2 Hx. apply IH; [by eapply Hk|done].
Qed.

Lemma triple_bind {A B} own Pre (m : M S Q R A) P (f : A -> M S Q R B) P' :
  triple own Pre m P ->
  (forall a own', triple own' (P a own') (f a) P') ->
  triple own Pre (mbind m f) P'.
Proof using I answers answers_le H le Q R S K PreOrder0 EqDecision0.
  intros Hm Hf F s HI HP. eapply safe_bind; [by apply Hm|].
  intros F' a own' s' HI' Ha. by apply (Hf a own').
Qed.

Lemma triple_ret {A} own (Pre : S -> Prop) (a : A) (P : A -> gmultiset K -> S -> Prop) :
  (forall s, Pre s -> P a own s) -> triple own Pre (mret a) P.
Proof using I answers H le Q R S K PreOrder0 EqDecision0.
  intros HP F s HI Hs. simpl. split; [reflexivity|]. eauto.
Qed.

Lemma triple_weaken {A} own (Pre Pre' : S -> Prop) (m : M S Q R A) (P P' : A -> gmultiset K -> S -> Prop) :
  triple own Pre m P -> (forall s, Pre' s -> Pre s) ->
  (forall a o s, P a o s -> P' a o s) -> triple own Pre' m P'.
Proof using I answers answers_le H le Q R S K PreOrder0 EqDecision0.
  intros Hm H1 H2 F s HI Hs. eapply safe_mono; [reflexivity| |by apply Hm, H1].
  simpl. eauto.
Qed.

Lemma triple_ask own Pre q :
  triple own Pre (ask q) (fun x own' s2 =>
    exists s s1 g, Pre s /\ le s s1 /\ answers q x s1 s2 g /\ own' = own ⊎ g).
Proof using I answers answers_I answers_le H le Q R S K PreOrder0 EqDecision0.
  intros F s HI Hs. simpl. split; [reflexivity|]. exists own. split; [done|].
  intros F' x s1 s2 g Hle HI1 Hx. split; [reflexivity|]. exists (own ⊎ g). split.
  - rewrite (assoc_L (⊎)). by eapply answers_I.
  - by exists s, s1, g.
Qed.

(** The tokens after [m] are known. *)
Lemma triple_then {A B} own own' Pre (m : M S Q R A) (P : A -> S -> Prop) (f : A -> M S Q R B) P' :
  triple own Pre m (fun a o s => P a s /\ o = own' a) ->
  (forall a, triple (own' a) (P a) (f a) P') -> triple own Pre (mbind m f) P'.
Proof using I answers answers_le H le Q R S K PreOrder0 EqDecision0.
  intros Hm Hf. eapply triple_bind; [exact Hm|]. intros a o F s HI [Hs ->]. by apply (Hf a F s).
Qed.

Lemma triple_seq {A B} own own' Pre (m : M S Q R A) (P : S -> Prop) (f : M S Q R B) P' :
  triple own Pre m (fun _ o s => P s /\ o = own') -> triple own' P f P' -> triple own Pre (mbind m (fun _ => f)) P'.
Proof using I answers answers_le H le Q R S K PreOrder0 EqDecision0.
  intros Hm Hf. by apply (triple_then _ (fun _ => own') _ _ (fun _ => P)).
Qed.

(** Facts that last, also while the mutex is free. *)
Definition stable (P : S -> Prop) : Prop := forall s s', le s s' -> P s -> P s'.

Lemma stable_and P P' : stable P -> stable P' -> stable (fun s => P s /\ P' s).
Proof using Type. intros H1 H2 s s' Hle [? ?]. split; [by eapply H1|by eapply H2]. Qed.

Lemma stable_pure (P : Prop) : stable (fun _ => P).
Proof using Type. by intros ? ?. Qed.

Lemma triple_ask_stable own Pre q :
  stable Pre ->
  triple own Pre (ask q) (fun x own' s => Pre s /\ exists s1 g, answers q x s1 s g /\ own' = own ⊎ g).
Proof using I answers answers_I answers_le H le Q R S K PreOrder0 EqDecision0.
  intros Hst. eapply triple_weaken; [apply triple_ask|done|].
  intros x own' s2 (s & s1 & g & HP & Hle & Hx & ->). split; [|by exists s1, g].
  eapply Hst; [by eapply answers_le|by eapply Hst].
Qed.

(** Run [m] up to a point. *)
Lemma triple_unroll {A} own Pre (m : M S Q R A) P :
  (forall F s, I (F ⊎ own) s -> Pre s -> exists m' s' own' Pre',
     m s = m' s' /\ le s s' /\ I (F ⊎ own') s' /\ Pre' s' /\ triple own' Pre' m' P) ->
  triple own Pre m P.
Proof using I answers answers_le H le Q R S K PreOrder0 EqDecision0.
  intros Hm F s HI HP. destruct (Hm F s HI HP) as (m' & s' & own' & Pre' & -> & Hle & HI' & HP' & Ht).
  eapply safe_mono; [exact Hle| |by apply Ht]. done.
Qed.

(** A segment that does not release the mutex. *)
Lemma triple_atomic {A} own (Pre : S -> Prop) (m : M S Q R A) P :
  (forall F s, I (F ⊎ own) s -> Pre s ->
     exists a s' own', m s = Done a s' /\ le s s' /\ I (F ⊎ own') s' /\ P a own' s') ->
  triple own Pre m P.
Proof using I answers H le Q R S K PreOrder0 EqDecision0.
  intros Hm F s HI Hs. destruct (Hm F s HI Hs) as (a & s' & own' & -> & Hle & HI' & HP).
  simpl. eauto.
Qed.

(** A loop that owns nothing between its turns and relies only on facts that
    last. *)
Lemma triple_each {A} (Pre : S -> Prop) (f : A -> M S Q R unit) l :
  (forall s s', Pre s -> le s s' -> Pre s') ->
  (forall x, x ∈ l -> triple ∅ Pre (f x) (fun _ own _ => own = ∅)) ->
  triple ∅ Pre (each f l) (fun _ own s => own = ∅ /\ Pre s).
Proof using I answers answers_le H le Q R S K PreOrder0 EqDecision0.
  intros Hst. induction l as [|x l IH]; intros Hf.
  - by apply triple_ret.
  - intros F s HI Hs. simpl. unfold mbind. eapply safe_bind.
    + eapply (safe_mono _ (fun _ own s => own = ∅ /\ Pre s) _ s s); [reflexivity| |].
      2: by apply Hf; [left|..].
      simpl. intros _ own s' Hle ->. split; [done|]. by eapply Hst.
    + intros F' [] own s' HI' [-> Hs']. apply IH; [|done..]. intros y Hy. apply Hf. by right.
Qed.

(** ** Soundness *)

Definition call_ok (own : gmultiset K) (s : S) (c : call) : Prop :=
  forall F x s1 s2 g, le s s1 -> I (F ⊎ own) s1 -> answers (asked c) x s1 s2 g ->
  safe (fun _ o _ => o = ∅) F s2 (resume c x s2).

Definition owned (y : Sys) : Prop :=
  crashed y = false /\
  exists owns, I (⋃+ owns) (shared y) /\ Forall2 (fun own c => call_ok own (shared y) c) owns (calls y).

Lemma call_ok_le own s s' c : le s s' -> call_ok own s c -> call_ok own s' c.
Proof using I answers H le Q R S K PreOrder0 EqDecision0.
  intros Hle Hc F x s1 s2 g Hs. apply Hc. by etrans.
Qed.

Lemma owned_after owns cs s0 r :
  Forall2 (fun own c => call_ok own s0 c) owns cs ->
  safe (fun _ o _ => o = ∅) (⋃+ owns) s0 r -> owned (after cs r s0).
Proof using I answers H le Q R S K PreOrder0 EqDecision0.
  intros Hcs Hr. destruct r as [[] s|q s k|]; simpl in *; [| |done].
  - destruct Hr as (Hs & own & HI & ->). split; [done|]. exists owns. simpl.
    split; [by rewrite gmultiset_disj_union_right_id in HI|].
    eapply Forall2_impl; [exact Hcs|]. intros. by eapply call_ok_le.
  - destruct Hr as (Hs & own & HI & Hk). split; [done|]. exists (own :: owns). simpl.
    split; [by rewrite (comm_L (⊎))|]. constructor.
    + intros F x s1 s2 g Hs1 HI1 Hx. by eapply Hk.
    + eapply Forall2_impl; [exact Hcs|]. intros. by eapply call_ok_le.
Qed.

Context (op_safe : forall m, op m -> triple ∅ (fun _ => True) m (fun _ o _ => o = ∅)).
Context (init_I : forall s, init s -> I ∅ s).

Theorem reachable_owned y : sys_reachable y -> owned y.
Proof using I answers answers_I answers_le env env_I env_le H le Q R S K PreOrder0 op op_safe init init_I EqDecision0.
  revert y. apply invariant_reachable.
  - intros [s cs b] (Hi & Hc & Hb); simpl in *; subst. split; [done|]. exists [].
    simpl. split; [by apply init_I|constructor].
  - intros y y' _ (Hb & owns & HI & Hcs) Hst. destruct Hst as [s cs m Hm|s cs1 c cs2 x s' g Hx|s s' cs He]; simpl in *.
    + apply (owned_after owns); [done|]. apply op_safe; [done| |done].
      by rewrite gmultiset_disj_union_right_id.
    + apply Forall2_app_inv_r in Hcs as (o1 & o2' & H1 & H2 & ->).
      apply Forall2_cons_inv_r in H2 as (own & o2 & Hc & H2 & ->).
      apply (owned_after (o1 ++ o2)).
      * apply Forall2_app; (eapply Forall2_impl; [eassumption|]; intros; eapply call_ok_le; [by eapply answers_le|done]).
      * apply (Hc _ x s s' g); [reflexivity| |done]. revert HI.
        rewrite !gmultiset_disj_union_list_app. simpl.
        intros HI. replace (⋃+ o1 ⊎ ⋃+ o2 ⊎ own) with (⋃+ o1 ⊎ (own ⊎ ⋃+ o2)) by multiset_solver. done.
    + split; [done|]. exists owns. simpl. split; [by eapply env_I|].
      eapply Forall2_impl; [exact Hcs|]. intros. eapply call_ok_le; [by apply env_le|done].
Qed.
End Interleaving.
Arguments call : clear implicits.
Arguments Sys : clear implicits.
