(* ===== verification/Kitchen.v ===== *)
(** * Kitchen: lib/gat/handlers/pool/recipe.go, lib/gat/handlers/pool/spool/kitchen

    A recipe (pool.Recipe) says how to dial a database and how many connections
    it may have; the chef dials them.  [PoolRecipe] is pool.Recipe, with its
    counter; [Recipe] is kitchen.Recipe, with the connections made from it;
    [Kitchen] is the Chef together with the memory it shares: recipes are behind
    pointers ([heap], [recipes]), and so is the array of the slice [order], which
    a loop of Cook goes through while others change it.

    Dialing and tasting happen with the chef's mutex released, so the methods are
    code of [Conc]: [QDial] and [QTaste] are the calls made meanwhile, [QYield] is
    waiting for the mutex.  [dialed] and [closed] record the connections that
    were opened and closed. *)

From Stdlib Require Import ZArith Sorting.Sorted.
From S2P Require Import Prelude.
From S2P Require Import Slices.
From S2P Require Import Wire.
From S2P Require Import Conc.

Local Open Scope Z_scope.
Local Open Scope conc_scope.

Abbreviation conn := nat.

(** ** pool.Recipe *)

Record PoolRecipe := mkPoolRecipe {
  Priority : Z;
  MinConnections : Z;
  MaxConnections : Z;
  count : Z
}.

Definition set_count (n : Z) (T : PoolRecipe) : PoolRecipe :=
  mkPoolRecipe (Priority T) (MinConnections T) (MaxConnections T) n.

Definition AllocateInitial (T : PoolRecipe) : Z * PoolRecipe :=
  if count T >=? MinConnections T then (0, T)
  else (MinConnections T - count T, set_count (MinConnections T) T).

Definition Allocate (T : PoolRecipe) : bool * PoolRecipe :=
  if negb (MaxConnections T =? 0) && (count T >=? MaxConnections T) then (false, T)
  else (true, set_count (count T + 1) T).

Definition TryFree (T : PoolRecipe) : bool * PoolRecipe :=
  if count T <=? MinConnections T then (false, T)
  else (true, set_count (count T - 1) T).

Definition Free (T : PoolRecipe) : PoolRecipe := set_count (count T - 1) T.

(** ** kitchen.Recipe *)

Record Rating := mkRating { Expiration : Z; Score : Z }.
#[export] Instance Rating_zero : Zero Rating := mkRating 0 0.

Record Recipe := mkRecipe {
  recipe : nat;             (* *pool.Recipe *)
  ratings : slice Rating;
  score_ : Z;
  conns : gset conn
}.

Definition NewRecipe (recipe : nat) (initial : list conn) : Recipe :=
  mkRecipe recipe (Slice [] 0) 0 (list_to_set initial).

Definition MaxInt : Z := 2 ^ 63 - 1.

Definition Recipe_Rating (x : PoolRecipe) (T : Recipe) : Z :=
  if score_ T =? MaxInt then score_ T else swrap 64 (score_ T + Priority x).

(** ** The chef and the memory *)

Record Kitchen := mkKitchen {
  byName : gmap string nat;
  byConn : gmap conn nat;
  order : nat * nat;             (* array and length *)
  heap : gmap nat Recipe;        (* *kitchen.Recipe *)
  recipes : gmap nat PoolRecipe; (* *pool.Recipe *)
  arrays : gmap nat (list nat);
  clock : Z;
  dialed : gset conn;
  closed : list conn;
  cancels : list (nat * conn)    (* recipe.Cancel(conn.BackendKey) *)
}.

Definition set_byName f (s : Kitchen) := mkKitchen (f (byName s)) (byConn s) (order s) (heap s) (recipes s) (arrays s) (clock s) (dialed s) (closed s) (cancels s).
Definition set_byConn f (s : Kitchen) := mkKitchen (byName s) (f (byConn s)) (order s) (heap s) (recipes s) (arrays s) (clock s) (dialed s) (closed s) (cancels s).
Definition set_order o a (s : Kitchen) := mkKitchen (byName s) (byConn s) o (heap s) (recipes s) a (clock s) (dialed s) (closed s) (cancels s).
Definition set_heap f (s : Kitchen) := mkKitchen (byName s) (byConn s) (order s) (f (heap s)) (recipes s) (arrays s) (clock s) (dialed s) (closed s) (cancels s).
Definition set_recipes f (s : Kitchen) := mkKitchen (byName s) (byConn s) (order s) (heap s) (f (recipes s)) (arrays s) (clock s) (dialed s) (closed s) (cancels s).
Definition set_clock t (s : Kitchen) := mkKitchen (byName s) (byConn s) (order s) (heap s) (recipes s) (arrays s) t (dialed s) (closed s) (cancels s).
Definition set_dialed f (s : Kitchen) := mkKitchen (byName s) (byConn s) (order s) (heap s) (recipes s) (arrays s) (clock s) (f (dialed s)) (closed s) (cancels s).
Definition set_closed f (s : Kitchen) := mkKitchen (byName s) (byConn s) (order s) (heap s) (recipes s) (arrays s) (clock s) (dialed s) (f (closed s)) (cancels s).
Definition set_cancels f (s : Kitchen) := mkKitchen (byName s) (byConn s) (order s) (heap s) (recipes s) (arrays s) (clock s) (dialed s) (closed s) (f (cancels s)).

Inductive request :=
| QDial (p : nat)
| QTaste (critic : nat) (c : conn)
| QYield.
Inductive answer :=
| ADial (r : error + conn)
| ATaste (r : error + Z * Z)     (* score, validity *)
| AYield.

Abbreviation Mk := (M Kitchen request answer).

(** The order in which a range over a map visits its keys. *)
Abbreviation iteration := (gset conn -> list conn).

Definition ErrNoRecipes : error := ErrOther 3.

(** [nil] as an element of a fresh array. *)
Definition nilptr : nat := 0.

(** sort.Slice: the sorted elements, in any order where [less] says neither. *)
Class SortSlice := {
  sort_slice : forall {A}, (A -> A -> bool) -> list A -> list A;
  sort_slice_perm {A} (less : A -> A -> bool) l : sort_slice less l ≡ₚ l;
  sort_slice_sorted {A} (less : A -> A -> bool) l :
    (forall a b, a ∈ l -> b ∈ l -> less a b = true -> less b a = false) ->
    (forall a b c, a ∈ l -> b ∈ l -> c ∈ l -> less b a = false -> less c b = false -> less c a = false) ->
    forall i j a b, (i < j)%nat -> sort_slice less l !! i = Some a -> sort_slice less l !! j = Some b ->
    less b a = false
}.

(** An insertion sort is one. *)
Fixpoint insert_sorted {A} (less : A -> A -> bool) (x : A) (l : list A) : list A :=
  match l with
  | [] => [x]
  | y :: l' => if less y x then y :: insert_sorted less x l' else x :: l
  end.

Definition insertion_sort {A} (less : A -> A -> bool) (l : list A) : list A := foldr (insert_sorted less) [] l.

Lemma insert_sorted_perm {A} (less : A -> A -> bool) x l : insert_sorted less x l ≡ₚ x :: l.
Proof. induction l as [|y l IH]; simpl; [done|]. destruct (less y x); [|done]. rewrite IH. constructor. Qed.

Lemma insertion_sort_perm {A} (less : A -> A -> bool) l : insertion_sort less l ≡ₚ l.
Proof. induction l as [|x l IH]; simpl; [done|]. by rewrite insert_sorted_perm, IH. Qed.

Lemma insert_sorted_sorted {A} (less : A -> A -> bool) (P : A -> Prop) x l :
  (forall a b, P a -> P b -> less a b = true -> less b a = false) ->
  (forall a b c, P a -> P b -> P c -> less b a = false -> less c b = false -> less c a = false) ->
  P x -> Forall P l -> StronglySorted (fun a b => less b a = false) l ->
  StronglySorted (fun a b => less b a = false) (insert_sorted less x l).
Proof.
  intros Has Htr Hx. induction l as [|y l IH]; simpl; intros HP Hs; [repeat constructor|].
  inversion HP as [|? ? Py Pl]; inversion Hs as [|? ? Sl Fl]; subst. destruct (less y x) eqn:E.
  - constructor; [by apply IH|]. rewrite insert_sorted_perm. constructor; [by apply Has|done].
  - constructor; [done|]. constructor; [done|]. rewrite Forall_forall in *. intros z Hz. eapply (Htr x y z); eauto.
Qed.

Lemma insertion_sort_strongly {A} (less : A -> A -> bool) (P : A -> Prop) l :
  (forall a b, P a -> P b -> less a b = true -> less b a = false) ->
  (forall a b c, P a -> P b -> P c -> less b a = false -> less c b = false -> less c a = false) ->
  Forall P l -> StronglySorted (fun a b => less b a = false) (insertion_sort less l).
Proof.
  intros Has Htr. induction 1 as [|x l Hx Hl IH]; simpl; [constructor|].
  apply (insert_sorted_sorted less P); [done..| |done]. by rewrite insertion_sort_perm.
Qed.

Lemma insertion_sort_sorted {A} (less : A -> A -> bool) l :
  (forall a b, a ∈ l -> b ∈ l -> less a b = true -> less b a = false) ->
  (forall a b c, a ∈ l -> b ∈ l -> c ∈ l -> less b a = false -> less c b = false -> less c a = false) ->
  forall i j a b, (i < j)%nat -> insertion_sort less l !! i = Some a -> insertion_sort less l !! j = Some b ->
  less b a = false.
Proof.
  intros Has Htr i j a b Hij Ha Hb.
  assert (Hs : StronglySorted (fun a b => less b a = false) (insertion_sort less l)).
  { apply (insertion_sort_strongly less (fun x => x ∈ l)); [done..|].
    apply Forall_lookup_2. intros n x Hx. by eapply list_elem_of_lookup_2. }
  clear -Hs Hij Ha Hb. revert i j Hij Ha Hb. induction Hs as [|x l' Hs IH Hf]; intros i j Hij Ha Hb; [done|].
  destruct j as [|j]; [lia|]. destruct i as [|i]; simpl in *.
  - simplify_eq. by apply (Forall_lookup_1 _ _ _ _ Hf Hb).
  - eapply IH; [|done..]. lia.
Qed.

#[export] Instance insertion_SortSlice : SortSlice :=
  {| sort_slice := @insertion_sort;
     sort_slice_perm := @insertion_sort_perm;
     sort_slice_sorted := @insertion_sort_sorted |}.

Section Chef.
Context (critics : list nat).   (* config.Critics *)
Context `{SortSlice}.

(** *** Memory *)

Definition load (r : nat) : Mk Recipe := do s <- mget in need (heap s !! r).
Definition store (r : nat) (k : Recipe) : Mk unit := modify (set_heap (insert r k)).
Definition load_recipe (p : nat) : Mk PoolRecipe := do s <- mget in need (recipes s !! p).
Definition store_recipe (p : nat) (x : PoolRecipe) : Mk unit := modify (set_recipes (insert p x)).

Definition recipe_AllocateInitial (p : nat) : Mk Z :=
  do x <- load_recipe p in store_recipe p (AllocateInitial x).2 ;;; mret (AllocateInitial x).1.
Definition recipe_Allocate (p : nat) : Mk bool :=
  do x <- load_recipe p in store_recipe p (Allocate x).2 ;;; mret (Allocate x).1.
Definition recipe_TryFree (p : nat) : Mk bool :=
  do x <- load_recipe p in store_recipe p (TryFree x).2 ;;; mret (TryFree x).1.
Definition recipe_Free (p : nat) : Mk unit :=
  do x <- load_recipe p in store_recipe p (Free x).

Definition conn_Close (c : conn) : Mk unit := modify (set_closed (fun l => l ++ [c])).

(** The mutex is released here. *)
Definition dial (p : nat) : Mk (error + conn) :=
  do x <- ask (QDial p) in match x with ADial r => mret r | _ => fun _ => Crash end.
Definition taste (critic : nat) (c : conn) : Mk (error + Z * Z) :=
  do x <- ask (QTaste critic c) in match x with ATaste r => mret r | _ => fun _ => Crash end.
Definition yield_ : Mk unit := do _ <- ask QYield in mret tt.

(** [delete(T.byConn, conn); delete(r.conns, conn)] *)
Definition set_conns (cs : gset conn) (k : Recipe) : Recipe :=
  mkRecipe (recipe k) (ratings k) (score_ k) cs.
Definition drop_conn (r : nat) (c : conn) : Mk unit :=
  modify (set_byConn (delete c)) ;;;
  do k <- load r in store r (set_conns (conns k ∖ {[c]}) k).
(** [r.conns[conn] = struct{}{}; T.byConn[conn] = r] *)
Definition add_conn (r : nat) (c : conn) : Mk unit :=
  do k <- load r in store r (set_conns (conns k ∪ {[c]}) k) ;;;
  modify (set_byConn (insert c r)).

(** [T.order = slices.Remove(T.order, r)], in the array. *)
Definition order_remove (r : nat) : Mk unit :=
  do s <- mget in
  do a <- need (arrays s !! (order s).1) in
  match Remove (take (order s).2 a) r with
  | Ret (orig, l) =>
      modify (set_order ((order s).1, length l) (<[(order s).1 := orig ++ drop (order s).2 a]> (arrays s)))
  | _ => fun _ => Crash
  end.
(** [T.order = append(T.order, r)]: in the array if there is room; a new array
    has [room] more. *)
Definition order_append (room : nat) (r : nat) : Mk unit :=
  do s <- mget in
  do a <- need (arrays s !! (order s).1) in
  if ((order s).2 <? length a)%nat
  then modify (set_order ((order s).1, S (order s).2) (<[(order s).1 := <[(order s).2 := r]> a]> (arrays s)))
  else
    let id := fresh (dom (arrays s)) in
    modify (set_order (id, S (order s).2) (<[id := take (order s).2 a ++ r :: replicate room nilptr]> (arrays s))).

(** *** Learn, Forget *)

Definition forget (it : iteration) (name : string) : Mk (list conn) :=
  do s <- mget in
  match byName s !! name with
  | None => mret []
  | Some r =>
      modify (set_byName (delete name)) ;;;
      do k <- load r in
      each (fun c => conn_Close c ;;; recipe_Free (recipe k) ;;; drop_conn r c) (it (conns k)) ;;;
      order_remove r ;;;
      mret (it (conns k))
  end.

Fixpoint free_rest (n : nat) (p : nat) : Mk unit :=
  match n with
  | O => mret tt
  | S n => recipe_Free p ;;; yield_ ;;; free_rest n p
  end.

(** The initial connections: [n] are still to be dialed. *)
Fixpoint dial_initial (n : nat) (p : nat) (added : list conn) : Mk (list conn) :=
  match n with
  | O => mret added
  | S n' =>
      do d <- dial p in
      match d with
      | inl _ => free_rest n p ;;; mret added
      | inr c => dial_initial n' p (added ++ [c])
      end
  end.

(** The part under the mutex. *)
Definition learn (it : iteration) (room : nat) (name : string) (p : nat) (added : list conn) : Mk (list conn) :=
  do removed <- forget it name in
  do s <- mget in
  let r := fresh ({[nilptr]} ∪ dom (heap s)) in
  store r (NewRecipe p added) ;;;
  modify (set_byName (insert name r)) ;;;
  each (fun c => modify (set_byConn (insert c r))) added ;;;
  order_append room r ;;;
  mret removed.

Definition Learn (it : iteration) (room : nat) (name : string) (p : nat) : Mk (list conn * list conn) :=
  do n <- recipe_AllocateInitial p in
  do added <- dial_initial (Z.to_nat n) p [] in
  yield_ ;;;
  do removed <- learn it room name p added in
  mret (removed, added).

Definition Forget (it : iteration) (name : string) : Mk (list conn) := forget it name.

Definition Empty : Mk bool := do s <- mget in mret (bool_decide (byName s = ∅)).

(** *** score *)

Definition set_ratings (l : slice Rating) (k : Recipe) : Recipe :=
  mkRecipe (recipe k) l (score_ k) (conns k).
Definition set_score (n : Z) (k : Recipe) : Recipe :=
  mkRecipe (recipe k) (ratings k) n (conns k).

(** The critics to ask, and the total of those whose rating is still good. *)
Definition stale (now : Z) (l : list Rating) : list (option nat) :=
  zip_with (fun critic x => if now <? Expiration x then None else Some critic) critics l.
Definition known_total (now : Z) (l : list Rating) : Z :=
  foldl (fun total x => if now <? Expiration x then swrap 64 (total + Score x) else total) 0 l.

Fixpoint taste_all (cs : list (option nat)) (c : conn) (total : Z) : Mk (error + list (option Rating) * Z) :=
  match cs with
  | [] => mret (inr ([], total))
  | None :: cs =>
      do r <- taste_all cs c total in
      mret (match r with inl e => inl e | inr (l, total) => inr (None :: l, total) end)
  | Some critic :: cs =>
      do t <- taste critic c in
      match t with
      | inl e => mret (inl e)
      | inr (sc, validity) =>
          do s <- mget in
          do r <- taste_all cs c (swrap 64 (total + sc)) in
          mret (match r with
                | inl e => inl e
                | inr (l, total) => inr (Some (mkRating (clock s + validity) sc) :: l, total)
                end)
      end
  end.

(** [for i, critic := range critics { if critic != nil { r.ratings[i] = ratings[i] } }] *)
Fixpoint write_ratings (i : nat) (new : list (option Rating)) (l : slice Rating) : option (slice Rating) :=
  match new with
  | [] => Some l
  | None :: new => write_ratings (S i) new l
  | Some x :: new =>
      if (i <? len l)%nat then write_ratings (S i) new (Slice (<[i := x]> (arr l)) (len l)) else None
  end.

Definition score (r : nat) : Mk (option error) :=
  do s <- mget in
  let now := clock s in
  do k <- load r in
  let l := Resize (ratings k) (length critics) in
  store r (set_ratings l k) ;;;
  if forallb (fun x => negb (Expiration x <? now)) (elems l) then mret None
  else
    do d <- dial (recipe k) in
    match d with
    | inl e => mret (Some e)
    | inr c =>
        do t <- taste_all (stale now (elems l)) c (known_total now (elems l)) in
        conn_Close c ;;;
        match t with
        | inl e => mret (Some e)
        | inr (new, total) =>
            do k <- load r in
            do l <- need (write_ratings 0 new (Resize (ratings k) (length critics))) in
            store r (set_ratings l (set_score total k)) ;;;
            mret None
        end
    end.

(** *** Cook *)

Definition less (s : Kitchen) (a b : nat) : bool :=
  match heap s !! a, heap s !! b with
  | Some ka, Some kb =>
      match recipes s !! recipe ka, recipes s !! recipe kb with
      | Some xa, Some xb =>
          if Recipe_Rating xa ka <? Recipe_Rating xb kb then true
          else if Recipe_Rating xb kb <? Recipe_Rating xa ka then false
          else (size (conns ka) <? size (conns kb))%nat
      | _, _ => false
      end
  | _, _ => false
  end.

Definition sort_order : Mk unit :=
  do s <- mget in
  do a <- need (arrays s !! (order s).1) in
  modify (set_order (order s)
    (<[(order s).1 := sort_slice (less s) (take (order s).2 a) ++ drop (order s).2 a]> (arrays s))).

(** The loop over the array [id], with [m] elements left from [i] on. *)
Fixpoint cook_loop (m i : nat) (id : nat) : Mk (error + conn) :=
  match m with
  | O => mret (inl ErrNoRecipes)
  | S m =>
      do s <- mget in
      do a <- need (arrays s !! id) in
      do r <- need (a !! i) in
      do k <- load r in
      do ok <- recipe_Allocate (recipe k) in
      if negb ok then cook_loop m (S i) id
      else
        do d <- dial (recipe k) in
        match d with
        | inr c => add_conn r c ;;; mret (inr c)
        | inl e =>
            recipe_Free (recipe k) ;;;
            do s <- mget in
            if Z.of_nat i =? Z.of_nat (order s).2 - 1 then mret (inl e)
            else cook_loop m (S i) id
        end
  end.

Definition cook_best : Mk (error + conn) :=
  sort_order ;;; do s <- mget in cook_loop (order s).2 0 (order s).1.

(** [names]: the keys the range over byName comes to; one that has been deleted
    by then is skipped. *)
Definition score_named (name : string) : Mk unit :=
  do s <- mget in
  match byName s !! name with
  | None => mret tt
  | Some r =>
      do e <- score r in
      match e with
      | None => mret tt
      | Some _ => do k <- load r in store r (set_score MaxInt k)
      end
  end.

Definition Cook (names : list string) : Mk (error + conn) := each score_named names ;;; cook_best.

(** *** Burn, Ignite, Cancel, Close *)

Definition Burn (c : conn) : Mk unit :=
  do s <- mget in
  match byConn s !! c with
  | None => mret tt
  | Some r => do k <- load r in recipe_Free (recipe k) ;;; conn_Close c ;;; drop_conn r c
  end.

Definition Ignite (c : conn) : Mk bool :=
  do s <- mget in
  match byConn s !! c with
  | None => mret false
  | Some r =>
      do k <- load r in
      do ok <- recipe_TryFree (recipe k) in
      if negb ok then mret false else conn_Close c ;;; drop_conn r c ;;; mret true
  end.

Definition Cancel (c : conn) : Mk unit :=
  do s <- mget in
  match byConn s !! c with
  | None => mret tt
  | Some r => do k <- load r in modify (set_cancels (fun l => l ++ [(recipe k, c)]))
  end.

(** The body of the range over byConn is that of Burn. *)
Definition Close (it : iteration) : Mk unit :=
  modify (set_byName (fun _ => ∅)) ;;;
  do s <- mget in
  modify (set_order ((order s).1, 0%nat) (arrays s)) ;;;
  do s <- mget in each Burn (it (dom (byConn s))).
End Chef.

(** ** The invariant *)

#[local] Arguments Nat.ltb : simpl never.

(** What a call in progress owns: slots of a recipe that it allocated,
    connections that it dialed. *)
Inductive token := Slot (p : nat) | Held (c : conn).

#[export] Instance token_eq_dec : EqDecision token.
Proof. solve_decision. Defined.
#[export] Instance token_countable : Countable token.
Proof.
  refine (inj_countable' (fun t => match t with Slot p => inl p | Held c => inr c end)
            (fun x => match x with inl p => Slot p | inr c => Held c end) _).
  by intros [].
Defined.

Definition recipe_at (s : Kitchen) (r : nat) : option nat := recipe <$> heap s !! r.

(** The number of connections made from a pool.Recipe. *)
Definition conns_of (s : Kitchen) (p : nat) : nat :=
  size (filter (fun cr => recipe_at s cr.2 = Some p) (byConn s)).

Definition is_kept (s : Kitchen) (c : conn) : nat :=
  match byConn s !! c with Some _ => 1 | None => 0 end.
Definition times_closed (s : Kitchen) (c : conn) : nat :=
  multiplicity c (list_to_set_disj (closed s)).

(** Counters, maps of connections and the life of every connection. *)
Record core (O : gmultiset token) (s : Kitchen) : Prop := {
  core_conns c r : byConn s !! c = Some r <-> exists k, heap s !! r = Some k /\ c ∈ conns k;
  core_heap r k : heap s !! r = Some k -> is_Some (recipes s !! recipe k) /\ slice_wf (ratings k);
  core_count p x : recipes s !! p = Some x -> count x = Z.of_nat (conns_of s p + multiplicity (Slot p) O);
  core_max p x : recipes s !! p = Some x -> MaxConnections x <> 0 -> count x <= Z.max 0 (Z.max (MinConnections x) (MaxConnections x));
  core_places c :
    (is_kept s c + times_closed s c + multiplicity (Held c) O = if decide (c ∈ dialed s) then 1 else 0)%nat
}.

(** The slice [order] holds the recipes that have a name. *)
Record named (s : Kitchen) : Prop := {
  named_order : exists a, arrays s !! (order s).1 = Some a /\ ((order s).2 <= length a)%nat /\
    take (order s).2 a ≡ₚ (map_to_list (byName s)).*2;
  named_heap name r : byName s !! name = Some r -> is_Some (heap s !! r);
  named_inj n1 n2 r : byName s !! n1 = Some r -> byName s !! n2 = Some r -> n1 = n2
}.

Definition kitchen_inv (O : gmultiset token) (s : Kitchen) : Prop := core O s /\ named s.

Definition valid_at (s : Kitchen) (id i : nat) : Prop :=
  exists a r, arrays s !! id = Some a /\ a !! i = Some r /\ is_Some (heap s !! r).

(** What lasts. *)
Record kle (s s' : Kitchen) : Prop := {
  kle_heap r k : heap s !! r = Some k -> exists k', heap s' !! r = Some k' /\ recipe k' = recipe k;
  kle_recipes p x : recipes s !! p = Some x -> exists x', recipes s' !! p = Some x' /\
    set_count 0 x' = set_count 0 x;
  kle_arrays id i : valid_at s id i -> valid_at s' id i
}.

#[export] Instance kle_preorder : PreOrder kle.
Proof.
  split.
  - intros s. split; eauto.
  - intros s1 s2 s3 [H1 R1 A1] [H2 R2 A2]. split; [| |auto].
    + intros r k Hk. destruct (H1 r k Hk) as (k' & Hk' & E). destruct (H2 r k' Hk') as (k2 & ? & ?).
      exists k2. split; congruence.
    + intros p x Hx. destruct (R1 p x Hx) as (x' & Hx' & E). destruct (R2 p x' Hx') as (x2 & ? & ?).
      exists x2. split; congruence.
Qed.

(** A change of the heap that keeps the pointers to pool recipes, and of
    counters, lasts. *)
Lemma kle_intro s s' :
  arrays s' = arrays s ->
  (forall r k, heap s !! r = Some k -> exists k', heap s' !! r = Some k' /\ recipe k' = recipe k) ->
  (forall p x, recipes s !! p = Some x -> exists x', recipes s' !! p = Some x' /\ set_count 0 x' = set_count 0 x) ->
  kle s s'.
Proof.
  intros HA HH HR. split; [done|done|]. intros id i (a & r & Ha & Hr & [k Hk]).
  exists a, r. rewrite HA. split_and!; [done..|]. destruct (HH r k Hk) as (k' & -> & _). eauto.
Qed.

(** *** The number of connections of a recipe *)

Lemma conns_of_ext s s' p :
  byConn s' = byConn s ->
  (forall c r, byConn s !! c = Some r -> recipe_at s' r = recipe_at s r) ->
  conns_of s' p = conns_of s p.
Proof.
  intros HB HR. unfold conns_of. rewrite HB. f_equal. apply map_filter_ext.
  intros c r Hc. simpl. by rewrite (HR c r Hc).
Qed.

Lemma conns_of_insert s c r p :
  byConn s !! c = None ->
  conns_of (set_byConn (insert c r) s) p =
  (conns_of s p + if decide (recipe_at s r = Some p) then 1 else 0)%nat.
Proof.
  intros Hc. unfold conns_of. simpl. rewrite map_filter_insert.
  change (recipe_at (set_byConn (insert c r) s)) with (recipe_at s). simpl.
  destruct (decide (recipe_at s r = Some p)) as [E|E].
  - rewrite map_size_insert_None; [lia|]. apply map_lookup_filter_None. by left.
  - rewrite delete_id by done. lia.
Qed.

Lemma conns_of_delete s c r p :
  byConn s !! c = Some r ->
  conns_of s p =
  (conns_of (set_byConn (delete c) s) p + if decide (recipe_at s r = Some p) then 1 else 0)%nat.
Proof.
  intros Hc. change (recipe_at s r) with (recipe_at (set_byConn (delete c) s) r).
  rewrite <- conns_of_insert with (c := c) by (simpl; by simplify_map_eq).
  apply conns_of_ext; [|done]. simpl. by rewrite insert_delete_id.
Qed.

(** *** The primitive moves *)

Definition slots (n p : nat) : gmultiset token := n *: {[+ Slot p +]}.
#[local] Arguments slots : simpl never.

Lemma multiplicity_slots t n p : multiplicity t (slots n p) = (n * if decide (t = Slot p) then 1 else 0)%nat.
Proof. unfold slots. by rewrite multiplicity_scalar_mul, multiplicity_singleton. Qed.

(** Multiplicities in multisets of tokens. *)
Ltac mult :=
  rewrite ?multiplicity_disj_union, ?multiplicity_slots, ?multiplicity_empty, ?multiplicity_singleton;
  repeat gdecide; simplify_eq; try done; try lia.

(** Slots: a counter changes with the slots that calls own. *)
Lemma core_set_count O O' s p x n :
  recipes s !! p = Some x -> core O s ->
  n - count x = Z.of_nat (multiplicity (Slot p) O') - Z.of_nat (multiplicity (Slot p) O) ->
  (forall t, t <> Slot p -> multiplicity t O' = multiplicity t O) ->
  (MaxConnections x <> 0 -> n <= Z.max 0 (Z.max (MinConnections x) (MaxConnections x))) ->
  core O' (set_recipes (insert p (set_count n x)) s).
Proof.
  intros Hp [C1 C2 C3 C4 C5] Hn Ht Hmax. split; simpl.
  - exact C1.
  - intros r k Hk. destruct (C2 r k Hk) as [Hx Hwf]. split; [|done].
    destruct (decide (recipe k = p)) as [->|]; [rewrite lookup_insert_eq|rewrite lookup_insert_ne by done]; eauto.
  - intros q y. change (conns_of (set_recipes _ s) q) with (conns_of s q).
    destruct (decide (q = p)) as [->|Hq].
    + rewrite lookup_insert_eq. intros [= <-]. simpl. specialize (C3 p x Hp). lia.
    + rewrite lookup_insert_ne by done. intros Hy. rewrite Ht by congruence. by apply C3.
  - intros q y. destruct (decide (q = p)) as [->|Hq].
    + rewrite lookup_insert_eq. intros [= <-]. simpl. exact Hmax.
    + rewrite lookup_insert_ne by done. apply C4.
  - intros c. rewrite Ht by congruence. apply C5.
Qed.

Lemma kle_set_count s p x n :
  recipes s !! p = Some x -> kle s (set_recipes (insert p (set_count n x)) s).
Proof.
  intros Hp. apply kle_intro; [done|simpl; eauto|]. intros q y Hy. simpl.
  destruct (decide (q = p)) as [->|]; [rewrite lookup_insert_eq|rewrite lookup_insert_ne by done]; [|eauto].
  eexists. split; [done|]. by simplify_eq.
Qed.

(** A connection leaves the kitchen. *)
Lemma core_drop O s c r k :
  byConn s !! c = Some r -> heap s !! r = Some k -> core O s ->
  core (O ⊎ {[+ Slot (recipe k); Held c +]})
    (set_heap (insert r (set_conns (conns k ∖ {[c]}) k)) (set_byConn (delete c) s)).
Proof.
  intros Hc Hk [C1 C2 C3 C4 C5].
  assert (HR : forall r', recipe_at (set_heap (insert r (set_conns (conns k ∖ {[c]}) k)) (set_byConn (delete c) s)) r' = recipe_at s r').
  { intros r'. unfold recipe_at. simpl. destruct (decide (r' = r)) as [->|];
      [rewrite lookup_insert_eq, Hk|rewrite lookup_insert_ne by done]; done. }
  split; simpl.
  - intros c' r'. destruct (decide (c' = c)) as [->|Hne].
    + rewrite lookup_delete_eq. split; [done|]. intros (k' & Hk' & Hin).
      destruct (decide (r' = r)) as [->|Hr].
      * rewrite lookup_insert_eq in Hk'. simplify_eq. simpl in Hin. set_solver.
      * rewrite lookup_insert_ne in Hk' by done.
        assert (byConn s !! c = Some r') by (apply C1; eauto). congruence.
    + rewrite lookup_delete_ne by done. rewrite C1. destruct (decide (r' = r)) as [->|Hr].
      * rewrite lookup_insert_eq, Hk. split; intros (k' & E & Hin); simplify_eq; eexists; (split; [done|]); simpl in *; set_solver.
      * by rewrite lookup_insert_ne by done.
  - intros r' k'. destruct (decide (r' = r)) as [->|Hr].
    + rewrite lookup_insert_eq. intros [= <-]. simpl. by apply (C2 r).
    + rewrite lookup_insert_ne by done. apply C2.
  - intros p x Hx. rewrite (C3 p x Hx). f_equal. rewrite (conns_of_delete s c r p Hc).
    rewrite (conns_of_ext (set_byConn (delete c) s) (set_heap _ _)) by (done || intros; apply HR).
    unfold recipe_at. rewrite Hk. simpl. mult.
  - exact C4.
  - intros c'. specialize (C5 c'). rewrite <- C5. unfold is_kept, times_closed. simpl.
    destruct (decide (c' = c)) as [->|Hne].
    + rewrite lookup_delete_eq, Hc. mult.
    + rewrite lookup_delete_ne by done. mult.
Qed.

(** A connection that was dialed for a slot enters the kitchen. *)
Lemma core_add O s c r k :
  heap s !! r = Some k -> core (O ⊎ {[+ Slot (recipe k); Held c +]}) s ->
  core O (set_byConn (insert c r) (set_heap (insert r (set_conns (conns k ∪ {[c]}) k)) s)).
Proof.
  intros Hk [C1 C2 C3 C4 C5].
  assert (Hc : byConn s !! c = None).
  { specialize (C5 c). unfold is_kept in C5. destruct (byConn s !! c); [|done].
    rewrite !multiplicity_disj_union, multiplicity_singleton_eq in C5. destruct (decide _); lia. }
  assert (HR : forall r', recipe_at (set_heap (insert r (set_conns (conns k ∪ {[c]}) k)) s) r' = recipe_at s r').
  { intros r'. unfold recipe_at. simpl. destruct (decide (r' = r)) as [->|];
      [rewrite lookup_insert_eq, Hk|rewrite lookup_insert_ne by done]; done. }
  split; simpl.
  - intros c' r'. destruct (decide (c' = c)) as [->|Hne].
    + rewrite lookup_insert_eq. split.
      * intros [= <-]. rewrite lookup_insert_eq. eexists. split; [done|]. simpl. set_solver.
      * intros (k' & Hk' & Hin). destruct (decide (r' = r)) as [->|Hr]; [done|].
        rewrite lookup_insert_ne in Hk' by done.
        assert (byConn s !! c = Some r') by (apply C1; eauto). congruence.
    + rewrite lookup_insert_ne by done. rewrite C1. destruct (decide (r' = r)) as [->|Hr].
      * rewrite lookup_insert_eq, Hk. split; intros (k' & E & Hin); simplify_eq; eexists; (split; [done|]); simpl in *; set_solver.
      * by rewrite lookup_insert_ne by done.
  - intros r' k'. destruct (decide (r' = r)) as [->|Hr].
    + rewrite lookup_insert_eq. intros [= <-]. simpl. by apply (C2 r).
    + rewrite lookup_insert_ne by done. apply C2.
  - intros p x Hx. rewrite (C3 p x Hx). f_equal. rewrite conns_of_insert by done. rewrite HR.
    rewrite (conns_of_ext s (set_heap _ _)) by (done || intros; apply HR).
    unfold recipe_at. rewrite Hk. simpl. mult.
  - exact C4.
  - intros c'. specialize (C5 c'). rewrite <- C5. unfold is_kept, times_closed. simpl.
    destruct (decide (c' = c)) as [->|Hne].
    + rewrite lookup_insert_eq, Hc. mult.
    + rewrite lookup_insert_ne by done. mult.
Qed.

(** A connection nobody else knows is closed. *)
Lemma core_close O s c :
  core (O ⊎ {[+ Held c +]}) s -> core O (set_closed (fun l => l ++ [c]) s).
Proof.
  intros [C1 C2 C3 C4 C5]. split; simpl; [exact C1|exact C2| |exact C4|].
  - intros p x Hx. rewrite (C3 p x Hx). f_equal.
    change (conns_of (set_closed _ s) p) with (conns_of s p). mult.
  - intros c'. rewrite <- (C5 c'). unfold is_kept, times_closed. simpl.
    rewrite list_to_set_disj_app. simpl. mult.
Qed.

(** A new connection. *)
Lemma core_dialed O s c :
  c ∉ dialed s -> core O s -> core (O ⊎ {[+ Held c +]}) (set_dialed (union {[c]}) s).
Proof.
  intros Hc [C1 C2 C3 C4 C5]. split; simpl; [exact C1|exact C2| |exact C4|].
  - intros p x Hx. rewrite (C3 p x Hx). f_equal.
    change (conns_of (set_dialed _ s) p) with (conns_of s p). mult.
  - intros c'. specialize (C5 c'). unfold is_kept, times_closed in *. simpl.
    destruct (decide (c' = c)) as [->|Hne].
    + rewrite decide_False in C5 by done. rewrite decide_True by set_solver. mult.
    + destruct (decide (c' ∈ dialed s)).
      * rewrite decide_True by set_solver. mult.
      * rewrite decide_False by set_solver. mult.
Qed.

(** Fields of a recipe that do not matter here. *)
Lemma core_store O s r k k' :
  heap s !! r = Some k -> recipe k' = recipe k -> conns k' = conns k -> slice_wf (ratings k') ->
  core O s -> core O (set_heap (insert r k') s).
Proof.
  intros Hk Er Ec Hwf [C1 C2 C3 C4 C5]. split; simpl; [| | |exact C4|exact C5].
  - intros c r'. rewrite C1. destruct (decide (r' = r)) as [->|].
    + rewrite lookup_insert_eq, Hk. split; intros (k1 & [= <-] & Hin); eexists; (split; [done|]); congruence.
    + by rewrite lookup_insert_ne by done.
  - intros r' k1. destruct (decide (r' = r)) as [->|].
    + rewrite lookup_insert_eq. intros [= <-]. rewrite Er. split; [|done]. by apply (C2 r).
    + rewrite lookup_insert_ne by done. apply C2.
  - intros p x Hx. rewrite (C3 p x Hx). f_equal. f_equal. symmetry. apply conns_of_ext; [done|].
    intros _ r' _. unfold recipe_at. simpl. destruct (decide (r' = r)) as [->|].
    + rewrite lookup_insert_eq, Hk. simpl. by rewrite Er.
    + by rewrite lookup_insert_ne by done.
Qed.

Lemma kle_store s r k k' :
  heap s !! r = Some k -> recipe k' = recipe k -> kle s (set_heap (insert r k') s).
Proof.
  intros Hk Er. apply kle_intro; [done| |simpl; eauto]. intros r' k1 H1. simpl.
  destruct (decide (r' = r)) as [->|]; [rewrite lookup_insert_eq|rewrite lookup_insert_ne by done]; [|eauto].
  simplify_eq. eauto.
Qed.

(** A recipe that is new has no connections. *)
Lemma core_new O s r p :
  heap s !! r = None -> is_Some (recipes s !! p) ->
  core O s -> core O (set_heap (insert r (NewRecipe p [])) s).
Proof.
  intros Hr Hp [C1 C2 C3 C4 C5].
  assert (Hno : forall c r', byConn s !! c = Some r' -> r' <> r).
  { intros c r' (k & Hk & _)%C1 ->. congruence. }
  split; simpl; [| | |exact C4|exact C5].
  - intros c r'. rewrite C1. destruct (decide (r' = r)) as [->|]; [|by rewrite lookup_insert_ne by done].
    rewrite lookup_insert_eq, Hr. split; [by intros (? & ? & _)|].
    intros (k & [= <-] & Hin). simpl in Hin. set_solver.
  - intros r' k1. destruct (decide (r' = r)) as [->|]; [|rewrite lookup_insert_ne by done; apply C2].
    rewrite lookup_insert_eq. intros [= <-]. split; [done|]. unfold slice_wf, cap. simpl. lia.
  - intros q x Hx. rewrite (C3 q x Hx). f_equal. f_equal. symmetry. apply conns_of_ext; [done|].
    intros c r' Hc. unfold recipe_at. simpl. by rewrite lookup_insert_ne by (intros <-; by eapply Hno).
Qed.

(** *** The moves together *)

(** The state after a connection was freed, closed and dropped. *)
Definition removed_state (s : Kitchen) (c : conn) (r : nat) (k : Recipe) (x : PoolRecipe) : Kitchen :=
  set_heap (insert r (set_conns (conns k ∖ {[c]}) k))
    (set_byConn (delete c) (set_closed (fun l => l ++ [c]) (set_recipes (insert (recipe k) (Free x)) s))).

(** A connection of the kitchen, with what its pointers lead to. *)
Lemma kept_conn O s c r :
  core O s -> byConn s !! c = Some r ->
  exists k x, heap s !! r = Some k /\ recipes s !! recipe k = Some x /\ c ∈ conns k.
Proof.
  intros HC Hc. apply (core_conns _ _ HC) in Hc as (k & Hk & Hin).
  destruct (core_heap _ _ HC r k Hk) as [[x Hx] _]. eauto.
Qed.

Lemma core_removed O s c r k x :
  byConn s !! c = Some r -> heap s !! r = Some k -> recipes s !! recipe k = Some x ->
  core O s -> core O (removed_state s c r k x).
Proof.
  intros Hc Hk Hx HC. pose proof (core_drop O s c r k Hc Hk HC) as HC1.
  apply (core_set_count _ (O ⊎ {[+ Held c +]}) _ (recipe k) x (count x - 1)) in HC1.
  - by apply core_close in HC1.
  - exact Hx.
  - mult.
  - intros t Ht. mult.
  - intros Hm. pose proof (core_max _ _ HC _ _ Hx Hm). lia.
Qed.

Lemma kle_removed s c r k x :
  heap s !! r = Some k -> recipes s !! recipe k = Some x -> kle s (removed_state s c r k x).
Proof.
  intros Hk Hx. etrans; [by apply (kle_set_count s (recipe k) x (count x - 1))|].
  unfold removed_state. etrans; [|by eapply (kle_store _ r k)]. by apply kle_intro; simpl; eauto.
Qed.

Definition same_names (s s' : Kitchen) : Prop :=
  byName s' = byName s /\ order s' = order s /\ arrays s' = arrays s.

#[export] Instance same_names_preorder : PreOrder same_names.
Proof. split; [done|]. intros s1 s2 s3 (? & ? & ?) (? & ? & ?). unfold same_names. split_and!; congruence. Qed.

Lemma named_ext s s' : same_names s s' -> kle s s' -> named s -> named s'.
Proof.
  intros (E1 & E2 & E3) Hle [N1 N2 N3]. split; rewrite ?E1, ?E2, ?E3; [done| |done].
  intros name r Hr. destruct (N2 name r Hr) as [k Hk]. destruct (kle_heap _ _ Hle r k Hk) as (k' & -> & _). eauto.
Qed.

(** The loop of forget. *)
Lemma forget_loop O p r l s k :
  NoDup l -> (forall c, c ∈ l -> byConn s !! c = Some r) ->
  heap s !! r = Some k -> recipe k = p -> core O s ->
  exists s', each (fun c => conn_Close c ;;; recipe_Free p ;;; drop_conn r c) l s = Done tt s' /\
    core O s' /\ kle s s' /\ same_names s s' /\ dialed s' = dialed s /\
    byConn s' = filter (fun cr => cr.1 ∉ l) (byConn s).
Proof.
  revert s k. induction l as [|c l IH]; intros s k Hnd Hl Hk Hp HC.
  { exists s. split_and!; [done..|]. symmetry. apply map_filter_id. simpl. set_solver. }
  assert (Hc := NoDup_cons_1_1 _ _ Hnd). apply NoDup_cons_1_2 in Hnd.
  assert (Hcr : byConn s !! c = Some r) by (apply Hl; left).
  destruct (kept_conn O s c r HC Hcr) as (k' & x & Hk' & Hx & _). simplify_eq.
  destruct (IH (removed_state s c r k x) (set_conns (conns k ∖ {[c]}) k)) as (s' & Hr & HC' & Hle & Hn & Hd & Hb).
  - done.
  - intros c' Hin. simpl. rewrite lookup_delete_ne by set_solver. apply Hl. by right.
  - simpl. by rewrite lookup_insert_eq.
  - done.
  - by apply core_removed.
  - exists s'. split_and!; [|done| | |done|].
    + cbn. rewrite Hx. cbn. rewrite Hk. cbn. exact Hr.
    + etrans; [by eapply kle_removed|done].
    + by etrans.
    + rewrite Hb. simpl. apply map_eq. intros c'. destruct (decide (c' = c)) as [->|Hne].
      * rewrite !map_lookup_filter, lookup_delete_eq, Hcr. simpl.
        rewrite option_guard_False by set_solver. done.
      * rewrite !map_lookup_filter, lookup_delete_ne by done. destruct (byConn s !! c') as [r'|]; [|done]. simpl.
        repeat case_guard; set_solver.
Qed.

Definition iter_ok (it : iteration) : Prop := forall X, it X ≡ₚ elements X.

Lemma iter_elem it X c : iter_ok it -> c ∈ it X <-> c ∈ X.
Proof. intros Hit. red in Hit. by rewrite Hit, elem_of_elements. Qed.

Lemma iter_NoDup it X : iter_ok it -> NoDup (it X).
Proof. intros Hit. red in Hit. rewrite Hit. apply NoDup_elements. Qed.

Lemma remove_first_perm (l : list nat) x : x ∈ l -> l ≡ₚ x :: remove_first x l.
Proof.
  induction l as [|y l IH]; [set_solver|]. simpl. intros Hx. destruct (decide (x = y)) as [->|Hne]; [done|].
  rewrite IH at 1 by set_solver. constructor.
Qed.

Lemma core_order O s o a : core O s -> core O (set_order o a s).
Proof. intros [C1 C2 C3 C4 C5]. by split. Qed.

Lemma core_byName O s f : core O s -> core O (set_byName f s).
Proof. intros [C1 C2 C3 C4 C5]. by split. Qed.

(** Writing valid pointers in an array keeps it valid. *)
Lemma kle_set_order s o id a a' :
  arrays s !! id = Some a -> (length a <= length a')%nat ->
  (forall i r, (i < length a)%nat -> a' !! i = Some r -> a !! i = Some r \/ is_Some (heap s !! r)) ->
  kle s (set_order o (<[id := a']> (arrays s)) s).
Proof.
  intros Ha Hlen Hv. split; simpl; [eauto..|]. intros id' i (b & r & Hb & Hr & Hrs).
  unfold valid_at. simpl. destruct (decide (id' = id)) as [->|];
    [rewrite lookup_insert_eq|rewrite lookup_insert_ne by done; eauto 10]. simplify_eq.
  assert (Hi : (i < length a)%nat) by (by eapply lookup_lt_Some).
  destruct (lookup_lt_is_Some_2 a' i) as [r' Hr']; [lia|]. exists a', r'. split_and!; [done..|].
  destruct (Hv i r' Hi Hr') as [E|]; [|done]. by simplify_eq.
Qed.

Lemma kle_same s s' :
  heap s' = heap s -> recipes s' = recipes s -> arrays s' = arrays s -> kle s s'.
Proof. intros E1 E2 E3. apply kle_intro; rewrite ?E1, ?E2; eauto. Qed.

(** The window of [order] has named recipes only. *)
Lemma named_window s a i r :
  named s -> arrays s !! (order s).1 = Some a -> take (order s).2 a !! i = Some r -> is_Some (heap s !! r).
Proof.
  intros [(b & Hb & Hlen & Hp) N2 _] Ha Hi. simplify_eq.
  assert (Hin : r ∈ (map_to_list (byName s)).*2) by (rewrite <- Hp; by eapply list_elem_of_lookup_2).
  apply list_elem_of_fmap in Hin as ((name & r') & -> & Hin). apply elem_of_map_to_list in Hin. by eapply N2.
Qed.

(** A permutation of the window, and the rest of the array as it was. *)
Lemma kle_permute_window s o a w :
  named s -> arrays s !! (order s).1 = Some a -> w ≡ₚ take (order s).2 a ->
  kle s (set_order o (<[(order s).1 := w ++ drop (order s).2 a]> (arrays s)) s).
Proof.
  intros HN Ha Hw. assert (Hl : length w = length (take (order s).2 a)) by (by rewrite Hw).
  apply (kle_set_order s o _ a); [done|rewrite length_app, Hl, length_take, length_drop; lia|].
  intros i r Hi. rewrite length_take in Hl. destruct (decide (i < length w)%nat) as [Hlt|Hge].
  - rewrite lookup_app_l by done. intros Hr. right.
    assert (Hin : r ∈ take (order s).2 a) by (rewrite <- Hw; by eapply list_elem_of_lookup_2).
    apply list_elem_of_lookup in Hin as [j Hj]. by eapply named_window.
  - rewrite lookup_app_r by lia. rewrite lookup_drop. intros Hr. left. rewrite <- Hr. f_equal. lia.
Qed.

Lemma values_delete (m : gmap string nat) name r :
  m !! name = Some r -> (map_to_list m).*2 ≡ₚ r :: (map_to_list (delete name m)).*2.
Proof.
  intros Hn. rewrite <- (insert_delete_id m name r Hn) at 1.
  rewrite map_to_list_insert by (by simplify_map_eq). done.
Qed.

(** [order_remove] after the name is gone. *)
Lemma order_remove_ok s name r :
  named s -> byName s !! name = Some r ->
  exists s', order_remove r (set_byName (delete name) s) = Done tt s' /\
    kle s s' /\ named s' /\ (forall O, core O s -> core O s') /\
    byName s' = delete name (byName s) /\ byConn s' = byConn s /\ heap s' = heap s /\ dialed s' = dialed s.
Proof.
  intros HN Hr. destruct (named_order _ HN) as (a & Ha & Hlen & Hp).
  destruct (Remove_spec (take (order s).2 a) r) as (orig & HR & Ho).
  assert (Hin : r ∈ take (order s).2 a).
  { rewrite Hp. apply list_elem_of_fmap. exists (name, r). split; [done|]. by apply elem_of_map_to_list. }
  set (w := remove_first r (take (order s).2 a)) in *.
  exists (set_byName (delete name) (set_order ((order s).1, length w) (<[(order s).1 := orig ++ drop (order s).2 a]> (arrays s)) s)).
  assert (Hw : take (order s).2 a ≡ₚ r :: w) by (by apply remove_first_perm).
  assert (Hol : length orig = S (length w)) by (by rewrite Ho, Hw).
  assert (Htl : length (take (order s).2 a) = (order s).2) by (rewrite length_take; lia).
  assert (Hwl : (order s).2 = S (length w)) by (rewrite <- Htl, Hw; done).
  split_and!; [|etrans; [by apply (kle_permute_window s ((order s).1, length w) a orig)|by apply kle_same]| |
    intros O HC; by apply core_byName, core_order|done..].
  - cbn. rewrite Ha. cbn. rewrite HR. done.
  - assert (Htake : take (length w) orig = w).
    { revert HR. unfold Remove. destruct (Index (take (order s).2 a) r) as [i|] eqn:Ei.
      - unfold RemoveIndex. destruct (take (order s).2 a !! i); [|done]. cbn.
        intros [= Eo Ew]. rewrite <- Ew at 2. rewrite Htl. rewrite <- Eo. f_equal; [lia|by rewrite Htl].
      - by apply Index_None in Ei. }
    destruct HN as [_ N2 N3]. split; simpl.
    + eexists. split; [by rewrite lookup_insert_eq|]. split; [rewrite length_app; lia|].
      rewrite take_app_le by lia. rewrite Htake. apply (Permutation_cons_inv (a := r)).
      rewrite <- Hw, Hp. by apply values_delete.
    + intros n' r' [_ Hn]%lookup_delete_Some. by eapply N2.
    + intros n1 n2 r' [_ H1]%lookup_delete_Some [_ H2]%lookup_delete_Some. by eapply N3.
Qed.

(** *** forget *)

Lemma forget_ok it O s name :
  iter_ok it -> core O s -> named s ->
  exists l s', forget it name s = Done l s' /\ kle s s' /\ core O s' /\ named s' /\
    byName s' = delete name (byName s) /\ dialed s' = dialed s /\
    byConn s' = filter (fun cr => byName s !! name <> Some cr.2) (byConn s) /\
    (forall c, c ∈ l <-> exists r, byName s !! name = Some r /\ byConn s !! c = Some r).
Proof.
  intros Hit HC HN. unfold forget. cbn. destruct (byName s !! name) as [r|] eqn:Hr; cycle 1.
  { exists [], s. split_and!; try done.
    - by rewrite delete_id.
    - symmetry. by apply map_filter_id.
    - intros c. split; [set_solver|]. by intros (? & ? & _). }
  destruct (named_heap _ HN name r Hr) as [k Hk]. cbn. rewrite Hk. cbn.
  assert (Hset : forall c, c ∈ it (conns k) <-> byConn s !! c = Some r).
  { intros c. rewrite iter_elem, (core_conns _ _ HC) by done. split; [eauto|]. intros (k' & ? & ?). by simplify_eq. }
  destruct (forget_loop O (recipe k) r (it (conns k)) (set_byName (delete name) s) k) as (s1 & E1 & C1 & L1 & N1 & D1 & B1).
  - by apply iter_NoDup.
  - intros c Hc. by apply Hset.
  - done.
  - done.
  - by apply core_byName.
  - rewrite (mbind_done _ _ _ _ _ E1).
    set (s2 := set_byName (fun _ => byName s) s1).
    assert (Hle : kle s s2).
    { etrans; [by apply (kle_same s (set_byName (delete name) s))|]. etrans; [exact L1|by apply kle_same]. }
    assert (HN2 : named s2).
    { eapply named_ext; [|exact Hle|exact HN]. by destruct N1 as (? & ? & ?). }
    destruct (order_remove_ok s2 name r HN2 Hr) as (s3 & E3 & L3 & N3 & C3 & En & Eb & _ & Ed).
    replace (set_byName (delete name) s2) with s1 in E3.
    2: { destruct N1 as (En1 & _ & _). destruct s1. unfold s2, set_byName in *. simpl in *. by rewrite En1. }
    exists (it (conns k)), s3. rewrite (mbind_done _ _ _ _ _ E3). split_and!; [done|by etrans| |done|done| | |].
    + apply C3. by apply core_byName.
    + by rewrite Ed.
    + rewrite Eb. simpl. rewrite B1. simpl. apply map_filter_ext. intros c r' Hc. simpl. rewrite Hset, Hc. naive_solver.
    + intros c. rewrite Hset. naive_solver.
Qed.

(** *** learn *)

(** The slots and the connections of a Learn in progress. *)
Fixpoint conn_tokens (p : nat) (l : list conn) : gmultiset token :=
  match l with
  | [] => ∅
  | c :: l => {[+ Slot p; Held c +]} ⊎ conn_tokens p l
  end.

Lemma conn_tokens_snoc p l c : conn_tokens p (l ++ [c]) = conn_tokens p l ⊎ {[+ Slot p; Held c +]}.
Proof. induction l as [|c' l IH]; simpl; [multiset_solver|]. rewrite IH. multiset_solver. Qed.

Definition insert_all (r : nat) (l : list conn) (m : gmap conn nat) : gmap conn nat :=
  foldl (fun m c => <[c := r]> m) m l.

Lemma each_insert (r : nat) l s :
  each (S := Kitchen) (Q := request) (R := answer) (fun c => modify (set_byConn (insert c r))) l s =
  Done tt (set_byConn (insert_all r l) s).
Proof.
  revert s. induction l as [|c l IH]; intros s; [by destruct s|]. cbn. rewrite IH. by destruct s.
Qed.

Lemma core_add_all O s r k l :
  heap s !! r = Some k -> core (O ⊎ conn_tokens (recipe k) l) s ->
  core O (set_byConn (insert_all r l) (set_heap (insert r (set_conns (conns k ∪ list_to_set l) k)) s)).
Proof.
  revert s k. induction l as [|c l IH]; intros s k Hk HC; simpl in *.
  - rewrite gmultiset_disj_union_right_id in HC.
    replace (set_conns (conns k ∪ ∅) k) with k by (rewrite (right_id_L ∅ (∪)); by destruct k).
    replace (set_byConn _ _) with s; [done|]. destruct s. simpl in *. unfold set_byConn, set_heap. simpl.
    by rewrite insert_id.
  - replace (O ⊎ ({[+ Slot (recipe k); Held c +]} ⊎ conn_tokens (recipe k) l))
      with ((O ⊎ conn_tokens (recipe k) l) ⊎ {[+ Slot (recipe k); Held c +]}) in HC by multiset_solver.
    apply core_add with (r := r) in HC; [|done].
    apply (IH _ (set_conns (conns k ∪ {[c]}) k)) in HC; [|simpl; by rewrite lookup_insert_eq].
    unfold set_byConn, set_heap, set_conns in *. simpl in *.
    by rewrite insert_insert_eq, <- (assoc_L (∪)) in HC.
Qed.

(** [order_append] of a recipe that has just been named. *)
Lemma order_append_ok room s name r :
  named s -> byName s !! name = None -> is_Some (heap s !! r) ->
  (forall n, byName s !! n <> Some r) ->
  exists s', order_append room r (set_byName (insert name r) s) = Done tt s' /\
    kle s s' /\ named s' /\ (forall O, core O s -> core O s') /\
    byName s' = insert name r (byName s) /\ byConn s' = byConn s /\ heap s' = heap s.
Proof.
  intros HN Hname Hr Hfr. destruct (named_order _ HN) as (a & Ha & Hlen & Hp).
  assert (HNN : forall s' b, heap s' = heap s -> byName s' = insert name r (byName s) ->
    arrays s' !! (order s').1 = Some b -> (order s').2 = S (order s).2 -> (S (order s).2 <= length b)%nat ->
    take (S (order s).2) b = take (order s).2 a ++ [r] -> named s').
  { intros s' b Eh En Hb El Hbl Ht. destruct HN as [_ N2 N3]. split; rewrite ?Eh, ?En, ?El.
    - exists b. split_and!; [done..|]. rewrite Ht, Hp, map_to_list_insert by done. simpl. by rewrite Permutation_app_comm.
    - intros n q. rewrite lookup_insert_Some. intros [[_ <-]|[_ Hn]]; [done|by eapply N2].
    - intros n1 n2 q. rewrite !lookup_insert_Some. naive_solver. }
  cbn. rewrite Ha. cbn. destruct (Nat.ltb_spec (order s).2 (length a)) as [Hlt|Hge].
  - eexists. split; [reflexivity|]. split_and!; [| |intros O HC; by apply core_order, core_byName|done..].
    + etrans; [|by apply (kle_same (set_order ((order s).1, S (order s).2) (<[(order s).1 := <[(order s).2 := r]> a]> (arrays s)) s))].
      apply (kle_set_order s _ _ a); [done|by rewrite length_insert|].
      intros i q Hi. destruct (decide (i = (order s).2)) as [->|].
      * rewrite list_lookup_insert_eq by done. intros [= <-]. by right.
      * rewrite list_lookup_insert_ne by done. by left.
    + eapply (HNN _ (<[(order s).2 := r]> a)); simpl; try done.
      * by rewrite lookup_insert_eq.
      * rewrite length_insert. lia.
      * rewrite (take_S_r _ _ r) by (by apply list_lookup_insert_eq). by rewrite take_insert_ge by lia.
  - eexists. split; [reflexivity|]. set (id := fresh (dom (arrays s))).
    assert (Hid : arrays s !! id = None) by (apply not_elem_of_dom, is_fresh).
    split_and!; [| |intros O HC; by apply core_order, core_byName|done..].
    + split; simpl; [eauto..|]. intros id' i (b & q & Hb & Hq & Hs). exists b, q. simpl.
      rewrite lookup_insert_ne by congruence. done.
    + eapply (HNN _ (take (order s).2 a ++ r :: replicate room nilptr)); simpl; try done.
      * by rewrite lookup_insert_eq.
      * len_lia.
      * rewrite take_app, length_take, Nat.min_l, (take_ge (take _ _)) by len_lia.
        replace (S (order s).2 - (order s).2)%nat with 1%nat by lia. done.
Qed.

Lemma learn_ok it room name p added O s :
  iter_ok it -> is_Some (recipes s !! p) -> core (O ⊎ conn_tokens p added) s -> named s ->
  exists l s', learn it room name p added s = Done l s' /\ kle s s' /\ core O s' /\ named s'.
Proof.
  intros Hit [x Hx] HC HN. unfold learn.
  destruct (forget_ok it _ s name Hit HC HN) as (l & s1 & E1 & L1 & C1 & N1 & En & _ & _).
  rewrite (mbind_done _ _ _ _ _ E1). cbn.
  set (r := fresh ({[nilptr]} ∪ dom (heap s1))).
  assert (Hr : heap s1 !! r = None).
  { apply not_elem_of_dom. pose proof (is_fresh ({[nilptr]} ∪ dom (heap s1))). set_solver. }
  destruct (kle_recipes _ _ L1 p x Hx) as (x' & Hx' & _).
  pose proof (core_new _ s1 r p Hr (mk_is_Some _ _ Hx') C1) as C2.
  set (s2 := set_heap (insert r (NewRecipe p [])) s1) in *.
  apply (core_add_all O s2 r (NewRecipe p [])) in C2; [|simpl; by rewrite lookup_insert_eq].
  set (s3 := set_byConn _ _) in C2.
  rewrite (mbind_done _ _ _ _ _ (each_insert r added _)).
  assert (E3 : set_byConn (insert_all r added) (set_byName (insert name r) (set_heap (insert r (NewRecipe p added)) s1))
             = set_byName (insert name r) s3).
  { unfold s3, s2, set_conns, set_byConn, set_byName, set_heap, NewRecipe. simpl. rewrite insert_insert_eq, (left_id_L ∅ (∪)). done. }
  rewrite E3.
  assert (L3 : kle s1 s3).
  { apply kle_intro; [done| |simpl; eauto]. intros r' k' Hk'. exists k'. simpl.
    rewrite !lookup_insert_ne by congruence. done. }
  assert (N3 : named s3) by (by apply (named_ext s1)).
  destruct (order_append_ok room s3 name r) as (s4 & E4 & L4 & N4 & C4 & _).
  - done.
  - simpl. rewrite En. by simplify_map_eq.
  - simpl. rewrite lookup_insert_eq. eauto.
  - intros n Hn. destruct (named_heap _ N1 n r Hn). congruence.
  - rewrite (mbind_done _ _ _ _ _ E4). exists l, s4. split_and!; [done| |by apply C4|done].
    etrans; [exact L1|]. by etrans.
Qed.

(** ** Interleaved calls *)

(** What a dial, a taste or another lock of the mutex may give. *)
Definition kitchen_answers (q : request) (x : answer) (s s' : Kitchen) (g : gmultiset token) : Prop :=
  match q, x with
  | QDial _, ADial (inl _) | QTaste _ _, ATaste _ | QYield, AYield => s' = s /\ g = ∅
  | QDial _, ADial (inr c) => (c ∉ dialed s) /\ s' = set_dialed (union {[c]}) s /\ g = {[+ Held c +]}
  | _, _ => False
  end.

(** Time passes. *)
Definition kitchen_env (s s' : Kitchen) : Prop := exists t, s' = set_clock t s.

Section Calls.
Context (critics : list nat) `{SortSlice} (known : gset nat).

(** Any calls of the methods, with recipes that exist. *)
Inductive kitchen_op : Mk unit -> Prop :=
| op_Learn it room name p : iter_ok it -> p ∈ known -> kitchen_op (do _ <- Learn it room name p in mret tt)
| op_Forget it name : iter_ok it -> kitchen_op (do _ <- Forget it name in mret tt)
| op_Empty : kitchen_op (do _ <- Empty in mret tt)
| op_Cook names : kitchen_op (do _ <- Cook critics names in mret tt)
| op_Burn c : kitchen_op (Burn c)
| op_Ignite c : kitchen_op (do _ <- Ignite c in mret tt)
| op_Cancel c : kitchen_op (Cancel c)
| op_Close it : iter_ok it -> kitchen_op (Close it).

(** MakeChef, and recipes from which nothing was dialed. *)
Definition kitchen_init (s : Kitchen) : Prop :=
  byName s = ∅ /\ byConn s = ∅ /\ heap s = ∅ /\ dialed s = ∅ /\ closed s = [] /\
  order s = (0%nat, 0%nat) /\ arrays s = {[0%nat := []]} /\ known ⊆ dom (recipes s) /\
  forall p x, recipes s !! p = Some x -> count x = 0.

Definition kitchen_reachable := sys_reachable kitchen_answers kitchen_env kitchen_op kitchen_init.

Definition I (O : gmultiset token) (s : Kitchen) : Prop := core O s /\ named s /\ known ⊆ dom (recipes s).

Abbreviation ktriple := (triple kitchen_answers I kle).

Definition has_recipe (p : nat) (s : Kitchen) : Prop := is_Some (recipes s !! p).
Definition points_to (r p : nat) (s : Kitchen) : Prop := recipe_at s r = Some p.
Abbreviation stable := (Conc.stable kle).

Lemma stable_has p : stable (has_recipe p).
Proof. intros s s' Hle [x Hx]. destruct (kle_recipes _ _ Hle p x Hx) as (x' & E & _). by exists x'. Qed.

Lemma stable_points r p : stable (points_to r p).
Proof.
  intros s s' Hle. unfold points_to, recipe_at. destruct (heap s !! r) as [k|] eqn:Hk; [|done].
  destruct (kle_heap _ _ Hle r k Hk) as (k' & -> & E). simpl. by rewrite E.
Qed.

Lemma stable_valid (W : nat -> nat -> Prop) : stable (fun s => forall id i, W id i -> valid_at s id i).
Proof. intros s s' Hle HW id i Hi. apply (kle_arrays _ _ Hle), HW, Hi. Qed.

Lemma k_answers_le q x s s' g : kitchen_answers q x s s' g -> kle s s'.
Proof. destruct q, x as [[]| |]; simpl; try done; intros Hq; destruct_and! Hq; subst; by apply kle_same. Qed.

Lemma known_le s s' : kle s s' -> known ⊆ dom (recipes s) -> known ⊆ dom (recipes s').
Proof.
  intros Hle Hk p Hp. apply Hk, elem_of_dom in Hp as [x Hx].
  destruct (kle_recipes _ _ Hle p x Hx) as (x' & E & _). apply elem_of_dom. eauto.
Qed.

Lemma k_answers_I q x s s' g O : kitchen_answers q x s s' g -> I O s -> I (O ⊎ g) s'.
Proof.
  intros Hq (HC & HN & HK). pose proof (k_answers_le _ _ _ _ _ Hq) as Hle.
  assert (HK' : known ⊆ dom (recipes s')) by (by eapply known_le).
  assert (HN' : same_names s s' -> named s') by (intros; by eapply named_ext).
  destruct q, x as [[]| |]; simpl in Hq; try done.
  2: { destruct Hq as (Hc & -> & ->). split_and!; [by apply core_dialed|by apply HN'|done]. }
  all: destruct Hq as (-> & ->); split_and!; try done; by rewrite gmultiset_disj_union_right_id.
Qed.

Lemma k_env_le s s' : kitchen_env s s' -> kle s s'.
Proof. intros [t ->]. by apply kle_same. Qed.

Lemma k_env_I s s' O : kitchen_env s s' -> I O s -> I O s'.
Proof.
  intros [t ->] ([C1 C2 C3 C4 C5] & HN & HK). split_and!; [by split| |done].
  eapply named_ext; [| |exact HN]; [done|by apply kle_same].
Qed.

(** *** Rules *)

Lemma k_bind {A B} own Pre (m : Mk A) P (f : A -> Mk B) P' :
  ktriple own Pre m P -> (forall a own', ktriple own' (P a own') (f a) P') -> ktriple own Pre (mbind m f) P'.
Proof. apply triple_bind; [tc_solve|apply k_answers_le]. Qed.

Lemma k_weaken {A} own (Pre Pre' : Kitchen -> Prop) (m : Mk A) (P P' : A -> gmultiset token -> Kitchen -> Prop) :
  ktriple own Pre m P -> (forall s, Pre' s -> Pre s) -> (forall a o s, P a o s -> P' a o s) -> ktriple own Pre' m P'.
Proof. apply triple_weaken; [tc_solve|apply k_answers_le]. Qed.

(** The tokens after [m] are known. *)
Lemma k_then {A B} own own' Pre (m : Mk A) (P : A -> Kitchen -> Prop) (f : A -> Mk B) P' :
  ktriple own Pre m (fun a o s => P a s /\ o = own' a) ->
  (forall a, ktriple (own' a) (P a) (f a) P') -> ktriple own Pre (mbind m f) P'.
Proof.
  apply triple_then; [tc_solve|apply k_answers_le].
Qed.

Lemma k_seq {A B} own own' Pre (m : Mk A) (P : Kitchen -> Prop) (f : Mk B) P' :
  ktriple own Pre m (fun _ o s => P s /\ o = own') -> ktriple own' P f P' -> ktriple own Pre (m ;;; f) P'.
Proof. apply triple_seq; [tc_solve|apply k_answers_le]. Qed.

Lemma k_ask own Pre q :
  stable Pre ->
  ktriple own Pre (ask q) (fun x own' s => Pre s /\ exists s1 g, kitchen_answers q x s1 s g /\ own' = own ⊎ g).
Proof.
  apply triple_ask_stable; [tc_solve|apply k_answers_I|apply k_answers_le].
Qed.

(** Go on with the answer that fits a request. *)
Ltac answered :=
  let x := fresh "x" in let HI := fresh in let HP := fresh in let Hx := fresh in
  intros x ? F s HI (HP & ? & ? & Hx & ->);
  destruct x as [[?|?]| |]; simpl in Hx; try done; simpl; (split; [reflexivity|]);
  eexists; (split; [exact HI|]); (split; [done|]); destruct_and! Hx; subst;
  by rewrite ?gmultiset_disj_union_right_id.

Lemma k_dial own Pre p :
  stable Pre ->
  ktriple own Pre (dial p) (fun d own' s => Pre s /\
    own' = match d with inl _ => own | inr c => own ⊎ {[+ Held c +]} end).
Proof. intros Hst. eapply k_bind; [by apply k_ask|]. answered. Qed.

Lemma k_taste own Pre critic c :
  stable Pre -> ktriple own Pre (taste critic c) (fun _ own' s => Pre s /\ own' = own).
Proof. intros Hst. eapply k_bind; [by apply k_ask|]. answered. Qed.

Lemma k_yield own Pre :
  stable Pre -> ktriple own Pre yield_ (fun _ own' s => Pre s /\ own' = own).
Proof. intros Hst. eapply k_bind; [by apply k_ask|]. answered. Qed.

(** A segment that changes counters, connections or recipes only. *)
Lemma k_segment {A} own own' Pre (m : Mk A) (P : A -> Prop) :
  stable Pre ->
  (forall F s, I (F ⊎ own) s -> Pre s -> exists a s', m s = Done a s' /\
     kle s s' /\ core (F ⊎ own' a) s' /\ same_names s s' /\ P a) ->
  ktriple own Pre m (fun a o s => Pre s /\ o = own' a /\ P a).
Proof.
  intros Hst Hm. apply triple_atomic; [tc_solve|]. intros F s HI HP.
  destruct (Hm F s HI HP) as (a & s' & E & Hle & HC & Hn & Ha). destruct HI as (_ & HN & HK).
  exists a, s', (own' a). split_and!; [done|done| |by eapply Hst|done|done].
  split_and!; [done|by eapply named_ext|by eapply known_le].
Qed.

Lemma set_recipes_id s p x : recipes s !! p = Some x -> set_recipes (insert p x) s = s.
Proof. intros Hx. destruct s. unfold set_recipes. simpl in *. by rewrite insert_id. Qed.

Lemma k_Free own Pre p :
  stable Pre -> (forall s, Pre s -> has_recipe p s) ->
  ktriple (own ⊎ {[+ Slot p +]}) Pre (recipe_Free p) (fun _ o s => Pre s /\ o = own).
Proof.
  intros Hst Hp. eapply k_weaken; [apply (k_segment _ (fun _ => own) Pre _ (fun _ => True) Hst)|done|naive_solver].
  intros F s (HC & _ & _) HP. destruct (Hp s HP) as [x Hx]. exists tt. eexists. cbn. rewrite Hx. cbn.
  split; [reflexivity|]. split_and!; [by apply kle_set_count| |done..].
  eapply core_set_count; [done|exact HC|mult|intros; mult|]. intros Hm. pose proof (core_max _ _ HC _ _ Hx Hm). lia.
Qed.

Lemma k_Allocate Pre p :
  stable Pre -> (forall s, Pre s -> has_recipe p s) ->
  ktriple ∅ Pre (recipe_Allocate p) (fun ok o s => Pre s /\ o = if ok then {[+ Slot p +]} else ∅).
Proof.
  intros Hst Hp. eapply k_weaken; [apply (k_segment _ (fun ok : bool => if ok then {[+ Slot p +]} else ∅) Pre _ (fun _ => True) Hst)|done|naive_solver].
  intros F s (HC & _ & _) HP. destruct (Hp s HP) as [x Hx]. eexists. eexists. cbn. rewrite Hx. cbn.
  split; [reflexivity|]. unfold Allocate.
  destruct (negb (MaxConnections x =? 0) && (count x >=? MaxConnections x)) eqn:E; simpl.
  - rewrite set_recipes_id by done. by split_and!.
  - split_and!; [by apply kle_set_count| |done..].
    eapply core_set_count; [done|exact HC|mult|intros; mult|]. intros Hm.
    apply andb_false_iff in E as [E|E]; [apply negb_false_iff, Z.eqb_eq in E; done|]. lia.
Qed.

Lemma k_AllocateInitial Pre p :
  stable Pre -> (forall s, Pre s -> has_recipe p s) ->
  ktriple ∅ Pre (recipe_AllocateInitial p) (fun n o s => Pre s /\ o = slots (Z.to_nat n) p).
Proof.
  intros Hst Hp. eapply k_weaken; [apply (k_segment _ (fun n => slots (Z.to_nat n) p) Pre _ (fun _ => True) Hst)|done|naive_solver].
  intros F s (HC & _ & _) HP. destruct (Hp s HP) as [x Hx]. eexists. eexists. cbn. rewrite Hx. cbn.
  split; [reflexivity|]. unfold AllocateInitial. destruct (Z.geb_spec (count x) (MinConnections x)) as [Hge|Hlt]; cbn [fst snd].
  - replace (slots (Z.to_nat 0) p) with (∅ : gmultiset token) by (apply gmultiset_eq; intros; mult).
    rewrite set_recipes_id by done. by split_and!.
  - split_and!; [by apply kle_set_count| |done..].
    eapply core_set_count; [done|exact HC|mult|intros; mult|]. intros Hm.
    pose proof (core_max _ _ HC _ _ Hx Hm). lia.
Qed.

(** *** The operations *)

Lemma slots_S n p : slots (S n) p = slots n p ⊎ {[+ Slot p +]}.
Proof. apply gmultiset_eq. intros t. mult. Qed.

Lemma slots_0 p : slots 0 p = ∅.
Proof. apply gmultiset_eq. intros t. mult. Qed.

Lemma k_free_rest n own p :
  ktriple (own ⊎ slots n p) (has_recipe p) (free_rest n p) (fun _ o s => has_recipe p s /\ o = own).
Proof.
  revert own. induction n as [|n IH]; intros own; simpl.
  - rewrite slots_0, gmultiset_disj_union_right_id. by apply triple_ret; [tc_solve|].
  - rewrite slots_S, (assoc_L (⊎)).
    eapply k_seq; [apply k_Free; [apply stable_has|done]|].
    eapply k_seq; [apply k_yield, stable_has|]. apply IH.
Qed.

Lemma k_dial_initial n p added :
  ktriple (conn_tokens p added ⊎ slots n p) (has_recipe p) (dial_initial n p added)
    (fun l o s => has_recipe p s /\ o = conn_tokens p l).
Proof.
  revert added. induction n as [|n IH]; intros added.
  - rewrite slots_0, gmultiset_disj_union_right_id. by apply triple_ret; [tc_solve|].
  - cbn [dial_initial]. eapply k_then; [apply (k_dial _ (has_recipe p)), stable_has|]. intros [e|c].
    + eapply k_seq; [apply k_free_rest|]. by apply triple_ret; [tc_solve|].
    + replace (conn_tokens p added ⊎ slots (S n) p ⊎ {[+ Held c +]})
        with (conn_tokens p (added ++ [c]) ⊎ slots n p); [apply IH|].
      rewrite slots_S, conn_tokens_snoc. apply gmultiset_eq. intros t. mult.
Qed.

(** A segment from one state of the invariant to another. *)
Lemma k_inv_segment {A} own Pre (m : Mk A) :
  (forall F s, core (F ⊎ own) s -> named s -> Pre s ->
     exists a s', m s = Done a s' /\ kle s s' /\ core F s' /\ named s') ->
  ktriple own Pre m (fun _ o _ => True /\ o = ∅).
Proof.
  intros Hm. apply triple_atomic; [tc_solve|]. intros F s (HC & HN & HK) HP.
  destruct (Hm F s HC HN HP) as (l & s' & E & Hle & HC' & HN').
  exists l, s', ∅. rewrite gmultiset_disj_union_right_id. split_and!; try done.
  split_and!; [done..|by eapply known_le].
Qed.

Lemma k_Learn it room name p :
  iter_ok it -> ktriple ∅ (has_recipe p) (Learn it room name p) (fun _ o _ => True /\ o = ∅).
Proof.
  intros Hit. eapply k_then; [apply (k_AllocateInitial (has_recipe p)); [apply stable_has|done]|]. intros n.
  eapply k_then.
  { rewrite <- (gmultiset_disj_union_left_id (slots _ _)). apply (k_dial_initial (Z.to_nat n) p []). }
  intros added. eapply k_seq; [apply k_yield, stable_has|].
  eapply k_then; [|intros l; by apply triple_ret; [tc_solve|]].
  apply k_inv_segment. intros F s HC HN Hp. by apply learn_ok.
Qed.

Lemma need_some {A} (o : option A) a (s : Kitchen) : o = Some a -> need (Q := request) (R := answer) o s = Done a s.
Proof. by intros ->. Qed.

Lemma load_some s r k : heap s !! r = Some k -> load r s = Done k s.
Proof. intros Hk. unfold load. cbn. by rewrite Hk. Qed.

(** Run [m] up to a point. *)
Lemma k_unroll {A} own Pre (m : Mk A) P :
  (forall F s, I (F ⊎ own) s -> Pre s -> exists m' s' own' Pre',
     m s = m' s' /\ kle s s' /\ I (F ⊎ own') s' /\ Pre' s' /\ ktriple own' Pre' m' P) ->
  ktriple own Pre m P.
Proof.
  apply triple_unroll; [tc_solve|apply k_answers_le].
Qed.

Lemma I_store O s r k k' :
  heap s !! r = Some k -> recipe k' = recipe k -> conns k' = conns k -> slice_wf (ratings k') ->
  I O s -> I O (set_heap (insert r k') s) /\ kle s (set_heap (insert r k') s).
Proof.
  intros Hk Er Ec Hwf (HC & HN & HK). assert (Hle := kle_store s r k k' Hk Er). split; [|done].
  split_and!; [by eapply core_store|by apply (named_ext s)|done].
Qed.

Lemma k_store_seq {A} own r k Pre (m : Mk A) P k' :
  stable Pre -> recipe k' = recipe k -> conns k' = conns k -> slice_wf (ratings k') ->
  ktriple own Pre m P ->
  forall F s, heap s !! r = Some k -> I (F ⊎ own) s -> Pre s ->
  safe kitchen_answers I kle P F s (m (set_heap (insert r k') s)).
Proof.
  intros Hst Er Ec Hwf Hm F s Hk HI HP. destruct (I_store _ s r k k' Hk Er Ec Hwf HI) as [HI' Hle].
  eapply safe_mono; [tc_solve|apply k_answers_le|exact Hle| |apply Hm; [done|by eapply Hst]]. done.
Qed.

Lemma points_heap r p s : points_to r p s -> exists k, heap s !! r = Some k /\ recipe k = p.
Proof. unfold points_to, recipe_at. destruct (heap s !! r) as [k|]; [|done]. intros [= <-]. eauto. Qed.

Lemma k_close own Pre c :
  stable Pre -> ktriple (own ⊎ {[+ Held c +]}) Pre (conn_Close c) (fun _ o s => Pre s /\ o = own).
Proof.
  intros Hst. eapply k_weaken; [apply (k_segment _ (fun _ => own) Pre _ (fun _ => True) Hst)|done|naive_solver].
  intros F s (HC & _ & _) HP. exists tt. eexists. split; [reflexivity|].
  split_and!; [by apply kle_same| |done..]. apply core_close. by rewrite <- (assoc_L (⊎)).
Qed.

Lemma k_taste_all own Pre cs c total :
  stable Pre ->
  ktriple own Pre (taste_all cs c total) (fun res o s =>
    (Pre s /\ match res with inl _ => True | inr (l, _) => length l = length cs end) /\ o = own).
Proof.
  intros Hst. revert total. induction cs as [|[critic|] cs IH]; intros total; cbn [taste_all].
  - by apply triple_ret; [tc_solve|].
  - eapply k_then; [by apply (k_taste own Pre)|]. intros [e|[sc validity]]; [by apply triple_ret; [tc_solve|]|].
    apply k_unroll. intros F s HI HP. eexists _, s, own, Pre. cbn. split; [reflexivity|]. split_and!; try done.
    eapply k_then; [apply IH|]. intros [e|[l total']]; apply triple_ret; try tc_solve; intros s' [? ?]; simpl; by split_and!; auto.
  - eapply k_then; [apply IH|]. intros [e|[l total']]; apply triple_ret; try tc_solve; intros s' [? ?]; simpl; by split_and!; auto.
Qed.

Lemma write_ratings_ok new i l :
  (i + length new <= len l)%nat -> slice_wf l ->
  exists l', write_ratings i new l = Some l' /\ slice_wf l' /\ len l' = len l.
Proof.
  revert i l. induction new as [|[x|] new IH]; intros i l Hi Hwf; simpl in *; [eauto| |apply IH; [lia|done]].
  destruct (Nat.ltb_spec i (len l)); [|lia].
  destruct (IH (S i) (Slice (<[i:=x]> (arr l)) (len l))) as (l' & E & Hwf' & Hl'); simpl.
  - lia.
  - unfold slice_wf, cap in *. simpl. by rewrite length_insert.
  - eauto.
Qed.

Lemma k_score r p :
  ktriple ∅ (points_to r p) (score critics r) (fun _ o s => points_to r p s /\ o = ∅).
Proof.
  intros F s HI Hp. destruct (points_heap r p s Hp) as (k & Hk & <-). cbn. rewrite Hk. cbn.
  destruct (proj1 HI) as [_ C2 _ _ _]. destruct (C2 r k Hk) as [_ Hwf].
  destruct (Resize_spec (ratings k) (length critics) Hwf) as (_ & Hlen & Hwf').
  set (l := Resize (ratings k) (length critics)) in *.
  assert (Hel : length (elems l) = length critics) by (unfold elems, slice_wf, cap in *; rewrite length_take; lia).
  revert F s HI Hp Hk C2. intros F s HI Hp Hk _. revert Hk HI Hp.
  apply (k_store_seq ∅ r k (points_to r (recipe k))); [apply stable_points|done..|].
  destruct (forallb _ (elems l)); [by apply triple_ret; [tc_solve|]|].
  eapply k_then; [apply (k_dial _ (points_to r (recipe k))), stable_points|].
  intros [e|c]; [by apply triple_ret; [tc_solve|]|].
  eapply k_then; [apply (k_taste_all (∅ ⊎ {[+ Held c +]}) (points_to r (recipe k)) (stale critics (clock s) (elems l)) c), stable_points|]. intros res.
  eapply k_seq; [apply k_close, stable_and; [apply stable_points|apply stable_pure]|].
  destruct res as [e|[new total]]; [apply triple_ret; [tc_solve|naive_solver]|].
  intros F' s' HI' [Hp' Hnew]. destruct (points_heap _ _ _ Hp') as (k' & Hk' & Er). cbn. rewrite Hk'. cbn.
  destruct (core_heap _ _ (proj1 HI') r k' Hk') as [_ Hwf2].
  destruct (Resize_spec (ratings k') (length critics) Hwf2) as (_ & Hlen2 & Hwf3).
  destruct (write_ratings_ok new 0 (Resize (ratings k') (length critics))) as (l2 & E2 & Hwf4 & _); [|done|].
  { rewrite Hnew, Hlen2. unfold stale. rewrite length_zip_with. lia. }
  rewrite E2. destruct (I_store (F' ⊎ ∅) s' r k' (set_ratings l2 (set_score total k')) Hk') as [HI2 Hle]; [done..|].
  cbn. split; [done|]. exists ∅. split_and!; [done| |done]. by eapply stable_points.
Qed.

(** *** Cook *)

Lemma k_score_named name :
  ktriple ∅ (fun _ => True) (score_named critics name) (fun _ o _ => o = ∅).
Proof.
  intros F s HI _. cbn. destruct (byName s !! name) as [r|] eqn:Hn.
  2: { cbn. split; [reflexivity|]. by exists ∅. }
  destruct (named_heap _ (proj1 (proj2 HI)) name r Hn) as [k Hk].
  assert (Hp : points_to r (recipe k) s) by (unfold points_to, recipe_at; by rewrite Hk).
  clear Hn Hk. revert F s HI Hp.
  change (ktriple ∅ (points_to r (recipe k))
    (do e <- score critics r in match e with None => mret tt | Some _ => do k <- load r in store r (set_score MaxInt k) end)
    (fun _ o _ => o = ∅)).
  eapply k_then; [apply k_score|]. intros [e|]; [|apply triple_ret; [tc_solve|done]].
  intros F s HI Hp. destruct (points_heap _ _ _ Hp) as (k' & Hk' & Er). cbn. rewrite Hk'. cbn.
  destruct (core_heap _ _ (proj1 HI) r k' Hk') as [_ Hwf].
  destruct (I_store (F ⊎ ∅) s r k' (set_score MaxInt k') Hk') as [HI2 Hle]; [done..|]. split; [done|]. by exists ∅.
Qed.

Lemma sort_order_ok s :
  named s -> exists a w, arrays s !! (order s).1 = Some a /\ w = sort_slice (less s) (take (order s).2 a) /\
    w ≡ₚ take (order s).2 a /\
    let s' := set_order (order s) (<[(order s).1 := w ++ drop (order s).2 a]> (arrays s)) s in
    sort_order s = Done tt s' /\ kle s s' /\ named s' /\ (forall O, core O s -> core O s') /\
    (forall i, (i < (order s).2)%nat -> valid_at s' (order s).1 i).
Proof.
  intros HN. pose proof (named_order _ HN) as (a & Ha & Hlen & Hp).
  exists a, (sort_slice (less s) (take (order s).2 a)). split; [done|]. split; [done|].
  set (w := sort_slice _ _). assert (Hw : w ≡ₚ take (order s).2 a) by apply sort_slice_perm. split; [done|]. simpl.
  assert (Hwl : length w = (order s).2) by (rewrite Hw, length_take; lia).
  split_and!; [|by apply kle_permute_window| |intros O HC; by apply core_order|].
  - cbn. rewrite Ha. done.
  - destruct HN as [_ N2 N3]. split; simpl; [|done..]. eexists. split; [by rewrite lookup_insert_eq|].
    split; [rewrite length_app; lia|]. rewrite take_app_le, take_ge by lia. by rewrite Hw.
  - intros i Hi. destruct (lookup_lt_is_Some_2 w i) as [r Hr]; [lia|].
    exists (w ++ drop (order s).2 a), r. simpl. rewrite lookup_insert_eq, lookup_app_l by lia. split_and!; [done..|].
    assert (Hin : r ∈ take (order s).2 a) by (rewrite <- Hw; by eapply list_elem_of_lookup_2).
    apply list_elem_of_lookup in Hin as [j Hj]. by eapply named_window.
Qed.

Lemma k_add_conn r p c :
  ktriple ({[+ Slot p +]} ⊎ {[+ Held c +]}) (points_to r p) (add_conn r c) (fun _ o _ => True /\ o = ∅).
Proof.
  apply k_inv_segment. intros F s HC HN Hp. destruct (points_heap _ _ _ Hp) as (k & Hk & <-).
  apply core_add with (r := r) in HC; [|done]. exists tt. eexists. cbn. rewrite Hk. cbn.
  split; [reflexivity|]. assert (Hle : kle s (set_byConn (insert c r) (set_heap (insert r (set_conns (conns k ∪ {[c]}) k)) s))).
  { etrans; [by eapply (kle_store s r k (set_conns (conns k ∪ {[c]}) k))|by apply kle_same]. }
  split_and!; [done..|]. by apply (named_ext s).
Qed.

Lemma k_cook_loop m i id :
  ktriple ∅ (fun s => forall j, (i <= j < i + m)%nat -> valid_at s id j) (cook_loop m i id) (fun _ o _ => True /\ o = ∅).
Proof.
  revert i. induction m as [|m IH]; intros i; cbn [cook_loop]; [by apply triple_ret; [tc_solve|]|].
  apply k_unroll. intros F s HI HW. destruct (HW i ltac:(lia)) as (a & r & Ha & Hr & [k Hk]).
  assert (Hp : points_to r (recipe k) s) by (unfold points_to, recipe_at; by rewrite Hk).
  assert (Hx : has_recipe (recipe k) s) by apply (core_heap _ _ (proj1 HI) r k Hk).
  set (Pre := fun s => (points_to r (recipe k) s /\ has_recipe (recipe k) s) /\ forall id' j, id' = id /\ (S i <= j < S i + m)%nat -> valid_at s id' j).
  assert (HPre : Pre s) by (split; [done|]; intros id' j [-> Hj]; apply HW; lia).
  assert (Hst : stable Pre).
  { apply stable_and; [apply stable_and; [apply stable_points|apply stable_has]|].
    exact (stable_valid (fun id' j => id' = id /\ (S i <= j < S i + m)%nat)). }
  assert (HIH : ktriple ∅ Pre (cook_loop m (S i) id) (fun _ o _ => True /\ o = ∅)).
  { eapply k_weaken; [apply (IH (S i))|intros s' [_ Hv] j Hj; by apply Hv|done]. }
  eexists _, s, ∅, Pre. split.
  { rewrite (mbind_done mget _ s s s eq_refl), (mbind_done _ _ _ _ _ (need_some _ _ s Ha)),
      (mbind_done _ _ _ _ _ (need_some _ _ s Hr)), (mbind_done _ _ _ _ _ (load_some _ _ _ Hk)). reflexivity. }
  split_and!; [done..|]. eapply k_then; [apply (k_Allocate Pre); [done|by intros ? [[_ ?] _]]|].
  intros [|]; simpl; [|exact HIH].
  eapply k_then; [apply (k_dial {[+ Slot (recipe k) +]} Pre (recipe k) Hst)|]. intros [e|c].
  - rewrite <- (gmultiset_disj_union_left_id {[+ Slot (recipe k) +]}).
    eapply k_seq; [apply (k_Free _ Pre); [done|by intros ? [[_ ?] _]]|].
    apply k_unroll. intros F' s' HI' HP'. eexists _, s', ∅, Pre. rewrite (mbind_done mget _ s' s' s' eq_refl).
    split; [reflexivity|]. split_and!; [done..|]. destruct (_ =? _); [|done]. by apply triple_ret; [tc_solve|].
  - apply (k_seq _ ∅ _ _ (fun _ => True)); [eapply k_weaken; [apply (k_add_conn r (recipe k) c)|by intros ? [[? _] _]|done]|].
    by apply triple_ret; [tc_solve|].
Qed.

Lemma k_cook_best : ktriple ∅ (fun _ => True) cook_best (fun _ o _ => True /\ o = ∅).
Proof.
  apply k_unroll. intros F s (HC & HN & HK) _.
  destruct (sort_order_ok s HN) as (a & w & Ha & _ & Hw & E & Hle & HN' & HC' & HV).
  eexists (cook_loop (order s).2 0 (order s).1), _, ∅, _. unfold cook_best. rewrite (mbind_done _ _ _ _ _ E).
  split; [reflexivity|]. split_and!; [done| | |apply k_cook_loop].
  - split_and!; [by apply HC'|done|by eapply known_le].
  - intros j Hj. apply HV. lia.
Qed.

(** *** Burn and the rest *)

Lemma Burn_ok O s c :
  core O s -> exists s', Burn c s = Done tt s' /\ kle s s' /\ core O s' /\ same_names s s' /\
    dialed s' = dialed s /\ byConn s' = delete c (byConn s).
Proof.
  intros HC. cbn. destruct (byConn s !! c) as [r|] eqn:Hc.
  2: { exists s. split_and!; try done. by rewrite delete_id. }
  destruct (kept_conn _ _ _ _ HC Hc) as (k & x & Hk & Hx & _). exists (removed_state s c r k x).
  cbn. rewrite Hk. cbn. rewrite Hx. cbn. rewrite Hk. cbn.
  split_and!; [done|by apply kle_removed|by apply core_removed|done..].
Qed.

Lemma Ignite_ok O s c :
  core O s -> exists b s', Ignite c s = Done b s' /\ kle s s' /\ core O s' /\ same_names s s' /\
    dialed s' = dialed s /\ byConn s' = if b then delete c (byConn s) else byConn s.
Proof.
  intros HC. cbn. destruct (byConn s !! c) as [r|] eqn:Hc; [|by exists false, s].
  destruct (kept_conn _ _ _ _ HC Hc) as (k & x & Hk & Hx & _). cbn. rewrite Hk. cbn. rewrite Hx. cbn. unfold TryFree.
  destruct (count x <=? MinConnections x); cbn.
  - exists false, s. rewrite set_recipes_id by done. by split_and!.
  - exists true, (removed_state s c r k x). rewrite Hk. cbn.
    split_and!; [done|by apply kle_removed|by apply core_removed|done..].
Qed.

Lemma each_Burn_ok O l s :
  core O s -> exists s', each Burn l s = Done tt s' /\ kle s s' /\ core O s' /\ same_names s s' /\
    dialed s' = dialed s /\ forall c, byConn s' !! c = if decide (c ∈ l) then None else byConn s !! c.
Proof.
  revert s. induction l as [|c l IH]; intros s HC.
  { exists s. split_and!; try done. }
  destruct (Burn_ok O s c HC) as (s1 & E1 & L1 & C1 & N1 & D1 & B1).
  destruct (IH s1 C1) as (s2 & E2 & L2 & C2 & N2 & D2 & B2). exists s2.
  cbn [each]. rewrite (mbind_done _ _ _ _ _ E1). split_and!; [done|by etrans|done|by etrans|congruence|].
  intros c'. rewrite B2, B1. destruct (decide (c' = c)) as [->|Hne].
  - rewrite lookup_delete_eq, (decide_True (P := c ∈ c :: l)) by set_solver. by destruct (decide (c ∈ l)).
  - rewrite lookup_delete_ne by done. repeat gdecide; set_solver.
Qed.

Lemma chef_Close_ok it O s :
  iter_ok it -> core O s -> named s ->
  exists s', Close it s = Done tt s' /\ kle s s' /\ core O s' /\ named s' /\ byConn s' = ∅ /\ byName s' = ∅ /\
    dialed s' = dialed s.
Proof.
  intros Hit HC HN. set (s1 := set_order ((order s).1, 0%nat) (arrays s) (set_byName (fun _ => ∅) s)).
  assert (L1 : kle s s1) by (by apply kle_same).
  assert (N1 : named s1).
  { destruct HN as [(a & Ha & Hlen & Hp) _ _]. split; simpl; [|done..]. exists a. split_and!; [done|lia|].
    by rewrite map_to_list_empty. }
  destruct (each_Burn_ok O (it (dom (byConn s))) s1) as (s' & E & L2 & C2 & N2 & D2 & B2).
  { by apply core_order, core_byName. }
  exists s'. split_and!; [exact E|by etrans|done|by apply (named_ext s1)| |by destruct N2|done].
  apply map_eq. intros c. rewrite B2, lookup_empty. destruct (decide _) as [|Hc]; [done|].
  rewrite iter_elem in Hc by done. by apply not_elem_of_dom in Hc.
Qed.

Lemma k_discard {A} Pre (m : Mk A) :
  ktriple ∅ Pre m (fun _ o _ => True /\ o = ∅) -> ktriple ∅ Pre (do _ <- m in mret tt) (fun _ o _ => o = ∅).
Proof. intros Hm. eapply k_seq; [exact Hm|]. by apply triple_ret; [tc_solve|]. Qed.

Lemma k_unit Pre (m : Mk unit) :
  ktriple ∅ Pre m (fun _ o _ => True /\ o = ∅) -> ktriple ∅ Pre m (fun _ o _ => o = ∅).
Proof. intros Hm. eapply k_weaken; [exact Hm|done|naive_solver]. Qed.

Lemma core_right_id O s : core (O ⊎ ∅) s -> core O s.
Proof. by rewrite gmultiset_disj_union_right_id. Qed.

Lemma k_known {A} p (m : Mk A) P : p ∈ known -> ktriple ∅ (has_recipe p) m P -> ktriple ∅ (fun _ => True) m P.
Proof. intros Hp Hm F s HI _. apply Hm; [done|]. by apply elem_of_dom, HI. Qed.

Lemma k_op_safe m : kitchen_op m -> ktriple ∅ (fun _ => True) m (fun _ o _ => o = ∅).
Proof.
  intros []; (apply k_discard || apply k_unit || idtac).
  - apply (k_known p); [done|]. by apply k_Learn.
  - apply k_inv_segment. intros F s HC%core_right_id HN _.
    destruct (forget_ok it F s name) as (l & s' & E & ?); [done..|]. exists l, s'. naive_solver.
  - apply k_inv_segment. intros F s HC%core_right_id HN _. by eexists _, s.
  - eapply k_seq; [|apply k_cook_best].
    eapply k_weaken; [apply (triple_each kitchen_answers I kle k_answers_le (fun _ => True) (score_named critics) names)|done|naive_solver].
    + done.
    + intros name _. apply k_score_named.
  - apply k_inv_segment. intros F s HC%core_right_id HN _. destruct (Burn_ok F s c) as (s' & E & L & C & N & _); [done|].
    exists tt, s'. split_and!; [done..|]. by apply (named_ext s).
  - apply k_inv_segment. intros F s HC%core_right_id HN _. destruct (Ignite_ok F s c) as (b & s' & E & L & C & N & _); [done|].
    exists b, s'. split_and!; [done..|]. by apply (named_ext s).
  - apply k_inv_segment. intros F s HC%core_right_id HN _. cbn. destruct (byConn s !! c) as [r|] eqn:Hc.
    + destruct (kept_conn _ _ _ _ HC Hc) as (k & x & Hk & Hx & _). cbn. rewrite Hk. cbn.
      eexists tt, _. split; [reflexivity|]. split_and!; [by apply kle_same| |by apply (named_ext s); [|apply kle_same|]].
      destruct HC. by split.
    + by exists tt, s.
  - apply k_inv_segment. intros F s HC%core_right_id HN _. destruct (chef_Close_ok it F s) as (s' & E & ?); [done..|].
    exists tt, s'. naive_solver.
Qed.

Lemma init_I s : kitchen_init s -> I ∅ s.
Proof.
  intros (E1 & E2 & E3 & E4 & E5 & E6 & E7 & HK & Hc). split_and!; [| |done].
  - split; rewrite ?E2, ?E3, ?E4.
    + intros c r. rewrite !lookup_empty. naive_solver.
    + done.
    + intros p x Hx. unfold conns_of. rewrite (Hc p x Hx), E2, map_filter_empty, map_size_empty. done.
    + intros p x Hx Hm. rewrite (Hc p x Hx). lia.
    + intros c. unfold is_kept, times_closed. rewrite E2, E5. done.
  - split; rewrite ?E1; [|done..]. exists []. rewrite E6, E7, lookup_singleton_eq. done.
Qed.

Lemma reachable_I y : kitchen_reachable y ->
  crashed y = false /\ exists O, I O (shared y) /\ (calls y = [] -> O = ∅).
Proof.
  intros Hr. destruct (reachable_owned kitchen_answers kitchen_env kitchen_op kitchen_init I kle
    k_answers_I k_answers_le k_env_I k_env_le k_op_safe init_I y Hr) as (Hc & owns & HI & Hcs).
  split; [done|]. exists (⋃+ owns). split; [done|]. intros E. rewrite E in Hcs. by inversion Hcs.
Qed.
End Calls.

(** ** Which recipe is cooked *)

Definition room (x : PoolRecipe) : bool := (MaxConnections x =? 0) || (count x <? MaxConnections x).

Lemma Allocate_room x : Allocate x = if room x then (true, set_count (count x + 1) x) else (false, x).
Proof. unfold Allocate, room. rewrite Z.geb_leb, Z.leb_antisym, <- negb_orb. by destruct (_ || _). Qed.

(** A pointer to a kitchen recipe that leads to the pool recipe [x]. *)
Definition leads (s : Kitchen) (r : nat) (x : PoolRecipe) : Prop :=
  exists k, heap s !! r = Some k /\ recipes s !! recipe k = Some x.

Lemma less_asym s a b : less s a b = true -> less s b a = false.
Proof.
  unfold less. destruct (heap s !! a) as [ka|], (heap s !! b) as [kb|]; try done.
  destruct (recipes s !! recipe ka) as [xa|], (recipes s !! recipe kb) as [xb|]; try done.
  repeat case_match; try done; rewrite ?Z.ltb_lt, ?Z.ltb_ge, ?Nat.ltb_lt, ?Nat.ltb_ge in *; try lia; intros; lia.
Qed.

Lemma less_trans s a b c xb :
  leads s b xb -> less s b a = false -> less s c b = false -> less s c a = false.
Proof.
  intros (kb & Hb & Hxb). unfold less. rewrite Hb.
  destruct (heap s !! c) as [kc|]; [|done]. destruct (heap s !! a) as [ka|]; [|by destruct (recipes s !! recipe kc)].
  rewrite Hxb. destruct (recipes s !! recipe kc) as [xc|]; [|done]. destruct (recipes s !! recipe ka) as [xa|]; [|done].
  repeat case_match; try done; rewrite ?Z.ltb_lt, ?Z.ltb_ge, ?Nat.ltb_lt, ?Nat.ltb_ge in *; try lia; intros; lia.
Qed.

(** The loop goes to the first recipe with room. *)
Lemma cook_loop_first m i id s a :
  arrays s !! id = Some a -> (forall j, (i <= j < i + m)%nat -> exists r x, a !! j = Some r /\ leads s r x) ->
  (exists j r k x K, (i <= j < i + m)%nat /\ a !! j = Some r /\ heap s !! r = Some k /\ recipes s !! recipe k = Some x /\
     room x = true /\ (forall j' r' x', (i <= j' < j)%nat -> a !! j' = Some r' -> leads s r' x' -> room x' = false) /\
     cook_loop m i id s = Ask (QDial (recipe k)) (set_recipes (insert (recipe k) (set_count (count x + 1) x)) s) K /\
     forall c s2, is_Some (heap s2 !! r) -> exists s3, K (ADial (inr c)) s2 = Done (inr c) s3 /\ byConn s3 = insert c r (byConn s2)) \/
  ((forall j r x, (i <= j < i + m)%nat -> a !! j = Some r -> leads s r x -> room x = false) /\
     cook_loop m i id s = Done (inl ErrNoRecipes) s).
Proof.
  intros Ha. revert i. induction m as [|m IH]; intros i HV; [right; split; [lia|done]|].
  destruct (HV i ltac:(lia)) as (r & x & Hr & k & Hk & Hx). cbn [cook_loop].
  rewrite (mbind_done mget _ s s s eq_refl), (mbind_done _ _ _ _ _ (need_some _ _ s Ha)),
      (mbind_done _ _ _ _ _ (need_some _ _ s Hr)), (mbind_done _ _ _ _ _ (load_some _ _ _ Hk)).
  assert (HA : recipe_Allocate (recipe k) s = Done (room x) (if room x then set_recipes (insert (recipe k) (set_count (count x + 1) x)) s else s)).
  { cbn. rewrite Hx. cbn. rewrite Allocate_room. destruct (room x); [done|]. cbn. by rewrite set_recipes_id. }
  rewrite (mbind_done _ _ _ _ _ HA). destruct (room x) eqn:Hroom; simpl negb; cbn match.
  - left. eexists i, r, k, x, _. split_and!; [lia|lia|done..|lia|reflexivity|].
    intros c s2 [k2 Hk2]. eexists. cbn. rewrite Hk2. cbn. done.
  - destruct (IH (S i)) as [(j & r2 & k2 & x2 & K & Hj & ? & ? & ? & ? & Hbefore & ? & ?)|[Hfull E]].
    + intros j Hj. apply HV. lia.
    + left. exists j, r2, k2, x2, K. split_and!; try done; [lia|lia|].
      intros j' r' x' Hj' Hr' Hl'. destruct (decide (j' = i)) as [->|]; [|eapply Hbefore; [|done..]; lia].
      simplify_eq. destruct Hl' as (k' & ? & ?). by simplify_eq.
    + right. split; [|done]. intros j r2 x2 Hj Hr2 Hl. destruct (decide (j = i)) as [->|]; [|eapply Hfull; [|done..]; lia].
      simplify_eq. destruct Hl as (k' & ? & ?). by simplify_eq.
Qed.

Lemma window_named s a r :
  named s -> arrays s !! (order s).1 = Some a ->
  r ∈ take (order s).2 a <-> exists name, byName s !! name = Some r.
Proof.
  intros [(b & Hb & _ & Hp) _ _] Ha. simplify_eq. rewrite Hp, list_elem_of_fmap. split.
  - intros ((n & r') & -> & Hn%elem_of_map_to_list). by exists n.
  - intros [n Hn]. exists (n, r). split; [done|]. by apply elem_of_map_to_list.
Qed.

(** ** Theorems *)
Module KitchenTheorems.


(** C18: No connection is lost or closed twice: a connection that was dialed is
    kept by the chef or was closed once, never both, and is neither only while the
    call that dialed it is in progress. *)
Theorem kitchen_no_leak `{SortSlice} critics known y c :
  kitchen_reachable critics known y ->
  let places := (is_kept (shared y) c + times_closed (shared y) c)%nat in
  (places <= 1)%nat /\ (c ∉ dialed (shared y) -> places = 0%nat) /\
  (calls y = [] -> c ∈ dialed (shared y) -> places = 1%nat).
Proof.
  intros Hr. destruct (reachable_I _ _ _ Hr) as (_ & O & (HC & _ & _) & HO). pose proof (core_places _ _ HC c) as E.
  simpl. split_and!.
  - destruct (decide _); lia.
  - intros Hd. rewrite decide_False in E by done. lia.
  - intros Hn Hd. rewrite decide_True, HO, multiplicity_empty in E by done. lia.
Qed.

(** The data of the chef stays well formed: the connections of a recipe are
    those that byConn maps to it, every pointer leads to a recipe, the slice
    order holds exactly the named recipes, each once. *)
Theorem kitchen_well_formed `{SortSlice} critics known y :
  kitchen_reachable critics known y ->
  let s := shared y in
  (forall c r, byConn s !! c = Some r <-> exists k, heap s !! r = Some k /\ c ∈ conns k) /\
  (forall r k, heap s !! r = Some k -> exists x, recipes s !! recipe k = Some x) /\
  exists a, arrays s !! (order s).1 = Some a /\ NoDup (take (order s).2 a) /\
    forall r, r ∈ take (order s).2 a <-> exists name, byName s !! name = Some r.
Proof.
  intros Hr. destruct (reachable_I _ _ _ Hr) as (_ & O & (HC & HN & _) & _). simpl. split; [apply HC|].
  split; [intros r k Hk; apply (core_heap _ _ HC r k Hk)|].
  destruct (named_order _ HN) as (a & Ha & _ & Hp). exists a. split; [done|].
  split.
  - rewrite Hp. apply NoDup_fmap_2_strong; [|apply NoDup_map_to_list].
    intros [n1 r1] [n2 r2] H1%elem_of_map_to_list H2%elem_of_map_to_list E. simpl in E. subst.
    by rewrite (named_inj _ HN n1 n2 r2 H1 H2).
  - intros r. by apply window_named.
Qed.

(** Cook dials the best recipe: if some named recipe has room, the first dial
    after scoring is of a named recipe with room such that no other one with room
    has a lower rating, or the same rating and fewer connections; if the dial
    succeeds the connection is kept for that recipe.  If none has room the result
    is ErrNoRecipes and nothing changes but the order. *)
Theorem cook_picks_best `{SortSlice} O s :
  core O s -> named s ->
  (exists name r k x K s1, byName s !! name = Some r /\ heap s !! r = Some k /\ recipes s !! recipe k = Some x /\
     room x = true /\
     (forall n' r' x', byName s !! n' = Some r' -> leads s r' x' -> room x' = true -> less s r' r = false) /\
     cook_best s = Ask (QDial (recipe k)) s1 K /\
     recipes s1 = insert (recipe k) (set_count (count x + 1) x) (recipes s) /\
     forall c s2, kle s1 s2 -> exists s3, K (ADial (inr c)) s2 = Done (inr c) s3 /\ byConn s3 = insert c r (byConn s2)) \/
  ((forall n r x, byName s !! n = Some r -> leads s r x -> room x = false) /\
     exists s', cook_best s = Done (inl ErrNoRecipes) s' /\ recipes s' = recipes s /\ byConn s' = byConn s).
Proof.
  intros HC HN. destruct (sort_order_ok s HN) as (a & w & Ha & Ew & Hw & E & _ & _ & _ & _).
  destruct (named_order _ HN) as (a' & Ha' & Hlen & Hp). simplify_eq.
  set (s' := set_order _ _ s) in E. set (w := sort_slice _ _) in *.
  assert (Hwl : length w = (order s).2) by (rewrite Hw, length_take; lia).
  assert (Hin : forall r, r ∈ w <-> exists n, byName s !! n = Some r).
  { intros r. rewrite Hw. by apply window_named. }
  assert (Hleads : forall r, r ∈ w -> exists x, leads s r x).
  { intros r [n Hn]%Hin. destruct (named_heap _ HN n r Hn) as [k Hk].
    destruct (core_heap _ _ HC r k Hk) as [[x Hx] _]. exists x, k. done. }
  assert (Hsorted : forall i j x y, (i < j)%nat -> w !! i = Some x -> w !! j = Some y -> less s y x = false).
  { intros i j x y. apply sort_slice_sorted.
    - intros ? ? _ _. apply less_asym.
    - intros x1 x2 x3 _ H2 _. destruct (Hleads x2) as [z Hz]; [by rewrite Hw|]. by eapply less_trans. }
  destruct (cook_loop_first (order s).2 0 (order s).1 s' (w ++ drop (order s).2 a)) as
    [(j & r & k & x & K & Hj & Hr & Hk & Hx & Hroom & Hbefore & EK & HK)|[Hfull EK]].
  - simpl. by rewrite lookup_insert_eq.
  - intros j Hj. rewrite lookup_app_l by lia. destruct (lookup_lt_is_Some_2 w j) as [r Hr]; [lia|].
    destruct (Hleads r) as [x Hx]; [by eapply list_elem_of_lookup_2|]. by exists r, x.
  - left. rewrite lookup_app_l in Hr by lia. destruct (proj1 (Hin r)) as [name Hname]; [by eapply list_elem_of_lookup_2|].
    exists name, r, k, x, K, (set_recipes (insert (recipe k) (set_count (count x + 1) x)) s').
    split_and!; try done.
    + intros n' r' x' Hn' Hl' Hroom'. assert (Hr'in : r' ∈ w) by (apply Hin; eauto).
      apply list_elem_of_lookup in Hr'in as [j' Hj']. destruct (lt_eq_lt_dec j' j) as [[Hlt| ->]|Hgt].
      * rewrite (Hbefore j' r' x') in Hroom'; [done|lia| |done]. rewrite lookup_app_l; [done|]. by eapply lookup_lt_Some.
      * simplify_eq. destruct (less s r r) eqn:El; [|done]. by rewrite (less_asym s r r El) in El.
      * by apply (Hsorted j j').
    + unfold cook_best. by rewrite (mbind_done _ _ _ _ _ E).
    + intros c s2 Hle. apply HK. destruct (kle_heap _ _ Hle r k) as (k2 & -> & _); [done|]. by eexists.
  - right. split.
    + intros n r x Hn Hl. assert (Hrin : r ∈ w) by (apply Hin; eauto). apply list_elem_of_lookup in Hrin as [j Hj].
      apply (Hfull j r x); [| |done]; pose proof (lookup_lt_Some _ _ _ Hj); [lia|]. by rewrite lookup_app_l.
    + exists s'. unfold cook_best. by rewrite (mbind_done _ _ _ _ _ E).
Qed.

(** Forget closes exactly the connections that were made from the recipe of
    that name, returns them, and leaves every other connection alone; the name is
    free afterwards. *)
Theorem forget_disconnects it name O s :
  iter_ok it -> core O s -> named s ->
  exists l s', Forget it name s = Done l s' /\ byName s' = delete name (byName s) /\
    (forall c, c ∈ l <-> exists r, byName s !! name = Some r /\ byConn s !! c = Some r) /\
    (forall c, byConn s' !! c = if decide (c ∈ l) then None else byConn s !! c) /\
    (forall c, times_closed s' c = (times_closed s c + if decide (c ∈ l) then 1 else 0)%nat).
Proof.
  intros Hit HC HN. destruct (forget_ok it O s name Hit HC HN) as (l & s' & E & _ & HC' & _ & En & Ed & Eb & Hl).
  assert (HB : forall c, byConn s' !! c = if decide (c ∈ l) then None else byConn s !! c).
  { intros c. rewrite Eb, map_lookup_filter. destruct (byConn s !! c) as [r|] eqn:Hc; [|by destruct (decide _)].
    simpl. specialize (Hl c). rewrite Hc in Hl.
    destruct (decide (c ∈ l)), (decide (byName s !! name <> Some r)); simplify_option_eq; naive_solver. }
  exists l, s'. split_and!; try done. intros c.
  pose proof (core_places _ _ HC c) as P1. pose proof (core_places _ _ HC' c) as P2. rewrite Ed in P2.
  unfold is_kept in *. rewrite HB in P2. specialize (Hl c).
  destruct (decide (c ∈ l)) as [Hc|Hc].
  - apply Hl in Hc as (r & _ & Hr). rewrite Hr in P1. lia.
  - destruct (byConn s !! c); lia.
Qed.

(** *** A small kitchen *)

(** One recipe, with at most one connection. *)
Definition kitchen0 : Kitchen :=
  mkKitchen ∅ ∅ (0, 0)%nat ∅ {[ 0%nat := mkPoolRecipe 0 0 1 0 ]} {[ 0%nat := [] ]} 1 ∅ [] [].

Lemma kitchen0_init : kitchen_init {[ 0%nat ]} kitchen0.
Proof.
  unfold kitchen_init. split_and!; try done. intros p x. simpl.
  destruct (decide (p = 0%nat)) as [->|]; [|by rewrite lookup_singleton_ne by done].
  rewrite lookup_singleton_eq. by intros [= <-].
Qed.

Lemma elements_iter : iter_ok elements.
Proof. by intros X. Qed.

Abbreviation kitchen_sys := (Sys Kitchen request answer).

(** Learn has returned. *)
Definition learned : kitchen_sys :=
  run_resume 0 AYield id (run_call (do _ <- Learn elements 0 "a" 0 in mret tt) (mkSys kitchen0 [] false)).

Lemma learned_reachable critics : kitchen_reachable critics {[ 0%nat ]} learned.
Proof.
  eapply (reachable_resume _ _ _ _ _ QYield); [| |by vm_compute|done].
  - apply reachable_call; [|done|constructor; [apply elements_iter|set_solver]].
    apply reachable_init. split_and!; [apply kitchen0_init|done..].
  - by vm_compute.
Qed.

Lemma quiet_core `{SortSlice} critics known y :
  kitchen_reachable critics known y -> calls y = [] -> core ∅ (shared y) /\ named (shared y).
Proof.
  intros Hr Hn. destruct (reachable_I _ _ _ Hr) as (_ & O & (HC & HN & _) & HO). by rewrite HO in HC.
Qed.

(** Cook dials while Forget removes its recipe. *)
Definition forget_race : kitchen_sys :=
  run_resume 0 (ADial (inr 7%nat)) (set_dialed (union {[ 7%nat ]}))
   (run_call (do _ <- Forget elements "a" in mret tt)
     (run_call (do _ <- Cook [] ["a"%string] in mret tt) learned)).

Lemma forget_race_reachable : kitchen_reachable [] {[ 0%nat ]} forget_race.
Proof.
  eapply (reachable_resume _ _ _ _ _ (QDial 0)); [| |by vm_compute|].
  - apply reachable_call; [|by vm_compute|constructor; apply elements_iter].
    apply reachable_call; [apply learned_reachable|by vm_compute|constructor].
  - by vm_compute.
  - split_and!; [|reflexivity..]. by vm_compute.
Qed.

(** A recipe that is removed while Cook dials it stays in use: in this run the
    only recipe is forgotten, no call is in progress any more, and the chef keeps
    an open connection made from the forgotten recipe. *)
Theorem cook_forget_race :
  exists y, kitchen_reachable [] {[ 0%nat ]} y /\ calls y = [] /\
    byName (shared y) = ∅ /\ is_kept (shared y) 7 = 1%nat /\ times_closed (shared y) 7 = 0%nat.
Proof. exists forget_race. split; [apply forget_race_reachable|]. by vm_compute. Qed.

(** A second connection of a recipe whose limit is one is open while its critics
    taste it. *)
Definition cooked : kitchen_sys :=
  run_resume 0 (ADial (inr 7%nat)) (set_dialed (union {[ 7%nat ]})) (run_call (do _ <- Cook [] [] in mret tt) learned).
Definition tasting : kitchen_sys :=
  run_resume 0 (ADial (inr 8%nat)) (set_dialed (union {[ 8%nat ]})) (run_call (do _ <- Cook [0%nat] ["a"%string] in mret tt)
    (run_resume 0 (ADial (inr 7%nat)) (set_dialed (union {[ 7%nat ]})) (run_call (do _ <- Cook [0%nat] [] in mret tt) learned))).

Theorem tasting_exceeds_limit :
  exists y x, kitchen_reachable [0%nat] {[ 0%nat ]} y /\ recipes (shared y) !! 0%nat = Some x /\
    MaxConnections x = 1 /\ dialed (shared y) = {[ 7%nat; 8%nat ]} /\ closed (shared y) = [].
Proof.
  exists tasting. eexists. split_and!; [|by vm_compute|done|by vm_compute|by vm_compute].
  eapply (reachable_resume _ _ _ _ _ (QDial 0)); [| |by vm_compute|split_and!; [by vm_compute|reflexivity..]]; [|by vm_compute].
  apply reachable_call; [|by vm_compute|constructor].
  eapply (reachable_resume _ _ _ _ _ (QDial 0)); [| |by vm_compute|split_and!; [by vm_compute|reflexivity..]]; [|by vm_compute].
  apply reachable_call; [apply learned_reachable|by vm_compute|constructor].
Qed.

(** *** Witnesses *)

Lemma cooked_reachable : kitchen_reachable [] {[ 0%nat ]} cooked.
Proof.
  eapply (reachable_resume _ _ _ _ _ (QDial 0)); [| |by vm_compute|split_and!; [by vm_compute|reflexivity..]]; [|by vm_compute].
  apply reachable_call; [apply learned_reachable|by vm_compute|constructor].
Qed.

Lemma cooked_quiet : core ∅ (shared cooked) /\ named (shared cooked).
Proof. apply (quiet_core [] {[ 0%nat ]}); [apply cooked_reachable|by vm_compute]. Qed.

Lemma learned_quiet : core ∅ (shared learned) /\ named (shared learned).
Proof. apply (quiet_core [] {[ 0%nat ]}); [apply learned_reachable|by vm_compute]. Qed.


Lemma kitchen_no_leak_witness :
  is_kept (shared cooked) 7 = 1%nat /\ (is_kept (shared cooked) 7 + times_closed (shared cooked) 7 <= 1)%nat.
Proof. split; [by vm_compute|]. apply (kitchen_no_leak [] {[ 0%nat ]} cooked 7 cooked_reachable). Defined.

Lemma kitchen_well_formed_witness :
  byConn (shared cooked) !! 7%nat = Some 1%nat /\
  exists k, heap (shared cooked) !! 1%nat = Some k /\ 7%nat ∈ conns k.
Proof.
  split; [by vm_compute|]. apply (kitchen_well_formed [] {[ 0%nat ]} cooked cooked_reachable). by vm_compute.
Defined.

Lemma cook_picks_best_witness :
  exists p s1 K, cook_best (shared learned) = Ask (QDial p) s1 K.
Proof.
  destruct (cook_picks_best ∅ (shared learned)) as [(name & r & k & x & K & s1 & _ & _ & _ & _ & _ & E & _)|[_ (s' & E & _)]];
    [apply learned_quiet|apply learned_quiet| |by vm_compute in E].
  by exists (recipe k), s1, K.
Defined.

Lemma forget_disconnects_witness :
  exists l s', Forget elements "a" (shared cooked) = Done l s' /\ 7%nat ∈ l.
Proof.
  destruct (forget_disconnects elements "a" ∅ (shared cooked)) as (l & s' & E & _ & Hl & _);
    [apply elements_iter|apply cooked_quiet|apply cooked_quiet|].
  exists l, s'. split; [done|]. apply Hl. exists 1%nat. by vm_compute.
Defined.
End KitchenTheorems.
