(* ===== verification/Spool.v ===== *)
(** * Spool: lib/gat/handlers/pool/spool/pool.go

    The server pool: it registers the connections the chef makes as servers with
    the pooler, hands them to clients, resets and removes them.  A *Server is
    written as its ID, which uuid.New makes unique; [memory] has every server
    ever made.

    The pool calls the chef (Kitchen) and the pooler (Lifo, Scheduler) without its
    own mutex, so its methods are code of [Conc]: those calls are requests, and
    other calls of the pool may run meanwhile.  Of the pooler it matters which
    servers it knows and which of them it may hand out: [PoolerState] of
    Poolers. *)

From Stdlib Require Import ZArith.
From S2P Require Import Prelude.
From S2P Require Import Wire.
From S2P Require Import Chan.
From S2P Require Import Metrics.
From S2P Require Import Conc.
From S2P Require Import Poolers.

Local Open Scope Z_scope.
Local Open Scope conc_scope.

Abbreviation conn := nat.

(** ** The pool *)

Inductive middleware := PacketTrace | OtelTrace | PsServer | EqpServer.

Record Config := mkConfig {
  UsePS : bool;
  UseEQP : bool;
  UseOtelTracing : bool;
  UsePacketTracing : bool;
  ResetQuery : option (list Byte.byte);   (* None: the empty string *)
  IdleTimeout : Z;
  ReconnectInitialTime : Z;
  ReconnectMaxTime : Z
}.

Record Pool := mkPool {
  serversByID : gset uuid;             (* to the server with that ID *)
  serversByConn : gmap conn uuid;
  pooler : PoolerState;
  memory : gmap uuid Server;
  Middleware : gmap conn (list middleware);
  seen : gset conn;                    (* every connection the chef returned *)
  now : Z;
  closed : bool
}.

Definition set_maps f g (s : Pool) := mkPool (f (serversByID s)) (g (serversByConn s)) (pooler s) (memory s) (Middleware s) (seen s) (now s) (closed s).
Definition set_pooler f (s : Pool) := mkPool (serversByID s) (serversByConn s) (f (pooler s)) (memory s) (Middleware s) (seen s) (now s) (closed s).
Definition set_memory f (s : Pool) := mkPool (serversByID s) (serversByConn s) (pooler s) (f (memory s)) (Middleware s) (seen s) (now s) (closed s).
Definition set_middleware f (s : Pool) := mkPool (serversByID s) (serversByConn s) (pooler s) (memory s) (f (Middleware s)) (seen s) (now s) (closed s).
Definition set_seen f (s : Pool) := mkPool (serversByID s) (serversByConn s) (pooler s) (memory s) (Middleware s) (f (seen s)) (now s) (closed s).
Definition set_now t (s : Pool) := mkPool (serversByID s) (serversByConn s) (pooler s) (memory s) (Middleware s) (seen s) t (closed s).
Definition set_closed (s : Pool) := mkPool (serversByID s) (serversByConn s) (pooler s) (memory s) (Middleware s) (seen s) (now s) true.

(** Calls made without the mutex of the pool. *)
Inductive request :=
| QLearn (name : string) (recipe : nat)   (* chef.Learn *)
| QForget (name : string)                 (* chef.Forget *)
| QCook                                   (* chef.Cook *)
| QBurn (c : conn)                        (* chef.Burn *)
| QCancel (c : conn)                      (* chef.Cancel *)
| QChefClose                              (* chef.Close *)
| QAcquire (client : uuid)                (* pooler.Acquire *)
| QReset (c : conn)                       (* backends.QueryString *)
| QYield.                                 (* the mutex is free *)
Inductive answer :=
| ALearn (removed added : list conn)
| AForget (l : list conn)
| ACook (r : error + conn)
| AAcquire (id : uuid)
| AReset (e : option error)
| AUnit.

Abbreviation Mp := (M Pool request answer).

Section Pool.
Context (config : Config).

Definition ask_unit (q : request) : Mp unit :=
  do x <- ask q in match x with AUnit => mret tt | _ => fun _ => Crash end.

(** The list of middlewares of a server's connection. *)
Definition middlewares_for : list middleware :=
  (if UsePacketTracing config then [PacketTrace] else []) ++
  (if UseOtelTracing config then [OtelTrace] else []) ++
  (if UsePS config then [PsServer] else []) ++
  (if UseEQP config then [EqpServer] else []).

Definition addServer (c : conn) : Mp unit :=
  modify (set_middleware (fun m => <[c := default [] (m !! c) ++ middlewares_for]> m)) ;;;
  do s <- mget in
  let id := fresh ({[Nil]} ∪ dom (memory s)) in
  modify (set_memory (insert id (NewServer id c (now s)))) ;;;
  modify (set_maps (union {[id]}) (insert c id)) ;;;
  modify (set_pooler (p_AddServer id)).

Definition removeServer (c : conn) : Mp unit :=
  do s <- mget in
  match serversByConn s !! c with
  | None => mret tt
  | Some id =>
      modify (set_maps (fun m => m ∖ {[id]}) (delete c)) ;;;
      modify (set_pooler (p_DeleteServer id))
  end.

(** The part of AddRecipe under the mutex. *)
Definition register (removed added : list conn) : Mp unit :=
  each removeServer removed ;;; each addServer added.

Definition AddRecipe (name : string) (recipe : nat) : Mp unit :=
  do x <- ask (QLearn name recipe) in
  match x with
  | ALearn removed added =>
      if ((length removed =? 0) && (length added =? 0))%nat then mret tt else register removed added
  | _ => fun _ => Crash
  end.

Definition RemoveRecipe (name : string) : Mp unit :=
  do x <- ask (QForget name) in
  match x with
  | AForget servers => if (length servers =? 0)%nat then mret tt else each removeServer servers
  | _ => fun _ => Crash
  end.

Definition ScaleUp : Mp (option error) :=
  do x <- ask QCook in
  match x with
  | ACook (inl e) => mret (Some e)
  | ACook (inr c) => addServer c ;;; mret None
  | _ => fun _ => Crash
  end.

(** One turn of the loop of ScaleDown; [ignite] is what chef.Ignite answers. *)
Definition scale_down_one (ignite : conn -> bool) (t : Z) (m : Z) (id : uuid) : Mp Z :=
  do s <- mget in
  do sv <- need (memory s !! id) in
  if decide (state (tracked sv) <> ConnStateIdle) then mret m
  else
    let idle := t - since (tracked sv) in
    if idle >? IdleTimeout config then
      if ignite (Server_Conn sv) then
        modify (set_maps (fun m => m ∖ {[id]}) (delete (Server_Conn sv))) ;;;
        modify (set_pooler (p_DeleteServer id)) ;;; mret m
      else mret m
    else
      let until := IdleTimeout config - idle in
      mret (if idle <? m then until else m).

Fixpoint scale_down_loop (ignite : conn -> bool) (t : Z) (m : Z) (ids : list uuid) : Mp Z :=
  match ids with
  | [] => mret m
  | id :: ids => do m <- scale_down_one ignite t m id in scale_down_loop ignite t m ids
  end.

(** [it]: the order of the range over serversByID. *)
Definition ScaleDown (it : gset uuid -> list uuid) (ignite : conn -> bool) (t : Z) : Mp Z :=
  do s <- mget in scale_down_loop ignite t (IdleTimeout config) (it (serversByID s)).

Definition server_SetState (id : uuid) (st : ConnState) (peer : uuid) : Mp unit :=
  do s <- mget in
  do sv <- need (memory s !! id) in
  modify (set_memory (insert id (Server_SetState sv (now s) st peer))).

(** The loop of Acquire; a turn that finds the server gone goes round.  [None]:
    still in the loop after [fuel] turns. *)
Fixpoint Acquire (fuel : nat) (client : uuid) : Mp (option (option uuid)) :=
  match fuel with
  | O => mret None
  | S fuel =>
      do x <- ask (QAcquire client) in
      match x with
      | AAcquire id =>
          if decide (id = Nil) then mret (Some None)
          else
            ask_unit QYield ;;;
            do s <- mget in
            if decide (id ∈ serversByID s) then
              server_SetState id ConnStatePairing client ;;; mret (Some (Some id))
            else
              ask_unit QYield ;;;
              modify (set_pooler (p_DeleteServer id)) ;;;
              Acquire fuel client
      | _ => fun _ => Crash
      end
  end.

Definition RemoveServer (id : uuid) (c : conn) : Mp unit :=
  ask_unit (QBurn c) ;;;
  modify (set_pooler (p_DeleteServer id)) ;;;
  ask_unit QYield ;;;
  modify (set_maps (fun m => m ∖ {[id]}) (delete c)) ;;;
  modify (set_pooler (p_DeleteServer id)).

(** [c] is server.Conn. *)
Definition Release (id : uuid) (c : conn) : Mp unit :=
  do failed <-
    match ResetQuery config with
    | None => mret false
    | Some _ =>
        server_SetState id ConnStateRunningResetQuery Nil ;;;
        do x <- ask (QReset c) in
        match x with
        | AReset None => mret false
        | AReset (Some _) => RemoveServer id c ;;; mret true
        | _ => fun _ => Crash
        end
    end in
  if failed : bool then mret tt
  else
    modify (set_pooler (p_Release id)) ;;;
    ask_unit QYield ;;;
    server_SetState id ConnStateIdle Nil.

Definition Cancel (c : conn) : Mp unit := ask_unit (QCancel c).

Definition Close : Mp unit :=
  modify set_closed ;;;
  ask_unit QChefClose ;;;
  modify (set_pooler p_Close) ;;;
  ask_unit QYield ;;;
  modify (set_maps (fun _ => ∅) (fun _ => ∅)).

(** ReadMetrics: every registered server is read once, in the order [it]. *)
Fixpoint read_servers (ids : list uuid) (m : gmap uuid Conn) : Mp (gmap uuid Conn) :=
  match ids with
  | [] => mret m
  | id :: ids =>
      do s <- mget in
      do sv <- need (memory s !! id) in
      let r := Server_ReadMetrics sv (now s) in
      modify (set_memory (insert id r.2)) ;;;
      read_servers ids (<[id := r.1]> m)
  end.

Definition Pool_ReadMetrics (it : gset uuid -> list uuid) (m : PoolMetrics) : Mp PoolMetrics :=
  do s <- mget in
  do servers <- read_servers (it (serversByID s)) (Servers m) in
  mret (mkPoolMetrics servers (Clients m)).
End Pool.

(** ** The invariant *)

#[local] Arguments fresh : simpl never.

(** What a call in progress owns: connections that the chef gave it. *)
Record registered (O : gmultiset conn) (s : Pool) : Prop := {
  reg_id id : id ∈ serversByID s -> exists sv, memory s !! id = Some sv /\ serversByConn s !! Server_Conn sv = Some id;
  reg_conn c id : serversByConn s !! c = Some id ->
    id ∈ serversByID s /\ exists sv, memory s !! id = Some sv /\ Server_Conn sv = c;
  reg_pooler : closed s = false -> known (pooler s) ⊆ serversByID s;
  reg_free : free (pooler s) ⊆ known (pooler s);
  reg_memory id sv : memory s !! id = Some sv -> ID sv = id /\ id <> Nil /\ Server_Conn sv ∈ seen s /\ multiplicity (Server_Conn sv) O = 0%nat;
  reg_inj id1 id2 sv1 sv2 : memory s !! id1 = Some sv1 -> memory s !! id2 = Some sv2 ->
    Server_Conn sv1 = Server_Conn sv2 -> id1 = id2;
  reg_own c : (multiplicity c O <= if decide (c ∈ seen s) then 1 else 0)%nat
}.

(** What lasts: servers and their connections, and that the pool is closed. *)
Record ple (s s' : Pool) : Prop := {
  ple_memory id sv : memory s !! id = Some sv -> exists sv', memory s' !! id = Some sv' /\ Server_Conn sv' = Server_Conn sv;
  ple_closed : closed s = true -> closed s' = true
}.

#[export] Instance ple_preorder : PreOrder ple.
Proof.
  split; [intros s; split; eauto|]. intros s1 s2 s3 [H1 C1] [H2 C2]. split; [|auto]. intros id sv Hsv.
  destruct (H1 id sv Hsv) as (sv2 & H3 & E). destruct (H2 id sv2 H3) as (sv3 & ? & ?). exists sv3. split; congruence.
Qed.

Lemma ple_same s s' : memory s' = memory s -> closed s' = closed s \/ closed s' = true -> ple s s'.
Proof. intros E [Ec|Ec]; split; rewrite ?E; try congruence; eauto. Qed.

Definition pool_answers (q : request) (x : answer) (s s' : Pool) (g : gmultiset conn) : Prop :=
  match q, x with
  | QLearn _ _, ALearn removed added =>
      NoDup added /\ (forall c, c ∈ added -> c ∉ seen s) /\
      s' = set_seen (union (list_to_set added)) s /\ g = list_to_set_disj added
  | QCook, ACook (inr c) => (c ∉ seen s) /\ s' = set_seen (union {[c]}) s /\ g = {[+ c +]}
  | QAcquire _, AAcquire id => (id = Nil \/ id ∈ free (pooler s)) /\ s' = set_pooler (p_Acquire id) s /\ g = ∅
  | QForget _, AForget _ | QCook, ACook (inl _) | QReset _, AReset _
  | QBurn _, AUnit | QCancel _, AUnit | QChefClose, AUnit | QYield, AUnit => s' = s /\ g = ∅
  | _, _ => False
  end.

Definition pool_env (s s' : Pool) : Prop := exists t, s' = set_now t s.

(** A call with a server that exists. *)
Definition with_server (id : uuid) (f : uuid -> conn -> Mp unit) : Mp unit :=
  do s <- mget in match memory s !! id with Some sv => f (ID sv) (Server_Conn sv) | None => mret tt end.

Definition iter_ok (it : gset uuid -> list uuid) : Prop := forall X, it X ≡ₚ elements X.

Section Calls.
Context (config : Config).

Inductive pool_op : Mp unit -> Prop :=
| op_AddRecipe name recipe : pool_op (AddRecipe config name recipe)
| op_RemoveRecipe name : pool_op (RemoveRecipe name)
| op_ScaleUp : pool_op (do _ <- ScaleUp config in mret tt)
| op_ScaleDown it ignite t : iter_ok it -> pool_op (do _ <- ScaleDown config it ignite t in mret tt)
| op_Acquire fuel client : pool_op (do _ <- Acquire fuel client in mret tt)
| op_Release id : pool_op (with_server id (Release config))
| op_RemoveServer id : pool_op (with_server id RemoveServer)
| op_SetState id st peer : pool_op (with_server id (fun id _ => server_SetState id st peer))
| op_Cancel c : pool_op (Cancel c)
| op_ReadMetrics it m : iter_ok it -> pool_op (do _ <- Pool_ReadMetrics it m in mret tt)
| op_Close : pool_op Close.

Definition pool_init (s : Pool) : Prop :=
  serversByID s = ∅ /\ serversByConn s = ∅ /\ pooler s = mkPoolerState ∅ ∅ /\ memory s = ∅ /\ seen s = ∅.

Definition pool_reachable := sys_reachable pool_answers pool_env pool_op pool_init.

Abbreviation ptriple := (triple pool_answers registered ple).
Abbreviation stable := (Conc.stable ple).

Lemma p_answers_le q x s s' g : pool_answers q x s s' g -> ple s s'.
Proof.
  destruct q, x as [| |[]| | |]; simpl; try done; intros Hq; destruct_and! Hq; subst; by apply ple_same; auto.
Qed.

Lemma registered_seen O s l :
  NoDup l -> (forall c, c ∈ l -> c ∉ seen s) -> registered O s ->
  registered (O ⊎ list_to_set_disj l) (set_seen (union (list_to_set l)) s).
Proof.
  intros Hnd Hfr [R1 R2 R3 R4 R5 R6 R7]. split; simpl; try done.
  - intros id sv Hsv. destruct (R5 id sv Hsv) as (E & Hn & Hs & Hm). split_and!; [done|done|set_solver|].
    rewrite multiplicity_disj_union, Hm. simpl.
    destruct (decide (Server_Conn sv ∈ l)) as [Hin|Hin]; [by apply Hfr in Hin|].
    apply not_elem_of_multiplicity. by rewrite elem_of_list_to_set_disj.
  - intros c. specialize (R7 c). rewrite multiplicity_disj_union, multiplicity_NoDup by done.
    destruct (decide (c ∈ l)) as [Hin|Hin].
    + rewrite (decide_False (P := c ∈ seen s)) in R7 by (by apply Hfr). rewrite decide_True by set_solver. lia.
    + destruct (decide (c ∈ seen s)); [rewrite decide_True by set_solver; lia|]. lia.
Qed.

(** *** The moves *)

Lemma registered_pooler O s f :
  registered O s -> known (f (pooler s)) ⊆ known (pooler s) -> free (f (pooler s)) ⊆ known (f (pooler s)) ->
  registered O (set_pooler f s).
Proof. intros [R1 R2 R3 R4 R5 R6 R7] Hk Hf. split; simpl; try done. intros Hc. etrans; [exact Hk|by apply R3]. Qed.

Lemma registered_now O s t : registered O s -> registered O (set_now t s).
Proof. intros [R1 R2 R3 R4 R5 R6 R7]. by split. Qed.

Lemma registered_closed O s : registered O s -> registered O (set_closed s).
Proof. intros [R1 R2 R3 R4 R5 R6 R7]. by split. Qed.

(** A server goes, from the maps and from the pooler. *)
Lemma registered_remove O s id sv :
  memory s !! id = Some sv -> registered O s ->
  registered O (set_pooler (p_DeleteServer id) (set_maps (fun m => m ∖ {[id]}) (delete (Server_Conn sv)) s)).
Proof.
  intros Hsv [R1 R2 R3 R4 R5 R6 R7]. split; simpl; [| | | |done..].
  - intros id' Hid'. destruct (R1 id') as (sv' & Hsv' & Hc); [clear -Hid'; set_solver|]. exists sv'. split; [done|].
    rewrite lookup_delete_ne; [done|]. intros E. assert (id = id') by (by eapply R6). clear -Hid' H. set_solver.
  - intros c id' [Hne Hc]%lookup_delete_Some. destruct (R2 c id' Hc) as (Hin & sv' & Hsv' & <-).
    split; [|eauto]. apply elem_of_difference. split; [done|]. rewrite elem_of_singleton. intros ->. by simplify_eq.
  - intros Hc. specialize (R3 Hc). clear -R3. set_solver.
  - clear -R4. set_solver.
Qed.

(** A connection that a call owns becomes a server. *)
Lemma addServer_ok O s c :
  registered (O ⊎ {[+ c +]}) s ->
  exists s', addServer config c s = Done tt s' /\ ple s s' /\ registered O s'.
Proof.
  intros [R1 R2 R3 R4 R5 R6 R7]. eexists. split; [cbn; reflexivity|].
  set (id := fresh _). assert (Hid : memory s !! id = None /\ id <> Nil).
  { pose proof (is_fresh ({[Nil]} ∪ dom (memory s))) as Hf. fold id in Hf. clearbody id. clear -Hf. split; [|set_solver].
    apply not_elem_of_dom. set_solver. }
  destruct Hid as [Hid Hnil].
  assert (Hno : forall id' sv', memory s !! id' = Some sv' -> Server_Conn sv' <> c).
  { intros id' sv' Hsv' E. destruct (R5 id' sv' Hsv') as (_ & _ & _ & Hm).
    rewrite E, multiplicity_disj_union, multiplicity_singleton_eq in Hm. lia. }
  assert (Hidn : id ∉ serversByID s) by (intros (sv & ? & _)%R1; congruence).
  split.
  - split; [|done]. intros id' sv' Hsv'. simpl. rewrite lookup_insert_ne by congruence. eauto.
  - split; simpl.
    + intros id' Hin. destruct (decide (id' = id)) as [->|Hne].
      * exists (NewServer id c (now s)). rewrite !lookup_insert_eq. done.
      * destruct (R1 id') as (sv & Hsv & Hc); [clear -Hin Hne; set_solver|]. exists sv.
        rewrite !lookup_insert_ne; [done|by apply not_eq_sym, (Hno id')|congruence].
    + intros c' id' [[<- <-]|[Hne Hc]]%lookup_insert_Some.
      * split; [clear; set_solver|]. exists (NewServer id c (now s)). by rewrite lookup_insert_eq.
      * destruct (R2 c' id' Hc) as (Hin & sv & Hsv & E). split; [clear -Hin; set_solver|].
        exists sv. by rewrite lookup_insert_ne by congruence.
    + intros Hc. specialize (R3 Hc). clear -R3. set_solver.
    + clear -R4. set_solver.
    + intros id' sv' [[<- <-]|[Hne Hsv]]%lookup_insert_Some.
      * simpl. pose proof (R7 c) as Hc. rewrite multiplicity_disj_union, multiplicity_singleton_eq in Hc.
        destruct (decide (c ∈ seen s)); [|lia]. split_and!; [done..|lia].
      * destruct (R5 id' sv' Hsv) as (? & ? & ? & Hm). rewrite multiplicity_disj_union in Hm. split_and!; [done..|lia].
    + intros id1 id2 sv1 sv2 [[<- <-]|[Hn1 H1]]%lookup_insert_Some [[<- <-]|[Hn2 H2]]%lookup_insert_Some E; simpl in *.
      * done.
      * by destruct (Hno id2 sv2 H2).
      * by destruct (Hno id1 sv1 H1).
      * by eapply R6.
    + intros c'. specialize (R7 c'). rewrite multiplicity_disj_union in R7. lia.
Qed.

Lemma removeServer_ok O s c :
  registered O s -> exists s', removeServer c s = Done tt s' /\ ple s s' /\ registered O s'.
Proof.
  intros HR. cbn. destruct (serversByConn s !! c) as [id|] eqn:Hc; [|by exists s].
  destruct (reg_conn _ _ HR c id Hc) as (_ & sv & Hsv & <-). eexists. split; [reflexivity|].
  split; [by apply ple_same; auto|]. by apply registered_remove.
Qed.

(** What a server was doing does not matter here. *)
Lemma registered_update O s id sv sv' :
  memory s !! id = Some sv -> ID sv' = ID sv -> Server_Conn sv' = Server_Conn sv -> registered O s ->
  ple s (set_memory (insert id sv') s) /\ registered O (set_memory (insert id sv') s).
Proof.
  intros Hsv Ei Ec [R1 R2 R3 R4 R5 R6 R7].
  assert (HM : forall id' x, <[id := sv']> (memory s) !! id' = Some x ->
    exists x0, memory s !! id' = Some x0 /\ Server_Conn x = Server_Conn x0 /\ ID x = ID x0).
  { intros id' x [[<- <-]|[_ H]]%lookup_insert_Some; eauto. }
  assert (HM2 : forall id' x0, memory s !! id' = Some x0 ->
    exists x, <[id := sv']> (memory s) !! id' = Some x /\ Server_Conn x = Server_Conn x0).
  { intros id' x0 H0. destruct (decide (id' = id)) as [->|]; [rewrite lookup_insert_eq|rewrite lookup_insert_ne by done; eauto].
    simplify_eq. eauto. }
  split; [by split|]. split; simpl; try done.
  - intros id' Hin. destruct (R1 id' Hin) as (x0 & H0 & Hc). destruct (HM2 id' x0 H0) as (x & ? & E). exists x. by rewrite E.
  - intros c id' Hc. destruct (R2 c id' Hc) as (Hin & x0 & H0 & <-). split; [done|].
    destruct (HM2 id' x0 H0) as (x & ? & ?). eauto.
  - intros id' x (x0 & H0 & -> & ->)%HM. by apply R5.
  - intros id1 id2 x1 x2 (y1 & H1 & -> & _)%HM (y2 & H2 & -> & _)%HM. by apply R6.
Qed.

Lemma SetState_ok O s id st p :
  is_Some (memory s !! id) -> registered O s ->
  exists s', server_SetState id st p s = Done tt s' /\ ple s s' /\ registered O s'.
Proof.
  intros [sv Hsv] HR. cbn. rewrite Hsv. cbn. eexists. split; [reflexivity|]. by eapply registered_update.
Qed.

Lemma p_answers_I q x s s' g O : pool_answers q x s s' g -> registered O s -> registered (O ⊎ g) s'.
Proof.
  destruct q, x as [| |[e|c']| | |]; simpl; try done; intros Hq HR; destruct_and! Hq; subst;
    rewrite ?gmultiset_disj_union_right_id; try done.
  - by apply registered_seen.
  - pose proof (registered_seen O s [c']) as Hs. simpl in Hs.
    rewrite gmultiset_disj_union_right_id, (right_id_L ∅ (∪)) in Hs.
    apply Hs; [apply NoDup_singleton|by intros ? ->%list_elem_of_singleton|done].
  - apply registered_pooler; [done|done|]. simpl. etrans; [|apply HR]. set_solver.
Qed.

Lemma p_env_le s s' : pool_env s s' -> ple s s'.
Proof. intros [t ->]. by apply ple_same; auto. Qed.

Lemma p_env_I s s' O : pool_env s s' -> registered O s -> registered O s'.
Proof. intros [t ->]. apply registered_now. Qed.

(** *** Rules *)

Lemma p_then {A B} own own' Pre (m : Mp A) (P : A -> Pool -> Prop) (f : A -> Mp B) P' :
  ptriple own Pre m (fun a o s => P a s /\ o = own' a) ->
  (forall a, ptriple (own' a) (P a) (f a) P') -> ptriple own Pre (mbind m f) P'.
Proof. apply triple_then; [tc_solve|apply p_answers_le]. Qed.

Lemma p_seq {A B} own own' Pre (m : Mp A) (P : Pool -> Prop) (f : Mp B) P' :
  ptriple own Pre m (fun _ o s => P s /\ o = own') -> ptriple own' P f P' -> ptriple own Pre (m ;;; f) P'.
Proof. apply triple_seq; [tc_solve|apply p_answers_le]. Qed.

Lemma p_unroll {A} own Pre (m : Mp A) P :
  (forall F s, registered (F ⊎ own) s -> Pre s -> exists m' s' own' Pre',
     m s = m' s' /\ ple s s' /\ registered (F ⊎ own') s' /\ Pre' s' /\ ptriple own' Pre' m' P) ->
  ptriple own Pre m P.
Proof. apply triple_unroll; [tc_solve|apply p_answers_le]. Qed.

Lemma p_ask own Pre q :
  stable Pre ->
  ptriple own Pre (ask q) (fun x own' s => Pre s /\ exists s1 g, pool_answers q x s1 s g /\ own' = own ⊎ g).
Proof. apply triple_ask_stable; [tc_solve|apply p_answers_I|apply p_answers_le]. Qed.

(** A segment that keeps the invariant and a lasting fact. *)
Lemma p_segment {A} own own' Pre (m : Mp A) :
  stable Pre ->
  (forall F s, registered (F ⊎ own) s -> Pre s -> exists a s', m s = Done a s' /\ ple s s' /\ registered (F ⊎ own') s') ->
  ptriple own Pre m (fun _ o s => Pre s /\ o = own').
Proof.
  intros Hst Hm. apply triple_atomic; [tc_solve|]. intros F s HI HP.
  destruct (Hm F s HI HP) as (a & s' & E & Hle & HR). exists a, s', own'. split_and!; [done..|by eapply Hst|done].
Qed.

Lemma p_ask_unit own Pre q :
  stable Pre -> (forall x s s' g, pool_answers q x s s' g -> x = AUnit /\ g = ∅) ->
  ptriple own Pre (ask_unit q) (fun _ o s => Pre s /\ o = own).
Proof.
  intros Hst Hq. eapply triple_bind; [tc_solve|apply p_answers_le|by apply p_ask|].
  intros x o F s HI (HP & s1 & g & Hx & ->). destruct (Hq _ _ _ _ Hx) as [-> ->]. simpl. split; [reflexivity|].
  exists (own ⊎ ∅). rewrite gmultiset_disj_union_right_id in *. done.
Qed.

Lemma p_discard {A} own Pre (m : Mp A) :
  ptriple own Pre m (fun _ o _ => True /\ o = ∅) -> ptriple own Pre (do _ <- m in mret tt) (fun _ o _ => True /\ o = ∅).
Proof. intros Hm. eapply p_seq; [exact Hm|]. by apply triple_ret; [tc_solve|]. Qed.

Definition exists_server (id : uuid) (c : conn) (s : Pool) : Prop :=
  exists sv, memory s !! id = Some sv /\ Server_Conn sv = c.

Lemma stable_exists id c : stable (exists_server id c).
Proof. intros s s' Hle (sv & Hsv & E). destruct (ple_memory _ _ Hle id sv Hsv) as (sv' & H' & E'). exists sv'. split; congruence. Qed.

Lemma stable_id : stable (fun _ => True).
Proof. by intros ? ?. Qed.

Lemma p_delete own Pre id :
  stable Pre -> ptriple own Pre (modify (set_pooler (p_DeleteServer id))) (fun _ o s => Pre s /\ o = own).
Proof.
  intros Hst. apply p_segment; [done|]. intros F s HR _. eexists tt, _. split; [reflexivity|].
  split; [by apply ple_same; auto|]. apply registered_pooler; [done|simpl; set_solver|]. simpl.
  pose proof (reg_free _ _ HR) as Hf. clear -Hf. set_solver.
Qed.

Lemma t_SetState own id c st p :
  ptriple own (exists_server id c) (server_SetState id st p) (fun _ o s => exists_server id c s /\ o = own).
Proof.
  apply p_segment; [apply stable_exists|]. intros F s HR (sv & Hsv & _).
  destruct (SetState_ok (F ⊎ own) s id st p) as (s' & ? & ? & ?); [eauto|done|]. by exists tt, s'.
Qed.

Lemma p_removeServers l own :
  ptriple own (fun _ => True) (each removeServer l) (fun _ o _ => True /\ o = own).
Proof.
  induction l as [|c l IH]; [by apply triple_ret; [tc_solve|]|]. cbn [each].
  eapply p_seq; [|exact IH]. apply p_segment; [apply stable_id|]. intros F s HR _.
  destruct (removeServer_ok _ s c HR) as (s' & ? & ? & ?). by exists tt, s'.
Qed.

Lemma p_addServers l :
  ptriple (list_to_set_disj l) (fun _ => True) (each (addServer config) l) (fun _ o _ => True /\ o = ∅).
Proof.
  induction l as [|c l IH]; [by apply triple_ret; [tc_solve|]|]. cbn [each].
  eapply p_seq; [|exact IH]. apply p_segment; [apply stable_id|]. intros F s HR _.
  destruct (addServer_ok (F ⊎ list_to_set_disj l) s c) as (s' & ? & ? & ?).
  - rewrite list_to_set_disj_cons in HR. by rewrite <- (assoc_L (⊎)), (comm_L (⊎) (list_to_set_disj l)).
  - by exists tt, s'.
Qed.

(** *** The operations *)

Ltac unit_answer := intros [| |[]| | |] ? ? ?; simpl; try done; by intros [_ ->].

Lemma t_AddRecipe name recipe : ptriple ∅ (fun _ => True) (AddRecipe config name recipe) (fun _ o _ => True /\ o = ∅).
Proof.
  eapply triple_bind; [tc_solve|apply p_answers_le|by apply p_ask, stable_id|].
  intros x o F s HI (_ & s1 & g & Hx & ->). destruct x as [removed added| |[]| | |]; simpl in Hx; try done.
  destruct Hx as (_ & _ & _ & ->). rewrite gmultiset_disj_union_left_id in HI. revert F s HI.
  assert (Ht : ptriple (list_to_set_disj added) (fun _ => True)
    (if ((length removed =? 0) && (length added =? 0))%nat then mret tt else register config removed added) (fun _ o _ => True /\ o = ∅)).
  { destruct (_ && _) eqn:E.
    - apply andb_true_iff in E as [_ E%Nat.eqb_eq]. destruct added; [|done]. by apply triple_ret; [tc_solve|].
    - eapply p_seq; [apply p_removeServers|apply p_addServers]. }
  intros F s HI. by apply Ht.
Qed.

Lemma t_RemoveRecipe name : ptriple ∅ (fun _ => True) (RemoveRecipe name) (fun _ o _ => True /\ o = ∅).
Proof.
  eapply triple_bind; [tc_solve|apply p_answers_le|by apply p_ask, stable_id|].
  intros x o F s HI (_ & s1 & g & Hx & ->). destruct x as [|l|[]| | |]; simpl in Hx; try done.
  destruct Hx as (_ & ->). rewrite gmultiset_disj_union_left_id in HI.
  destruct (length l =? 0)%nat; [by apply (triple_ret _ _ _ ∅ (fun _ => True))|]. by apply p_removeServers.
Qed.

Lemma t_ScaleUp : ptriple ∅ (fun _ => True) (ScaleUp config) (fun _ o _ => True /\ o = ∅).
Proof.
  eapply triple_bind; [tc_solve|apply p_answers_le|by apply p_ask, stable_id|].
  intros x o F s HI (_ & s1 & g & Hx & ->). destruct x as [| |[e|c]| | |]; simpl in Hx; try done.
  - destruct Hx as (_ & ->). rewrite gmultiset_disj_union_left_id in HI. by apply (triple_ret _ _ _ ∅ (fun _ => True)).
  - destruct Hx as (_ & _ & ->). rewrite gmultiset_disj_union_left_id in HI.
    destruct (addServer_ok F s c HI) as (s' & E & Hle & HR). rewrite (mbind_done _ _ _ _ _ E). simpl. split; [done|].
    exists ∅. by rewrite gmultiset_disj_union_right_id.
Qed.

Lemma p_scale_down_one ignite t m id :
  ptriple ∅ (fun s => is_Some (memory s !! id)) (scale_down_one config ignite t m id) (fun _ o s => is_Some (memory s !! id) /\ o = ∅).
Proof.
  assert (Hst : stable (fun s => is_Some (memory s !! id))).
  { intros s s' Hle [sv Hsv]. destruct (ple_memory _ _ Hle id sv Hsv) as (sv' & E & _). by exists sv'. }
  apply p_segment; [done|]. intros F s HR [sv Hsv]. cbn. rewrite Hsv. cbn.
  destruct (decide _); [by exists m, s|]. destruct (_ >? _); [|by eexists _, s].
  destruct (ignite _); [|by exists m, s]. eexists m, _. split; [reflexivity|]. split; [by apply ple_same; auto|].
  by apply registered_remove.
Qed.

Lemma p_scale_down_loop ignite t m ids :
  ptriple ∅ (fun s => forall id, id ∈ ids -> is_Some (memory s !! id)) (scale_down_loop config ignite t m ids) (fun _ o _ => True /\ o = ∅).
Proof.
  revert m. induction ids as [|id ids IH]; intros m; [by apply triple_ret; [tc_solve|]|]. cbn [scale_down_loop].
  apply (p_then _ (fun _ => ∅) _ _ (fun _ s => forall id, id ∈ ids -> is_Some (memory s !! id))); [|apply IH].
  assert (Hst : stable (fun s => forall id', id' ∈ id :: ids -> is_Some (memory s !! id'))).
  { intros s s' Hle Hs id' Hin. destruct (Hs id' Hin) as [sv Hsv]. destruct (ple_memory _ _ Hle id' sv Hsv) as (sv' & E & _). by exists sv'. }
  intros F s HR Hs. eapply safe_mono; [tc_solve|apply p_answers_le|reflexivity| |apply p_scale_down_one; [done|apply Hs; left]].
  simpl. intros _ o s' Hle [_ ->]. split; [|done]. intros id' Hin. eapply Hst; [exact Hle|done|by right].
Qed.

Lemma iter_memory it F s : iter_ok it -> registered F s -> forall id, id ∈ it (serversByID s) -> is_Some (memory s !! id).
Proof.
  intros Hit HR id Hin. red in Hit. rewrite Hit in Hin. apply elem_of_elements in Hin.
  destruct (reg_id _ _ HR id Hin) as (sv & ? & _). by exists sv.
Qed.

Lemma t_ScaleDown it ignite t :
  iter_ok it -> ptriple ∅ (fun _ => True) (ScaleDown config it ignite t) (fun _ o _ => True /\ o = ∅).
Proof.
  intros Hit F s HR _. unfold ScaleDown. rewrite (mbind_done mget _ s s s eq_refl).
  apply p_scale_down_loop; [done|]. by eapply iter_memory.
Qed.

Lemma t_Acquire fuel client : ptriple ∅ (fun _ => True) (Acquire fuel client) (fun _ o _ => True /\ o = ∅).
Proof.
  induction fuel as [|fuel IH]; [by apply triple_ret; [tc_solve|]|]. cbn [Acquire].
  eapply triple_bind; [tc_solve|apply p_answers_le|by apply p_ask, stable_id|].
  intros x o F s HI (_ & s1 & g & Hx & ->). destruct x as [| |[]|id| |]; simpl in Hx; try done.
  destruct Hx as (_ & _ & ->). rewrite gmultiset_disj_union_left_id in HI.
  destruct (decide (id = Nil)); [by apply (triple_ret _ _ _ ∅ (fun _ => True))|]. revert F s HI.
  assert (Ht : ptriple ∅ (fun _ => True) (ask_unit QYield ;;; do s <- mget in
    if decide (id ∈ serversByID s) then server_SetState id ConnStatePairing client ;;; mret (Some (Some id))
    else ask_unit QYield ;;; modify (set_pooler (p_DeleteServer id)) ;;; Acquire fuel client) (fun _ o _ => True /\ o = ∅)).
  { eapply p_seq; [apply p_ask_unit; [apply stable_id|unit_answer]|].
    apply p_unroll. intros F s HI _. destruct (decide (id ∈ serversByID s)) as [Hin|Hin].
    - destruct (reg_id _ _ HI id Hin) as (sv & Hsv & _).
      eexists _, s, ∅, (exists_server id (Server_Conn sv)). split; [rewrite (mbind_done mget _ s s s eq_refl), decide_True by done; reflexivity|].
      split_and!; [done..|by exists sv|]. eapply p_seq; [apply t_SetState|]. by apply triple_ret; [tc_solve|].
    - eexists _, s, ∅, (fun _ => True). split; [rewrite (mbind_done mget _ s s s eq_refl), decide_False by done; reflexivity|].
      split_and!; [done..|]. eapply p_seq; [apply p_ask_unit; [apply stable_id|unit_answer]|].
      eapply p_seq; [apply p_delete, stable_id|]. apply IH. }
  intros F s HI. by apply Ht.
Qed.

Lemma t_RemoveServer id c : ptriple ∅ (exists_server id c) (RemoveServer id c) (fun _ o _ => True /\ o = ∅).
Proof.
  eapply p_seq; [apply p_ask_unit; [apply stable_exists|unit_answer]|].
  eapply p_seq; [apply p_delete, stable_exists|].
  eapply p_seq; [apply p_ask_unit; [apply stable_exists|unit_answer]|].
  intros F s HI (sv & Hsv & <-). cbn. split; [by apply ple_same; auto|]. exists ∅. split; [by apply registered_remove|done].
Qed.

Lemma t_Release id c : ptriple ∅ (exists_server id c) (Release config id c) (fun _ o _ => True /\ o = ∅).
Proof.
  apply (p_then _ (fun _ => ∅) _ _ (fun failed s => failed = false -> exists_server id c s)).
  - destruct (ResetQuery config); [|by apply triple_ret; [tc_solve|]].
    eapply p_seq; [apply t_SetState|].
    eapply triple_bind; [tc_solve|apply p_answers_le|apply p_ask, stable_exists|].
    intros x o F s HI (Hs & s1 & g & Hx & ->). destruct x as [| |[]| |e|]; simpl in Hx; try done.
    destruct Hx as (_ & ->). rewrite gmultiset_disj_union_left_id in HI. destruct e as [e|].
    + revert F s HI Hs. assert (Ht : ptriple ∅ (exists_server id c) (RemoveServer id c ;;; mret true)
        (fun failed o s => (failed = false -> exists_server id c s) /\ o = ∅)).
      { eapply p_seq; [apply t_RemoveServer|]. by apply triple_ret; [tc_solve|]. }
      intros F s HI Hs. by apply Ht.
    + by apply (triple_ret _ _ _ ∅ (exists_server id c)).
  - intros [|]; [by apply triple_ret; [tc_solve|]|].
    apply (p_seq _ ∅ _ _ (exists_server id c)).
    + eapply triple_weaken; [tc_solve|apply p_answers_le|apply (p_segment ∅ ∅ (exists_server id c))|naive_solver|done]; [apply stable_exists|].
      intros F s HR Hs. eexists tt, _. split; [reflexivity|]. split; [by apply ple_same; auto|].
      apply registered_pooler; [done|..]; unfold p_Release; destruct (decide _); simpl; try done; [|apply HR].
      pose proof (reg_free _ _ HR). set_solver.
    + eapply p_seq; [apply p_ask_unit; [apply stable_exists|unit_answer]|].
      eapply triple_weaken; [tc_solve|apply p_answers_le|apply (t_SetState ∅ id c)|done|naive_solver].
Qed.

Lemma read_servers_ok O ids m s :
  (forall id, id ∈ ids -> is_Some (memory s !! id)) -> registered O s ->
  exists r s', read_servers ids m s = Done r s' /\ ple s s' /\ registered O s'.
Proof.
  revert m s. induction ids as [|id ids IH]; intros m s Hids HR; [by exists m, s|].
  destruct (Hids id) as [sv Hsv]; [left|]. cbn. rewrite Hsv. cbn.
  set (s1 := set_memory _ s).
  assert (HR1 : ple s s1 /\ registered O s1) by (by apply (registered_update O s id sv)).
  destruct (IH (<[id := (Server_ReadMetrics sv (now s)).1]> m) s1) as (r & s' & E & L & R).
  - intros id' Hin. destruct (Hids id') as [sv' Hsv']; [by right|]. destruct (ple_memory _ _ (proj1 HR1) id' sv' Hsv') as (sv2 & H2 & _). by exists sv2.
  - apply HR1.
  - exists r, s'. split; [exact E|]. split; [|done]. etrans; [apply HR1|done].
Qed.

Lemma t_with_server id (f : uuid -> conn -> Mp unit) :
  (forall c, ptriple ∅ (exists_server id c) (f id c) (fun _ o _ => True /\ o = ∅)) ->
  ptriple ∅ (fun _ => True) (with_server id f) (fun _ o _ => True /\ o = ∅).
Proof.
  intros Hf F s HR _. cbn. destruct (memory s !! id) as [sv|] eqn:Hsv; [|by apply (triple_ret _ _ _ ∅ (fun _ => True))].
  destruct (reg_memory _ _ HR id sv Hsv) as (-> & _). apply Hf; [done|]. by exists sv.
Qed.

Lemma p_op_safe m : pool_op m -> ptriple ∅ (fun _ => True) m (fun _ o _ => o = ∅).
Proof.
  intros Hm. assert (Ht : ptriple ∅ (fun _ => True) m (fun _ o _ => True /\ o = ∅)).
  2: { eapply triple_weaken; [tc_solve|apply p_answers_le|exact Ht|done|naive_solver]. }
  destruct Hm; try apply p_discard.
  - apply t_AddRecipe.
  - apply t_RemoveRecipe.
  - apply t_ScaleUp.
  - by apply t_ScaleDown.
  - apply t_Acquire.
  - apply t_with_server. intros c. apply t_Release.
  - apply t_with_server. intros c. apply t_RemoveServer.
  - apply t_with_server. intros c. eapply triple_weaken; [tc_solve|apply p_answers_le|apply (t_SetState ∅ id c)|done|naive_solver].
  - apply p_ask_unit; [apply stable_id|unit_answer].
  - apply p_segment; [apply stable_id|]. intros F s HR _. unfold Pool_ReadMetrics. rewrite (mbind_done mget _ s s s eq_refl).
    destruct (read_servers_ok (F ⊎ ∅) (it (serversByID s)) (Servers m) s) as (r & s' & E & L & R); [by eapply iter_memory|done|].
    rewrite (mbind_done _ _ _ _ _ E). by eexists _, s'.
  - assert (Hst : stable (fun s => closed s = true)) by (intros s s' Hle; apply (ple_closed _ _ Hle)).
    apply (p_seq _ ∅ _ _ (fun s => closed s = true)).
    { apply triple_atomic; [tc_solve|]. intros F s HR _. eexists tt, _, ∅. split; [reflexivity|].
      split_and!; [apply ple_same; auto|by apply registered_closed|done..]. }
    eapply p_seq; [apply p_ask_unit; [exact Hst|unit_answer]|].
    eapply p_seq; [apply (p_segment ∅ ∅ _ _ Hst)|].
    { intros F s HR _. eexists tt, _. split; [reflexivity|]. split; [by apply ple_same; auto|]. apply registered_pooler; [done|set_solver..]. }
    eapply p_seq; [apply p_ask_unit; [exact Hst|unit_answer]|].
    eapply triple_weaken; [tc_solve|apply p_answers_le|apply (p_segment ∅ ∅ _ _ Hst)|done|naive_solver].
    intros F s HR Hc. eexists tt, _. split; [reflexivity|]. split; [by apply ple_same; auto|].
    destruct HR as [R1 R2 R3 R4 R5 R6 R7]. split; simpl; try done. congruence.
Qed.
End Calls.

(** ** ScaleDown *)

(** A server that ScaleDown removes. *)
Definition expired (config : Config) (ignite : conn -> bool) (t : Z) (s : Pool) (id : uuid) : bool :=
  match memory s !! id with
  | Some sv => bool_decide (state (tracked sv) = ConnStateIdle) &&
               (t - since (tracked sv) >? IdleTimeout config) && ignite (Server_Conn sv)
  | None => false
  end.

(** The clocks of the idle servers are not ahead of [t]. *)
Definition not_ahead (t : Z) (s : Pool) (ids : list uuid) : Prop :=
  forall id sv, id ∈ ids -> memory s !! id = Some sv -> state (tracked sv) = ConnStateIdle -> since (tracked sv) <= t.

Lemma scale_down_one_ok config ignite t m id s :
  is_Some (memory s !! id) ->
  exists m' s', scale_down_one config ignite t m id s = Done m' s' /\ memory s' = memory s /\
    serversByID s' = (if expired config ignite t s id then serversByID s ∖ {[id]} else serversByID s) /\
    pooler s' = (if expired config ignite t s id then p_DeleteServer id (pooler s) else pooler s) /\
    (0 <= m <= IdleTimeout config -> not_ahead t s [id] -> 0 <= m' <= IdleTimeout config).
Proof.
  intros [sv Hsv]. cbn. rewrite Hsv. cbn. unfold expired. rewrite Hsv.
  destruct (decide (state (tracked sv) <> ConnStateIdle)) as [Hne|Hst].
  { exists m, s. rewrite bool_decide_eq_false_2 by done. done. }
  apply dec_stable in Hst. rewrite bool_decide_eq_true_2 by done. simpl.
  destruct (Z.gtb_spec (t - since (tracked sv)) (IdleTimeout config)) as [Hgt|Hle]; simpl.
  - destruct (ignite (Server_Conn sv)); [|by exists m, s]. by eexists m, _.
  - eexists _, s. split; [reflexivity|]. split_and!; [done..|]. intros Hm Hah.
    assert (since (tracked sv) <= t) by (apply (Hah id); [left|done..]). destruct (Z.ltb_spec (t - since (tracked sv)) m); lia.
Qed.

Lemma keep_cons (X : gset uuid) (f : uuid -> bool) id ids id' :
  id' ∈ (if f id then X ∖ {[id]} else X) /\ ~ (id' ∈ ids /\ f id' = true) <->
  id' ∈ X /\ ~ (id' ∈ id :: ids /\ f id' = true).
Proof.
  rewrite elem_of_cons. destruct (decide (id' = id)) as [->|Hne].
  - destruct (f id); [|intuition congruence]. rewrite elem_of_difference, elem_of_singleton. tauto.
  - destruct (f id); [rewrite elem_of_difference, elem_of_singleton|]; tauto.
Qed.

Lemma scale_down_loop_ok config ignite t ids m s :
  (forall id, id ∈ ids -> is_Some (memory s !! id)) ->
  exists m' s', scale_down_loop config ignite t m ids s = Done m' s' /\ memory s' = memory s /\
    (forall id, id ∈ serversByID s' <-> id ∈ serversByID s /\ ~ (id ∈ ids /\ expired config ignite t s id = true)) /\
    (forall id, id ∈ known (pooler s') <-> id ∈ known (pooler s) /\ ~ (id ∈ ids /\ expired config ignite t s id = true)) /\
    (0 <= m <= IdleTimeout config -> not_ahead t s ids -> 0 <= m' <= IdleTimeout config).
Proof.
  revert m s. induction ids as [|id ids IH]; intros m s Hids.
  { exists m, s. split_and!; try done; intros id; rewrite elem_of_nil; tauto. }
  destruct (scale_down_one_ok config ignite t m id s) as (m1 & s1 & E1 & M1 & S1 & P1 & B1); [apply Hids; left|].
  destruct (IH m1 s1) as (m2 & s2 & E2 & M2 & S2 & P2 & B2).
  { intros id' Hin. rewrite M1. apply Hids. by right. }
  assert (Hex : forall id', expired config ignite t s1 id' = expired config ignite t s id') by (intros; unfold expired; by rewrite M1).
  exists m2, s2. cbn [scale_down_loop]. rewrite (mbind_done _ _ _ _ _ E1). split_and!; [done|congruence| | |].
  - intros id'. rewrite S2, S1, Hex. apply (keep_cons _ (expired config ignite t s)).
  - intros id'. rewrite P2, P1, Hex. rewrite <- (keep_cons _ (expired config ignite t s)).
    by destruct (expired config ignite t s id).
  - intros Hm Hah. apply B2.
    + apply B1; [done|]. intros id' sv ->%list_elem_of_singleton. apply Hah. left.
    + intros id' sv Hin. rewrite M1. apply Hah. by right.
Qed.

(** ** ScaleLoop *)

(** Its variables: the amount, whether the timer will fire, and the duration the
    idle timer was last set to. *)
Record Loop := mkLoop { backoffAmount : Z; backoff_armed : bool; idle : option Z }.

Inductive loop_event :=
| EvClosed                (* <-T.closed *)
| EvBackoff               (* <-backoff.C *)
| EvWaiting               (* <-T.pooler.Waiting() *)
| EvIdle (d : Z).         (* <-idle.C, and what ScaleDown returns *)

(** [for T.pooler.Waiters() > 0 { ScaleUp }]: the numbers of waiters seen and the
    results of ScaleUp. *)
Fixpoint scale_waiters (l : list (Z * option error)) : bool :=
  match l with
  | [] => true
  | (w, e) :: l => if w >? 0 then match e with Some _ => false | None => scale_waiters l end else true
  end.

Definition loop_init (config : Config) : Loop :=
  mkLoop 0 false (if IdleTimeout config =? 0 then None else Some (IdleTimeout config)).

Definition reset_backoff (amount : Z) (L : Loop) : Loop :=
  mkLoop amount (if amount =? 0 then backoff_armed L else true) (idle L).

(** One turn of the loop; [None] is the return. *)
Definition loop_step (config : Config) (ev : loop_event) (ups : list (Z * option error)) (L : Loop) : option Loop :=
  match ev with
  | EvClosed => None
  | EvBackoff =>
      let L := mkLoop (backoffAmount L) false (idle L) in
      Some (if backoffAmount L =? 0 then L
            else if scale_waiters ups then mkLoop 0 false (idle L)
            else reset_backoff (Z.min (ReconnectMaxTime config) (2 * backoffAmount L)) L)
  | EvWaiting =>
      Some (if negb (backoffAmount L =? 0) then L
            else if scale_waiters ups then L
            else reset_backoff (ReconnectInitialTime config) L)
  | EvIdle d => Some (mkLoop (backoffAmount L) (backoff_armed L) (Some d))
  end.

(** A timer fires only if it is armed. *)
Definition loop_enabled (ev : loop_event) (L : Loop) : Prop :=
  match ev with EvBackoff => backoff_armed L = true | EvIdle _ => is_Some (idle L) | _ => True end.

Definition loop_reachable (config : Config) : Loop -> Prop :=
  reachable (fun L => L = loop_init config)
    (fun L L' => exists ev ups, loop_enabled ev L /\ loop_step config ev ups L = Some L').

Lemma loop_inv config L :
  0 <= ReconnectInitialTime config -> 0 <= ReconnectMaxTime config -> loop_reachable config L ->
  (backoff_armed L = true <-> backoffAmount L <> 0) /\
  0 <= backoffAmount L <= Z.max (ReconnectInitialTime config) (ReconnectMaxTime config).
Proof.
  intros Hi Hm. apply (invariant_reachable _ _ (fun L => (backoff_armed L = true <-> backoffAmount L <> 0) /\
    0 <= backoffAmount L <= Z.max (ReconnectInitialTime config) (ReconnectMaxTime config))).
  - intros L0 ->. simpl. split; [naive_solver|lia].
  - intros L0 L1 _ [Ha Hb] (ev & ups & He & E). destruct ev as [| | |d]; simpl in *; simplify_eq.
    + destruct (Z.eqb_spec (backoffAmount L0) 0) as [E0|E0]; [naive_solver|].
      destruct (scale_waiters ups); simpl; [split; [naive_solver|lia]|].
      unfold reset_backoff. simpl. destruct (Z.eqb_spec (Z.min (ReconnectMaxTime config) (2 * backoffAmount L0)) 0); simpl; split; try naive_solver; lia.
    + destruct (Z.eqb_spec (backoffAmount L0) 0) as [E0|E0]; simpl; [|done].
      destruct (scale_waiters ups); [done|].
      unfold reset_backoff. destruct (Z.eqb_spec (ReconnectInitialTime config) 0) as [E1|E1]; simpl; split; try naive_solver; try lia.
    + done.
Qed.

(** ** Theorems *)
Module SpoolTheorems.


(** ScaleDown returns; it removes, from the maps and from the pooler, exactly
    the servers that have been idle for longer than the timeout and that the
    chef lets go, and the time until it is to run again is between zero and the
    timeout. *)
Theorem scale_down_correct config it ignite t O s :
  0 <= IdleTimeout config -> iter_ok it -> registered O s -> not_ahead t s (elements (serversByID s)) ->
  exists m s', ScaleDown config it ignite t s = Done m s' /\ 0 <= m <= IdleTimeout config /\
    (forall id, id ∈ serversByID s' <-> id ∈ serversByID s /\ expired config ignite t s id = false) /\
    (closed s = false -> forall id, id ∈ known (pooler s') <-> id ∈ known (pooler s) /\ expired config ignite t s id = false).
Proof.
  intros Ht Hit HR Hah. unfold ScaleDown. rewrite (mbind_done mget _ s s s eq_refl).
  assert (Hin : forall id, id ∈ it (serversByID s) <-> id ∈ serversByID s).
  { intros id. red in Hit. by rewrite Hit, elem_of_elements. }
  destruct (scale_down_loop_ok config ignite t (it (serversByID s)) (IdleTimeout config) s) as (m & s' & E & _ & HS & HP & HB).
  { by eapply iter_memory. }
  exists m, s'. split; [done|]. split.
  { apply HB; [lia|]. intros id sv Hi. apply Hah. by apply elem_of_elements, Hin. }
  split.
  - intros id. rewrite HS, Hin. destruct (expired config ignite t s id); intuition congruence.
  - intros Hc id. rewrite HP, Hin. pose proof (reg_pooler _ _ HR Hc id).
    destruct (expired config ignite t s id); intuition congruence.
Qed.

(** Release gives the server back or gets rid of it: if the reset query fails
    the connection is burned and the server leaves the maps and the pooler;
    otherwise, or without a reset query, it is free in the pooler and idle. *)
Theorem release_resets config O s id sv :
  registered O s -> memory s !! id = Some sv -> id ∈ known (pooler s) ->
  (ResetQuery config = None -> exists s', alone [AUnit] (Release config id (Server_Conn sv) s) = Done tt s' /\
     id ∈ free (pooler s') /\ exists sv', memory s' !! id = Some sv' /\ state (tracked sv') = ConnStateIdle) /\
  (forall q, ResetQuery config = Some q -> exists s', alone [AReset None; AUnit] (Release config id (Server_Conn sv) s) = Done tt s' /\
     id ∈ free (pooler s') /\ exists sv', memory s' !! id = Some sv' /\ state (tracked sv') = ConnStateIdle) /\
  (forall q e, ResetQuery config = Some q -> exists s1 k s',
     alone [AReset (Some e)] (Release config id (Server_Conn sv) s) = Ask (QBurn (Server_Conn sv)) s1 k /\
     alone [AReset (Some e); AUnit; AUnit] (Release config id (Server_Conn sv) s) = Done tt s' /\
     id ∉ serversByID s' /\ id ∉ known (pooler s') /\ serversByConn s' !! Server_Conn sv = None).
Proof.
  intros HR Hsv Hk. split_and!.
  - intros E. unfold Release. rewrite E. cbn. rewrite Hsv. cbn. eexists. split; [reflexivity|]. simpl.
    unfold p_Release. rewrite decide_True by done. simpl. split; [set_solver|]. eexists. by rewrite lookup_insert_eq.
  - intros q E. unfold Release. rewrite E. cbn. rewrite Hsv. cbn. rewrite lookup_insert_eq. cbn. eexists. split; [reflexivity|]. simpl.
    unfold p_Release. rewrite decide_True by done. simpl. split; [set_solver|]. eexists. by rewrite lookup_insert_eq.
  - intros q e E. unfold Release. rewrite E. cbn. rewrite Hsv. cbn. eexists _, _, _. split; [reflexivity|]. split; [reflexivity|].
    simpl. rewrite lookup_delete_eq. split_and!; [set_solver..|done].
Qed.

(** While servers cannot be dialed the retry is not forgotten: after any events
    the timer is armed if and only if a backoff is pending, the backoff never
    exceeds the larger of the two configured times, and if both are positive a
    failed attempt leaves the timer armed. *)
Theorem scale_loop_retries config L :
  0 <= ReconnectInitialTime config -> 0 <= ReconnectMaxTime config -> loop_reachable config L ->
  (backoff_armed L = true <-> backoffAmount L <> 0) /\
  0 <= backoffAmount L <= Z.max (ReconnectInitialTime config) (ReconnectMaxTime config) /\
  (0 < ReconnectInitialTime config -> 0 < ReconnectMaxTime config ->
   forall ev ups L', ev = EvBackoff \/ ev = EvWaiting -> loop_enabled ev L -> scale_waiters ups = false ->
   loop_step config ev ups L = Some L' -> backoff_armed L' = true /\ 0 < backoffAmount L').
Proof.
  intros Hi Hm Hr. destruct (loop_inv config L Hi Hm Hr) as [Ha Hb]. split_and!; [done|lia|lia|].
  intros Hi' Hm' ev ups L' Hev He Hups E. destruct Hev as [-> | ->]; simpl in *; rewrite Hups in E; simplify_eq.
  - rewrite (proj2 (Z.eqb_neq _ _)) by (by apply Ha). unfold reset_backoff. simpl. apply Ha in He.
    rewrite (proj2 (Z.eqb_neq _ _)) by lia. split; [done|lia].
  - destruct (Z.eqb_spec (backoffAmount L) 0) as [E0|E0]; simpl; [|split; [by apply Ha|lia]].
    unfold reset_backoff. rewrite (proj2 (Z.eqb_neq _ _)) by lia. simpl. split; [done|lia].
Qed.

(** *** A small pool *)

Definition config0 : Config := mkConfig true true false false None 100 1 8.
Definition pool0 : Pool := mkPool ∅ ∅ (mkPoolerState ∅ ∅) ∅ ∅ ∅ 5 false.

Lemma pool0_init : pool_init pool0.
Proof. done. Qed.

Abbreviation pool_sys := (Sys Pool request answer).

(** The chef has cooked connection 1. *)
Definition scaled : pool_sys :=
  run_resume 0 (ACook (inr 1%nat)) (set_seen (union {[ 1%nat ]}))
    (run_call (do _ <- ScaleUp config0 in mret tt) (mkSys pool0 [] false)).

Lemma scaled_reachable : pool_reachable config0 scaled.
Proof.
  eapply (reachable_resume _ _ _ _ _ QCook); [| |by vm_compute|split_and!; [by vm_compute|reflexivity..]].
  - apply reachable_call; [|done|constructor]. apply reachable_init. by split_and!.
  - by vm_compute.
Qed.

(** Client 7 acquires a server, up to the end of the call. *)
Definition acquired (client : uuid) (y : pool_sys) : pool_sys :=
  run_resume 0 AUnit id (run_resume 0 (AAcquire 1%nat) (set_pooler (p_Acquire 1%nat))
    (run_call (do _ <- Acquire 1 client in mret tt) y)).

(** It releases the server; before it has marked the server as idle, client 8
    acquires it. *)
Definition release_race : pool_sys :=
  run_resume 0 AUnit id
   (run_resume 0 AUnit id (run_resume 0 (AAcquire 1%nat) (set_pooler (p_Acquire 1%nat))
     (run_call (do _ <- Acquire 1 8%nat in mret tt)
       (run_call (with_server 1%nat (Release config0)) (acquired 7%nat scaled))))).

Lemma release_race_reachable : pool_reachable config0 release_race.
Proof.
  eapply (reachable_resume _ _ _ _ _ QYield); [| |by vm_compute|done]; [|by vm_compute].
  eapply (reachable_resume _ _ _ _ _ QYield); [| |by vm_compute|done]; [|by vm_compute].
  eapply (reachable_resume _ _ _ _ _ (QAcquire 8)); [| |by vm_compute|split_and!; [right; by vm_compute|reflexivity..]]; [|by vm_compute].
  apply reachable_call; [|by vm_compute|constructor]. apply reachable_call; [|by vm_compute|constructor].
  eapply (reachable_resume _ _ _ _ _ QYield); [| |by vm_compute|done]; [|by vm_compute].
  eapply (reachable_resume _ _ _ _ _ (QAcquire 7)); [| |by vm_compute|split_and!; [right; by vm_compute|reflexivity..]]; [|by vm_compute].
  apply reachable_call; [apply scaled_reachable|by vm_compute|constructor].
Qed.

(** A server in use can be marked idle: Release hands the server to the pooler
    before it sets its state, so in this run client 8 holds the server, no call is
    in progress, and the state of the server is idle: ScaleDown may close it under
    the client. *)
Theorem release_idle_race :
  exists y sv, pool_reachable config0 y /\ calls y = [] /\
    1%nat ∈ serversByID (shared y) /\ 1%nat ∉ free (pooler (shared y)) /\
    memory (shared y) !! 1%nat = Some sv /\ state (tracked sv) = ConnStateIdle /\
    expired config0 (fun _ => true) (now (shared y) + 101) (shared y) 1%nat = true.
Proof.
  exists release_race. eexists. split; [apply release_race_reachable|].
  split_and!; try by vm_compute.
Qed.

(** Two servers: one idle since 5, one since 90. *)
Definition two_servers : pool_sys :=
  run_resume 0 (ACook (inr 2%nat)) (set_seen (union {[ 2%nat ]}))
    (run_call (do _ <- ScaleUp config0 in mret tt) (mkSys (set_now 90 (shared scaled)) [] false)).

Lemma two_servers_reachable : pool_reachable config0 two_servers.
Proof.
  eapply (reachable_resume _ _ _ _ _ QCook); [| |by vm_compute|split_and!; [by vm_compute|reflexivity..]]; [|by vm_compute].
  apply reachable_call; [|done|constructor]. eapply reachable_step; [apply scaled_reachable|].
  change scaled with (mkSys (shared scaled) [] false : pool_sys). constructor. by exists 90.
Qed.

(** ScaleDown can sleep past the timeout of a server: of two idle servers, with
    a timeout of 100 the first has 5 left at time 100; visited in this order,
    ScaleDown asks to be called again after 90. *)
Theorem scale_down_late :
  exists y it sv m s', pool_reachable config0 y /\ iter_ok it /\
    1%nat ∈ serversByID (shared y) /\ memory (shared y) !! 1%nat = Some sv /\ state (tracked sv) = ConnStateIdle /\
    IdleTimeout config0 - (100 - since (tracked sv)) = 5 /\
    ScaleDown config0 it (fun _ => true) 100 (shared y) = Done m s' /\ m = 90.
Proof.
  exists two_servers, elements. eexists _, _, _. split; [apply two_servers_reachable|].
  split; [by intros X|].
  split_and!; [by vm_compute|vm_compute; reflexivity|by vm_compute|by vm_compute|vm_compute; reflexivity|by vm_compute].
Qed.

(** *** Witnesses *)


Lemma scaled_registered : exists O, registered O (shared scaled).
Proof.
  destruct (reachable_owned pool_answers pool_env (pool_op config0) pool_init registered ple
    p_answers_I p_answers_le p_env_I p_env_le (p_op_safe config0)) with (y := scaled) as (_ & owns & HR & _);
    [|apply scaled_reachable|by eexists].
  intros s (E1 & E2 & E3 & E4 & E5). split; rewrite ?E1, ?E2, ?E3, ?E4, ?E5; done.
Qed.

Lemma scale_down_correct_witness :
  exists m s', ScaleDown config0 elements (fun _ => true) 200 (shared scaled) = Done m s' /\ 1%nat ∉ serversByID s'.
Proof.
  destruct scaled_registered as [O HO].
  destruct (scale_down_correct config0 elements (fun _ => true) 200 O (shared scaled)) as (m & s' & E & _ & HS & _).
  - done.
  - by intros X.
  - done.
  - intros id sv Hid Hsv _. assert (id = 1%nat) as -> by (vm_compute in Hid; set_solver). by vm_compute in Hsv; simplify_eq.
  - exists m, s'. split; [done|]. rewrite HS. intros [_ Hx]. by vm_compute in Hx.
Defined.

Lemma release_resets_witness :
  exists sv s', memory (shared scaled) !! 1%nat = Some sv /\
    alone [AUnit] (Release config0 1%nat (Server_Conn sv) (shared scaled)) = Done tt s' /\ 1%nat ∈ free (pooler s').
Proof.
  destruct scaled_registered as [O HO]. destruct (memory (shared scaled) !! 1%nat) as [sv|] eqn:E; [|by vm_compute in E].
  destruct (release_resets config0 O (shared scaled) 1%nat sv HO E) as [H _]; [by vm_compute|].
  destruct (H eq_refl) as (s' & ? & ? & _). by exists sv, s'.
Defined.

Lemma scale_loop_retries_witness :
  exists L', loop_step config0 EvWaiting [(1, Some EOF)] (loop_init config0) = Some L' /\ backoff_armed L' = true.
Proof.
  eexists. split; [reflexivity|].
  apply (scale_loop_retries config0 (loop_init config0)) with (ev := EvWaiting) (ups := [(1, Some EOF)]);
    try done; [by apply reachable_init|by right].
Defined.
End SpoolTheorems.
