(* ===== verification/Discovery.v ===== *)
(** * Discovery: lib/gat/handlers/discovery/module.go and cluster.go

    The module keeps one pool for each user and database of the clusters that a
    discoverer reports.  [Module] is its state; the pools are shared objects, so
    they are entries of a store [heap] and T.pools (a maps.TwoKey) refers to
    them.  A pool is what pool.Pool promises: recipes by name, a recipe added
    under a name replaces the one there.

    If the pools of the factory are pool.ReplicaPools ([isReplica]) the replicas
    of a cluster are recipes of their own in it; otherwise they have a pool for
    the user with _ro.  The order of a range over a map is a parameter, as is
    what passwords are made into.

    [view] is what a client sees of the state.  The operations act on a cell, the
    one or two pools of a user and database ([touch]); [updated_touch] shows that
    an update brings the cells from one version of the cluster to the next, and
    [module_ok] is the invariant of the loop. *)

From stdpp Require Import strings.
From S2P Require Import Prelude.
From S2P Require Import Wire.

Record User := mkUser { Username : string; Password : string }.
Record Node := mkNode { Address : string; NodePriority : Z }.
Record Cluster := mkCluster {
  ID : string;
  Primary : Node;
  Replicas : gmap string Node;
  Databases : list string;
  Users : list User
}.

#[export] Instance User_eq_dec : EqDecision User.
Proof. solve_decision. Defined.
#[export] Instance Node_eq_dec : EqDecision Node.
Proof. solve_decision. Defined.

Definition each {A M : Type} (l : list A) (f : A -> M -> M) (T : M) : M := foldl (fun T a => f a T) T l.

Section Discovery.
Context {Creds TLS : Type} (FromString : string -> string -> Creds).
(** What is the same in every recipe. *)
Record Config := mkConfig {
  ServerSSLMode : string;
  sslConfig : TLS;
  serverStartupParameters : gmap string string;
  ServerMinConnections : Z;
  ServerMaxConnections : Z
}.
Context (config : Config) (isReplica : bool).
(** The range over a map. *)
Context (order : gmap string Node -> list (string * Node)) (order_ids : gmap string Cluster -> list string).

(** pool.Recipe with its Dialer. *)
Record Recipe := mkRecipe {
  RAddress : string;
  RUsername : string;
  Credentials : Creds;
  RDatabase : string;
  RConfig : Config;
  RPriority : Z
}.

(** pool.Pool, pool.ReplicaPool *)
Record Pool := mkPool {
  recipes : gmap string Recipe;
  replicaRecipes : gmap string Recipe;
  closed : bool
}.
Definition NewPool : Pool := mkPool ∅ ∅ false.
Definition AddRecipe (name : string) (r : Recipe) (p : Pool) : Pool :=
  mkPool (<[name := r]> (recipes p)) (replicaRecipes p) (closed p).
Definition RemoveRecipe (name : string) (p : Pool) : Pool := mkPool (delete name (recipes p)) (replicaRecipes p) (closed p).
Definition AddReplicaRecipe (name : string) (r : Recipe) (p : Pool) : Pool :=
  mkPool (recipes p) (<[name := r]> (replicaRecipes p)) (closed p).
Definition RemoveReplicaRecipe (name : string) (p : Pool) : Pool :=
  mkPool (recipes p) (delete name (replicaRecipes p)) (closed p).
Definition Close (p : Pool) : Pool := mkPool (recipes p) (replicaRecipes p) true.

Record poolAndCredentials := mkPC { pool : nat; pcreds : Creds }.

Record Module_ := mkModule {
  clusters : gmap string Cluster;
  creds : gmap (string * string) Creds;
  pools : gmap (string * string) poolAndCredentials;
  heap : list Pool;
  started : bool    (* T.closed is a channel *)
}.
Definition set_clusters (f : gmap string Cluster -> gmap string Cluster) (T : Module_) : Module_ :=
  mkModule (f (clusters T)) (creds T) (pools T) (heap T) (started T).

(** A method of the pool at [i]. *)
Definition on_pool (i : nat) (f : Pool -> Pool) (T : Module_) : Module_ :=
  mkModule (clusters T) (creds T) (pools T) (alter f i (heap T)) (started T).

Definition getCreds (user : User) (T : Module_) : Creds * Module_ :=
  match creds T !! (Username user, Password user) with
  | Some c => (c, T)
  | None =>
      let c := FromString (Username user) (Password user) in
      (c, mkModule (clusters T) (<[(Username user, Password user) := c]> (creds T)) (pools T) (heap T) (started T))
  end.

Definition getOrAddPool (user : User) (database : string) (T : Module_) : poolAndCredentials * Module_ :=
  match pools T !! (Username user, database) with
  | Some old => (old, T)
  | None =>
      let '(c, T) := getCreds user T in
      let p := mkPC (length (heap T)) c in
      (p, mkModule (clusters T) (creds T) (<[(Username user, database) := p]> (pools T)) (heap T ++ [NewPool]) (started T))
  end.

Definition toReplicaUsername (username : string) : string := (username +:+ "_ro")%string.
Definition toReplicaUser (user : User) : User := mkUser (toReplicaUsername (Username user)) (Password user).

Definition getOrAddReplicaPool (user : User) (database : string) (T : Module_) : poolAndCredentials * Module_ :=
  getOrAddPool (toReplicaUser user) database T.
Definition getPool (user database : string) (T : Module_) : option poolAndCredentials := pools T !! (user, database).
Definition getReplicaPool (user database : string) (T : Module_) : option poolAndCredentials :=
  getPool (toReplicaUsername user) database T.

Definition removePool (user database : string) (T : Module_) : Module_ :=
  match pools T !! (user, database) with
  | None => T
  | Some p =>
      let T := on_pool (pool p) Close T in
      mkModule (clusters T) (creds T) (delete (user, database) (pools T)) (heap T) (started T)
  end.
Definition removeReplicaPool (user database : string) (T : Module_) : Module_ := removePool (toReplicaUsername user) database T.

(** [pool.Recipe{Dialer: pool.Dialer{...}, ...}] *)
Definition recipe_of (user : User) (database : string) (node : Node) (c : Creds) : Recipe :=
  mkRecipe (Address node) (Username user) c database config (NodePriority node).

Definition addPrimaryNode (user : User) (database : string) (primary : Node) (T : Module_) : Module_ :=
  let '(p, T) := getOrAddPool user database T in
  on_pool (pool p) (AddRecipe "primary" (recipe_of user database primary (pcreds p))) T.

Definition removePrimaryNode (username database : string) (T : Module_) : Module_ := removePool username database T.

Definition addReplicaNodes (user : User) (database : string) (replicas : gmap string Node) (T : Module_) : Module_ :=
  let '(p, T) := getOrAddPool user database T in
  if isReplica then
    each (order replicas) (fun kn => on_pool (pool p) (AddReplicaRecipe kn.1 (recipe_of user database kn.2 (pcreds p)))) T
  else
    let '(rp, T) := getOrAddReplicaPool user database T in
    each (order replicas) (fun kn => on_pool (pool rp) (AddRecipe kn.1 (recipe_of user database kn.2 (pcreds p)))) T.

Definition removeReplicaNodes (username database : string) (replicas : gmap string Node) (T : Module_) : Module_ :=
  match getPool username database T with
  | None => T
  | Some p =>
      if isReplica then each (order replicas) (fun kn => on_pool (pool p) (RemoveReplicaRecipe kn.1)) T
      else removeReplicaPool username database T
  end.

Definition addReplicaNode (user : User) (database id : string) (replica : Node) (T : Module_) : Module_ :=
  let '(p, T) := getOrAddPool user database T in
  let d := recipe_of user database replica (pcreds p) in
  if isReplica then on_pool (pool p) (AddReplicaRecipe id d) T
  else
    let '(rp, T) := getOrAddReplicaPool user database T in
    on_pool (pool rp) (AddRecipe id d) T.

Definition removeReplicaNode (username database id : string) (T : Module_) : Module_ :=
  match getPool username database T with
  | None => T
  | Some p =>
      if isReplica then on_pool (pool p) (RemoveReplicaRecipe id) T
      else
        match getReplicaPool username database T with
        | None => T
        | Some rp => on_pool (pool rp) (RemoveRecipe id) T
        end
  end.

Definition replacePrimary (users : list User) (databases : list string) (primary : Node) : Module_ -> Module_ :=
  each users (fun user => each databases (fun database => addPrimaryNode user database primary)).
Definition addReplicas (replicas : gmap string Node) (users : list User) (databases : list string) : Module_ -> Module_ :=
  each users (fun user => each databases (fun database => addReplicaNodes user database replicas)).
Definition removeReplicas (replicas : gmap string Node) (users : list User) (databases : list string) : Module_ -> Module_ :=
  each users (fun user => each databases (fun database => removeReplicaNodes (Username user) database replicas)).
Definition addReplica (users : list User) (databases : list string) (id : string) (replica : Node) : Module_ -> Module_ :=
  each users (fun user => each databases (fun database => addReplicaNode user database id replica)).
Definition removeReplica (users : list User) (databases : list string) (id : string) : Module_ -> Module_ :=
  each users (fun user => each databases (fun database => removeReplicaNode (Username user) database id)).

Definition addUser (primary : Node) (replicas : gmap string Node) (databases : list string) (user : User) : Module_ -> Module_ :=
  each databases (fun database T => addReplicaNodes user database replicas (addPrimaryNode user database primary T)).
Definition removeUser (replicas : gmap string Node) (databases : list string) (username : string) : Module_ -> Module_ :=
  each databases (fun database T => removePrimaryNode username database (removeReplicaNodes username database replicas T)).
Definition addDatabase (primary : Node) (replicas : gmap string Node) (users : list User) (database : string) : Module_ -> Module_ :=
  each users (fun user T => addReplicaNodes user database replicas (addPrimaryNode user database primary T)).
Definition removeDatabase (replicas : gmap string Node) (users : list User) (database : string) : Module_ -> Module_ :=
  each users (fun user T => removePrimaryNode (Username user) database (removeReplicaNodes (Username user) database replicas T)).

(** [for _, u := range users { if u.Username == name ... break }] *)
Definition find_user (name : string) (users : list User) : option User :=
  snd <$> list_find (fun u => Username u = name) users.

(** The three parts of updated. *)
Definition update_replicas (prev next : Cluster) : Module_ -> Module_ :=
  if decide (Replicas prev <> ∅ /\ Replicas next = ∅) then removeReplicas (Replicas prev) (Users prev) (Databases prev)
  else if decide (Replicas prev = ∅ /\ Replicas next <> ∅) then addReplicas (Replicas next) (Users prev) (Databases prev)
  else fun T =>
    let T := each (order (Replicas next)) (fun kn T =>
      match Replicas prev !! kn.1 with
      | None => addReplica (Users prev) (Databases prev) kn.1 kn.2 T
      | Some prevReplica =>
          if decide (prevReplica <> kn.2) then addReplica (Users prev) (Databases prev) kn.1 kn.2 T else T
      end) T in
    each (order (Replicas prev)) (fun kn T =>
      match Replicas next !! kn.1 with
      | Some _ => T
      | None => removeReplica (Users prev) (Databases prev) kn.1 T
      end) T.

Definition update_users (prev next : Cluster) (T : Module_) : Module_ :=
  let T := each (Users next) (fun nextUser T =>
    match find_user (Username nextUser) (Users prev) with
    | None => addUser (Primary next) (Replicas next) (Databases prev) nextUser T
    | Some prevUser =>
        if decide (Password nextUser <> Password prevUser) then
          addUser (Primary next) (Replicas next) (Databases prev) nextUser
            (removeUser (Replicas next) (Databases prev) (Username nextUser) T)
        else T
    end) T in
  each (Users prev) (fun prevUser T =>
    match find_user (Username prevUser) (Users next) with
    | Some _ => T
    | None => removeUser (Replicas next) (Databases prev) (Username prevUser) T
    end) T.

Definition update_databases (prev next : Cluster) (T : Module_) : Module_ :=
  let T := each (Databases next) (fun nextDatabase T =>
    if decide (nextDatabase ∈ Databases prev) then T
    else addDatabase (Primary next) (Replicas next) (Users next) nextDatabase T) T in
  each (Databases prev) (fun prevDatabase T =>
    if decide (prevDatabase ∈ Databases next) then T
    else removeDatabase (Replicas next) (Users next) prevDatabase T) T.

Definition updated (prev next : Cluster) (T : Module_) : Module_ :=
  let T := set_clusters (<[ID next := next]>) T in
  let T := if decide (Primary prev <> Primary next) then replacePrimary (Users prev) (Databases prev) (Primary next) T else T in
  let T := update_replicas prev next T in
  let T := update_users prev next T in
  update_databases prev next T.

Definition added (cluster : Cluster) (T : Module_) : Module_ :=
  match clusters T !! ID cluster with
  | Some prev => updated prev cluster T
  | None =>
      let T := set_clusters (<[ID cluster := cluster]>) T in
      each (Users cluster) (addUser (Primary cluster) (Replicas cluster) (Databases cluster)) T
  end.

Definition removed (id : string) (T : Module_) : Module_ :=
  match clusters T !! id with
  | None => T
  | Some cluster =>
      let T := set_clusters (delete id) T in
      each (Databases cluster) (removeDatabase (Replicas cluster) (Users cluster)) T
  end.

(** [answer] is that of T.discoverer.Clusters. *)
Definition reconcile (answer : error + list Cluster) (T : Module_) : option error * Module_ :=
  match answer with
  | inl e => (Some e, T)
  | inr found =>
      let T := each found (fun cluster T =>
        match clusters T !! ID cluster with
        | None => added cluster T
        | Some prev => updated prev cluster T
        end) T in
      (None, each (order_ids (clusters T)) (fun id T => if decide (id ∈ ID <$> found) then T else removed id T) T)
  end.

(** The cases of the select of discoverLoop. *)
Inductive event := Added (cluster : Cluster) | Removed (id : string) | Tick (answer : error + list Cluster).
Definition discoverLoop (e : event) (T : Module_) : Module_ :=
  match e with
  | Added cluster => added cluster T
  | Removed id => removed id T
  | Tick answer => (reconcile answer T).2
  end.

(** The module as a value starts empty; Provision without the loading of other
    modules.  The result: an error, or the loop was started. *)
Definition module_init : Module_ := mkModule ∅ ∅ ∅ [] false.
Definition Provision (answer : error + list Cluster) (T : Module_) : option error * Module_ :=
  if started T then (None, T)
  else reconcile answer (mkModule (clusters T) (creds T) (pools T) (heap T) true).

Definition Cleanup (T : Module_) : Module_ :=
  if started T then
    let T := mkModule (clusters T) (creds T) (pools T) (heap T) false in
    each (map_to_list (pools T)) (fun kp => removePool kp.1.1 kp.1.2) T
  else T.

(** What Handle does with a client: pass it on, or check it against these
    credentials and have this pool serve it. *)
Definition Handle (user database : string) (T : Module_) : option (Creds * nat) :=
  match getPool user database T with
  | None => None
  | Some p => Some (pcreds p, pool p)
  end.

(** ** What a client sees *)
Record Entry := mkEntry { e_creds : Creds; e_recipes : gmap string Recipe; e_replicas : gmap string Recipe }.
Definition entry_of (T : Module_) (pc : poolAndCredentials) : option Entry :=
  (fun p => mkEntry (pcreds pc) (recipes p) (replicaRecipes p)) <$> heap T !! pool pc.
Definition view (T : Module_) : gmap (string * string) Entry := omap (entry_of T) (pools T).

Definition cr (user : User) : Creds := FromString (Username user) (Password user).

(** The pools in the map are open, each is there once, and no other is open. *)
Record good (T : Module_) : Prop := {
  good_open k pc : pools T !! k = Some pc -> exists p, heap T !! pool pc = Some p /\ closed p = false;
  good_once k k' pc pc' : pools T !! k = Some pc -> pools T !! k' = Some pc' -> pool pc = pool pc' -> k = k';
  good_no_leak i p : heap T !! i = Some p -> closed p = false -> exists k c, pools T !! k = Some (mkPC i c);
  good_creds u w c : creds T !! (u, w) = Some c -> c = FromString u w
}.

Lemma view_lookup T k pc p : pools T !! k = Some pc -> heap T !! pool pc = Some p ->
  view T !! k = Some (mkEntry (pcreds pc) (recipes p) (replicaRecipes p)).
Proof. intros E Ep. unfold view, entry_of. rewrite lookup_omap, E. simpl. by rewrite Ep. Qed.

Lemma view_None T k : good T -> view T !! k = None <-> pools T !! k = None.
Proof.
  intros HT. unfold view, entry_of. rewrite lookup_omap. destruct (pools T !! k) as [pc|] eqn:E; simpl; [|done].
  destruct (good_open T HT k pc E) as (p & -> & _). done.
Qed.

Lemma good_set_clusters f T : good T -> good (set_clusters f T).
Proof. intros []. by constructor. Qed.

Lemma on_pool_spec T k pc f (g : Entry -> Entry) :
  good T -> pools T !! k = Some pc -> (forall p, closed (f p) = closed p) ->
  (forall c p, mkEntry c (recipes (f p)) (replicaRecipes (f p)) = g (mkEntry c (recipes p) (replicaRecipes p))) ->
  good (on_pool (pool pc) f T) /\ view (on_pool (pool pc) f T) = alter g k (view T).
Proof.
  intros HT Hk Hc Hg. destruct HT as [H1 H2 H3 H4]. split.
  - constructor; cbn.
    + intros k' pc' Hk'. destruct (H1 k' pc' Hk') as (p & Hp & Ho). destruct (decide (pool pc = pool pc')) as [->|].
      * exists (f p). rewrite list_lookup_alter_eq, Hp. by rewrite Hc.
      * exists p. by rewrite list_lookup_alter_ne.
    + exact H2.
    + intros i p Hp Ho. destruct (decide (pool pc = i)) as [<-|].
      * exists k, (pcreds pc). rewrite Hk. by destruct pc.
      * rewrite list_lookup_alter_ne in Hp by done. by eapply H3.
    + exact H4.
  - apply map_eq. intros k'. unfold view. cbn [pools]. destruct (decide (k = k')) as [<-|Hne].
    + rewrite lookup_alter_eq, !lookup_omap. cbn [pools on_pool]. rewrite Hk. simpl. unfold entry_of. cbn [heap on_pool].
      rewrite list_lookup_alter_eq. destruct (heap T !! pool pc); simpl; [by rewrite Hg|done].
    + rewrite lookup_alter_ne by done. rewrite !lookup_omap. cbn [pools on_pool].
      destruct (pools T !! k') as [pc'|] eqn:E'; simpl; [|done]. unfold entry_of. cbn [heap on_pool].
      rewrite list_lookup_alter_ne; [done|]. intros Eq. by apply Hne, (H2 k k' pc pc').
Qed.

Lemma getOrAddPool_spec user d T :
  good T ->
  let r := getOrAddPool user d T in
  good r.2 /\ clusters r.2 = clusters T /\ pools r.2 !! (Username user, d) = Some r.1 /\
  (exists e, view r.2 !! (Username user, d) = Some e /\ e_creds e = pcreds r.1) /\
  view r.2 = match view T !! (Username user, d) with
             | Some _ => view T
             | None => <[(Username user, d) := mkEntry (cr user) ∅ ∅]> (view T)
             end.
Proof.
  intros HT. unfold getOrAddPool. destruct (pools T !! (Username user, d)) as [pc|] eqn:E; cbn zeta; cbn [fst snd].
  { destruct (good_open T HT _ _ E) as (p & Ep & _). rewrite (view_lookup _ _ _ _ E Ep). split_and!; [done..|by eexists|done]. }
  rewrite (proj2 (view_None T _ HT)) by done. destruct HT as [H1 H2 H3 H4].
  assert (Hc : let r := getCreds user T in r.1 = cr user /\ (forall u w c, creds r.2 !! (u, w) = Some c -> c = FromString u w) /\
    clusters r.2 = clusters T /\ pools r.2 = pools T /\ heap r.2 = heap T).
  { unfold getCreds. destruct (creds T !! _) as [c|] eqn:Ec; cbn; split_and!; eauto.
    intros u w c. rewrite lookup_insert_Some. intros [[[= <- <-] <-]|[_ ?]]; eauto. }
  destruct (getCreds user T) as [c T']. cbn in *. destruct Hc as (-> & Hcr & -> & -> & ->). split_and!; [|done|by rewrite lookup_insert_eq| |].
  - constructor; cbn.
    + intros k pc [[<- <-]|[_ Hk]]%lookup_insert_Some.
      * exists NewPool. cbn. by rewrite lookup_app_r, Nat.sub_diag by lia.
      * destruct (H1 k pc Hk) as (p & Hp & ?). exists p. split; [|done]. by apply lookup_app_l_Some.
    + intros k k' pc pc' [[<- <-]|[_ Hk]]%lookup_insert_Some [[<- <-]|[_ Hk']]%lookup_insert_Some; cbn; try done.
      * intros Hp. destruct (H1 _ _ Hk') as (p & Hp' & _). apply lookup_lt_Some in Hp'. lia.
      * intros Hp. destruct (H1 _ _ Hk) as (p & Hp' & _). apply lookup_lt_Some in Hp'. lia.
      * eauto.
    + intros i p Hi Ho. apply lookup_app_Some in Hi as [Hi|[Hi Hp]].
      * destruct (H3 i p Hi Ho) as (k & c' & Hk). exists k, c'. rewrite lookup_insert_ne; [done|]. intros <-. congruence.
      * apply list_lookup_singleton_Some in Hp as [? <-]. exists (Username user, d), (cr user).
        rewrite lookup_insert_eq. do 2 f_equal. lia.
    + exact Hcr.
  - eexists. unfold view. rewrite lookup_omap. cbn [pools]. rewrite lookup_insert_eq. simpl. unfold entry_of. cbn.
    rewrite lookup_app_r, Nat.sub_diag by lia. done.
  - apply map_eq. intros k. unfold view. rewrite lookup_omap. cbn [pools]. destruct (decide ((Username user, d) = k)) as [<-|Hne].
    + rewrite !lookup_insert_eq. simpl. unfold entry_of. cbn. by rewrite lookup_app_r, Nat.sub_diag by lia.
    + rewrite !lookup_insert_ne, lookup_omap by done. destruct (pools T !! k) as [pc|] eqn:Ek; simpl; [|done].
      unfold entry_of. cbn. destruct (H1 _ _ Ek) as (p & Hp & _). rewrite Hp. by rewrite (lookup_app_l_Some _ _ _ _ Hp).
Qed.

Lemma removePool_spec u d T : good T ->
  good (removePool u d T) /\ clusters (removePool u d T) = clusters T /\ view (removePool u d T) = delete (u, d) (view T).
Proof.
  intros HT. unfold removePool. destruct (pools T !! (u, d)) as [pc|] eqn:E.
  2:{ split_and!; [done..|]. by rewrite delete_id by (by apply view_None). }
  destruct HT as [H1 H2 H3 H4]. split_and!; [|done|].
  - constructor; cbn.
    + intros k pc' [Hne Hk]%lookup_delete_Some. destruct (H1 k pc' Hk) as (p & Hp & ?). exists p.
      rewrite list_lookup_alter_ne; [done|]. intros Eq. by apply Hne, (H2 _ _ pc pc').
    + intros k k' pc1 pc2 [_ Hk]%lookup_delete_Some [_ Hk']%lookup_delete_Some. eauto.
    + intros i p Hi Ho. destruct (decide (pool pc = i)) as [<-|].
      * rewrite list_lookup_alter_eq in Hi. destruct (heap T !! pool pc); [|done]. by injection Hi as <-.
      * rewrite list_lookup_alter_ne in Hi by done. destruct (H3 i p Hi Ho) as (k & c & Hk). exists k, c.
        apply lookup_delete_Some. split; [|done]. intros <-. rewrite E in Hk. by injection Hk as ->.
    + exact H4.
  - apply map_eq. intros k. unfold view. rewrite lookup_omap. cbn [pools]. destruct (decide ((u, d) = k)) as [<-|Hne].
    + cbn. by rewrite !lookup_delete_eq.
    + cbn. rewrite !lookup_delete_ne, lookup_omap by done. destruct (pools T !! k) as [pc'|] eqn:Ek; simpl; [|done].
      unfold entry_of. cbn. rewrite list_lookup_alter_ne; [done|]. intros Eq. by apply Hne, (H2 _ _ pc pc').
Qed.

(** ** Cells *)

(** The pools of a user and database: the pool itself and the one of _ro. *)
Definition cell : Type := option Entry * option Entry.
Definition ro (x : string * string) : string * string := (toReplicaUsername x.1, x.2).
Definition cellv (x : string * string) (v : gmap (string * string) Entry) : cell :=
  (v !! x, if isReplica then None else v !! ro x).
Definition keysof (x : string * string) : list (string * string) := if isReplica then [x] else [x; ro x].

Lemma ro_ne x : ro x <> x.
Proof.
  destruct x as [u d]. unfold ro, toReplicaUsername. cbn. intros [= Eq].
  apply (f_equal String.length) in Eq. revert Eq. induction u; cbn; [done|]. intros [= ?]. auto.
Qed.

Lemma cellv_ext x v v' : (forall k, k ∈ keysof x -> v !! k = v' !! k) -> cellv x v = cellv x v'.
Proof. unfold cellv, keysof. intros Hk. destruct isReplica; rewrite !Hk by set_solver; done. Qed.

(** [m] does [f] to a cell and nothing else. *)
Definition acts (x : string * string) (f : cell -> cell) (m : Module_ -> Module_) : Prop :=
  forall T, good T ->
  good (m T) /\ clusters (m T) = clusters T /\ cellv x (view (m T)) = f (cellv x (view T)) /\
  forall k, k ∉ keysof x -> view (m T) !! k = view T !! k.

Lemma acts_seq x f g m m' : acts x f m -> acts x g m' -> acts x (fun c => g (f c)) (fun T => m' (m T)).
Proof.
  intros Hm Hm' T HT. destruct (Hm T HT) as (HT1 & C1 & E1 & F1). destruct (Hm' _ HT1) as (HT2 & C2 & E2 & F2).
  split_and!; [done|congruence|congruence|]. intros k Hk. rewrite F2, F1 by done. done.
Qed.

(** From an equation for the view. *)
Lemma acts_view (x : string * string) (f : cell -> cell) (m : Module_ -> Module_) (g : gmap (string * string) Entry -> gmap (string * string) Entry) :
  (forall T, good T -> good (m T) /\ clusters (m T) = clusters T /\ view (m T) = g (view T)) ->
  (forall v, cellv x (g v) = f (cellv x v)) -> (forall v k, k ∉ keysof x -> g v !! k = v !! k) -> acts x f m.
Proof. intros Hm Hf Hk T HT. destruct (Hm T HT) as (? & ? & ->). auto. Qed.

Definition new_entry (user : User) : Entry := mkEntry (cr user) ∅ ∅.
Definition e_add (name : string) (r : Recipe) (e : Entry) : Entry := mkEntry (e_creds e) (<[name := r]> (e_recipes e)) (e_replicas e).
Definition e_remove (name : string) (e : Entry) : Entry := mkEntry (e_creds e) (delete name (e_recipes e)) (e_replicas e).
Definition e_add_replica (name : string) (r : Recipe) (e : Entry) : Entry :=
  mkEntry (e_creds e) (e_recipes e) (<[name := r]> (e_replicas e)).
Definition e_remove_replica (name : string) (e : Entry) : Entry := mkEntry (e_creds e) (e_recipes e) (delete name (e_replicas e)).

Definition v_get (user : User) (d : string) (v : gmap (string * string) Entry) : gmap (string * string) Entry :=
  match v !! (Username user, d) with Some _ => v | None => <[(Username user, d) := new_entry user]> v end.

Lemma v_get_lookup user d v : v_get user d v !! (Username user, d) = Some (default (new_entry user) (v !! (Username user, d))).
Proof. unfold v_get. destruct (v !! _) eqn:E; [done|]. by rewrite lookup_insert_eq. Qed.
Lemma v_get_ne user d v k : k <> (Username user, d) -> v_get user d v !! k = v !! k.
Proof. intros Hk. unfold v_get. destruct (v !! (_, _)); [done|]. by rewrite lookup_insert_ne. Qed.

(** Calls on a pool, one after the other. *)
Lemma each_pool_spec {A} (l : list A) (f : A -> Pool -> Pool) (g : A -> Entry -> Entry) k pc T :
  good T -> pools T !! k = Some pc -> (forall a p, closed (f a p) = closed p) ->
  (forall a c p, mkEntry c (recipes (f a p)) (replicaRecipes (f a p)) = g a (mkEntry c (recipes p) (replicaRecipes p))) ->
  let T' := each l (fun a => on_pool (pool pc) (f a)) T in
  good T' /\ clusters T' = clusters T /\ view T' = alter (each l g) k (view T).
Proof.
  intros HT Hk Hc Hg. cbn zeta. revert T HT Hk. induction l as [|a l IH]; intros T HT Hk; cbn.
  { split_and!; [done..|]. symmetry. by apply alter_id. }
  destruct (on_pool_spec T k pc (f a) (g a) HT Hk (Hc a) (Hg a)) as [HT1 E1].
  destruct (IH (on_pool (pool pc) (f a) T) HT1 Hk) as (HT2 & C2 & E2). split_and!; [done|done|].
  etrans; [exact E2|]. rewrite E1. apply map_eq. intros k'.
  destruct (decide (k = k')) as [<-|]; [rewrite !lookup_alter_eq|by rewrite !lookup_alter_ne]. by destruct (view T !! k).
Qed.

(** [p := T.getOrAddPool(user, d)], then calls on it. *)
Lemma get_then_each {A} (l : list A) user d (f : Creds -> A -> Pool -> Pool) (g : Creds -> A -> Entry -> Entry) T :
  good T -> (forall c a p, closed (f c a p) = closed p) ->
  (forall c' a c p, mkEntry c (recipes (f c' a p)) (replicaRecipes (f c' a p)) = g c' a (mkEntry c (recipes p) (replicaRecipes p))) ->
  let '(p, T1) := getOrAddPool user d T in
  let T' := each l (fun a => on_pool (pool p) (f (pcreds p) a)) T1 in
  good T' /\ clusters T' = clusters T /\
  view T' = alter (fun e => each l (g (e_creds e)) e) (Username user, d) (v_get user d (view T)).
Proof.
  intros HT Hc Hg. destruct (getOrAddPool_spec user d T HT) as (HT1 & C1 & P1 & (e & Ee & Ec) & V1).
  destruct (getOrAddPool user d T) as [p T1]. cbn in *.
  destruct (each_pool_spec l (f (pcreds p)) (g (pcreds p)) _ p T1 HT1 P1 (Hc _) (Hg _)) as (HT2 & C2 & V2).
  split_and!; [done|congruence|]. etrans; [exact V2|]. fold (new_entry user) in V1. fold (v_get user d (view T)) in V1.
  rewrite <- V1. apply map_eq. intros k. destruct (decide ((Username user, d) = k)) as [<-|].
  - rewrite !lookup_alter_eq, Ee. simpl. by rewrite Ec.
  - by rewrite !lookup_alter_ne.
Qed.

Definition f_primary (user : User) (d : string) (node : Node) (c : cell) : cell :=
  let e := default (new_entry user) c.1 in
  (Some (e_add "primary" (recipe_of user d node (e_creds e)) e), c.2).

Lemma keysof_self x : x ∈ keysof x.
Proof. unfold keysof. destruct isReplica; set_solver. Qed.
Lemma keysof_ro x : isReplica = false -> ro x ∈ keysof x.
Proof. unfold keysof. intros ->. set_solver. Qed.

Lemma addPrimaryNode_acts user d node :
  acts (Username user, d) (f_primary user d node) (addPrimaryNode user d node).
Proof.
  eapply (acts_view _ _ _ (fun v => alter (fun e => e_add "primary" (recipe_of user d node (e_creds e)) e) (Username user, d) (v_get user d v))).
  - intros T HT.
    pose proof (get_then_each [tt] user d (fun c _ => AddRecipe "primary" (recipe_of user d node c))
      (fun c _ => e_add "primary" (recipe_of user d node c)) T HT (fun _ _ _ => eq_refl) (fun _ _ _ _ => eq_refl)) as Hg.
    unfold addPrimaryNode. by destruct (getOrAddPool user d T).
  - intros v. unfold cellv, f_primary. cbn [fst snd]. rewrite lookup_alter_eq, v_get_lookup. simpl. f_equal.
    destruct isReplica; [done|]. rewrite lookup_alter_ne, v_get_ne; [done|apply ro_ne|]. intros Eq. by apply (ro_ne (Username user, d)).
  - intros v k Hk. assert (k <> (Username user, d)) by (intros ->; apply Hk, keysof_self). by rewrite lookup_alter_ne, v_get_ne.
Qed.

Lemma removePrimaryNode_acts u d : acts (u, d) (fun c => (None, c.2)) (removePrimaryNode u d).
Proof.
  eapply (acts_view _ _ _ (delete (u, d))).
  - intros T HT. by apply removePool_spec.
  - intros v. unfold cellv. cbn [snd]. rewrite lookup_delete_eq. f_equal. destruct isReplica; [done|].
    apply lookup_delete_ne. intros Eq. by apply (ro_ne (u, d)).
  - intros v k Hk. apply lookup_delete_ne. intros <-. apply Hk, keysof_self.
Qed.

(** addReplicaNodes and addReplicaNode, for a list of replicas. *)
Definition add_list (user : User) (d : string) (l : list (string * Node)) (T : Module_) : Module_ :=
  let '(p, T) := getOrAddPool user d T in
  if isReplica then each l (fun kn => on_pool (pool p) (AddReplicaRecipe kn.1 (recipe_of user d kn.2 (pcreds p)))) T
  else
    let '(rp, T) := getOrAddReplicaPool user d T in
    each l (fun kn => on_pool (pool rp) (AddRecipe kn.1 (recipe_of user d kn.2 (pcreds p)))) T.

Definition f_replicas (user : User) (d : string) (l : list (string * Node)) (c : cell) : cell :=
  let e := default (new_entry user) c.1 in
  if isReplica then (Some (each l (fun kn => e_add_replica kn.1 (recipe_of user d kn.2 (e_creds e))) e), c.2)
  else (Some e, Some (each l (fun kn => e_add kn.1 (recipe_of user d kn.2 (e_creds e))) (default (new_entry (toReplicaUser user)) c.2))).

Lemma add_list_acts user d l : acts (Username user, d) (f_replicas user d l) (add_list user d l).
Proof.
  unfold add_list. destruct isReplica eqn:HR.
  - eapply (acts_view _ _ _ (fun v => alter (fun e => each l (fun kn => e_add_replica kn.1 (recipe_of user d kn.2 (e_creds e))) e)
      (Username user, d) (v_get user d v))).
    + intros T HT. pose proof (get_then_each l user d (fun c kn => AddReplicaRecipe kn.1 (recipe_of user d kn.2 c))
        (fun c kn => e_add_replica kn.1 (recipe_of user d kn.2 c)) T HT (fun _ _ _ => eq_refl) (fun _ _ _ _ => eq_refl)) as Hg.
      by destruct (getOrAddPool user d T).
    + intros v. unfold cellv, f_replicas. rewrite HR. cbn [fst snd]. by rewrite lookup_alter_eq, v_get_lookup.
    + intros v k Hk. assert (k <> (Username user, d)) by (intros ->; apply Hk, keysof_self). by rewrite lookup_alter_ne, v_get_ne.
  - set (g := fun v : gmap (string * string) Entry => alter (each l (fun kn => e_add kn.1 (recipe_of user d kn.2
        (e_creds (default (new_entry user) (v !! (Username user, d))))))) (toReplicaUsername (Username user), d)
        (v_get (toReplicaUser user) d (v_get user d v))).
    eapply (acts_view _ _ _ g); unfold g; clear g.
    + intros T HT. destruct (getOrAddPool_spec user d T HT) as (HT1 & C1 & P1 & (e & Ee & Ec) & V1).
      destruct (getOrAddPool user d T) as [p T1]. cbn in *. fold (new_entry user) in V1. fold (v_get user d (view T)) in V1.
      pose proof (get_then_each l (toReplicaUser user) d (fun _ kn => AddRecipe kn.1 (recipe_of user d kn.2 (pcreds p)))
        (fun _ kn => e_add kn.1 (recipe_of user d kn.2 (pcreds p))) T1 HT1 (fun _ _ _ => eq_refl) (fun _ _ _ _ => eq_refl)) as Hg.
      unfold getOrAddReplicaPool. destruct (getOrAddPool (toReplicaUser user) d T1) as [rp T2]. destruct Hg as (HT3 & C3 & V3).
      split_and!; [done|congruence|]. rewrite V3, V1.
      assert (pcreds p = e_creds (default (new_entry user) (view T !! (Username user, d)))) as <-; [|done].
      rewrite V1, v_get_lookup in Ee. injection Ee as Ee. by rewrite Ee.
    + intros v. unfold cellv, f_replicas. rewrite HR. cbn [fst snd ro]. unfold ro. cbn [fst snd].
      pose proof (ro_ne (Username user, d)) as Hne. unfold ro in Hne. cbn [fst snd] in Hne. f_equal.
      * rewrite lookup_alter_ne by done. rewrite v_get_ne by (cbn; congruence). apply v_get_lookup.
      * rewrite lookup_alter_eq. rewrite (v_get_lookup (toReplicaUser user) d). rewrite v_get_ne by done. done.
    + intros v k Hk. assert (k <> (Username user, d)) by (intros ->; apply Hk, keysof_self).
      assert (k <> (toReplicaUsername (Username user), d)) by (intros ->; apply Hk, (keysof_ro (Username user, d)), HR).
      rewrite lookup_alter_ne by done. by rewrite !v_get_ne.
Qed.

Lemma addReplicaNodes_acts user d replicas :
  acts (Username user, d) (f_replicas user d (order replicas)) (addReplicaNodes user d replicas).
Proof. exact (add_list_acts user d (order replicas)). Qed.

Lemma addReplicaNode_acts user d id node :
  acts (Username user, d) (f_replicas user d [(id, node)]) (addReplicaNode user d id node).
Proof. exact (add_list_acts user d [(id, node)]). Qed.

(** Without a pool nothing is removed. *)
Definition f_remove (names : list string) (c : cell) : cell :=
  match c.1 with
  | None => c
  | Some e => if isReplica then (Some (each names e_remove_replica e), c.2) else (c.1, None)
  end.
Definition f_remove_one (id : string) (c : cell) : cell :=
  match c.1 with
  | None => c
  | Some e => if isReplica then (Some (e_remove_replica id e), c.2) else (c.1, e_remove id <$> c.2)
  end.

Lemma each_fmap {A B M} (f : A -> B) (l : list A) (g : B -> M -> M) T : each (f <$> l) g T = each l (fun a => g (f a)) T.
Proof. revert T. induction l as [|a l IH]; intros T; [done|apply IH]. Qed.

Lemma cellv_lookup T u d : good T ->
  match getPool u d T with
  | None => (cellv (u, d) (view T)).1 = None
  | Some pc => exists e, (cellv (u, d) (view T)).1 = Some e
  end.
Proof.
  intros HT. unfold getPool, cellv. cbn. destruct (pools T !! (u, d)) as [pc|] eqn:E.
  - destruct (good_open T HT _ _ E) as (p & Hp & _). eexists. by eapply view_lookup.
  - by apply view_None.
Qed.

Lemma removeReplicaNodes_acts u d replicas :
  acts (u, d) (f_remove (order replicas).*1) (removeReplicaNodes u d replicas).
Proof.
  intros T HT. pose proof (cellv_lookup T u d HT) as Hl. unfold removeReplicaNodes, f_remove.
  destruct (getPool u d T) as [pc|] eqn:E.
  2:{ rewrite Hl. done. }
  destruct Hl as (e & Hl). rewrite Hl. destruct isReplica eqn:HR.
  - destruct (each_pool_spec (order replicas) (fun kn => RemoveReplicaRecipe kn.1) (fun kn => e_remove_replica kn.1) (u, d) pc T
      HT E) as (HT1 & C1 & V1); [done..|]. split_and!; [done..| |].
    + rewrite V1. unfold cellv in *. rewrite HR in *. cbn [fst snd] in *. rewrite lookup_alter_eq, Hl. simpl. by rewrite each_fmap.
    + intros k Hk. rewrite V1. apply lookup_alter_ne. intros <-. apply Hk, keysof_self.
  - destruct (removePool_spec (toReplicaUsername u) d T HT) as (HT1 & C1 & V1). unfold removeReplicaPool. split_and!; [done..| |].
    + rewrite V1. unfold cellv. rewrite HR. cbn [fst]. pose proof (ro_ne (u, d)). f_equal; [|apply lookup_delete_eq].
      etrans; [by apply lookup_delete_ne|exact Hl].
    + intros k Hk. rewrite V1. apply lookup_delete_ne. intros <-. by apply Hk, (keysof_ro (u, d)).
Qed.

Lemma removeReplicaNode_acts u d id : acts (u, d) (f_remove_one id) (removeReplicaNode u d id).
Proof.
  intros T HT. pose proof (cellv_lookup T u d HT) as Hl. unfold removeReplicaNode, f_remove_one.
  destruct (getPool u d T) as [pc|] eqn:E.
  2:{ rewrite Hl. done. }
  destruct Hl as (e & Hl). rewrite Hl. destruct isReplica eqn:HR.
  - destruct (on_pool_spec T (u, d) pc (RemoveReplicaRecipe id) (e_remove_replica id) HT E) as (HT1 & V1); [done..|].
    split_and!; [done..| |].
    + rewrite V1. unfold cellv in *. rewrite HR in *. cbn [fst snd] in *. by rewrite lookup_alter_eq, Hl.
    + intros k Hk. rewrite V1. apply lookup_alter_ne. intros <-. apply Hk, keysof_self.
  - unfold getReplicaPool, getPool. destruct (pools T !! (toReplicaUsername u, d)) as [rp|] eqn:Er.
    + destruct (on_pool_spec T (toReplicaUsername u, d) rp (RemoveRecipe id) (e_remove id) HT Er) as (HT1 & V1); [done..|].
      split_and!; [done..| |].
      * rewrite V1. unfold cellv. rewrite HR. cbn [fst snd]. pose proof (ro_ne (u, d)).
        f_equal; [|apply lookup_alter_eq]. etrans; [by apply lookup_alter_ne|exact Hl].
      * intros k Hk. rewrite V1. apply lookup_alter_ne. intros <-. by apply Hk, (keysof_ro (u, d)).
    + split_and!; [done..| |done]. apply (view_None T _ HT) in Er. unfold cellv. rewrite HR. unfold ro. cbn [fst snd].
      f_equal; [exact Hl|by rewrite Er].
Qed.

(** ** Working on many cells *)

(** The names of the users: none is another's with _ro. *)
Context (names : string -> Prop).
Hypothesis names_ro : isReplica = false -> forall u u', names u -> names u' -> u <> toReplicaUsername u'.

Definition named (xs : list (string * string)) : Prop := forall x, x ∈ xs -> names x.1.

Lemma string_length_app (s s' : string) : String.length (s +:+ s') = String.length s + String.length s'.
Proof. induction s as [|a s IH]; [done|]. simpl. f_equal. exact IH. Qed.

Lemma ro_inj u u' : toReplicaUsername u = toReplicaUsername u' -> u = u'.
Proof.
  unfold toReplicaUsername. intros Eq. assert (El : String.length u = String.length u').
  { apply (f_equal String.length) in Eq. rewrite !string_length_app in Eq. lia. }
  revert u' Eq El. induction u as [|a u IH]; intros [|b u'] Eq El; cbn in *; try done. injection Eq as -> Eq. f_equal. auto.
Qed.

Lemma keys_disjoint x y k : names x.1 -> names y.1 -> x <> y -> k ∈ keysof x -> k ∉ keysof y.
Proof.
  unfold keysof. intros Hx Hy Hne. destruct isReplica eqn:HR; [set_solver|].
  destruct x as [u d], y as [u' d']. unfold ro. cbn in *.
  rewrite !elem_of_cons. intros [->|[->|[]%elem_of_nil]] [[= ? ?]|[[= ? ?]|[]%elem_of_nil]]; subst.
  - done.
  - by apply (names_ro eq_refl (toReplicaUsername u') u').
  - by apply (names_ro eq_refl (toReplicaUsername u) u).
  - apply Hne. f_equal. by apply ro_inj.
Qed.

(** [m] takes the cells [xs] from [P] to [Q] and does nothing else. *)
Definition touch (xs : list (string * string)) (P Q : string * string -> cell -> Prop) (m : Module_ -> Module_) : Prop :=
  forall T, good T -> (forall x, x ∈ xs -> P x (cellv x (view T))) ->
  good (m T) /\ clusters (m T) = clusters T /\ (forall x, x ∈ xs -> Q x (cellv x (view (m T)))) /\
  forall k, (forall x, x ∈ xs -> k ∉ keysof x) -> view (m T) !! k = view T !! k.

Lemma touch_one x f (P Q : string * string -> cell -> Prop) m : acts x f m -> (forall c, P x c -> Q x (f c)) -> touch [x] P Q m.
Proof.
  intros Hm HPQ T HT HP. destruct (Hm T HT) as (HT1 & C1 & E1 & F1). split_and!; [done..| |].
  - intros y Hy. apply list_elem_of_singleton in Hy as ->. rewrite E1. apply HPQ, HP. left.
  - intros k Hk. apply F1, Hk. left.
Qed.

Lemma touch_id xs (P Q : string * string -> cell -> Prop) : (forall x c, x ∈ xs -> P x c -> Q x c) -> touch xs P Q (fun T => T).
Proof. intros HPQ T HT HP. split_and!; auto. Qed.

Lemma touch_seq xs P Q R m m' : touch xs P Q m -> touch xs Q R m' -> touch xs P R (fun T => m' (m T)).
Proof.
  intros Hm Hm' T HT HP. destruct (Hm T HT HP) as (HT1 & C1 & Q1 & F1). destruct (Hm' _ HT1 Q1) as (HT2 & C2 & R2 & F2).
  split_and!; [done|congruence|done|]. intros k Hk. rewrite F2, F1 by done. done.
Qed.

Lemma touch_mono xs ys (P Q P' Q' : string * string -> cell -> Prop) m :
  touch xs P Q m -> named ys -> (forall x, x ∈ xs -> x ∈ ys) ->
  (forall x c, x ∈ xs -> P' x c -> P x c) -> (forall x c, x ∈ xs -> Q x c -> Q' x c) ->
  (forall x c, x ∈ ys -> x ∉ xs -> P' x c -> Q' x c) -> touch ys P' Q' m.
Proof.
  intros Hm Hn Hsub HP HQ Hout T HT HP'. destruct (Hm T HT) as (HT1 & C1 & Q1 & F1); [auto|].
  split_and!; [done..| |].
  - intros x Hx. destruct (decide (x ∈ xs)) as [Hin|Hin]; [auto|]. apply Hout; [done..|].
    rewrite <- (cellv_ext x (view T)); [auto|]. intros k Hk. symmetry. apply F1. intros y Hy.
    apply (keys_disjoint x y); auto. intros ->. done.
  - intros k Hk. apply F1. auto.
Qed.

Lemma touch_each {A} (l : list A) (cells : A -> list (string * string)) P Q m :
  (forall a, a ∈ l -> touch (cells a) P Q (m a)) -> NoDup (concat (cells <$> l)) -> named (concat (cells <$> l)) ->
  touch (concat (cells <$> l)) P Q (each l m).
Proof.
  induction l as [|a l IH]; intros Hm Hnd Hn; cbn in *; [apply touch_id; by intros x c []%elem_of_nil|].
  apply NoDup_app in Hnd as (Hnd1 & Hdis & Hnd2).
  apply (touch_seq _ _ (fun x c => if decide (x ∈ cells a) then Q x c else P x c) _ (m a) (each l m)).
  - apply (touch_mono (cells a) _ P Q); [apply Hm; left|done|set_solver|done|..].
    + intros x c Hx. by rewrite decide_True.
    + intros x c _ Hx. by rewrite decide_False.
  - apply (touch_mono (concat (cells <$> l)) _ P Q); [|done|set_solver|..].
    + apply IH; [intros b Hb; apply Hm; by right|done|]. intros x Hx. apply Hn. set_solver.
    + intros x c Hx. rewrite decide_False; [done|]. intros Hx'. by apply (Hdis x).
    + done.
    + intros x c [Hx|?]%elem_of_app Hx'; [by rewrite decide_True|done].
Qed.

Definition row (ds : list string) (u : User) : list (string * string) := (fun d => (Username u, d)) <$> ds.
Definition col (us : list User) (d : string) : list (string * string) := (fun u => (Username u, d)) <$> us.
Definition pairs (us : list User) (ds : list string) : list (string * string) := concat (row ds <$> us).

Lemma elem_of_concat {A} (ls : list (list A)) x : x ∈ concat ls <-> exists l, x ∈ l /\ l ∈ ls.
Proof.
  induction ls as [|l ls IH]; cbn; [split; [by intros ?%elem_of_nil|by intros (l & _ & ?%elem_of_nil)]|].
  rewrite elem_of_app, IH. split; [intros [?|(l' & ? & ?)]; set_solver|]. intros (l' & ? & [->|?]%elem_of_cons); eauto.
Qed.

Lemma elem_of_pairs us ds x : x ∈ pairs us ds <-> (exists u, u ∈ us /\ Username u = x.1) /\ x.2 ∈ ds.
Proof.
  unfold pairs, row. destruct x as [n d]. cbn. rewrite elem_of_concat. split.
  - intros (l & Hx & (u & -> & Hu)%list_elem_of_fmap). apply list_elem_of_fmap in Hx as (d' & [= -> ->] & ?). eauto.
  - intros ((u & Hu & <-) & Hd). exists (row ds u). split; apply list_elem_of_fmap; eauto.
Qed.

Lemma elem_of_cols us ds x : x ∈ concat (col us <$> ds) <-> x ∈ pairs us ds.
Proof.
  rewrite elem_of_pairs. unfold col. destruct x as [n d]. cbn. rewrite elem_of_concat. split.
  - intros (l & Hx & (d' & -> & Hd)%list_elem_of_fmap). apply list_elem_of_fmap in Hx as (u & [= -> ->] & ?). eauto.
  - intros ((u & Hu & <-) & Hd). exists (col us d). split; apply list_elem_of_fmap; eauto.
Qed.

Lemma NoDup_pairs us ds : NoDup (Username <$> us) -> NoDup ds -> NoDup (pairs us ds).
Proof.
  intros Hu Hd. unfold pairs. induction us as [|u us IH]; cbn in *; [constructor|].
  apply NoDup_cons in Hu as [Hu1 Hu2]. apply NoDup_app. split_and!; [|..|by apply IH].
  - apply NoDup_fmap_2; [by intros ? ? [= ->]|done].
  - intros x (d & -> & _)%list_elem_of_fmap Hx. apply elem_of_pairs in Hx as ((u' & Hu' & Eq) & _). cbn in Eq.
    apply Hu1. rewrite <- Eq. by apply list_elem_of_fmap_2.
Qed.

Lemma NoDup_cols us ds : NoDup (Username <$> us) -> NoDup ds -> NoDup (concat (col us <$> ds)).
Proof.
  intros Hu Hd. induction ds as [|d ds IH]; cbn in *; [constructor|].
  apply NoDup_cons in Hd as [Hd1 Hd2]. apply NoDup_app. split_and!; [|..|by apply IH].
  - unfold col. apply (NoDup_fmap_1 fst). rewrite <- list_fmap_compose. done.
  - intros x (u & -> & _)%list_elem_of_fmap Hx. apply elem_of_cols, elem_of_pairs in Hx as [_ Hx]. done.
Qed.

(** ** What a cluster asks for *)

Hypothesis order_perm : forall m, order m ≡ₚ map_to_list m.

Definition recs (user : User) (d : string) (r : gmap string Node) : gmap string Recipe :=
  (fun n => recipe_of user d n (cr user)) <$> r.
Definition prim_entry (p : Node) (r : gmap string Node) (user : User) (d : string) : Entry :=
  mkEntry (cr user) {["primary" := recipe_of user d p (cr user)]} (if isReplica then recs user d r else ∅).
Definition ro_entry (r : gmap string Node) (user : User) (d : string) : Entry :=
  mkEntry (cr (toReplicaUser user)) (recs user d r) ∅.

(** The cell of a user and database of a cluster with primary [p] and replicas
    [r].  Without replicas the pool of _ro is empty or not there. *)
Definition okcell (p : Node) (r : gmap string Node) (user : User) (d : string) (c : cell) : Prop :=
  c.1 = Some (prim_entry p r user d) /\
  (isReplica = false -> c.2 = Some (ro_entry r user d) \/ (r = ∅ /\ c.2 = None)).
Definition gone (c : cell) : Prop := c.1 = None /\ (isReplica = false -> c.2 = None).

(** *** Adding and removing recipes *)

Lemma fold_insert {A} (g : Node -> A) (l : list (string * Node)) (m : gmap string A) k :
  NoDup l.*1 ->
  each l (fun kn => <[kn.1 := g kn.2]>) m !! k = match (list_to_map l : gmap string Node) !! k with Some n => Some (g n) | None => m !! k end.
Proof.
  unfold each. revert m. induction l as [|[k0 n0] l IH]; intros m Hnd; [done|]. cbn in *. apply NoDup_cons in Hnd as [H1 H2].
  rewrite IH by done. destruct (decide (k0 = k)) as [->|].
  - rewrite lookup_insert_eq, (not_elem_of_list_to_map_1 l k) by done. by rewrite lookup_insert_eq.
  - by rewrite !lookup_insert_ne.
Qed.

Lemma order_fold {A} (g : Node -> A) r : each (order r) (fun kn => <[kn.1 := g kn.2]>) (∅ : gmap string A) = g <$> r.
Proof.
  apply map_eq. intros k. assert (Hnd : NoDup (order r).*1) by (rewrite order_perm; apply NoDup_fst_map_to_list).
  rewrite fold_insert by done. rewrite (list_to_map_proper (order r) (map_to_list r)) by done.
  rewrite list_to_map_to_list, lookup_fmap, lookup_empty. by destruct (r !! k).
Qed.

Lemma each_add l (g : Node -> Recipe) e :
  each l (fun kn => e_add kn.1 (g kn.2)) e = mkEntry (e_creds e) (each l (fun kn => <[kn.1 := g kn.2]>) (e_recipes e)) (e_replicas e).
Proof. revert e. induction l as [|kn l IH]; intros e; [by destruct e|]. cbn. apply IH. Qed.
Lemma each_add_replica l (g : Node -> Recipe) e :
  each l (fun kn => e_add_replica kn.1 (g kn.2)) e = mkEntry (e_creds e) (e_recipes e) (each l (fun kn => <[kn.1 := g kn.2]>) (e_replicas e)).
Proof. revert e. induction l as [|kn l IH]; intros e; [by destruct e|]. cbn. apply IH. Qed.
Lemma each_remove_replica l e :
  each l e_remove_replica e = mkEntry (e_creds e) (e_recipes e) (each l delete (e_replicas e)).
Proof. revert e. induction l as [|kn l IH]; intros e; [by destruct e|]. cbn. apply IH. Qed.

Lemma order_delete {A} r (m : gmap string A) : dom m ⊆ dom r -> each (order r).*1 delete m = ∅.
Proof.
  intros Hd. assert (Hl : forall l (m : gmap string A) k, each l delete m !! k = if decide (k ∈ l) then None else m !! k).
  { clear. unfold each. induction l as [|k0 l IH]; intros m k; [done|]. cbn. rewrite IH. destruct (decide (k ∈ l)); [by rewrite decide_True by (by right)|].
    destruct (decide (k0 = k)) as [->|]; [rewrite lookup_delete_eq, decide_True by left; done|].
    rewrite lookup_delete_ne, decide_False by (done || set_solver). done. }
  apply map_eq. intros k. rewrite Hl, lookup_empty. destruct (decide _) as [|Hk]; [done|].
  apply not_elem_of_dom. intros Hk'. apply Hd, elem_of_dom in Hk' as [n Hn]. apply Hk. apply list_elem_of_fmap.
  exists (k, n). split; [done|]. rewrite order_perm. by apply elem_of_map_to_list.
Qed.

(** *** The operations on a cell *)
#[local] Arguments each : simpl never.

Lemma gone_add p r user d c : gone c -> okcell p r user d (f_replicas user d (order r) (f_primary user d p c)).
Proof.
  intros [H1 H2]. unfold f_primary, f_replicas, okcell. rewrite H1. cbn. unfold prim_entry, ro_entry, recs.
  destruct isReplica; cbn.
  - rewrite (each_add_replica _ (fun n => recipe_of user d n (cr user))). cbn. rewrite (order_fold (fun n => recipe_of user d n (cr user))). split; [|done].
    by rewrite insert_empty.
  - rewrite H2 by done. cbn. rewrite (each_add _ (fun n => recipe_of user d n (cr user))). cbn. rewrite (order_fold (fun n => recipe_of user d n (cr user))). split; [by rewrite <- insert_empty|].
    auto.
Qed.

Lemma ok_primary p p' r user d c : okcell p r user d c -> okcell p' r user d (f_primary user d p' c).
Proof.
  intros [H1 H2]. unfold f_primary, okcell. rewrite H1. cbn. split; [|done]. unfold e_add, prim_entry. cbn.
  by rewrite insert_singleton_eq.
Qed.

Lemma ok_remove p r user d l c : okcell p r user d c -> gone (None, (f_remove l c).2).
Proof. intros [H1 H2]. unfold f_remove, gone. rewrite H1. cbn. by destruct isReplica. Qed.

Lemma ok_remove_all p r user d c : okcell p r user d c -> okcell p ∅ user d (f_remove (order r).*1 c).
Proof.
  intros [H1 H2]. unfold f_remove, okcell. rewrite H1. unfold prim_entry. destruct isReplica; cbn.
  - rewrite each_remove_replica. cbn. split; [|done]. unfold recs. rewrite fmap_empty, order_delete; [done|]. by rewrite dom_fmap_L.
  - split; [done|]. auto.
Qed.

Lemma ok_add_all p r user d c : okcell p ∅ user d c -> okcell p r user d (f_replicas user d (order r) c).
Proof.
  intros [H1 H2]. unfold f_replicas, okcell. rewrite H1. unfold prim_entry. destruct isReplica; cbn.
  - rewrite (each_add_replica _ (fun n => recipe_of user d n (cr user))). cbn. unfold recs. rewrite fmap_empty, (order_fold (fun n => recipe_of user d n (cr user))). done.
  - split; [done|]. intros _. left. f_equal. rewrite (each_add _ (fun n => recipe_of user d n (cr user))). unfold ro_entry, recs.
    destruct (H2 eq_refl) as [->|[_ ->]]; cbn; unfold recs; rewrite ?fmap_empty, (order_fold (fun n => recipe_of user d n (cr user))); done.
Qed.

Lemma ok_add_one p r user d id n c : okcell p r user d c -> okcell p (<[id := n]> r) user d (f_replicas user d [(id, n)] c).
Proof.
  intros [H1 H2]. unfold f_replicas, okcell. rewrite H1. unfold prim_entry, e_add_replica, e_add. destruct isReplica; cbn.
  - split; [|done]. unfold recs. by rewrite fmap_insert.
  - split; [done|]. intros _. left. unfold ro_entry, recs. rewrite fmap_insert.
    destruct (H2 eq_refl) as [->|[-> ->]]; cbn; [done|]. by rewrite fmap_empty.
Qed.

Lemma ok_remove_one p r user d id c : okcell p r user d c -> okcell p (delete id r) user d (f_remove_one id c).
Proof.
  intros [H1 H2]. unfold f_remove_one, okcell. rewrite H1. unfold prim_entry, e_remove_replica. destruct isReplica; cbn.
  - split; [|done]. unfold recs. by rewrite fmap_delete.
  - split; [done|]. intros _. destruct (H2 eq_refl) as [->|[-> ->]]; cbn; [left|right].
    + unfold e_remove, ro_entry, recs. cbn. by rewrite fmap_delete.
    + by rewrite delete_empty.
Qed.

(** *** The phases of an update *)

(** The cells of a cluster with users [us] and databases [ds]; others are gone. *)
Definition st (p : Node) (r : gmap string Node) (us : list User) (ds : list string) (x : string * string) (c : cell) : Prop :=
  (forall u, u ∈ us -> Username u = x.1 -> x.2 ∈ ds -> okcell p r u x.2 c) /\
  ((forall u, u ∈ us -> Username u = x.1 -> x.2 ∉ ds) -> gone c).

Lemma st_outside p r us ds x c : x ∉ pairs us ds -> st p r us ds x c <-> gone c.
Proof.
  intros Hx. rewrite elem_of_pairs in Hx. unfold st. split.
  - intros [_ Hg]. apply Hg. intros u Hu Eu Hd. apply Hx. eauto.
  - intros Hg. split; [|done]. intros u Hu Eu Hd. exfalso. apply Hx. eauto.
Qed.

Lemma st_gone p r us ds x c : (forall u, u ∈ us -> Username u = x.1 -> x.2 ∉ ds) -> st p r us ds x c <-> gone c.
Proof. intros Hx. apply st_outside. rewrite elem_of_pairs. intros ((u & ? & ?) & ?). by eapply Hx. Qed.

Lemma user_unique (us : list User) u u' : NoDup (Username <$> us) -> u ∈ us -> u' ∈ us -> Username u = Username u' -> u = u'.
Proof.
  intros Hnd [i Hi]%list_elem_of_lookup [j Hj]%list_elem_of_lookup Eq.
  assert (i = j) as <-; [|congruence]. eapply NoDup_lookup; [done|by rewrite list_lookup_fmap, Hi|].
  rewrite list_lookup_fmap, Hj. simpl. by rewrite Eq.
Qed.

Lemma st_ok p r us ds u d c : NoDup (Username <$> us) -> u ∈ us -> d ∈ ds -> st p r us ds (Username u, d) c <-> okcell p r u d c.
Proof.
  intros Hnd Hu Hd. unfold st. cbn. split; [intros [Hs _]; eauto|]. intros Hok. split.
  - intros u' Hu' Eq _. by rewrite (user_unique us u' u).
  - intros Hno. exfalso. by eapply Hno.
Qed.

(** Loops over the users and databases of a cluster. *)
Lemma touch_row ds (u : User) P Q op :
  NoDup ds -> named (row ds u) -> (forall d, d ∈ ds -> touch [(Username u, d)] P Q (op d)) ->
  touch (row ds u) P Q (each ds op).
Proof.
  intros Hd Hn Hop. assert (Er : row ds u = concat ((fun d => [(Username u, d)]) <$> ds)).
  { clear. unfold row. induction ds; cbn; [done|]. by f_equal. }
  rewrite Er in *. apply touch_each; [done| |done]. rewrite <- Er. unfold row. apply NoDup_fmap_2; [by intros ? ? [= ->]|done].
Qed.

Lemma touch_users us ds P Q op :
  NoDup (Username <$> us) -> NoDup ds -> named (pairs us ds) ->
  (forall u d, u ∈ us -> d ∈ ds -> touch [(Username u, d)] P Q (op u d)) ->
  touch (pairs us ds) P Q (each us (fun u => each ds (op u))).
Proof.
  intros Hu Hd Hn Hop. apply touch_each; [|by apply NoDup_pairs|done]. intros u Hin.
  apply touch_row; [done| |auto]. intros x (d & -> & ?)%list_elem_of_fmap. apply Hn, elem_of_pairs. cbn. eauto.
Qed.

(** One cell of a loop of an update. *)
Lemma touch_cell p r p' r' us ds u d f m :
  NoDup (Username <$> us) -> u ∈ us -> d ∈ ds -> acts (Username u, d) f m ->
  (forall c, okcell p r u d c -> okcell p' r' u d (f c)) ->
  touch [(Username u, d)] (st p r us ds) (st p' r' us ds) m.
Proof. intros Hnd Hu Hd Hm Hf. eapply touch_one; [done|]. intros c. rewrite !st_ok by done. auto. Qed.

Section Phases.
Context (us : list User) (ds : list string).
Hypothesis us_nodup : NoDup (Username <$> us).
Hypothesis ds_nodup : NoDup ds.
Hypothesis us_named : named (pairs us ds).

Lemma replacePrimary_touch p p' r : touch (pairs us ds) (st p r us ds) (st p' r us ds) (replacePrimary us ds p').
Proof.
  apply touch_users; [done..|]. intros u d Hu Hd. eapply touch_cell; [done..|apply addPrimaryNode_acts|]. intros c. apply ok_primary.
Qed.

Lemma removeReplicas_touch p r : touch (pairs us ds) (st p r us ds) (st p ∅ us ds) (removeReplicas r us ds).
Proof.
  apply touch_users; [done..|]. intros u d Hu Hd. eapply touch_cell; [done..|apply removeReplicaNodes_acts|]. intros c. apply ok_remove_all.
Qed.

Lemma addReplicas_touch p r : touch (pairs us ds) (st p ∅ us ds) (st p r us ds) (addReplicas r us ds).
Proof.
  apply touch_users; [done..|]. intros u d Hu Hd. eapply touch_cell; [done..|apply addReplicaNodes_acts|]. intros c. apply ok_add_all.
Qed.

Lemma addReplica_touch p r id n : touch (pairs us ds) (st p r us ds) (st p (<[id := n]> r) us ds) (addReplica us ds id n).
Proof.
  apply touch_users; [done..|]. intros u d Hu Hd. eapply touch_cell; [done..|apply addReplicaNode_acts|]. intros c. apply ok_add_one.
Qed.

Lemma removeReplica_touch p r id : touch (pairs us ds) (st p r us ds) (st p (delete id r) us ds) (removeReplica us ds id).
Proof.
  apply touch_users; [done..|]. intros u d Hu Hd. eapply touch_cell; [done..|apply removeReplicaNode_acts|]. intros c. apply ok_remove_one.
Qed.

(** A loop whose steps change the replicas. *)
Lemma touch_fold {A} (l : list A) (g : A -> gmap string Node -> gmap string Node) (m : A -> Module_ -> Module_) p r :
  (forall a r, touch (pairs us ds) (st p r us ds) (st p (g a r) us ds) (m a)) ->
  touch (pairs us ds) (st p r us ds) (st p (each l g r) us ds) (each l m).
Proof.
  intros Hm. revert r. induction l as [|a l IH]; intros r; [by apply touch_id|].
  exact (touch_seq _ _ _ _ (m a) (each l m) (Hm a r) (IH (g a r))).
Qed.
End Phases.

(** *** The replicas *)

Definition replica_change (prev : gmap string Node) (kn : string * Node) (r : gmap string Node) : gmap string Node :=
  match prev !! kn.1 with
  | None => <[kn.1 := kn.2]> r
  | Some n => if decide (n <> kn.2) then <[kn.1 := kn.2]> r else r
  end.
Definition replica_drop (next : gmap string Node) (kn : string * Node) (r : gmap string Node) : gmap string Node :=
  match next !! kn.1 with Some _ => r | None => delete kn.1 r end.

Lemma replica_change_step prev kn r :
  prev !! kn.1 = r !! kn.1 -> replica_change prev kn r = <[kn.1 := kn.2]> r.
Proof.
  intros Eq. unfold replica_change. rewrite Eq. destruct (r !! kn.1) as [n|] eqn:E; [|done].
  destruct (decide _) as [|Hd]; [done|]. apply dec_stable in Hd as ->. by rewrite insert_id.
Qed.

Lemma replicas_changed prev l r k : NoDup l.*1 -> (forall k, k ∈ l.*1 -> prev !! k = r !! k) ->
  each l (replica_change prev) r !! k = match (list_to_map l : gmap string Node) !! k with Some n => Some n | None => r !! k end.
Proof.
  intros Hnd Hag. transitivity (each l (fun kn => <[kn.1 := id kn.2]>) r !! k); [|by rewrite fold_insert].
  f_equal. unfold each. revert r Hag. induction l as [|kn l IH]; intros r Hag; [done|]. cbn in *. apply NoDup_cons in Hnd as [H1 H2].
  rewrite replica_change_step by (apply Hag; left). apply IH; [done|]. intros k' Hk'.
  rewrite lookup_insert_ne by (intros <-; done). apply Hag. by right.
Qed.

Lemma replicas_dropped next l r k :
  each l (replica_drop next) r !! k = if decide (k ∈ l.*1 /\ next !! k = None) then None else r !! k.
Proof.
  unfold each. revert r. induction l as [|kn l IH]; intros r; cbn.
  { rewrite decide_False; [done|]. by intros [?%elem_of_nil _]. }
  rewrite IH. destruct (decide (kn.1 = k)) as [<-|Hne].
  - unfold replica_drop. destruct (next !! kn.1) eqn:E.
    + by rewrite !decide_False by (by intros [_ ?]).
    + rewrite (decide_True (P := _ ∈ _ :: _ /\ _)) by (split; [left|done]). destruct (decide _); [done|]. apply lookup_delete_eq.
  - assert (replica_drop next kn r !! k = r !! k) as ->.
    { unfold replica_drop. destruct (next !! kn.1); [done|by apply lookup_delete_ne]. }
    apply decide_ext. set_solver.
Qed.

Lemma replicas_next prev next :
  each (order prev) (replica_drop next) (each (order next) (replica_change prev) prev) = next.
Proof.
  apply map_eq. intros k. rewrite replicas_dropped.
  assert (Hnd : NoDup (order next).*1) by (rewrite order_perm; apply NoDup_fst_map_to_list).
  rewrite replicas_changed by done. rewrite (list_to_map_proper (order next) (map_to_list next)), list_to_map_to_list by done.
  assert (Hk : k ∈ (order prev).*1 <-> is_Some (prev !! k)).
  { rewrite order_perm. rewrite list_elem_of_fmap. split.
    - intros ([k' n] & -> & ?%elem_of_map_to_list). by exists n.
    - intros [n Hn]. exists (k, n). by rewrite elem_of_map_to_list. }
  destruct (next !! k) eqn:En; [by rewrite decide_False by (by intros [_ ?])|].
  destruct (decide _) as [|Hd]; [done|]. destruct (prev !! k) eqn:Ep; [|done]. exfalso. apply Hd. split; [|done]. apply Hk. by eexists.
Qed.

Lemma update_replicas_touch prev next p :
  NoDup (Username <$> Users prev) -> NoDup (Databases prev) -> named (pairs (Users prev) (Databases prev)) ->
  touch (pairs (Users prev) (Databases prev)) (st p (Replicas prev) (Users prev) (Databases prev))
    (st p (Replicas next) (Users prev) (Databases prev)) (update_replicas prev next).
Proof.
  intros Hu Hd Hn. unfold update_replicas. destruct (decide _) as [[_ ->]|_]; [by apply removeReplicas_touch|].
  destruct (decide _) as [[-> _]|_]; [by apply addReplicas_touch|].
  rewrite <- (replicas_next (Replicas prev) (Replicas next)) at 1.
  eapply (touch_seq _ _ _ _ (each (order (Replicas next)) _) (each (order (Replicas prev)) _)); apply touch_fold.
  - intros kn r. unfold replica_change. destruct (Replicas prev !! kn.1); [destruct (decide _)|];
      (by apply addReplica_touch) || by apply touch_id.
  - intros kn r. unfold replica_drop. destruct (Replicas next !! kn.1); [by apply touch_id|by apply removeReplica_touch].
Qed.

(** *** Users and databases that come and go *)

Definition gone_at (x : string * string) (c : cell) : Prop := gone c.

(** Adding and removing one cell. *)
Lemma add_cell_touch p r u d (Q : string * string -> cell -> Prop) :
  (forall c, okcell p r u d c -> Q (Username u, d) c) ->
  touch [(Username u, d)] gone_at Q (fun T => addReplicaNodes u d r (addPrimaryNode u d p T)).
Proof.
  intros HQ. eapply touch_one; [eapply acts_seq; [apply addPrimaryNode_acts|apply addReplicaNodes_acts]|].
  intros c Hc. apply HQ. by apply gone_add.
Qed.

Lemma remove_cell_touch r n d (P : string * string -> cell -> Prop) :
  (forall c, P (n, d) c -> exists p r u, okcell p r u d c) ->
  touch [(n, d)] P gone_at (fun T => removePrimaryNode n d (removeReplicaNodes n d r T)).
Proof.
  intros HP. eapply touch_one; [eapply acts_seq; [apply removeReplicaNodes_acts|apply removePrimaryNode_acts]|].
  intros c (p & r' & u & Hc)%HP. by eapply ok_remove.
Qed.

Lemma touch_col us d P Q op :
  NoDup (Username <$> us) -> named (col us d) -> (forall u, u ∈ us -> touch [(Username u, d)] P Q (op u)) ->
  touch (col us d) P Q (each us op).
Proof.
  intros Hd Hn Hop. assert (Er : col us d = concat ((fun u => [(Username u, d)]) <$> us)).
  { clear. unfold col. induction us; cbn; [done|]. by f_equal. }
  rewrite Er in *. apply touch_each; [done| |done]. rewrite <- Er. unfold col.
  apply (NoDup_fmap_1 fst). by rewrite <- list_fmap_compose.
Qed.

Lemma addUser_touch p r ds u (Q : string * string -> cell -> Prop) :
  NoDup ds -> named (row ds u) -> (forall d c, d ∈ ds -> okcell p r u d c -> Q (Username u, d) c) ->
  touch (row ds u) gone_at Q (addUser p r ds u).
Proof. intros Hd Hn HQ. apply touch_row; [done..|]. intros d Hin. apply add_cell_touch. auto. Qed.

Lemma removeUser_touch r ds u (P : string * string -> cell -> Prop) :
  NoDup ds -> named (row ds u) -> (forall d c, d ∈ ds -> P (Username u, d) c -> exists p r u, okcell p r u d c) ->
  touch (row ds u) P gone_at (removeUser r ds (Username u)).
Proof. intros Hd Hn HP. apply touch_row; [done..|]. intros d Hin. apply remove_cell_touch. auto. Qed.

Lemma addDatabase_touch p r us d (Q : string * string -> cell -> Prop) :
  NoDup (Username <$> us) -> named (col us d) -> (forall u c, u ∈ us -> okcell p r u d c -> Q (Username u, d) c) ->
  touch (col us d) gone_at Q (addDatabase p r us d).
Proof. intros Hu Hn HQ. apply touch_col; [done..|]. intros u Hin. apply add_cell_touch. auto. Qed.

Lemma removeDatabase_touch r us d (P : string * string -> cell -> Prop) :
  NoDup (Username <$> us) -> named (col us d) ->
  (forall u c, u ∈ us -> P (Username u, d) c -> exists p r u, okcell p r u d c) ->
  touch (col us d) P gone_at (removeDatabase r us d).
Proof. intros Hu Hn HP. apply touch_col; [done..|]. intros u Hin. apply remove_cell_touch. intros c. by apply HP. Qed.

Lemma touch_conseq xs (P Q P' Q' : string * string -> cell -> Prop) m :
  touch xs P Q m -> (forall x c, x ∈ xs -> P' x c -> P x c) -> (forall x c, x ∈ xs -> Q x c -> Q' x c) -> touch xs P' Q' m.
Proof.
  intros Hm HP HQ T HT HP'. destruct (Hm T HT) as (HT1 & C1 & Q1 & F1); [auto|]. split_and!; auto.
Qed.

Lemma find_user_Some n us u : find_user n us = Some u -> u ∈ us /\ Username u = n.
Proof.
  unfold find_user. intros ([i u'] & Hf & [= ->])%fmap_Some. apply list_find_Some in Hf as (Hl & Hn & _).
  split; [by eapply list_elem_of_lookup_2|done].
Qed.
Lemma find_user_None n us u : find_user n us = None -> u ∈ us -> Username u <> n.
Proof. unfold find_user. intros Hf%fmap_None Hu. rewrite list_find_None, Forall_forall in Hf. by apply Hf. Qed.

Lemma row_pairs us ds u x : u ∈ us -> x ∈ row ds u -> x ∈ pairs us ds.
Proof. intros Hu (d & -> & ?)%list_elem_of_fmap. apply elem_of_pairs. cbn. eauto. Qed.
Lemma col_pairs us ds d x : d ∈ ds -> x ∈ col us d -> x ∈ pairs us ds.
Proof. intros Hu (u & -> & ?)%list_elem_of_fmap. apply elem_of_pairs. cbn. eauto. Qed.

(** Between the two loops over the users (and over the databases): the cells of
    the next version have been visited, the others not. *)
Definition half (xs : list (string * string)) (P Q : string * string -> cell -> Prop) (x : string * string) (c : cell) : Prop :=
  if decide (x ∈ xs) then Q x c else P x c.

Lemma two_loops xs ys zs (P Q : string * string -> cell -> Prop) m m' :
  named zs -> (forall x, x ∈ zs <-> x ∈ xs \/ x ∈ ys) -> touch xs P Q m -> touch ys (half xs P Q) Q m' ->
  touch zs P Q (fun T => m' (m T)).
Proof.
  intros Hn Hz Hm Hm'. apply (touch_seq _ _ (half xs P Q)).
  - apply (touch_mono xs _ P Q); [done|done|intros x Hx; apply Hz; auto|done|..]; intros x c; unfold half.
    + intros Hx. by rewrite decide_True.
    + intros _ Hx. by rewrite decide_False.
  - apply (touch_mono ys _ (half xs P Q) Q); [done|done|intros x Hx; apply Hz; auto|done|done|].
    intros x c Hx Hy. unfold half. rewrite decide_True; [done|]. apply Hz in Hx as [|]; done.
Qed.

Lemma update_users_touch prev next :
  NoDup (Username <$> Users prev) -> NoDup (Username <$> Users next) -> NoDup (Databases prev) ->
  named (pairs (Users prev ++ Users next) (Databases prev)) ->
  touch (pairs (Users prev ++ Users next) (Databases prev))
    (st (Primary next) (Replicas next) (Users prev) (Databases prev))
    (st (Primary next) (Replicas next) (Users next) (Databases prev)) (update_users prev next).
Proof.
  intros Hp Hnx Hd Hn. set (ds := Databases prev) in *.
  assert (Hrow : forall u, u ∈ Users prev ++ Users next -> named (row ds u)).
  { intros u Hu x Hx. apply Hn. by eapply row_pairs. }
  apply (two_loops (pairs (Users next) ds) (pairs (Users prev) ds) _ _ _ (each (Users next) _) (each (Users prev) _)); [done| | |].
  { intros x. rewrite !elem_of_pairs. set_solver. }
  - apply touch_each; [|by apply NoDup_pairs|intros x Hx; apply Hn; apply elem_of_pairs; apply elem_of_pairs in Hx; set_solver].
    intros u Hu. specialize (Hrow u ltac:(set_solver)).
    assert (Hadd : touch (row ds u) gone_at (st (Primary next) (Replicas next) (Users next) ds) (addUser (Primary next) (Replicas next) ds u)).
    { apply addUser_touch; [done..|]. intros d c Hin. by apply st_ok. }
    destruct (find_user (Username u) (Users prev)) as [pu|] eqn:Ef.
    + apply find_user_Some in Ef as [Hpu En]. destruct (decide _) as [Hpw|Hpw].
      * eapply (touch_seq _ _ gone_at _ (removeUser _ _ _) (addUser _ _ _ _)); [|done]. apply removeUser_touch; [done..|].
        intros d c Hin. rewrite <- En, st_ok by done. eauto.
      * apply touch_id. intros x c (d & -> & Hin)%list_elem_of_fmap. apply dec_stable in Hpw.
        assert (pu = u) as <- by (destruct pu, u; cbn in *; congruence). by rewrite !st_ok.
    + eapply touch_conseq; [done| |done]. intros x c (d & -> & Hin)%list_elem_of_fmap. apply st_gone. cbn.
      intros u' Hu' Eq. by apply (find_user_None _ _ u') in Ef.
  - apply touch_each; [|by apply NoDup_pairs|intros x Hx; apply Hn; apply elem_of_pairs; apply elem_of_pairs in Hx; set_solver].
    intros u Hu. specialize (Hrow u ltac:(set_solver)). destruct (find_user (Username u) (Users next)) as [nu|] eqn:Ef.
    + apply find_user_Some in Ef as [Hnu En]. apply touch_id. intros x c (d & -> & Hin)%list_elem_of_fmap. unfold half.
      rewrite decide_True; [done|]. apply elem_of_pairs. cbn. eauto.
    + eapply touch_conseq; [apply (removeUser_touch _ ds u (st (Primary next) (Replicas next) (Users prev) ds)); [done..|]|..].
      * intros d c Hin. rewrite st_ok by done. eauto.
      * intros x c (d & -> & Hin)%list_elem_of_fmap. unfold half. rewrite decide_False; [done|].
        rewrite elem_of_pairs. cbn. intros ((u' & Hu' & Eq) & _). by apply (find_user_None _ _ u') in Ef.
      * intros x c (d & -> & Hin)%list_elem_of_fmap Hg. apply st_gone; [|done]. cbn. intros u' Hu' Eq.
        by apply (find_user_None _ _ u') in Ef.
Qed.

Lemma update_databases_touch prev next :
  NoDup (Username <$> Users next) -> NoDup (Databases prev) -> NoDup (Databases next) ->
  named (pairs (Users next) (Databases prev ++ Databases next)) ->
  touch (pairs (Users next) (Databases prev ++ Databases next))
    (st (Primary next) (Replicas next) (Users next) (Databases prev))
    (st (Primary next) (Replicas next) (Users next) (Databases next)) (update_databases prev next).
Proof.
  intros Hu Hp Hnx Hn. set (us := Users next) in *.
  assert (Hcol : forall d, d ∈ Databases prev ++ Databases next -> named (col us d)).
  { intros d Hd x Hx. apply Hn. by eapply col_pairs. }
  apply (two_loops (concat (col us <$> Databases next)) (concat (col us <$> Databases prev)) _ _ _
    (each (Databases next) _) (each (Databases prev) _)); [done| | |].
  { intros x. rewrite !elem_of_cols, !elem_of_pairs. set_solver. }
  - apply touch_each; [|by apply NoDup_cols|intros x Hx; apply Hn; apply elem_of_pairs; apply elem_of_cols, elem_of_pairs in Hx; set_solver].
    intros d Hd. specialize (Hcol d ltac:(set_solver)). destruct (decide (d ∈ Databases prev)).
    + apply touch_id. intros x c (u & -> & Hin)%list_elem_of_fmap. by rewrite !st_ok.
    + eapply touch_conseq; [apply (addDatabase_touch _ _ us d (st (Primary next) (Replicas next) us (Databases next))); [done..|]|..].
      * intros u c Hin. by apply st_ok.
      * intros x c (u & -> & Hin)%list_elem_of_fmap. by apply st_gone.
      * done.
  - apply touch_each; [|by apply NoDup_cols|intros x Hx; apply Hn; apply elem_of_pairs; apply elem_of_cols, elem_of_pairs in Hx; set_solver].
    intros d Hd. specialize (Hcol d ltac:(set_solver)). destruct (decide (d ∈ Databases next)).
    + apply touch_id. intros x c (u & -> & Hin)%list_elem_of_fmap. unfold half. rewrite decide_True; [done|].
      apply elem_of_cols, elem_of_pairs. cbn. eauto.
    + eapply touch_conseq; [apply (removeDatabase_touch _ us d (st (Primary next) (Replicas next) us (Databases prev))); [done..|]|..].
      * intros u c Hin. rewrite st_ok by done. eauto.
      * intros x c (u & -> & Hin)%list_elem_of_fmap. unfold half. rewrite decide_False; [done|].
        rewrite elem_of_cols, elem_of_pairs. cbn. by intros [_ ?].
      * intros x c (u & -> & Hin)%list_elem_of_fmap Hg. by apply st_gone.
Qed.

(** All the cells an update may touch: also those of new users and old
    databases. *)
Definition zone (prev next : Cluster) : list (string * string) :=
  pairs (Users prev ++ Users next) (Databases prev ++ Databases next).

Record wf (c : Cluster) : Prop := { wf_users : NoDup (Username <$> Users c); wf_databases : NoDup (Databases c) }.

Definition cells_of (c : Cluster) : string * string -> cell -> Prop := st (Primary c) (Replicas c) (Users c) (Databases c).

Definition update_pools (prev next : Cluster) (T : Module_) : Module_ :=
  update_databases prev next (update_users prev next (update_replicas prev next
    (if decide (Primary prev <> Primary next) then replacePrimary (Users prev) (Databases prev) (Primary next) T else T))).

Lemma st_widen xs ys p r us ds p' r' us' ds' m :
  touch xs (st p r us ds) (st p' r' us' ds') m -> named ys -> (forall x, x ∈ xs -> x ∈ ys) ->
  (forall x, x ∈ pairs us ds \/ x ∈ pairs us' ds' -> x ∈ xs) -> touch ys (st p r us ds) (st p' r' us' ds') m.
Proof.
  intros Hm Hn Hsub Hall. eapply touch_mono; [done..|]. intros x c _ Hx. rewrite !st_outside; [done|..]; intros Hx'; apply Hx, Hall; auto.
Qed.

Lemma updated_touch prev next :
  wf prev -> wf next -> named (zone prev next) -> touch (zone prev next) (cells_of prev) (cells_of next) (update_pools prev next).
Proof.
  intros [Hup Hdp] [Hun Hdn] Hn.
  assert (Hsub : forall us ds, us ⊆ Users prev ++ Users next -> ds ⊆ Databases prev ++ Databases next ->
    forall x, x ∈ pairs us ds -> x ∈ zone prev next).
  { intros us ds Hus Hds x. unfold zone. rewrite !elem_of_pairs. set_solver. }
  assert (Hnm : forall us ds, us ⊆ Users prev ++ Users next -> ds ⊆ Databases prev ++ Databases next -> named (pairs us ds)).
  { intros us ds Hus Hds x Hx. apply Hn. by eapply Hsub. }
  unfold update_pools, cells_of.
  apply (touch_seq _ _ (st (Primary next) (Replicas next) (Users next) (Databases prev)) _ (fun T => update_users _ _ _) (update_databases prev next));
    [|eapply st_widen; [apply update_databases_touch; [done..|apply Hnm; set_solver]|done|apply Hsub; set_solver|
       intros x; rewrite !elem_of_pairs; set_solver]].
  apply (touch_seq _ _ (st (Primary next) (Replicas next) (Users prev) (Databases prev)) _ (fun T => update_replicas _ _ _) (update_users prev next));
    [|eapply st_widen; [apply update_users_touch; [done..|apply Hnm; set_solver]|done|apply Hsub; set_solver|
       intros x; rewrite !elem_of_pairs; set_solver]].
  apply (touch_seq _ _ (st (Primary next) (Replicas prev) (Users prev) (Databases prev)) _
    (fun T => if decide _ then _ else _) (update_replicas prev next)).
  - destruct (decide _) as [|Heq].
    + eapply st_widen; [apply replacePrimary_touch; [done..|apply Hnm; set_solver]|done|apply Hsub; set_solver|set_solver].
    + apply dec_stable in Heq as ->. by apply touch_id.
  - eapply st_widen; [apply update_replicas_touch; [done..|apply Hnm; set_solver]|done|apply Hsub; set_solver|set_solver].
Qed.

(** ** The invariant of the module *)

(** The clusters there ever are: a user and database belongs to one of them. *)
Context (world : Cluster -> Prop) (owner : string * string -> string).
Hypothesis world_wf : forall c, world c -> wf c.
Hypothesis world_names : forall c u, world c -> u ∈ Users c -> names (Username u).
Hypothesis world_owner : forall c c' u d, world c -> world c' -> ID c = ID c' -> u ∈ Users c -> d ∈ Databases c' ->
  owner (Username u, d) = ID c.
Hypothesis order_ids_perm : forall m, order_ids m ≡ₚ (map_to_list m).*1.

Abbreviation pairs_of c := (pairs (Users c) (Databases c)).

Record module_ok (T : Module_) : Prop := {
  ok_good : good T;
  ok_cluster id c : clusters T !! id = Some c -> ID c = id /\ world c;
  ok_cells id c x : clusters T !! id = Some c -> x ∈ pairs_of c -> cells_of c x (cellv x (view T));
  ok_keys k e : view T !! k = Some e -> exists id c x, clusters T !! id = Some c /\ x ∈ pairs_of c /\ k ∈ keysof x
}.

Lemma pairs_named c : world c -> named (pairs_of c).
Proof. intros Hc x ((u & Hu & <-) & _)%elem_of_pairs. by eapply world_names. Qed.
Lemma pairs_owner c x : world c -> x ∈ pairs_of c -> owner x = ID c.
Proof.
  intros Hc. rewrite elem_of_pairs. destruct x as [n d]. cbn. intros ((u & Hu & <-) & Hd). by eapply world_owner.
Qed.

Lemma gone_lookup x v : gone (cellv x v) <-> forall k, k ∈ keysof x -> v !! k = None.
Proof.
  unfold gone, cellv, keysof. destruct isReplica; cbn.
  - split; [intros [? _] k ->%list_elem_of_singleton; done|]. intros Hk. split; [apply Hk; set_solver|done].
  - split; [intros [? Hr] k [->|[->|[]%elem_of_nil]%elem_of_cons]%elem_of_cons; auto|].
    intros Hk. split; [|intros _]; apply Hk; set_solver.
Qed.

(** The cells of a zone that belongs to the cluster [id]. *)
Lemma zone_cells T Z id x :
  module_ok T -> named Z -> (forall x, x ∈ Z -> owner x = id) -> x ∈ Z ->
  match clusters T !! id with Some c => cells_of c x (cellv x (view T)) | None => gone (cellv x (view T)) end.
Proof.
  intros HT Hn Ho Hx.
  assert (Hg : (forall c, clusters T !! id = Some c -> x ∉ pairs_of c) -> gone (cellv x (view T))).
  { intros Hno. apply gone_lookup. intros k Hk. destruct (view T !! k) as [e|] eqn:E; [|done]. exfalso.
    destruct (ok_keys T HT k e E) as (id' & c & x' & Hc & Hx' & Hk'). destruct (ok_cluster T HT id' c Hc) as [<- Hw].
    destruct (decide (x = x')) as [<-|Hne].
    - apply (Hno c); [|done]. by rewrite <- (Ho x Hx), (pairs_owner c x).
    - eapply (keys_disjoint x x' k); [by apply Hn|by eapply (pairs_named c)|done..]. }
  destruct (clusters T !! id) as [c|] eqn:Ec; [|by apply Hg].
  destruct (decide (x ∈ pairs_of c)) as [Hin|Hin]; [by eapply ok_cells|].
  apply st_outside; [done|]. apply Hg. by intros c' [= ->].
Qed.

(** Bringing one cluster from a version (or none) to another (or none). *)
Lemma swap_cluster T m Z (P Q : string * string -> cell -> Prop) id (new : option Cluster) :
  module_ok T -> touch Z P Q m -> named Z -> (forall x, x ∈ Z -> owner x = id) ->
  (forall x, x ∈ Z -> P x (cellv x (view T))) ->
  (forall c x, clusters T !! id = Some c -> x ∈ pairs_of c -> x ∈ Z) ->
  (forall c, new = Some c -> ID c = id /\ world c /\ forall x, x ∈ pairs_of c -> x ∈ Z) ->
  (forall x c, x ∈ Z -> Q x c -> match new with Some n => cells_of n x c | None => gone c end) ->
  let T' := m (set_clusters (partial_alter (fun _ => new) id) T) in
  module_ok T' /\ clusters T' = partial_alter (fun _ => new) id (clusters T).
Proof.
  intros HT Hm Hn Ho HP Hold Hnew HQ. set (T0 := set_clusters _ T). cbn zeta.
  destruct (Hm T0) as (HT1 & C1 & Q1 & F1); [apply good_set_clusters, HT|done|]. split; [|done]. constructor.
  - done.
  - intros id' c. rewrite C1. cbn. destruct (decide (id' = id)) as [->|Hne].
    + rewrite lookup_partial_alter_eq. intros (? & ? & _)%Hnew. done.
    + rewrite lookup_partial_alter_ne by done. apply HT.
  - intros id' c x. rewrite C1. cbn. destruct (decide (id' = id)) as [->|Hne].
    + rewrite lookup_partial_alter_eq. intros Hc Hx. destruct (Hnew c Hc) as (_ & _ & Hsub).
      specialize (HQ x _ (Hsub x Hx) (Q1 x (Hsub x Hx))). by rewrite Hc in HQ.
    + rewrite lookup_partial_alter_ne by done. intros Hc Hx. destruct (ok_cluster T HT id' c Hc) as [<- Hw].
      rewrite <- (cellv_ext x (view T)); [by eapply (ok_cells T HT)|]. intros k Hk. symmetry. apply F1. intros y Hy.
      apply (keys_disjoint x y k); [by eapply (pairs_named c)|by apply Hn| |done]. intros ->.
      apply Hne. by rewrite <- (Ho y Hy), (pairs_owner c y).
  - intros k e Hk. destruct (decide (Exists (fun x => k ∈ keysof x) Z)) as [Hin|Hout]; rewrite list.Exists_exists in *.
    + destruct Hin as (x & Hx & Hkx). specialize (HQ x _ Hx (Q1 x Hx)). destruct new as [n|] eqn:En.
      * destruct (Hnew n eq_refl) as (Hid & Hw & Hsub). exists id, n, x. rewrite C1. cbn. rewrite lookup_partial_alter_eq. split_and!; [done| |done].
        destruct (decide (x ∈ pairs_of n)) as [|Hx']; [done|exfalso]. apply st_outside in HQ; [|done].
        rewrite gone_lookup in HQ. by rewrite (HQ k Hkx) in Hk.
      * exfalso. rewrite gone_lookup in HQ. by rewrite (HQ k Hkx) in Hk.
    + rewrite F1 in Hk by (intros x Hx Hkx; apply Hout; eauto). change (view T !! k = Some e) in Hk.
      destruct (ok_keys T HT k e Hk) as (id' & c & x & Hc & Hx & Hkx). exists id', c, x. split_and!; [|done..].
      rewrite C1. cbn. rewrite lookup_partial_alter_ne; [done|]. intros ->. apply Hout. exists x. split; [by eapply Hold|done].
Qed.

Lemma zone_named prev next : world prev -> world next -> named (zone prev next).
Proof.
  intros Hp Hn x ((u & Hu & <-) & _)%elem_of_pairs. apply elem_of_app in Hu as [Hu|Hu]; [by eapply (world_names prev)|by eapply (world_names next)].
Qed.

Lemma zone_owner prev next x : world prev -> world next -> ID prev = ID next -> x ∈ zone prev next -> owner x = ID next.
Proof.
  intros Hp Hn Eq. unfold zone. rewrite elem_of_pairs. destruct x as [n d]. cbn. intros ((u & Hu & <-) & Hd).
  apply elem_of_app in Hu as [Hu|Hu]; apply elem_of_app in Hd as [Hd|Hd].
  - rewrite <- Eq. by apply (world_owner prev prev).
  - rewrite <- Eq. by apply (world_owner prev next).
  - by apply (world_owner next prev).
  - by apply (world_owner next next).
Qed.

Lemma pairs_zone_l prev next x : x ∈ pairs_of prev -> x ∈ zone prev next.
Proof. unfold zone. rewrite !elem_of_pairs. set_solver. Qed.
Lemma pairs_zone_r prev next x : x ∈ pairs_of next -> x ∈ zone prev next.
Proof. unfold zone. rewrite !elem_of_pairs. set_solver. Qed.

Lemma updated_ok prev next T :
  module_ok T -> clusters T !! ID next = Some prev -> world next ->
  module_ok (updated prev next T) /\ clusters (updated prev next T) = <[ID next := next]> (clusters T).
Proof.
  intros HT Hp Hw. destruct (ok_cluster T HT _ _ Hp) as [Hid Hwp].
  apply (swap_cluster T (update_pools prev next) (zone prev next) (cells_of prev) (cells_of next) (ID next) (Some next)).
  - done.
  - apply updated_touch; [by apply world_wf..|by apply zone_named].
  - by apply zone_named.
  - intros x. by apply zone_owner.
  - intros x Hx. pose proof (zone_cells T (zone prev next) (ID next) x HT) as Hz. rewrite Hp in Hz. apply Hz; [by apply zone_named| |done].
    intros y. by apply zone_owner.
  - intros c x Hc. rewrite Hp in Hc. injection Hc as <-. apply pairs_zone_l.
  - intros c [= <-]. split_and!; [done..|]. apply pairs_zone_r.
  - done.
Qed.

Lemma added_ok c T :
  module_ok T -> world c -> module_ok (added c T) /\ clusters (added c T) = <[ID c := c]> (clusters T).
Proof.
  intros HT Hw. unfold added. destruct (clusters T !! ID c) as [prev|] eqn:E; [by apply updated_ok|].
  apply (swap_cluster T (each (Users c) (addUser (Primary c) (Replicas c) (Databases c))) (pairs_of c) gone_at (cells_of c) (ID c) (Some c)).
  - done.
  - destruct (world_wf c Hw) as [Hu Hd]. apply touch_each; [|by apply NoDup_pairs|by apply pairs_named].
    intros u Hin. apply addUser_touch; [done|intros x Hx; apply (pairs_named c Hw); by eapply row_pairs|].
    intros d cl Hd'. by apply st_ok.
  - by apply pairs_named.
  - intros x. by apply pairs_owner.
  - intros x Hx. pose proof (zone_cells T (pairs_of c) (ID c) x HT) as Hz. rewrite E in Hz. apply Hz; [by apply pairs_named| |done].
    intros y. by apply pairs_owner.
  - intros c' x Hc. congruence.
  - intros c' [= <-]. done.
  - done.
Qed.

Lemma removed_ok id T :
  module_ok T -> module_ok (removed id T) /\ clusters (removed id T) = delete id (clusters T).
Proof.
  intros HT. unfold removed. destruct (clusters T !! id) as [c|] eqn:E; [|by rewrite delete_id].
  destruct (ok_cluster T HT id c E) as [<- Hw].
  assert (Hn : named (concat (col (Users c) <$> Databases c))) by (intros x Hx%elem_of_cols; by apply (pairs_named c Hw)).
  apply (swap_cluster T (each (Databases c) (removeDatabase (Replicas c) (Users c))) (concat (col (Users c) <$> Databases c))
    (cells_of c) gone_at (ID c) None).
  - done.
  - destruct (world_wf c Hw) as [Hu Hd]. apply touch_each; [|by apply NoDup_cols|done].
    intros d Hin. apply removeDatabase_touch; [done|intros x Hx; apply (pairs_named c Hw); by eapply col_pairs|].
    intros u cl Hu'. unfold cells_of. rewrite st_ok by done. eauto.
  - done.
  - intros x Hx%elem_of_cols. by apply pairs_owner.
  - intros x Hx%elem_of_cols. by eapply (ok_cells T HT).
  - intros c' x Hc Hx. apply elem_of_cols. congruence.
  - done.
  - done.
Qed.

Lemma each_ok {A} (l : list A) (m : A -> Module_ -> Module_) (g : A -> gmap string Cluster -> gmap string Cluster) T :
  module_ok T -> (forall a T, a ∈ l -> module_ok T -> module_ok (m a T) /\ clusters (m a T) = g a (clusters T)) ->
  module_ok (each l m T) /\ clusters (each l m T) = each l g (clusters T).
Proof.
  unfold each. revert T. induction l as [|a l IH]; intros T HT Hm; [done|]. cbn.
  destruct (Hm a T ltac:(left) HT) as [HT1 C1]. destruct (IH (m a T) HT1) as [HT2 C2]; [intros b T' Hb; apply Hm; by right|].
  split; [done|]. by rewrite C2, C1.
Qed.

(** The clusters by their IDs. *)
Definition by_id (found : list Cluster) : gmap string Cluster := list_to_map ((fun c => (ID c, c)) <$> found).

Lemma each_by_id (found : list Cluster) (m : gmap string Cluster) : NoDup (ID <$> found) ->
  each found (fun c => <[ID c := c]>) m = by_id found ∪ m.
Proof.
  unfold each, by_id. revert m. induction found as [|c found IH]; intros m Hnd; cbn in *; [symmetry; apply (left_id_L ∅ (∪))|].
  apply NoDup_cons in Hnd as [H1 H2]. rewrite IH by done. rewrite <- insert_union_l. rewrite <- insert_union_r; [done|].
  apply not_elem_of_list_to_map_1. by rewrite <- list_fmap_compose.
Qed.

Lemma by_id_Some found id : is_Some (by_id found !! id) <-> id ∈ ID <$> found.
Proof.
  unfold by_id. rewrite <- elem_of_dom, dom_list_to_map_L, elem_of_list_to_set, <- list_fmap_compose. done.
Qed.

Lemma each_drop (ids : list string) (P : string -> Prop) `{forall x, Decision (P x)} (m : gmap string Cluster) k :
  each ids (fun id m => if decide (P id) then m else delete id m) m !! k = if decide (k ∈ ids /\ ~ P k) then None else m !! k.
Proof.
  unfold each. revert m. induction ids as [|id ids IH]; intros m; cbn.
  { rewrite decide_False; [done|]. by intros [?%elem_of_nil _]. }
  rewrite IH. destruct (decide (id = k)) as [->|Hne].
  - destruct (decide (P k)); [by rewrite !decide_False by (by intros [_ ?])|].
    rewrite (decide_True (P := _ ∈ _ :: _ /\ _)) by (split; [left|done]). destruct (decide _); [done|]. apply lookup_delete_eq.
  - assert ((if decide (P id) then m else delete id m) !! k = m !! k) as ->.
    { destruct (decide (P id)); [done|by apply lookup_delete_ne]. }
    apply decide_ext. set_solver.
Qed.

Lemma reconcile_ok answer T :
  module_ok T -> (forall found, answer = inr found -> Forall world found) ->
  module_ok (reconcile answer T).2 /\
  (forall found, answer = inr found -> NoDup (ID <$> found) -> clusters (reconcile answer T).2 = by_id found).
Proof.
  intros HT Hw. destruct answer as [e|found]; [done|]. specialize (Hw found eq_refl).
  unfold reconcile. cbn [snd]. set (T1 := each found _ T).
  destruct (each_ok found (fun cluster T => match clusters T !! ID cluster with None => added cluster T | Some prev => updated prev cluster T end)
    (fun c => <[ID c := c]>) T HT) as [HT1 C1].
  { intros c T' Hc HT'. apply list_elem_of_lookup in Hc as [i Hi]. assert (world c) by (by eapply (Forall_lookup_1 world found i)).
    destruct (clusters T' !! ID c) eqn:E; [by apply updated_ok|by apply added_ok]. }
  fold T1 in HT1, C1.
  destruct (each_ok (order_ids (clusters T1)) (fun id T => if decide (id ∈ ID <$> found) then T else removed id T)
    (fun id m => if decide (id ∈ ID <$> found) then m else delete id m) T1 HT1) as [HT2 C2].
  { intros id T' _ HT'. destruct (decide _); [done|by apply removed_ok]. }
  split; [done|]. intros f [= <-] Hnd. etrans; [exact C2|]. apply map_eq. intros k. rewrite each_drop, C1, each_by_id by done.
  destruct (decide _) as [[_ Hk]|Hk].
  - symmetry. apply eq_None_not_Some. by rewrite by_id_Some.
  - rewrite lookup_union. destruct (by_id found !! k) as [c|] eqn:Ek; [by destruct (clusters T !! k)|].
    destruct (clusters T !! k) as [c|] eqn:Ec; [|done]. exfalso. apply Hk. split.
    + rewrite order_ids_perm. apply list_elem_of_fmap. exists (k, c). split; [done|]. apply elem_of_map_to_list.
      by rewrite lookup_union, Ek, Ec.
    + rewrite <- by_id_Some, Ek. by intros [? ?].
Qed.

(** ** What clients get *)
Record serves (T : Module_) : Prop := {
  serves_users id c u d :
    clusters T !! id = Some c -> u ∈ Users c -> d ∈ Databases c ->
    exists i pl, Handle (Username u) d T = Some (cr u, i) /\ heap T !! i = Some pl /\ closed pl = false /\
      recipes pl = {["primary" := recipe_of u d (Primary c) (cr u)]} /\
      replicaRecipes pl = (if isReplica then recs u d (Replicas c) else ∅);
  serves_replicas id c u d :
    isReplica = false -> clusters T !! id = Some c -> u ∈ Users c -> d ∈ Databases c -> Replicas c <> ∅ ->
    exists i pl, Handle (toReplicaUsername (Username u)) d T = Some (cr (toReplicaUser u), i) /\
      heap T !! i = Some pl /\ closed pl = false /\ recipes pl = recs u d (Replicas c);
  serves_only n d r :
    Handle n d T = Some r ->
    exists id c u, clusters T !! id = Some c /\ u ∈ Users c /\ d ∈ Databases c /\
      (n = Username u \/ isReplica = false /\ n = toReplicaUsername (Username u));
  serves_no_leak i pl : heap T !! i = Some pl -> closed pl = false -> exists n d c, Handle n d T = Some (c, i)
}.

Lemma view_Handle T n d e : good T -> view T !! (n, d) = Some e ->
  exists i pl, Handle n d T = Some (e_creds e, i) /\ heap T !! i = Some pl /\ closed pl = false /\
    recipes pl = e_recipes e /\ replicaRecipes pl = e_replicas e.
Proof.
  intros HT He. destruct (pools T !! (n, d)) as [pc|] eqn:E; [|apply (view_None T _ HT) in E; congruence].
  destruct (good_open T HT _ _ E) as (p & Hp & Ho). rewrite (view_lookup T _ _ _ E Hp) in He. injection He as <-.
  exists (pool pc), p. unfold Handle, getPool. rewrite E. done.
Qed.

Lemma module_serves T : module_ok T -> serves T.
Proof.
  intros HT. assert (Hcell : forall id c u d, clusters T !! id = Some c -> u ∈ Users c -> d ∈ Databases c ->
    okcell (Primary c) (Replicas c) u d (cellv (Username u, d) (view T))).
  { intros id c u d Hc Hu Hd. destruct (ok_cluster T HT id c Hc) as [_ Hw]. destruct (world_wf c Hw) as [Hnd _].
    apply (st_ok _ _ (Users c) (Databases c)); [done..|]. apply (ok_cells T HT id c); [done|]. apply elem_of_pairs. cbn. eauto. }
  constructor.
  - intros id c u d Hc Hu Hd. destruct (Hcell id c u d Hc Hu Hd) as [H1 _]. exact (view_Handle T _ _ _ (ok_good T HT) H1).
  - intros id c u d HR Hc Hu Hd Hne. destruct (Hcell id c u d Hc Hu Hd) as [_ H2]. destruct (H2 HR) as [H3|[? _]]; [|done].
    unfold cellv in H3. rewrite HR in H3. apply view_Handle in H3 as (i & pl & ? & ? & ? & ? & _); [|apply HT]. exists i, pl. done.
  - intros n d r Hh. unfold Handle, getPool in Hh. destruct (pools T !! (n, d)) as [pc|] eqn:E; [|done].
    destruct (good_open T (ok_good T HT) _ _ E) as (p & Hp & _). pose proof (view_lookup T _ _ _ E Hp) as Hv.
    apply (ok_keys T HT) in Hv as (id & c & [n' d'] & Hc & Hx & Hk). apply elem_of_pairs in Hx as ((u & Hu & Eq) & Hd'). cbn in *. subst n'.
    exists id, c, u. unfold keysof, ro in Hk. clear -Hc Hu Hd' Hk. destruct isReplica; cbn in Hk.
    + apply list_elem_of_singleton in Hk. injection Hk as -> ->. auto.
    + apply elem_of_cons in Hk as [[= -> ->]|[= -> ->]%list_elem_of_singleton]; auto 6.
  - intros i pl Hi Ho. destruct (good_no_leak T (ok_good T HT) i pl Hi Ho) as ([n d] & c & Hp). exists n, d, c.
    unfold Handle, getPool. by rewrite Hp.
Qed.

Definition world_answer (answer : error + list Cluster) : Prop :=
  match answer with inl _ => True | inr found => Forall world found end.
Definition world_event (e : event) : Prop :=
  match e with Added c => world c | Removed _ => True | Tick answer => world_answer answer end.

(** A module that was provisioned, and its loop. *)
Definition loop_init (T : Module_) : Prop :=
  exists found, Forall world found /\ T = (Provision (inr found) module_init).2.
Definition loop_step (T T' : Module_) : Prop := exists e, world_event e /\ T' = discoverLoop e T.

Lemma loop_ok T : reachable loop_init loop_step T -> module_ok T.
Proof.
  apply invariant_reachable.
  - intros ? (found & Hw & ->). apply reconcile_ok; [|by intros ? [= <-]]. constructor.
    + by constructor; cbn; intros *; rewrite ?lookup_empty, ?lookup_nil.
    + intros id c. cbn. by rewrite lookup_empty.
    + intros id c x. cbn. by rewrite lookup_empty.
    + intros k e. unfold view. rewrite lookup_omap. done.
  - intros T1 ? _ HT (e & He & ->). destruct e as [c|id|answer]; cbn in *; [by apply added_ok|by apply removed_ok|].
    apply reconcile_ok; [done|]. by intros found ->.
Qed.

(** *** The end *)
Lemma cleanup_closes T : good T -> started T = true ->
  let T' := Cleanup T in pools T' = ∅ /\ Forall (fun p => closed p = true) (heap T').
Proof.
  intros HT Hs. unfold Cleanup. rewrite Hs. cbn zeta.
  set (T0 := mkModule _ _ _ _ _). assert (HT0 : good T0) by (by destruct HT).
  assert (Hl : forall l T, good T -> let T' := each l (fun kp : (string * string) * poolAndCredentials => removePool kp.1.1 kp.1.2) T in
    good T' /\ forall k, pools T' !! k = if decide (k ∈ l.*1) then None else pools T !! k).
  { clear. unfold each. induction l as [|[[n d] pc] l IH]; intros T HT; [done|]. cbn.
    destruct (removePool_spec n d T HT) as (HT1 & _ & _). destruct (IH _ HT1) as [HT2 P2]. split; [done|]. intros k. rewrite P2.
    assert (Hp : pools (removePool n d T) = delete (n, d) (pools T)).
    { unfold removePool. destruct (pools T !! (n, d)) eqn:E; [done|]. by rewrite delete_id. }
    rewrite Hp. destruct (decide (k ∈ l.*1)); [by rewrite decide_True by (by right)|].
    destruct (decide ((n, d) = k)) as [<-|]; [rewrite decide_True by left; apply lookup_delete_eq|].
    rewrite lookup_delete_ne, decide_False by (done || set_solver). done. }
  destruct (Hl (map_to_list (pools T0)) T0 HT0) as [HT1 P1].
  assert (He : pools (each (map_to_list (pools T0)) (fun kp => removePool kp.1.1 kp.1.2) T0) = ∅).
  { apply map_eq. intros k. rewrite P1, lookup_empty. destruct (decide _) as [|Hk]; [done|].
    destruct (pools T0 !! k) as [pc|] eqn:E; [|done]. exfalso. apply Hk, list_elem_of_fmap. exists (k, pc).
    by rewrite elem_of_map_to_list. }
  split; [done|]. apply Forall_lookup_2. intros i p Hp. destruct (closed p) eqn:Ho; [done|].
  destruct (good_no_leak _ HT1 i p Hp Ho) as (k & c & Hk). rewrite He in Hk. by rewrite lookup_empty in Hk.
Qed.
End Discovery.

Module DiscoveryTheorems.
Section Theorems.
Context {Creds TLS : Type} (FromString : string -> string -> Creds) (config : @Config TLS) (isReplica : bool).
Context (order : gmap string Node -> list (string * Node)) (order_ids : gmap string Cluster -> list string).
Context (names : string -> Prop) (world : Cluster -> Prop) (owner : string * string -> string).
Hypothesis names_ro : isReplica = false -> forall u u', names u -> names u' -> u <> toReplicaUsername u'.
Hypothesis order_perm : forall m, order m ≡ₚ map_to_list m.
Hypothesis order_ids_perm : forall m, order_ids m ≡ₚ (map_to_list m).*1.
Hypothesis world_wf : forall c, world c -> wf c.
Hypothesis world_names : forall c u, world c -> u ∈ Users c -> names (Username u).
Hypothesis world_owner : forall c c' u d, world c -> world c' -> ID c = ID c' -> u ∈ Users c -> d ∈ Databases c' ->
  owner (Username u, d) = ID c.


(** A reconciliation with what the discoverer found leaves the module with
    these clusters and no others, and serving them, whatever it missed before. *)
Theorem reconcile_converges (T : Module_) (found : list Cluster) :
  reachable (loop_init FromString config isReplica order order_ids world)
    (loop_step FromString config isReplica order order_ids world) T ->
  Forall world found -> NoDup (ID <$> found) ->
  let r := reconcile FromString config isReplica order order_ids (inr found) T in
  r.1 = None /\ clusters r.2 = by_id found /\ serves FromString config isReplica r.2.
Proof.
  intros HT Hw Hnd. cbn zeta. split; [done|].
  destruct (reconcile_ok FromString config isReplica order order_ids names names_ro order_perm world owner world_wf world_names
    world_owner order_ids_perm (inr found) T) as [Hok Hc].
  - by eapply (loop_ok FromString config isReplica order order_ids).
  - by intros ? [= <-].
  - split; [by apply Hc|]. by eapply module_serves.
Qed.

(** Cleanup closes every pool the module ever opened. *)
Theorem cleanup_closes_all (T : Module_) :
  reachable (loop_init FromString config isReplica order order_ids world)
    (loop_step FromString config isReplica order order_ids world) T ->
  started T = true -> Forall (fun p => closed p = true) (heap (Cleanup T)).
Proof.
  intros HT Hs. apply (cleanup_closes FromString T); [|done]. eapply ok_good. by eapply (loop_ok FromString config isReplica order order_ids).
Qed.
End Theorems.

(** *** Examples *)

Definition ex_config : @Config unit := mkConfig "disable" tt ∅ 0 0.
Definition ex_order (m : gmap string Node) : list (string * Node) := map_to_list m.
Definition ex_ids (m : gmap string Cluster) : list string := (map_to_list m).*1.
Definition ex_creds (user password : string) : string := password.
Abbreviation ex_reconcile := (reconcile ex_creds ex_config false ex_order ex_ids).
Abbreviation ex_provision := (Provision ex_creds ex_config false ex_order ex_ids).

(** Two versions of a cluster: a password, a database, a user and a replica
    change. *)
Definition ex_v1 : Cluster := mkCluster "a" (mkNode "10.0.0.1:5432" 0) ∅ ["x"%string] [mkUser "app" "pw1"].
Definition ex_v2 : Cluster :=
  mkCluster "a" (mkNode "10.0.0.1:5432" 0) {["r1"%string := mkNode "10.0.0.2:5432" 1]} ["x"%string; "y"%string] [mkUser "app" "pw2"; mkUser "bob" "pw3"].
Definition ex_world (c : Cluster) : Prop := c = ex_v1 \/ c = ex_v2.
Definition ex_names (n : string) : Prop := n = "app"%string \/ n = "bob"%string.

Lemma ex_names_ro u u' : ex_names u -> ex_names u' -> u <> toReplicaUsername u'.
Proof. intros [->| ->] [->| ->]; done. Qed.
Lemma ex_world_wf c : ex_world c -> wf c.
Proof. intros [->| ->]; split; apply (bool_decide_unpack _); vm_compute; exact I. Qed.
Lemma ex_world_names c u : ex_world c -> u ∈ Users c -> ex_names (Username u).
Proof.
  intros [->| ->]; cbn; rewrite ?elem_of_cons, elem_of_nil; intros Hu; repeat destruct Hu as [Hu|Hu]; subst; try done; (by left) || (by right).
Qed.
Lemma ex_world_owner c c' u d : ex_world c -> ex_world c' -> ID c = ID c' -> u ∈ Users c -> d ∈ Databases c' -> "a"%string = ID c.
Proof. by intros [->| ->]. Qed.

Lemma ex_reachable :
  reachable (loop_init ex_creds ex_config false ex_order ex_ids ex_world) (loop_step ex_creds ex_config false ex_order ex_ids ex_world)
    (discoverLoop ex_creds ex_config false ex_order ex_ids (Added ex_v2) (ex_provision (inr [ex_v1]) module_init).2).
Proof.
  eapply reachable_step; [apply reachable_init; exists [ex_v1]; split; [repeat constructor; by left|reflexivity]|].
  exists (Added ex_v2). split; [by right|reflexivity].
Qed.


Lemma reconcile_converges_witness :
  let r := ex_reconcile (inr [ex_v1])
    (discoverLoop ex_creds ex_config false ex_order ex_ids (Added ex_v2) (ex_provision (inr [ex_v1]) module_init).2) in
  r.1 = None /\ clusters r.2 = by_id [ex_v1] /\ serves ex_creds ex_config false r.2.
Proof.
  apply (reconcile_converges ex_creds ex_config false ex_order ex_ids ex_names ex_world (fun _ => "a"%string) (fun _ => ex_names_ro)
    (fun _ => reflexivity _) (fun _ => reflexivity _) ex_world_wf ex_world_names ex_world_owner _ [ex_v1] ex_reachable).
  - repeat constructor.
  - repeat constructor; by intros ?%elem_of_nil.
Defined.

Lemma cleanup_closes_all_witness :
  Forall (fun p => closed p = true) (heap (Cleanup
    (discoverLoop ex_creds ex_config false ex_order ex_ids (Added ex_v2) (ex_provision (inr [ex_v1]) module_init).2))).
Proof.
  apply (cleanup_closes_all ex_creds ex_config false ex_order ex_ids ex_names ex_world (fun _ => "a"%string) (fun _ => ex_names_ro)
    (fun _ => reflexivity _) (fun _ => reflexivity _) ex_world_wf ex_world_names ex_world_owner _ ex_reachable).
  vm_compute. reflexivity.
Defined.

(** A cluster that is replaced by one with another ID, the same users and
    databases. *)
Definition ex_old : Cluster := mkCluster "old" (mkNode "10.0.0.1:5432" 0) ∅ ["x"%string] [mkUser "app" "pw"].
Definition ex_new : Cluster := mkCluster "new" (mkNode "10.0.0.9:5432" 0) ∅ ["x"%string] [mkUser "app" "pw"].

(** If a cluster is replaced by one with another ID and the same users and
    databases, the reconciliation that sees both changes first gives the new
    cluster the pool of the old one and then removes that pool with the old
    cluster: the new cluster is known but its clients are turned away, and no
    number of further reconciliations changes that. *)
Theorem reconcile_replaced_loses_pool (n : nat) :
  let T := Nat.iter (S n) (fun T => (ex_reconcile (inr [ex_new]) T).2) (ex_provision (inr [ex_old]) module_init).2 in
  clusters T !! "new"%string = Some ex_new /\ Handle "app" "x" T = None.
Proof.
  cbn zeta. set (f := fun T => (ex_reconcile (inr [ex_new]) T).2). set (T0 := (ex_provision (inr [ex_old]) module_init).2).
  assert (Hf : f (f T0) = f T0) by (vm_compute; reflexivity).
  assert (Hn : Nat.iter (S n) f T0 = f T0) by (induction n as [|n IH]; [done|]; cbn in *; by rewrite IH).
  rewrite Hn. split; vm_compute; reflexivity.
Qed.
End DiscoveryTheorems.
