(* ===== verification/Discoverers.v ===== *)
(** * Discoverers: lib/gat/handlers/discovery/discoverers and lib/k8s/selector.go

    Each discoverer turns what an API reports into clusters for the discovery
    module (Discovery).  The records here have the fields of the API's objects
    that the code reads; the calls of the APIs, DNS and the lookup of passwords are
    parameters.  Ranges over maps take the order as a parameter ([keys]). *)

From Stdlib Require Import Ascii.
From stdpp Require Import strings pretty.
From S2P Require Import Prelude.
From S2P Require Import Wire.
From S2P Require Import Discovery.

Local Open Scope go_scope.
Local Open Scope string_scope.

(** ** net.JoinHostPort *)
Fixpoint has_colon (s : string) : bool :=
  match s with
  | EmptyString => false
  | String c s => bool_decide (c = ":"%char) || has_colon s
  end.
Definition JoinHostPort (host port : string) : string :=
  if has_colon host then "[" +:+ host +:+ "]" +:+ (":" +:+ port) else host +:+ (":" +:+ port).

(** ** selector.go *)
Module K8s.
Record NamespaceMatcher := mkMatcher { Namespace : string; Labels : gmap string string }.

Section Selector.
Context (order : gmap string string -> list (string * string)).

Fixpoint Join (parts : list string) (sep : string) : string :=
  match parts with
  | [] => ""
  | [p] => p
  | p :: l => p +:+ sep +:+ Join l sep
  end.

Definition LabelSelector (nm : NamespaceMatcher) : string :=
  if decide (Labels nm = ∅) then "" else Join ((fun kv => kv.1 +:+ "=" +:+ kv.2) <$> order (Labels nm)) ",".

(** The LabelSelector of the options, before and after. *)
Definition TweakListOptions (nm : NamespaceMatcher) (selector : string) : string :=
  if decide (Labels nm = ∅) then selector
  else if decide (selector <> "") then selector +:+ "," +:+ LabelSelector nm else LabelSelector nm.
End Selector.

Definition MatchesNamespace (nm : NamespaceMatcher) (namespace : string) : bool :=
  negb (bool_decide (Namespace nm <> "") && bool_decide (Namespace nm <> namespace)).

(** [m[key]] of a missing key is the empty string. *)
Definition MatchesNamespaceLabels (nm : NamespaceMatcher) (labels : gmap string string) : bool :=
  forallb (fun kv => bool_decide (default "" (labels !! kv.1) = kv.2)) (map_to_list (Labels nm)).

(** namespaceMatches of both operators' discoverers; [get] fetches the labels. *)
Definition namespaceMatches (get : string -> error + gmap string string) (nm : NamespaceMatcher) (name : string) : bool :=
  if decide (Labels nm = ∅) then MatchesNamespace nm name
  else match get name with
       | inl _ => false
       | inr labels => MatchesNamespace nm name && MatchesNamespaceLabels nm labels
       end.

(** The labels that are asked for, with their values, are among a namespace's. *)
Lemma matches_labels nm labels :
  (forall k, labels !! k <> Some "" ) -> (forall k, Labels nm !! k <> Some "") ->
  MatchesNamespaceLabels nm labels = true <-> Labels nm ⊆ labels.
Proof.
  intros Hl Hn. unfold MatchesNamespaceLabels. rewrite forallb_forall, map_subseteq_spec. split.
  - intros Hall k v Hk. specialize (Hall (k, v)). rewrite <- list_elem_of_In, elem_of_map_to_list in Hall.
    specialize (Hall Hk). apply bool_decide_eq_true in Hall. cbn in Hall. destruct (labels !! k) as [w|]; cbn in Hall; [congruence|].
    subst v. by destruct (Hn k).
  - intros Hsub [k v] Hin%list_elem_of_In%elem_of_map_to_list. apply bool_decide_eq_true. cbn. by rewrite (Hsub k v Hin).
Qed.
End K8s.
Import K8s.

(** What a discoverer sends to the module: two buffered channels that drop what
    does not fit. *)
Record Channels := mkChannels { added : list Cluster; removed : list string; chans_closed : bool }.
Definition capacity : nat := 200.

(** [select { case T.added <- cluster: default: ... }]; sending on a closed channel panics. *)
Definition send_added (c : Cluster) (T : Channels) : outcome Channels :=
  if chans_closed T then Panic
  else Ret (if decide (length (added T) < capacity) then mkChannels (added T ++ [c]) (removed T) false else T).
Definition send_removed (id : string) (T : Channels) : outcome Channels :=
  if chans_closed T then Panic
  else Ret (if decide (length (removed T) < capacity) then mkChannels (added T) (removed T ++ [id]) false else T).

(** ** zalando_operator/discoverer.go *)
Module Zalando.
Record Postgresql := mkPostgresql {
  UID : string;
  Name : string;
  PNamespace : string;
  NumberOfInstances : Z;
  PUsers : gmap string (list string);
  PDatabases : gmap string string
}.

(** The parts of the operator's configuration that are read. *)
Record Op := mkOp { ClusterDomain : string; SecretNameTemplate : string }.

Section Zalando.
Context (namespace : NamespaceMatcher) (get_labels : string -> error + gmap string string).
(** Secrets(namespace).Get: the data of a secret; StringTemplate.Format. *)
Context (get_secret : string -> string -> error + gmap string string) (Format : string -> list (string * string) -> string).
Context (keys : forall A, gmap string A -> list string).
(** acidv1.PostgresCRDResourceKind and acidzalando.GroupName *)
Context (kind group : string).

(** strings.ReplaceAll(user, "_", "-") *)
Fixpoint dashes (s : string) : string :=
  match s with EmptyString => "" | String c s => String (if decide (c = "_"%char) then "-"%char else c) (dashes s) end.

Definition secretName (op : Op) (cluster user : string) : string :=
  Format (SecretNameTemplate op) [("username", dashes user); ("cluster", cluster); ("tprkind", kind); ("tprgroup", group)].

(** The body of the loop over the users. *)
Definition user_of (op : Op) (cluster : Postgresql) (user : string) : option User :=
  match get_secret (PNamespace cluster) (secretName op (Name cluster) user) with
  | inl _ => None
  | inr data => mkUser user <$> data !! "password"
  end.

(** T.op is a pointer. *)
Definition postgresqlToCluster (op : option Op) (cluster : Postgresql) : outcome Cluster :=
  let! op := deref op in
  let address suffix := Name cluster +:+ suffix +:+ "." +:+ PNamespace cluster +:+ ".svc." +:+ ClusterDomain op +:+ ":5432" in
  Ret (mkCluster (UID cluster) (mkNode (address "") 0)
    (if decide (1 < NumberOfInstances cluster)%Z then {["repl" := mkNode (address "-repl") 0]} else ∅)
    (keys _ (PDatabases cluster)) (omap (user_of op cluster) (keys _ (PUsers cluster)))).

(** AddFunc and UpdateFunc; DeleteFunc.  An object that is no Postgresql is [None]. *)
Definition on_cluster (op : option Op) (obj : option Postgresql) (T : Channels) : outcome Channels :=
  match obj with
  | None => Ret T
  | Some psql =>
      if negb (namespaceMatches get_labels namespace (PNamespace psql)) then Ret T
      else let! c := postgresqlToCluster op psql in send_added c T
  end.
Definition on_delete (obj : option Postgresql) (T : Channels) : outcome Channels :=
  match obj with None => Ret T | Some psql => send_removed (UID psql) T end.

(** The loop of Clusters over what List returned. *)
Fixpoint to_clusters (op : option Op) (items : list Postgresql) : outcome (list Cluster) :=
  match items with
  | [] => Ret []
  | p :: items =>
      if negb (namespaceMatches get_labels namespace (PNamespace p)) then to_clusters op items
      else let! c := postgresqlToCluster op p in let! cs := to_clusters op items in Ret (c :: cs)
  end.
Definition Clusters (op : option Op) (listed : error + list Postgresql) : outcome (error + list Cluster) :=
  match listed with
  | inl e => Ret (inl e)
  | inr items => let! cs := to_clusters op items in Ret (inr cs)
  end.
End Zalando.
End Zalando.

(** ** cloudnative_pg/discoverer.go *)
Module Cnpg.
Record Config := mkConfig {
  CNamespace : NamespaceMatcher;
  ClusterDomain : string;
  ReadWriteServiceSuffix : string;
  ReadOnlyServiceSuffix : string;
  Port : Z;
  SecretSuffix : string;
  IncludeSuperuser : bool
}.

Definition or_default (s d : string) : string := if decide (s = "") then d else s.

(** The defaults that Provision sets. *)
Definition set_defaults (d : Config) : Config :=
  mkConfig (CNamespace d) (or_default (ClusterDomain d) "cluster.local") (or_default (ReadWriteServiceSuffix d) "-rw")
    (or_default (ReadOnlyServiceSuffix d) "-ro") (if decide (Port d = 0%Z) then 5432%Z else Port d) (or_default (SecretSuffix d) "-app")
    (IncludeSuperuser d).

(** Bootstrap.InitDB; secrets are pointers to their names. *)
Record InitDB := mkInitDB { Database : string; Owner : string; Secret : option string }.
Record CnpgCluster := mkCnpg {
  UID : string;
  Name : string;
  Namespace : string;
  Instances : Z;
  Bootstrap : option InitDB;
  SuperuserSecret : option string
}.

Section Cnpg.
Context (get_labels : string -> error + gmap string string) (get_secret : string -> string -> error + gmap string string).

(** A user with the password of a secret, if there is one. *)
Definition with_password (namespace secret user : string) : list User :=
  match get_secret namespace secret with
  | inl _ => []
  | inr data => match data !! "password" with Some p => [mkUser user p] | None => [] end
  end.

Definition clusterToDiscoveryCluster (d : Config) (cluster : CnpgCluster) : Cluster :=
  let namespace := or_default (Namespace cluster) "default" in
  let endpoint suffix := Name cluster +:+ suffix +:+ "." +:+ namespace +:+ ".svc." +:+ ClusterDomain d +:+ ":" +:+ pretty (Port d) in
  let '(dbs, users) :=
    match Bootstrap cluster with
    | None => ([], [])
    | Some initDB =>
        let database := or_default (Database initDB) "postgres" in
        let owner := or_default (Owner initDB) database in
        let secretName :=
          match Secret initDB with
          | Some name => or_default name (Name cluster +:+ SecretSuffix d)
          | None => Name cluster +:+ SecretSuffix d
          end in
        ([database], if decide (secretName <> "") then with_password namespace secretName owner else [])
    end in
  let superuser :=
    match SuperuserSecret cluster with
    | Some name => if IncludeSuperuser d && bool_decide (name <> "") then with_password namespace name "postgres" else []
    | None => []
    end in
  mkCluster (UID cluster) (mkNode (endpoint (ReadWriteServiceSuffix d)) 0)
    (if decide (1 < Instances cluster)%Z then {["read-only" := mkNode (endpoint (ReadOnlyServiceSuffix d)) 0]} else ∅)
    (dbs ++ ["postgres"]) (users ++ superuser).

Inductive EventType := EvAdded | EvModified | EvDeleted.

(** An object that cannot be converted is [None]. *)
Definition handleClusterEvent (d : Config) (obj : option CnpgCluster) (eventType : EventType) (T : Channels) : outcome Channels :=
  match obj with
  | None => Ret T
  | Some cluster =>
      if negb (namespaceMatches get_labels (CNamespace d) (Namespace cluster)) then Ret T
      else match eventType with
           | EvAdded | EvModified => send_added (clusterToDiscoveryCluster d cluster) T
           | EvDeleted => send_removed (UID cluster) T
           end
  end.

Definition Clusters (d : Config) (items : list (option CnpgCluster)) : list Cluster :=
  clusterToDiscoveryCluster d <$>
    filter (fun c => namespaceMatches get_labels (CNamespace d) (Namespace c) = true) (omap (fun c => c) items).

(** Both channels are closed, which closing twice would panic. *)
Definition Cleanup (T : Channels) : outcome Channels :=
  if chans_closed T then Panic else Ret (mkChannels (added T) (removed T) true).
End Cnpg.
End Cnpg.

(** ** digitalocean/discoverer.go *)
Module DigitalOcean.
Record Connection := mkConnection { Host : string; Port : Z }.
Record Database := mkDatabase {
  DID : string;
  EngineSlug : string;
  Status : string;
  PrivateConnection : Connection;
  PublicConnection : Connection;
  DBNames : list string;
  DUsers : list User
}.
Record Replica := mkReplica { RID : string; RStatus : string; RPrivate : Connection; RPublic : Connection }.

Section DigitalOcean.
Context (Private DiscoverStandby : bool) (Allow : option (Database -> bool)) (AllowReplica : Replica -> bool).
(** ListReplicas; net.LookupIP, with ip.To4().String() where it is not nil. *)
Context (ListReplicas : string -> error + list Replica) (LookupIP : string -> error + list (option string)).

Definition primary_connection (d : Database) : Connection := if Private then PrivateConnection d else PublicConnection d.

(** The addresses of the primary: those of its name, if standbys are looked for;
    [None] skips the cluster. *)
Definition primary_address (d : Database) : option (string * list string) :=
  let c := primary_connection d in
  if DiscoverStandby then
    match LookupIP (Host c) with
    | inl _ => None
    | inr ips =>
        let v4 := omap (fun ip => ip) ips in
        match v4 with
        | [] => None
        | ip :: _ => Some (JoinHostPort ip (pretty (Port c)), v4)
        end
    end
  else Some (JoinHostPort (Host c) (pretty (Port c)), []).

Definition filtered {A} (allow : A -> bool) (a : A) : bool := match Allow with Some _ => allow a | None => true end.

(** The loop over the replicas. *)
Definition add_replica (m : gmap string Node) (r : Replica) : gmap string Node :=
  if decide (RStatus r <> "online") then m
  else if negb (filtered AllowReplica r) then m
  else
    let c := if Private then RPrivate r else RPublic r in
    <[RID r := mkNode (JoinHostPort (Host c) (pretty (Port c))) 0]> m.

(** The loop over the addresses of the standbys. *)
Fixpoint add_standbys (id : string) (port : Z) (primaryIPSet : list string) (index : nat) (ips : list (option string)) (m : gmap string Node)
    : gmap string Node :=
  match ips with
  | [] => m
  | None :: ips => add_standbys id port primaryIPSet index ips m
  | Some ip :: ips =>
      if decide (ip ∈ primaryIPSet) then add_standbys id port primaryIPSet index ips m
      else add_standbys id port primaryIPSet (S index) ips
             (<[id +:+ "-standby-" +:+ pretty (Z.of_nat index) := mkNode (JoinHostPort ip (pretty port)) 0]> m)
  end.

(** One database: skipped, or an error, or its cluster. *)
Definition to_cluster (d : Database) : option (error + Cluster) :=
  if decide (EngineSlug d <> "pg") then None
  else if decide (Status d <> "online") then None
  else if negb (match Allow with Some allow => allow d | None => true end) then None
  else match primary_address d with
       | None => None
       | Some (primaryAddr, primaryIPSet) =>
           match ListReplicas (DID d) with
           | inl e => Some (inl e)
           | inr replicas =>
               let m := foldl add_replica ∅ replicas in
               let m :=
                 if DiscoverStandby then
                   match LookupIP ("replica-" +:+ Host (primary_connection d)) with
                   | inl _ => m
                   | inr ips => add_standbys (DID d) (Port (primary_connection d)) primaryIPSet 0 ips m
                   end
                 else m in
               Some (inr (mkCluster (DID d) (mkNode primaryAddr 0) m (DBNames d)
                 ((fun u => mkUser (Username u) (Password u)) <$> DUsers d)))
           end
       end.

Fixpoint Clusters (l : list Database) : error + list Cluster :=
  match l with
  | [] => inr []
  | d :: l =>
      match to_cluster d with
      | None => Clusters l
      | Some (inl e) => inl e
      | Some (inr c) => match Clusters l with inl e => inl e | inr cs => inr (c :: cs) end
      end
  end.
End DigitalOcean.
End DigitalOcean.

(** ** google_cloud_sql/discoverer.go *)
Module CloudSQL.
Record IpMapping := mkIp { IpAddress : string; Type_ : string }.
Record DatabaseInstance := mkInstance {
  Name : string;
  InstanceType : string;
  DatabaseVersion : string;
  IpAddresses : list IpMapping;
  ReplicaNames : list string
}.

Section CloudSQL.
Context (IpAddressType AuthUser AuthPassword : string).
(** Databases.List and Users.List of an instance; dialing the admin connection to
    an address; the auth query of a user on it: name and password. *)
Context (list_databases list_users : string -> error + list string).
Context (dial_admin : string -> string -> error + unit) (auth_query : string -> error + string * option string).
Context (ErrLookup : string -> error).

(** The last address of the type that is asked for. *)
Definition address_of (ips : list IpMapping) : string :=
  foldl (fun a ip => if decide (Type_ ip <> IpAddressType) then a else JoinHostPort (IpAddress ip) "5432") "" ips.

(** The loop over the users; [admin] says that the connection was dialed. *)
Fixpoint read_users (primaryAddress database : string) (admin : bool) (users : list string) : error + list User :=
  match users with
  | [] => inr []
  | user :: users =>
      if decide (user = AuthUser) then
        match read_users primaryAddress database admin users with inl e => inl e | inr us => inr (mkUser user AuthPassword :: us) end
      else
        match (if admin then inr tt else dial_admin primaryAddress database) with
        | inl e => inl e
        | inr _ =>
            match auth_query user with
            | inl e => inl e
            | inr (name, password) =>
                if decide (name <> user) then inl (ErrLookup user)
                else match read_users primaryAddress database true users with
                     | inl e => inl e
                     | inr us => inr (mkUser user (default "" password) :: us)
                     end
            end
        end
  end.

Definition instanceToCluster (primary : DatabaseInstance) (replicas : list DatabaseInstance) : error + Cluster :=
  let primaryAddress := address_of (IpAddresses primary) in
  let nodes := foldl (fun m r => <[Name r := mkNode (address_of (IpAddresses primary)) 0]> m) ∅ replicas in
  match list_databases (Name primary) with
  | inl e => inl e
  | inr [] => inr (mkCluster (Name primary) (mkNode primaryAddress 0) nodes [] [])
  | inr (db :: dbs) =>
      match list_users (Name primary) with
      | inl e => inl e
      | inr users =>
          match read_users primaryAddress db false users with
          | inl e => inl e
          | inr us => inr (mkCluster (Name primary) (mkNode primaryAddress 0) nodes (db :: dbs) us)
          end
      end
  end.

(** The instances that ReplicaNames names, each the first of its name. *)
Definition replicas_of (items : list DatabaseInstance) (names : list string) : list DatabaseInstance :=
  omap (fun name => snd <$> list_find (fun i => Name i = name) items) names.

Fixpoint to_clusters (all items : list DatabaseInstance) : error + list Cluster :=
  match items with
  | [] => inr []
  | i :: items =>
      if decide (InstanceType i <> "CLOUD_SQL_INSTANCE") then to_clusters all items
      else if negb (String.prefix "POSTGRES_" (DatabaseVersion i)) then to_clusters all items
      else match instanceToCluster i (replicas_of all (ReplicaNames i)) with
           | inl e => inl e
           | inr c => match to_clusters all items with inl e => inl e | inr cs => inr (c :: cs) end
           end
  end.
Definition Clusters (listed : error + list DatabaseInstance) : error + list Cluster :=
  match listed with inl e => inl e | inr items => to_clusters items items end.
End CloudSQL.
End CloudSQL.

(** ** Addresses *)

Lemma app_cons c (s t : string) : String c s +:+ t = String c (s +:+ t).
Proof. done. Qed.

Lemma app_assoc_s (s t u : string) : (s +:+ t) +:+ u = s +:+ (t +:+ u).
Proof. induction s as [|c s IH]; [done|]. by rewrite !app_cons, IH. Qed.

Lemma length_app_s (s t : string) : String.length (s +:+ t) = String.length s + String.length t.
Proof. induction s as [|c s IH]; [done|]. rewrite app_cons. cbn. by rewrite IH. Qed.

Lemma app_cancel_r (s t u : string) : s +:+ u = t +:+ u -> s = t.
Proof.
  intros E. assert (Hlen : String.length s = String.length t).
  { apply (f_equal String.length) in E. rewrite !length_app_s in E. lia. }
  revert t Hlen E. induction s as [|c s IH]; intros [|d t]; intros Hlen E; try done. rewrite !app_cons in E. injection E as -> E.
  f_equal. apply IH; [by injection Hlen|done].
Qed.

Lemma has_colon_app s t : has_colon (s +:+ t) = has_colon s || has_colon t.
Proof. induction s as [|c s IH]; [done|]. rewrite app_cons. cbn. by rewrite IH, orb_assoc. Qed.

(** Two hosts at the same port have different addresses. *)
Lemma JoinHostPort_inj h h' port : JoinHostPort h port = JoinHostPort h' port -> h = h'.
Proof.
  unfold JoinHostPort. assert (Hb : forall x y, "[" +:+ x +:+ "]" +:+ y = ("[" +:+ x +:+ "]") +:+ y) by (intros x y; by rewrite !app_assoc_s).
  assert (Hc : forall x, has_colon ("[" +:+ x +:+ "]") = has_colon x) by (intros x; rewrite !has_colon_app; apply orb_false_r).
  rewrite !Hb. destruct (has_colon h) eqn:E, (has_colon h') eqn:E'; intros Eq%app_cancel_r; try done.
  - apply (inj (String.append "[")) in Eq. by apply app_cancel_r in Eq.
  - rewrite <- Eq, Hc in E'. congruence.
  - rewrite Eq, Hc in E. congruence.
Qed.

(** ** Standbys *)
Section Standbys.
Context (port : Z) (primaries : list string).

(** A node is one of before, or a standby at an address that is none of the primary's. *)
Lemma add_standbys_spec id index ips m k n : DigitalOcean.add_standbys id port primaries index ips m !! k = Some n ->
  m !! k = Some n \/ exists ip, Some ip ∈ ips /\ ip ∉ primaries /\ Address n = JoinHostPort ip (pretty port).
Proof.
  revert index m. induction ips as [|[ip|] ips IH]; intros index m; cbn [DigitalOcean.add_standbys]; [by left| |].
  - case_decide as Hip; intros [H|(ip' & Hin & Hip' & Ha)]%IH; [by left|right; exists ip'; split_and!; [by right|done|done]| |
      right; exists ip'; split_and!; [by right|done|done]].
    destruct (decide (k = id +:+ "-standby-" +:+ pretty (Z.of_nat index))) as [->|Hk].
    + rewrite lookup_insert_eq in H. injection H as <-. right. exists ip. split_and!; [by left|done|done].
    + rewrite lookup_insert_ne in H by done. by left.
  - intros [H|(ip' & Hin & ?)]%IH; [by left|right; exists ip'; split; [by right|done]].
Qed.
End Standbys.

Lemma add_replica_spec Private Allow AllowReplica l m k n : foldl (DigitalOcean.add_replica Private Allow AllowReplica) m l !! k = Some n ->
  m !! k = Some n \/ exists r, r ∈ l /\ DigitalOcean.RID r = k /\ DigitalOcean.RStatus r = "online".
Proof.
  revert m. induction l as [|r l IH]; intros m; cbn; [by left|]. intros [H|(r' & Hr & ?)]%IH; [|right; exists r'; split; [by right|done]].
  unfold DigitalOcean.add_replica in H. case_decide as Hs; [by left|]. destruct (negb _); [by left|].
  destruct (decide (k = DigitalOcean.RID r)) as [->|Hk]; [|rewrite lookup_insert_ne in H by done; by left].
  right. exists r. split_and!; [by left|done|done].
Qed.

(** ** Theorems *)
Module DiscoverersTheorems.

(** The replicas that are reported for a DigitalOcean cluster are replicas: the
    cluster is an online PostgreSQL; each of its replicas is an online one of the
    API, or was found by DNS at an address that is none of the primary's, so the
    primary is never used as its own standby. *)
Theorem standbys_are_not_primary Private Allow AllowReplica ListReplicas LookupIP (d : DigitalOcean.Database) (c : Cluster) k n :
  DigitalOcean.to_cluster Private true Allow AllowReplica ListReplicas LookupIP d = Some (inr c) -> Replicas c !! k = Some n ->
  DigitalOcean.EngineSlug d = "pg" /\ DigitalOcean.Status d = "online" /\
  ((exists replicas r, ListReplicas (DigitalOcean.DID d) = inr replicas /\ r ∈ replicas /\
      DigitalOcean.RID r = k /\ DigitalOcean.RStatus r = "online") \/
   Address n <> Address (Primary c)).
Proof.
  unfold DigitalOcean.to_cluster. case_decide as He; [done|]. case_decide as Hs; [done|]. destruct (negb _); [done|].
  unfold DigitalOcean.primary_address. cbn [DigitalOcean.to_cluster].
  destruct (LookupIP _) as [e|ips]; [done|]. destruct (omap _ ips) as [|ip v4]; [done|].
  destruct (ListReplicas (DigitalOcean.DID d)) as [e|replicas]; [done|]. intros [= <-] Hn. cbn [Replicas Primary Address] in *.
  split; [done|]. split; [done|].
  assert (Hrep : foldl (DigitalOcean.add_replica Private Allow AllowReplica) ∅ replicas !! k = Some n ->
    exists rs r, @inr error _ replicas = inr rs /\ r ∈ rs /\ DigitalOcean.RID r = k /\ DigitalOcean.RStatus r = "online").
  { intros [H|(r & ?)]%add_replica_spec; [by rewrite lookup_empty in H|by exists replicas, r]. }
  destruct (LookupIP _) as [e|standbys]; [left; by apply Hrep|].
  apply add_standbys_spec in Hn as [Hn|(ip' & _ & Hip & Ha)]; [left; by apply Hrep|]. right. rewrite Ha.
  intros ->%JoinHostPort_inj. apply Hip. by left.
Qed.

Definition ex_db : DigitalOcean.Database :=
  DigitalOcean.mkDatabase "a" "pg" "online" (DigitalOcean.mkConnection "p" 1) (DigitalOcean.mkConnection "h" 25060) ["db"] [mkUser "u" "pw"].
Definition ex_lookup (host : string) : error + list (option string) :=
  if decide (host = "h") then inr [None; Some "10.0.0.1"] else inr [Some "10.0.0.1"; Some "10.0.0.2"].

Lemma standbys_are_not_primary_witness :
  exists c, DigitalOcean.to_cluster false true None (fun _ => true) (fun _ => inr []) ex_lookup ex_db = Some (inr c) /\
    Primary c = mkNode "10.0.0.1:25060" 0 /\ Replicas c !! "a-standby-0" = Some (mkNode "10.0.0.2:25060" 0) /\
    Address (mkNode "10.0.0.2:25060" 0) <> Address (Primary c).
Proof.
  destruct (DigitalOcean.to_cluster false true None (fun _ => true) (fun _ => inr []) ex_lookup ex_db) as [[e|c]|] eqn:E; [by vm_compute in E| |by vm_compute in E].
  assert (Hc : Primary c = mkNode "10.0.0.1:25060" 0 /\ Replicas c !! "a-standby-0" = Some (mkNode "10.0.0.2:25060" 0)).
  { vm_compute in E. injection E as <-. by vm_compute. }
  exists c. split; [done|]. split; [apply Hc|]. split; [apply Hc|].
  destruct (standbys_are_not_primary _ _ _ _ _ ex_db c "a-standby-0" (mkNode "10.0.0.2:25060" 0) E (proj2 Hc)) as (_ & _ & [(rs & r & [= <-] & Hr & _)|H]);
    [by apply not_elem_of_nil in Hr|exact H].
Defined.

(** The replicas of a Cloud SQL instance are reported at the address of the
    primary: the loop that looks for the address of a replica reads the addresses
    of the primary, so reads that are meant for replicas go to the primary. *)
Theorem cloud_sql_replicas_are_primary IpAddressType AuthUser AuthPassword list_databases list_users dial_admin auth_query ErrLookup
    (primary r : CloudSQL.DatabaseInstance) replicas (c : Cluster) :
  CloudSQL.instanceToCluster IpAddressType AuthUser AuthPassword list_databases list_users dial_admin auth_query ErrLookup primary replicas = inr c ->
  r ∈ replicas -> exists n, Replicas c !! CloudSQL.Name r = Some n /\ Address n = Address (Primary c).
Proof.
  set (n := mkNode (CloudSQL.address_of IpAddressType (CloudSQL.IpAddresses primary)) 0). intros E Hr. exists n.
  assert (Hm : forall m : gmap string Node, foldl (fun m r => <[CloudSQL.Name r := n]> m) m replicas !! CloudSQL.Name r = Some n).
  { assert (Hkeep : forall l k (m : gmap string Node), m !! k = Some n -> foldl (fun m r => <[CloudSQL.Name r := n]> m) m l !! k = Some n).
    { intros l k. induction l as [|x l IH]; intros m H; [done|]. apply IH. destruct (decide (k = CloudSQL.Name x)) as [->|];
        [by rewrite lookup_insert_eq|by rewrite lookup_insert_ne]. }
    apply list_elem_of_split in Hr as (l1 & l2 & ->). intros m. rewrite foldl_app. cbn. apply Hkeep. by rewrite lookup_insert_eq. }
  unfold CloudSQL.instanceToCluster in E. destruct (list_databases _) as [e|[|db dbs]]; [done|by injection E as <-; split; [apply Hm|]|].
  destruct (list_users _) as [e|users]; [done|]. destruct (CloudSQL.read_users _ _ _ _ _ _ _ _ _) as [e|us]; [done|].
  injection E as <-. by split; [apply Hm|].
Qed.

Definition ex_primary : CloudSQL.DatabaseInstance := CloudSQL.mkInstance "p" "CLOUD_SQL_INSTANCE" "POSTGRES_16" [CloudSQL.mkIp "10.1.1.1" "PRIVATE"] ["r"].
Definition ex_replica : CloudSQL.DatabaseInstance := CloudSQL.mkInstance "r" "READ_REPLICA_INSTANCE" "POSTGRES_16" [CloudSQL.mkIp "10.1.1.2" "PRIVATE"] [].

Lemma cloud_sql_replicas_are_primary_witness :
  exists c, CloudSQL.instanceToCluster "PRIVATE" "postgres" "pw" (fun _ => inr ["db"]) (fun _ => inr ["postgres"]) (fun _ _ => inr tt) (fun _ => inl EOF)
      (fun _ => EOF) ex_primary [ex_replica] = inr c /\
    exists n, Replicas c !! "r" = Some n /\ Address n = Address (Primary c).
Proof.
  destruct (CloudSQL.instanceToCluster "PRIVATE" "postgres" "pw" (fun _ => inr ["db"]) (fun _ => inr ["postgres"]) (fun _ _ => inr tt) (fun _ => inl EOF)
      (fun _ => EOF) ex_primary [ex_replica]) as [e|c] eqn:E; [by vm_compute in E|]. exists c. split; [done|].
  apply (cloud_sql_replicas_are_primary _ _ _ _ _ _ _ _ ex_primary ex_replica [ex_replica] c E). by left.
Defined.

(** A cluster of the Zalando operator is one the discovery module can work with,
    with the users whose secret has a password. *)
Lemma zalando_wf get_secret Format keys kind group op p c :
  (forall A (m : gmap string A), keys A m ≡ₚ (map_to_list m).*1) ->
  Zalando.postgresqlToCluster get_secret Format keys kind group (Some op) p = Ret c ->
  wf c /\ forall u, u ∈ Users c <-> is_Some (Zalando.PUsers p !! Username u) /\
    Zalando.user_of get_secret Format kind group op p (Username u) = Some u.
Proof.
  intros Hkeys [= <-].
  assert (Hnd : forall A (m : gmap string A), NoDup (keys A m)) by (intros A m; rewrite Hkeys; apply NoDup_fst_map_to_list).
  assert (Hname : forall user u, Zalando.user_of get_secret Format kind group op p user = Some u -> Username u = user).
  { intros user u. unfold Zalando.user_of. destruct (get_secret _ _) as [e|data]; [done|]. destruct (data !! "password"); [|done]. by intros [= <-]. }
  split; [split; cbn; [|apply Hnd]|].
  - generalize (Hnd _ (Zalando.PUsers p)). induction (keys _ (Zalando.PUsers p)) as [|k l IH]; intros Hk; [constructor|].
    apply NoDup_cons in Hk as [Hk Hl]. cbn. destruct (Zalando.user_of _ _ _ _ _ _ k) as [u|] eqn:E; [|by apply IH]. cbn. constructor; [|by apply IH].
    rewrite (Hname _ _ E), list_elem_of_fmap. intros (u' & -> & (k' & Hin & E')%list_elem_of_omap). apply Hk. by rewrite (Hname _ _ E').
  - intros u. cbn [Users]. rewrite list_elem_of_omap. split.
    + intros (k & Hin & E). rewrite (Hname _ _ E). split; [|done]. rewrite Hkeys in Hin. apply list_elem_of_fmap in Hin as ([k' v] & -> & Hin).
      apply elem_of_map_to_list in Hin. by exists v.
    + intros [[v Hv] E]. exists (Username u). split; [|done]. rewrite Hkeys. apply list_elem_of_fmap. exists (Username u, v). by rewrite elem_of_map_to_list.
Qed.

(** A discoverer whose ConfigMap could not be read has no operator configuration,
    and panics on the first cluster. *)
Lemma zalando_no_config get_secret Format keys kind group p : Zalando.postgresqlToCluster get_secret Format keys kind group None p = Panic.
Proof. done. Qed.

(** After the clean-up of a CloudNativePG discoverer, which does not wait for the
    informer, the next event of a watched cluster panics. *)
Lemma cnpg_event_after_cleanup get_labels get_secret d cluster ev T T' : Cnpg.Cleanup T = Ret T' ->
  namespaceMatches get_labels (Cnpg.CNamespace d) (Cnpg.Namespace cluster) = true ->
  Cnpg.handleClusterEvent get_labels get_secret d (Some cluster) ev T' = Panic.
Proof.
  unfold Cnpg.Cleanup. destruct (chans_closed T); [done|]. intros [= <-] Hm. unfold Cnpg.handleClusterEvent. rewrite Hm. by destruct ev.
Qed.
End DiscoverersTheorems.
