(* ===== verification/Gat.v ===== *)
(** * Gat: lib/gat/server.go, lib/gat/matchers, the small handlers of
      lib/gat/handlers and lib/gat/handlers/pgbouncer/module.go

    What happens to a client between its startup and a pool.  [Matchers] decide
    which routes apply; a handler turns a router into a router ([handle]);
    [Serve] composes those of the routes that match.  [Pgbouncer] is the handler
    that makes its pools from a pgbouncer.ini.  [accept] counts the clients of a
    listener.

    A [Client] is the part of fed.Conn that routing reads and writes, with a ghost
    [events]: whether its credentials were checked and who served it.  The answers
    of frontends.Authenticate (see Startup) and of a pool's Serve are parameters,
    as is what a password is made into. *)

From Stdlib Require Import Init.Byte Strings.Byte Strings.String.
From S2P Require Import Prelude.
From S2P Require Import Wire.
From S2P Require Import Packets.
From S2P Require Import Strutil.
From S2P Require Import Fed.
From S2P Require Import Perror.
From S2P Require Import Startup.

Local Open Scope go_scope.

(** net.Addr; a nil IP is []. *)
Inductive Addr :=
| TCPAddr (IP : list byte) (Port : Z) (Zone : gostring)
| IPAddr (IP : list byte) (Zone : gostring)
| UDPAddr (IP : list byte) (Port : Z) (Zone : gostring)
| UnixAddr (Name Net : gostring)
| OtherAddr.

Inductive action (Creds : Type) :=
| Checked (creds : option Creds) (result : option error)
| Served (pool : nat)
| Told (e : PgError).
Arguments Checked {Creds} creds result.
Arguments Served {Creds} pool.
Arguments Told {Creds} e.

Section Gat.
Context {Creds : Type}.

Record Client := mkClient {
  User : gostring;
  Database : gostring;
  InitialParameters : gmap gostring gostring;
  SSL : bool;
  LocalAddr : Addr;
  events : list (action Creds)
}.
Definition set_User (u : gostring) (c : Client) : Client :=
  mkClient u (Database c) (InitialParameters c) (SSL c) (LocalAddr c) (events c).
Definition set_Database (d : gostring) (c : Client) : Client :=
  mkClient (User c) d (InitialParameters c) (SSL c) (LocalAddr c) (events c).
Definition set_Parameter (k v : gostring) (c : Client) : Client :=
  mkClient (User c) (Database c) (<[k := v]> (InitialParameters c)) (SSL c) (LocalAddr c) (events c).
Definition happen (a : action Creds) (c : Client) : Client :=
  mkClient (User c) (Database c) (InitialParameters c) (SSL c) (LocalAddr c) (events c ++ [a]).

(** ** matchers *)

Inductive Matcher :=
| And (and : list Matcher)
| Or (or : list Matcher)
| Not (not : option Matcher)          (* nil without configuration *)
| MUser (user : gostring)
| MDatabase (database : gostring)
| StartupParameter (key value : gostring)
| MSSL (ssl : bool)
| LocalAddress (addr : Addr).

(** net.IP.Equal: an IPv4 address equals its form in IPv6. *)
Definition v4InV6Prefix : list byte := replicate 10 x00 ++ [xff; xff].
Definition IP_Equal (ip x : list byte) : bool :=
  if decide (length ip = length x) then bool_decide (ip = x)
  else if decide (length ip = 4 /\ length x = 16) then bool_decide (take 12 x = v4InV6Prefix /\ drop 12 x = ip)
  else if decide (length ip = 16 /\ length x = 4) then bool_decide (take 12 ip = v4InV6Prefix /\ drop 12 ip = x)
  else false.

Definition addr_matches (addr expected : Addr) : bool :=
  match addr, expected with
  | TCPAddr ip port zone, TCPAddr ip' port' zone' | UDPAddr ip port zone, UDPAddr ip' port' zone' =>
      bool_decide (port = port') && bool_decide (zone = zone') && (bool_decide (ip' = []) || IP_Equal ip ip')
  | IPAddr ip zone, IPAddr ip' zone' => bool_decide (zone = zone') && (bool_decide (ip' = []) || IP_Equal ip ip')
  | UnixAddr name net, UnixAddr name' net' => bool_decide (name = name') && bool_decide (net = net')
  | _, _ => false
  end.

Definition user_matches (user : gostring) (conn : Client) : outcome bool := Matches user (User conn).
Definition database_matches (database : gostring) (conn : Client) : outcome bool := Matches database (Database conn).
(** A parameter that is not there is the empty string. *)
Definition parameter_matches (key value : gostring) (conn : Client) : outcome bool :=
  Matches value (default [] (InitialParameters conn !! key)).
Definition ssl_matches (ssl : bool) (conn : Client) : outcome bool := Ret (eqb (SSL conn) ssl).

Fixpoint matches (m : Matcher) (conn : Client) : outcome bool :=
  match m with
  | And l => (fix all l := match l with [] => Ret true | m :: l => let! b := matches m conn in if b : bool then all l else Ret false end) l
  | Or l => (fix any l := match l with [] => Ret false | m :: l => let! b := matches m conn in if b : bool then Ret true else any l end) l
  | Not None => Panic
  | Not (Some m) => let! b := matches m conn in Ret (negb b)
  | MUser user => user_matches user conn
  | MDatabase database => database_matches database conn
  | StartupParameter key value => parameter_matches key value conn
  | MSSL ssl => ssl_matches ssl conn
  | LocalAddress expected => Ret (addr_matches (LocalAddr conn) expected)
  end.

(** ** handlers *)

Definition Router : Type := Client -> outcome (option error * Client).

(** frontends.Authenticate and Pool.Serve; credentials.FromString. *)
Context (auth : option Creds -> Client -> option error) (pool_Serve : nat -> Client -> option error).
Context (FromString : gostring -> gostring -> option Creds).

Definition Authenticate (creds : option Creds) (k : Router) : Router := fun conn =>
  let r := auth creds conn in
  let conn := happen (Checked creds r) conn in
  match r with Some e => Ret (Some e, conn) | None => k conn end.
Definition Pool_Serve (p : nat) : Router := fun conn => Ret (pool_Serve p conn, happen (Served p) conn).

Definition TrimPrefix (s prefix : gostring) : gostring := if HasPrefix s prefix then drop (length prefix) s else s.
Definition TrimSuffix (s suffix : gostring) : gostring :=
  if decide (drop (length s - length suffix) s = suffix) then take (length s - length suffix) s else s.

Definition rewrite (mode : string) (s value : gostring) : gostring :=
  if decide (mode = "strip_prefix"%string) then TrimPrefix s value
  else if decide (mode = "strip_suffix"%string) then TrimSuffix s value
  else value.

Definition quoted (before after : string) (v : gostring) : gostring :=
  list_byte_of_string before ++ [x22] ++ v ++ [x22] ++ list_byte_of_string after.

Definition not_supported (parameter : gostring) : error :=
  ErrPg (New FATAL FeatureNotSupported (quoted "Startup parameter " " is not supported" parameter) []).

Definition require_ssl (ssl : bool) (next : Router) : Router := fun conn =>
  if ssl then
    if negb (SSL conn) then Ret (Some (fatal InvalidPassword "SSL is required"), conn) else next conn
  else if SSL conn then Ret (Some (fatal InvalidPassword "SSL is not allowed"), conn)
  else next conn.

(** The parameters of the client, in the order of the range. *)
Context (order : gmap gostring gostring -> list gostring).

Definition allowed_startup_parameters (parameters : list gostring) (next : Router) : Router := fun conn =>
  match list_find (fun p => p ∉ parameters) (order (InitialParameters conn)) with
  | Some (_, p) => Ret (Some (not_supported p), conn)
  | None => next conn
  end.

Definition rewrite_user (mode : string) (user : gostring) (next : Router) : Router := fun conn =>
  next (set_User (rewrite mode (User conn) user) conn).
Definition rewrite_database (mode : string) (database : gostring) (next : Router) : Router := fun conn =>
  next (set_Database (rewrite mode (Database conn) database) conn).
Definition rewrite_parameter (key value : gostring) (next : Router) : Router := fun conn =>
  next (set_Parameter key value conn).
Definition rewrite_password (password : gostring) (next : Router) : Router := fun conn =>
  Authenticate (FromString (User conn) password) next conn.
Definition error_handler (message : gostring) (next : Router) : Router := fun conn =>
  Ret (Some (ErrPg (New FATAL InternalError message [])), conn).
(** handlers/pool *)
Definition pool_handler (p : nat) (next : Router) : Router := Authenticate None (Pool_Serve p).
(** handlers/discovery: [lookup] is Handle of Discovery. *)
Definition discovery_handler (lookup : gostring -> gostring -> option (option Creds * nat)) (next : Router) : Router := fun conn =>
  match lookup (User conn) (Database conn) with
  | None => next conn
  | Some (creds, p) => Authenticate creds (Pool_Serve p) conn
  end.

(** otel_tracing: a span around the rest, which is not part of the model. *)
Definition otel_handler (next : Router) : Router := fun conn => next conn.

Inductive Handler :=
| RequireSSL (ssl : bool)
| AllowedStartupParameters (parameters : list gostring)
| RewriteUser (mode : string) (user : gostring)
| RewriteDatabase (mode : string) (database : gostring)
| RewriteParameter (key value : gostring)
| RewritePassword (password : gostring)
| ErrorHandler (message : gostring)
| PoolHandler (p : nat)
| Discovery (lookup : gostring -> gostring -> option (option Creds * nat))
| OtelTracing.

Definition handle (h : Handler) : Router -> Router :=
  match h with
  | RequireSSL ssl => require_ssl ssl
  | AllowedStartupParameters l => allowed_startup_parameters l
  | RewriteUser mode u => rewrite_user mode u
  | RewriteDatabase mode d => rewrite_database mode d
  | RewriteParameter k v => rewrite_parameter k v
  | RewritePassword pw => rewrite_password pw
  | ErrorHandler m => error_handler m
  | PoolHandler p => pool_handler p
  | Discovery lookup => discovery_handler lookup
  | OtelTracing => otel_handler
  end.

(** ** Server *)

Record Route := mkRoute { match_ : option Matcher; handle_ : option Handler }.

Definition database_not_found : Router := fun conn =>
  Ret (None, happen (Told (New FATAL InvalidPassword (quoted "Database " " not found" (Database conn)) [])) conn).

(** [for j := len(T.routes) - 1; j >= 0; j--], on the reversed routes. *)
Fixpoint compose (reversed : list Route) (conn : Client) (composed : Router) : outcome Router :=
  match reversed with
  | [] => Ret composed
  | route :: reversed =>
      let! b := match match_ route with None => Ret true | Some m => matches m conn end in
      if negb b then compose reversed conn composed
      else match handle_ route with
      | None => compose reversed conn composed
      | Some h => compose reversed conn (handle h composed)
      end
  end.

Context (error_text : error -> gostring).

(** errors.Is(err, io.EOF): the connection was closed. *)
Definition Serve (routes : list Route) (conn : Client) : outcome Client :=
  let! composed := compose (rev routes) conn database_not_found in
  let! r := composed conn in
  match r.1 with
  | None => Ret r.2
  | Some EOF => Ret r.2
  | Some e => Ret (happen (Told (Wrap error_text e)) r.2)
  end.

(** Server.accept once frontends.Accept has returned: [key] of a client that
    cancels.  [count] is the result of listener.open.Add(1). *)
Definition too_many (MaxConnections count : Z) : bool := negb (bool_decide (MaxConnections = 0%Z)) && (MaxConnections <? count)%Z.
Definition TooManyConnections : gostring := list_byte_of_string "53300".
Definition serve_or_reject (routes : list Route) (MaxConnections count : Z) (conn : Client) : outcome Client :=
  if too_many MaxConnections count then
    Ret (happen (Told (New FATAL TooManyConnections (list_byte_of_string "Too many connections, sorry") [])) conn)
  else Serve routes conn.

(** ** Which handlers a client meets *)

(** What a matcher means. *)
Fixpoint sat (m : Matcher) (conn : Client) : Prop :=
  match m with
  | And l => fold_right (fun m P => sat m conn /\ P) True l
  | Or l => fold_right (fun m P => sat m conn \/ P) False l
  | Not None => False
  | Not (Some m) => ~ sat m conn
  | MUser user => glob user (User conn)
  | MDatabase database => glob database (Database conn)
  | StartupParameter key value => glob value (default [] (InitialParameters conn !! key))
  | MSSL ssl => SSL conn = ssl
  | LocalAddress expected => addr_matches (LocalAddr conn) expected = true
  end.

(** A matcher that is configured, in ASCII. *)
Fixpoint ascii_matcher (m : Matcher) : Prop :=
  match m with
  | And l | Or l => fold_right (fun m P => ascii_matcher m /\ P) True l
  | Not None => False
  | Not (Some m) => ascii_matcher m
  | MUser s | MDatabase s | StartupParameter _ s => Forall ascii s
  | _ => True
  end.
Record ascii_client (conn : Client) : Prop := {
  ascii_user : Forall ascii (User conn);
  ascii_database : Forall ascii (Database conn);
  ascii_parameters k v : InitialParameters conn !! k = Some v -> Forall ascii v
}.

Section Matcher_ind.
Context (P : Matcher -> Prop).
Hypothesis P_And : forall l, Forall P l -> P (And l).
Hypothesis P_Or : forall l, Forall P l -> P (Or l).
Hypothesis P_Not : forall m, (forall m', m = Some m' -> P m') -> P (Not m).
Hypothesis P_leaf : forall m, match m with And _ | Or _ | Not _ => False | _ => True end -> P m.

Fixpoint Matcher_nested (m : Matcher) : P m :=
  let all := fix all l : Forall P l := match l with [] => Forall_nil_2 P | m :: l => Forall_cons_2 P m l (Matcher_nested m) (all l) end in
  match m with
  | And l => P_And l (all l)
  | Or l => P_Or l (all l)
  | Not None => P_Not None (fun m' E => match E in _ = o return match o with None => True | Some _ => P m' end with eq_refl => I end)
  | Not (Some m) => P_Not (Some m) (fun m' E => eq_ind m P (Matcher_nested m) m' (f_equal (default m) E))
  | m => P_leaf m I
  end.
End Matcher_ind.

Lemma matches_sat m conn : ascii_matcher m -> ascii_client conn -> exists b, matches m conn = Ret b /\ (b = true <-> sat m conn).
Proof.
  intros Hm Hc. revert Hm. induction m as [l IH|l IH|m IH|m Hleaf] using Matcher_nested; intros Hm.
  - cbn [matches sat]. cbn in Hm. induction l as [|m l IHl]; [by exists true|]. cbn [fold_right] in *. destruct Hm as [Hm Hl].
    apply Forall_cons in IH as [IHm IHf]. destruct (IHm Hm) as ([|] & -> & Hb); cbn [obind].
    + destruct (IHl IHf Hl) as (b & -> & Hb'). exists b. split; [done|]. tauto.
    + exists false. split; [done|]. split; [done|]. intros [? _]. tauto.
  - cbn [matches sat]. cbn in Hm. induction l as [|m l IHl]; [exists false; by split|]. cbn [fold_right] in *. destruct Hm as [Hm Hl].
    apply Forall_cons in IH as [IHm IHf]. destruct (IHm Hm) as ([|] & -> & Hb); cbn [obind].
    + exists true. split; [done|]. tauto.
    + destruct (IHl IHf Hl) as (b & -> & Hb'). exists b. split; [done|]. rewrite Hb'. split; [by right|]. intros [Hs|?]; [by apply Hb in Hs|done].
  - destruct m as [m|]; [|done]. cbn [matches sat]. destruct (IH m eq_refl Hm) as (b & -> & Hb). exists (negb b). split; [done|].
    destruct b; cbn; split; try done; try tauto. intros _ Hs. by apply Hb in Hs.
  - destruct m as [l|l|m|user|database|key value|ssl|expected]; try done; cbn [matches sat] in *.
    + by apply Matches_total; [|apply Hc].
    + by apply Matches_total; [|apply Hc].
    + apply Matches_total; [done|]. destruct (InitialParameters conn !! key) eqn:E; cbn; [by eapply ascii_parameters|constructor].
    + exists (eqb (SSL conn) ssl). split; [done|]. apply eqb_true_iff.
    + by eexists.
Qed.

(** The handlers of the routes that match, in the order of the routes. *)
Inductive selects (conn : Client) : list Route -> list Handler -> Prop :=
| selects_nil : selects conn [] []
| selects_skip r routes hs m : match_ r = Some m -> ~ sat m conn -> selects conn routes hs -> selects conn (r :: routes) hs
| selects_none r routes hs : handle_ r = None -> selects conn routes hs -> selects conn (r :: routes) hs
| selects_take r h routes hs : (forall m, match_ r = Some m -> sat m conn) -> handle_ r = Some h ->
    selects conn routes hs -> selects conn (r :: routes) (h :: hs).

Fixpoint chain (hs : list Handler) (next : Router) : Router :=
  match hs with [] => next | h :: hs => handle h (chain hs next) end.

Lemma compose_app l l' conn r : compose (l ++ l') conn r = let! r := compose l conn r in compose l' conn r.
Proof.
  revert r. induction l as [|x l IH]; intros r; [done|]. cbn. destruct (match match_ x with None => _ | _ => _ end); cbn; [|done|done].
  destruct (negb a); [apply IH|]. destruct (handle_ x); apply IH.
Qed.

Lemma compose_selects routes conn r :
  ascii_client conn -> Forall (fun x => forall m, match_ x = Some m -> ascii_matcher m) routes ->
  exists hs, selects conn routes hs /\ compose (rev routes) conn r = Ret (chain hs r).
Proof.
  intros Hc Hr. induction Hr as [|x routes Hx Hr IH]; [exists []; split; [constructor|done]|].
  destruct IH as (hs & Hs & E). cbn [rev]. rewrite compose_app, E. cbn [obind compose].
  destruct (match_ x) as [m|] eqn:Em.
  - destruct (matches_sat m conn (Hx m eq_refl) Hc) as (b & -> & Hb). cbn. destruct b; cbn.
    + destruct (handle_ x) as [h|] eqn:Eh; [exists (h :: hs)|exists hs]; (split; [|done]).
      * eapply selects_take; [|done..]. intros m' Em'. rewrite Em in Em'. injection Em' as <-. by apply Hb.
      * by apply selects_none.
    + exists hs. split; [|done]. eapply selects_skip; [done| |done]. intros Hsat%Hb. done.
  - cbn. destruct (handle_ x) as [h|] eqn:Eh; [exists (h :: hs)|exists hs]; (split; [|done]).
    + eapply selects_take; [|done..]. intros m'. by rewrite Em.
    + by apply selects_none.
Qed.

(** ** Who is served *)

(** A pool serves a client only after its credentials were found good. *)
Definition guarded (l : list (action Creds)) : Prop :=
  forall i p, l !! i = Some (Served p) -> exists j c, j < i /\ l !! j = Some (Checked c None).

Lemma guarded_snoc l a : guarded l -> (forall p, a = Served p -> exists c, Checked c None ∈ l) -> guarded (l ++ [a]).
Proof.
  intros Hg Ha i p [Hi|[Hi Hp]]%lookup_app_Some.
  - destruct (Hg i p Hi) as (j & c & Hj & E). exists j, c. split; [done|]. by apply lookup_app_l_Some.
  - apply list_lookup_singleton_Some in Hp as [? ->]. destruct (Ha p eq_refl) as (c & [j Hj]%list_elem_of_lookup).
    exists j, c. split; [apply lookup_lt_Some in Hj; lia|]. by apply lookup_app_l_Some.
Qed.

Definition careful (r : Router) : Prop :=
  forall conn e conn', guarded (events conn) -> r conn = Ret (e, conn') -> guarded (events conn').

Lemma careful_serve creds p : careful (Authenticate creds (Pool_Serve p)).
Proof.
  intros conn e conn' Hg E. unfold Authenticate in E. destruct (auth creds conn); injection E as <- <-; cbn.
  - apply guarded_snoc; [done|]. by intros p'.
  - apply guarded_snoc; [apply guarded_snoc; [done|by intros p']|]. intros p' _. exists creds. set_solver.
Qed.

Lemma careful_handle h next : careful next -> careful (handle h next).
Proof.
  intros Hn conn e conn' Hg E. destruct h; cbn [handle] in E.
  - unfold require_ssl in E. repeat case_match; simplify_eq; eauto.
  - unfold allowed_startup_parameters in E. repeat case_match; simplify_eq; eauto.
  - exact (Hn (set_User _ conn) e conn' Hg E).
  - exact (Hn (set_Database _ conn) e conn' Hg E).
  - exact (Hn (set_Parameter _ _ conn) e conn' Hg E).
  - unfold rewrite_password, Authenticate in E. assert (Hg' : forall a, (forall p, a <> Served p) -> guarded (events (happen a conn))).
    { intros a Ha. apply guarded_snoc; [done|]. intros p ->. by destruct (Ha p). }
    destruct (auth _ conn); [injection E as <- <-; by apply Hg'|]. eapply Hn; [|done]. by apply Hg'.
  - by injection E as <- <-.
  - by eapply careful_serve.
  - unfold discovery_handler in E. destruct (lookup _ _) as [[creds p]|]; [by eapply careful_serve|eauto].
  - by eapply Hn.
Qed.

Lemma careful_chain hs : careful (chain hs database_not_found).
Proof.
  induction hs as [|h hs IH]; [|by apply careful_handle]. intros conn e conn' Hg [= <- <-]. apply guarded_snoc; [done|]. by intros p.
Qed.

(** Handlers that neither check nor serve. *)
Definition rewriting (h : Handler) : Prop :=
  match h with RewritePassword _ | PoolHandler _ | Discovery _ => False | _ => True end.
Definition only_told (c c' : Client) : Prop := exists l, events c' = events c ++ map Told l.

Lemma chain_no_ssl pre post conn :
  Forall rewriting pre -> SSL conn = false ->
  exists e conn', chain (pre ++ RequireSSL true :: post) database_not_found conn = Ret (Some e, conn') /\ events conn' = events conn.
Proof.
  intros Hpre. revert conn. induction Hpre as [|h pre Hh Hpre IH]; intros conn Hs; cbn [app chain].
  - cbn. unfold require_ssl. rewrite Hs. cbn. by do 2 eexists.
  - destruct h; try done; cbn [handle].
    + unfold require_ssl. rewrite Hs. destruct ssl; cbn; [by do 2 eexists|by apply IH].
    + unfold allowed_startup_parameters. destruct (list_find _ _) as [[? ?]|]; [by do 2 eexists|by apply IH].
    + apply (IH (set_User _ conn)). done.
    + apply (IH (set_Database _ conn)). done.
    + apply (IH (set_Parameter _ _ conn)). done.
    + by do 2 eexists.
    + by apply IH.
Qed.
End Gat.

(** ** Clients of a listener at the same time *)
Module Listening.

(** A listener, and the calls of Server.accept that have counted their client:
    those it serves and those it turns away. *)
Record Listener := mkListener { MaxConnections : Z; open : Z; serving : list nat; rejecting : list nat }.

Inductive step : Listener -> Listener -> Prop :=
| enter T id :
    id ∉ serving T ++ rejecting T ->
    let count := (open T + 1)%Z in
    step T (if too_many (MaxConnections T) count
            then mkListener (MaxConnections T) count (serving T) (id :: rejecting T)
            else mkListener (MaxConnections T) count (id :: serving T) (rejecting T))
| leave T id :
    id ∈ serving T ++ rejecting T ->
    step T (mkListener (MaxConnections T) (open T - 1) (filter (.≠ id) (serving T)) (filter (.≠ id) (rejecting T))).

Definition init (max : Z) (T : Listener) : Prop := T = mkListener max 0 [] [].

Record listener_ok (max : Z) (T : Listener) : Prop := {
  max_same : MaxConnections T = max;
  open_exact : open T = Z.of_nat (length (serving T) + length (rejecting T));
  ids_once : NoDup (serving T ++ rejecting T);
  serving_bound : max <> 0%Z -> (Z.of_nat (length (serving T)) <= Z.max 0 max)%Z
}.

Lemma filter_ne_length (l : list nat) id : NoDup l -> length (filter (.≠ id) l) = if decide (id ∈ l) then length l - 1 else length l.
Proof.
  induction l as [|a l IH]; intros Hnd; [done|]. apply NoDup_cons in Hnd as [Ha Hnd]. rewrite filter_cons.
  destruct (decide (a ≠ id)) as [Hne|Heq]; cbn [length].
  - rewrite IH by done. destruct (decide (id ∈ l)) as [Hin|].
    + rewrite decide_True by (by right). apply list_elem_of_lookup in Hin as [i Hi]. apply lookup_lt_Some in Hi. lia.
    + rewrite decide_False; [done|]. intros [->|?]%elem_of_cons; done.
  - apply dec_stable in Heq as ->. rewrite decide_True by left. rewrite IH, decide_False by done. lia.
Qed.

Lemma listener_invariant max T : reachable (init max) step T -> listener_ok max T.
Proof.
  apply invariant_reachable.
  - intros ? ->. constructor; cbn; [done|done|constructor|lia].
  - intros T1 T2 _ [Hm Ho Hn Hb] Hs. destruct Hs as [T1 id Hid|T1 id Hid].
    + subst count max. unfold too_many. destruct (bool_decide_reflect (MaxConnections T1 = 0%Z)); cbn.
      * constructor; cbn; [done|lia|by constructor|done].
      * destruct (Z.ltb_spec (MaxConnections T1) (open T1 + 1)); constructor; cbn; try done; try lia.
        -- apply NoDup_app in Hn as (? & Hd & ?). rewrite elem_of_app in Hid. apply NoDup_app. split_and!; [done| |constructor; tauto].
           intros x Hx [->|?]%elem_of_cons; [tauto|by eapply Hd].
        -- by constructor.
    + apply NoDup_app in Hn as (Hn1 & Hd & Hn2). constructor; cbn.
      * done.
      * rewrite !filter_ne_length by done. rewrite Ho.
        assert (Hl : forall l : list nat, id ∈ l -> length l > 0) by (intros [|]; cbn; [by intros ?%elem_of_nil|lia]).
        apply elem_of_app in Hid as [Hid|Hid]; specialize (Hl _ Hid); repeat destruct (decide _); try done; try lia.
        -- exfalso. by eapply Hd.
        -- exfalso. by eapply Hd.
      * apply NoDup_app. split_and!; [by apply NoDup_filter| |by apply NoDup_filter].
        intros x [_ Hx]%list_elem_of_filter [_ Hx']%list_elem_of_filter. by eapply Hd.
      * intros H0. specialize (Hb H0). pose proof (length_filter (.≠ id) (serving T1)). lia.
Qed.
End Listening.

(** ** handlers/pgbouncer/module.go *)
Module Pgbouncer.
Section Pgbouncer.
Context {Creds : Type}.

(** The parts of the configuration that the module reads. *)
Record DatabaseConfig := mkDatabaseConfig {
  DBName : gostring;
  Host : gostring;
  Port : Z;
  AuthUser : gostring;
  Password : gostring;
  PoolMode : gostring;
  MinPoolSize : Z;
  MaxDBConnections : Z;
  StartupParameters : gmap gostring gostring
}.
Definition no_database : DatabaseConfig := mkDatabaseConfig [] [] 0 [] [] [] 0 0 ∅.

Record Config := mkConfig {
  Databases : gmap gostring DatabaseConfig;
  UserPoolMode : gmap gostring gostring;         (* Users[user].PoolMode *)
  AuthFile : gmap gostring gostring;
  AuthQuery : gostring;
  PgAuthUser : gostring;
  PgPoolMode : gostring;
  PgMinPoolSize : Z;
  PgMaxDBConnections : Z;
  ServerTLSSSLMode : SSLMode;
  ClientTLSSSLMode : SSLMode;
  TrackExtraParameters : list gostring;
  IgnoreStartupParameters : list gostring
}.

(** The pool is a pointer, nil to begin with. *)
Record poolAndCredentials := mkPC { pool : option nat; creds : option Creds }.
Abbreviation pools := (gmap (gostring * gostring) poolAndCredentials).

Record Recipe := mkRecipe {
  Address : gostring;
  RUsername : gostring;
  RCredentials : option Creds;
  RDatabase : gostring;
  RSSLMode : SSLMode;
  RParameters : gmap gostring gostring;
  MinConnections : Z;
  MaxConnections : Z
}.

Context (config : Config) (FromString : gostring -> gostring -> option Creds).
(** Methods of a pool: AddRecipe; the auth query over Serve; strconv.Itoa. *)
Context (AddRecipe : nat -> Recipe -> unit) (auth_query : nat -> gostring -> error + gostring * option gostring).
Context (Itoa : Z -> gostring).

Definition JoinHostPort (host port : gostring) : gostring :=
  if existsb (fun b => bool_decide (b = x3a)) host then [x5b] ++ host ++ [x5d; x3a] ++ port else host ++ [x3a] ++ port.

Definition address_of (db : DatabaseConfig) : gostring :=
  if bool_decide (Host db = []) || HasPrefix (Host db) [x2f] then
    let dir := if HasPrefix (Host db) [x2f] then Host db else Host db ++ [x2f] in
    let port := if decide (Port db = 0%Z) then 5432%Z else Port db in
    dir ++ list_byte_of_string ".s.PGSQL." ++ Itoa port
  else if decide (Port db = 0%Z) then JoinHostPort (Host db) (list_byte_of_string "5432")
  else JoinHostPort (Host db) (Itoa (Port db)).

Definition recipe_for (user database : gostring) (db : DatabaseConfig) (creds : option Creds) : Recipe :=
  let serverDatabase := if decide (DBName db = []) then database else DBName db in
  let serverCreds := if decide (Password db <> []) then FromString user (Password db) else creds in
  mkRecipe (address_of db) user serverCreds serverDatabase (ServerTLSSSLMode config) (StartupParameters db)
    (if decide (MinPoolSize db = 0%Z) then PgMinPoolSize config else MinPoolSize db)
    (if decide (MaxDBConnections db = 0%Z) then PgMaxDBConnections config else MaxDBConnections db).

Definition pool_mode (user : gostring) (db : DatabaseConfig) : gostring :=
  if decide (PoolMode db = []) then
    let mode := default [] (UserPoolMode config !! user) in
    if decide (mode = []) then PgPoolMode config else mode
  else PoolMode db.
Definition known_mode (mode : gostring) : bool := bool_decide (mode = lit "session") || bool_decide (mode = lit "transaction").

(** [lookup] is T.lookup, which comes back here. *)
Definition getPassword (lookup : gostring -> gostring -> pools -> outcome (option poolAndCredentials * pools))
    (user database : gostring) (T : pools) : outcome (option gostring * pools) :=
  match AuthFile config !! user with
  | Some password => Ret (Some password, T)
  | None =>
      if decide (AuthQuery config = []) then Ret (None, T)
      else
        let authUser := AuthUser (default no_database (Databases config !! database)) in
        let authUser := if decide (authUser = []) then PgAuthUser config else authUser in
        if decide (authUser = []) then Ret (None, T)
        else
          let! r := lookup authUser database T in
          match r.1 with
          | None => Ret (None, r.2)
          | Some authPool =>
              match pool authPool with
              | None => Panic
              | Some p =>
                  match auth_query p user with
                  | inl _ => Ret (None, r.2)
                  | inr (name, password) => if decide (name <> user) then Ret (None, r.2) else Ret (Some (default [] password), r.2)
                  end
              end
          end
  end.

(** A database, or the wildcard. *)
Definition database_config (database : gostring) : option DatabaseConfig :=
  match Databases config !! database with Some db => Some db | None => Databases config !! [x2a] end.

(** The configuration of the pool that the code computes here is not used: no
    pool is made, [p.pool] stays nil. *)
Definition tryCreate (lookup : gostring -> gostring -> pools -> outcome (option poolAndCredentials * pools))
    (user database : gostring) (T : pools) : outcome (option poolAndCredentials * pools) :=
  match database_config database with
  | None => Ret (None, T)
  | Some db =>
      let! r := getPassword lookup user database T in
      let T := r.2 in
      match r.1 with
      | None => Ret (None, T)
      | Some password =>
          let p := mkPC None (FromString user password) in
          if negb (known_mode (pool_mode user db)) then Ret (None, T)
          else
            let T := <[(user, database) := p]> T in
            match pool p with
            | None => Panic
            | Some i => let _ := AddRecipe i (recipe_for user database db (creds p)) in Ret (Some p, T)
            end
      end
  end.

Fixpoint lookup (fuel : nat) (user database : gostring) (T : pools) : outcome (option poolAndCredentials * pools) :=
  match T !! (user, database) with
  | Some p => Ret (Some p, T)
  | None =>
      match fuel with
      | O => Diverge
      | S fuel => tryCreate (lookup fuel) user database T
      end
  end.

Definition tracked : list gostring :=
  lit <$> ["client_encoding"; "datestyle"; "timezone"; "standard_conforming_strings"; "application_name"]%string.

(** What Handle decides: an error, pass on, or a pool that checks and serves. *)
Inductive verdict := Refuse (e : error) | Next | ServeBy (p : poolAndCredentials).

Definition Handle (order : gmap gostring gostring -> list gostring) (fuel : nat) (conn : @Client Creds) (T : pools) : outcome (verdict * pools) :=
  if IsRequired (ClientTLSSSLMode config) && negb (SSL conn) then Ret (Refuse (fatal InvalidPassword "SSL is required"), T)
  else
    match list_find (fun k => k ∉ tracked ++ TrackExtraParameters config ++ IgnoreStartupParameters config) (order (InitialParameters conn)) with
    | Some (_, k) => Ret (Refuse (not_supported k), T)
    | None =>
        let! r := lookup fuel (User conn) (Database conn) T in
        match r.1 with
        | None => Ret (Next, r.2)
        | Some p => Ret (ServeBy p, r.2)
        end
    end.

(** *** No pool is ever made *)

Lemma lookup_nothing fuel user database T r :
  T = ∅ -> lookup fuel user database T = Ret r -> r = (None, ∅).
Proof.
  revert user database T r. induction fuel as [|fuel IH]; intros user database T r -> E; cbn [lookup] in E; rewrite lookup_empty in E; [done|].
  unfold tryCreate in E. destruct (database_config database) as [db|]; [|by injection E as <-].
  apply obind_Ret in E as ([pw T1] & E1 & E). cbn in E.
  assert (Hpw : T1 = ∅).
  { unfold getPassword in E1. destruct (AuthFile config !! user); [by injection E1|]. destruct (decide _); [by injection E1|].
    cbv zeta in E1. repeat case_decide; try (by injection E1).
    all: apply obind_Ret in E1 as (r1 & E2 & E1); apply (IH _ _ _ _ eq_refl) in E2 as ->; cbn in E1; by injection E1. }
  subst T1. destruct pw as [pw|]; [|by injection E as <-]. destruct (negb _); [by injection E as <-|done].
Qed.
End Pgbouncer.
End Pgbouncer.

Module GatTheorems.
Section Routing.
Context {Creds : Type} (auth : option Creds -> @Client Creds -> option error) (pool_Serve : nat -> @Client Creds -> option error).
Context (FromString : gostring -> gostring -> option Creds) (order : gmap gostring gostring -> list gostring).
Context (error_text : error -> gostring).

Lemma selects_det (conn : @Client Creds) routes hs hs' : selects conn routes hs -> selects conn routes hs' -> hs = hs'.
Proof.
  intros Hs. revert hs'. induction Hs as [|r routes hs m Em Hn Hs IH|r routes hs Eh Hs IH|r h routes hs Hm Eh Hs IH]; intros hs' Hs'; inversion Hs'; subst; try by auto.
  - exfalso. eauto.
  - congruence.
  - exfalso. eauto.
  - congruence.
  - replace h0 with h in * by congruence. f_equal. auto.
Qed.

(** The routers always return. *)
Lemma chain_total hs (conn : @Client Creds) :
  exists r, chain auth pool_Serve FromString order hs database_not_found conn = Ret r.
Proof.
  revert conn. induction hs as [|h hs IH]; intros conn; [by eexists|]. cbn [chain].
  destruct h; cbn [handle]; unfold require_ssl, allowed_startup_parameters, rewrite_user, rewrite_database, rewrite_parameter,
    rewrite_password, error_handler, pool_handler, discovery_handler, otel_handler, Authenticate, Pool_Serve; repeat case_match; by eauto.
Qed.

(** What Serve does with the result of the routers. *)
Definition finish (r : option error * @Client Creds) : @Client Creds :=
  match r.1 with None | Some EOF => r.2 | Some e => happen (Told (Wrap error_text e)) r.2 end.

Lemma Serve_chain routes (conn : @Client Creds) :
  ascii_client conn -> Forall (fun x => forall m, match_ x = Some m -> ascii_matcher m) routes ->
  exists hs r, selects conn routes hs /\ chain auth pool_Serve FromString order hs database_not_found conn = Ret r /\
    Serve auth pool_Serve FromString order error_text routes conn = Ret (finish r).
Proof.
  intros Hc Hr. destruct (compose_selects auth pool_Serve FromString order routes conn database_not_found Hc Hr) as (hs & Hs & E).
  destruct (chain_total hs conn) as [r Er]. exists hs, r. split_and!; [done..|]. unfold Serve. rewrite E. cbn [obind]. rewrite Er. cbn.
  unfold finish. by destruct (r.1) as [[]|].
Qed.


End Routing.

(** However clients come and go, a listener with a limit never serves more
    clients at a time than the limit, and its counter is the number of clients
    that are served or being turned away. *)
Theorem max_connections_respected (max : Z) (T : Listening.Listener) :
  (0 < max)%Z -> reachable (Listening.init max) Listening.step T ->
  (Z.of_nat (length (Listening.serving T)) <= max)%Z /\
  Listening.open T = Z.of_nat (length (Listening.serving T) + length (Listening.rejecting T)).
Proof. intros Hm HT. apply Listening.listener_invariant in HT as [_ Ho _ Hb]. specialize (Hb ltac:(lia)). split; [lia|done]. Qed.

Section Pgb.
Import Pgbouncer.
Context {Creds : Type} (config : Config) (FromString : gostring -> gostring -> option Creds).
Context (AddRecipe : nat -> @Recipe Creds -> unit) (auth_query : nat -> gostring -> error + gostring * option gostring).
Context (Itoa : Z -> gostring) (order : gmap gostring gostring -> list gostring).

(** The pgbouncer handler has no pool to serve with: it never makes one, so a
    client is never served, and the first client whose password is in the auth
    file and whose database has a session or transaction mode makes it panic. *)
Theorem pgbouncer_never_serves (fuel : nat) (conn : @Client Creds) :
  (forall v T, Handle config FromString AddRecipe auth_query Itoa order fuel conn ∅ = Ret (v, T) -> forall p, v <> ServeBy p) /\
  (forall db password,
    IsRequired (ClientTLSSSLMode config) && negb (SSL conn) = false -> order (InitialParameters conn) = [] ->
    Databases config !! Database conn = Some db -> AuthFile config !! User conn = Some password ->
    known_mode (pool_mode config (User conn) db) = true ->
    Handle config FromString AddRecipe auth_query Itoa order (S fuel) conn ∅ = Panic).
Proof.
  split.
  - intros v T. unfold Handle. destruct (_ && _); [by intros [= <- _] p|]. destruct (list_find _ _) as [[? ?]|]; [by intros [= <- _] p|].
    intros (r & Er & E)%obind_Ret. apply lookup_nothing in Er as ->; [|done]. by injection E as <- _.
  - intros db password Hssl Ho Hdb Hpw Hm. unfold Handle. rewrite Hssl, Ho. cbn [list_find]. cbn [lookup]. rewrite lookup_empty.
    unfold tryCreate, database_config, getPassword. rewrite Hdb, Hpw. cbn. by rewrite Hm.
Qed.

(** The user of the auth query needs a password itself: if it is not in the auth
    file, looking it up never ends. *)
Theorem pgbouncer_auth_user_loops (fuel : nat) (database : gostring) (db : DatabaseConfig) :
  Databases config !! database = Some db -> AuthUser db <> [] -> AuthQuery config <> [] -> AuthFile config !! AuthUser db = None ->
  lookup config FromString AddRecipe auth_query Itoa fuel (AuthUser db) database ∅ = Diverge.
Proof.
  intros Hdb Hu Hq Hf. induction fuel as [|fuel IH]; cbn [lookup]; rewrite lookup_empty; [done|].
  unfold tryCreate, database_config, getPassword. rewrite Hdb, Hf. cbn. rewrite decide_False by done. rewrite !(decide_False (P := AuthUser db = [])) by done.
  by rewrite IH.
Qed.
End Pgb.

(** *** Examples *)

Definition ex_client : @Client nat := mkClient (lit "app") (lit "db") ∅ false OtherAddr [].
(** Clients of db must use TLS; the rest go to a pool. *)
Definition ex_routes : list (@Route nat) :=
  [mkRoute (Some (MUser (lit "b*"))) (Some (ErrorHandler (lit "no")));
   mkRoute (Some (And [MDatabase (lit "db"); Not (Some (MUser (lit "admin")))])) (Some (RequireSSL true));
   mkRoute None (Some (PoolHandler 0))].

Lemma ex_client_ascii : ascii_client ex_client.
Proof.
  constructor; cbn; [by repeat (constructor; [done|])..|]. intros k v. by rewrite lookup_empty.
Qed.
Lemma ex_routes_ascii : Forall (fun x => forall m, match_ x = Some m -> ascii_matcher m) ex_routes.
Proof.
  repeat (apply Forall_cons; split; [intros m Em; cbn in Em; try discriminate Em; injection Em as <-; cbn; split_and?; repeat (constructor; [done|]); try constructor|]).
  constructor.
Qed.



Lemma max_connections_respected_witness :
  (Z.of_nat (length (Listening.serving (Listening.mkListener 1 2 [7%nat] [8%nat]))) <= 1)%Z /\
  Listening.open (Listening.mkListener 1 2 [7%nat] [8%nat]) = Z.of_nat (1 + 1).
Proof.
  apply (max_connections_respected 1 (Listening.mkListener 1 2 [7%nat] [8%nat])); [lia|].
  eapply reachable_step; [eapply reachable_step; [by apply reachable_init|]|].
  - apply (Listening.enter (Listening.mkListener 1 0 [] []) 7%nat). by intros ?%elem_of_nil.
  - apply (Listening.enter (Listening.mkListener 1 1 [7%nat] []) 8%nat). by intros ?%list_elem_of_singleton.
Defined.

Definition ex_pgbouncer : Pgbouncer.Config :=
  Pgbouncer.mkConfig {[lit "db" := Pgbouncer.no_database]} ∅ {[lit "app" := lit "pw"]} [] [] (lit "transaction") 0 0 "disable"%string "disable"%string [] [].

Lemma pgbouncer_never_serves_witness :
  Pgbouncer.Handle ex_pgbouncer (fun _ _ => Some 0) (fun _ _ => tt) (fun _ _ => inl EOF) (fun _ => []) (fun m => (map_to_list m).*1) 1 ex_client ∅ = Panic.
Proof.
  apply (proj2 (pgbouncer_never_serves ex_pgbouncer (fun _ _ => Some 0) (fun _ _ => tt) (fun _ _ => inl EOF) (fun _ => []) (fun m => (map_to_list m).*1)
    0 ex_client) Pgbouncer.no_database (lit "pw")); vm_compute; reflexivity.
Defined.
End GatTheorems.
