(* ===== verification/PgConfig.v ===== *)
(** * PgConfig: handlers/pgbouncer/config.go and authfile.go

    The configuration of the pgbouncer handler is one Go struct that ini.Unmarshal
    fills.  Its type is [Config], field by field with the ini tags, and its
    defaults are [Default].  Load reads a file with its inclusions into a copy of
    the defaults; Listen says which listeners the configuration asks for.

    [float] are the float64 constants; [files] is os.ReadFile. *)

From Stdlib Require Import Init.Byte Strings.Byte Strings.String ZArith.
From S2P Require Import Prelude.
From S2P Require Import Wire.
From S2P Require Import Packets.
From S2P Require Import Strutil.
From S2P Require Import Encodings.
From S2P Require Import Fed.
From S2P Require Import Startup.
From S2P Require Import Credentials.
From S2P Require Import Ini.
From S2P Require Import IniDoc.
From S2P Require Import Gat.

Local Open Scope Z_scope.
Local Open Scope go_scope.

(** ** The types *)

(** The two types with a method UnmarshalINI. *)
Definition CIString : typ := TCustom 0.
Definition AuthFile : typ := TCustom 1.

Definition PgBouncer_fields : list (gostring * typ) :=
  [(lit "logfile", TString); (lit "pidfile", TString); (lit "listen_addr", TString); (lit "listen_port", TInt 64);
   (lit "unix_socket_dir", TString); (lit "unix_socket_mode", TString); (lit "unix_socket_group", TString);
   (lit "user", TString); (lit "pool_mode", TString); (lit "max_client_conn", TInt 64);
   (lit "default_pool_size", TInt 64); (lit "min_pool_size", TInt 64); (lit "reserve_pool_size", TInt 64);
   (lit "reserve_pool_timeout", TFloat); (lit "max_db_connections", TInt 64); (lit "max_user_connections", TInt 64);
   (lit "server_round_robin", TInt 64); (lit "track_extra_parameters", TSlice CIString);
   (lit "ignore_startup_parameters", TSlice CIString); (lit "peer_id", TInt 64); (lit "disable_pqexec", TInt 64);
   (lit "application_name_add_host", TInt 64); (lit "conffile", TString); (lit "service_name", TString);
   (lit "stats_period", TInt 64); (lit "auth_type", TString); (lit "auth_hba_file", TString);
   (lit "auth_file", AuthFile); (lit "auth_user", TString); (lit "auth_query", TString); (lit "auth_dbname", TString);
   (lit "syslog", TString); (lit "syslog_ident", TString); (lit "syslog_facility", TString);
   (lit "log_connections", TInt 64); (lit "log_disconnections", TInt 64); (lit "log_pooler_errors", TInt 64);
   (lit "log_stats", TInt 64); (lit "verbose", TInt 64); (lit "auth_users", TSlice TString);
   (lit "stats_users", TSlice TString); (lit "server_reset_query", TString);
   (lit "server_reset_query_always", TInt 64); (lit "server_reset_query_timeout", TFloat);
   (lit "server_check_delay", TFloat); (lit "server_check_query", TString); (lit "server_fast_close", TInt 64);
   (lit "server_lifetime", TFloat); (lit "server_idle_timeout", TFloat); (lit "server_connect_timeout", TFloat);
   (lit "server_login_retry", TFloat); (lit "client_login_timeout", TFloat); (lit "autodb_idle_timeout", TFloat);
   (lit "dns_max_ttl", TFloat); (lit "dns_nxdomain_ttl", TFloat); (lit "dns_zone_check_period", TFloat);
   (lit "resolv.conf", TString); (lit "client_tls_sslmode", TString); (lit "client_tls_key_file", TString);
   (lit "client_tls_cert_file", TString); (lit "client_tls_ca_file", TString);
   (lit "client_tls_protocols", TSlice TString); (lit "client_tls_ciphers", TSlice TString);
   (lit "client_tls_ecdhcurve", TString); (lit "client_tls_dheparams", TString); (lit "server_tls_sslmode", TString);
   (lit "server_tls_ca_file", TString); (lit "server_tls_key_file", TString); (lit "server_tls_cert_file", TString);
   (lit "server_tls_protocols", TSlice TString); (lit "server_tls_ciphers", TSlice TString);
   (lit "query_timeout", TFloat); (lit "query_wait_timeout", TFloat); (lit "cancel_wait_timeout", TFloat);
   (lit "client_idle_timeout", TFloat); (lit "idle_transaction_timeout", TFloat); (lit "suspend_timeout", TFloat);
   (lit "pkt_buf", TInt 64); (lit "max_packet_size", TInt 64); (lit "listen_backlog", TInt 64);
   (lit "sbuf_loopcnt", TInt 64); (lit "so_reuseport", TInt 64); (lit "tcp_defer_accept", TInt 64);
   (lit "tcp_socket_buffer", TInt 64); (lit "tcp_keepalive", TInt 64); (lit "tcp_keepidle", TInt 64);
   (lit "tcp_keepintvl", TInt 64); (lit "tcp_user_timeout", TInt 64)].

Definition Database_fields : list (gostring * typ) :=
  [(lit "dbname", TString); (lit "host", TString); (lit "port", TInt 64); (lit "user", TString);
   (lit "password", TString); (lit "auth_user", TString); (lit "pool_size", TInt 64); (lit "min_pool_size", TInt 64);
   (lit "reserve_pool", TInt 64); (lit "connect_query", TString); (lit "pool_mode", TString);
   (lit "max_db_connections", TInt 64); (lit "auth_dbname", TString); (lit "*", TMap CIString TString)].

Definition User_fields : list (gostring * typ) :=
  [(lit "pool_mode", TString); (lit "max_user_connections", TInt 64)].

Definition Peer_fields : list (gostring * typ) :=
  [(lit "host", TString); (lit "port", TInt 64); (lit "pool_size", TInt 64)].

Definition PgBouncer : typ := TStruct PgBouncer_fields.

Definition Config_fields : list (gostring * typ) :=
  [(lit "pgbouncer", PgBouncer); (lit "databases", TMap TString (TStruct Database_fields));
   (lit "users", TMap TString (TStruct User_fields)); (lit "peers", TMap TString (TStruct Peer_fields))].
Definition Config : typ := TStruct Config_fields.

(** Their values: a CIString, and an AuthFile, nil or not. *)
Inductive custom := CI (value : gostring) | Auth (users : option (gmap gostring gostring)).

Definition zero_custom (i : nat) : custom := match i with O => CI [] | _ => Auth None end.

Section Config.
Context {F : Type} (float : Z -> F) (ParseFloat : gostring -> option F).
Context (unicode_lower : gostring -> gostring) (Unquote : gostring -> option gostring).
Context (files : gostring -> error + gostring).

(** CIString.UnmarshalINI and AuthFile.UnmarshalINI *)
Definition CIString_UnmarshalINI (b : gostring) : custom := CI (ToLower unicode_lower b).

Definition AuthFile_UnmarshalINI (path : gostring) (u : custom) : outcome (error + custom) :=
  if decide (path = []) then Ret (inr u)
  else match files path with
       | inl e => Ret (inl e)
       | inr file => rmap (fun m => Auth (Some m)) (userlist_Unmarshal Unquote file)
       end.

Definition UnmarshalINI (i : nat) (value : gostring) (u : custom) : outcome (error + custom) :=
  match i with O => Ret (inr (CIString_UnmarshalINI value)) | _ => AuthFile_UnmarshalINI value u end.

(** The keys of the maps are strings and CIStrings. *)
Definition same (a b : val F custom) : bool :=
  match a, b with
  | VString s, VString s' => bool_decide (s = s')
  | VCustom _ (CI s), VCustom _ (CI s') => bool_decide (s = s')
  | _, _ => false
  end.

(** ** The defaults *)
Definition str (s : string) : val F custom := VString (lit s).
Definition ci (s : string) : val F custom := VCustom 0 (CI (MakeCIString unicode_lower (lit s))).

Definition defaults : list (gostring * val F custom) :=
  [(lit "listen_port", VInt 6432); (lit "unix_socket_dir", str "/tmp"); (lit "unix_socket_mode", str "0777");
   (lit "pool_mode", str "session"); (lit "max_client_conn", VInt 100); (lit "default_pool_size", VInt 20);
   (lit "reserve_pool_timeout", VFloat (float 5)); (lit "track_extra_parameters", VSlice [ci "IntervalStyle"]);
   (lit "service_name", str "pgbouncer"); (lit "stats_period", VInt 60);
   (lit "auth_query", str "SELECT usename, passwd FROM pg_shadow WHERE usename=$1");
   (lit "syslog_ident", str "pgbouncer"); (lit "syslog_facility", str "daemon"); (lit "log_connections", VInt 1);
   (lit "log_disconnections", VInt 1); (lit "log_pooler_errors", VInt 1); (lit "log_stats", VInt 1);
   (lit "server_reset_query", str "DISCARD ALL"); (lit "server_reset_query_timeout", VFloat (float 15));
   (lit "server_check_delay", VFloat (float 30)); (lit "server_check_query", str "select 1");
   (lit "server_lifetime", VFloat (float 3600)); (lit "server_idle_timeout", VFloat (float 600));
   (lit "server_connect_timeout", VFloat (float 15)); (lit "server_login_retry", VFloat (float 15));
   (lit "client_login_timeout", VFloat (float 60)); (lit "autodb_idle_timeout", VFloat (float 3600));
   (lit "dns_max_ttl", VFloat (float 15)); (lit "dns_nxdomain_ttl", VFloat (float 15));
   (lit "client_tls_sslmode", str "disable"); (lit "client_tls_protocols", VSlice [str "secure"]);
   (lit "client_tls_ciphers", VSlice [str "fast"]); (lit "client_tls_ecdhcurve", str "auto");
   (lit "server_tls_sslmode", str "prefer"); (lit "server_tls_protocols", VSlice [str "secure"]);
   (lit "server_tls_ciphers", VSlice [str "fast"]); (lit "query_wait_timeout", VFloat (float 120));
   (lit "cancel_wait_timeout", VFloat (float 10)); (lit "suspend_timeout", VFloat (float 10));
   (lit "pkt_buf", VInt 4096); (lit "max_packet_size", VInt 2147483647); (lit "listen_backlog", VInt 128);
   (lit "sbuf_loopcnt", VInt 5); (lit "tcp_defer_accept", VInt 1); (lit "tcp_keepalive", VInt 1)].

(** A field that is not named has its zero value. *)
Definition literal (fs : list (gostring * typ)) (given : list (gostring * val F custom)) : val F custom :=
  VStruct ((fun f => match list_find (fun g => g.1 = f.1) given with
                     | Some (_, g) => g.2
                     | None => zero_val (float 0) zero_custom f.2
                     end) <$> fs).

Definition Default : val F custom := literal Config_fields [(lit "pgbouncer", literal PgBouncer_fields defaults)].

(** ** Load; [fuel] bounds the depth of the inclusions *)
Definition Load (fuel : nat) (config : gostring) : outcome (error + val F custom) :=
  rbind (ReadFile files fuel config) (fun conf => Unmarshal (float 0) ParseFloat zero_custom UnmarshalINI same Config conf Default).

(** ** Listen *)

(** The SSL of a listener: the files of its key pair. *)
Record ListenerConfig := mkListenerConfig { Address : gostring; SSL : option (gostring * gostring); MaxConnections : Z }.

(** T.PgBouncer.f, by its tag. *)
Definition pgbouncer (tag : gostring) (T : val F custom) : option (val F custom) :=
  match T with
  | VStruct (VStruct fields :: _) =>
      match list_find (fun f => f.1 = tag) PgBouncer_fields with Some (i, _) => fields !! i | None => None end
  | _ => None
  end.
Definition string_of (v : option (val F custom)) : gostring := match v with Some (VString s) => s | _ => [] end.
Definition int_of (v : option (val F custom)) : Z := match v with Some (VInt z) => z | _ => 0 end.

Definition Listen (T : val F custom) : list ListenerConfig :=
  let cert := string_of (pgbouncer (lit "client_tls_cert_file") T) in
  let key := string_of (pgbouncer (lit "client_tls_key_file") T) in
  let ssl := if bool_decide (cert <> []) && bool_decide (key <> []) then Some (cert, key) else None in
  let addr := string_of (pgbouncer (lit "listen_addr") T) in
  let port := Strconv.Itoa (int_of (pgbouncer (lit "listen_port") T)) in
  let dir := string_of (pgbouncer (lit "unix_socket_dir") T) in
  let dir := if HasSuffix dir (lit "/") then dir else dir ++ lit "/" in
  (if decide (addr <> []) then
     [mkListenerConfig (Pgbouncer.JoinHostPort (if decide (addr = lit "*") then [] else addr) port) None 0]
   else []) ++
  [mkListenerConfig (dir ++ lit ".s.PGSQL." ++ port) ssl 0].
End Config.

(** ** The configuration is well formed *)

#[local] Instance plain_dec fs : Decision (plain fs).
Proof. unfold plain. apply _. Defined.

Lemma Config_plain : plain Config_fields.
Proof. apply (bool_decide_unpack _). by vm_compute. Qed.
Lemma PgBouncer_plain : plain PgBouncer_fields.
Proof. apply (bool_decide_unpack _). by vm_compute. Qed.

Lemma Config_widths : widths_ok Config.
Proof. vm_compute. repeat split. Qed.

Section Typed.
Context {F : Type} (float : Z -> F) (ParseFloat : gostring -> option F).
Context (unicode_lower : gostring -> gostring) (Unquote : gostring -> option gostring).
Context (files : gostring -> error + gostring).
Abbreviation Default := (Default float unicode_lower).
Abbreviation UnmarshalINI := (UnmarshalINI unicode_lower Unquote files).
Abbreviation Load := (Load float ParseFloat unicode_lower Unquote files).

Lemma Default_typed : has_type Config Default.
Proof. vm_compute. repeat split; try (by intros); repeat constructor. Qed.

Lemma UnmarshalINI_returns i value u : exists r, UnmarshalINI i value u = Ret r.
Proof.
  destruct i as [|i]; cbn; [by eexists|]. unfold AuthFile_UnmarshalINI. case_decide; [by eexists|].
  destruct (files value) as [e|file]; [by eexists|]. destruct (userlist_returns Unquote file) as [[e|m] ->]; by eexists.
Qed.

Lemma Default_shaped : shaped Config_fields PgBouncer_fields 0 Default.
Proof. do 2 eexists. split_and!; vm_compute; reflexivity. Qed.

(** Loading a file that includes nothing. *)
Lemma Load_run fuel config ls : files config = inr (render ls) -> Forall (fun l => line_ok l = true) ls ->
  Load (S fuel) config = run (float 0) ParseFloat zero_custom UnmarshalINI same Config (what <$> ls) [] Default.
Proof. apply read_and_run. Qed.

Lemma pgbouncer_field key t : (key, t) ∈ PgBouncer_fields ->
  exists j, PgBouncer_fields !! j = Some (key, t) /\
    forall T : val F custom, shaped Config_fields PgBouncer_fields 0 T -> pgbouncer key T = field_of 0 j T.
Proof.
  intros [j Hj]%list_elem_of_lookup. exists j. split; [done|]. intros T (vs & ws & -> & _ & Hv & _). destruct vs as [|v vs]; [done|].
  injection Hv as ->. cbn [pgbouncer field_of]. assert (list_find (fun f => f.1 = key) PgBouncer_fields = Some (j, (key, t))) as ->; [|done].
  apply list_find_Some. split_and!; [done|done|]. intros k [key' t'] Hk Hlt E. cbn in E. subst key'.
  enough (k = j) by lia. apply (NoDup_lookup PgBouncer_fields.*1 k j key); [apply PgBouncer_plain|by rewrite list_lookup_fmap, Hk|by rewrite list_lookup_fmap, Hj].
Qed.

Lemma run_shaped l section v v' : headed section l = true -> shaped Config_fields PgBouncer_fields 0 v ->
  run (float 0) ParseFloat zero_custom UnmarshalINI same Config l section v = Ret (inr v') -> shaped Config_fields PgBouncer_fields 0 v'.
Proof.
  revert section v. induction l as [|it l IH]; intros section v Hl Hv E; [by injection E as <-|].
  destruct it as [|hash text|name|k b a value]; cbn [run headed] in Hl, E; [by eapply IH..|].
  apply andb_true_iff in Hl as [Hs%negb_true_iff%bool_decide_eq_false Hl].
  destruct (setpath _ _ _ _ _ _ _ _ _ _ _) as [[e|v1]| |] eqn:Es; cbn in E; try discriminate E.
  eapply IH; [done| |exact E]. change (depth Config) with 5%nat in Es.
  eapply (setpath_field _ _ _ _ _ Config_fields PgBouncer_fields (lit "pgbouncer") (lit "logfile") 0 0 Config_plain PgBouncer_plain eq_refl eq_refl);
    [exact Hs|exact Hv|exact Es].
Qed.
End Typed.

(** ** Theorems *)
Module PgConfigTheorems.

(** C38: Loading a configuration ends, if files do not include each other in a
    circle (their inclusions decrease some rank): whatever is in the files, Load
    returns an error or a well formed configuration. *)
Theorem load_returns {F} (float : Z -> F) ParseFloat unicode_lower Unquote files (rank : gostring -> nat) config :
  (forall p q, included files p q -> (rank q < rank p)%nat) ->
  exists r, Load float ParseFloat unicode_lower Unquote files (S (rank config)) config = Ret r /\
    match r with inl _ => True | inr c => has_type Config c end.
Proof.
  intros Hrank. unfold Load. destruct (ReadFile_returns files rank (S (rank config)) config Hrank) as [[e|text] ->]; [lia|by exists (inl e)|].
  cbn [rbind obind]. apply unmarshal_loop_typed; [apply UnmarshalINI_returns|apply Config_widths|apply Default_typed|lia].
Qed.

(** A file that includes another, which is not there or there. *)
Definition ex_files (other : error + gostring) (path : gostring) : error + gostring :=
  if decide (path = lit "a") then inr (lit "%include  b") else if decide (path = lit "b") then other else inl EOF.
Definition ex_rank (path : gostring) : nat := if decide (path = lit "a") then 1 else 0.
Definition no_float (s : gostring) : option unit := None.

Lemma load_returns_witness :
  exists r, Load (fun _ => tt) no_float (fun s => s) Some (ex_files (inr (lit "[pgbouncer]"))) 2 (lit "a") = Ret r /\
    match r with inl _ => True | inr c => has_type Config c end.
Proof.
  apply (load_returns (fun _ => tt) no_float (fun s => s) Some (ex_files (inr (lit "[pgbouncer]"))) ex_rank (lit "a")).
  intros p q (text & l & Hp & Hl & Hi & ->). unfold ex_files in Hp. unfold ex_rank at 2. case_decide as Ha.
  - injection Hp as <-. vm_compute in Hl. apply list_elem_of_singleton in Hl as ->. vm_compute. lia.
  - case_decide; [|done]. injection Hp as <-. vm_compute in Hl. apply list_elem_of_singleton in Hl as ->. by vm_compute in Hi.
Defined.

(** A configuration file means what it says: after loading a file in which
    every setting is under a header, each text option of the section pgbouncer
    has the value of its last setting there, and its default if it is not set,
    whatever else the file sets and however it is indented and commented. *)
Theorem last_setting_wins {F} (float : Z -> F) ParseFloat unicode_lower Unquote files fuel config ls c key :
  files config = inr (render ls) -> Forall (fun l => line_ok l = true) ls -> headed [] (what <$> ls) = true ->
  Load float ParseFloat unicode_lower Unquote files (S fuel) config = Ret (inr c) -> (key, TString) ∈ PgBouncer_fields ->
  pgbouncer key c = last_setting (lit "pgbouncer") key [] (what <$> ls) (pgbouncer key (Default float unicode_lower)).
Proof.
  intros Hp Hls Hh E Hkey. rewrite (Load_run _ _ _ _ _ _ _ _ Hp Hls) in E.
  destruct (pgbouncer_field (F := F) key TString Hkey) as (j & Hj & Hf). pose proof (Default_shaped float unicode_lower) as Hd.
  rewrite !Hf by (done || by eapply run_shaped; [exact Hh|exact Hd|exact E]).
  eapply (run_field _ _ _ _ _ Config_fields PgBouncer_fields (lit "pgbouncer") key 0 j Config_plain PgBouncer_plain eq_refl Hj);
    [exact Hh|exact Hd|exact E].
Qed.

Definition ex_conf : list line :=
  [mkLine [] (Comment false (lit " TLS for everyone")) []; mkLine [] (Header (lit "pgbouncer")) [];
   mkLine [x09] (Setting (lit "listen_addr") [x20] [x20] (lit "*")) []; mkLine [x09] (Setting (lit "pool_mode") [] [] (lit "statement")) [];
   mkLine [] (Setting (lit "client_tls_cert_file") [] [] (lit "/c")) []; mkLine [] (Setting (lit "client_tls_key_file") [] [] (lit "/k")) [];
   mkLine [] (Setting (lit "client_tls_sslmode") [] [] (lit "require")) []; mkLine [] (Setting (lit "max_client_conn") [] [] (lit "7")) [];
   mkLine [] (Setting (lit "admin_users") [] [] (lit "root")) []; mkLine [] (Setting (lit "pool_mode") [] [] (lit "transaction")) [x0d]].
Definition ex_load (fuel : nat) : outcome (error + val unit custom) :=
  Load (fun _ => tt) no_float (fun s => s) Some (fun _ => inr (render ex_conf)) (S fuel) (lit "a").

Lemma last_setting_wins_witness :
  exists c, ex_load 0 = Ret (inr c) /\ pgbouncer (lit "pool_mode") c = Some (VString (lit "transaction")).
Proof.
  destruct (ex_load 0) as [[e|c]| |] eqn:E; [by vm_compute in E| |by vm_compute in E..]. exists c. split; [done|].
  rewrite (last_setting_wins (fun _ => tt) no_float (fun s => s) Some (fun _ => inr (render ex_conf)) 0 (lit "a") ex_conf c (lit "pool_mode")).
  - by vm_compute.
  - done.
  - repeat constructor.
  - done.
  - exact E.
  - by apply (list_elem_of_lookup_2 _ 8).
Defined.

(** The listeners of this configuration: the key pair is given to the UNIX socket
    only, clients on the network get no TLS and, as TLS is required, no service;
    and the limit of clients is not passed on.  The administrators are ignored,
    because the field has the tag auth_users. *)
Example listen_without_tls :
  exists c, ex_load 0 = Ret (inr c) /\
    Listen c = [mkListenerConfig (lit ":6432") None 0; mkListenerConfig (lit "/tmp/.s.PGSQL.6432") (Some (lit "/c", lit "/k")) 0] /\
    pgbouncer (lit "client_tls_sslmode") c = Some (VString (lit "require")) /\
    pgbouncer (lit "max_client_conn") c = Some (VInt 7) /\ pgbouncer (lit "auth_users") c = Some (VSlice []).
Proof. eexists. split_and!; [vm_compute; reflexivity|by vm_compute..]. Qed.
End PgConfigTheorems.
