(* ===== verification/CaddyModules.v ===== *)
(** * CaddyModules: the modules that a configuration is made of

    The structs that the directives of the configuration file build (Caddyfile)
    and that are loaded into handlers, matchers, pools and discoverers: their
    configured fields, with one setter per field, their identifiers (the CaddyModule
    methods), and the pool configurations of pools/basic/config.go and
    pools/hybrid/config.go with what they ask of a server pool.

    A json.RawMessage is [option J]: nil or the bytes of an object.  A Go map that
    may be nil is an option. *)

From Stdlib Require Import Init.Byte Strings.Byte Strings.String.
From S2P Require Import Prelude.
From S2P Require Import Wire.
From S2P Require Import Packets.
From S2P Require Import Strutil.
From S2P Require Import Fed.
From S2P Require Import Startup.

Local Open Scope Z_scope.

(** k8s.NamespaceMatcher *)
Record NamespaceMatcher := mkMatcher { Namespace : gostring; Labels : gmap gostring gostring }.
Definition set_Namespace (v : gostring) (T : NamespaceMatcher) : NamespaceMatcher := mkMatcher v (Labels T).
Definition set_Label (key value : gostring) (T : NamespaceMatcher) : NamespaceMatcher := mkMatcher (Namespace T) (<[key := value]> (Labels T)).

(** handlers/discovery/config.go *)
Module discovery.
Record Config {J : Type} := mkConfig { ReconcilePeriod : Z; Discoverer : option J; Pool : option J; ServerSSLMode : gostring; ServerSSL : option J; ServerMinConnections : Z; ServerMaxConnections : Z; ServerStartupParameters : option (gmap gostring gostring) }.
Arguments Config J : clear implicits.
Arguments mkConfig {J}.
Definition set_ReconcilePeriod {J : Type} (v : Z) (T : Config J) : Config J := mkConfig v (Discoverer T) (Pool T) (ServerSSLMode T) (ServerSSL T) (ServerMinConnections T) (ServerMaxConnections T) (ServerStartupParameters T).
Definition set_Discoverer {J : Type} (v : option J) (T : Config J) : Config J := mkConfig (ReconcilePeriod T) v (Pool T) (ServerSSLMode T) (ServerSSL T) (ServerMinConnections T) (ServerMaxConnections T) (ServerStartupParameters T).
Definition set_Pool {J : Type} (v : option J) (T : Config J) : Config J := mkConfig (ReconcilePeriod T) (Discoverer T) v (ServerSSLMode T) (ServerSSL T) (ServerMinConnections T) (ServerMaxConnections T) (ServerStartupParameters T).
Definition set_ServerSSLMode {J : Type} (v : gostring) (T : Config J) : Config J := mkConfig (ReconcilePeriod T) (Discoverer T) (Pool T) v (ServerSSL T) (ServerMinConnections T) (ServerMaxConnections T) (ServerStartupParameters T).
Definition set_ServerSSL {J : Type} (v : option J) (T : Config J) : Config J := mkConfig (ReconcilePeriod T) (Discoverer T) (Pool T) (ServerSSLMode T) v (ServerMinConnections T) (ServerMaxConnections T) (ServerStartupParameters T).
Definition set_ServerMinConnections {J : Type} (v : Z) (T : Config J) : Config J := mkConfig (ReconcilePeriod T) (Discoverer T) (Pool T) (ServerSSLMode T) (ServerSSL T) v (ServerMaxConnections T) (ServerStartupParameters T).
Definition set_ServerMaxConnections {J : Type} (v : Z) (T : Config J) : Config J := mkConfig (ReconcilePeriod T) (Discoverer T) (Pool T) (ServerSSLMode T) (ServerSSL T) (ServerMinConnections T) v (ServerStartupParameters T).
Definition set_ServerStartupParameters {J : Type} (v : option (gmap gostring gostring)) (T : Config J) : Config J := mkConfig (ReconcilePeriod T) (Discoverer T) (Pool T) (ServerSSLMode T) (ServerSSL T) (ServerMinConnections T) (ServerMaxConnections T) v.
End discovery.

(** handlers/pgbouncer_spilo/config.go *)
Module pgbouncer_spilo.
Record Config := mkConfig { Host : gostring; Port : Z; User : gostring; Schema : gostring; Password : gostring; Mode : gostring; DefaultSize : Z; MinSize : Z; ReserveSize : Z; MaxClientConn : Z; MaxDBConn : Z }.
Definition set_Host (v : gostring) (T : Config) : Config := mkConfig v (Port T) (User T) (Schema T) (Password T) (Mode T) (DefaultSize T) (MinSize T) (ReserveSize T) (MaxClientConn T) (MaxDBConn T).
Definition set_Port (v : Z) (T : Config) : Config := mkConfig (Host T) v (User T) (Schema T) (Password T) (Mode T) (DefaultSize T) (MinSize T) (ReserveSize T) (MaxClientConn T) (MaxDBConn T).
Definition set_User (v : gostring) (T : Config) : Config := mkConfig (Host T) (Port T) v (Schema T) (Password T) (Mode T) (DefaultSize T) (MinSize T) (ReserveSize T) (MaxClientConn T) (MaxDBConn T).
Definition set_Schema (v : gostring) (T : Config) : Config := mkConfig (Host T) (Port T) (User T) v (Password T) (Mode T) (DefaultSize T) (MinSize T) (ReserveSize T) (MaxClientConn T) (MaxDBConn T).
Definition set_Password (v : gostring) (T : Config) : Config := mkConfig (Host T) (Port T) (User T) (Schema T) v (Mode T) (DefaultSize T) (MinSize T) (ReserveSize T) (MaxClientConn T) (MaxDBConn T).
Definition set_Mode (v : gostring) (T : Config) : Config := mkConfig (Host T) (Port T) (User T) (Schema T) (Password T) v (DefaultSize T) (MinSize T) (ReserveSize T) (MaxClientConn T) (MaxDBConn T).
Definition set_DefaultSize (v : Z) (T : Config) : Config := mkConfig (Host T) (Port T) (User T) (Schema T) (Password T) (Mode T) v (MinSize T) (ReserveSize T) (MaxClientConn T) (MaxDBConn T).
Definition set_MinSize (v : Z) (T : Config) : Config := mkConfig (Host T) (Port T) (User T) (Schema T) (Password T) (Mode T) (DefaultSize T) v (ReserveSize T) (MaxClientConn T) (MaxDBConn T).
Definition set_ReserveSize (v : Z) (T : Config) : Config := mkConfig (Host T) (Port T) (User T) (Schema T) (Password T) (Mode T) (DefaultSize T) (MinSize T) v (MaxClientConn T) (MaxDBConn T).
Definition set_MaxClientConn (v : Z) (T : Config) : Config := mkConfig (Host T) (Port T) (User T) (Schema T) (Password T) (Mode T) (DefaultSize T) (MinSize T) (ReserveSize T) v (MaxDBConn T).
Definition set_MaxDBConn (v : Z) (T : Config) : Config := mkConfig (Host T) (Port T) (User T) (Schema T) (Password T) (Mode T) (DefaultSize T) (MinSize T) (ReserveSize T) (MaxClientConn T) v.
End pgbouncer_spilo.

(** handlers/pool/module.go, with the fields of the Recipe that are set here *)
Module pool_handler.
Record Config {J : Type} := mkConfig { Pool : option J; Address : gostring; SSLMode : gostring; Username : gostring; Database : gostring; RawSSL : option J; RawPassword : gostring; RawParameters : option (gmap gostring gostring) }.
Arguments Config J : clear implicits.
Arguments mkConfig {J}.
Definition set_Pool {J : Type} (v : option J) (T : Config J) : Config J := mkConfig v (Address T) (SSLMode T) (Username T) (Database T) (RawSSL T) (RawPassword T) (RawParameters T).
Definition set_Address {J : Type} (v : gostring) (T : Config J) : Config J := mkConfig (Pool T) v (SSLMode T) (Username T) (Database T) (RawSSL T) (RawPassword T) (RawParameters T).
Definition set_SSLMode {J : Type} (v : gostring) (T : Config J) : Config J := mkConfig (Pool T) (Address T) v (Username T) (Database T) (RawSSL T) (RawPassword T) (RawParameters T).
Definition set_Username {J : Type} (v : gostring) (T : Config J) : Config J := mkConfig (Pool T) (Address T) (SSLMode T) v (Database T) (RawSSL T) (RawPassword T) (RawParameters T).
Definition set_Database {J : Type} (v : gostring) (T : Config J) : Config J := mkConfig (Pool T) (Address T) (SSLMode T) (Username T) v (RawSSL T) (RawPassword T) (RawParameters T).
Definition set_RawSSL {J : Type} (v : option J) (T : Config J) : Config J := mkConfig (Pool T) (Address T) (SSLMode T) (Username T) (Database T) v (RawPassword T) (RawParameters T).
Definition set_RawPassword {J : Type} (v : gostring) (T : Config J) : Config J := mkConfig (Pool T) (Address T) (SSLMode T) (Username T) (Database T) (RawSSL T) v (RawParameters T).
Definition set_RawParameters {J : Type} (v : option (gmap gostring gostring)) (T : Config J) : Config J := mkConfig (Pool T) (Address T) (SSLMode T) (Username T) (Database T) (RawSSL T) (RawPassword T) v.
End pool_handler.

(** pools/basic/config.go, the fields that are configured *)
Module basic.
Record Config {J : Type} := mkConfig { RawPoolerFactory : option J; ReleaseAfterTransaction : bool; ParameterStatusSync : gostring; ExtendedQuerySync : bool; PacketTracingOption : Z; OtelTracingOption : Z; ServerResetQuery : gostring; ServerResetQueryTimeout : Z; ClientAcquireTimeout : Z; ServerIdleTimeout : Z; ServerReconnectInitialTime : Z; ServerReconnectMaxTime : Z; TrackedParameters : list gostring; RawCritics : list (option J) }.
Arguments Config J : clear implicits.
Arguments mkConfig {J}.
Definition set_RawPoolerFactory {J : Type} (v : option J) (T : Config J) : Config J := mkConfig v (ReleaseAfterTransaction T) (ParameterStatusSync T) (ExtendedQuerySync T) (PacketTracingOption T) (OtelTracingOption T) (ServerResetQuery T) (ServerResetQueryTimeout T) (ClientAcquireTimeout T) (ServerIdleTimeout T) (ServerReconnectInitialTime T) (ServerReconnectMaxTime T) (TrackedParameters T) (RawCritics T).
Definition set_ReleaseAfterTransaction {J : Type} (v : bool) (T : Config J) : Config J := mkConfig (RawPoolerFactory T) v (ParameterStatusSync T) (ExtendedQuerySync T) (PacketTracingOption T) (OtelTracingOption T) (ServerResetQuery T) (ServerResetQueryTimeout T) (ClientAcquireTimeout T) (ServerIdleTimeout T) (ServerReconnectInitialTime T) (ServerReconnectMaxTime T) (TrackedParameters T) (RawCritics T).
Definition set_ParameterStatusSync {J : Type} (v : gostring) (T : Config J) : Config J := mkConfig (RawPoolerFactory T) (ReleaseAfterTransaction T) v (ExtendedQuerySync T) (PacketTracingOption T) (OtelTracingOption T) (ServerResetQuery T) (ServerResetQueryTimeout T) (ClientAcquireTimeout T) (ServerIdleTimeout T) (ServerReconnectInitialTime T) (ServerReconnectMaxTime T) (TrackedParameters T) (RawCritics T).
Definition set_ExtendedQuerySync {J : Type} (v : bool) (T : Config J) : Config J := mkConfig (RawPoolerFactory T) (ReleaseAfterTransaction T) (ParameterStatusSync T) v (PacketTracingOption T) (OtelTracingOption T) (ServerResetQuery T) (ServerResetQueryTimeout T) (ClientAcquireTimeout T) (ServerIdleTimeout T) (ServerReconnectInitialTime T) (ServerReconnectMaxTime T) (TrackedParameters T) (RawCritics T).
Definition set_PacketTracingOption {J : Type} (v : Z) (T : Config J) : Config J := mkConfig (RawPoolerFactory T) (ReleaseAfterTransaction T) (ParameterStatusSync T) (ExtendedQuerySync T) v (OtelTracingOption T) (ServerResetQuery T) (ServerResetQueryTimeout T) (ClientAcquireTimeout T) (ServerIdleTimeout T) (ServerReconnectInitialTime T) (ServerReconnectMaxTime T) (TrackedParameters T) (RawCritics T).
Definition set_OtelTracingOption {J : Type} (v : Z) (T : Config J) : Config J := mkConfig (RawPoolerFactory T) (ReleaseAfterTransaction T) (ParameterStatusSync T) (ExtendedQuerySync T) (PacketTracingOption T) v (ServerResetQuery T) (ServerResetQueryTimeout T) (ClientAcquireTimeout T) (ServerIdleTimeout T) (ServerReconnectInitialTime T) (ServerReconnectMaxTime T) (TrackedParameters T) (RawCritics T).
Definition set_ServerResetQuery {J : Type} (v : gostring) (T : Config J) : Config J := mkConfig (RawPoolerFactory T) (ReleaseAfterTransaction T) (ParameterStatusSync T) (ExtendedQuerySync T) (PacketTracingOption T) (OtelTracingOption T) v (ServerResetQueryTimeout T) (ClientAcquireTimeout T) (ServerIdleTimeout T) (ServerReconnectInitialTime T) (ServerReconnectMaxTime T) (TrackedParameters T) (RawCritics T).
Definition set_ServerResetQueryTimeout {J : Type} (v : Z) (T : Config J) : Config J := mkConfig (RawPoolerFactory T) (ReleaseAfterTransaction T) (ParameterStatusSync T) (ExtendedQuerySync T) (PacketTracingOption T) (OtelTracingOption T) (ServerResetQuery T) v (ClientAcquireTimeout T) (ServerIdleTimeout T) (ServerReconnectInitialTime T) (ServerReconnectMaxTime T) (TrackedParameters T) (RawCritics T).
Definition set_ClientAcquireTimeout {J : Type} (v : Z) (T : Config J) : Config J := mkConfig (RawPoolerFactory T) (ReleaseAfterTransaction T) (ParameterStatusSync T) (ExtendedQuerySync T) (PacketTracingOption T) (OtelTracingOption T) (ServerResetQuery T) (ServerResetQueryTimeout T) v (ServerIdleTimeout T) (ServerReconnectInitialTime T) (ServerReconnectMaxTime T) (TrackedParameters T) (RawCritics T).
Definition set_ServerIdleTimeout {J : Type} (v : Z) (T : Config J) : Config J := mkConfig (RawPoolerFactory T) (ReleaseAfterTransaction T) (ParameterStatusSync T) (ExtendedQuerySync T) (PacketTracingOption T) (OtelTracingOption T) (ServerResetQuery T) (ServerResetQueryTimeout T) (ClientAcquireTimeout T) v (ServerReconnectInitialTime T) (ServerReconnectMaxTime T) (TrackedParameters T) (RawCritics T).
Definition set_ServerReconnectInitialTime {J : Type} (v : Z) (T : Config J) : Config J := mkConfig (RawPoolerFactory T) (ReleaseAfterTransaction T) (ParameterStatusSync T) (ExtendedQuerySync T) (PacketTracingOption T) (OtelTracingOption T) (ServerResetQuery T) (ServerResetQueryTimeout T) (ClientAcquireTimeout T) (ServerIdleTimeout T) v (ServerReconnectMaxTime T) (TrackedParameters T) (RawCritics T).
Definition set_ServerReconnectMaxTime {J : Type} (v : Z) (T : Config J) : Config J := mkConfig (RawPoolerFactory T) (ReleaseAfterTransaction T) (ParameterStatusSync T) (ExtendedQuerySync T) (PacketTracingOption T) (OtelTracingOption T) (ServerResetQuery T) (ServerResetQueryTimeout T) (ClientAcquireTimeout T) (ServerIdleTimeout T) (ServerReconnectInitialTime T) v (TrackedParameters T) (RawCritics T).
Definition set_TrackedParameters {J : Type} (v : list gostring) (T : Config J) : Config J := mkConfig (RawPoolerFactory T) (ReleaseAfterTransaction T) (ParameterStatusSync T) (ExtendedQuerySync T) (PacketTracingOption T) (OtelTracingOption T) (ServerResetQuery T) (ServerResetQueryTimeout T) (ClientAcquireTimeout T) (ServerIdleTimeout T) (ServerReconnectInitialTime T) (ServerReconnectMaxTime T) v (RawCritics T).
Definition set_RawCritics {J : Type} (v : list (option J)) (T : Config J) : Config J := mkConfig (RawPoolerFactory T) (ReleaseAfterTransaction T) (ParameterStatusSync T) (ExtendedQuerySync T) (PacketTracingOption T) (OtelTracingOption T) (ServerResetQuery T) (ServerResetQueryTimeout T) (ClientAcquireTimeout T) (ServerIdleTimeout T) (ServerReconnectInitialTime T) (ServerReconnectMaxTime T) (TrackedParameters T) v.
End basic.

(** pools/hybrid/config.go, the fields that are configured *)
Module hybrid.
Record Config {J : Type} := mkConfig { ClientAcquireTimeout : Z; ServerResetQuery : gostring; ServerResetQueryTimeout : Z; ServerIdleTimeout : Z; ServerReconnectInitialTime : Z; ServerReconnectMaxTime : Z; TrackedParameters : list gostring; RawCritics : list (option J) }.
Arguments Config J : clear implicits.
Arguments mkConfig {J}.
Definition set_ClientAcquireTimeout {J : Type} (v : Z) (T : Config J) : Config J := mkConfig v (ServerResetQuery T) (ServerResetQueryTimeout T) (ServerIdleTimeout T) (ServerReconnectInitialTime T) (ServerReconnectMaxTime T) (TrackedParameters T) (RawCritics T).
Definition set_ServerResetQuery {J : Type} (v : gostring) (T : Config J) : Config J := mkConfig (ClientAcquireTimeout T) v (ServerResetQueryTimeout T) (ServerIdleTimeout T) (ServerReconnectInitialTime T) (ServerReconnectMaxTime T) (TrackedParameters T) (RawCritics T).
Definition set_ServerResetQueryTimeout {J : Type} (v : Z) (T : Config J) : Config J := mkConfig (ClientAcquireTimeout T) (ServerResetQuery T) v (ServerIdleTimeout T) (ServerReconnectInitialTime T) (ServerReconnectMaxTime T) (TrackedParameters T) (RawCritics T).
Definition set_ServerIdleTimeout {J : Type} (v : Z) (T : Config J) : Config J := mkConfig (ClientAcquireTimeout T) (ServerResetQuery T) (ServerResetQueryTimeout T) v (ServerReconnectInitialTime T) (ServerReconnectMaxTime T) (TrackedParameters T) (RawCritics T).
Definition set_ServerReconnectInitialTime {J : Type} (v : Z) (T : Config J) : Config J := mkConfig (ClientAcquireTimeout T) (ServerResetQuery T) (ServerResetQueryTimeout T) (ServerIdleTimeout T) v (ServerReconnectMaxTime T) (TrackedParameters T) (RawCritics T).
Definition set_ServerReconnectMaxTime {J : Type} (v : Z) (T : Config J) : Config J := mkConfig (ClientAcquireTimeout T) (ServerResetQuery T) (ServerResetQueryTimeout T) (ServerIdleTimeout T) (ServerReconnectInitialTime T) v (TrackedParameters T) (RawCritics T).
Definition set_TrackedParameters {J : Type} (v : list gostring) (T : Config J) : Config J := mkConfig (ClientAcquireTimeout T) (ServerResetQuery T) (ServerResetQueryTimeout T) (ServerIdleTimeout T) (ServerReconnectInitialTime T) (ServerReconnectMaxTime T) v (RawCritics T).
Definition set_RawCritics {J : Type} (v : list (option J)) (T : Config J) : Config J := mkConfig (ClientAcquireTimeout T) (ServerResetQuery T) (ServerResetQueryTimeout T) (ServerIdleTimeout T) (ServerReconnectInitialTime T) (ServerReconnectMaxTime T) (TrackedParameters T) v.
End hybrid.

(** critics/latency/critic.go *)
Module latency.
Record Critic := mkCritic { QueryThreshold : Z; Validity : Z }.
Definition set_QueryThreshold (v : Z) (T : Critic) : Critic := mkCritic v (Validity T).
Definition set_Validity (v : Z) (T : Critic) : Critic := mkCritic (QueryThreshold T) v.
End latency.

(** critics/replication/critic.go *)
Module replication.
Record Critic := mkCritic { QueryThreshold : Z; ReplicationThreshold : Z; Validity : Z }.
Definition set_QueryThreshold (v : Z) (T : Critic) : Critic := mkCritic v (ReplicationThreshold T) (Validity T).
Definition set_ReplicationThreshold (v : Z) (T : Critic) : Critic := mkCritic (QueryThreshold T) v (Validity T).
Definition set_Validity (v : Z) (T : Critic) : Critic := mkCritic (QueryThreshold T) (ReplicationThreshold T) v.
End replication.

(** discoverers/digitalocean/config.go *)
Module digitalocean.
Record Config {J : Type} := mkConfig { APIKey : gostring; Private : bool; DiscoverStandby : bool; Filter : option J }.
Arguments Config J : clear implicits.
Arguments mkConfig {J}.
Definition set_APIKey {J : Type} (v : gostring) (T : Config J) : Config J := mkConfig v (Private T) (DiscoverStandby T) (Filter T).
Definition set_Private {J : Type} (v : bool) (T : Config J) : Config J := mkConfig (APIKey T) v (DiscoverStandby T) (Filter T).
Definition set_DiscoverStandby {J : Type} (v : bool) (T : Config J) : Config J := mkConfig (APIKey T) (Private T) v (Filter T).
Definition set_Filter {J : Type} (v : option J) (T : Config J) : Config J := mkConfig (APIKey T) (Private T) (DiscoverStandby T) v.
End digitalocean.

(** discoverers/google_cloud_sql/config.go *)
Module google_cloud_sql.
Record Config := mkConfig { Project : gostring; IpAddressType : gostring; AuthUser : gostring; AuthPassword : gostring }.
End google_cloud_sql.

(** discoverers/zalando_operator/config.go *)
Module zalando_operator.
Record Config := mkConfig { Namespace : NamespaceMatcher; ConfigMapName : gostring; OperatorConfigurationObject : gostring; ClusterDomain : gostring; SecretNameTemplate : gostring; ConnectionPoolerNumberOfInstances : option Z; ConnectionPoolerMode : gostring; ConnectionPoolerMaxDBConnections : option Z }.
Definition set_Namespace (v : NamespaceMatcher) (T : Config) : Config := mkConfig v (ConfigMapName T) (OperatorConfigurationObject T) (ClusterDomain T) (SecretNameTemplate T) (ConnectionPoolerNumberOfInstances T) (ConnectionPoolerMode T) (ConnectionPoolerMaxDBConnections T).
Definition set_ConfigMapName (v : gostring) (T : Config) : Config := mkConfig (Namespace T) v (OperatorConfigurationObject T) (ClusterDomain T) (SecretNameTemplate T) (ConnectionPoolerNumberOfInstances T) (ConnectionPoolerMode T) (ConnectionPoolerMaxDBConnections T).
Definition set_OperatorConfigurationObject (v : gostring) (T : Config) : Config := mkConfig (Namespace T) (ConfigMapName T) v (ClusterDomain T) (SecretNameTemplate T) (ConnectionPoolerNumberOfInstances T) (ConnectionPoolerMode T) (ConnectionPoolerMaxDBConnections T).
Definition set_ClusterDomain (v : gostring) (T : Config) : Config := mkConfig (Namespace T) (ConfigMapName T) (OperatorConfigurationObject T) v (SecretNameTemplate T) (ConnectionPoolerNumberOfInstances T) (ConnectionPoolerMode T) (ConnectionPoolerMaxDBConnections T).
Definition set_SecretNameTemplate (v : gostring) (T : Config) : Config := mkConfig (Namespace T) (ConfigMapName T) (OperatorConfigurationObject T) (ClusterDomain T) v (ConnectionPoolerNumberOfInstances T) (ConnectionPoolerMode T) (ConnectionPoolerMaxDBConnections T).
Definition set_ConnectionPoolerNumberOfInstances (v : option Z) (T : Config) : Config := mkConfig (Namespace T) (ConfigMapName T) (OperatorConfigurationObject T) (ClusterDomain T) (SecretNameTemplate T) v (ConnectionPoolerMode T) (ConnectionPoolerMaxDBConnections T).
Definition set_ConnectionPoolerMode (v : gostring) (T : Config) : Config := mkConfig (Namespace T) (ConfigMapName T) (OperatorConfigurationObject T) (ClusterDomain T) (SecretNameTemplate T) (ConnectionPoolerNumberOfInstances T) v (ConnectionPoolerMaxDBConnections T).
Definition set_ConnectionPoolerMaxDBConnections (v : option Z) (T : Config) : Config := mkConfig (Namespace T) (ConfigMapName T) (OperatorConfigurationObject T) (ClusterDomain T) (SecretNameTemplate T) (ConnectionPoolerNumberOfInstances T) (ConnectionPoolerMode T) v.
End zalando_operator.

(** discoverers/cloudnative_pg/config.go *)
Module cloudnative_pg.
Record Config := mkConfig { Namespace : NamespaceMatcher; ClusterDomain : gostring; ReadWriteServiceSuffix : gostring; ReadOnlyServiceSuffix : gostring; Port : Z; SecretSuffix : gostring; IncludeSuperuser : bool }.
Definition set_Namespace (v : NamespaceMatcher) (T : Config) : Config := mkConfig v (ClusterDomain T) (ReadWriteServiceSuffix T) (ReadOnlyServiceSuffix T) (Port T) (SecretSuffix T) (IncludeSuperuser T).
Definition set_ClusterDomain (v : gostring) (T : Config) : Config := mkConfig (Namespace T) v (ReadWriteServiceSuffix T) (ReadOnlyServiceSuffix T) (Port T) (SecretSuffix T) (IncludeSuperuser T).
Definition set_ReadWriteServiceSuffix (v : gostring) (T : Config) : Config := mkConfig (Namespace T) (ClusterDomain T) v (ReadOnlyServiceSuffix T) (Port T) (SecretSuffix T) (IncludeSuperuser T).
Definition set_ReadOnlyServiceSuffix (v : gostring) (T : Config) : Config := mkConfig (Namespace T) (ClusterDomain T) (ReadWriteServiceSuffix T) v (Port T) (SecretSuffix T) (IncludeSuperuser T).
Definition set_Port (v : Z) (T : Config) : Config := mkConfig (Namespace T) (ClusterDomain T) (ReadWriteServiceSuffix T) (ReadOnlyServiceSuffix T) v (SecretSuffix T) (IncludeSuperuser T).
Definition set_SecretSuffix (v : gostring) (T : Config) : Config := mkConfig (Namespace T) (ClusterDomain T) (ReadWriteServiceSuffix T) (ReadOnlyServiceSuffix T) (Port T) v (IncludeSuperuser T).
Definition set_IncludeSuperuser (v : bool) (T : Config) : Config := mkConfig (Namespace T) (ClusterDomain T) (ReadWriteServiceSuffix T) (ReadOnlyServiceSuffix T) (Port T) (SecretSuffix T) v.
End cloudnative_pg.

(** handlers/otel_tracing/module.go *)
Module otel_tracing.
Record Config := mkConfig { ServiceName : gostring; ServiceNamespace : gostring; Endpoint : gostring; BatchTimout : option Z; LogLevel : Z; SamplerRate : gostring }.
Definition set_ServiceName (v : gostring) (T : Config) : Config := mkConfig v (ServiceNamespace T) (Endpoint T) (BatchTimout T) (LogLevel T) (SamplerRate T).
Definition set_ServiceNamespace (v : gostring) (T : Config) : Config := mkConfig (ServiceName T) v (Endpoint T) (BatchTimout T) (LogLevel T) (SamplerRate T).
Definition set_Endpoint (v : gostring) (T : Config) : Config := mkConfig (ServiceName T) (ServiceNamespace T) v (BatchTimout T) (LogLevel T) (SamplerRate T).
Definition set_BatchTimout (v : option Z) (T : Config) : Config := mkConfig (ServiceName T) (ServiceNamespace T) (Endpoint T) v (LogLevel T) (SamplerRate T).
Definition set_LogLevel (v : Z) (T : Config) : Config := mkConfig (ServiceName T) (ServiceNamespace T) (Endpoint T) (BatchTimout T) v (SamplerRate T).
Definition set_SamplerRate (v : gostring) (T : Config) : Config := mkConfig (ServiceName T) (ServiceNamespace T) (Endpoint T) (BatchTimout T) (LogLevel T) v.
End otel_tracing.

(** ** Every module *)
Inductive CModule {J : Type} :=
(* handlers *)
| RequireSSL (SSL : bool)
| AllowedStartupParameters (Parameters : list gostring)
| RewriteUser (Mode User : gostring)
| RewritePassword (Password : gostring)
| RewriteDatabase (Mode Database : gostring)
| RewriteParameter (Key Value : gostring)
| ErrorHandler (Message : gostring)
| Pgbouncer (ConfigFile : gostring)
| Discovery (c : discovery.Config J)
| PgbouncerSpilo (c : pgbouncer_spilo.Config)
| PoolHandler (c : pool_handler.Config J)
| OtelTracing (c : otel_tracing.Config)
(* matchers *)
| User (User : gostring)
| Database (Database : gostring)
| LocalAddress (Network Address : gostring)
| StartupParameter (Key Value : gostring)
| SSL (SSL : bool)
| Not (Not : option J)
| And (And : list (option J))
| Or (Or : list (option J))
(* pools, poolers and critics *)
| BasicFactory (c : basic.Config J)
| HybridFactory (c : hybrid.Config J)
| LifoFactory
| RobFactory
| LatencyCritic (c : latency.Critic)
| ReplicationCritic (c : replication.Critic)
(* discoverers *)
| Digitalocean (c : digitalocean.Config J)
| TagFilter (Tag : gostring)
| GoogleCloudSql (c : google_cloud_sql.Config)
| ZalandoOperator (c : zalando_operator.Config)
| CloudnativePg (c : cloudnative_pg.Config)
(* ssl *)
| SelfSigned
| X509KeyPair (CertFile KeyFile : gostring)
| InsecureSkipVerify.
Arguments CModule J : clear implicits.

(** *** The CaddyModule methods *)
Definition require_ssl_ID : gostring := lit "pggat.handlers.require_ssl".
Definition allowed_startup_parameters_ID : gostring := lit "pggat.handlers.allowed_startup_parameters".
Definition rewrite_user_ID : gostring := lit "pggat.handlers.rewrite_user".
Definition rewrite_password_ID : gostring := lit "pggat.handlers.rewrite_password".
Definition rewrite_database_ID : gostring := lit "pggat.handlers.rewrite_database".
Definition rewrite_parameter_ID : gostring := lit "pggat.handlers.rewrite_parameter".
Definition error_ID : gostring := lit "pggat.handlers.error".
Definition pgbouncer_ID : gostring := lit "pggat.handlers.pgbouncer".
Definition discovery_ID : gostring := lit "pggat.handlers.discovery".
Definition pgbouncer_spilo_ID : gostring := lit "pggat.handlers.pgbouncer_spilo".
Definition pool_ID : gostring := lit "pggat.handlers.pool".
Definition otel_ID : gostring := lit "pggat.handlers.tracing.otel".
Definition user_ID : gostring := lit "pggat.matchers.user".
Definition database_ID : gostring := lit "pggat.matchers.database".
Definition local_address_ID : gostring := lit "pggat.matchers.local_address".
Definition startup_parameter_ID : gostring := lit "pggat.matchers.startup_parameter".
Definition ssl_ID : gostring := lit "pggat.matchers.ssl".
Definition not_ID : gostring := lit "pggat.matchers.not".
Definition and_ID : gostring := lit "pggat.matchers.and".
Definition or_ID : gostring := lit "pggat.matchers.or".
Definition basic_ID : gostring := lit "pggat.handlers.pool.pools.basic".
Definition hybrid_ID : gostring := lit "pggat.handlers.pool.pools.hybrid".
Definition lifo_ID : gostring := lit "pggat.handlers.pool.poolers.lifo".
Definition rob_ID : gostring := lit "pggat.handlers.pool.poolers.rob".
Definition latency_ID : gostring := lit "pggat.handlers.pool.critics.latency".
Definition replication_ID : gostring := lit "pggat.handlers.pool.critics.replication".
Definition digitalocean_ID : gostring := lit "pggat.handlers.discovery.discoverers.digitalocean".
Definition tag_ID : gostring := lit "pggat.handlers.discovery.discoverers.digitalocean.filters.tag".
Definition google_cloud_sql_ID : gostring := lit "pggat.handlers.discovery.discoverers.google_cloud_sql".
Definition zalando_operator_ID : gostring := lit "pggat.handlers.discovery.discoverers.zalando_operator".
Definition cloudnative_pg_ID : gostring := lit "pggat.handlers.discovery.discoverers.cloudnative_pg".
Definition self_signed_ID : gostring := lit "pggat.ssl.servers.self_signed".
Definition x509_key_pair_ID : gostring := lit "pggat.ssl.servers.x509_key_pair".
Definition insecure_skip_verify_ID : gostring := lit "pggat.ssl.clients.insecure_skip_verify".

Definition ID {J : Type} (module : CModule J) : gostring :=
  match module with
  | RequireSSL _ => require_ssl_ID
  | AllowedStartupParameters _ => allowed_startup_parameters_ID
  | RewriteUser _ _ => rewrite_user_ID
  | RewritePassword _ => rewrite_password_ID
  | RewriteDatabase _ _ => rewrite_database_ID
  | RewriteParameter _ _ => rewrite_parameter_ID
  | ErrorHandler _ => error_ID
  | Pgbouncer _ => pgbouncer_ID
  | Discovery _ => discovery_ID
  | PgbouncerSpilo _ => pgbouncer_spilo_ID
  | PoolHandler _ => pool_ID
  | OtelTracing _ => otel_ID
  | User _ => user_ID
  | Database _ => database_ID
  | LocalAddress _ _ => local_address_ID
  | StartupParameter _ _ => startup_parameter_ID
  | SSL _ => ssl_ID
  | Not _ => not_ID
  | And _ => and_ID
  | Or _ => or_ID
  | BasicFactory _ => basic_ID
  | HybridFactory _ => hybrid_ID
  | LifoFactory => lifo_ID
  | RobFactory => rob_ID
  | LatencyCritic _ => latency_ID
  | ReplicationCritic _ => replication_ID
  | Digitalocean _ => digitalocean_ID
  | TagFilter _ => tag_ID
  | GoogleCloudSql _ => google_cloud_sql_ID
  | ZalandoOperator _ => zalando_operator_ID
  | CloudnativePg _ => cloudnative_pg_ID
  | SelfSigned => self_signed_ID
  | X509KeyPair _ _ => x509_key_pair_ID
  | InsecureSkipVerify => insecure_skip_verify_ID
  end.
(** ** pools/basic/config.go *)
Definition Second : Z := 1000000000.
Definition Minute : Z := 60 * Second.
Definition Millisecond : Z := 1000000.

Definition ParameterStatusSyncInitial : gostring := lit "initial".
Definition ParameterStatusSyncDynamic : gostring := lit "dynamic".

Definition TracingOptionDisabled : Z := 0.
Definition TracingOptionClient : Z := Z.shiftl 1 (1 - 1).
Definition TracingOptionServer : Z := Z.shiftl 1 (2 - 1).
Definition TracingOptionClientAndServer : Z := Z.lor TracingOptionClient TracingOptionServer.

(** None: unknown tracing option. *)
Definition MapTracingOption (unicode_lower : gostring -> gostring) (s : gostring) : option Z :=
  let s := ToLower unicode_lower s in
  if decide (s ∈ lit <$> ["disable"; "disabled"; "none"; "off"]%string) then Some TracingOptionDisabled
  else if decide (s = lit "client") then Some TracingOptionClient
  else if decide (s = lit "server") then Some TracingOptionServer
  else if decide (s ∈ lit <$> ["client-and-server"; "both"; "all"]%string) then Some TracingOptionClientAndServer
  else None.

(** *** What the two pools ask of a server pool: spool.Config *)
Record SpoolConfig {PF C : Type} := mkSpoolConfig {
  PoolerFactory : PF;
  UsePS : bool;
  UseEQP : bool;
  UseOtelTracing : bool;
  UsePacketTracing : bool;
  ResetQuery : gostring;
  ResetQueryTimeout : Z;
  AcquireTimeout : Z;
  IdleTimeout : Z;
  ReconnectInitialTime : Z;
  ReconnectMaxTime : Z;
  Critics : list C
}.
Arguments SpoolConfig PF C : clear implicits.
Arguments mkSpoolConfig {PF C}.

Section Spool.
Context {J PF C : Type}.

Definition reset_query_timeout (query : gostring) (timeout : Z) : Z :=
  if bool_decide (query <> []) && bool_decide (timeout = 0) then 15 * Second else timeout.

(** Config.Spool; the pooler's factory and the critics are loaded by Provision. *)
Definition basic_Spool (factory : PF) (critics : list C) (T : basic.Config J) : SpoolConfig PF C :=
  mkSpoolConfig factory
    (bool_decide (basic.ParameterStatusSync T = ParameterStatusSyncDynamic))
    (basic.ExtendedQuerySync T)
    (negb (Z.land (basic.OtelTracingOption T) TracingOptionServer =? 0))
    (negb (Z.land (basic.PacketTracingOption T) TracingOptionServer =? 0))
    (basic.ServerResetQuery T)
    (reset_query_timeout (basic.ServerResetQuery T) (basic.ServerResetQueryTimeout T))
    (basic.ClientAcquireTimeout T) (basic.ServerIdleTimeout T)
    (basic.ServerReconnectInitialTime T) (basic.ServerReconnectMaxTime T) critics.

Definition hybrid_Spool (rob_factory : PF) (critics : list C) (T : hybrid.Config J) : SpoolConfig PF C :=
  mkSpoolConfig rob_factory true true false false
    (hybrid.ServerResetQuery T)
    (reset_query_timeout (hybrid.ServerResetQuery T) (hybrid.ServerResetQueryTimeout T))
    (hybrid.ClientAcquireTimeout T) (hybrid.ServerIdleTimeout T)
    (hybrid.ServerReconnectInitialTime T) (hybrid.ServerReconnectMaxTime T) critics.

(** [raw] is the pooler as caddyconfig.JSONModuleObject encodes it. *)
Definition Session (raw : option J) : basic.Config J :=
  basic.mkConfig raw false ParameterStatusSyncInitial false TracingOptionDisabled TracingOptionClient
    (lit "DISCARD ALL") (15 * Second) 0 0 0 0 [] [].
Definition Transaction (raw : option J) : basic.Config J :=
  basic.mkConfig raw true ParameterStatusSyncDynamic true TracingOptionDisabled TracingOptionClient
    [] 0 0 0 0 0 [] [].
End Spool.

(** ** critics, otel_tracing: the constructors *)
Definition latency_NewCritic : latency.Critic := latency.mkCritic (Millisecond * 300) (Minute * 5).
Definition replication_NewCritic : replication.Critic := replication.mkCritic (Millisecond * 300) (Second * 3) (Minute * 5).
(** slog.LevelInfo is 0. *)
Definition otel_tracing_NewModule : otel_tracing.Config :=
  otel_tracing.mkConfig (lit "pggat") (lit "gfx.cafe/gfx") [] None 0 [].
