(* ===== verification/Provision.v ===== *)
(** * Provision: the modules that Caddy loads

    What Provision makes of the configuration of a module: the factories of the
    two kinds of pools (pools/basic/factory.go, pools/hybrid/factory.go), the
    pgbouncer_spilo handler, which is a pgbouncer handler (Gat) with a
    configuration of its own, and the filter of tags of the DigitalOcean
    discoverer. *)

From Stdlib Require Import Init.Byte Strings.Byte Strings.String.
From S2P Require Import Prelude.
From S2P Require Import Wire.
From S2P Require Import Packets.
From S2P Require Import Strutil.
From S2P Require Import Fed.
From S2P Require Import Perror.
From S2P Require Import Startup.
From S2P Require Import CaddyModules.
From S2P Require Import Gat.

Local Open Scope go_scope.

(** ** The factories: ctx.LoadModule for critics and poolers is a parameter. *)
Section Factories.
Context {J C PF : Type} (LoadCritic : option J -> error + C) (LoadPooler : option J -> error + PF).

(** LoadModule of a slice loads its elements in order. *)
Fixpoint load_critics (raw : list (option J)) : error + list C :=
  match raw with
  | [] => inr []
  | r :: raw =>
      match LoadCritic r with
      | inl e => inl e
      | inr c => match load_critics raw with inl e => inl e | inr l => inr (c :: l) end
      end
  end.

Inductive factory_error := LoadingCritic (e : error) | LoadingPooler (e : error).

Definition hybrid_Factory_Provision (T : hybrid.Config J) : factory_error + list C :=
  match load_critics (hybrid.RawCritics T) with
  | inl e => inl (LoadingCritic e)
  | inr critics => inr critics
  end.
Definition basic_Factory_Provision (T : basic.Config J) : factory_error + PF * list C :=
  match load_critics (basic.RawCritics T) with
  | inl e => inl (LoadingCritic e)
  | inr critics =>
      match LoadPooler (basic.RawPoolerFactory T) with
      | inl e => inl (LoadingPooler e)
      | inr factory => inr (factory, critics)
      end
  end.

(** Factory.NewPool: what the server pool of a basic pool is made with. *)
Definition basic_Factory_NewPool (T : basic.Config J) : factory_error + SpoolConfig PF C :=
  match basic_Factory_Provision T with
  | inl e => inl e
  | inr (factory, critics) => inr (basic_Spool factory critics T)
  end.

(** A server pool synchronises parameters and statements in the transaction mode,
    where a server is given to other clients between transactions, and resets the
    session in the session mode, with a time limit. *)
Lemma modes_spool raw critics factory (LoadPooler_ok : LoadPooler raw = inr factory) :
  critics = [] ->
  (exists s, basic_Factory_NewPool (Transaction raw) = inr s /\ UsePS s = true /\ UseEQP s = true /\ ResetQuery s = [] /\ Critics s = critics) /\
  (exists s, basic_Factory_NewPool (Session raw) = inr s /\ UsePS s = false /\ UseEQP s = false /\
     ResetQuery s = lit "DISCARD ALL" /\ ResetQueryTimeout s = (15 * Second)%Z /\ Critics s = critics).
Proof.
  intros ->. unfold basic_Factory_NewPool, basic_Factory_Provision.
  split; cbn [load_critics basic.RawCritics basic.RawPoolerFactory Transaction Session]; rewrite LoadPooler_ok; eexists; repeat split.
Qed.
End Factories.

(** ** pgbouncer_spilo: the fields of the configuration that the handler reads *)
Section Spilo.
Context (unicode_lower : gostring -> gostring).

Definition SSLModeRequire : SSLMode := "require"%string.

Definition spilo_Provision (T : pgbouncer_spilo.Config) : Pgbouncer.Config :=
  Pgbouncer.mkConfig
    {[ lit "*" := Pgbouncer.mkDatabaseConfig [] (pgbouncer_spilo.Host T) (pgbouncer_spilo.Port T) (pgbouncer_spilo.User T) [] [] 0 0 ∅ ]}
    ∅
    {[ pgbouncer_spilo.User T := pgbouncer_spilo.Password T ]}
    (lit "SELECT * FROM " ++ pgbouncer_spilo.Schema T ++ lit ".user_lookup($1)")
    []
    (pgbouncer_spilo.Mode T)
    0
    (pgbouncer_spilo.MaxDBConn T)
    SSLModeRequire SSLModeRequire
    [MakeCIString unicode_lower (lit "IntervalStyle")]
    [MakeCIString unicode_lower (lit "extra_float_digits"); MakeCIString unicode_lower (lit "options")].

Context {Creds : Type} (FromString : gostring -> gostring -> option Creds).
Context (AddRecipe : nat -> @Pgbouncer.Recipe Creds -> unit) (auth_query : nat -> gostring -> error + gostring * option gostring).
Context (Itoa : Z -> gostring) (order : gmap gostring gostring -> list gostring).
Abbreviation spilo_Handle T := (Pgbouncer.Handle (spilo_Provision T) FromString AddRecipe auth_query Itoa order).

Definition spilo_allowed (T : pgbouncer_spilo.Config) : list gostring :=
  Pgbouncer.tracked ++ Pgbouncer.TrackExtraParameters (spilo_Provision T) ++ Pgbouncer.IgnoreStartupParameters (spilo_Provision T).

Lemma list_find_none {A} (P : A -> Prop) `{forall x, Decision (P x)} l : Forall (fun x => ~ P x) l -> list_find P l = None.
Proof. intros Hl. apply list_find_None. exact Hl. Qed.

Lemma spilo_mode T user db : Pgbouncer.PoolMode db = [] -> Pgbouncer.pool_mode (spilo_Provision T) user db = pgbouncer_spilo.Mode T.
Proof.
  intros Hd. unfold Pgbouncer.pool_mode. rewrite Hd. cbn [Pgbouncer.UserPoolMode Pgbouncer.PgPoolMode spilo_Provision].
  rewrite lookup_empty. by rewrite !decide_True by done.
Qed.

(** The handler for spilo serves nobody.  It refuses clients without TLS; of the
    others it knows the configured user alone: the auth query is asked as the auth
    user of the entry of the client's database, and the configuration has an entry
    for the wildcard only, so a client with any other name is passed on as if its
    database were unknown.  The configured user makes it panic, as no pool is
    made. *)
Theorem spilo_serves_nobody (T : pgbouncer_spilo.Config) (fuel : nat) (conn : @Client Creds) :
  Forall (fun k => k ∈ spilo_allowed T) (order (InitialParameters conn)) -> Database conn <> lit "*" ->
  (SSL conn = false -> spilo_Handle T (S fuel) conn ∅ = Ret (Pgbouncer.Refuse (fatal InvalidPassword "SSL is required"), ∅)) /\
  (SSL conn = true -> User conn <> pgbouncer_spilo.User T -> spilo_Handle T (S fuel) conn ∅ = Ret (Pgbouncer.Next, ∅)) /\
  (SSL conn = true -> User conn = pgbouncer_spilo.User T -> Pgbouncer.known_mode (pgbouncer_spilo.Mode T) = true ->
     spilo_Handle T (S fuel) conn ∅ = Panic).
Proof.
  intros Hp Hd. unfold Pgbouncer.Handle. cbn [Pgbouncer.ClientTLSSSLMode spilo_Provision].
  assert (Hk : list_find (fun k => k ∉ spilo_allowed T) (order (InitialParameters conn)) = None).
  { apply list_find_none. eapply Forall_impl; [done|]. intros k Hk Hn. by apply Hn. }
  assert (Hdb : Pgbouncer.database_config (spilo_Provision T) (Database conn) = Pgbouncer.Databases (spilo_Provision T) !! lit "*").
  { unfold Pgbouncer.database_config. cbn [Pgbouncer.Databases spilo_Provision]. rewrite lookup_singleton_ne by done. done. }
  split_and!; intros Hs; rewrite Hs; [done|..]; cbn [andb negb IsRequired SSLModeRequire]; rewrite andb_false_r;
    fold (spilo_allowed T); rewrite Hk; cbn [Pgbouncer.lookup]; rewrite lookup_empty; unfold Pgbouncer.tryCreate; rewrite Hdb;
    cbn [Pgbouncer.Databases spilo_Provision]; rewrite lookup_singleton_eq; unfold Pgbouncer.getPassword;
    cbn [Pgbouncer.AuthFile Pgbouncer.AuthQuery Pgbouncer.Databases Pgbouncer.PgAuthUser spilo_Provision].
  - intros Hu. rewrite !lookup_singleton_ne by done. cbn. done.
  - intros -> Hm. rewrite lookup_singleton_eq. cbn [obind fst snd]. rewrite spilo_mode by done. by rewrite Hm.
Qed.
End Spilo.

(** ** digitalocean/filters/tag: a database with a tag that matches *)
Fixpoint tag_Allow (Tag : gostring) (tags : list gostring) : outcome bool :=
  match tags with
  | [] => Ret false
  | tag :: tags => let! b := Matches Tag tag in if b : bool then Ret true else tag_Allow Tag tags
  end.
Fixpoint tag_AllowReplica (Tag : gostring) (tags : list gostring) : outcome bool :=
  match tags with
  | [] => Ret false
  | tag :: tags => let! b := Matches Tag tag in if b : bool then Ret true else tag_AllowReplica Tag tags
  end.

Lemma tag_Allow_spec Tag tags b : tag_Allow Tag tags = Ret b -> (forall t, t ∈ tags -> exists c, Matches Tag t = Ret c) ->
  b = true <-> exists t, t ∈ tags /\ Matches Tag t = Ret true.
Proof.
  revert b. induction tags as [|t tags IH]; intros b; cbn; [intros [= <-] _; split; [done|by intros (? & ?%elem_of_nil & _)]|].
  intros E Ht. destruct (Ht t ltac:(left)) as [c Hc]. rewrite Hc in E. cbn in E. destruct c.
  - injection E as <-. split; [|done]. intros _. exists t. split; [left|done].
  - rewrite (IH b E) by (intros; apply Ht; by right). split; [intros (x & ? & ?); exists x; split; [by right|done]|].
    intros (x & [->|?]%elem_of_cons & Hx); [congruence|by exists x].
Qed.
