(* ===== verification/Caddyfile.v ===== *)
(** * Caddyfile: lib/gat/gatcaddyfile, the directives of the configuration file

    A directive reads the tokens that follow it and returns a module
    (CaddyModules).  The tokens come from a caddyfile.Dispenser, a type of Caddy's:
    [DispenserOps] are the methods the directives call.  [P] is the monad of the
    unmarshallers: they move the dispenser, append warnings, fail with an error of
    the dispenser or panic.  Directives find each other in a registry, by namespace
    and name, so they take the lookup as a parameter; [unmarshallers] ties the knot.

    Two kinds of loops read a block: [lines] (for d.Val() != "}", NextLine) and
    [blocks] (for nesting := d.Nesting(); d.NextBlock(nesting)).  [fuel] bounds
    them and the depth of nested directives; as each takes a token, as much as
    there are tokens is enough (CaddyFacts). *)

From Stdlib Require Import Init.Byte Strings.Byte Strings.String.
From S2P Require Import Prelude.
From S2P Require Import Wire.
From S2P Require Import Packets.
From S2P Require Import Strutil.
From S2P Require Import Encodings.
From S2P Require Import Fed.
From S2P Require Import Startup.
From S2P Require Import Gat.
From S2P Require Import Containers.
From S2P Require Import CaddyModules.

Local Open Scope Z_scope.

(** ** constants.go, unmarshallers.go *)
Definition directiveSSL : string := "ssl".
Definition boolTrue : string := "true".
Definition boolFalse : string := "false".

Definition NsDiscoverer : gostring := lit "pggat.handlers.discovery.discoverers".
Definition NsDigitaloceanFilter : gostring := lit "pggat.handlers.discovery.discoverers.digitalocean.filters".
Definition NsHandler : gostring := lit "pggat.handlers".
Definition NsMatcher : gostring := lit "pggat.matchers".
Definition NsPool : gostring := lit "pggat.handlers.pool.pools".
Definition NsPooler : gostring := lit "pggat.handlers.pool.poolers".
Definition NsCritic : gostring := lit "pggat.handlers.pool.critics".
Definition NsSSLServer : gostring := lit "pggat.ssl.servers".
Definition NsSSLClient : gostring := lit "pggat.ssl.clients".
Definition NsTracing : gostring := lit "pggat.handlers.tracing".

(** ** The dispenser *)
Class DispenserOps (D : Type) := {
  Next : D -> bool * D;
  NextArg : D -> bool * D;
  NextLine : D -> bool * D;
  NextBlock : nat -> D -> bool * D;
  Nesting : D -> nat;
  Val : D -> gostring;
  Prev : D -> D;
  CountRemainingArgs : D -> nat
}.

(** Its errors, and those of strconv and time that it wraps or that are returned
    as they are. *)
Inductive cerr :=
| ArgErr
| EOFErr
| SyntaxErr (expected : string)
| Err (message : gostring)
| WrapErr (e : cerr)
| NumError
| DurationError
| OptionError (s : gostring)
| LevelError.

Section Caddyfile.
Context {D : Type} `{DispenserOps D} {J : Type}.

(** ** Unmarshallers *)
Definition St : Type := D * list gostring.
Definition P (A : Type) : Type := St -> outcome (cerr + A * St).

#[local] Instance P_ret : MRet P := fun A a st => Ret (inr (a, st)).
#[local] Instance P_bind : MBind P := fun A B k m st =>
  obind (m st) (fun r => match r with inl e => Ret (inl e) | inr (a, st) => k a st end).
Definition fail {A} (e : cerr) : P A := fun _ => Ret (inl e).
Definition panic {A} : P A := fun _ => Panic.
Definition diverge {A} : P A := fun _ => Diverge.

Definition next_arg : P bool := fun st => let '(b, d) := NextArg st.1 in Ret (inr (b, (d, st.2))).
Definition next_line : P bool := fun st => let '(b, d) := NextLine st.1 in Ret (inr (b, (d, st.2))).
Definition next_block (n : nat) : P bool := fun st => let '(b, d) := NextBlock n st.1 in Ret (inr (b, (d, st.2))).
Definition next : P bool := fun st => let '(b, d) := Next st.1 in Ret (inr (b, (d, st.2))).
Definition prev : P unit := fun st => Ret (inr (tt, (Prev st.1, st.2))).
Definition nesting : P nat := fun st => Ret (inr (Nesting st.1, st)).
Definition val : P gostring := fun st => Ret (inr (Val st.1, st)).
Definition count_remaining : P nat := fun st => Ret (inr (CountRemainingArgs st.1, st)).
Definition warn (ws : list gostring) : P unit := fun st => Ret (inr (tt, (st.1, st.2 ++ ws))).

(** [if !d.NextArg() { return nil, d.ArgErr() }], then [d.Val()]. *)
Definition arg : P gostring := b ← next_arg; if b : bool then val else fail ArgErr.

(** An error, wrapped or as it is. *)
Definition or_fail {A} (e : cerr) (o : option A) : P A := match o with Some a => mret a | None => fail e end.

Fixpoint switch {A} (v : gostring) (cases : list (string * A)) (default : A) : A :=
  match cases with
  | [] => default
  | (c, a) :: cases => if decide (v = lit c) then a else switch v cases default
  end.

Definition Unmarshaller : Type := P (option (CModule J)).
Definition give (m : CModule J) : Unmarshaller := mret (Some m).

(** ** unmarshaller.go *)

(** caddyconfig.JSONModuleObject: the object and its warnings. *)
Context (caddyconfig_JSONModuleObject : CModule J -> gostring -> gostring -> option J * list gostring).

Definition caddy_object (m : CModule J) (inlineKey moduleName : string) : P (option J) :=
  let '(raw, ws) := caddyconfig_JSONModuleObject m (lit inlineKey) (lit moduleName) in
  warn ws;; mret raw.

Definition wrong_namespace (namespace rawModuleID : gostring) : gostring :=
  quoted "expected item in namespace " " but got " namespace ++ [x22] ++ rawModuleID ++ [x22].

Definition JSONModuleObject (module : option (CModule J)) (namespace : gostring) (inlineKey : string) : P (option J) :=
  match module with
  | None => panic
  | Some m =>
      let rawModuleID := ID m in
      let dotModuleID := TrimPrefix rawModuleID namespace in
      let moduleID := TrimPrefix dotModuleID (lit ".") in
      if bool_decide (rawModuleID = dotModuleID) || bool_decide (dotModuleID = moduleID) then
        warn [wrong_namespace namespace rawModuleID];; mret None
      else
        let '(raw, ws) := caddyconfig_JSONModuleObject m (lit inlineKey) moduleID in
        warn ws;; mret raw
  end.

Definition Unmarshaller_JSONModuleObject (T : Unmarshaller) (namespace : gostring) (inlineKey : string) : P (option J) :=
  module ← T; JSONModuleObject module namespace inlineKey.

(** ** unmarshallers.go: the registry *)
Definition Registry : Type := TwoKey.t gostring gostring Unmarshaller.

Definition RegisterDirective (namespace directive : gostring) (unmarshaller : Unmarshaller) (r : Registry) : outcome Registry :=
  match TwoKey.Load namespace directive r with
  | Some _ => Panic
  | None => Ret (TwoKey.Store namespace directive unmarshaller r)
  end.
Definition LookupDirective (r : Registry) (namespace directive : gostring) : option Unmarshaller :=
  TwoKey.Load namespace directive r.

Definition Lookup : Type := gostring -> gostring -> option Unmarshaller.

Definition unknown_directive (namespace directive : gostring) : cerr :=
  Err (lit "unknown directive in " ++ namespace ++ quoted ": " "" directive).

Definition UnmarshalDirectiveJSONModuleObject (L : Lookup) (namespace : gostring) (inlineKey : string) : P (option J) :=
  v ← val;
  match L namespace v with
  | None => fail (unknown_directive namespace v)
  | Some u => Unmarshaller_JSONModuleObject u namespace inlineKey
  end.
Definition UnmarshalModule (L : Lookup) (namespace : gostring) : Unmarshaller :=
  v ← val;
  match L namespace v with
  | None => fail (unknown_directive namespace v)
  | Some u => u
  end.

(** ** Loops over blocks *)
Fixpoint lines {A} (fuel : nat) (body : gostring -> A -> P A) (module : A) : P A :=
  match fuel with
  | O => diverge
  | S fuel =>
      v ← val;
      if decide (v = lit "}") then mret module
      else
        module ← body v module;
        ok ← next_line;
        if ok : bool then lines fuel body module else fail EOFErr
  end.
Fixpoint blocks_loop {A} (fuel n : nat) (body : gostring -> A -> P A) (module : A) : P A :=
  match fuel with
  | O => diverge
  | S fuel =>
      ok ← next_block n;
      if ok : bool then
        v ← val;
        module ← body v module;
        blocks_loop fuel n body module
      else mret module
  end.

Section Directives.
Context (L : Lookup) (fuel : nat) (unicode_lower : gostring -> gostring).
(** time.ParseDuration and caddy.ParseDuration; slog's names of levels. *)
Context (time_ParseDuration caddy_ParseDuration : gostring -> option Z) (level : gostring -> option Z).

Definition MakeCI : gostring -> gostring := MakeCIString unicode_lower.

(** A block that must be there, read line by line; one that may be there. *)
Definition block {A} (body : gostring -> A -> P A) (module : A) : P A :=
  n ← nesting; ok ← next_block n; if ok : bool then lines fuel body module else fail ArgErr.
Definition blocks {A} (body : gostring -> A -> P A) (module : A) : P A :=
  n ← nesting; blocks_loop fuel n body module.

(** [if d.NextArg() { switch d.Val() {...} } else { true }] *)
Definition bool_arg (e : cerr) : P bool :=
  b ← next_arg;
  if b : bool then v ← val; switch v [(boolTrue, mret true); (boolFalse, mret false)] (fail e)
  else mret true.

Definition int_arg : P Z := v ← arg; or_fail (WrapErr NumError) (Strconv.Atoi v).
Definition duration_arg : P Z := v ← arg; or_fail (WrapErr DurationError) (time_ParseDuration v).
Definition caddy_duration_arg : P Z := v ← arg; or_fail (WrapErr DurationError) (caddy_ParseDuration v).
Definition key_value_arg : P (gostring * gostring) := v ← arg; or_fail (SyntaxErr "key=value") (Cut v).
Definition object_arg (namespace : gostring) (inlineKey : string) : P (option J) :=
  _ ← arg; UnmarshalDirectiveJSONModuleObject L namespace inlineKey.

(** Storing in a map that may be nil. *)
Definition store (kv : gostring * gostring) (m : option (gmap gostring gostring)) : option (gmap gostring gostring) :=
  Some (<[kv.1 := kv.2]> (contents m)).

(** *** pool.go *)
Definition defaultClientAcquireTimeout : Z := Minute.
Definition defaultServerIdleTimeout : Z := 5 * Minute.
Definition defaultServerReconnectInitialTime : Z := 5 * Second.
Definition defaultServerReconnectMaxTime : Z := 1 * Minute.
Definition defaultTrackedParameters : list gostring :=
  (fun s => MakeCI (lit s)) <$>
    ["client_encoding"; "datestyle"; "timezone"; "standard_conforming_strings"; "application_name"; "intervalstyle"; "search_path"]%string.
Definition defaultPoolConfig (base : basic.Config J) : basic.Config J :=
  basic.set_TrackedParameters defaultTrackedParameters
    (basic.set_ServerReconnectMaxTime defaultServerReconnectMaxTime
      (basic.set_ServerReconnectInitialTime defaultServerReconnectInitialTime
        (basic.set_ServerIdleTimeout defaultServerIdleTimeout
          (basic.set_ClientAcquireTimeout defaultClientAcquireTimeout base)))).

(** basic.Session and basic.Transaction have their poolers encoded. *)
Definition basic_Session : basic.Config J := Session (caddyconfig_JSONModuleObject LifoFactory (lit "pooler") (lit "lifo")).1.
Definition basic_Transaction : basic.Config J := Transaction (caddyconfig_JSONModuleObject RobFactory (lit "pooler") (lit "rob")).1.
Definition defaultPool : CModule J := BasicFactory (defaultPoolConfig basic_Transaction).

(** [packet_tracing_option] and [otel_tracing_option] *)
Definition tracing_option (wrap : cerr -> cerr) : P Z :=
  b ← next_arg;
  if b : bool then v ← val; or_fail (wrap (OptionError v)) (MapTracingOption unicode_lower v)
  else mret TracingOptionDisabled.

(** [reconnect initial [max]] *)
Definition reconnect_args : P (Z * Z) :=
  initialTime ← duration_arg;
  b ← next_arg;
  if b : bool then
    v ← val; maxTime ← or_fail (WrapErr DurationError) (time_ParseDuration v); mret (initialTime, maxTime)
  else mret (initialTime, initialTime).

(** [UnmarshalDirectiveJSONModuleObject] whose error is wrapped. *)
Definition wrapped {A} (m : P A) : P A := fun st =>
  obind (m st) (fun r => match r with inl e => Ret (inl (WrapErr e)) | inr x => Ret (inr x) end).

Definition basic_mode : P (basic.Config J) :=
  b ← next_arg;
  if b : bool then
    v ← val;
    switch v [("transaction", mret (defaultPoolConfig basic_Transaction)); ("session", mret (defaultPoolConfig basic_Session))]%string
      (fail ArgErr)
  else mret (basic.set_TrackedParameters [] (defaultPoolConfig basic_Transaction)).

Definition basic_option (directive : gostring) (module : basic.Config J) : P (basic.Config J) :=
  switch directive
    [("pooler", _ ← arg; raw ← wrapped (UnmarshalDirectiveJSONModuleObject L NsPooler "pooler"); mret (basic.set_RawPoolerFactory raw module));
     ("release_after_transaction", b ← bool_arg ArgErr; mret (basic.set_ReleaseAfterTransaction b module));
     ("parameter_status_sync", v ← arg; mret (basic.set_ParameterStatusSync v module));
     ("extended_query_sync", b ← bool_arg ArgErr; mret (basic.set_ExtendedQuerySync b module));
     ("packet_tracing_option", o ← tracing_option id; mret (basic.set_PacketTracingOption o module));
     ("otel_tracing_option", o ← tracing_option WrapErr; mret (basic.set_OtelTracingOption o module));
     ("reset_query", v ← arg; mret (basic.set_ServerResetQuery v module));
     ("reset_query_timeout", t ← duration_arg; mret (basic.set_ServerResetQueryTimeout t module));
     ("idle_timeout", t ← duration_arg; mret (basic.set_ServerIdleTimeout t module));
     ("reconnect", ts ← reconnect_args; mret (basic.set_ServerReconnectMaxTime ts.2 (basic.set_ServerReconnectInitialTime ts.1 module)));
     ("track", critic ← object_arg NsCritic "critic"; mret (basic.set_RawCritics (basic.RawCritics module ++ [critic]) module))]%string
    (fail ArgErr).
Definition pool_basic : Unmarshaller := module ← basic_mode; module ← blocks basic_option module; give (BasicFactory module).

Definition hybrid_option (directive : gostring) (module : hybrid.Config J) : P (hybrid.Config J) :=
  switch directive
    [("idle_timeout", t ← duration_arg; mret (hybrid.set_ServerIdleTimeout t module));
     ("reconnect", ts ← reconnect_args; mret (hybrid.set_ServerReconnectMaxTime ts.2 (hybrid.set_ServerReconnectInitialTime ts.1 module)));
     ("track", v ← arg; mret (hybrid.set_TrackedParameters (hybrid.TrackedParameters module ++ [MakeCI v]) module));
     ("penalize", critic ← object_arg NsCritic "critic"; mret (hybrid.set_RawCritics (hybrid.RawCritics module ++ [critic]) module))]%string
    (fail ArgErr).
Definition pool_hybrid : Unmarshaller :=
  module ← blocks hybrid_option
    (hybrid.mkConfig defaultClientAcquireTimeout [] 0 defaultServerIdleTimeout defaultServerReconnectInitialTime
       defaultServerReconnectMaxTime [] []);
  give (HybridFactory module).

(** *** pooler.go, ssl.go, digitalocean_filter.go *)
Definition pooler_lifo : Unmarshaller := give LifoFactory.
Definition pooler_rob : Unmarshaller := give RobFactory.

Definition ssl_self_signed : Unmarshaller := give SelfSigned.
Definition ssl_x509_key_pair : Unmarshaller := cert ← arg; key ← arg; give (X509KeyPair cert key).
Definition ssl_insecure_skip_verify : Unmarshaller := give InsecureSkipVerify.

Definition filter_tag : Unmarshaller := v ← arg; give (TagFilter v).

(** *** critic.go *)
Definition latency_option (directive : gostring) (critic : latency.Critic) : P latency.Critic :=
  switch directive
    [("validity", t ← caddy_duration_arg; mret (latency.set_Validity t critic));
     ("query_threshold", t ← caddy_duration_arg; mret (latency.set_QueryThreshold t critic))]%string
    (fail ArgErr).
Definition parseLatency (critic : latency.Critic) : Unmarshaller := critic ← blocks latency_option critic; give (LatencyCritic critic).
Definition parseQueryCritic : Unmarshaller :=
  let module := latency_NewCritic in
  b ← next_arg;
  if b : bool then
    v ← val; dur ← or_fail (WrapErr DurationError) (caddy_ParseDuration v);
    let module := latency.set_QueryThreshold dur module in
    b ← next_arg;
    if b : bool then
      v ← val; dur ← or_fail (WrapErr DurationError) (caddy_ParseDuration v);
      give (LatencyCritic (latency.set_Validity dur module))
    else give (LatencyCritic module)
  else parseLatency module.

Definition replication_option (directive : gostring) (module : replication.Critic) : P replication.Critic :=
  switch directive
    [("validity", t ← caddy_duration_arg; mret (replication.set_Validity t module));
     ("replication_threshold", t ← caddy_duration_arg; mret (replication.set_ReplicationThreshold t module));
     ("query_threshold", t ← caddy_duration_arg; mret (replication.set_QueryThreshold t module))]%string
    (fail ArgErr).
Definition critic_replication : Unmarshaller :=
  module ← blocks replication_option replication_NewCritic; give (ReplicationCritic module).

(** *** matcher.go *)
Definition matcher_user : Unmarshaller := v ← arg; give (CaddyModules.User v).
Definition matcher_database : Unmarshaller := v ← arg; give (CaddyModules.Database v).
Definition matcher_local_address : Unmarshaller :=
  address ← arg;
  give (CaddyModules.LocalAddress (if HasPrefix address (lit "/") then lit "unix" else lit "tcp") address).
Definition matcher_parameter : Unmarshaller := kv ← key_value_arg; give (CaddyModules.StartupParameter (MakeCI kv.1) kv.2).
Definition matcher_ssl : Unmarshaller := b ← bool_arg (SyntaxErr "boolean"); give (CaddyModules.SSL b).
Definition matcher_not : Unmarshaller :=
  b ← next_arg;
  if b : bool then
    matcher ← UnmarshalDirectiveJSONModuleObject L NsMatcher "matcher";
    give (CaddyModules.Not matcher)
  else fail (SyntaxErr "matcher directive").

(** One line of the block of [and] and [or]. *)
Definition matcher_line (directive : gostring) (l : list (option (CModule J))) : P (list (option (CModule J))) :=
  match L NsMatcher directive with
  | None => fail (Err (quoted "unknown matcher " "" directive))
  | Some u => m ← u; mret (l ++ [m])
  end.
Fixpoint raw_matchers (l : list (option (CModule J))) : P (list (option J)) :=
  match l with
  | [] => mret []
  | m :: l =>
      r ← JSONModuleObject m NsMatcher "matcher";
      raw ← raw_matchers l;
      mret (r :: raw)
  end.
Definition matcher_and : Unmarshaller :=
  and ← block matcher_line [];
  match and with
  | [] => mret None
  | [m] => mret m
  | _ => raw ← raw_matchers and; give (CaddyModules.And raw)
  end.
Definition matcher_or : Unmarshaller :=
  or ← block matcher_line [];
  match or with
  | [m] => mret m
  | _ => raw ← raw_matchers or; give (CaddyModules.Or raw)
  end.

(** *** discoverer.go *)
Definition digitalocean_option (directive : gostring) (module : digitalocean.Config J) : P (digitalocean.Config J) :=
  switch directive
    [("token", v ← arg; mret (digitalocean.set_APIKey v module));
     ("private", b ← bool_arg ArgErr; mret (digitalocean.set_Private b module));
     ("discover_standby", b ← bool_arg ArgErr; mret (digitalocean.set_DiscoverStandby b module));
     ("filter", f ← object_arg NsDigitaloceanFilter "filter"; mret (digitalocean.set_Filter f module))]%string
    (fail ArgErr).
Definition discoverer_digitalocean : Unmarshaller :=
  let module := digitalocean.mkConfig [] false false None in
  b ← next_arg;
  if b : bool then v ← val; give (Digitalocean (digitalocean.set_APIKey v module))
  else module ← block digitalocean_option module; give (Digitalocean module).

Definition discoverer_google_cloud_sql : Unmarshaller :=
  project ← arg; user ← arg; password ← arg;
  give (GoogleCloudSql (google_cloud_sql.mkConfig project (lit "PRIMARY") user password)).

(** [namespace [name] { label key value }] of both operators. *)
Definition namespace_option (subDirective : gostring) (nm : NamespaceMatcher) : P NamespaceMatcher :=
  switch subDirective
    [("label",
      b ← next_arg;
      if b : bool then
        key ← val;
        b ← next_arg;
        if b : bool then value ← val; mret (set_Label key value nm)
        else fail (Err (lit "label directive requires a value argument for key " ++ key))
      else fail (Err (lit "label directive requires a key argument")))]%string
    (fail (Err (lit "unrecognized namespace subdirective: " ++ subDirective))).
Definition namespace_arg (nm : NamespaceMatcher) : P NamespaceMatcher :=
  b ← next_arg;
  nm ← (if b : bool then v ← val; mret (set_Namespace v nm) else mret nm);
  blocks namespace_option nm.

(** [strconv.ParseInt(d.Val(), 10, 32)] *)
Definition int32_arg (name : string) : P Z :=
  v ← arg;
  or_fail (Err (lit "error parsing " ++ lit name))
    (z ← Strconv.Atoi v; if between (- 2 ^ 31) (2 ^ 31 - 1) z then Some z else None).

Definition operator_option (directive : gostring) (module : zalando_operator.Config) : P zalando_operator.Config :=
  switch directive
    [("cluster_domain", v ← arg; mret (zalando_operator.set_ClusterDomain v module));
     ("secret_name_template", v ← arg; mret (zalando_operator.set_SecretNameTemplate v module));
     ("connection_pooler_number_of_instances",
      i ← int32_arg "connection_pooler_number_of_instances"; mret (zalando_operator.set_ConnectionPoolerNumberOfInstances (Some i) module));
     ("connection_pooler_mode", v ← arg; mret (zalando_operator.set_ConnectionPoolerMode v module));
     ("connection_pooler_max_db_connections",
      i ← int32_arg "connection_pooler_max_db_instances"; mret (zalando_operator.set_ConnectionPoolerMaxDBConnections (Some i) module))]%string
    (fail ArgErr).
Definition zalando_option (directive : gostring) (module : zalando_operator.Config) : P zalando_operator.Config :=
  switch directive
    [("namespace", nm ← namespace_arg (zalando_operator.Namespace module); mret (zalando_operator.set_Namespace nm module));
     ("operator_configuration_object", v ← arg; mret (zalando_operator.set_OperatorConfigurationObject v module));
     ("config_map_name", v ← arg; mret (zalando_operator.set_ConfigMapName v module));
     ("config", blocks operator_option module)]%string
    (fail ArgErr).
Definition discoverer_zalando_operator : Unmarshaller :=
  let module := zalando_operator.mkConfig (mkMatcher (lit "default") ∅) [] [] [] [] None [] None in
  b ← next_arg;
  module ← (if b : bool then v ← val; mret (zalando_operator.set_OperatorConfigurationObject v module) else mret module);
  module ← blocks zalando_option module;
  give (ZalandoOperator module).

Definition cnpg_option (directive : gostring) (module : cloudnative_pg.Config) : P cloudnative_pg.Config :=
  switch directive
    [("namespace", nm ← namespace_arg (cloudnative_pg.Namespace module); mret (cloudnative_pg.set_Namespace nm module));
     ("cluster_domain", v ← arg; mret (cloudnative_pg.set_ClusterDomain v module));
     ("read_write_service_suffix", v ← arg; mret (cloudnative_pg.set_ReadWriteServiceSuffix v module));
     ("read_only_service_suffix", v ← arg; mret (cloudnative_pg.set_ReadOnlyServiceSuffix v module));
     ("port", v ← arg; port ← or_fail (Err (lit "error parsing port")) (Strconv.Atoi v); mret (cloudnative_pg.set_Port port module));
     ("secret_suffix", v ← arg; mret (cloudnative_pg.set_SecretSuffix v module));
     ("include_superuser", b ← bool_arg ArgErr; mret (cloudnative_pg.set_IncludeSuperuser b module))]%string
    (fail ArgErr).
Definition discoverer_cloudnative_pg : Unmarshaller :=
  module ← blocks cnpg_option
    (cloudnative_pg.mkConfig (mkMatcher [] ∅) (lit "cluster.local") (lit "-rw") (lit "-ro") 5432 (lit "-app") false);
  give (CloudnativePg module).

(** *** tracing.go *)
Definition text_arg (e : string) : P gostring := b ← next_arg; if b : bool then val else fail (Err (lit e)).
Definition otel_option (directive : gostring) (module : otel_tracing.Config) : P otel_tracing.Config :=
  switch directive
    [("service_name", v ← text_arg "expected service name value"; mret (otel_tracing.set_ServiceName v module));
     ("service_namespace", v ← text_arg "expected service namespace value"; mret (otel_tracing.set_ServiceNamespace v module));
     ("endpoint", v ← text_arg "expected endpoint value"; mret (otel_tracing.set_Endpoint v module));
     ("batch_timeout",
      v ← text_arg "expected batch timeout value"; dur ← or_fail DurationError (caddy_ParseDuration v);
      mret (otel_tracing.set_BatchTimout (Some dur) module));
     ("sample_rate", v ← text_arg "expected sample rate value"; mret (otel_tracing.set_SamplerRate v module));
     ("log_level",
      v ← text_arg "expected log level value"; l ← or_fail LevelError (level v);
      mret (otel_tracing.set_LogLevel l module))]%string
    (mret module).
Definition OtelTracingName : gostring := lit "otel".
Definition tracing_otel : Unmarshaller := module ← blocks otel_option otel_tracing_NewModule; give (OtelTracing module).

(** *** handler.go *)
Definition handler_require_ssl : Unmarshaller := b ← bool_arg (SyntaxErr "boolean"); give (RequireSSL b).
Definition handler_allowed_startup_parameters : Unmarshaller :=
  l ← block (fun v l => mret (l ++ [MakeCI v])) []; give (AllowedStartupParameters l).

(** [user [mode] user], [database [mode] database] *)
Definition rewrite_args : P (gostring * gostring) :=
  mode ← arg;
  b ← next_arg;
  if b : bool then v ← val; mret (mode, v) else mret ([], mode).
Definition handler_user : Unmarshaller := mu ← rewrite_args; give (RewriteUser mu.1 mu.2).
Definition handler_password : Unmarshaller := v ← arg; give (RewritePassword v).
Definition handler_database : Unmarshaller := md ← rewrite_args; give (RewriteDatabase md.1 md.2).
Definition handler_parameter : Unmarshaller := kv ← key_value_arg; give (RewriteParameter (MakeCI kv.1) kv.2).
Definition handler_error : Unmarshaller := v ← arg; give (ErrorHandler v).
Definition handler_pgbouncer : Unmarshaller :=
  b ← next_arg;
  config ← (if b : bool then val else mret (lit "pgbouncer.ini"));
  give (Pgbouncer config).

Definition SSLModePrefer : gostring := lit "prefer".

(** [ssl mode provider] *)
Definition ssl_args : P (gostring * option J) :=
  mode ← arg; provider ← object_arg NsSSLClient "provider"; mret (mode, provider).

Definition discovery_option (directive : gostring) (module : discovery.Config J) : P (discovery.Config J) :=
  switch directive
    [("reconcile_period", t ← duration_arg; mret (discovery.set_ReconcilePeriod t module));
     ("max_connections", n ← int_arg; mret (discovery.set_ServerMaxConnections n module));
     ("min_connections", n ← int_arg; mret (discovery.set_ServerMinConnections n module));
     ("discoverer", raw ← object_arg NsDiscoverer "discoverer"; mret (discovery.set_Discoverer raw module));
     ("pool", raw ← object_arg NsPool "pool"; mret (discovery.set_Pool raw module));
     (directiveSSL, ms ← ssl_args; mret (discovery.set_ServerSSL ms.2 (discovery.set_ServerSSLMode ms.1 module)));
     ("parameter", kv ← key_value_arg;
      mret (discovery.set_ServerStartupParameters (store kv (discovery.ServerStartupParameters module)) module))]%string
    (fail ArgErr).
Definition handler_discovery : Unmarshaller :=
  pool ← JSONModuleObject (Some defaultPool) NsPool "pool";
  ssl ← JSONModuleObject (Some InsecureSkipVerify) NsSSLClient "provider";
  let module := discovery.mkConfig (5 * Minute) None pool SSLModePrefer ssl 0 100 None in
  b ← next_arg;
  if b : bool then
    raw ← UnmarshalDirectiveJSONModuleObject L NsDiscoverer "discoverer";
    give (CaddyModules.Discovery (discovery.set_Discoverer raw module))
  else module ← block discovery_option module; give (CaddyModules.Discovery module).

Definition spilo_option (directive : gostring) (module : pgbouncer_spilo.Config) : P pgbouncer_spilo.Config :=
  switch directive
    [("host", v ← arg; mret (pgbouncer_spilo.set_Host v module));
     ("port", n ← int_arg; mret (pgbouncer_spilo.set_Port n module));
     ("user", v ← arg; mret (pgbouncer_spilo.set_User v module));
     ("schema", v ← arg; mret (pgbouncer_spilo.set_Schema v module));
     ("password", v ← arg; mret (pgbouncer_spilo.set_Password v module));
     ("mode", v ← arg; mret (pgbouncer_spilo.set_Mode v module));
     ("default_size", n ← int_arg; mret (pgbouncer_spilo.set_DefaultSize n module));
     ("min_size", n ← int_arg; mret (pgbouncer_spilo.set_MinSize n module));
     ("reserve_size", n ← int_arg; mret (pgbouncer_spilo.set_ReserveSize n module));
     ("max_client_conn", n ← int_arg; mret (pgbouncer_spilo.set_MaxClientConn n module));
     ("max_db_conn", n ← int_arg; mret (pgbouncer_spilo.set_MaxDBConn n module))]%string
    (fail ArgErr).
Definition handler_pgbouncer_spilo : Unmarshaller :=
  module ← block spilo_option (pgbouncer_spilo.mkConfig [] 0 [] [] [] [] 0 0 0 0 0); give (PgbouncerSpilo module).

Definition pool_option (directive : gostring) (module : pool_handler.Config J) : P (pool_handler.Config J) :=
  switch directive
    [("pool", raw ← object_arg NsPool "pool"; mret (pool_handler.set_Pool raw module));
     ("address", v ← arg; mret (pool_handler.set_Address v module));
     (directiveSSL, ms ← ssl_args; mret (pool_handler.set_RawSSL ms.2 (pool_handler.set_SSLMode ms.1 module)));
     ("username", v ← arg; mret (pool_handler.set_Username v module));
     ("password", v ← arg; mret (pool_handler.set_RawPassword v module));
     ("database", v ← arg; mret (pool_handler.set_Database v module));
     ("parameter", kv ← key_value_arg;
      mret (pool_handler.set_RawParameters (store kv (pool_handler.RawParameters module)) module))]%string
    (fail ArgErr).
Definition handler_pool : Unmarshaller :=
  pool ← JSONModuleObject (Some defaultPool) NsPool "pool";
  ssl ← JSONModuleObject (Some InsecureSkipVerify) NsSSLClient "provider";
  let module := pool_handler.mkConfig pool [] SSLModePrefer [] [] ssl [] None in
  b ← next_arg;
  if b : bool then
    address ← val; database ← arg; username ← arg; password ← arg;
    give (CaddyModules.PoolHandler
      (pool_handler.set_RawPassword password (pool_handler.set_Username username
        (pool_handler.set_Database database (pool_handler.set_Address address module)))))
  else module ← blocks pool_option module; give (CaddyModules.PoolHandler module).

Definition handler_tracing : Unmarshaller :=
  directive ← text_arg "expected a tracing directive";
  if decide (directive = OtelTracingName) then UnmarshalModule L NsTracing else mret None.

(** ** The init functions *)
Definition directives : list (gostring * string * Unmarshaller) :=
  [(NsCritic, "query_latency", parseQueryCritic); (NsCritic, "latency", parseQueryCritic);
   (NsCritic, "replication_latency", critic_replication);
   (NsDigitaloceanFilter, "tag", filter_tag);
   (NsDiscoverer, "digitalocean", discoverer_digitalocean); (NsDiscoverer, "google_cloud_sql", discoverer_google_cloud_sql);
   (NsDiscoverer, "zalando_operator", discoverer_zalando_operator); (NsDiscoverer, "cloudnative_pg", discoverer_cloudnative_pg);
   (NsHandler, "require_ssl", handler_require_ssl); (NsHandler, "allowed_startup_parameters", handler_allowed_startup_parameters);
   (NsHandler, "user", handler_user); (NsHandler, "password", handler_password); (NsHandler, "database", handler_database);
   (NsHandler, "parameter", handler_parameter); (NsHandler, "error", handler_error); (NsHandler, "pgbouncer", handler_pgbouncer);
   (NsHandler, "discovery", handler_discovery); (NsHandler, "pgbouncer_spilo", handler_pgbouncer_spilo);
   (NsHandler, "pool", handler_pool); (NsHandler, "tracing", handler_tracing);
   (NsMatcher, "user", matcher_user); (NsMatcher, "database", matcher_database);
   (NsMatcher, "local_address", matcher_local_address); (NsMatcher, "parameter", matcher_parameter);
   (NsMatcher, directiveSSL, matcher_ssl); (NsMatcher, "not", matcher_not);
   (NsMatcher, "and", matcher_and); (NsMatcher, "or", matcher_or);
   (NsPool, "basic", pool_basic); (NsPool, "hybrid", pool_hybrid);
   (NsPooler, "lifo", pooler_lifo); (NsPooler, "rob", pooler_rob);
   (NsSSLServer, "self_signed", ssl_self_signed); (NsSSLServer, "x509_key_pair", ssl_x509_key_pair);
   (NsSSLClient, "insecure_skip_verify", ssl_insecure_skip_verify);
   (NsTracing, "otel", tracing_otel)]%string.

Fixpoint register (ds : list (gostring * string * Unmarshaller)) (r : Registry) : outcome Registry :=
  match ds with
  | [] => Ret r
  | (namespace, directive, u) :: ds => obind (RegisterDirective namespace (lit directive) u r) (register ds)
  end.
Definition init : outcome Registry := register directives TwoKey.empty.
End Directives.

(** The lookup that the directives do: at the bottom of the fuel a directive keeps
    running; above, it has the registry with the lookup below. *)
Section Knot.
Context (unicode_lower : gostring -> gostring).
Context (time_ParseDuration caddy_ParseDuration : gostring -> option Z) (level : gostring -> option Z).

Fixpoint lookup (fuel : nat) : Lookup := fun namespace directive =>
  match fuel with
  | O => Some diverge
  | S fuel =>
      match init (lookup fuel) (S fuel) unicode_lower time_ParseDuration caddy_ParseDuration level with
      | Ret r => LookupDirective r namespace directive
      | _ => Some panic
      end
  end.
End Knot.
End Caddyfile.
