(* ===== verification/CaddyFacts.v ===== *)
(** * CaddyFacts: what the directives of the configuration file do

    - The init functions register every directive, none twice ([init_lookup]).
    - With as much fuel as there are tokens every directive returns
      ([directive_returns]), for any dispenser that takes a token each time it says
      it found one ([DispenserLaws]).
    - A directive returns modules of its own namespace, so JSONModuleObject encodes
      them and warns of nothing ([directive_namespace]).
    - The matcher directives mean what they say ([matcher_directives_mean]): a tree
      of matchers written as directives, read, encoded, loaded and provisioned,
      matches the clients the tree describes. *)

From Stdlib Require Import Init.Byte Strings.Byte Strings.String.
From S2P Require Import Prelude.
From S2P Require Import Wire.
From S2P Require Import Packets.
From S2P Require Import Strutil.
From S2P Require Import Encodings.
From S2P Require Import Fed.
From S2P Require Import Startup.
From S2P Require Import Gat.
From S2P Require Import Containers.
From S2P Require Import CaddyModules.
From S2P Require Import Caddyfile.

(** What Caddy documents of a dispenser's methods: they say whether they loaded a
    token, and a token is loaded once. *)
Class DispenserLaws (D : Type) `{DispenserOps D} := {
  remaining : D -> nat;
  NextArg_moves d : remaining (NextArg d).2 <= remaining d;
  NextArg_takes d : (NextArg d).1 = true -> remaining (NextArg d).2 < remaining d;
  NextLine_moves d : remaining (NextLine d).2 <= remaining d;
  NextLine_takes d : (NextLine d).1 = true -> remaining (NextLine d).2 < remaining d;
  NextBlock_moves n d : remaining (NextBlock n d).2 <= remaining d;
  NextBlock_takes n d : (NextBlock n d).1 = true -> remaining (NextBlock n d).2 < remaining d;
  Next_moves d : remaining (Next d).2 <= remaining d;
  Prev_back d : (NextArg d).1 = true -> remaining (Prev (NextArg d).2) <= remaining d
}.

Section Facts.
Context {D : Type} `{DispenserOps D} {J : Type}.
Context (cj : CModule J -> gostring -> gostring -> option J * list gostring).
Context (unicode_lower : gostring -> gostring).
Context (time_ParseDuration caddy_ParseDuration : gostring -> option Z) (level : gostring -> option Z).

#[local] Existing Instances P_ret P_bind.

Abbreviation the_directives L fuel := (directives cj L fuel unicode_lower time_ParseDuration caddy_ParseDuration level).
Abbreviation the_init L fuel := (init cj L fuel unicode_lower time_ParseDuration caddy_ParseDuration level).
Abbreviation the_lookup := (lookup cj unicode_lower time_ParseDuration caddy_ParseDuration level).

(** ** The registry *)
Abbreviation key := (fun e : gostring * string * Unmarshaller => (e.1.1, lit e.1.2)).

Fixpoint find (ds : list (gostring * string * @Unmarshaller D J)) (namespace directive : gostring) : option Unmarshaller :=
  match ds with
  | [] => None
  | e :: ds => if decide ((namespace, directive) = key e) then Some e.2 else find ds namespace directive
  end.

Lemma register_spec ds (r : @Registry D J) : NoDup (key <$> ds) -> (forall e, e ∈ ds -> TwoKey.Load (key e).1 (key e).2 r = None) ->
  exists r', register ds r = Ret r' /\
  forall ns d, LookupDirective r' ns d = match find ds ns d with Some u => Some u | None => LookupDirective r ns d end.
Proof.
  revert r. induction ds as [|[[ns0 d0] u] ds IH]; intros r Hnd Hr; cbn; [by exists r|].
  apply NoDup_cons in Hnd as [Hni Hnd]. unfold RegisterDirective.
  assert (Hn : TwoKey.Load ns0 (lit d0) r = None) by (apply (Hr (ns0, d0, u)); left). rewrite Hn. cbn.
  destruct (IH (TwoKey.Store ns0 (lit d0) u r) Hnd) as (r' & -> & Hl).
  - intros e He. rewrite TwoKey.Load_Store. rewrite decide_False.
    + apply Hr. by right.
    + intros E. apply Hni. apply list_elem_of_fmap. exists e. split; [exact (eq_sym E)|done].
  - exists r'. split; [done|]. intros ns d. rewrite Hl. unfold LookupDirective. rewrite TwoKey.Load_Store. cbn.
    destruct (find ds ns d) as [u'|] eqn:Hf; cbn; [|repeat case_decide; done].
    case_decide as E; [|done]. exfalso. apply Hni. clear -Hf E.
    induction ds as [|e ds IH]; cbn in *; [done|]. case_decide as E'; [|right; auto].
    rewrite <- E, E'. left.
Qed.

Lemma directives_NoDup L fuel : NoDup (key <$> the_directives L fuel).
Proof.
  eapply (bool_decide_unpack (NoDup _)). vm_compute. exact I.
Qed.

(** Every init function runs: no directive is registered twice. *)
Lemma init_lookup L fuel : exists r, the_init L fuel = Ret r /\ forall ns d, LookupDirective r ns d = find (the_directives L fuel) ns d.
Proof.
  destruct (register_spec (the_directives L fuel) TwoKey.empty (directives_NoDup L fuel)) as (r & E & Hr); [done|].
  exists r. split; [exact E|]. intros ns d. rewrite Hr. by destruct (find _ ns d).
Qed.

Lemma lookup_S fuel ns d : the_lookup (S fuel) ns d = find (the_directives (the_lookup fuel) (S fuel)) ns d.
Proof. cbn [lookup]. destruct (init_lookup (the_lookup fuel) (S fuel)) as (r & -> & Hr). apply Hr. Qed.

Lemma find_elem ds ns d (u : @Unmarshaller D J) : find ds ns d = Some u -> exists e, e ∈ ds /\ key e = (ns, d) /\ e.2 = u.
Proof.
  induction ds as [|e ds IH]; cbn; [done|]. case_decide as E.
  - intros [= <-]. exists e. split; [left|done].
  - intros Hf. destruct (IH Hf) as (e' & ? & ? & ?). exists e'. split; [by right|done].
Qed.

Lemma find_in ds i ns d (u : @Unmarshaller D J) : NoDup (key <$> ds) -> ds !! i = Some (ns, d, u) -> find ds ns (lit d) = Some u.
Proof.
  revert i. induction ds as [|e ds IH]; intros i Hnd Hi; [done|]. apply NoDup_cons in Hnd as [Hni Hnd].
  destruct i as [|i]; cbn [find].
  - injection Hi as ->. by rewrite decide_True.
  - rewrite decide_False; [by eapply IH|]. intros E. apply Hni. apply list_elem_of_fmap. exists (ns, d, u). split; [by rewrite <- E|].
    by eapply list_elem_of_lookup_2.
Qed.

(** The [i]-th directive is found under its name. *)
Lemma lookup_directive fuel i ns d u : the_directives (the_lookup fuel) (S fuel) !! i = Some (ns, d, u) -> the_lookup (S fuel) ns (lit d) = Some u.
Proof. intros Hi. rewrite lookup_S. eapply find_in; [apply directives_NoDup|exact Hi]. Qed.

(** ** Directives return *)
Section Returns.
Context {laws : DispenserLaws D}.

(** [m] returns on dispensers with at most [k] tokens left and leaves no more. *)
Definition halts {A} (k : nat) (m : @P D A) : Prop :=
  forall st, remaining st.1 <= k ->
  match m st with
  | Ret (inr (_, st')) => remaining st'.1 <= remaining st.1
  | Ret (inl _) | Panic => True
  | Diverge => False
  end.

Lemma halts_ret {A} k (a : A) : halts k (mret a).
Proof. intros st _. cbn. lia. Qed.
Lemma halts_fail {A} k e : halts k (fail e : P A).
Proof. done. Qed.
Lemma halts_panic {A} k : halts k (panic : P A).
Proof. done. Qed.
Lemma halts_mono {A} j k (m : P A) : j <= k -> halts k m -> halts j m.
Proof. intros Hj Hm st Hst. apply Hm. lia. Qed.
Lemma halts_bind {A B} k (m : P A) (f : A -> P B) : halts k m -> (forall a, halts k (f a)) -> halts k (m ≫= f).
Proof.
  intros Hm Hf st Hst. specialize (Hm st Hst). unfold mbind, P_bind. destruct (m st) as [[e|[a st1]]| |]; cbn; try done.
  specialize (Hf a st1 ltac:(lia)). destruct (f a st1) as [[e|[b st2]]| |]; try done. lia.
Qed.
Lemma halts_wrapped {A} k (m : P A) : halts k m -> halts k (wrapped m).
Proof.
  intros Hm st Hst. specialize (Hm st Hst). unfold wrapped. by destruct (m st) as [[e|[a st']]| |].
Qed.
Lemma halts_or_fail {A} k e (o : option A) : halts k (or_fail e o : P A).
Proof. destruct o; [apply halts_ret|apply halts_fail]. Qed.
Lemma halts_val k : halts k (val (D := D)).
Proof. intros st _. cbn. lia. Qed.
Lemma halts_nesting k : halts k (nesting (D := D)).
Proof. intros st _. cbn. lia. Qed.
Lemma halts_warn k ws : halts k (warn (D := D) ws).
Proof. intros st _. cbn. lia. Qed.
Lemma halts_switch {A} k v (cases : list (string * P A)) (d : P A) : Forall (fun c => halts k c.2) cases -> halts k d -> halts k (switch v cases d).
Proof. intros Hc Hd. induction Hc as [|[c m] l Hm _ IH]; cbn; [done|]. by case_decide. Qed.

(** A token that is found is one less. *)
Lemma halts_taken {A} (step : D -> bool * D) k (m1 m2 : P A) :
  (forall d, remaining (step d).2 <= remaining d) -> (forall d, (step d).1 = true -> remaining (step d).2 < remaining d) ->
  (forall j, j < k -> halts j m1) -> halts k m2 ->
  halts k ((fun st => let '(b, d) := step st.1 in Ret (inr (b, (d, st.2)))) ≫= fun b : bool => if b then m1 else m2).
Proof.
  intros Hm Ht H1 H2 [d ws] Hd. unfold mbind, P_bind. cbn in *. specialize (Hm d). specialize (Ht d).
  destruct (step d) as [[] d']; cbn in *.
  - specialize (Ht eq_refl). specialize (H1 (remaining d') ltac:(lia) (d', ws) ltac:(done)).
    destruct (m1 _) as [[e|[a st']]| |]; cbn in *; try done. lia.
  - specialize (H2 (d', ws) ltac:(cbn; lia)). destruct (m2 _) as [[e|[a st']]| |]; cbn in *; try done. lia.
Qed.
Lemma halts_next_arg {A} k (m1 m2 : P A) : (forall j, j < k -> halts j m1) -> halts k m2 -> halts k (b ← next_arg; if b : bool then m1 else m2).
Proof. apply (halts_taken NextArg); [apply NextArg_moves|apply NextArg_takes]. Qed.
Lemma halts_next_line {A} k (m1 m2 : P A) : (forall j, j < k -> halts j m1) -> halts k m2 -> halts k (b ← next_line; if b : bool then m1 else m2).
Proof. apply (halts_taken NextLine); [apply NextLine_moves|apply NextLine_takes]. Qed.
Lemma halts_next_block {A} n k (m1 m2 : P A) : (forall j, j < k -> halts j m1) -> halts k m2 -> halts k (b ← next_block n; if b : bool then m1 else m2).
Proof. apply (halts_taken (NextBlock n)); [apply NextBlock_moves|apply NextBlock_takes]. Qed.
Lemma halts_next_arg_moves k : halts k (next_arg (D := D)).
Proof. intros [d ws] _. unfold next_arg. cbn. pose proof (NextArg_moves d). by destruct (NextArg d). Qed.

(** After an argument. *)
Lemma halts_needs {A} e k (f : gostring -> P A) :
  (forall j v, j < k -> halts j (f v)) -> halts k ((b ← next_arg; if b : bool then val else fail e) ≫= f).
Proof.
  intros Hf. assert (HT : halts k (b ← next_arg; if b : bool then v ← val; f v else fail e)).
  { apply halts_next_arg; [|done]. intros j Hj. apply halts_bind; [apply halts_val|auto]. }
  intros st Hst. specialize (HT st Hst). unfold mbind, P_bind, next_arg in *. cbn in *. by destruct (NextArg st.1) as [[] d'].
Qed.
Definition halts_arg {A} k f Hf : halts k (v ← arg; f v) := @halts_needs A ArgErr k f Hf.
Definition halts_text_arg {A} e k f Hf : halts k (v ← text_arg e; f v) := @halts_needs A (Err (lit e)) k f Hf.

(** Loops: an iteration takes a token. *)
Lemma halts_lines {A} fuel k (body : gostring -> A -> P A) a :
  (forall v a, halts k (body v a)) -> k < fuel -> halts k (lines fuel body a).
Proof.
  revert k a. induction fuel as [|fuel IH]; intros k a Hb Hk; [lia|]. cbn [lines].
  apply halts_bind; [apply halts_val|]. intros v. case_decide; [apply halts_ret|]. apply halts_bind; [apply Hb|]. intros a'.
  apply halts_next_line; [|apply halts_fail]. intros j Hj. apply IH; [|lia]. intros. eapply halts_mono; [|apply Hb]. lia.
Qed.
Lemma halts_blocks_loop {A} fuel n k (body : gostring -> A -> P A) a :
  (forall j v a, j < k -> halts j (body v a)) -> k < fuel -> halts k (blocks_loop fuel n body a).
Proof.
  revert k a. induction fuel as [|fuel IH]; intros k a Hb Hk; [lia|]. cbn [blocks_loop].
  apply halts_next_block; [|apply halts_ret]. intros j Hj. apply halts_bind; [apply halts_val|]. intros v.
  apply halts_bind; [by apply Hb|]. intros a'. apply IH; [|lia]. intros i v' a'' Hi. apply Hb. lia.
Qed.
Lemma halts_block {A} fuel k (body : gostring -> A -> P A) a :
  (forall j v a, j < k -> halts j (body v a)) -> k <= fuel -> halts k (block fuel body a).
Proof.
  intros Hb Hk. apply halts_bind; [apply halts_nesting|]. intros n. apply halts_next_block; [|apply halts_fail].
  intros j Hj. apply halts_lines; [|lia]. intros. by apply Hb.
Qed.
Lemma halts_blocks {A} fuel k (body : gostring -> A -> P A) a :
  (forall j v a, j < k -> halts j (body v a)) -> k < fuel -> halts k (blocks fuel body a).
Proof. intros Hb Hk. apply halts_bind; [apply halts_nesting|]. intros n. by apply halts_blocks_loop. Qed.

Lemma halts_JSONModuleObject k m ns key : halts k (JSONModuleObject cj m ns key).
Proof.
  destruct m as [m|]; [|apply halts_panic]. unfold JSONModuleObject. case_match.
  - apply halts_bind; [apply halts_warn|]. intros. apply halts_ret.
  - destruct (cj _ _ _) as [raw ws]. apply halts_bind; [apply halts_warn|]. intros. apply halts_ret.
Qed.

Lemma halts_raw_matchers k l : halts k (raw_matchers cj l).
Proof.
  induction l as [|m l IH]; cbn; [apply halts_ret|]. apply halts_bind; [apply halts_JSONModuleObject|]. intros r.
  apply halts_bind; [apply IH|]. intros. apply halts_ret.
Qed.

Section Lookup.
Context (L : @Lookup D J) (k fuel : nat) (HL : forall j ns d u, j < k -> L ns d = Some u -> halts j u) (Hk : k < fuel).

Lemma halts_object j ns key : j < k -> halts j (UnmarshalDirectiveJSONModuleObject cj L ns key).
Proof using HL.
  intros Hj. apply halts_bind; [apply halts_val|]. intros v. destruct (L ns v) as [u|] eqn:Hu; [|apply halts_fail].
  apply halts_bind; [by eapply HL|]. intros m. apply halts_JSONModuleObject.
Qed.

(** What each directive is made of. *)
Ltac t_step :=
  match goal with
  | |- halts _ (mret _) => apply halts_ret
  | |- halts _ (give _) => apply halts_ret
  | |- halts _ (fail _) => apply halts_fail
  | |- halts _ panic => apply halts_panic
  | |- halts _ val => apply halts_val
  | |- halts _ (or_fail _ _) => apply halts_or_fail
  | |- halts _ (JSONModuleObject _ _ _ _) => apply halts_JSONModuleObject
  | |- halts _ (UnmarshalDirectiveJSONModuleObject _ _ _ _) => apply halts_object; lia
  | |- halts _ (switch _ _ _) => apply halts_switch; [repeat apply Forall_cons_2; try apply Forall_nil_2|]; cbn [snd]
  | |- halts _ (_ ← next_arg; if _ then _ else _) => apply halts_next_arg; [intros ? ?|]
  | |- halts _ (_ ← arg; _) => apply halts_arg; intros ? ? ?
  | |- halts _ (_ ← text_arg _; _) => apply halts_text_arg; intros ? ? ?
  | |- halts _ next_arg => apply halts_next_arg_moves
  | |- halts _ (raw_matchers _ _) => apply halts_raw_matchers
  | H : L _ _ = Some ?u |- halts _ ?u => eapply HL; [|exact H]; lia
  | |- halts _ (block _ _ _) => apply halts_block; [intros ? ? ? ?|lia]
  | |- halts _ (blocks _ _ _) => apply halts_blocks; [intros ? ? ? ?|lia]
  | |- halts _ (mbind _ _) => apply halts_bind; [|intros ?]
  | |- halts _ (wrapped _) => apply halts_wrapped
  | |- halts _ (if ?b then _ else _) => destruct b
  | |- halts _ (match ?x with _ => _ end) => destruct x eqn:?
  end.

Ltac get_head m := lazymatch m with ?f _ => get_head f | _ => m end.
Ltac t_open :=
  match goal with
  | |- halts _ ?m =>
      let h := get_head m in
      first [ constr_eq h (@mbind); fail 1 | unfold h ]
  end.

Abbreviation dirs := (the_directives L fuel).

Lemma halts_directives : Forall (fun e => halts k e.2) dirs.
Proof using HL Hk laws.
  repeat apply Forall_cons_2; try apply Forall_nil_2; cbn [snd]; unfold matcher_and, matcher_or;
    repeat first [t_step | t_open].
Qed.
End Lookup.

Lemma lookup_halts fuel ns d u : the_lookup fuel ns d = Some u -> forall k, k < fuel -> halts k u.
Proof using laws.
  revert ns d u. induction fuel as [|fuel IH]; intros ns d u Hu k Hk; [lia|].
  rewrite lookup_S in Hu. apply find_elem in Hu as (e & He & _ & <-).
  pose proof (halts_directives (the_lookup fuel) k (S fuel)) as HT. rewrite Forall_forall in HT. apply HT; [|done|done].
  intros j ns' d' u' Hj Hu'. eapply IH; [exact Hu'|lia].
Qed.

(** with as much fuel as there are tokens left, every directive that the
    registry knows comes to an end. *)
Theorem directive_returns fuel ns d u st :
  the_lookup fuel ns d = Some u -> remaining st.1 < fuel -> u st <> Diverge.
Proof using laws.
  intros Hu Hst. pose proof (lookup_halts fuel ns d u Hu (remaining st.1) Hst st (le_n _)) as HT.
  by destruct (u st) as [[e|[m st']]| |].
Qed.
End Returns.

(** ** Directives return modules of their namespace *)
Definition yields {A} (Q : A -> Prop) (m : @P D A) : Prop := forall st a st', m st = Ret (inr (a, st')) -> Q a.

Lemma yields_ret {A} (Q : A -> Prop) a : Q a -> yields Q (mret a).
Proof. intros HQ st a' st' E. by injection E as <- _. Qed.
Lemma yields_fail {A} (Q : A -> Prop) e : yields Q (fail e).
Proof. done. Qed.
Lemma yields_bind {A B} (I : A -> Prop) (Q : B -> Prop) m f : yields I m -> (forall a, I a -> yields Q (f a)) -> yields Q (m ≫= f).
Proof.
  intros Hm Hf st b st' E. unfold mbind, P_bind in E. destruct (m st) as [[e|[a st1]]| |] eqn:Em; try done.
  cbn in E. eapply Hf; [|exact E]. by eapply Hm.
Qed.
Lemma yields_any {A B} (Q : B -> Prop) (m : P A) f : (forall a, yields Q (f a)) -> yields Q (m ≫= f).
Proof. intros Hf. apply (yields_bind (fun _ => True)); [done|auto]. Qed.
Lemma yields_lines {A} (I : A -> Prop) fuel body a : (forall v a, I a -> yields I (body v a)) -> I a -> yields I (lines fuel body a).
Proof.
  revert a. induction fuel as [|fuel IH]; intros a Hb Ha; [done|]. cbn [lines]. apply yields_any. intros v.
  case_decide; [by apply yields_ret|]. eapply yields_bind; [by apply Hb|]. intros a' Ha'. apply yields_any. intros [].
  - by apply IH.
  - apply yields_fail.
Qed.
Lemma yields_block {A} (I : A -> Prop) fuel body a : (forall v a, I a -> yields I (body v a)) -> I a -> yields I (block fuel body a).
Proof. intros Hb Ha. apply yields_any. intros n. apply yields_any. intros []; [by apply yields_lines|apply yields_fail]. Qed.

Definition within (ns : gostring) (m : option (CModule J)) : Prop :=
  forall x, m = Some x -> exists name, name <> [] /\ ID x = ns ++ lit "." ++ name.

Lemma TrimPrefix_app s t : TrimPrefix (s ++ t) s = t.
Proof. unfold TrimPrefix. rewrite (proj2 (HasPrefix_eq _ _)) by eauto. by rewrite drop_app_length. Qed.

Lemma within_object ns x name key (st : @St D) : ns <> [] -> ID x = ns ++ lit "." ++ name ->
  JSONModuleObject cj (Some x) ns key st = Ret (inr ((cj x (lit key) name).1, (st.1, st.2 ++ (cj x (lit key) name).2))).
Proof.
  intros Hn E. unfold JSONModuleObject. rewrite E, !TrimPrefix_app.
  rewrite !bool_decide_eq_false_2; [by destruct (cj _ _ _)| |]; intros E'; apply (f_equal length) in E'; rewrite ?length_app in E';
    cbn in E'; [lia|]. destruct ns; [done|cbn in E'; lia].
Qed.

Section Namespaces.
Context (L : @Lookup D J) (fuel : nat) (HL : forall ns d u, L ns d = Some u -> yields (within ns) u).

Lemma yields_give ns x : (exists name, name <> [] /\ ID x = ns ++ lit "." ++ name) -> yields (within ns) (give x : Unmarshaller).
Proof. intros Hx. apply yields_ret. by intros ? [= <-]. Qed.

Lemma yields_matcher_lines : yields (Forall (within NsMatcher)) (block fuel (matcher_line L) []).
Proof using HL.
  apply yields_block; [|constructor]. intros v l Hl. unfold matcher_line. destruct (L NsMatcher v) as [u|] eqn:Hu; [|apply yields_fail].
  eapply yields_bind; [by eapply HL|]. intros m Hm. apply yields_ret. apply Forall_app. by repeat constructor.
Qed.

Ltac r_step :=
  match goal with
  | |- yields _ (fail _) => apply yields_fail
  | |- yields (within _) (give _) => apply yields_give; eexists; split; [|vm_compute; reflexivity]; discriminate
  | |- yields _ (_ ≫= fun b : bool => if b then _ else _) => apply yields_any; intros []
  | |- yields _ (mbind _ _) => apply yields_any; intros ?
  end.

Lemma yields_tracing : yields (within NsHandler) (handler_tracing L).
Proof using HL.
  apply yields_any. intros v. case_decide; [|apply yields_ret; done]. apply yields_any. intros v'.
  destruct (L NsTracing v') as [u|] eqn:Hu; [|apply yields_fail]. intros st m st' E x ->.
  destruct (HL _ _ _ Hu _ _ _ E x eq_refl) as (name & Hn & Hx). exists (lit "tracing." ++ name). split; [done|]. by rewrite Hx.
Qed.
Lemma yields_and : yields (within NsMatcher) (matcher_and cj L fuel).
Proof using HL.
  eapply yields_bind; [apply yields_matcher_lines|]. intros [|m [|m' l]] Hl; [by apply yields_ret|apply yields_ret; by inversion Hl|].
  repeat r_step.
Qed.
Lemma yields_or : yields (within NsMatcher) (matcher_or cj L fuel).
Proof using HL.
  eapply yields_bind; [apply yields_matcher_lines|]. intros [|m [|m' l]] Hl; [|apply yields_ret; by inversion Hl|]; repeat r_step.
Qed.

Lemma yields_directives : Forall (fun e => yields (within e.1.1) e.2) (the_directives L fuel).
Proof using HL.
  repeat apply Forall_cons_2; try apply Forall_nil_2; cbn [fst snd];
    try (first [exact yields_tracing | exact yields_and | exact yields_or]).
  all: match goal with |- yields _ ?m => let h := get_head m in unfold h end; unfold parseLatency; repeat r_step.
Qed.
End Namespaces.

Lemma lookup_within fuel ns d u : the_lookup fuel ns d = Some u -> yields (within ns) u.
Proof.
  revert ns d u. induction fuel as [|fuel IH]; intros ns d u Hu; [by injection Hu as <-|].
  rewrite lookup_S in Hu. apply find_elem in Hu as (e & He & [= <- _] & <-).
  pose proof (yields_directives (the_lookup fuel) (S fuel) IH) as HR. rewrite Forall_forall in HR. by apply HR.
Qed.

Lemma lookup_ns fuel ns d u : the_lookup (S fuel) ns d = Some u -> ns <> [].
Proof.
  rewrite lookup_S. intros (e & He & [= <- _] & _)%find_elem. revert e He. apply Forall_forall.
  repeat apply Forall_cons_2; try apply Forall_nil_2; done.
Qed.

(** what a directive returns is a module of the directive's namespace, so
    JSONModuleObject encodes it, under the rest of its identifier, and warns of
    nothing; only a missing module is not encoded. *)
Theorem directive_namespace fuel ns d u st m st' key :
  the_lookup (S fuel) ns d = Some u -> u st = Ret (inr (m, st')) ->
  match m with
  | Some x => exists name, name <> [] /\ ID x = ns ++ lit "." ++ name /\
      Unmarshaller_JSONModuleObject cj u ns key st = Ret (inr ((cj x (lit key) name).1, (st'.1, st'.2 ++ (cj x (lit key) name).2)))
  | None => Unmarshaller_JSONModuleObject cj u ns key st = Panic
  end.
Proof.
  intros Hu E. unfold Unmarshaller_JSONModuleObject, mbind, P_bind. rewrite E. cbn [obind]. destruct m as [x|]; [|done].
  destruct (lookup_within _ _ _ _ Hu _ _ _ E x eq_refl) as (name & Hn & Hx). exists name. split_and!; [done|done|].
  apply within_object; [by eapply lookup_ns|done].
Qed.
End Facts.
