(* ===== verification/CaddyTokens.v ===== *)
(** * CaddyTokens: what the matcher directives mean, and the Provision methods of
      lib/gat/matchers

    A tree of matchers is written as directives ([written]), read from any
    dispenser that dispenses those tokens ([DispenserSpec]), encoded, loaded back
    by Caddy and provisioned ([provision]): the matcher that comes out decides as
    the tree says ([matcher_directives_mean]).  [Tokens] is a dispenser over a list
    of lines, on which the theorems are instantiated. *)

From Stdlib Require Import Init.Byte Strings.Byte Strings.String.
From S2P Require Import Prelude.
From S2P Require Import Wire.
From S2P Require Import Packets.
From S2P Require Import Strutil.
From S2P Require Import Encodings.
From S2P Require Import Fed.
From S2P Require Import Startup.
From S2P Require Import Gat.
From S2P Require Import Containers.
From S2P Require Import CaddyModules.
From S2P Require Import Caddyfile.
From S2P Require Import CaddyFacts.

Local Open Scope go_scope.

(** ** What a dispenser has in front of it *)
Record view := mkView {
  cur : gostring;                 (* the current token *)
  args : list gostring;           (* those after it on its line *)
  more : list (list gostring);    (* the lines below, none empty *)
  nest : nat
}.

Definition opening : gostring := lit "{".
Definition closing : gostring := lit "}".

(** What Caddy documents: NextArg loads a token of the same line that does not open
    a block, NextLine the first of the next line; NextBlock opens a block that
    begins on the line, or goes on in a block until its end. *)
Class DispenserSpec (D : Type) `{DispenserOps D} := {
  look : D -> view;
  Val_look d : Val d = cur (look d);
  Nesting_look d : Nesting d = nest (look d);
  NextArg_arg d t l : args (look d) = t :: l -> t <> opening ->
    exists d', NextArg d = (true, d') /\ look d' = mkView t l (more (look d)) (nest (look d));
  NextArg_none d : (args (look d) = [] \/ exists l, args (look d) = opening :: l) -> NextArg d = (false, d);
  NextLine_line d t l ls : args (look d) = [] -> more (look d) = (t :: l) :: ls ->
    exists d', NextLine d = (true, d') /\ look d' = mkView t l ls (nest (look d));
  NextBlock_open d t l ls : args (look d) = [opening] -> more (look d) = (t :: l) :: ls -> t <> closing ->
    exists d', NextBlock (nest (look d)) d = (true, d') /\ look d' = mkView t l ls (S (nest (look d)));
  NextBlock_absent d : args (look d) = [] -> NextBlock (nest (look d)) d = (false, d);
  NextBlock_more d n t l ls : n < nest (look d) -> args (look d) = [] -> more (look d) = (t :: l) :: ls -> t <> opening -> t <> closing ->
    exists d', NextBlock n d = (true, d') /\ look d' = mkView t l ls (nest (look d));
  NextBlock_close d n ls : nest (look d) = S n -> args (look d) = [] -> more (look d) = [closing] :: ls ->
    exists d', NextBlock n d = (false, d') /\ look d' = mkView closing [] ls n
}.

(** ** The Provision methods of the matchers *)
Section Provision.
Context {J : Type}.
(** ctx.LoadModule decodes an object, and provisions it; net.Resolve*Addr. *)
Context (LoadModule : gostring -> gostring -> J -> error + CModule J).
Context (ResolveTCPAddr ResolveUDPAddr ResolveIPAddr ResolveUnixAddr : gostring -> gostring -> error + Addr).
Context (unknown_network : gostring -> error) (no_module : error).

Definition LocalAddress_Provision (Network Address : gostring) : error + Addr :=
  if decide (Network ∈ lit <$> ["tcp"; "tcp4"; "tcp6"]%string) then ResolveTCPAddr Network Address
  else if decide (Network ∈ lit <$> ["udp"; "udp4"; "udp6"]%string) then ResolveUDPAddr Network Address
  else if decide (Network ∈ lit <$> ["ip"; "ip4"; "ip6"]%string) then ResolveIPAddr Network Address
  else if decide (Network ∈ lit <$> ["unix"; "unixgram"; "unixpacket"]%string) then ResolveUnixAddr Network Address
  else inl (unknown_network Network).

Section Load.
(** Loading a module and taking it for a matcher. *)
Context (load : option J -> outcome (error + Matcher)).

Fixpoint load_all (raw : list (option J)) : outcome (error + list Matcher) :=
  match raw with
  | [] => Ret (inr [])
  | r :: raw =>
      let! m := load r in
      match m with
      | inl e => Ret (inl e)
      | inr m => let! l := load_all raw in Ret (match l with inl e => inl e | inr l => inr (m :: l) end)
      end
  end.

(** A nil slice is loaded as an empty one. *)
Definition And_Provision (raw : list (option J)) : outcome (error + Matcher) :=
  let! l := load_all raw in Ret (match l with inl e => inl e | inr l => inr (Gat.And l) end).
Definition Or_Provision (raw : list (option J)) : outcome (error + Matcher) :=
  let! l := load_all raw in Ret (match l with inl e => inl e | inr l => inr (Gat.Or l) end).
Definition Not_Provision (raw : option J) : outcome (error + Matcher) :=
  match raw with
  | None => Ret (inr (Gat.Not None))
  | Some _ => let! m := load raw in Ret (match m with inl e => inl e | inr m => inr (Gat.Not (Some m)) end)
  end.
End Load.

(** A module that is loaded is provisioned; one that is not a matcher fails the
    type assertion. *)
Fixpoint provision (fuel : nat) (m : CModule J) : outcome (error + Matcher) :=
  match fuel with
  | O => Diverge
  | S fuel =>
      let load := fun raw : option J =>
        match raw with
        | None => Ret (inl no_module)
        | Some j => match LoadModule NsMatcher (lit "matcher") j with inl e => Ret (inl e) | inr m => provision fuel m end
        end in
      match m with
      | CaddyModules.And raw => And_Provision load raw
      | CaddyModules.Or raw => Or_Provision load raw
      | CaddyModules.Not raw => Not_Provision load raw
      | CaddyModules.LocalAddress network address =>
          Ret (match LocalAddress_Provision network address with inl e => inl e | inr a => inr (Gat.LocalAddress a) end)
      | CaddyModules.User u => Ret (inr (MUser u))
      | CaddyModules.Database d => Ret (inr (MDatabase d))
      | CaddyModules.StartupParameter k v => Ret (inr (Gat.StartupParameter k v))
      | CaddyModules.SSL b => Ret (inr (MSSL b))
      | _ => Panic
      end
  end.
Definition load (fuel : nat) (raw : option J) : outcome (error + Matcher) :=
  match raw with
  | None => Ret (inl no_module)
  | Some j => match LoadModule NsMatcher (lit "matcher") j with inl e => Ret (inl e) | inr m => provision fuel m end
  end.
End Provision.

(** ** Trees of matchers, written as directives *)
Inductive tree :=
| TUser (pattern : gostring)
| TDatabase (pattern : gostring)
| TAddress (address : gostring)
| TParameter (key value : gostring)
| TSSL (b : bool)
| TNot (t : tree)
| TAnd (l : list tree)
| TOr (l : list tree).

(** The directive with its arguments, and the lines below. *)
Fixpoint written (t : tree) : list gostring * list (list gostring) :=
  let body := fix body l := match l with [] => [] | t :: l => (written t).1 :: (written t).2 ++ body l end in
  match t with
  | TUser p => ([lit "user"; p], [])
  | TDatabase p => ([lit "database"; p], [])
  | TAddress a => ([lit "local_address"; a], [])
  | TParameter k v => ([lit "parameter"; k ++ lit "=" ++ v], [])
  | TSSL b => ([lit "ssl"; if b then lit "true" else lit "false"], [])
  | TNot t => (lit "not" :: (written t).1, (written t).2)
  | TAnd l => ([lit "and"; opening], body l ++ [[closing]])
  | TOr l => ([lit "or"; opening], body l ++ [[closing]])
  end.
Fixpoint body (l : list tree) : list (list gostring) :=
  match l with [] => [] | t :: l => (written t).1 :: (written t).2 ++ body l end.

Fixpoint tsize (t : tree) : nat :=
  match t with
  | TNot t => S (tsize t)
  | TAnd l | TOr l => S (fold_right (fun t n => tsize t + n) 0 l)
  | _ => 1
  end.

Section Meaning.
Context (unicode_lower : gostring -> gostring) (resolve : gostring -> gostring -> error + Addr).

Definition network_of (a : gostring) : gostring := if HasPrefix a (lit "/") then lit "unix" else lit "tcp".

Fixpoint denote (t : tree) : Matcher :=
  match t with
  | TUser p => MUser p
  | TDatabase p => MDatabase p
  | TAddress a => Gat.LocalAddress (match resolve (network_of a) a with inr a => a | inl _ => OtherAddr end)
  | TParameter k v => Gat.StartupParameter (MakeCIString unicode_lower k) v
  | TSSL b => MSSL b
  | TNot t => Gat.Not (Some (denote t))
  | TAnd l => Gat.And (denote <$> l)
  | TOr l => Gat.Or (denote <$> l)
  end.

(** An argument is not the opening of a block, a name has no equals sign, an
    address resolves, a block is not empty. *)
Fixpoint tree_ok (t : tree) : Prop :=
  match t with
  | TUser p | TDatabase p => p <> opening
  | TAddress a => a <> opening /\ exists addr, resolve (network_of a) a = inr addr
  | TParameter k v => x3d ∉ k
  | TSSL _ => True
  | TNot t => tree_ok t
  | TAnd l | TOr l => l <> [] /\ fold_right (fun t Q => tree_ok t /\ Q) True l
  end.
End Meaning.

(** ** Reading what is written *)
Definition same_matcher {Creds} (g h : Matcher) : Prop := forall conn : @Client Creds, matches g conn = matches h conn.

Lemma And_same {Creds} gs hs : Forall2 (@same_matcher Creds) gs hs -> @same_matcher Creds (Gat.And gs) (Gat.And hs).
Proof.
  intros Hf conn. cbn [matches]. induction Hf as [|g h gs hs Hg _ IH]; [done|]. rewrite Hg. by destruct (matches h conn) as [[]| |].
Qed.
Lemma Or_same {Creds} gs hs : Forall2 (@same_matcher Creds) gs hs -> @same_matcher Creds (Gat.Or gs) (Gat.Or hs).
Proof.
  intros Hf conn. cbn [matches]. induction Hf as [|g h gs hs Hg _ IH]; [done|]. rewrite Hg. by destruct (matches h conn) as [[]| |].
Qed.
(** A block of one line is its line. *)
Lemma And_one {Creds} m : @same_matcher Creds m (Gat.And [m]).
Proof. intros conn. cbn. by destruct (matches m conn) as [[]| |]. Qed.
Lemma Or_one {Creds} m : @same_matcher Creds m (Gat.Or [m]).
Proof. intros conn. cbn. by destruct (matches m conn) as [[]| |]. Qed.

Lemma written_head t : exists d l, (written t).1 = d :: l /\ d <> opening /\ d <> closing.
Proof. destruct t; cbn; do 2 eexists; (split; [reflexivity|]); split; discriminate. Qed.
Lemma written_and l : written (TAnd l) = ([lit "and"; opening], body l ++ [[closing]]).
Proof. reflexivity. Qed.
Lemma written_or l : written (TOr l) = ([lit "or"; opening], body l ++ [[closing]]).
Proof. reflexivity. Qed.

Lemma Cut_key k v : x3d ∉ k -> Cut (k ++ lit "=" ++ v) = Some (k, v).
Proof.
  induction k as [|b k IH]; intros Hk; [done|]. cbn. rewrite decide_False by set_solver.
  change (k ++ x3d :: v) with (k ++ lit "=" ++ v). rewrite IH by set_solver. done.
Qed.

Section Read.
Context {D : Type} `{DispenserSpec D} {J Creds : Type}.
Context (cj : CModule J -> gostring -> gostring -> option J * list gostring).
Context (unicode_lower : gostring -> gostring).
Context (time_ParseDuration caddy_ParseDuration : gostring -> option Z) (level : gostring -> option Z).
Context (LoadModule : gostring -> gostring -> J -> error + CModule J).
Context (ResolveTCPAddr ResolveUDPAddr ResolveIPAddr ResolveUnixAddr : gostring -> gostring -> error + Addr).
Context (unknown_network : gostring -> error) (no_module : error).

(** What Caddy encodes it loads back. *)
Hypothesis json_loads : forall m name, ID m = NsMatcher ++ lit "." ++ name ->
  exists j, (cj m (lit "matcher") name).1 = Some j /\ LoadModule NsMatcher (lit "matcher") j = inr m.

#[local] Existing Instances P_ret P_bind.
Abbreviation the_lookup := (lookup (D := D) cj unicode_lower time_ParseDuration caddy_ParseDuration level).
Abbreviation the_directives L fuel := (directives cj L fuel unicode_lower time_ParseDuration caddy_ParseDuration level).
Definition resolve : gostring -> gostring -> error + Addr :=
  LocalAddress_Provision ResolveTCPAddr ResolveUDPAddr ResolveIPAddr ResolveUnixAddr unknown_network.
Abbreviation the_provision := (provision LoadModule ResolveTCPAddr ResolveUDPAddr ResolveIPAddr ResolveUnixAddr unknown_network no_module).
Abbreviation the_load := (load LoadModule ResolveTCPAddr ResolveUDPAddr ResolveIPAddr ResolveUnixAddr unknown_network no_module).
Abbreviation meaning := (denote unicode_lower resolve).

(** [m] is a matcher module that becomes the matcher of [t]. *)
Definition encodes (t : tree) (m : CModule J) : Prop :=
  within NsMatcher (Some m) /\
  exists f0, forall f, f0 <= f -> exists g, the_provision f m = Ret (inr g) /\ @same_matcher Creds g (meaning t).

Definition loads (t : tree) (raw : option J) : Prop :=
  exists f0, forall f, f0 <= f -> exists g, the_load f raw = Ret (inr g) /\ @same_matcher Creds g (meaning t).

Lemma encodes_object t m (st : @St D) : encodes t m ->
  exists raw ws, JSONModuleObject cj (Some m) NsMatcher "matcher" st = Ret (inr (raw, (st.1, ws))) /\ loads t raw.
Proof using json_loads.
  intros [Hw (f0 & Hf)]. destruct (Hw m eq_refl) as (name & Hn & E). destruct (json_loads m name E) as (j & Hj & Hl).
  rewrite (within_object cj NsMatcher m name _ _ ltac:(discriminate) E), Hj. do 2 eexists. split; [done|].
  exists f0. intros f Hle. destruct (Hf f Hle) as (g & Hg & Hs). exists g. unfold load. by rewrite Hl.
Qed.

(** Loading all the members of a block. *)
Lemma load_all_loads ts raws : Forall2 loads ts raws ->
  exists f0, forall f, f0 <= f -> exists gs, load_all (the_load f) raws = Ret (inr gs) /\ Forall2 (@same_matcher Creds) gs (meaning <$> ts).
Proof.
  induction 1 as [|t raw ts raws (f1 & H1) _ (f2 & H2)]; [by exists 0; intros; exists []; split; [|constructor]|].
  exists (f1 + f2). intros f Hf. destruct (H1 f ltac:(lia)) as (g & Hg & Hs). destruct (H2 f ltac:(lia)) as (gs & Hgs & Hss).
  exists (g :: gs). cbn. rewrite Hg. cbn. rewrite Hgs. split; [done|by constructor].
Qed.

Lemma encodes_block (con : list Matcher -> Matcher) (mk : list (option J) -> CModule J) tt raws ts :
  (forall f l, the_provision (S f) (mk l) = let! l := load_all (the_load f) l in Ret (match l with inl e => inl e | inr l => inr (con l) end)) ->
  within NsMatcher (Some (mk raws)) ->
  (forall gs hs, Forall2 (@same_matcher Creds) gs hs -> @same_matcher Creds (con gs) (con hs)) ->
  meaning tt = con (meaning <$> ts) -> Forall2 loads ts raws -> encodes tt (mk raws).
Proof.
  intros Hp Hw Hs Hm Hl. split; [done|]. destruct (load_all_loads _ _ Hl) as (f0 & Hf). exists (S f0). intros [|f] Hle; [lia|].
  destruct (Hf f ltac:(lia)) as (gs & Hg & Hss). exists (con gs). rewrite Hp, Hg, Hm. split; [done|by apply Hs].
Qed.

Lemma encodes_leaf t m g : within NsMatcher (Some m) -> (forall f, the_provision (S f) m = Ret (inr g)) -> g = meaning t -> encodes t m.
Proof. intros Hw Hp ->. split; [done|]. exists 1. intros [|f] Hle; [lia|]. eexists. split; [apply Hp|done]. Qed.

(** *** The leaves, and reading the directives *)
Definition at_ (d : D) (line : list gostring) (below : list (list gostring)) : Prop :=
  exists t l, line = t :: l /\ cur (look d) = t /\ args (look d) = l /\ more (look d) = below.
Definition done_ (d : D) (below : list (list gostring)) : Prop := args (look d) = [] /\ more (look d) = below.

(** A directive reads [t] and stops at the end of its last line. *)
Definition reads (u : @Unmarshaller D J) (t : tree) : Prop :=
  forall d ws ls, at_ d (written t).1 ((written t).2 ++ ls) ->
  exists m d' ws', u (d, ws) = Ret (inr (Some m, (d', ws'))) /\ encodes t m /\ done_ d' ls.

Definition reads_by (L : @Lookup D J) (t : tree) : Prop :=
  exists u, L NsMatcher (default [] (head (written t).1)) = Some u /\ reads u t.

Lemma arg_reads d ws t l below a r : at_ d (t :: a :: r) below -> a <> opening -> l = r ->
  exists d', arg (d, ws) = Ret (inr (a, (d', ws))) /\ args (look d') = l /\ more (look d') = below.
Proof.
  intros (t' & l' & [= <- <-] & _ & Ha & Hm) Hne ->. destruct (NextArg_arg d a r Ha Hne) as (d' & E & Hl).
  exists d'. unfold arg, mbind, P_bind, next_arg. cbn. rewrite E. cbn. unfold val. cbn. rewrite Val_look, Hl. by rewrite Hm.
Qed.

Lemma within_give x : (exists name, name <> [] /\ ID x = NsMatcher ++ lit "." ++ name) -> within NsMatcher (Some (x : CModule J)).
Proof. by intros ? ? [= <-]. Qed.

Ltac matcher_id := apply within_give; eexists; split; [|vm_compute; reflexivity]; discriminate.

Lemma reads_user p : p <> opening -> reads matcher_user (TUser p).
Proof.
  intros Hp d ws ls Hat. destruct (arg_reads d ws _ _ _ _ _ Hat Hp eq_refl) as (d' & E & Ha & Hm).
  exists (CaddyModules.User p), d', ws. unfold matcher_user, mbind, P_bind. rewrite E.
  split_and!; [done|eapply encodes_leaf; [matcher_id|done|done]|done].
Qed.
Lemma reads_database p : p <> opening -> reads matcher_database (TDatabase p).
Proof.
  intros Hp d ws ls Hat. destruct (arg_reads d ws _ _ _ _ _ Hat Hp eq_refl) as (d' & E & Ha & Hm).
  exists (CaddyModules.Database p), d', ws. unfold matcher_database, mbind, P_bind. rewrite E.
  split_and!; [done|eapply encodes_leaf; [matcher_id|done|done]|done].
Qed.
Lemma reads_address a addr : a <> opening -> resolve (network_of a) a = inr addr -> reads matcher_local_address (TAddress a).
Proof.
  intros Hp Hr d ws ls Hat. destruct (arg_reads d ws _ _ _ _ _ Hat Hp eq_refl) as (d' & E & Ha & Hm).
  exists (CaddyModules.LocalAddress (network_of a) a), d', ws. unfold matcher_local_address, mbind, P_bind. rewrite E.
  split_and!; [done|eapply encodes_leaf; [matcher_id| |]|done].
  - intros f. cbn [provision]. unfold resolve in Hr. by rewrite Hr.
  - cbn [denote]. by rewrite Hr.
Qed.
Lemma reads_parameter k v : x3d ∉ k -> reads (matcher_parameter unicode_lower) (TParameter k v).
Proof.
  intros Hp d ws ls Hat. assert (Hne : k ++ lit "=" ++ v <> opening) by (destruct k as [|? [|]]; cbn; congruence).
  destruct (arg_reads d ws _ _ _ _ _ Hat Hne eq_refl) as (d' & E & Ha & Hm).
  exists (CaddyModules.StartupParameter (MakeCIString unicode_lower k) v), d', ws.
  unfold matcher_parameter, key_value_arg, mbind, P_bind. rewrite E. cbn [obind]. rewrite Cut_key by done.
  split_and!; [done|eapply encodes_leaf; [matcher_id|done|done]|done].
Qed.
Lemma reads_ssl b : reads matcher_ssl (TSSL b).
Proof.
  intros d ws ls (t & l & [= <- <-] & _ & Ha & Hm).
  destruct (NextArg_arg d _ _ Ha) as (d' & E & Hl); [by destruct b|].
  exists (CaddyModules.SSL b), d', ws. unfold matcher_ssl, bool_arg, mbind, P_bind, next_arg. cbn. rewrite E. cbn. unfold val. cbn.
  rewrite Val_look, Hl. cbn [cur]. split_and!; [by destruct b|eapply encodes_leaf; [matcher_id|done|done]|].
  unfold done_. by rewrite Hl.
Qed.

(** The directive that stands at [d], read and encoded. *)
Lemma object_reads L t d ws ls : reads_by L t -> at_ d (written t).1 ((written t).2 ++ ls) ->
  exists raw d' ws', UnmarshalDirectiveJSONModuleObject cj L NsMatcher "matcher" (d, ws) = Ret (inr (raw, (d', ws'))) /\
    loads t raw /\ done_ d' ls.
Proof using json_loads.
  intros (u & HL & Hu) Hat. destruct (Hu d ws ls Hat) as (m & d' & ws' & E & Hm & Hd).
  destruct (encodes_object t m (d', ws') Hm) as (raw & ws'' & Ej & Hl). exists raw, d', ws''.
  split; [|done]. destruct Hat as (t0 & l0 & Ht & Hc & _). rewrite Ht in HL. cbn [head from_option id] in HL.
  unfold UnmarshalDirectiveJSONModuleObject, Unmarshaller_JSONModuleObject, mbind, P_bind, val. cbn [obind fst].
  rewrite Val_look, Hc. rewrite HL, E. cbn [obind]. exact Ej.
Qed.

Lemma reads_not L t : reads_by L t -> reads (matcher_not cj L) (TNot t).
Proof using json_loads.
  intros Hr d ws ls (t0 & l0 & [= <- <-] & _ & Ha & Hm).
  destruct (written_head t) as (w & r & Ew & Hwo & _). rewrite Ew in Ha.
  destruct (NextArg_arg d _ _ Ha Hwo) as (d1 & E1 & Hl1).
  assert (Hat : at_ d1 (written t).1 ((written t).2 ++ ls)).
  { exists w, r. rewrite Ew, Hl1. cbn. by rewrite Hm. }
  destruct (object_reads L t d1 ws ls Hr Hat) as (raw & d' & ws' & E & (f0 & Hld) & Hd).
  exists (CaddyModules.Not raw), d', ws'. unfold matcher_not, mbind, P_bind, next_arg. cbn [fst snd]. rewrite E1. cbn [obind fst snd].
  unfold mbind, P_bind in E. rewrite E. split_and!; [done| |done]. split; [matcher_id|].
  exists (S f0). intros [|f] Hle; [lia|]. destruct (Hld f ltac:(lia)) as (g & Hg & Hs). exists (Gat.Not (Some g)).
  cbn [provision]. destruct raw as [j|]; [|done]. unfold Not_Provision. unfold load in Hg. rewrite Hg. split; [done|].
  intros conn. cbn. by rewrite Hs.
Qed.

(** The lines of a block, up to its end. *)
Lemma reads_lines L l t0 d ws ls fuel acc :
  Forall (reads_by L) (t0 :: l) -> length l < fuel -> at_ d (written t0).1 ((written t0).2 ++ body l ++ [closing] :: ls) ->
  exists ms d' ws', lines (S fuel) (matcher_line L) acc (d, ws) = Ret (inr (acc ++ (Some <$> ms), (d', ws'))) /\
    Forall2 encodes (t0 :: l) ms /\ done_ d' ls.
Proof.
  revert t0 d ws fuel acc. induction l as [|t1 l IH]; intros t0 d ws fuel acc Hf Hlen Hat; apply Forall_cons in Hf as [(u & HL & Hu) Hf].
  all: destruct (Hu d ws _ Hat) as (m & d1 & ws1 & E & Hm & Ha1 & Hm1).
  all: destruct Hat as (w & r & Ew & Hc & _); destruct (written_head t0) as (w' & r' & Ew' & _ & Hwc).
  all: rewrite Ew' in Ew; injection Ew as -> ->; rewrite Ew' in HL; cbn [head from_option id] in HL.
  all: cbn [lines]; unfold mbind at 1, P_bind at 1, val; cbn [obind fst]; rewrite Val_look, Hc, decide_False by done.
  all: unfold mbind at 1, P_bind at 1, matcher_line at 1; rewrite HL; unfold mbind at 1, P_bind at 1; rewrite E; cbn [obind].
  - destruct (NextLine_line d1 closing [] ls Ha1 Hm1) as (d2 & E2 & Hl2). destruct fuel as [|fuel]; [cbn in Hlen; lia|].
    unfold mbind, P_bind, next_line. cbn [obind fst snd mret P_ret]. rewrite E2. cbn [obind lines]. unfold mbind, P_bind, val.
    cbn [obind fst snd]. rewrite Val_look, Hl2. cbn [cur]. rewrite decide_True by done.
    exists [m], d2, ws1. split_and!; [done|by constructor; [|constructor]|]. unfold done_. by rewrite Hl2.
  - cbn in Hlen. destruct (written_head t1) as (w1 & r1 & Ew1 & _).
    cbn [body] in Hm1. rewrite Ew1 in Hm1. destruct (NextLine_line d1 w1 r1 _ Ha1 Hm1) as (d2 & E2 & Hl2).
    unfold mbind at 1, P_bind at 1, next_line. cbn [obind fst snd mret P_ret]. rewrite E2. cbn [obind].
    destruct fuel as [|fuel]; [lia|].
    destruct (IH t1 d2 ws1 fuel (acc ++ [Some m]) Hf ltac:(lia)) as (ms & d' & ws' & E' & Hms & Hd).
    { exists w1, r1. rewrite Hl2, Ew1. split_and!; [done..|]. symmetry. apply (app_assoc (written t1).2 (body l)). }
    exists (m :: ms), d', ws'. rewrite E', <- app_assoc. split_and!; [done|by constructor|done].
Qed.

Lemma raw_matchers_reads ts ms (st : @St D) : Forall2 encodes ts ms ->
  exists raws ws, raw_matchers cj (Some <$> ms) st = Ret (inr (raws, (st.1, ws))) /\ Forall2 loads ts raws.
Proof using json_loads.
  intros Hf. revert st. induction Hf as [|t m ts ms Hm _ IH]; intros [d ws]; [by exists [], ws; split; [|constructor]|].
  destruct (encodes_object t m (d, ws) Hm) as (raw & ws1 & E1 & H1). destruct (IH (d, ws1)) as (raws & ws2 & E2 & H2).
  exists (raw :: raws), ws2. cbn [raw_matchers fmap list_fmap]. unfold mbind, P_bind. rewrite E1. cbn [obind fst].
  unfold mbind, P_bind in E2. rewrite E2. split; [done|by constructor].
Qed.

(** A block: its lines are read; one line is the whole. *)
Lemma block_reads L l d ws ls fuel w : l <> [] -> Forall (reads_by L) l -> length l <= fuel ->
  at_ d [w; opening] ((body l ++ [[closing]]) ++ ls) ->
  exists ms d' ws', block (S fuel) (matcher_line L) [] (d, ws) = Ret (inr (Some <$> ms, (d', ws'))) /\
    Forall2 encodes l ms /\ done_ d' ls.
Proof.
  intros Hne Hf Hlen (w0 & l0 & [= <- <-] & _ & Ha & Hm). destruct l as [|t0 l]; [done|].
  destruct (written_head t0) as (v & r & Ew & _ & Hvc).
  assert (Hm' : more (look d) = (v :: r) :: (written t0).2 ++ body l ++ [closing] :: ls).
  { rewrite Hm. cbn [body app]. rewrite Ew. f_equal. by rewrite <- !app_assoc. }
  destruct (NextBlock_open d v r _ Ha Hm' Hvc) as (d1 & E1 & Hl1).
  destruct (reads_lines L l t0 d1 ws ls fuel [] Hf ltac:(cbn in Hlen; lia)) as (ms & d' & ws' & E & Hms & Hd).
  { exists v, r. rewrite Hl1, Ew. done. }
  exists ms, d', ws'. split; [|done]. unfold block, mbind, P_bind, nesting, next_block. cbn [obind fst snd]. rewrite Nesting_look, E1.
  cbn [obind]. unfold mbind, P_bind in E. exact E.
Qed.

Lemma reads_and L l fuel : l <> [] -> Forall (reads_by L) l -> length l <= fuel -> reads (matcher_and cj L (S fuel)) (TAnd l).
Proof using json_loads.
  intros Hne Hf Hlen d ws ls Hat. rewrite written_and in Hat. destruct (block_reads L l d ws ls fuel _ Hne Hf Hlen Hat) as (ms & d' & ws' & E & Hms & Hd).
  unfold matcher_and, mbind at 1, P_bind at 1. rewrite E. cbn [obind]. destruct ms as [|m [|m' ms]]; cbn [fmap list_fmap].
  - by inversion Hms; subst.
  - exists m, d', ws'. split_and!; [done| |done]. inversion Hms as [|t ? ? ? [Hw (f0 & Hm)] H2]; subst. inversion H2; subst.
    split; [done|]. exists f0. intros f Hle. destruct (Hm f Hle) as (g & Hg & Hs). exists g. split; [done|].
    intros conn. rewrite Hs. apply And_one.
  - destruct (raw_matchers_reads l (m :: m' :: ms) (d', ws') Hms) as (raws & ws2 & E2 & Hr).
    exists (CaddyModules.And raws), d', ws2. unfold mbind, P_bind. cbn [fmap list_fmap] in E2. rewrite E2. split_and!; [done| |done].
    eapply (encodes_block Gat.And CaddyModules.And); [done|matcher_id|apply And_same|done|exact Hr].
Qed.
Lemma reads_or L l fuel : l <> [] -> Forall (reads_by L) l -> length l <= fuel -> reads (matcher_or cj L (S fuel)) (TOr l).
Proof using json_loads.
  intros Hne Hf Hlen d ws ls Hat. rewrite written_or in Hat. destruct (block_reads L l d ws ls fuel _ Hne Hf Hlen Hat) as (ms & d' & ws' & E & Hms & Hd).
  unfold matcher_or, mbind at 1, P_bind at 1. rewrite E. cbn [obind]. destruct ms as [|m [|m' ms]]; cbn [fmap list_fmap].
  - by inversion Hms; subst.
  - exists m, d', ws'. split_and!; [done| |done]. inversion Hms as [|t ? ? ? [Hw (f0 & Hm)] H2]; subst. inversion H2; subst.
    split; [done|]. exists f0. intros f Hle. destruct (Hm f Hle) as (g & Hg & Hs). exists g. split; [done|].
    intros conn. rewrite Hs. apply Or_one.
  - destruct (raw_matchers_reads l (m :: m' :: ms) (d', ws') Hms) as (raws & ws2 & E2 & Hr).
    exists (CaddyModules.Or raws), d', ws2. unfold mbind, P_bind. cbn [fmap list_fmap] in E2. rewrite E2. split_and!; [done| |done].
    eapply (encodes_block Gat.Or CaddyModules.Or); [done|matcher_id|apply Or_same|done|exact Hr].
Qed.

Lemma size_member l t : t ∈ l -> tsize t <= fold_right (fun t n => tsize t + n) 0 l.
Proof. induction 1 as [|? ? ? ? IH]; cbn; lia. Qed.
Lemma size_length l : length l <= fold_right (fun t n => tsize t + n) 0 l.
Proof. induction l as [|t l IH]; cbn; [done|]. assert (1 <= tsize t) by (destruct t; cbn; lia). lia. Qed.
Lemma ok_member l t : fold_right (fun t Q => tree_ok resolve t /\ Q) True l -> t ∈ l -> tree_ok resolve t.
Proof. intros Hl Ht. induction Ht as [|? ? ? ? IH]; cbn in Hl; [tauto|]. apply IH. tauto. Qed.

(** Every tree is read by the directives of the registry. *)
Lemma tree_reads fuel t : tree_ok resolve t -> tsize t <= fuel -> reads_by (the_lookup fuel) t.
Proof using json_loads.
  revert t. induction fuel as [|fuel IH]; intros t Hok Hsz; [destruct t; cbn in Hsz; lia|].
  destruct t as [p|p|a|k v|b|t|l|l].
  - eexists. split; [by apply (lookup_directive cj _ _ _ _ _ 20)|]. by apply reads_user.
  - eexists. split; [by apply (lookup_directive cj _ _ _ _ _ 21)|]. by apply reads_database.
  - eexists. split; [by apply (lookup_directive cj _ _ _ _ _ 22)|]. destruct Hok as [? [addr ?]]. by eapply reads_address.
  - eexists. split; [by apply (lookup_directive cj _ _ _ _ _ 23)|]. by apply reads_parameter.
  - eexists. split; [by apply (lookup_directive cj _ _ _ _ _ 24)|]. apply reads_ssl.
  - eexists. split; [by apply (lookup_directive cj _ _ _ _ _ 25)|]. apply reads_not. apply IH; [done|cbn in Hsz; lia].
  - eexists. split; [by apply (lookup_directive cj _ _ _ _ _ 26)|].
    destruct Hok as [Hne Hok]. cbn in Hsz. pose proof (size_length l). apply reads_and; [done| |lia].
    apply Forall_forall. intros t Ht. apply IH; [by eapply ok_member|]. pose proof (size_member l t Ht). lia.
  - eexists. split; [by apply (lookup_directive cj _ _ _ _ _ 27)|].
    destruct Hok as [Hne Hok]. cbn in Hsz. pose proof (size_length l). apply reads_or; [done| |lia].
    apply Forall_forall. intros t Ht. apply IH; [by eapply ok_member|]. pose proof (size_member l t Ht). lia.
Qed.



(** ** critic.go: the two forms of the latency critic *)
Definition result {A} (o : outcome (cerr + A * @St D)) : outcome (cerr + A) :=
  ofmap (fun r => match r with inl e => inl e | inr (a, _) => inr a end) o.

Lemma arg_look d ws a r : args (look d) = a :: r -> a <> opening ->
  exists d', arg (d, ws) = Ret (inr (a, (d', ws))) /\ look d' = mkView a r (more (look d)) (nest (look d)).
Proof.
  intros Ha Hne. destruct (NextArg_arg d a r Ha Hne) as (d' & E & Hl).
  exists d'. unfold arg, mbind, P_bind, next_arg, val. cbn. rewrite E. cbn. by rewrite Val_look, Hl.
Qed.

Definition critic_of (q v : gostring) : outcome (cerr + option (CModule J)) :=
  match caddy_ParseDuration q, caddy_ParseDuration v with
  | Some tq, Some tv => Ret (inr (Some (LatencyCritic (latency.mkCritic tq tv))))
  | _, _ => Ret (inl (WrapErr DurationError))
  end.

Lemma critic_short fuel d ws q v : args (look d) = [q; v] -> q <> opening -> v <> opening ->
  result (parseQueryCritic (J := J) fuel caddy_ParseDuration (d, ws)) = critic_of q v.
Proof.
  intros Ha Hq Hv. destruct (NextArg_arg d _ _ Ha Hq) as (d1 & E1 & L1).
  destruct (NextArg_arg d1 v [] ltac:(by rewrite L1) Hv) as (d2 & E2 & L2).
  unfold critic_of, parseQueryCritic, mbind, P_bind, next_arg, val. cbn. rewrite E1. cbn. rewrite Val_look, L1. cbn.
  destruct (caddy_ParseDuration q); [|by destruct (caddy_ParseDuration v)]. cbn. rewrite E2. cbn. rewrite Val_look, L2. cbn.
  by destruct (caddy_ParseDuration v).
Qed.

(** One setting of the block. *)
Lemma latency_setting d ws name t c : args (look d) = [t] -> t <> opening ->
  name = lit "query_threshold" \/ name = lit "validity" ->
  exists d', latency_option caddy_ParseDuration name c (d, ws) = match caddy_ParseDuration t with
    | Some z => Ret (inr ((if decide (name = lit "validity") then latency.set_Validity z c else latency.set_QueryThreshold z c), (d', ws)))
    | None => Ret (inl (WrapErr DurationError))
    end /\ look d' = mkView t [] (more (look d)) (nest (look d)).
Proof.
  intros Ha Ht Hn. destruct (arg_look d ws t [] Ha Ht) as (d' & E & L). exists d'.
  destruct Hn as [-> | ->]; unfold latency_option; cbn [switch]; unfold caddy_duration_arg, mbind, P_bind; (split; [|done]).
  - rewrite decide_False, decide_True by done. rewrite E. cbn [obind]. by destruct (caddy_ParseDuration t).
  - rewrite decide_True by done. rewrite E. cbn [obind]. by destruct (caddy_ParseDuration t).
Qed.

Lemma critic_block fuel d ws ls q v : 3 <= fuel -> args (look d) = [opening] ->
  more (look d) = [lit "query_threshold"; q] :: [lit "validity"; v] :: [closing] :: ls -> q <> opening -> v <> opening ->
  result (parseQueryCritic (J := J) fuel caddy_ParseDuration (d, ws)) = critic_of q v.
Proof.
  intros Hf Ha Hm Hq Hv. destruct fuel as [|[|[|fuel]]]; try lia.
  destruct (NextBlock_open d _ _ _ Ha Hm ltac:(discriminate)) as (d1 & E1 & L1).
  destruct (latency_setting d1 ws (lit "query_threshold") q latency_NewCritic ltac:(by rewrite L1) Hq ltac:(by left)) as (d2 & E2 & L2).
  rewrite L1 in L2. destruct (NextBlock_more d2 (nest (look d)) (lit "validity") [v] ([closing] :: ls)) as (d3 & E3 & L3);
    [rewrite L2; cbn; lia|by rewrite L2|by rewrite L2|discriminate|discriminate|].
  rewrite L2 in L3. unfold parseQueryCritic, mbind at 1, P_bind at 1, next_arg. cbn [fst snd].
  rewrite (NextArg_none d) by (right; by exists []). cbn [obind].
  unfold parseLatency, blocks, mbind, P_bind, nesting. cbn [obind fst snd blocks_loop]. unfold mbind, P_bind, next_block, val. cbn [obind fst snd].
  rewrite Nesting_look, E1. cbn [obind fst snd]. rewrite Val_look, L1. cbn [cur]. rewrite E2. unfold critic_of.
  destruct (caddy_ParseDuration q) as [tq|]; [|by destruct (caddy_ParseDuration v)]. cbn [obind fst snd]. rewrite E3. cbn [obind fst snd].
  rewrite Val_look, L3. cbn [cur]. rewrite decide_False by done.
  destruct (latency_setting d3 ws (lit "validity") v (latency.set_QueryThreshold tq latency_NewCritic) ltac:(by rewrite L3) Hv ltac:(by right)) as (d4 & E4 & L4).
  rewrite E4. destruct (caddy_ParseDuration v) as [tv|]; [|done]. cbn [obind fst snd]. rewrite L3 in L4.
  destruct (NextBlock_close d4 (nest (look d)) ls) as (d5 & E5 & _); [by rewrite L4..|]. rewrite E5. cbn [obind]. by rewrite decide_True.
Qed.

(** the short form and the block of the latency critic configure the same
    critic, or fail alike, whatever the durations. *)
Theorem critic_forms_agree fuel short block_ ws ls q v :
  3 <= fuel -> q <> opening -> v <> opening ->
  args (look short) = [q; v] ->
  args (look block_) = [opening] -> more (look block_) = [lit "query_threshold"; q] :: [lit "validity"; v] :: [closing] :: ls ->
  result (parseQueryCritic (J := J) fuel caddy_ParseDuration (short, ws)) = result (parseQueryCritic (J := J) fuel caddy_ParseDuration (block_, ws)).
Proof. intros Hf Hq Hv Hs Hb Hm. rewrite (critic_short _ _ _ q v), (critic_block _ _ _ ls q v) by done. done. Qed.

(** ** handler.go: tracing *)

(** the tracing directive with any other provider than otel panics, where an
    unknown directive should be an error. *)
Theorem tracing_unknown_panics fuel d ws provider l :
  args (look d) = provider :: l -> provider <> opening -> provider <> OtelTracingName ->
  exists u, the_lookup (S fuel) NsHandler (lit "tracing") = Some u /\
    Unmarshaller_JSONModuleObject cj u NsHandler "handler" (d, ws) = Panic.
Proof.
  intros Ha Ho Hn. eexists. split; [by apply (lookup_directive cj _ _ _ _ _ 19)|].
  destruct (NextArg_arg d _ _ Ha Ho) as (d1 & E1 & L1).
  unfold Unmarshaller_JSONModuleObject, handler_tracing, text_arg, mbind, P_bind, next_arg, val. cbn [obind fst snd]. rewrite E1. cbn [obind fst snd].
  rewrite Val_look, L1. cbn [cur]. by rewrite decide_False.
Qed.
End Read.

(** ** A dispenser over lines of tokens *)
Module Tokens.
Inductive D := mk (v : view) (back : option D).
Definition seen (d : D) : view := match d with mk v _ => v end.
Definition to (v : view) (d : D) : D := mk v (Some d).

Definition next_token (d : D) : option view :=
  let v := seen d in
  match args v with
  | t :: l => Some (mkView t l (more v) (nest v))
  | [] => match more v with (t :: l) :: ls => Some (mkView t l ls (nest v)) | _ => None end
  end.
Definition next (d : D) : bool * D := match next_token d with Some v => (true, to v d) | None => (false, d) end.
Definition next_arg (d : D) : bool * D :=
  match args (seen d) with
  | t :: _ => if decide (t = opening) then (false, d) else next d
  | [] => (false, d)
  end.
Definition next_line (d : D) : bool * D := match args (seen d) with [] => next d | _ => (false, d) end.
Definition next_block (n : nat) (d : D) : bool * D :=
  let v := seen d in
  if decide (n < nest v) then
    match next_token d with
    | None => (false, d)
    | Some w =>
        let k := if decide (cur w = closing /\ args w = []) then nest w - 1
                 else if decide (cur w = opening /\ args w = []) then S (nest w) else nest w in
        (bool_decide (n < k), to (mkView (cur w) (args w) (more w) k) d)
    end
  else
    match args v with
    | t :: _ =>
        if decide (t = opening) then
          match next_token (next d).2 with
          | None => (false, d)
          | Some w => if decide (cur w = closing) then (false, to w d) else (true, to (mkView (cur w) (args w) (more w) (S (nest w))) d)
          end
        else (false, d)
    | [] => (false, d)
    end.

#[export] Instance ops : DispenserOps D := {
  Next := next; NextArg := next_arg; NextLine := next_line; NextBlock := next_block;
  Nesting d := nest (seen d); Val d := cur (seen d);
  Prev d := match d with mk _ (Some b) => b | _ => d end;
  CountRemainingArgs d := match list_find (fun t => t = opening) (args (seen d)) with Some (i, _) => i | None => length (args (seen d)) end
}.

Definition left_ (v : view) : nat := length (args v) + length (concat (more v)).

Lemma next_token_left d v : next_token d = Some v -> S (left_ v) = left_ (seen d).
Proof.
  unfold next_token, left_. destruct (args (seen d)) as [|t l]; [destruct (more (seen d)) as [|[|t l] ls]|]; try done; intros [= <-]; cbn; len_lia.
Qed.
Lemma next_left d : (next d).1 = true -> S (left_ (seen (next d).2)) = left_ (seen d).
Proof. unfold next. destruct (next_token d) as [v|] eqn:E; [|done]. intros _. by apply next_token_left. Qed.
Lemma next_le d : left_ (seen (next d).2) <= left_ (seen d).
Proof. unfold next. destruct (next_token d) as [v|] eqn:E; [|done]. apply next_token_left in E. cbn. lia. Qed.

Lemma block_left n d : left_ (seen (next_block n d).2) <= left_ (seen d) /\
  ((next_block n d).1 = true -> left_ (seen (next_block n d).2) < left_ (seen d)).
Proof.
  assert (Hk : forall w k, left_ (mkView (cur w) (args w) (more w) k) = left_ w) by done.
  unfold next_block. case_decide.
  - destruct (next_token d) as [w|] eqn:E; [|done]. apply next_token_left in E. cbn [fst snd seen to]. rewrite Hk. lia.
  - destruct (args (seen d)) as [|t l] eqn:Ea; [done|]. case_decide; [|done].
    destruct (next_token (next d).2) as [w|] eqn:E; [|done]. apply next_token_left in E. pose proof (next_le d).
    case_decide; cbn [fst snd seen to]; rewrite ?Hk; lia.
Qed.

#[export] Instance laws : DispenserLaws D.
Proof.
  refine {| remaining d := left_ (seen d) |}.
  - intros d. cbn. unfold next_arg. destruct (args (seen d)); [done|]. case_decide; [done|apply next_le].
  - intros d. cbn. unfold next_arg. destruct (args (seen d)); [done|]. case_decide; [done|]. intros E. pose proof (next_left d E). lia.
  - intros d. cbn. unfold next_line. destruct (args (seen d)); [apply next_le|done].
  - intros d. cbn. unfold next_line. destruct (args (seen d)); [|done]. intros E. pose proof (next_left d E). lia.
  - intros n d. apply block_left.
  - intros n d. apply block_left.
  - intros d. apply next_le.
  - intros d. cbn. unfold next_arg, next. destruct (args (seen d)); [done|]. case_decide; [done|]. by destruct (next_token d).
Defined.

#[export] Instance spec : DispenserSpec D.
Proof.
  refine {| look := seen |}.
  - done.
  - done.
  - intros d t l E Hne. cbn. unfold next_arg, next, next_token. rewrite E, decide_False by done. eauto.
  - intros d [E|[l E]]; cbn; unfold next_arg; rewrite E; [done|by rewrite decide_True].
  - intros d t l ls E1 E2. cbn. unfold next_line, next, next_token. rewrite E1, E2. eauto.
  - intros d t l ls E1 E2 Hne. cbn. unfold next_block, next, next_token. rewrite E1, decide_False by lia. rewrite decide_True by done.
    cbn. rewrite E2. cbn. rewrite decide_False by done. eauto.
  - intros d E. cbn. unfold next_block. by rewrite decide_False, E by lia.
  - intros d n t l ls Hn E1 E2 Ho Hc. cbn. unfold next_block, next_token. rewrite decide_True by lia. rewrite E1, E2. cbn [cur args nest more].
    rewrite !decide_False by tauto. rewrite bool_decide_true by lia. eauto.
  - intros d n ls En E1 E2. cbn. unfold next_block, next_token. rewrite decide_True by lia. rewrite E1, E2. cbn [cur args nest more].
    rewrite decide_True by done. rewrite bool_decide_false by lia. eexists. split; [done|]. cbn. f_equal. lia.
Defined.

(** A segment of a file, before its first token, and at it. *)
Definition at_line (line : list gostring) (below : list (list gostring)) : D := (next (mk (mkView [] line below 0) None)).2.
End Tokens.
#[export] Existing Instances Tokens.ops Tokens.laws Tokens.spec.

(** Objects that remember what they encode. *)
Inductive obj := Obj (inlineKey name : gostring) (m : CModule obj).
Definition obj_encode (m : CModule obj) (inlineKey name : gostring) : option obj * list gostring := (Some (Obj inlineKey name m), []).
Definition obj_load (namespace inlineKey : gostring) (o : obj) : error + CModule obj :=
  match o with Obj k name m => if decide (k = inlineKey) then inr m else inl EOF end.

(** ** On lines of tokens *)
Lemma obj_loads : forall m name, ID m = NsMatcher ++ lit "." ++ name ->
  exists j, (obj_encode m (lit "matcher") name).1 = Some j /\ obj_load NsMatcher (lit "matcher") j = inr m.
Proof. intros m name _. eexists. split; [done|]. cbn [obj_load]. by rewrite decide_True. Qed.

Definition sample_tree : tree := TAnd [TUser (lit "app*"); TNot (TSSL true); TParameter (lit "TimeZone") (lit "UTC")].
Definition sample_resolve (network address : gostring) : error + Addr := inr (UnixAddr address network).
Definition sample_start : Tokens.D := Tokens.at_line (written sample_tree).1 ((written sample_tree).2 ++ [[lit "database"; lit "x"]]).


Definition no_duration : gostring -> option Z := fun _ => None.
Abbreviation sample_lookup := (lookup (D := Tokens.D) obj_encode id no_duration no_duration no_duration).

Lemma directive_returns_witness :
  exists u, sample_lookup 30 NsMatcher (lit "and") = Some u /\ remaining sample_start < 30 /\ u (sample_start, []) <> Diverge.
Proof.
  eexists. assert (Hu : sample_lookup 30 NsMatcher (lit "and") = Some (matcher_and obj_encode (sample_lookup 29) 30))
    by (by apply (lookup_directive obj_encode id no_duration no_duration no_duration 29 26)).
  split; [exact Hu|]. assert (Hr : remaining (sample_start, @nil gostring).1 < 30) by (vm_compute; lia). split; [exact Hr|].
  exact (directive_returns obj_encode id no_duration no_duration no_duration 30 NsMatcher (lit "and") _ (sample_start, []) Hu Hr).
Defined.

Lemma directive_namespace_witness :
  exists name, name <> [] /\ ID (@CaddyModules.User obj (lit "app")) = NsMatcher ++ lit "." ++ name /\
    Unmarshaller_JSONModuleObject obj_encode matcher_user NsMatcher "matcher" (Tokens.at_line [lit "user"; lit "app"] [], [])
    = Ret (inr (Some (Obj (lit "matcher") name (CaddyModules.User (lit "app"))),
                (Tokens.to (mkView (lit "app") [] [] 0) (Tokens.at_line [lit "user"; lit "app"] []), []))).
Proof.
  refine (directive_namespace obj_encode id no_duration no_duration no_duration 1 NsMatcher (lit "user") matcher_user
    (Tokens.at_line [lit "user"; lit "app"] [], []) (Some (CaddyModules.User (lit "app")))
    (Tokens.to (mkView (lit "app") [] [] 0) (Tokens.at_line [lit "user"; lit "app"] []), []) "matcher" _ _).
  - by apply (lookup_directive obj_encode id no_duration no_duration no_duration 1 20).
  - reflexivity.
Defined.

Definition seconds (s : gostring) : option Z := match Strconv.Atoi (take (length s - 1) s) with Some z => Some (z * Second)%Z | None => None end.

Lemma critic_forms_agree_witness :
  result (parseQueryCritic (J := obj) 3 seconds (Tokens.at_line [lit "query_latency"; lit "2s"; lit "60s"] [], [])) =
  result (parseQueryCritic (J := obj) 3 seconds
    (Tokens.at_line [lit "query_latency"; opening] [[lit "query_threshold"; lit "2s"]; [lit "validity"; lit "60s"]; [closing]], [])).
Proof. by apply (critic_forms_agree seconds 3 _ _ [] [] (lit "2s") (lit "60s")); [lia|..]. Defined.

Lemma tracing_unknown_panics_witness :
  exists u, sample_lookup 5 NsHandler (lit "tracing") = Some u /\
    Unmarshaller_JSONModuleObject obj_encode u NsHandler "handler" (Tokens.at_line [lit "tracing"; lit "jaeger"] [], []) = Panic.
Proof. by apply (tracing_unknown_panics obj_encode id no_duration no_duration no_duration 4 _ [] (lit "jaeger") []). Defined.
