(* ===== verification/ServerType.v ===== *)
(** * ServerType: lib/gat/gatcaddyfile/gattype.go, the configuration file as a whole

    Setup turns the server blocks of a file into the configuration of the app: a
    server for each block, a listener for each key of the block, and for its
    segments either options of the listeners, named matchers or routes.  Each
    segment has its own dispenser; the warnings go on from one to the next. *)

From Stdlib Require Import Init.Byte Strings.Byte Strings.String.
From S2P Require Import Prelude.
From S2P Require Import Wire.
From S2P Require Import Packets.
From S2P Require Import Strutil.
From S2P Require Import Encodings.
From S2P Require Import Fed.
From S2P Require Import Startup.
From S2P Require Import Gat.
From S2P Require Import Containers.
From S2P Require Import CaddyModules.
From S2P Require Import Caddyfile.
From S2P Require Import CaddyFacts.
From S2P Require Import CaddyTokens.

Local Open Scope Z_scope.

(** ** The configuration: lib/gat/listen.go, route.go, server.go, app.go *)
Record ListenerConfig {J : Type} := mkListener { Address : gostring; LSSL : option J; MaxConnections : Z }.
Record RouteConfig {J : Type} := mkRouteConfig { Match : option J; Handle : option J }.
Arguments ListenerConfig J : clear implicits.
Arguments mkListener {J}.
Arguments RouteConfig J : clear implicits.
Arguments mkRouteConfig {J}.
Record ServerConfig {J : Type} := mkServer { Listen : list (ListenerConfig J); Routes : list (RouteConfig J) }.
Arguments ServerConfig J : clear implicits.
Arguments mkServer {J}.
Record AppConfig {J : Type} := mkApp { StatLogPeriod : Z; Servers : list (ServerConfig J) }.
Arguments AppConfig J : clear implicits.
Arguments mkApp {J}.

(** caddyfile.ServerBlock: the texts of the keys, and the segments. *)
Record ServerBlock {Segment : Type} := mkBlock { Keys : list gostring; Segments : list Segment }.
Arguments ServerBlock Segment : clear implicits.
Arguments mkBlock {Segment}.

Section Setup.
Context {D : Type} `{DispenserOps D} {J Segment : Type} (NewDispenser : Segment -> D).
Context (cj : CModule J -> gostring -> gostring -> option J * list gostring).
Context (L : @Lookup D J) (fuel : nat) (time_ParseDuration : gostring -> option Z).

#[local] Existing Instances P_ret P_bind.

(** [if d.CountRemainingArgs() > 0 { return ArgErr }] *)
Definition no_more_args : P unit := n ← count_remaining; if decide (0 < n)%nat then fail ArgErr else mret tt.

(** *** Global options *)
Definition global_segment (period : Z) : P Z :=
  b ← next;
  if negb b then mret period
  else
    directive ← val;
    period ← (if decide (directive = lit "stat_log_period") then duration_arg time_ParseDuration
              else fail (SyntaxErr "global options"));
    no_more_args;; mret period.

(** *** A server: its configuration and the matchers named so far *)
Definition ServerState : Type := ServerConfig J * gmap gostring (option J).

(** The loops over server.Listen. *)
Fixpoint set_ssl (v : option J) (l : list (ListenerConfig J)) : option (list (ListenerConfig J)) :=
  match l with
  | [] => Some []
  | x :: l =>
      match LSSL x with
      | Some _ => None
      | None => cons (mkListener (Address x) v (MaxConnections x)) <$> set_ssl v l
      end
  end.
Definition set_max (n : Z) (l : list (ListenerConfig J)) : list (ListenerConfig J) :=
  (fun x => mkListener (Address x) (LSSL x) n) <$> l.

Definition ssl_segment (s : ServerState) : P ServerState :=
  b ← next_arg;
  v ← (if negb b then caddy_object cj SelfSigned "provider" "self_signed"
       else UnmarshalDirectiveJSONModuleObject cj L NsSSLServer "provider");
  listen ← or_fail (Err (lit "duplicate ssl directive")) (set_ssl v (Listen s.1));
  no_more_args;;
  mret (mkServer listen (Routes s.1), s.2).

Definition max_connections_segment (s : ServerState) : P ServerState :=
  v ← arg;
  maxConnections ← or_fail NumError (Strconv.Atoi v);
  no_more_args;;
  mret (mkServer (set_max maxConnections (Listen s.1)) (Routes s.1), s.2).

(** A line of the block of a named matcher. *)
Definition cond_line (_ : gostring) (l : list (option J)) : P (list (option J)) :=
  cond ← UnmarshalDirectiveJSONModuleObject cj L NsMatcher "matcher"; mret (l ++ [cond]).

Definition named_matcher : P (option J) :=
  b ← next_arg;
  if b : bool then UnmarshalDirectiveJSONModuleObject cj L NsMatcher "matcher"
  else
    b ← next_block 0;
    if negb b then fail ArgErr
    else
      and ← lines fuel cond_line [];
      match and with
      | [] => mret None
      | [m] => mret m
      | _ => caddy_object cj (CaddyModules.And and) "matcher" "and"
      end.

Definition matcher_segment (directive : gostring) (s : ServerState) : P ServerState :=
  let name := TrimPrefix directive (lit "@") in
  match s.2 !! name with
  | Some _ => fail (Err (quoted "duplicate named matcher " "" name))
  | None =>
      matcher ← named_matcher;
      no_more_args;;
      mret (s.1, <[name := matcher]> s.2)
  end.

(** The matcher of a route, if its first argument is one. *)
Definition route_match (named : gmap gostring (option J)) : P (option J) :=
  b ← next_arg;
  if negb b then mret None
  else
    matcher ← val;
    if HasPrefix matcher (lit "@") then
      or_fail (Err (quoted "unknown named matcher " "" matcher)) (named !! TrimPrefix matcher (lit "@"))
    else if HasPrefix matcher (lit "/") then
      caddy_object cj (CaddyModules.Database (TrimPrefix matcher (lit "/"))) "matcher" "database"
    else if decide (matcher = lit "*") then mret None
    else prev;; mret None.

Definition route_segment (directive : gostring) (s : ServerState) : P ServerState :=
  match L NsHandler directive with
  | None => fail (Err (quoted "unknown handler " "" directive))
  | Some unmarshaller =>
      m ← route_match s.2;
      h ← Unmarshaller_JSONModuleObject cj unmarshaller NsHandler "handler";
      no_more_args;;
      mret (mkServer (Listen s.1) (Routes s.1 ++ [mkRouteConfig m h]), s.2)
  end.

Definition server_segment (s : ServerState) : P ServerState :=
  b ← next;
  if negb b then mret s
  else
    directive ← val;
    if decide (directive = lit directiveSSL) then ssl_segment s
    else if decide (directive = lit "max_connections") then max_connections_segment s
    else if HasPrefix directive (lit "@") then matcher_segment directive s
    else route_segment directive s.

(** *** Setup *)

(** [for _, segment := range block.Segments], the warnings threaded. *)
Fixpoint segments {A} (f : A -> P A) (l : list Segment) (a : A) (ws : list gostring) : outcome (cerr + A * list gostring) :=
  match l with
  | [] => Ret (inr (a, ws))
  | segment :: l =>
      obind (f a (NewDispenser segment, ws)) (fun r =>
      match r with
      | inl e => Ret (inl e)
      | inr (a, st) => segments f l a st.2
      end)
  end.

Definition new_server (block : ServerBlock Segment) : ServerState :=
  (mkServer ((fun key => mkListener key None 1000) <$> Keys block) [], ∅).

Fixpoint servers (blocks : list (ServerBlock Segment)) (app : AppConfig J) (ws : list gostring) : outcome (cerr + AppConfig J * list gostring) :=
  match blocks with
  | [] => Ret (inr (app, ws))
  | block :: blocks =>
      obind (segments server_segment (Segments block) (new_server block) ws) (fun r =>
      match r with
      | inl e => Ret (inl e)
      | inr (s, ws) => servers blocks (mkApp (StatLogPeriod app) (Servers app ++ [s.1])) ws
      end)
  end.

Definition Setup (blocks : list (ServerBlock Segment)) : outcome (cerr + AppConfig J * list gostring) :=
  let app := mkApp (1 * Minute) [] in
  match blocks with
  | mkBlock [] options :: blocks =>
      obind (segments global_segment options (StatLogPeriod app) []) (fun r =>
      match r with
      | inl e => Ret (inl e)
      | inr (period, ws) => servers blocks (mkApp period []) ws
      end)
  | _ => servers blocks app []
  end.
End Setup.

(** ** What Setup makes of a file *)
Section Facts.
Context {D : Type} `{DispenserOps D} {J Segment : Type} (NewDispenser : Segment -> D).
Context (cj : CModule J -> gostring -> gostring -> option J * list gostring).
Context (L : @Lookup D J) (fuel : nat) (time_ParseDuration : gostring -> option Z).
#[local] Existing Instances P_ret P_bind.

Lemma P_inv {A B} (m : @P D A) (f : A -> P B) st b st' : (m ≫= f) st = Ret (inr (b, st')) ->
  exists a st1, m st = Ret (inr (a, st1)) /\ f a st1 = Ret (inr (b, st')).
Proof. unfold mbind, P_bind. destruct (m st) as [[e|[a st1]]| |]; cbn; try done. eauto. Qed.

Ltac p_inv :=
  repeat match goal with
  | E : mbind _ _ _ = Ret (inr _) |- _ => apply P_inv in E as (? & ? & ? & E); cbn beta in E
  | E : or_fail _ ?o _ = Ret (inr _) |- _ => destruct o eqn:?; [injection E as <- <-|discriminate E]
  | E : mret _ _ = Ret (inr _) |- _ => injection E as <- <-
  | E : fail _ _ = Ret (inr _) |- _ => discriminate E
  end.

(** The directive of a segment, and whether the segment is a route. *)
Definition first (seg : Segment) : option gostring :=
  let '(b, d) := Next (NewDispenser seg) in if b : bool then Some (Val d) else None.
Definition is_route (seg : Segment) : bool :=
  match first seg with
  | None => false
  | Some d => negb (bool_decide (d = lit directiveSSL) || bool_decide (d = lit "max_connections") || HasPrefix d (lit "@"))
  end.

(** A segment that names a matcher, and what it reads. *)
Definition defines (seg : Segment) (name : gostring) (raw : option J) : Prop :=
  exists d st st', first seg = Some d /\ HasPrefix d (lit "@") = true /\ name = TrimPrefix d (lit "@") /\
    named_matcher cj L fuel st = Ret (inr (raw, st')).

(** A route is read from its segment; the matcher it names is named in [done]. *)
Definition routed (done : list Segment) (seg : Segment) (route : RouteConfig J) : Prop :=
  exists d u named st st1 st2, first seg = Some d /\ L NsHandler d = Some u /\
    (forall name raw, named !! name = Some raw -> exists seg', seg' ∈ done /\ defines seg' name raw) /\
    route_match cj named st = Ret (inr (Match route, st1)) /\
    Unmarshaller_JSONModuleObject cj u NsHandler "handler" st1 = Ret (inr (Handle route, st2)).

Record built (keys : list gostring) (done : list Segment) (s : @ServerState J) : Prop := {
  b_addresses : Address <$> Listen s.1 = keys;
  b_uniform : exists v n, Forall (fun x => LSSL x = v /\ MaxConnections x = n) (Listen s.1);
  b_named : forall name raw, s.2 !! name = Some raw -> exists seg, seg ∈ done /\ defines seg name raw;
  b_routes : Forall2 (routed done) (List.filter is_route done) (Routes s.1)
}.

Lemma set_ssl_spec v l l' : set_ssl v l = Some l' -> Address <$> l' = Address <$> l /\ (MaxConnections <$> l' = MaxConnections <$> l) /\
  Forall (fun x : ListenerConfig J => LSSL x = v) l'.
Proof.
  revert l'. induction l as [|x l IH]; intros l'; cbn; [by intros [= <-]|]. destruct (LSSL x); [done|].
  intros (l1 & E & ->)%fmap_Some. destruct (IH l1 E) as (Ha & Hm & Hs). cbn. rewrite Ha, Hm. auto.
Qed.

Lemma routed_mono done done' seg r : (forall x, x ∈ done -> x ∈ done') -> routed done seg r -> routed done' seg r.
Proof.
  intros Hd (d & u & named & st & st1 & st2 & H1 & H2 & H3 & H4). exists d, u, named, st, st1, st2. do 2 (split; [done|]). split; [|done].
  intros name raw Hn. destruct (H3 name raw Hn) as (seg' & Hi & Hdf). exists seg'. auto.
Qed.

(** The segment says what becomes of the server. *)
Lemma built_other keys done seg s s' : is_route seg = false -> Routes s'.1 = Routes s.1 ->
  Address <$> Listen s'.1 = Address <$> Listen s.1 -> (exists v n, Forall (fun x => LSSL x = v /\ MaxConnections x = n) (Listen s'.1)) ->
  (forall name raw, s'.2 !! name = Some raw -> s.2 !! name = Some raw \/ defines seg name raw) ->
  built keys done s -> built keys (done ++ [seg]) s'.
Proof.
  intros Hr Ero Ea Hu Hn [Ha _ Hna Hro]. constructor.
  - by rewrite Ea.
  - done.
  - intros name raw Hl. destruct (Hn name raw Hl) as [Hl'|Hd].
    + destruct (Hna name raw Hl') as (seg' & Hi & Hd). exists seg'. split; [|done]. apply elem_of_app. by left.
    + exists seg. split; [|done]. apply elem_of_app. right. by left.
  - rewrite List.filter_app. cbn. rewrite Hr, app_nil_r, Ero. eapply Forall2_impl; [exact Hro|]. intros x y. apply routed_mono.
    intros z Hz. apply elem_of_app. by left.
Qed.


(** One segment. *)
Lemma server_segment_built keys done seg s ws s' st' : built keys done s ->
  server_segment cj L fuel s (NewDispenser seg, ws) = Ret (inr (s', st')) -> built keys (done ++ [seg]) s'.
Proof.
  intros Hb E. unfold server_segment in E. apply P_inv in E as (b & st1 & En & E). unfold next in En. cbn [fst snd] in En.
  destruct (Next (NewDispenser seg)) as [b0 d0] eqn:Ed. injection En as -> <-. destruct b; cbn [negb] in E.
  2:{ injection E as <- <-. apply (built_other keys done seg s); [|done|done|apply Hb|by left|done]. unfold is_route, first. by rewrite Ed. }
  assert (Hf : first seg = Some (Val d0)) by (unfold first; by rewrite Ed).
  apply P_inv in E as (d & st2 & Ev & E). unfold val in Ev. injection Ev as <- <-.
  unfold is_route in *. destruct (b_uniform _ _ _ Hb) as (v0 & n0 & Hu).
  case_decide as E1; [|case_decide as E2; [|destruct (HasPrefix (Val d0) (lit "@")) eqn:E3]].
  - unfold ssl_segment in E. p_inv. destruct (set_ssl_spec _ _ _ Heqo) as (Ha & Hm & Hs).
    apply (built_other keys done seg s); [unfold is_route; rewrite Hf; by rewrite bool_decide_true|done|exact Ha| |by left|done].
    exists x1, n0. cbn. apply Forall_forall. intros y Hy. rewrite Forall_forall in Hs. split; [by apply Hs|].
    assert (Hin : MaxConnections y ∈ MaxConnections <$> Listen s.1) by (rewrite <- Hm; by apply list_elem_of_fmap_2).
    apply list_elem_of_fmap in Hin as (z & -> & Hz). rewrite Forall_forall in Hu. by apply Hu.
  - unfold max_connections_segment in E. p_inv.
    apply (built_other keys done seg s); [unfold is_route; rewrite Hf; rewrite (bool_decide_true (_ = lit "max_connections")) by done; by rewrite orb_true_r|done| | |by left|done].
    + cbn. unfold set_max. rewrite <- list_fmap_compose. done.
    + exists v0, z. cbn. apply Forall_fmap. eapply Forall_impl; [exact Hu|]. by intros y [Hy _].
  - unfold matcher_segment in E. destruct (s.2 !! TrimPrefix (Val d0) (lit "@")) eqn:El; [discriminate|]. p_inv.
    apply (built_other keys done seg s); [unfold is_route; rewrite Hf, E3; by rewrite orb_true_r|done|done|by eauto| |done].
    intros name raw. cbn. intros [[<- <-]|[_ Hl]]%lookup_insert_Some; [|by left]. right. exists (Val d0). by do 2 eexists.
  - unfold route_segment in E. destruct (L NsHandler (Val d0)) as [u|] eqn:EL; [|discriminate]. p_inv.
    destruct Hb as [Ha _ Hna Hro].
    assert (Hmono : forall z, z ∈ done -> z ∈ done ++ [seg]) by (intros z Hz; apply elem_of_app; by left).
    constructor; cbn; [done|by eauto| |].
    + intros name raw Hl. destruct (Hna name raw Hl) as (seg' & ? & ?). exists seg'. auto.
    + rewrite List.filter_app. cbn. assert (Hr : is_route seg = true).
      { unfold is_route. rewrite Hf, E3, !bool_decide_false by done. done. }
      rewrite Hr. apply Forall2_app; [eapply Forall2_impl; [exact Hro|]; intros ? ?; by apply routed_mono|].
      constructor; [|constructor]. do 6 eexists. split; [exact Hf|]. split; [exact EL|]. split; [|split; [cbn; eassumption|cbn; eassumption]].
      intros name raw Hl. destruct (Hna name raw Hl) as (seg' & ? & ?). exists seg'. auto.
Qed.

Lemma segments_built keys done l s ws s' ws' : built keys done s ->
  segments NewDispenser (server_segment cj L fuel) l s ws = Ret (inr (s', ws')) -> built keys (done ++ l) s'.
Proof.
  revert done s ws. induction l as [|seg l IH]; intros done s ws Hb E; cbn [segments] in E.
  - injection E as <- _. by rewrite app_nil_r.
  - destruct (server_segment cj L fuel s (NewDispenser seg, ws)) as [[e|[s1 st1]]| |] eqn:E1; try discriminate E. cbn [obind] in E.
    rewrite (cons_middle seg), app_assoc. eapply IH; [|exact E]. by eapply server_segment_built.
Qed.

Lemma new_server_built (block : ServerBlock Segment) : built (Keys block) [] (new_server block).
Proof.
  constructor; cbn.
  - rewrite <- list_fmap_compose. by apply list_fmap_id.
  - exists None, 1000. apply Forall_fmap. by apply Forall_true.
  - done.
  - constructor.
Qed.

(** The blocks that are servers. *)
Definition server_blocks (blocks : list (ServerBlock Segment)) : list (ServerBlock Segment) :=
  match blocks with mkBlock [] _ :: l => l | l => l end.

Definition server_of (block : ServerBlock Segment) (server : ServerConfig J) : Prop :=
  exists named, built (Keys block) (Segments block) (server, named).

Lemma servers_built blocks app ws app' ws' : servers NewDispenser cj L fuel blocks app ws = Ret (inr (app', ws')) ->
  exists new, Servers app' = Servers app ++ new /\ Forall2 server_of blocks new.
Proof.
  revert app ws. induction blocks as [|block blocks IH]; intros app ws E; cbn [servers] in E.
  - injection E as <- _. exists []. by rewrite app_nil_r.
  - destruct (segments _ _ _ _ _) as [[e|[s ws1]]| |] eqn:E1; try discriminate E. cbn [obind] in E.
    destruct (IH _ _ E) as (new & En & Hn). exists (s.1 :: new). cbn in En. rewrite En, <- app_assoc. split; [done|].
    constructor; [|done]. exists s.2. apply (segments_built _ [] _ _ _ _ _ (new_server_built block)) in E1. by destruct s.
Qed.

End Facts.

(** ** Setup returns *)
Section Returns.
Context {D : Type} `{DispenserOps D} {laws : DispenserLaws D} {J Segment : Type} (NewDispenser : Segment -> D).
Context (cj : CModule J -> gostring -> gostring -> option J * list gostring).
Context (unicode_lower : gostring -> gostring).
Context (time_ParseDuration caddy_ParseDuration : gostring -> option Z) (level : gostring -> option Z) (fuel : nat).
#[local] Existing Instances P_ret P_bind.
Abbreviation L := (lookup cj unicode_lower time_ParseDuration caddy_ParseDuration level fuel).

Lemma halts_count k : halts k (count_remaining (D := D)).
Proof. intros st _. cbn. lia. Qed.
Lemma halts_next k : halts k (next (D := D)).
Proof. intros [d ws] _. unfold next. cbn. pose proof (Next_moves d). by destruct (Next d). Qed.
Lemma halts_no_more_args k : halts k (no_more_args (D := D)).
Proof. apply halts_bind; [apply halts_count|]. intros n. case_decide; [apply halts_fail|apply halts_ret]. Qed.
Lemma halts_caddy_object k m key name : halts k (caddy_object (D := D) cj m key name).
Proof. unfold caddy_object. destruct (cj _ _ _). apply halts_bind; [apply halts_warn|]. intros. apply halts_ret. Qed.
Lemma halts_here k ns d u : (k < fuel)%nat -> L ns d = Some u -> halts k u.
Proof using laws. intros Hk Hu. by eapply lookup_halts. Qed.
Lemma halts_object_here k ns key : (k < fuel)%nat -> halts k (UnmarshalDirectiveJSONModuleObject cj L ns key).
Proof using laws.
  intros Hk. apply halts_bind; [apply halts_val|]. intros v. destruct (L ns v) as [u|] eqn:Hu; [|apply halts_fail].
  apply halts_bind; [by eapply halts_here|]. intros m. apply halts_JSONModuleObject.
Qed.

Lemma halts_route_match k named : halts k (route_match (D := D) cj named).
Proof.
  intros [d ws] Hd. unfold route_match, mbind at 1, P_bind at 1, next_arg. cbn [fst snd] in *.
  pose proof (NextArg_moves d) as Hm. pose proof (Prev_back d) as Hp. destruct (NextArg d) as [[] d'] eqn:E; cbn [obind negb fst snd] in *; [|cbn; lia].
  unfold mbind, P_bind, val. cbn [obind fst snd].
  destruct (HasPrefix _ (lit "@")); [by destruct (named !! _)|]. destruct (HasPrefix _ (lit "/")).
  - match goal with |- context [caddy_object cj ?m ?k ?n] => pose proof (halts_caddy_object (remaining d') m k n (d', ws) (le_n _)) as Hc end.
    destruct (caddy_object _ _ _ _ _) as [[e|[a st]]| |]; try done. cbn in *. lia.
  - case_decide; cbn; [lia|auto].
Qed.

Ltac h_step :=
  match goal with
  | |- halts _ (fail _) => apply halts_fail
  | |- halts _ (mret _) => apply halts_ret
  | |- halts _ val => apply halts_val
  | |- halts _ next_arg => apply halts_next_arg_moves
  | |- halts _ no_more_args => apply halts_no_more_args
  | |- halts _ (or_fail _ _) => apply halts_or_fail
  | |- halts _ (caddy_object _ _ _ _) => apply halts_caddy_object
  | |- halts _ (UnmarshalDirectiveJSONModuleObject _ _ _ _) => apply halts_object_here; lia
  | |- halts _ (route_match _ _) => apply halts_route_match
  | |- halts _ (JSONModuleObject _ _ _ _) => apply halts_JSONModuleObject
  | |- halts _ (b ← next_arg; if b : bool then _ else _) => apply halts_next_arg; [intros ? ?|]
  | |- halts _ (_ ← arg; _) => apply halts_arg; intros ? ? ?
  | |- halts _ (lines _ _ _) => apply halts_lines; [intros ? ?|lia]
  | |- halts _ (mbind _ _) => apply halts_bind; [|intros ?]
  | |- halts _ (if ?b then _ else _) => destruct b
  | |- halts _ (match ?x with _ => _ end) => destruct x eqn:?
  end.

Lemma halts_next_block_any k n : halts k (next_block (D := D) n).
Proof. intros [d ws] _. unfold next_block. cbn. pose proof (NextBlock_moves n d). by destruct (NextBlock n d). Qed.

Lemma halts_server_segment k s : (k < fuel)%nat -> halts k (server_segment cj L fuel s).
Proof using laws.
  intros Hk. apply halts_bind; [apply halts_next|]. intros b. unfold ssl_segment, max_connections_segment, matcher_segment, named_matcher, route_segment, Unmarshaller_JSONModuleObject, cond_line.
  repeat first [h_step | apply halts_next_block_any]. by eapply halts_here.
Qed.
Lemma halts_global_segment k p : halts k (global_segment (D := D) time_ParseDuration p).
Proof using laws. apply halts_bind; [apply halts_next|]. intros b. unfold duration_arg. repeat h_step. Qed.

Lemma segments_return {A} (f : A -> P A) l a ws :
  (forall k a, (k < fuel)%nat -> halts k (f a)) -> (forall seg, seg ∈ l -> (remaining (NewDispenser seg) < fuel)%nat) ->
  segments NewDispenser f l a ws <> Diverge.
Proof.
  intros Hf. revert a ws. induction l as [|seg l IH]; intros a ws Hl; cbn [segments]; [done|].
  pose proof (Hf _ a (Hl seg ltac:(left)) (NewDispenser seg, ws) (le_n _)) as Hs.
  destruct (f a (NewDispenser seg, ws)) as [[e|[a' st]]| |]; try done. cbn [obind]. apply IH. intros. apply Hl. by right.
Qed.

Lemma servers_return blocks app ws : (forall block seg, block ∈ blocks -> seg ∈ Segments block -> (remaining (NewDispenser seg) < fuel)%nat) ->
  servers NewDispenser cj L fuel blocks app ws <> Diverge.
Proof using laws.
  revert app ws. induction blocks as [|block blocks IH]; intros app ws Hb; cbn [servers]; [done|].
  pose proof (segments_return (server_segment cj L fuel) (Segments block) (new_server block) ws
    ltac:(intros; by apply halts_server_segment) ltac:(intros seg; apply (Hb block); left)) as Hs.
  destruct (segments _ _ _ _ _) as [[e|[s ws1]]| |]; try done. cbn [obind]. apply IH. intros b seg Hi. apply Hb. by right.
Qed.

(** C32: with as much fuel as a segment has tokens, Setup comes to an end for every
    file: with a configuration, with an error, or with the panic of
    [tracing_unknown_panics], for a directive that made no module. *)
Theorem Setup_returns blocks :
  (forall block seg, block ∈ blocks -> seg ∈ Segments block -> (remaining (NewDispenser seg) < fuel)%nat) ->
  Setup NewDispenser cj L fuel time_ParseDuration blocks <> Diverge.
Proof using laws.
  intros Hb. unfold Setup. destruct blocks as [|[[|k keys] options] blocks]; [done| |by apply servers_return].
  pose proof (segments_return (global_segment (D := D) time_ParseDuration) options (1 * Minute) [] ltac:(intros; apply halts_global_segment)
    ltac:(intros seg; apply (Hb (mkBlock [] options)); left)) as Hs.
  cbn [StatLogPeriod]. destruct (segments _ _ _ _ _) as [[e|[p ws1]]| |]; try done. cbn [obind]. apply servers_return.
  intros b seg Hi. apply Hb. by right.
Qed.
End Returns.

(** ** A file *)
Definition lines_of (seg : list (list gostring)) : Tokens.D := Tokens.mk (mkView [] [] seg 0) None.
Definition sample_file : list (ServerBlock (list (list gostring))) :=
  [mkBlock [] [[[lit "stat_log_period"; lit "30s"]]];
   mkBlock [lit "0.0.0.0:5432"; lit "/run/pggat"]
     [[[lit "ssl"]]; [[lit "max_connections"; lit "50"]];
      [[lit "@app"; lit "user"; lit "app*"]];
      [[lit "pool"; lit "@app"; lit "db:5432"; lit "db"; lit "app"; lit "secret"]];
      [[lit "error"; lit "*"; lit "no such user"]]]].
Definition sample_app : outcome (cerr + AppConfig obj * list gostring) :=
  Setup lines_of obj_encode (sample_lookup 30) 30 seconds sample_file.


Lemma Setup_returns_witness : Setup lines_of obj_encode (lookup (D := Tokens.D) obj_encode id seconds no_duration no_duration 30) 30 seconds sample_file <> Diverge.
Proof.
  apply (Setup_returns lines_of obj_encode id seconds no_duration no_duration 30 sample_file).
  intros block seg Hb Hs. repeat (apply elem_of_cons in Hb as [->|Hb]; [cbn in Hs; repeat (apply elem_of_cons in Hs as [->|Hs]; [vm_compute; lia|]); by apply elem_of_nil in Hs|]).
  by apply elem_of_nil in Hb.
Defined.
