(* ===== verification/Server.v ===== *)
(** * Server: the life cycle of lib/gat/app.go, server.go, route.go and listen.go

    The app makes its servers, listeners and routes from the configuration
    (ServerType), starts them and stops them.  [Net] is the part of the operating
    system they change: the sockets that are open, the goroutines that accept from
    them and the loops that log statistics.  Go updates the structs in place, also
    when it returns an error, so an operation returns its error with the new
    values. *)

From Stdlib Require Import Init.Byte Strings.Byte Strings.String.
From S2P Require Import Prelude.
From S2P Require Import Ring.
From S2P Require Import Wire.
From S2P Require Import Packets.
From S2P Require Import Strutil.
From S2P Require Import Encodings.
From S2P Require Import Fed.
From S2P Require Import Startup.
From S2P Require Import Credentials.
From S2P Require Import Gat.
From S2P Require Import ServerType.

Local Open Scope go_scope.

(** caddy.NetworkAddress *)
Record NetworkAddress := mkAddress { Network : gostring; Host : gostring; StartPort : Z; EndPort : Z }.

Inductive perr :=
| ParsingPort
| LoadingSSL (e : error)
| LoadingMatcher (e : error)
| LoadingHandle (e : error).

Inductive chan := NilChan | OpenChan | ClosedChan.

(** What a call to Listen returned. *)
Inductive listened := NetListener | FedListener | OtherListener.

Record Net := mkNet {
  opened : gmap nat NetworkAddress;     (* the sockets *)
  fresh : nat;                          (* the next socket *)
  accepting : gset nat;                 (* goroutines in [for T.acceptFrom(listener)] *)
  statLogLoops : nat
}.

Section Server.
Context {J TLS Creds Key : Type}.
(** ctx.LoadModule, for the three kinds of modules. *)
Context (load_ssl : J -> error + TLS) (load_matcher : J -> error + Matcher) (load_handler : J -> error + @Handler Creds).

(** ** listen.go *)
Record Listener := mkL { lconfig : ListenerConfig J; networkAddress : NetworkAddress; lssl : option TLS; listener : option nat }.

Definition parse_address (address : gostring) : perr + NetworkAddress :=
  if HasPrefix address (lit "/") then inr (mkAddress (lit "unix") address 0 0)
  else
    match cut_at x3a address with
    | None => inr (mkAddress (lit "tcp") address 5432 5432)
    | Some (host, rawPort) =>
        match Strconv.Atoi rawPort with
        | None => inl ParsingPort
        | Some port => inr (mkAddress (lit "tcp") host (port mod 2 ^ 64) (port mod 2 ^ 64))
        end
    end.

Definition Listener_Provision (config : ListenerConfig J) : perr + Listener :=
  match parse_address (ServerType.Address config) with
  | inl e => inl e
  | inr a =>
      match LSSL config with
      | None => inr (mkL config a None None)
      | Some raw => match load_ssl raw with inl e => inl (LoadingSSL e) | inr s => inr (mkL config a (Some s) None) end
      end
  end.

(** os.MkdirAll and net.Listen, and Close of a socket. *)
Context (MkdirAll : gostring -> option error) (Listen_result : NetworkAddress -> error + listened) (Close_result : nat -> option error).
Context (Dir : gostring -> gostring).

Definition Listener_Start (T : Listener) (n : Net) : option error * (Listener * Net) :=
  let addr := networkAddress T in
  let made := if decide (Network addr = lit "unix") then MkdirAll (Dir (Host addr)) else None in
  match made with
  | Some e => (Some e, (T, n))
  | None =>
      match Listen_result addr with
      | inl e => (Some e, (T, n))
      | inr k =>
          let T := match k with
                   | NetListener | FedListener => mkL (lconfig T) addr (lssl T) (Some (fresh n))
                   | OtherListener => T
                   end in
          (None, (T, mkNet (<[fresh n := addr]> (opened n)) (S (fresh n)) (accepting n) (statLogLoops n)))
      end
  end.

(** A listener that was not started is nil.  The goroutine that accepts from it
    returns once it is closed. *)
Definition Listener_Stop (T : Listener) (n : Net) : outcome (option error * Net) :=
  match listener T with
  | None => Panic
  | Some s =>
      match Close_result s with
      | Some e => Ret (Some e, n)
      | None => Ret (None, mkNet (delete s (opened n)) (fresh n) (accepting n ∖ {[s]}) (statLogLoops n))
      end
  end.

(** ** route.go *)
Definition Route_Provision (config : RouteConfig J) : perr + Route :=
  match (match Match config with None => inr None | Some raw => match load_matcher raw with inl e => inl (LoadingMatcher e) | inr m => inr (Some m) end end) with
  | inl e => inl e
  | inr m =>
      match Handle config with
      | None => inr (mkRoute m None)
      | Some raw => match load_handler raw with inl e => inl (LoadingHandle e) | inr h => inr (mkRoute m (Some h)) end
      end
  end.

(** ** server.go *)

(** The handlers with a Cancel and a ReadMetrics method. *)
Definition is_cancellable (h : @Handler Creds) : bool := match h with PoolHandler _ | Discovery _ | OtelTracing => true | _ => false end.
Definition is_metrics (h : @Handler Creds) : bool := match h with PoolHandler _ | Discovery _ => true | _ => false end.

Record Server := mkS {
  listen : list Listener;
  routes : list (@Route Creds);
  cancellableHandlers : list (@Handler Creds);
  metricsHandlers : list (@Handler Creds)
}.

Fixpoint provision_listeners (configs : list (ListenerConfig J)) : perr + list Listener :=
  match configs with
  | [] => inr []
  | c :: configs =>
      match Listener_Provision c with
      | inl e => inl e
      | inr l => match provision_listeners configs with inl e => inl e | inr ls => inr (l :: ls) end
      end
  end.

Definition add_route (route : Route) (T : Server) : Server :=
  let collect p l := match handle_ route with Some h => if p h : bool then l ++ [h] else l | None => l end in
  mkS (listen T) (routes T ++ [route]) (collect is_cancellable (cancellableHandlers T)) (collect is_metrics (metricsHandlers T)).

Fixpoint provision_routes (configs : list (RouteConfig J)) (T : Server) : perr + Server :=
  match configs with
  | [] => inr T
  | c :: configs => match Route_Provision c with inl e => inl e | inr r => provision_routes configs (add_route r T) end
  end.

Definition Server_Provision (config : ServerConfig J) : perr + Server :=
  match provision_listeners (Listen config) with
  | inl e => inl e
  | inr ls => provision_routes (Routes config) (mkS ls [] [] [])
  end.

(** start: the goroutine accepts from the listener that was just started. *)
Definition spawn (T : Listener) (n : Net) : Net :=
  match listener T with
  | Some s => mkNet (opened n) (fresh n) (accepting n ∪ {[s]}) (statLogLoops n)
  | None => n
  end.
Fixpoint start_listeners (ls : list Listener) (n : Net) : option error * (list Listener * Net) :=
  match ls with
  | [] => (None, ([], n))
  | l :: ls =>
      let '(err, (l, n)) := Listener_Start l n in
      match err with
      | Some e => (Some e, (l :: ls, n))
      | None => let '(err, (ls, n)) := start_listeners ls (spawn l n) in (err, (l :: ls, n))
      end
  end.
Definition Server_Start (T : Server) (n : Net) : option error * (Server * Net) :=
  let '(err, (ls, n)) := start_listeners (listen T) n in
  (err, (mkS ls (routes T) (cancellableHandlers T) (metricsHandlers T), n)).

Fixpoint stop_listeners (ls : list Listener) (n : Net) : outcome (option error * Net) :=
  match ls with
  | [] => Ret (None, n)
  | l :: ls =>
      let! r := Listener_Stop l n in
      match r with
      | (Some e, n) => Ret (Some e, n)
      | (None, n) => stop_listeners ls n
      end
  end.
Definition Server_Stop (T : Server) (n : Net) : outcome (option error * Net) := stop_listeners (listen T) n.

(** Cancel and ReadMetrics: the calls they make, in order. *)
Definition Server_Cancel (T : Server) (key : Key) : list (@Handler Creds * Key) := (fun h => (h, key)) <$> cancellableHandlers T.
Definition Server_ReadMetrics {M} (read : @Handler Creds -> M -> M) (T : Server) (m : M) : M :=
  foldl (fun m h => read h m) m (metricsHandlers T).

(** *** accept *)

Inductive aev :=
| ACancel (h : @Handler Creds) (key : Key)
| AServed (c : @Client Creds)          (* as it was left *)
| AClosed.

(** acceptFrom: whether the loop goes on. *)
Inductive accept_error := ErrNetClosed | OpError (text : gostring) | OtherError.
Definition fake_closed : gostring := lit "listener 'closed' " ++ [xf0; x9f; x98; x89].
Definition acceptFrom (result : option accept_error) : bool :=
  match result with
  | None => true
  | Some ErrNetClosed => false
  | Some (OpError text) => negb (bool_decide (text = fake_closed))
  | Some OtherError => true
  end.

(** ** app.go *)
Record App := mkA { StatLogPeriod : Z; servers : list Server; closed : chan }.

Fixpoint provision_servers (configs : list (ServerConfig J)) : perr + list Server :=
  match configs with
  | [] => inr []
  | c :: configs =>
      match Server_Provision c with
      | inl e => inl e
      | inr s => match provision_servers configs with inl e => inl e | inr ss => inr (s :: ss) end
      end
  end.
Definition App_Provision (config : AppConfig J) : perr + App :=
  match provision_servers (Servers config) with
  | inl e => inl e
  | inr ss => inr (mkA (ServerType.StatLogPeriod config) ss NilChan)
  end.

Fixpoint start_servers (ss : list Server) (n : Net) : option error * (list Server * Net) :=
  match ss with
  | [] => (None, ([], n))
  | s :: ss =>
      let '(err, (s, n)) := Server_Start s n in
      match err with
      | Some e => (Some e, (s :: ss, n))
      | None => let '(err, (ss, n)) := start_servers ss n in (err, (s :: ss, n))
      end
  end.
(** One round of statLogLoop: the statistics it logs, and those it goes on with. *)
Definition statLog_tick {M} (read : @Handler Creds -> M -> M) (clear : M -> M) (T : App) (stats : M) : M * M :=
  let stats := foldl (fun m s => Server_ReadMetrics read s m) stats (servers T) in (stats, clear stats).

(** time.NewTicker panics, in a goroutine, if the period is negative. *)
Definition App_Start (T : App) (n : Net) : outcome (option error * (App * Net)) :=
  let! n := if decide (StatLogPeriod T = 0%Z) then Ret n
            else if decide (StatLogPeriod T < 0)%Z then Panic
            else Ret (mkNet (opened n) (fresh n) (accepting n) (S (statLogLoops n))) in
  let '(err, (ss, n)) := start_servers (servers T) n in
  Ret (err, (mkA (StatLogPeriod T) ss OpenChan, n)).

Fixpoint stop_servers (ss : list Server) (n : Net) : outcome (option error * Net) :=
  match ss with
  | [] => Ret (None, n)
  | s :: ss =>
      let! r := Server_Stop s n in
      match r with
      | (Some e, n) => Ret (Some e, n)
      | (None, n) => stop_servers ss n
      end
  end.
(** close of a nil or closed channel panics; the loop that logs statistics
    returns when it is closed. *)
Definition App_Stop (T : App) (n : Net) : outcome (option error * (App * Net)) :=
  match closed T with
  | OpenChan =>
      let n := if decide (StatLogPeriod T = 0%Z) then n else mkNet (opened n) (fresh n) (accepting n) (statLogLoops n - 1) in
      let! r := stop_servers (servers T) n in
      Ret (r.1, (mkA (StatLogPeriod T) (servers T) ClosedChan, r.2))
  | _ => Panic
  end.

(** ** Starting and stopping *)
Definition listeners (ss : list Server) : list Listener := concat (listen <$> ss).

Lemma start_listeners_app l1 l2 n :
  start_listeners (l1 ++ l2) n =
    let '(err, (l1', n1)) := start_listeners l1 n in
    match err with
    | Some e => (Some e, (l1' ++ l2, n1))
    | None => let '(err, (l2', n2)) := start_listeners l2 n1 in (err, (l1' ++ l2', n2))
    end.
Proof.
  revert n. induction l1 as [|l l1 IH]; intros n; cbn [app start_listeners].
  - by destruct (start_listeners l2 n) as [[e|] [ls n']].
  - destruct (Listener_Start l n) as [[e|] [l' n1]]; [done|]. rewrite IH.
    destruct (start_listeners l1 _) as [[e|] [l1' n2]]; [done|]. by destruct (start_listeners l2 n2) as [[e|] [l2' n3]].
Qed.

(** The servers start their listeners one after the other. *)
Lemma start_servers_listeners ss n :
  (start_servers ss n).1 = (start_listeners (listeners ss) n).1 /\
  listeners (start_servers ss n).2.1 = (start_listeners (listeners ss) n).2.1 /\
  (start_servers ss n).2.2 = (start_listeners (listeners ss) n).2.2.
Proof.
  revert n. induction ss as [|s ss IH]; intros n; [done|]. cbn [start_servers]. unfold listeners. cbn [fmap list_fmap concat].
  rewrite start_listeners_app. unfold Server_Start. destruct (start_listeners (listen s) n) as [[e|] [ls n1]]; [done|].
  specialize (IH n1). unfold listeners in IH. destruct (start_servers ss n1) as [err [ss' n2]].
  destruct (start_listeners (concat _) n1) as [err' [ls' n2']]. cbn in *. destruct IH as (-> & <- & ->). done.
Qed.
Lemma stop_listeners_app l1 l2 n :
  stop_listeners (l1 ++ l2) n = let! r := stop_listeners l1 n in match r with (Some e, n) => Ret (Some e, n) | (None, n) => stop_listeners l2 n end.
Proof.
  revert n. induction l1 as [|l l1 IH]; intros n; cbn [app stop_listeners obind]; [done|].
  destruct (Listener_Stop l n) as [[[e|] n1]| |]; cbn; [done|apply IH|done|done].
Qed.
Lemma stop_servers_listeners ss n : stop_servers ss n = stop_listeners (listeners ss) n.
Proof.
  revert n. induction ss as [|s ss IH]; intros n; [done|]. cbn [stop_servers]. unfold listeners. cbn [fmap list_fmap concat].
  rewrite stop_listeners_app. unfold Server_Stop. destruct (stop_listeners (listen s) n) as [[[e|] n1]| |]; cbn; [done|apply IH|done|done].
Qed.

(** A network of [n] with the sockets of [addrs] open besides. *)
Record extends (n : Net) (addrs : list NetworkAddress) (n' : Net) : Prop := {
  x_fresh : fresh n' = fresh n + length addrs;
  x_open s : opened n' !! s = if decide (fresh n <= s < fresh n + length addrs) then addrs !! (s - fresh n) else opened n !! s;
  x_accepting : accepting n' = accepting n ∪ list_to_set (seq (fresh n) (length addrs));
  x_loops : statLogLoops n' = statLogLoops n
}.

Lemma extends_nil n : extends n [] n.
Proof. constructor; cbn; [lia| |set_solver|done]. intros s. by rewrite decide_False by lia. Qed.
Lemma extends_cons n a addrs n' : 
  extends (mkNet (<[fresh n := a]> (opened n)) (S (fresh n)) (accepting n ∪ {[fresh n]}) (statLogLoops n)) addrs n' -> extends n (a :: addrs) n'.
Proof.
  intros [Hf Ho Ha Hl]. cbn in *. constructor; cbn; [lia| |rewrite Ha; set_solver|done].
  intros s. rewrite Ho. destruct (decide (s = fresh n)) as [->|Hne].
  - rewrite decide_False, decide_True by lia. rewrite lookup_insert_eq. by replace (fresh n - fresh n) with 0 by lia.
  - rewrite lookup_insert_ne by done. destruct (decide (S (fresh n) <= s < S (fresh n + length addrs))).
    + rewrite decide_True by lia. by replace (s - fresh n) with (S (s - S (fresh n))) by lia.
    + by rewrite decide_False by lia.
Qed.

Context (always_listener : forall a k, Listen_result a = inr k -> k <> OtherListener).

(** Listeners with the sockets from [s0] on. *)
Definition bound (started : list Listener) (s0 : nat) : list Listener :=
  zip_with (fun l s => mkL (lconfig l) (networkAddress l) (lssl l) (Some s)) started (seq s0 (length started)).

(** Listeners are started up to the first that fails. *)
Lemma start_listeners_spec ls n err ls' n' : start_listeners ls n = (err, (ls', n')) ->
  exists started rest, ls = started ++ rest /\ extends n (networkAddress <$> started) n' /\
    ls' = bound started (fresh n) ++ rest /\
    (err = None <-> rest = []).
Proof using Close_result always_listener.
  revert n ls'. induction ls as [|l ls IH]; intros n ls' E; cbn [start_listeners] in E.
  - injection E as <- <- <-. exists [], []. by split_and!; [|apply extends_nil|..].
  - destruct (Listener_Start l n) as [err1 [l1 n1]] eqn:E1. destruct err1 as [e|].
    + injection E as <- <- <-. exists [], (l :: ls). unfold Listener_Start in E1.
      assert (l1 = l /\ n1 = n) as [-> ->] by (repeat case_match; simplify_eq; done). by split_and!; [|apply extends_nil|..].
    + assert (E2 : l1 = mkL (lconfig l) (networkAddress l) (lssl l) (Some (fresh n)) /\
        n1 = mkNet (<[fresh n := networkAddress l]> (opened n)) (S (fresh n)) (accepting n) (statLogLoops n)).
      { unfold Listener_Start in E1. repeat case_match; simplify_eq; try done; by edestruct always_listener. }
      destruct E2 as [-> ->]. destruct (start_listeners ls _) as [err2 [ls2 n2]] eqn:E2. injection E as -> <- ->.
      destruct (IH _ _ E2) as (started & rest & -> & Hx & -> & Hr). exists (l :: started), rest. split; [done|]. split; [|split; [done|exact Hr]].
      by apply extends_cons.
Qed.

Lemma stop_listeners_spec started n s0 : (forall s, Close_result s = None) ->
  exists n', stop_listeners (bound started s0) n = Ret (None, n') /\
    (forall s, opened n' !! s = if decide (s0 <= s < s0 + length started) then None else opened n !! s) /\
    accepting n' = accepting n ∖ list_to_set (seq s0 (length started)) /\ statLogLoops n' = statLogLoops n.
Proof.
  intros Hc. revert n s0. unfold bound. induction started as [|l started IH]; intros n s0; cbn [length seq zip_with stop_listeners].
  - exists n. split_and!; [done| |set_solver|done]. intros s. by rewrite decide_False by lia.
  - unfold Listener_Stop. cbn [listener]. rewrite Hc. cbn [obind].
    destruct (IH (mkNet (delete s0 (opened n)) (fresh n) (accepting n ∖ {[s0]}) (statLogLoops n)) (S s0)) as (n' & E & Ho & Ha & Hl).
    exists n'. split_and!; [done| |cbn in Ha; rewrite Ha; set_solver|done]. intros s. rewrite Ho. cbn.
    destruct (decide (s = s0)) as [->|Hne].
    + rewrite decide_False, decide_True by lia. apply lookup_delete_eq.
    + rewrite lookup_delete_ne by done. repeat gdecide; try done; lia.
Qed.

Lemma App_Start_spec T n err T' n' : App_Start T n = Ret (err, (T', n')) ->
  exists n0 started rest, listeners (servers T) = started ++ rest /\ extends n0 (networkAddress <$> started) n' /\
    listeners (servers T') = bound started (fresh n0) ++ rest /\ (err = None <-> rest = []) /\
    (opened n0 = opened n /\ fresh n0 = fresh n /\ accepting n0 = accepting n /\
     statLogLoops n0 = if decide (StatLogPeriod T = 0%Z) then statLogLoops n else S (statLogLoops n)) /\
    T' = mkA (StatLogPeriod T) (servers T') OpenChan /\ ~ (StatLogPeriod T < 0)%Z.
Proof using Close_result always_listener.
  intros E. unfold App_Start in E.
  set (n0 := if decide (StatLogPeriod T = 0%Z) then n else mkNet (opened n) (fresh n) (accepting n) (S (statLogLoops n))).
  assert (E0 : ~ (StatLogPeriod T < 0)%Z /\ (let '(err, (ss, n1)) := start_servers (servers T) n0 in Ret (err, (mkA (StatLogPeriod T) ss OpenChan, n1))) = Ret (err, (T', n'))).
  { unfold n0. case_decide; [split; [lia|exact E]|]. case_decide; [discriminate E|split; [lia|exact E]]. }
  clear E. destruct E0 as [Hp E0]. destruct (start_servers (servers T) n0) as [err' [ss n1]] eqn:Es. injection E0 as -> <- ->.
  pose proof (start_servers_listeners (servers T) n0) as Hl. rewrite Es in Hl. cbn [fst snd] in Hl. destruct Hl as (He & Hls & Hn).
  destruct (start_listeners (listeners (servers T)) n0) as [err' [ls n2]] eqn:El. cbn [fst snd] in *. subst err' ls n2.
  destruct (start_listeners_spec _ _ _ _ _ El) as (started & rest & Hst & Hx & Hls & Hr).
  exists n0, started, rest. split_and!; try done; try apply Hr; unfold n0; by case_decide.
Qed.

(** A socket that is open has a number already given. *)
Definition net_ok (n : Net) : Prop := forall s, is_Some (opened n !! s) \/ s ∈ accepting n -> s < fresh n.


(** C40: if a listener cannot be started, Start returns the error and leaves the
    sockets of the listeners before it open, and Stop, called then, panics on the
    listener that failed. *)
Theorem failed_start_leaks T n e T' n' :
  Forall (fun l => listener l = None) (listeners (servers T)) -> (forall s, Close_result s = None) ->
  App_Start T n = Ret (Some e, (T', n')) ->
  (exists started failed rest, listeners (servers T) = started ++ failed :: rest /\
     forall i l, started !! i = Some l -> opened n' !! (fresh n + i) = Some (networkAddress l)) /\
  App_Stop T' n' = Panic.
Proof using Close_result always_listener.
  intros Hnone Hc E. destruct (App_Start_spec _ _ _ _ _ E) as (n0 & started & rest & Hst & [Hf Ho Ha Hlp] & Hls & Hr & (Eo & Ef & Ea & Elp) & -> & Hp).
  destruct rest as [|failed rest]; [discriminate (proj2 Hr eq_refl)|].
  rewrite Ef in *. split.
  - exists started, failed, rest. split; [done|]. intros i l Hi. rewrite Ho, length_fmap.
    pose proof (lookup_lt_Some _ _ _ Hi). rewrite decide_True by lia. replace (fresh n + i - fresh n) with i by lia. by rewrite list_lookup_fmap, Hi.
  - unfold App_Stop. cbn [closed servers StatLogPeriod]. rewrite stop_servers_listeners, Hls, stop_listeners_app.
    match goal with |- context [stop_listeners _ ?m] => destruct (stop_listeners_spec started m (fresh n) Hc) as (n3 & Ek & _) end.
    rewrite Ek. cbn. unfold Listener_Stop. rewrite Hst in Hnone. apply Forall_app in Hnone as [_ [Hf' _]%Forall_cons]. by rewrite Hf'.
Qed.
End Server.

(** ** accept *)
Section Accept.
Context {J SSLServer Creds C : Type} `{ConnOps C} `{!StartupOps C}.
Context (unicode_lower : gostring -> gostring) (error_text : error -> gostring) (conn_LocalAddr : C -> Addr).
Context (auth : option Creds -> @Client Creds -> option error) (pool_Serve : nat -> @Client Creds -> option error).
Context (FromString : gostring -> gostring -> option Creds) (order : gmap gostring gostring -> list gostring).

(** The connection, as the routes see it after frontends.Accept. *)
Definition client_of (s : Session C) : @Client Creds :=
  mkClient (Startup.User s) (Startup.Database s) (Startup.Parameters s) (existsb (fun e => match e with TLS => true | _ => false end) (log s)) (conn_LocalAddr (wire s)) [].

(** [open] is the counter of the listener; the deferred calls run last. *)
Definition accept (fuel : nat) (T : @Server J SSLServer Creds) (l : @Listener J SSLServer) (open : Z) (conn : Session C) :
    outcome (list (@aev Creds BackendKey) * Z) :=
  let! r := FrontendStartup.accept unicode_lower error_text (bool_decide (is_Some (lssl l))) fuel conn in
  match r with
  | (inl _, _) => Ret ([AClosed], open)
  | (inr (Some cancelKey), _) => Ret (((fun c => ACancel c.1 c.2) <$> Server_Cancel T cancelKey) ++ [AClosed], open)
  | (inr None, conn) =>
      let count := (open + 1)%Z in
      let! c := serve_or_reject auth pool_Serve FromString order error_text (routes T) (ServerType.MaxConnections (lconfig l)) count (client_of conn) in
      Ret ([AServed c; AClosed], (count - 1)%Z)
  end.
End Accept.

Section AcceptFacts.
Context {J SSLServer Creds C : Type} `{ConnLaws C startup_ok back} `{!StartupOps C} `{!StartupLaws C}.
Context (unicode_lower : gostring -> gostring) (error_text : error -> gostring) (conn_LocalAddr : C -> Addr).
Context (auth : option Creds -> @Client Creds -> option error) (pool_Serve : nat -> @Client Creds -> option error).
Context (FromString : gostring -> gostring -> option Creds) (order : gmap gostring gostring -> list gostring).
Abbreviation accept_ := (accept unicode_lower error_text conn_LocalAddr auth pool_Serve FromString order).

End AcceptFacts.

(** ** Addresses *)
Lemma cut_at_first c s t : c ∉ s -> cut_at c (s ++ c :: t) = Some (s, t).
Proof.
  induction s as [|b s IH]; intros Hc; cbn; [by rewrite decide_True|]. rewrite decide_False by set_solver. by rewrite IH by set_solver.
Qed.

(** A host and a port are read back; the host of an IPv6 address cannot be
    written, as it has colons. *)
Lemma parse_address_host host port : x3a ∉ host -> HasPrefix (host ++ x3a :: Strconv.Itoa port) (lit "/") = false -> (0 <= port < 2 ^ 63)%Z ->
  parse_address (host ++ x3a :: Strconv.Itoa port) = inr (mkAddress (lit "tcp") host port port).
Proof.
  intros Hh Hp Hr. unfold parse_address. rewrite Hp, cut_at_first by done. rewrite StrconvFacts.Atoi_Itoa by lia. by rewrite Z.mod_small by lia.
Qed.
Lemma parse_address_ipv6 : parse_address (lit "[::1]:5432") = inl ParsingPort.
Proof. reflexivity. Qed.

(** A negative period of the statistics ends the process. *)
Lemma negative_period_panics {J TLS Creds} mk li di (T : @App J TLS Creds) n : (StatLogPeriod T < 0)%Z -> App_Start mk li di T n = Panic.
Proof. intros Hp. unfold App_Start. rewrite decide_False, decide_True by lia. done. Qed.

(** ** An app with a socket and a port *)
Definition sample_config : AppConfig unit :=
  mkApp 60 [mkServer [mkListener (lit "0.0.0.0:5432") None 100] []; mkServer [mkListener (lit "/run/pggat/s") None 0] []].
Definition sample_server : perr + @App unit unit unit := App_Provision (fun _ => inl EOF) (fun _ => inl EOF) (fun _ => inl EOF) sample_config.
Definition sample_net : Net := mkNet ∅ 3 ∅ 0.
Definition no_error {A B} : A -> option B := fun _ => None.
Definition only_tcp (a : NetworkAddress) : error + listened := if decide (Network a = lit "tcp") then inr NetListener else inl EOF.

Lemma sample_net_ok : net_ok sample_net.
Proof. intros s Hs. unfold sample_net in *. cbn [opened accepting fresh] in *. destruct Hs as [[? Hs]|Hs]; [by rewrite lookup_empty in Hs|set_solver]. Qed.


Lemma failed_start_leaks_witness :
  match sample_server with
  | inr T =>
      match App_Start no_error only_tcp id T sample_net with
      | Ret (Some e, (T', n')) => App_Stop no_error T' n' = Panic
      | _ => False
      end
  | _ => False
  end.
Proof.
  destruct sample_server as [e|T] eqn:ET; [vm_compute in ET; discriminate ET|].
  destruct (App_Start no_error only_tcp id T sample_net) as [[[e|] [T' n']]| |] eqn:E;
    try (vm_compute in ET; injection ET as <-; vm_compute in E; discriminate E).
  refine (proj2 (failed_start_leaks no_error only_tcp no_error id _ T sample_net e T' n' _ _ E)).
  - intros a k. unfold only_tcp. case_decide; [by intros [= <-]|done].
  - vm_compute in ET. injection ET as <-. by repeat constructor.
  - done.
Defined.

Definition sample_listener : @Listener unit unit := mkL (mkListener (lit "0.0.0.0:5432") None 1) (mkAddress (lit "tcp") (lit "0.0.0.0") 5432 5432) None (Some 3).
Definition sample_routes : @Server unit unit unit := mkS [sample_listener] [mkRoute None (Some (PoolHandler 7))] [PoolHandler 7] [PoolHandler 7].

(** A client that cancels. *)
Definition sample_canceller : Session Peer := peer_session [of_packet (PStartup (Startup.ControlMode (Startup.Cancel 7 42)))] [].

